(* ===== verification/_CoqProject ===== *)
-Q . S2P
Prelude.v
OrdMap.v
Core.v
Hooks.v
BTree.v
BTreeSpec.v
Codec.v
Snapshot.v
SnapshotSpec.v
Storage.v
Json.v
Float.v
Query.v
QuerySpec.v
QueryDate.v
QueryDateSpec.v
QueryEval.v
QueryEvalSpec.v
Gets.v
Ownership.v
Fencing.v
Manifest.v
ObjectStore.v
Blob.v
Probe.v
Wal.v
Merge.v
Sst.v
SstSpec.v
Cache.v
Read.v
ReadSpec.v
LsmStore.v
LsmPaths.v
StoreNames.v
LsmSpec.v
LsmInv.v
LsmDurable.v
LsmCompact.v
LsmLife.v
LsmRecover.v
LsmTx.v
LsmSessions.v
LsmTxSpec.v
Traced.v
LsmCrash.v
Late.v
Reader.v
ReaderSpec.v
Cached.v
Builder.v
CachedSpec.v
CachedTxSpec.v
Contracts.v
Otel.v
OtelSpec.v
Cloud.v
Opfs.v
OpfsSpec.v
OpfsMem.v
OpfsLsm.v
OpfsRace.v
Wasm.v
WasmStream.v
WasmStores.v
WasmSpec.v
WasmLsm.v
