(* ===== verification/Prelude.v ===== *)
(** * oxkv: a verification library

    oxkv is an embeddable key-value store.  Its stores all implement the traits
    [GetSet] and [Store]: an in-memory B-tree, and a log-structured merge store
    over an object storage with conditional writes (S3, the private files of a
    browser), which one fenced writer owns at a time.  Around them are a
    read-only view, a RAM mirror, queries over JSON values, a telemetry
    decorator and bindings for JavaScript.  The library translates the crate
    (src/src) and proves what each part promises to the others.

    ** Conventions

    - A stateful operation has type [Op S A]: the state goes in, a [Result A]
      and the new state come out, and the state survives an error.  [let!] is
      [?] on an awaited call, [try!] is a match on its result, and [op_zoom]
      runs a part's operation on the whole ([Core]).
    - Strings are byte strings, compared byte-wise as Rust does ([Prelude]); a
      [BTreeMap] is a [gmap] with its in-order traversal [bt_iter] ([OrdMap]).
      Fixed-width integers are [N] or [Z] with their wrap-around or saturation
      written out where the code can reach it; floats are those of the standard
      library's IEEE 754 specification ([Float]); lengths are exact.
    - Code outside the crate is a class whose laws state its documented
      behaviour: [Json] (serde), [Digests] (SHA-256, CRC-32), [Clock],
      [Channel] (futures), [Lucene] (the parser that pest generates),
      [RegexLib], [Unicode], [EditDistance], [JsonNumbers], [ObjectStoreApi],
      [OpfsApi], [OpenTelemetry], [SerdeWasm].  The crate's own traits are
      classes too: [StorageBackend] with [StorageLaws], [Cache] with
      [CacheLaws].  Every witness runs on concrete instances of them: the
      in-memory storage and the S3-FIFO cache of the crate, an origin and a
      cloud service in memory, a JSON codec from [Countable].
    - [StorageLaws] has a guard, [st_safe]: a backend may ask that its objects be
      fit to be found after every write.  Backends of the crate ask for nothing
      ([Unguarded]); [Traced], which records every state it has been in, asks
      for what a client has promised ([LsmInv.Promises]), and so turns the
      invariant of the writer into a statement about every point at which its
      process can stop.
    - A call is one step unless a file says otherwise.  [Fencing] interleaves
      the halves of [acquire_ownership], [Hooks.NotifyRace] the two critical
      sections of [notify], [OpfsRace] the check and the write of the tabs of an
      origin, [WasmStream] the task and the consumer of a save stream; [Traced]
      cuts a call after any request.  The write gate makes each of the writer's
      durable operations one step ([LsmStore]).
    - Loops run on fuel only where the code has no structural argument, and the
      fuel is never the reason for a result: [save_enough_fuel] (rounds of a
      save stream), [scan_fuel] (a lazy scan), [total_len] (a heap merge),
      [list_fuel] (a directory walk), the pages of [gets] (more rounds than
      there are entries), the polls of a page's stream (two for each entry, and
      two); [evict_while_over] and the retries keep the code's own bounds, a
      group commit gets one more round than the queue has entries, and the scan
      that warms a mirror counts its pages in binary ([repeat_upto], [warm_ok]).

    ** Parts

    - [Core], [Hooks]: the traits and their map specification; scopes,
      validators, watch channels, event numbers and history
      (src/src/store/mod.rs, hooks.rs).
    - [BTree], [BTreeSpec]: the in-memory store and its transactions
      (store/btree.rs).
    - [Codec], [Snapshot], [SnapshotSpec]: the record format, UTF-8 validation,
      the incremental decoder, save and load (store/mod.rs).
    - [Json], [Float]: serde, digests and clocks as classes; float literals.
    - [Query], [QuerySpec]: syntax trees and their builder from the tree of
      pairs (query/mod.rs); [QueryDate], [QueryDateSpec], [QueryEval],
      [QueryEvalSpec]: the date literals, the compilation and the matcher
      (query/json.rs); [Gets]: typed values and the pages of a query
      (store/mod.rs).
    - [Storage]: object storage and its in-memory backend; [ObjectStore], [Cloud]:
      the adapter over the object_store crate and the store on a service;
      [Opfs], [OpfsSpec], [OpfsMem], [OpfsLsm], [OpfsRace]: the private files of
      a browser, their lock, an origin in memory, the store on them, and tabs
      that race (store/storage.rs, storage/opfs_lock.rs).
    - [Ownership], [Fencing]: the ownership record, the takeover, and its races
      (store/lsm/ownership.rs).
    - [Manifest]: the manifest, its cache, the compare-and-swap
      (store/lsm/manifest.rs).
    - [Blob]: content-addressed large values (store/lsm/blob.rs).
    - [Probe]: the conditional-write probe (store/lsm/probe.rs).
    - [Wal]: log records, torn tails and replay (store/lsm/wal.rs).
    - [Merge]: the eager and the lazy newest-wins merge (store/lsm/merge.rs).
    - [Sst], [SstSpec]: sorted string tables (store/lsm/sst.rs).
    - [Cache]: the cache trait and the S3-FIFO cache (store/cache.rs).
    - [Read], [ReadSpec]: the lookup engine (store/lsm/read.rs).
    - [LsmStore], [LsmSpec], [Builder]: the writer and its builder
      (store/lsm/store.rs).
    - [LsmPaths], [StoreNames]: the object paths of the store, which never
      collide and suit every backend, and the numbers a restart reads back from
      them.
    - [LsmInv], [LsmDurable], [LsmCompact], [LsmLife], [LsmRecover],
      [LsmSessions], [LsmCrash], [Late]: the writer as a whole.  [LsmInv] states what the
      objects, the caches and the counters of an owner have to do with one
      another ([disk_ok], [io_ok]), that every storage operation keeps it, and
      what objects stand for between any two of them ([stands]); [LsmDurable]
      defines what a store stands for ([holds]) and treats flushes and
      collections, [LsmCompact] compaction, [LsmLife] the appends, the group
      commit, the reads and the calls, [LsmRecover] a takeover with its replay,
      [LsmSessions] runs of calls and of sessions, [LsmCrash] processes that
      stop anywhere, over [Traced], and [Late] an append that goes on after a
      takeover.
    - [LsmTx], [LsmTxSpec]: the transactions of the writer (store/lsm/tx.rs).
    - [Reader], [ReaderSpec]: the reader and its read-only transactions
      (store/lsm/reader.rs).
    - [Cached], [CachedSpec], [CachedTxSpec]: the RAM mirror over a writer and its
      transactions (store/lsm/cached.rs).
    - [Contracts]: the interfaces of [Core] kept by the parts of the LSM store.
    - [Otel], [OtelSpec]: the telemetry decorator (store/otel.rs).
    - [Wasm], [WasmStream], [WasmStores], [WasmSpec], [WasmLsm]: the pages that
      JavaScript sees, their transaction handles, streams and store classes
      (src/src/wasm).

    A writer's state [OxKvStore] nests the storage, the manifest cache and the
    SST cache ([ox_io]) next to the table, the counters, the log buffer and the
    group-commit queue; the lookup engine, the manifest and the storage run on
    their projections of it.  A transaction runs on the pair of its store and its
    own state; a mirror nests a writer and a B-tree store, and a transaction over
    it runs that of its writer; a page nests a store and its open handles.

    ** What is shown

    - Crash safety: processes open the store one after the other and each stops
      after any number of requests to the storage, in a takeover, a write, a
      commit, a flush, a compaction or a collection; what was acknowledged is
      there for the next, and the job in progress is there in full or not at all
      ([crash_safe]).  The opening with a probe is the exception that the code
      makes: stopped there, no later probe passes ([probed_open]).
    - Refinement: the B-tree store is one sorted map under any calls, its
      transactions are atomic and read their own writes ([btree_refines_map],
      [tx_atomic]); point lookups and scans of the LSM engine answer from the
      newest-wins union of the layers and the files ([lsm_reads]); the writer is
      one sorted map under any calls, flushes and compactions ([lsm_refines_map]),
      and stays it across restarts ([lsm_sessions], in a browser [browser_pages]);
      its transactions are those of the B-tree store ([ox_tx_refines]); a reader
      beside it answers as the storage stands for by now
      ([reader_beside_writer], [reader_follows]); the RAM mirror is the same map
      again ([mirror_refines_map]), converges to it from any mode
      ([mirror_converges]), and so do its transactions ([cached_tx_refines]); a
      page over any of the three stores answers every script alike
      ([js_scripts]); the matcher decides what a query means ([eval_decides]).
    - Liveness: the holder of the write gate answers the queued writes it takes
      ([group_commit]); a page's save stream is delivered under every schedule
      ([save_stream_delivers]).
    - Round trips: files ([sst_roundtrip]), logs with any torn tail
      ([wal_torn_tail], [replay_rebuilds]), snapshots in any chunking
      ([save_load_roundtrip], [load_prefix]), through the stores
      ([backup_restores]) and through pages ([piped_stream_restores]), blobs
      ([spill_resolve]), date literals ([date_literal_exact],
      [date_literal_bounds]) and field paths.
    - Safety: no epoch is granted twice ([epochs_granted_once]), a fenced writer
      acknowledges nothing ([append_fenced]), manifest writes and in-memory
      conditional writes compare and swap ([cas_manifest_atomic],
      [mem_cas_no_aba]), tabs under the lock are serial ([locked_tabs_serial]),
      the orphan pass deletes only unlisted logs ([gc_orphans_exact]), the probe
      is sound ([probe_sound]).
    - Error paths: a failed load leaves its target ([load_failure_untouched]),
      a failed drain keeps what was staged ([drain_keeps_staged]), a fenced
      write silences the mirror ([fenced_poisons]).
    - Equivalences and records: eager and lazy merges and scans ([merges_agree],
      [sst_scans_agree], the latter on corrupt files too); a decorated store is
      the wrapped one ([otel_transparent]) and its spans and metrics are those
      of its calls ([otel_records]); a query's pages are its matches
      ([gets_selects]).
    - Invariants and types: the cache's books and bound ([lru_calls]), the
      coherence of the manifest cache ([load_manifest_current]), event numbers
      and history ([events_since_log]), well-formed queries from every tree of
      the grammar ([builder_covers]).
    - Defects, shown on concrete runs: a value of exactly [u32::MAX] bytes
      replays as a deletion ([wal_max_value_lost]), racing notifications can be
      lost without a gap ([events_since_gap]), the public log collection can
      drop acknowledged writes ([gc_wal_loses]), an append that passed its check
      before a takeover is listed after it ([late_listing]), and lists a log that
      the new owner collected ([superseded_append_lands]), an outage can be taken for an
      empty prefix ([outage_collects_logs]), a reader's overlay can shadow newer
      data ([reader_stale]) and so can the table of a fenced writer when its
      mirror is refreshed ([refresh_keeps_stale]), and a mirror that is not
      warmed forgets previous values ([lazy_set_forgets]).

    ** What is not modelled

    - I/O failures of the storage beyond conflicts and absence, in the lawful
      statements: the operations pass every error on, and the theorems about
      them assume a backend that keeps its contract.  A process that stops is
      modelled by its requests having gone through or not; a request that the
      service applied without answering is one that has gone through.
    - The bodies of observers; the moka cache, a third-party instance of the
      trait; [Debug] implementations; readers of files that only tests call.
    - Two writers that interleave their requests at will: the races of the
      takeover, the fate of the one that loses, and the append that is already
      past its check are modelled ([Fencing], [append_fenced], [late_listing]),
      not every interleaving of their maintenance.
    - The crate root is re-exports; the benchmarks and the tests are left out.

    Every module of the crate has its model.  What a further extension would
    add is the crash safety of the mirror and of the pages, which run the same
    writer, and interleaved writers as one step relation over [Traced]. *)

From Stdlib Require Import OrdersTac Orders.
From Stdlib Require Export Strings.Byte.
From stdpp Require Export base gmap strings list sorting pretty fin_maps sets.
From stdpp Require Import options.

Create HintDb oxkv discriminated.
Create Rewrite HintDb oxkv.

(** ** Bytes *)

Abbreviation bytes := (list byte).

#[export] Instance byte_eq_dec : EqDecision byte := Byte.byte_eq_dec.

#[export] Program Instance byte_countable : Countable byte :=
  {| encode b := encode (Byte.to_N b);
     decode p := decode p ≫= Byte.of_N |}.
Next Obligation.
  simpl. intros. rewrite decode_encode. apply Byte.of_to_N.
Qed.

(** UTF-8 bytes of a Rust [String]: Rocq strings are used as byte strings, one
    [ascii] per byte, so that [String.compare] is Rust's byte-wise [Ord]. *)
Definition as_bytes (s : string) : bytes := String.list_byte_of_string s.
Definition of_bytes (b : bytes) : string := String.string_of_list_byte b.

Lemma of_as_bytes s : of_bytes (as_bytes s) = s.
Proof. apply String.string_of_list_byte_of_string. Qed.

Lemma as_of_bytes b : as_bytes (of_bytes b) = b.
Proof. apply String.list_byte_of_string_of_list_byte. Qed.

#[export] Instance as_bytes_inj : Inj (=) (=) as_bytes.
Proof. intros s1 s2 H. by rewrite <-(of_as_bytes s1), H, of_as_bytes. Qed.

#[export] Hint Rewrite of_as_bytes as_of_bytes : oxkv.

(** ** The order of keys *)

Definition key_le (a b : string) : Prop := String.le a b.
Definition key_lt (a b : string) : Prop := String.compare a b = Lt.

Lemma key_lt_le_ne (x y : string) : key_lt x y ↔ key_le x y ∧ x ≠ y.
Proof.
  unfold key_lt, key_le, String.le, String.leb. split.
  - intros H. rewrite H. split; [done|]. intros ->.
    pose proof (String.compare_antisym y y). rewrite H in *. done.
  - intros [Hle Hne]. destruct (String.compare x y) eqn:Hc; [|done..].
    by apply String.compare_eq_iff in Hc.
Qed.

#[export] Instance key_le_dec : RelDecision key_le := String.le_dec.
#[export] Instance key_lt_dec : RelDecision key_lt.
Proof. intros a b. unfold key_lt. solve_decision. Defined.

#[export] Instance key_le_po : PartialOrder key_le := String.le_po.
#[export] Instance key_le_total : Total key_le := String.le_total.

#[export] Instance key_lt_strict : StrictOrder key_lt.
Proof.
  split.
  - intros x [_ ?]%key_lt_le_ne. done.
  - intros x y z [Hxy Hne]%key_lt_le_ne [Hyz _]%key_lt_le_ne.
    apply key_lt_le_ne. split; [by etrans|].
    intros ->. by apply Hne, (anti_symm key_le).
Qed.

Module KeyOrd <: TotalOrder.
Definition t := string.
Definition eq : string → string → Prop := @Logic.eq string.
Definition le := key_le.
Definition lt := key_lt.

Lemma eq_equiv : Equivalence eq.
Proof. apply _. Qed.

Lemma lt_strorder : StrictOrder lt.
Proof. apply _. Qed.

Lemma lt_compat : Proper (eq ==> eq ==> iff) lt.
Proof. by intros ?? -> ?? ->. Qed.

Lemma le_lteq x y : le x y ↔ lt x y ∨ eq x y.
Proof.
  unfold le, lt, eq. rewrite key_lt_le_ne.
  split; [|by intros [[]| ->]].
  destruct (decide (x = y)); naive_solver.
Qed.

Lemma lt_total x y : lt x y ∨ eq x y ∨ lt y x.
Proof.
  unfold lt, eq. rewrite !key_lt_le_ne. destruct (decide (x = y)); [auto|].
  destruct (total key_le x y); naive_solver.
Qed.
End KeyOrd.

Module KeyTac := MakeOrderTac KeyOrd KeyOrd.

Declare Scope key_scope.
Delimit Scope key_scope with key.
Notation "x <ₖ y" := (key_lt x y) (at level 70) : key_scope.
Notation "x ≤ₖ y" := (key_le x y) (at level 70) : key_scope.
Open Scope key_scope.

(** Closes goals that follow from the total order on keys. *)
Ltac key_order := solve [KeyTac.order].

Lemma key_lt_nle (a b : string) : a <ₖ b ↔ ¬ b ≤ₖ a.
Proof. split; key_order. Qed.

Lemma key_lt_le (a b : string) : a <ₖ b → a ≤ₖ b.
Proof. key_order. Qed.

#[export] Hint Resolve key_lt_le : oxkv.

Lemma string_length_app (s1 s2 : string) :
  String.length (s1 +:+ s2) = String.length s1 + String.length s2.
Proof.
  induction s1 as [|a s1 IH]; [done|].
  change (String a s1 +:+ s2) with (String a (s1 +:+ s2)). simpl. by rewrite IH.
Qed.

Lemma string_app_assoc (a b c : string) : (a +:+ b) +:+ c = a +:+ b +:+ c.
Proof. induction a as [|x a IH]; [done|]. unfold String.app in *. simpl. by rewrite IH. Qed.

Lemma string_app_nil_r (s : string) : s +:+ "" = s.
Proof. induction s as [|x s IH]; [done|]. unfold String.app in *. simpl. by rewrite IH. Qed.

(** [usize::MAX], on 64 bits. *)
Definition USIZE_MAX : N := 18446744073709551615.

(** [u8::is_ascii_digit]. *)
Definition is_ascii_digit (b : byte) : bool :=
  ((48 <=? Byte.to_N b) && (Byte.to_N b <=? 57))%N.

(** ** Sorting *)

(** [slice::sort_by], which is stable. *)
Fixpoint insert_by {A} (before : A → A → bool) (x : A) (l : list A) : list A :=
  match l with
  | [] => [x]
  | y :: l' => if before y x then y :: insert_by before x l' else x :: l
  end.

Definition sort_by {A} (before : A → A → bool) (l : list A) : list A :=
  foldr (insert_by before) [] l.

Lemma insert_by_perm {A} before (x : A) l : insert_by before x l ≡ₚ x :: l.
Proof.
  induction l as [|y l IH]; [done|]. cbn [insert_by]. destruct (before y x); [|done].
  rewrite IH. by constructor.
Qed.

Lemma sort_by_perm {A} before (l : list A) : sort_by before l ≡ₚ l.
Proof. induction l as [|x l IH]; [done|]. cbn [sort_by foldr]. by rewrite insert_by_perm, IH. Qed.

Lemma sort_by_sorted {A} before (R : relation A) (l : list A) :
  (∀ x y, before y x = true → R y x) → (∀ x y, before y x = false → R x y) →
  Sorted R (sort_by before l).
Proof.
  intros Ht Hf. induction l as [|x l IH]; [constructor|]. cbn [sort_by foldr].
  fold (sort_by before l). revert IH. generalize (sort_by before l). clear l.
  induction l as [|y l IH]; intros Hs; [by repeat constructor|]. cbn [insert_by].
  destruct (before y x) eqn:Hb; [|by constructor; [|constructor; apply Hf]].
  apply Sorted_inv in Hs as [Hs Hy]. constructor; [by apply IH|].
  destruct l as [|z l]; [by constructor; apply Ht|]. cbn [insert_by].
  destruct (before z x); constructor; [by inversion Hy|by apply Ht].
Qed.
