(* ===== verification/OrdMap.v ===== *)
(** Ordered maps: Rust's [BTreeMap<String, V>] as a [gmap string V] together
    with its in-order traversal.  [bt_iter] is [BTreeMap::iter], [bt_range] is
    [BTreeMap::range] for the inclusive/unbounded ranges that the crate uses.
    A list of entries in strictly ascending key order is determined by its
    elements ([sorted_entries_unique]), which is how every scan in the
    development is compared with its specification. *)

From stdpp Require Import options.
From S2P Require Import Prelude.

Definition entry_le {V} (a b : string * V) : Prop := a.1 ≤ₖ b.1.

#[export] Instance entry_le_dec {V} : RelDecision (@entry_le V).
Proof. intros a b. unfold entry_le. apply _. Defined.
#[export] Instance entry_le_total {V} : Total (@entry_le V).
Proof. intros a b. apply (total key_le). Qed.
#[export] Instance entry_le_trans {V} : Transitive (@entry_le V).
Proof. intros a b c. unfold entry_le. key_order. Qed.

(** [BTreeMap::iter]. *)
Definition bt_iter {V} (m : gmap string V) : list (string * V) :=
  merge_sort entry_le (map_to_list m).

(** Strictly ascending keys. *)
Definition sorted_entries {V} (l : list (string * V)) : Prop :=
  StronglySorted key_lt l.*1.

(** Membership of a key in an inclusive/unbounded window. *)
Definition in_bounds (lo hi : option string) (k : string) : Prop :=
  from_option (λ l, l ≤ₖ k) True lo ∧ from_option (λ h, k ≤ₖ h) True hi.

#[export] Instance in_bounds_dec lo hi k : Decision (in_bounds lo hi k).
Proof. unfold in_bounds. destruct lo, hi; simpl; apply _. Defined.

(** [BTreeMap::range]. *)
Definition bt_range {V} (lo hi : option string) (m : gmap string V) :
    list (string * V) :=
  filter (λ kv, in_bounds lo hi kv.1) (bt_iter m).

(** [iter.take(limit)] for an optional limit. *)
Definition take_limit {A} (limit : option nat) (l : list A) : list A :=
  match limit with Some n => take n l | None => l end.

Section ord_map.
Context {V : Type}.
Implicit Types (m : gmap string V) (l : list (string * V)).

Lemma bt_iter_perm m : bt_iter m ≡ₚ map_to_list m.
Proof. apply merge_sort_Permutation. Qed.

Lemma elem_of_bt_iter m k v : (k, v) ∈ bt_iter m ↔ m !! k = Some v.
Proof. rewrite bt_iter_perm. apply elem_of_map_to_list. Qed.

Lemma bt_iter_NoDup_keys m : NoDup (bt_iter m).*1.
Proof. rewrite bt_iter_perm. apply NoDup_fst_map_to_list. Qed.

Lemma sorted_entries_cons kv l :
  sorted_entries (kv :: l) ↔
    sorted_entries l ∧ ∀ k v, (k, v) ∈ l → kv.1 <ₖ k.
Proof.
  unfold sorted_entries. rewrite fmap_cons, StronglySorted_cons, Forall_fmap,
    Forall_forall. split; intros [H1 H2]; split; try done.
  - intros k v Hkv. by apply (H1 (k, v)).
  - intros [k v] Hkv. by apply (H2 k v).
Qed.

Lemma sorted_entries_nil : sorted_entries ([] : list (string * V)).
Proof. constructor. Qed.

Lemma sorted_entries_weaken l :
  NoDup l.*1 → StronglySorted entry_le l → sorted_entries l.
Proof.
  induction l as [|[k v] l IH]; [constructor|].
  rewrite fmap_cons, NoDup_cons, StronglySorted_cons, sorted_entries_cons.
  intros [Hk Hnd] [Hall Hs]. split; [by apply IH|].
  intros k' v' Hin. apply key_lt_le_ne. split.
  - rewrite Forall_forall in Hall. by apply (Hall (k', v')).
  - simpl. intros ->. apply Hk. by apply (list_elem_of_fmap_2 fst _ (k', v')).
Qed.

Lemma sorted_entries_NoDup l : sorted_entries l → NoDup l.*1.
Proof.
  unfold sorted_entries. intros Hs. induction Hs as [|k ks ? IH Hall];
    constructor; [|done]. intros Hin. rewrite Forall_forall in Hall.
  specialize (Hall _ Hin). key_order.
Qed.

Lemma bt_iter_sorted m : sorted_entries (bt_iter m).
Proof.
  apply sorted_entries_weaken; [apply bt_iter_NoDup_keys|].
  apply Sorted_StronglySorted; [apply _|]. apply Sorted_merge_sort, _.
Qed.

Lemma sorted_entries_filter (P : string * V → Prop) `{!∀ x, Decision (P x)} l :
  sorted_entries l → sorted_entries (filter P l).
Proof.
  induction l as [|kv l IH]; [done|]. rewrite sorted_entries_cons.
  intros [Hs Hlt]. rewrite filter_cons. case_decide; [|by apply IH].
  apply sorted_entries_cons. split; [by apply IH|].
  intros k v [_ Hin]%list_elem_of_filter. eauto.
Qed.

(** Ascending entry lists are determined by their elements. *)
Lemma sorted_entries_unique l1 l2 :
  sorted_entries l1 → sorted_entries l2 →
  (∀ k v, (k, v) ∈ l1 ↔ (k, v) ∈ l2) → l1 = l2.
Proof.
  revert l2. induction l1 as [|[k1 v1] l1 IH]; intros [|[k2 v2] l2] H1 H2 Heq.
  - done.
  - exfalso. apply (not_elem_of_nil (k2, v2)), Heq. by left.
  - exfalso. apply (not_elem_of_nil (k1, v1)), Heq. by left.
  - apply sorted_entries_cons in H1 as [Hs1 Hlt1], H2 as [Hs2 Hlt2].
    simpl in *. assert ((k1, v1) = (k2, v2)) as Hhd.
    { assert ((k1, v1) ∈ (k2, v2) :: l2) as [|Ha]%elem_of_cons
        by (apply Heq; by left); [done|].
      assert ((k2, v2) ∈ (k1, v1) :: l1) as [|Hb]%elem_of_cons
        by (apply Heq; by left); [done|].
      pose proof (Hlt2 _ _ Ha). pose proof (Hlt1 _ _ Hb). key_order. }
    simplify_eq. f_equal. apply IH; [done..|]. intros k v. split; intros Hin.
    + assert ((k, v) ∈ (k2, v2) :: l2) as [|]%elem_of_cons
        by (apply Heq; by right); [simplify_eq|done].
      pose proof (Hlt1 _ _ Hin). key_order.
    + assert ((k, v) ∈ (k2, v2) :: l1) as [|]%elem_of_cons
        by (apply Heq; by right); [simplify_eq|done].
      pose proof (Hlt2 _ _ Hin). key_order.
Qed.

Lemma bt_range_sorted lo hi m : sorted_entries (bt_range lo hi m).
Proof. apply sorted_entries_filter, bt_iter_sorted. Qed.

Lemma elem_of_bt_range lo hi m k v :
  (k, v) ∈ bt_range lo hi m ↔ in_bounds lo hi k ∧ m !! k = Some v.
Proof. unfold bt_range. by rewrite list_elem_of_filter, elem_of_bt_iter. Qed.

Lemma sorted_entries_eq_iter l m :
  sorted_entries l → (∀ k v, (k, v) ∈ l ↔ m !! k = Some v) → l = bt_iter m.
Proof.
  intros Hs Hin. apply sorted_entries_unique; [done|apply bt_iter_sorted|].
  intros k v. by rewrite Hin, elem_of_bt_iter.
Qed.

Lemma sorted_entries_eq_range l lo hi m :
  sorted_entries l →
  (∀ k v, (k, v) ∈ l ↔ in_bounds lo hi k ∧ m !! k = Some v) →
  l = bt_range lo hi m.
Proof.
  intros Hs Hin. apply sorted_entries_unique; [done|apply bt_range_sorted|].
  intros k v. by rewrite Hin, elem_of_bt_range.
Qed.

Lemma bt_range_full m : bt_range None None m = bt_iter m.
Proof.
  symmetry. apply sorted_entries_eq_range; [apply bt_iter_sorted|].
  intros k v. rewrite elem_of_bt_iter. unfold in_bounds; simpl. naive_solver.
Qed.

Lemma bt_range_inverted lo hi m :
  hi <ₖ lo → bt_range (Some lo) (Some hi) m = [].
Proof.
  intros Hlt. symmetry. apply sorted_entries_eq_range; [constructor|].
  intros k v. split; [by intros ?%elem_of_nil|].
  intros [[H1 H2] _]. simpl in *. exfalso. key_order.
Qed.

Lemma elem_of_take_limit {A} limit (x : A) xs :
  x ∈ take_limit limit xs → x ∈ xs.
Proof.
  destruct limit as [n|]; [|done]. simpl. intros Hx.
  rewrite <-(take_drop n xs). apply elem_of_app. by left.
Qed.

Lemma take_limit_fmap {A B} (f : A → B) limit (xs : list A) :
  take_limit limit (f <$> xs) = f <$> take_limit limit xs.
Proof. destruct limit; [|done]. simpl. by rewrite fmap_take. Qed.
End ord_map.

Lemma filter_none {A} (P : A → Prop) `{!∀ x, Decision (P x)} (l : list A) :
  (∀ x, x ∈ l → ¬ P x) → filter P l = [].
Proof.
  intros Hno. destruct (filter P l) as [|x r] eqn:Hf; [done|].
  assert (x ∈ filter P l) as Hx by (rewrite Hf; by left).
  apply list_elem_of_filter in Hx as [HP Hx]. by destruct (Hno x Hx).
Qed.

Lemma sorted_entries_app {V} (l1 l2 : list (string * V)) :
  sorted_entries (l1 ++ l2) ↔
    sorted_entries l1 ∧ sorted_entries l2 ∧
    ∀ k1 v1 k2 v2, (k1, v1) ∈ l1 → (k2, v2) ∈ l2 → k1 <ₖ k2.
Proof.
  induction l1 as [|[k v] l1 IH]; simpl.
  { split; [|by intros (_ & ? & _)]. intros Hs. split_and!; [constructor|done|].
    by intros ???? ?%elem_of_nil. }
  rewrite !sorted_entries_cons, IH. simpl. set_solver.
Qed.

(** A window from one of its own entries on, and up to one. *)
Lemma bt_range_suffix {V} lo hi (m : gmap string V) pre k v post :
  bt_range lo hi m = pre ++ (k, v) :: post → bt_range (Some k) hi m = (k, v) :: post.
Proof.
  intros Heq. symmetry. pose proof (bt_range_sorted lo hi m) as Hs. rewrite Heq in Hs.
  apply sorted_entries_app in Hs as (_ & Hs & Hlt).
  assert (in_bounds lo hi k ∧ m !! k = Some v) as [[Hk1 Hk2] Hmk]
    by (apply elem_of_bt_range; rewrite Heq; set_solver).
  apply sorted_entries_eq_range; [done|]. intros k' v'.
  pose proof (elem_of_bt_range lo hi m k' v') as Hin. rewrite Heq, elem_of_app in Hin.
  unfold in_bounds in *. split.
  - intros Hi. destruct (proj1 Hin (or_intror Hi)) as [[H1 H2] Hm]. split; [|done]. split; [|done]. simpl.
    apply elem_of_cons in Hi as [[= -> ->]|Hi]; [done|].
    apply sorted_entries_cons in Hs as [_ Hs]. by eapply key_lt_le, Hs.
  - intros [[H1 H2] Hm]. simpl in H1.
    assert ((k', v') ∈ pre ∨ (k', v') ∈ (k, v) :: post) as [Hi|Hi]; [|exfalso|done].
    + apply Hin. split; [|done]. split; [|done]. destruct lo as [lo|]; [|done]. simpl in *. key_order.
    + pose proof (Hlt k' v' k v Hi ltac:(set_solver)). key_order.
Qed.

Lemma bt_range_prefix {V} lo hi (m : gmap string V) pre k v post :
  bt_range lo hi m = pre ++ (k, v) :: post → bt_range lo (Some k) m = pre ++ [(k, v)].
Proof.
  intros Heq. symmetry. pose proof (bt_range_sorted lo hi m) as Hs.
  assert (in_bounds lo hi k ∧ m !! k = Some v) as [[Hk1 Hk2] Hmk]
    by (apply elem_of_bt_range; rewrite Heq; set_solver).
  assert (∀ k' v', (k', v') ∈ post → k <ₖ k') as Hpost.
  { rewrite Heq in Hs. apply sorted_entries_app in Hs as (_ & Hs & _).
    apply sorted_entries_cons in Hs as [_ Hs]. exact Hs. }
  replace (pre ++ (k, v) :: post) with ((pre ++ [(k, v)]) ++ post) in Heq by by rewrite <-app_assoc.
  rewrite Heq in Hs. apply sorted_entries_app in Hs as (Hs & _ & _).
  apply sorted_entries_eq_range; [done|]. intros k' v'.
  pose proof (elem_of_bt_range lo hi m k' v') as Hin. rewrite Heq, elem_of_app in Hin.
  unfold in_bounds in *. split.
  - intros Hi. destruct (proj1 Hin (or_introl Hi)) as [[H1 H2] Hm]. split; [|done]. split; [done|]. simpl.
    apply elem_of_app in Hi as [Hi|[= -> ->]%list_elem_of_singleton]; [|done].
    apply sorted_entries_app in Hs as (_ & _ & Hlt). eapply key_lt_le, Hlt; [done|]. by apply list_elem_of_singleton.
  - intros [[H1 H2] Hm]. simpl in H2.
    assert ((k', v') ∈ pre ++ [(k, v)] ∨ (k', v') ∈ post) as [Hi|Hi]; [|done|exfalso].
    + apply Hin. split; [|done]. split; [done|]. destruct hi as [hi|]; [|done]. simpl in *. key_order.
    + pose proof (Hpost k' v' Hi). key_order.
Qed.

(** The first entry of a key in a list. *)
Fixpoint assoc {V} (k : string) (l : list (string * V)) : option V :=
  match l with
  | [] => None
  | r :: l => if decide (r.1 = k) then Some r.2 else assoc k l
  end.

Section assoc.
Context {V : Type}.
Implicit Types l : list (string * V).

Lemma assoc_elem k l v : assoc k l = Some v → (k, v) ∈ l.
Proof.
  induction l as [|[k' v'] l IH]; simpl; [done|].
  destruct (decide (k' = k)) as [->|]; [intros [= ->]; by left|right; auto].
Qed.

Lemma assoc_None k l : (∀ v, (k, v) ∉ l) → assoc k l = None.
Proof.
  intros Hno. destruct (assoc k l) as [v|] eqn:Ha; [|done].
  by apply assoc_elem, Hno in Ha.
Qed.

Lemma assoc_app k l1 l2 :
  assoc k (l1 ++ l2) = match assoc k l1 with Some v => Some v | None => assoc k l2 end.
Proof. induction l1 as [|r l1 IH]; simpl; [done|]. by case_decide. Qed.

Lemma assoc_sorted k v l : sorted_entries l → (k, v) ∈ l → assoc k l = Some v.
Proof.
  intros Hs. apply sorted_entries_NoDup in Hs. induction l as [|[k' v'] l IH]; simpl.
  { by intros ?%elem_of_nil. }
  apply NoDup_cons in Hs as [Hk Hs]. intros [[= <- <-]|Hin]%elem_of_cons.
  - by rewrite decide_True.
  - rewrite decide_False; [by apply IH|]. intros ->.
    apply Hk. by apply (list_elem_of_fmap_2 fst _ (k, v)).
Qed.

Lemma assoc_bt_iter k (m : gmap string V) : assoc k (bt_iter m) = m !! k.
Proof.
  destruct (m !! k) as [v|] eqn:Hk.
  - apply assoc_sorted; [apply bt_iter_sorted|by apply elem_of_bt_iter].
  - apply assoc_None. intros v Hin. apply elem_of_bt_iter in Hin. congruence.
Qed.
End assoc.

(** The remaining budget of a limited scan after [len] items. *)
Definition budget (limit : option nat) (len : nat) : option nat :=
  (λ n, n - len) <$> limit.

Lemma budget_0 limit : budget limit 0 = limit.
Proof. destruct limit; simpl; [|done]. f_equal. lia. Qed.

Lemma take_limit_nil {A} (limit : option nat) : take_limit limit ([] : list A) = [].
Proof. destruct limit; simpl; [apply take_nil|done]. Qed.

#[export] Hint Resolve bt_iter_sorted bt_range_sorted sorted_entries_nil : oxkv.
#[export] Hint Resolve sorted_entries_filter : oxkv.
