(* ===== verification/Core.v ===== *)
(** Core types and traits of [src/src/store/mod.rs]: the error type, key-value
    pairs, directions and cursors, the [GetSet] trait, and the abstract
    specification every backend's reads and writes are proved against.

    A stateful operation of type [Op S A] takes the state and returns a
    [Result] and the new state; the state survives an error, as it does when a
    Rust method on [&self] returns early with [?]. *)

From stdpp Require Import options.
From S2P Require Import Prelude OrdMap.

(** ** Errors *)

(** [StoreError].  The payload of [Utf8], [Utf8Slice] and [Json] is the
    rendered message of the wrapped library error, which is what both
    [Display] and [PartialEq] of the code read. *)
Inductive StoreError :=
| Storage (msg : string)
| CasConflict (msg : string)
| Serialization (msg : string)
| Utf8 (msg : string)
| Json (msg : string)
| Utf8Slice (msg : string)
| Other (msg : string)
| Rejected (key reason : string)
| Fenced (msg : string)
| NotModified.

#[export] Instance StoreError_eq_dec : EqDecision StoreError.
Proof. solve_decision. Defined.

(** [impl PartialEq for StoreError]: variant by variant, [false] otherwise. *)
Definition StoreError_eq (a b : StoreError) : bool :=
  match a, b with
  | Storage x, Storage y | Serialization x, Serialization y
  | Other x, Other y | CasConflict x, CasConflict y
  | Fenced x, Fenced y => bool_decide (x = y)
  | Utf8 x, Utf8 y => bool_decide (x = y)
  | Utf8Slice x, Utf8Slice y => bool_decide (x = y)
  | Json x, Json y => bool_decide (x = y)
  | Rejected ka ra, Rejected kb rb => bool_decide (ka = kb ∧ ra = rb)
  | NotModified, NotModified => true
  | _, _ => false
  end.

(** [Display for StoreError] (the [#[error]] attributes). *)
Definition to_string (e : StoreError) : string :=
  match e with
  | Storage m => "storage error: " +:+ m
  | CasConflict m => "CAS conflict: " +:+ m
  | Serialization m => "serialization error: " +:+ m
  | Utf8 m => "UTF-8 error: " +:+ m
  | Json m => "JSON error: " +:+ m
  | Utf8Slice m => "UTF-8 error: " +:+ m
  | Other m => m
  | Rejected k r => "rejected `" +:+ k +:+ "`: " +:+ r
  | Fenced m => "fenced: " +:+ m
  | NotModified => "not modified"
  end.

(** [str::starts_with] and [str::contains]. *)
Definition str_starts_with (s pre : string) : bool := String.prefix pre s.

Fixpoint str_contains (s needle : string) : bool :=
  String.prefix needle s ||
  match s with
  | EmptyString => false
  | String _ s' => str_contains s' needle
  end.

Lemma str_contains_spec s needle :
  str_contains s needle = true ↔ ∃ a b, s = a +:+ needle +:+ b.
Proof.
  assert (∀ p t, String.prefix p t = true ↔ ∃ b, t = p +:+ b) as Hpre.
  { induction p as [|c p IH]; intros t; simpl.
    - split; [by exists t|]. by destruct t.
    - destruct t as [|d t]; [split; [done|by intros [??]]|].
      simpl. destruct (Ascii.ascii_dec c d) as [<-|Hne].
      + rewrite IH. split; intros [b Hb].
        * exists b. by rewrite Hb.
        * exists b. by injection Hb.
      + split; [done|]. intros [b Hb]. by injection Hb. }
  induction s as [|c s IH]; cbn [str_contains]; rewrite orb_true_iff, Hpre.
  - split.
    + intros [[b Hb]|?]; [|done]. by exists "", b.
    + intros (a & b & Hab). left. exists b. by destruct a.
  - rewrite IH. split.
    + intros [[b Hb]|(a & b & ->)]; [by exists "", b|by exists (String c a), b].
    + intros ([|a0 a] & b & Hab); [left; by exists b|right].
      injection Hab as -> ->. by exists a, b.
Qed.

(** [str::strip_prefix] and [str::strip_suffix]. *)
Fixpoint strip_prefix (pre s : string) : option string :=
  match pre, s with
  | EmptyString, _ => Some s
  | String a pre', String b s' =>
      if decide (a = b) then strip_prefix pre' s' else None
  | String _ _, EmptyString => None
  end.

Fixpoint strip_suffix (suf s : string) : option string :=
  if decide (s = suf) then Some EmptyString
  else match s with
       | EmptyString => None
       | String a s' => String a <$> strip_suffix suf s'
       end.

(** ** Results and stateful operations *)

Inductive Result (A : Type) :=
| Ok (a : A)
| Err (e : StoreError).
Arguments Ok {A} _.
Arguments Err {A} _.

#[export] Instance Result_eq_dec {A} `{EqDecision A} : EqDecision (Result A).
Proof. solve_decision. Defined.

Definition res_bind {A B} (x : Result A) (f : A → Result B) : Result B :=
  match x with Ok a => f a | Err e => Err e end.
Definition res_map {A B} (f : A → B) (x : Result A) : Result B :=
  res_bind x (Ok ∘ f).
Definition map_err {A} (f : StoreError → StoreError) (x : Result A) : Result A :=
  match x with Ok a => Ok a | Err e => Err (f e) end.
Definition is_ok {A} (x : Result A) : bool :=
  match x with Ok _ => true | Err _ => false end.

Definition Op (S A : Type) : Type := S → Result A * S.

Section op.
Context {S : Type}.
Definition op_ret {A} (a : A) : Op S A := λ s, (Ok a, s).
Definition op_throw {A} (e : StoreError) : Op S A := λ s, (Err e, s).
Definition op_bind {A B} (m : Op S A) (f : A → Op S B) : Op S B := λ s,
  match m s with
  | (Ok a, s') => f a s'
  | (Err e, s') => (Err e, s')
  end.
(** Runs [m] and hands its [Result] to [f]: a Rust [match] on a result. *)
Definition op_try {A B} (m : Op S A) (f : Result A → Op S B) : Op S B := λ s,
  let '(r, s') := m s in f r s'.
Definition op_get : Op S S := λ s, (Ok s, s).
Definition op_gets {A} (f : S → A) : Op S A := λ s, (Ok (f s), s).
Definition op_modify (f : S → S) : Op S () := λ s, (Ok (), f s).
Definition op_lift {A} (r : Result A) : Op S A := λ s, (r, s).
End op.

(** Runs an operation on a component of a larger state. *)
Definition op_zoom {S T A} (get : S → T) (set : T → S → S) (m : Op T A) : Op S A :=
  λ s, let '(r, t) := m (get s) in (r, set t s).

Declare Scope op_scope.
Delimit Scope op_scope with op.
Notation "'let!' x := m 'in' k" := (op_bind m (λ x, k))
  (at level 10, x pattern at level 200, m at level 100, k at level 200) : op_scope.
Notation "'try!' x := m 'in' k" := (op_try m (λ x, k))
  (at level 10, x pattern at level 200, m at level 100, k at level 200) : op_scope.
Notation "'let?' x := m 'in' k" := (res_bind m (λ x, k))
  (at level 10, x pattern at level 200, m at level 100, k at level 200) : op_scope.
Notation "m ;; k" := (op_bind m (λ _, k))
  (at level 100, k at level 200, right associativity) : op_scope.
Open Scope op_scope.

(** Evaluation of the monadic operations, for [rewrite] and [simpl]. *)
Lemma op_bind_ok {S A B} (m : Op S A) (f : A → Op S B) s a s' :
  m s = (Ok a, s') → op_bind m f s = f a s'.
Proof. unfold op_bind. by intros ->. Qed.

Lemma op_bind_err {S A B} (m : Op S A) (f : A → Op S B) s e s' :
  m s = (Err e, s') → op_bind m f s = (Err e, s').
Proof. unfold op_bind. by intros ->. Qed.

(** The only way for a bind to succeed. *)
Lemma op_bind_inv {S A B} (m : Op S A) (f : A → Op S B) s b s' :
  op_bind m f s = (Ok b, s') → ∃ a s1, m s = (Ok a, s1) ∧ f a s1 = (Ok b, s').
Proof. unfold op_bind. destruct (m s) as [[]]; naive_solver. Qed.

(** ** Key-value pairs, directions, cursors *)

Record KeyValue := KV { key : string; value : bytes }.

#[export] Instance KeyValue_eq_dec : EqDecision KeyValue.
Proof. solve_decision. Defined.

Definition to_kv (kv : string * bytes) : KeyValue := KV kv.1 kv.2.

Inductive Direction := Next | Prev.

#[export] Instance Direction_eq_dec : EqDecision Direction.
Proof. solve_decision. Defined.

Abbreviation cursor := (option string * option string)%type.

(** [limit.map(|l| l as usize)]. *)
Definition limit_of (limit : option N) : option nat := N.to_nat <$> limit.

(** [str::parse] at an unsigned type that ends before [bound]: an optional plus
    sign and decimal digits. *)
Fixpoint parse_digits (bound : N) (l : bytes) (acc : N) : option N :=
  match l with
  | [] => Some acc
  | b :: l =>
      if is_ascii_digit b then
        let acc := (acc * 10 + (Byte.to_N b - 48))%N in
        if (acc <? bound)%N then parse_digits bound l acc else None
      else None
  end.

Definition parse_uint (bound : N) (s : string) : option N :=
  match default s (strip_prefix "+" s) with
  | EmptyString => None
  | digits => parse_digits bound (as_bytes digits) 0
  end.

(** ** The [GetSet] trait *)

Class GetSet (S : Type) := {
  get_bytes : string → Op S (option bytes);
  has : string → Op S bool;
  delete : string → Op S bool;
  set_bytes : string → bytes → Op S (option bytes);
  put_bytes : string → bytes → Op S ();
  gets_bytes : option N → Direction → cursor → Op S (list KeyValue);
}.

(** The default body of [put_bytes]. *)
Definition put_bytes_default {S} (set : string → bytes → Op S (option bytes))
    (k : string) (v : bytes) : Op S () :=
  let! _ := set k v in op_ret ().

(** [Store] and [Transaction].  The world [Tx] of a running transaction holds
    the transaction's own state and the store it was begun on, which
    [tx_store] projects: dropping a transaction leaves [tx_store]. *)
Class Store (S Tx : Type) `{GetSet S} `{GetSet Tx} := {
  begin_tx : S → Result Tx;
  commit : Op Tx ();
  rollback : Op Tx ();
  tx_store : Tx → S;
}.
Arguments begin_tx {S Tx _ _ _} _.
Arguments commit {S Tx _ _ _} _.
Arguments rollback {S Tx _ _ _} _.
Arguments tx_store {S Tx _ _ _} _.

(** A call of the trait and its reply, to run the same sequence of calls on
    different backends. *)
Inductive GsCall :=
| CGet (k : string)
| CHas (k : string)
| CDelete (k : string)
| CSet (k : string) (v : bytes)
| CPut (k : string) (v : bytes)
| CGets (limit : option N) (dir : Direction) (c : cursor).

Inductive GsReply :=
| RBytes (v : option bytes)
| RBool (b : bool)
| RUnit
| REntries (l : list KeyValue).

Definition run_call {S} `{GetSet S} (call : GsCall) : Op S GsReply :=
  match call with
  | CGet k => let! r := get_bytes k in op_ret (RBytes r)
  | CHas k => let! r := has k in op_ret (RBool r)
  | CDelete k => let! r := delete k in op_ret (RBool r)
  | CSet k v => let! r := set_bytes k v in op_ret (RBytes r)
  | CPut k v => put_bytes k v ;; op_ret RUnit
  | CGets limit dir c => let! r := gets_bytes limit dir c in op_ret (REntries r)
  end.

(** Runs the calls in order, errors included, and collects the replies. *)
Fixpoint run_calls {S} `{GetSet S} (calls : list GsCall) (s : S) :
    list (Result GsReply) * S :=
  match calls with
  | [] => ([], s)
  | call :: calls' =>
      let '(r, s1) := run_call call s in
      let '(rs, s2) := run_calls calls' s1 in (r :: rs, s2)
  end.

(** What the trait documents for [gets_bytes]: the entries of the window in
    the requested order, cut at the limit; [Prev] without a start is empty. *)
Definition scan_spec (limit : option N) (dir : Direction) (c : cursor)
    (m : gmap string bytes) : list KeyValue :=
  match dir with
  | Next => to_kv <$> take_limit (limit_of limit) (bt_range c.1 c.2 m)
  | Prev =>
      match c.1 with
      | None => []
      | Some start =>
          to_kv <$> take_limit (limit_of limit)
            (reverse (bt_range c.2 (Some start) m))
      end
  end.

(** The read half of the contract: a backend that stands for a map answers every
    read from it, and stands for it afterwards. *)
Class GetSetReads (S : Type) `{GetSet S} := {
  gs_holds : gmap string bytes → S → Prop;
  gs_get : ∀ m k s, gs_holds m s → ∃ s', get_bytes k s = (Ok (m !! k), s') ∧ gs_holds m s';
  gs_has : ∀ m k s, gs_holds m s →
    ∃ s', has k s = (Ok (bool_decide (is_Some (m !! k))), s') ∧ gs_holds m s';
  gs_gets : ∀ m limit dir c s, gs_holds m s →
    ∃ s', gets_bytes limit dir c s = (Ok (scan_spec limit dir c m), s') ∧ gs_holds m s';
}.
Arguments gs_holds {S _ _} _ _.

(** The write half, for a store that is ready to accept the rows of [sw_row]: a
    transaction starts from the store's map, a write updates the map that the
    transaction reads, the commit installs it, and a transaction that is dropped
    leaves the store with the map it began with. *)
Class StoreWrites (S Tx : Type) `{Store S Tx} `{!GetSetReads S} `{!GetSetReads Tx} := {
  sw_row : string → bytes → Prop;
  sw_ready : gmap string bytes → S → Prop;
  sw_tx_ready : gmap string bytes → gmap string bytes → Tx → Prop;
  sw_holds m s : sw_ready m s → gs_holds m s;
  sw_tx_holds base m w : sw_tx_ready base m w → gs_holds m w;
  sw_begin m s : sw_ready m s → ∃ w, begin_tx s = Ok w ∧ sw_tx_ready m m w;
  sw_set base m k v w : sw_row k v → sw_tx_ready base m w →
    ∃ w', set_bytes k v w = (Ok (m !! k), w') ∧ sw_tx_ready base (<[k := v]> m) w';
  sw_commit base m w : sw_tx_ready base m w →
    ∃ w', commit w = (Ok (), w') ∧ gs_holds m (tx_store w');
  sw_drop base m w : sw_tx_ready base m w → sw_ready base (tx_store w);
}.
Arguments sw_row S Tx {_ _ _ _ _ _} _ _.
Arguments sw_ready {S Tx _ _ _ _ _ _} _ _.
Arguments sw_tx_ready {S Tx _ _ _ _ _ _} _ _ _.

(** A store that a running transaction does not touch at all, and that accepts
    every row. *)
Class StoreIsolated (S Tx : Type) `{StoreWrites S Tx} := {
  si_row k v : sw_row S Tx k v;
  si_begin s w : begin_tx s = Ok w → tx_store w = s;
  si_set k v w : tx_store (set_bytes k v w).2 = tx_store w;
}.

(** ** Lemmas *)

Lemma StoreError_eq_spec a b : StoreError_eq a b = true ↔ a = b.
Proof.
  destruct a, b; simpl; rewrite ?bool_decide_eq_true; split; try naive_solver;
    intros; simplify_eq; done.
Qed.

Lemma strip_prefix_Some pre s r : strip_prefix pre s = Some r ↔ s = pre +:+ r.
Proof.
  revert s. induction pre as [|a pre IH]; intros s; simpl.
  - unfold String.app; simpl. split; congruence.
  - destruct s as [|b s]; [done|].
    change (String a pre +:+ r) with (String a (pre +:+ r)).
    case_decide; subst; [rewrite IH|]; split; congruence.
Qed.

Lemma strip_suffix_Some suf s r : strip_suffix suf s = Some r ↔ s = r +:+ suf.
Proof.
  revert r. induction s as [|a s IH]; intros r; simpl.
  - case_decide as Hs.
    + subst. destruct r; [done|]. unfold String.app; simpl. split; congruence.
    + destruct r; unfold String.app; simpl; split; congruence.
  - case_decide as Hs.
    + subst. destruct r as [|b r]; [done|]. split; [done|].
      change (String b r +:+ String a s) with (String b (r +:+ String a s)).
      intros [= _ Heq]. apply (f_equal String.length) in Heq.
      rewrite string_length_app in Heq. simpl in Heq. lia.
    + destruct r as [|b r].
      * change ("" +:+ suf) with suf. destruct (strip_suffix suf s); simpl;
          split; intros; simplify_eq; done.
      * change (String b r +:+ suf) with (String b (r +:+ suf)).
        rewrite fmap_Some. split.
        -- intros (x & Hx & [= -> ->]). f_equal. by apply IH.
        -- intros [= -> ->]. exists r. split; [by apply IH|done].
Qed.

Lemma scan_spec_sorted_next limit c m :
  ∃ l, scan_spec limit Next c m = to_kv <$> take_limit (limit_of limit) l ∧
    sorted_entries l ∧
    (∀ k v, (k, v) ∈ l ↔ in_bounds c.1 c.2 k ∧ m !! k = Some v).
Proof.
  exists (bt_range c.1 c.2 m). split; [done|].
  split; [apply bt_range_sorted|]. intros. apply elem_of_bt_range.
Qed.
