(* ===== verification/Hooks.v ===== *)
(** Validation and reactivity hooks: [src/src/store/hooks.rs].

    - [Scope], [ChangeEvent], [Validator], [Observer], [Subscribers] and
      [HookState] are the types of the file.
    - A [dyn StoreView] is a record of read operations; a validator can only
      read through it, so a validator body is a read program [ViewProg] and
      [run_view] runs it against any view.
    - The sender half of a [futures::channel::mpsc] channel is third-party
      code: the class [Channel] gives [try_send]'s interface.
    - [notify] is the composition of the function's three critical sections;
      [NotifyRace] runs them interleaved. *)

From stdpp Require Import options.
From S2P Require Import Prelude OrdMap Core.

(** ** Scopes, events *)

Inductive Scope :=
| All
| Exact (exact : string)
| Prefix (prefix : string).

#[export] Instance Scope_eq_dec : EqDecision Scope.
Proof. solve_decision. Defined.

Definition scope_matches (s : Scope) (k : string) : bool :=
  match s with
  | All => true
  | Exact exact => bool_decide (exact = k)
  | Prefix prefix => str_starts_with k prefix
  end.

Inductive ChangeKind := Kind_Set | Kind_Delete.

#[export] Instance ChangeKind_eq_dec : EqDecision ChangeKind.
Proof. solve_decision. Defined.

Record ChangeEvent := Event {
  ev_key : string;
  ev_kind : ChangeKind;
  ev_old : option bytes;
  ev_new : option bytes;
  ev_seq : N;
}.

#[export] Instance ChangeEvent_eq_dec : EqDecision ChangeEvent.
Proof. solve_decision. Defined.

Definition set_seq (ev : ChangeEvent) (n : N) : ChangeEvent :=
  Event (ev_key ev) (ev_kind ev) (ev_old ev) (ev_new ev) n.

(** ** Views and validators *)

Record StoreView (S : Type) := View {
  sv_get : string → Op S (option bytes);
  sv_has : string → Op S bool;
  sv_gets_bytes : option N → Direction → cursor → Op S (list KeyValue);
}.
Arguments View {S} _ _ _.
Arguments sv_get {S} _ _.
Arguments sv_has {S} _ _.
Arguments sv_gets_bytes {S} _ _ _ _.

(** [impl<S: GetSet> StoreView for S]. *)
Definition store_view (S : Type) `{GetSet S} : StoreView S :=
  View get_bytes has gets_bytes.

(** [RevalidateView]: the key under validation shows its old value. *)
Definition RevalidateView {S} (inner : StoreView S) (k : string)
    (old_value : option bytes) : StoreView S :=
  View
    (λ k', if decide (k' = k) then op_ret old_value else sv_get inner k')
    (λ k', if decide (k' = k) then op_ret (bool_decide (is_Some old_value))
           else sv_has inner k')
    (sv_gets_bytes inner).

Inductive ViewProg :=
| VRet (r : Result ())
| VGet (k : string) (cont : Result (option bytes) → ViewProg)
| VHas (k : string) (cont : Result bool → ViewProg)
| VGetsBytes (limit : option N) (dir : Direction) (c : cursor)
    (cont : Result (list KeyValue) → ViewProg).

Fixpoint run_view {S} (v : StoreView S) (p : ViewProg) : Op S () :=
  match p with
  | VRet r => op_lift r
  | VGet k cont => try! r := sv_get v k in run_view v (cont r)
  | VHas k cont => try! r := sv_has v k in run_view v (cont r)
  | VGetsBytes limit dir c cont =>
      try! r := sv_gets_bytes v limit dir c in run_view v (cont r)
  end.

Record Validator := MkValidator {
  scope : Scope;
  validate : string → bytes → ViewProg;
}.

(** [validate_key]: every validator whose scope covers the key, in order. *)
Fixpoint validate_key {S} (validators : list Validator) (v : StoreView S)
    (k : string) (val : bytes) : Op S () :=
  match validators with
  | [] => op_ret ()
  | vd :: rest =>
      if scope_matches (scope vd) k
      then run_view v (validate vd k val) ;; validate_key rest v k val
      else validate_key rest v k val
  end.

(** ** Subscribers *)

Inductive TrySend := Sent | Full | Disconnected.

#[export] Instance TrySend_eq_dec : EqDecision TrySend.
Proof. solve_decision. Defined.

(** The sender half of an mpsc channel: [channel capacity] is the sender of a
    fresh channel, [try_send] never blocks. *)
Class Channel := {
  Sender : Type;
  channel : N → Sender;
  try_send : ChangeEvent → Sender → TrySend * Sender;
}.

Definition WATCH_CAPACITY : N := 256.
Definition EVENT_HISTORY_CAPACITY : nat := 1024.
Definition U64 : N := 18446744073709551616.

(** An observer is identified by a number; its reaction is outside the model
    and appears as the list of calls [notify] returns. *)
Abbreviation ObserverId := nat.

Record Subscribers `{Channel} := MkSubs {
  observers : list (Scope * ObserverId);
  senders : list (Scope * Sender);
  seq : N;
  history : list ChangeEvent;
}.

Section subscribers.
Context `{Ch : Channel}.

Definition subs_default : Subscribers := MkSubs _ [] [] 0 [].

Definition push_sender (s : Scope) (subs : Subscribers) : Subscribers :=
  MkSubs _ (observers subs) (senders subs ++ [(s, channel WATCH_CAPACITY)])
    (seq subs) (history subs).

(** First critical section: [seq.fetch_add(1)], wrapping. *)
Definition next_seq (subs : Subscribers) : N * Subscribers :=
  (seq subs, MkSubs _ (observers subs) (senders subs)
               ((seq subs + 1) mod U64) (history subs)).

(** Second: [push_back], then [pop_front] while over capacity. *)
Definition trim_history (h : list ChangeEvent) : list ChangeEvent :=
  drop (length h - EVENT_HISTORY_CAPACITY) h.

Definition record_history (ev : ChangeEvent) (subs : Subscribers) : Subscribers :=
  MkSubs _ (observers subs) (senders subs) (seq subs)
    (trim_history (history subs ++ [ev])).

(** [Vec::swap_remove(i)]: the last element takes the place of the [i]-th. *)
Definition swap_remove {A} (i : nat) (l : list A) : list A :=
  match last l with
  | None => l
  | Some x => take (length l - 1) (<[i := x]> l)
  end.

(** Third: the [while i < senders.len()] loop.  Every iteration removes a
    sender or advances [i], so the number of senders is enough fuel. *)
Fixpoint deliver_loop (fuel i : nat) (ev : ChangeEvent)
    (l : list (Scope * Sender)) : list (Scope * Sender) :=
  match fuel with
  | O => l
  | S fuel =>
      match l !! i with
      | None => l
      | Some (sc, tx) =>
          if scope_matches sc (ev_key ev) then
            let '(outcome, tx') := try_send ev tx in
            let l' := <[i := (sc, tx')]> l in
            if decide (outcome = Disconnected)
            then deliver_loop fuel i ev (swap_remove i l')
            else deliver_loop fuel (i + 1) ev l'
          else deliver_loop fuel (i + 1) ev l
      end
  end.

Definition matching_observers (ev : ChangeEvent) (subs : Subscribers) :
    list ObserverId :=
  (filter (λ o : Scope * ObserverId, scope_matches o.1 (ev_key ev) = true)
     (observers subs)).*2.

Definition deliver (ev : ChangeEvent) (subs : Subscribers) :
    list ObserverId * Subscribers :=
  (matching_observers ev subs,
   MkSubs _ (observers subs)
     (deliver_loop (length (senders subs)) 0 ev (senders subs))
     (seq subs) (history subs)).

(** [notify]: the observer calls made, and the new subscriber state. *)
Definition notify (ev : ChangeEvent) (subs : Subscribers) :
    list (ObserverId * ChangeEvent) * Subscribers :=
  let '(n, subs1) := next_seq subs in
  let ev := set_seq ev n in
  let subs2 := record_history ev subs1 in
  let '(obs, subs3) := deliver ev subs2 in
  ((λ o, (o, ev)) <$> obs, subs3).

(** [events_since]. *)
Definition events_since (n : N) (subs : Subscribers) : option (list ChangeEvent) :=
  if decide (seq subs ≤ n)%N then Some []
  else match history subs with
       | [] => None
       | ev :: _ =>
           if decide (n + 1 < ev_seq ev)%N then None
           else Some (filter (λ e, (n < ev_seq e)%N) (history subs))
       end.

Definition current_seq (subs : Subscribers) : N := seq subs.
End subscribers.

(** ** [HookState] *)

Record HookState `{Channel} := MkHooks {
  validators : list Validator;
  subscribers : Subscribers;
}.

Section hook_state.
Context `{Ch : Channel}.

Definition hooks_default : HookState := MkHooks _ [] subs_default.

Definition add_validator (v : Validator) (h : HookState) : HookState :=
  MkHooks _ (validators h ++ [v]) (subscribers h).

Definition add_observer (s : Scope) (o : ObserverId) (h : HookState) : HookState :=
  let subs := subscribers h in
  MkHooks _ (validators h)
    (MkSubs _ (observers subs ++ [(s, o)]) (senders subs) (seq subs) (history subs)).

Definition watch_scope (s : Scope) (h : HookState) : HookState :=
  MkHooks _ (validators h) (push_sender s (subscribers h)).

(** A store's call of [notify] on its shared subscribers. *)
Definition hooks_notify (ev : ChangeEvent) (h : HookState) :
    list (ObserverId * ChangeEvent) * HookState :=
  let '(calls, subs) := notify ev (subscribers h) in
  (calls, MkHooks _ (validators h) subs).
End hook_state.

(** ** The [Hooks] trait *)

(** A watch registers the sender of a fresh channel; its receiver is the
    subscriber's. *)
Class Hooks (S : Type) := {
  hk_add_validator : Validator → S → S;
  hk_add_observer : Scope → ObserverId → S → S;
  hk_watch_scope : Scope → S → S;
  hk_current_seq : S → N;
  hk_events_since : N → S → option (list ChangeEvent);
}.

Section hooks_defaults.
Context {S : Type} `{Hooks S}.

Definition watch (k : string) : S → S := hk_watch_scope (Exact k).
Definition watch_prefix (prefix : string) : S → S := hk_watch_scope (Prefix prefix).
Definition watch_all : S → S := hk_watch_scope All.
Definition with_validator (v : Validator) (s : S) : S := hk_add_validator v s.
End hooks_defaults.

(** ** Delivery *)

Section delivery.
Context `{Ch : Channel}.

(** What one delivery does to one sender: [None] when it is pruned. *)
Definition deliver_one (ev : ChangeEvent) (s : Scope * Sender) :
    option (Scope * Sender) :=
  if scope_matches s.1 (ev_key ev) then
    let '(outcome, tx') := try_send ev s.2 in
    if decide (outcome = Disconnected) then None else Some (s.1, tx')
  else Some s.

Lemma swap_remove_app {A} (l1 l2 : list A) x :
  ∃ l2', swap_remove (length l1) (l1 ++ x :: l2) = l1 ++ l2' ∧ l2' ≡ₚ l2.
Proof.
  destruct l2 as [|y l2 _] using rev_ind.
  - exists []. unfold swap_remove. rewrite last_snoc, length_app. simpl.
    replace (length l1 + 1 - 1) with (length l1) by lia.
    split; [|done]. rewrite insert_app_r_alt by lia.
    rewrite Nat.sub_diag, take_app_length. by rewrite app_nil_r.
  - exists (y :: l2). split; [|by rewrite Permutation_cons_append].
    unfold swap_remove. rewrite app_comm_cons, app_assoc, last_snoc.
    rewrite insert_app_l by (rewrite length_app; simpl; lia).
    rewrite insert_app_r_alt by lia. rewrite Nat.sub_diag. simpl.
    rewrite take_app_length'; [done|].
    rewrite !length_app. simpl. lia.
Qed.

Lemma deliver_loop_perm ev fuel l1 l2 :
  length l2 ≤ fuel →
  deliver_loop fuel (length l1) ev (l1 ++ l2) ≡ₚ l1 ++ omap (deliver_one ev) l2.
Proof.
  revert l1 l2. induction fuel as [|fuel IH]; intros l1 l2 Hlen.
  { destruct l2; simpl in *; [done|lia]. }
  destruct l2 as [|[sc tx] l2]; simpl in *.
  { rewrite app_nil_r. by rewrite lookup_ge_None_2 by lia. }
  rewrite list_lookup_middle by done. unfold deliver_one at 1. simpl.
  assert (∀ l l2', deliver_loop fuel (length l1 + 1) ev (l1 ++ l :: l2') =
    deliver_loop fuel (length (l1 ++ [l])) ev ((l1 ++ [l]) ++ l2')) as Hstep.
  { intros l l2'. rewrite length_app, <-app_assoc. done. }
  case_match; [|rewrite Hstep, IH by lia; by rewrite <-app_assoc].
  destruct (try_send ev tx) as [outcome tx'].
  rewrite insert_app_r_alt by lia. rewrite Nat.sub_diag. simpl.
  case_decide.
  - destruct (swap_remove_app l1 l2 (sc, tx')) as (l2' & -> & Hp).
    rewrite IH by (rewrite Hp; lia). by rewrite Hp.
  - rewrite Hstep, IH by lia. by rewrite <-app_assoc.
Qed.

(** Sequence numbers of a list of events count up to [n] (exclusive). *)
Fixpoint seqs_upto (n : N) (h : list ChangeEvent) : Prop :=
  match h with
  | [] => True
  | ev :: h' => (ev_seq ev + N.of_nat (S (length h')) = n)%N ∧ seqs_upto n h'
  end.

(** The history invariant: bounded, consecutive, ending at the last number
    issued; and the counter has not reached the end of [u64]. *)
Definition history_ok (subs : Subscribers) : Prop :=
  length (history subs) ≤ EVENT_HISTORY_CAPACITY ∧
  seqs_upto (seq subs) (history subs) ∧
  (seq subs ≠ 0%N → history subs ≠ []).

Lemma seqs_upto_app n h ev :
  seqs_upto n h → ev_seq ev = n → seqs_upto (n + 1) (h ++ [ev]).
Proof.
  induction h as [|e h IH]; simpl.
  - intros _ ->. split; [lia|done].
  - intros [He Hh] Hev. split; [|by apply IH].
    rewrite length_app. simpl. lia.
Qed.

Lemma seqs_upto_drop n h k : seqs_upto n h → seqs_upto n (drop k h).
Proof.
  revert k. induction h as [|e h IH]; intros [|k]; simpl; try done.
  intros [_ Hh]. by apply IH.
Qed.

Lemma trim_history_length h : length (trim_history h) ≤ EVENT_HISTORY_CAPACITY.
Proof. unfold trim_history. rewrite length_drop. lia. Qed.

Lemma trim_history_ne h : h ≠ [] → trim_history h ≠ [].
Proof.
  intros Hne Hd. apply (f_equal length) in Hd.
  unfold trim_history, EVENT_HISTORY_CAPACITY in Hd.
  rewrite length_drop in Hd. destruct h; [done|]. simpl in *. lia.
Qed.

(** The number of events of a consecutive history above a position. *)
Lemma seqs_upto_filter n h p :
  seqs_upto n h →
  filter (λ e, (p < ev_seq e)%N) h =
    drop (length h - N.to_nat (n - (p + 1))) h.
Proof.
  induction h as [|e h IH]; [done|]. intros [He Hh].
  rewrite filter_cons. simpl length. case_decide as Hp.
  - assert (S (length h) - N.to_nat (n - (p + 1)) = 0) as -> by lia.
    rewrite drop_0. f_equal. rewrite IH by done.
    assert (length h - N.to_nat (n - (p + 1)) = 0) as -> by lia.
    by rewrite drop_0.
  - rewrite IH by done.
    assert (S (length h) - N.to_nat (n - (p + 1)) =
            S (length h - N.to_nat (n - (p + 1)))) as -> by lia.
    done.
Qed.
End delivery.

(** ** The published log *)

Section log.
Context `{Ch : Channel}.

(** Publishes a list of events, one [notify] after the other. *)
Fixpoint notify_all (evs : list ChangeEvent) (subs : Subscribers) : Subscribers :=
  match evs with
  | [] => subs
  | ev :: evs' => notify_all evs' (notify ev subs).2
  end.

(** The same events with the numbers [notify] assigns, counting from [n]. *)
Fixpoint numbered (n : N) (evs : list ChangeEvent) : list ChangeEvent :=
  match evs with
  | [] => []
  | ev :: evs' => set_seq ev n :: numbered (n + 1) evs'
  end.

Lemma numbered_length n evs : length (numbered n evs) = length evs.
Proof. revert n. induction evs; intros; simpl; [done|]. by f_equal. Qed.

Lemma numbered_seqs n evs :
  seqs_upto (n + N.of_nat (length evs)) (numbered n evs).
Proof.
  revert n. induction evs as [|ev evs IH]; intros n; simpl; [done|].
  rewrite numbered_length. split; [lia|].
  replace (n + N.of_nat (S (length evs)))%N
    with (n + 1 + N.of_nat (length evs))%N by lia. apply IH.
Qed.

Lemma trim_history_snoc h ev :
  trim_history (trim_history h ++ [ev]) = trim_history (h ++ [ev]).
Proof.
  unfold trim_history, EVENT_HISTORY_CAPACITY.
  rewrite !length_app, length_drop. simpl.
  rewrite !drop_app_le by (rewrite ?length_drop; lia). rewrite drop_drop.
  f_equal. f_equal. lia.
Qed.

Lemma notify_all_state evs subs past :
  history subs = trim_history past →
  (seq subs + N.of_nat (length evs) < U64)%N →
  let subs' := notify_all evs subs in
  history subs' = trim_history (past ++ numbered (seq subs) evs) ∧
  seq subs' = (seq subs + N.of_nat (length evs))%N.
Proof.
  revert subs past. induction evs as [|ev evs IH]; intros subs past Hh Hlt; simpl.
  { rewrite app_nil_r. split; [done|lia]. }
  simpl in Hlt.
  destruct (IH (notify ev subs).2 (past ++ [set_seq ev (seq subs)])) as [IH1 IH2].
  - simpl. rewrite Hh. apply trim_history_snoc.
  - simpl. rewrite N.mod_small by lia. lia.
  - simpl in IH1, IH2. rewrite IH1, IH2. rewrite N.mod_small by lia.
    split; [by rewrite <-app_assoc|lia].
Qed.


(** Publishing an event offers it exactly once to every sender
    whose scope covers the key, keeps the others untouched, and prunes
    exactly the senders that report a disconnected receiver; the matching
    observers are called once each, in registration order. *)
Theorem notify_delivers_once (ev : ChangeEvent) (subs : Subscribers) :
  let '(calls, subs') := notify ev subs in
  let ev' := set_seq ev (seq subs) in
  senders subs' ≡ₚ omap (deliver_one ev') (senders subs) ∧
  calls = (λ o, (o, ev')) <$> matching_observers ev' subs ∧
  observers subs' = observers subs ∧
  length (history subs') ≤ EVENT_HISTORY_CAPACITY.
Proof.
  simpl. split_and!; [|done|done|apply trim_history_length].
  apply (deliver_loop_perm _ _ []). lia.
Qed.
End log.

(** ** Concurrent publishers *)

(** Writers on a shared store call [notify] concurrently; the lock is taken
    and released three times, so the critical sections of different calls
    interleave.  A thread is the point a call has reached. *)
Module NotifyRace.
Inductive thread :=
| Calling (ev : ChangeEvent)
| Numbered (ev : ChangeEvent)
| InHistory (ev : ChangeEvent)
| Delivered (ev : ChangeEvent).

Section race.
Context `{Ch : Channel}.

Abbreviation sys := (Subscribers * list thread)%type.

Inductive step : sys → sys → Prop :=
| step_number subs ts i ev :
    ts !! i = Some (Calling ev) →
    step (subs, ts)
      ((next_seq subs).2, <[i := Numbered (set_seq ev (next_seq subs).1)]> ts)
| step_record subs ts i ev :
    ts !! i = Some (Numbered ev) →
    step (subs, ts) (record_history ev subs, <[i := InHistory ev]> ts)
| step_deliver subs ts i ev :
    ts !! i = Some (InHistory ev) →
    step (subs, ts) ((deliver ev subs).2, <[i := Delivered ev]> ts).

Definition init (evs : list ChangeEvent) : sys := (subs_default, Calling <$> evs).

(** The number a call holds, once it has one. *)
Definition thread_seq (t : thread) : option N :=
  match t with
  | Calling _ => None
  | Numbered ev | InHistory ev | Delivered ev => Some (ev_seq ev)
  end.

Definition pending (t : thread) : nat :=
  match t with Calling _ => 1 | _ => 0 end.

(** Numbers are unique and below the counter; the counter plus the calls
    still to be numbered is the number of calls; history is bounded. *)
Definition inv (total : nat) (s : sys) : Prop :=
  (∀ i t n, s.2 !! i = Some t → thread_seq t = Some n → (n < seq s.1)%N) ∧
  (∀ i j t u n, s.2 !! i = Some t → s.2 !! j = Some u →
     thread_seq t = Some n → thread_seq u = Some n → i = j) ∧
  N.to_nat (seq s.1) + sum_list (pending <$> s.2) = total ∧
  length (history s.1) ≤ EVENT_HISTORY_CAPACITY.

Lemma sum_pending_insert (ts : list thread) i t u :
  ts !! i = Some t →
  sum_list (pending <$> <[i := u]> ts) + pending t =
  sum_list (pending <$> ts) + pending u.
Proof.
  revert i. induction ts as [|w ts IH]; intros [|i] Hi; csimpl in *; try done.
  - simplify_eq. lia.
  - specialize (IH _ Hi). lia.
Qed.

(** A step that keeps a thread's number keeps the first two clauses. *)
Lemma unique_insert (ts : list thread) i t u (b : N) :
  ts !! i = Some t → thread_seq u = thread_seq t →
  (∀ j w n, ts !! j = Some w → thread_seq w = Some n → (n < b)%N) →
  (∀ j k w x n, ts !! j = Some w → ts !! k = Some x →
     thread_seq w = Some n → thread_seq x = Some n → j = k) →
  (∀ j w n, <[i := u]> ts !! j = Some w → thread_seq w = Some n → (n < b)%N) ∧
  (∀ j k w x n, <[i := u]> ts !! j = Some w → <[i := u]> ts !! k = Some x →
     thread_seq w = Some n → thread_seq x = Some n → j = k).
Proof.
  intros Hi Hu Hb Hq.
  assert (∀ j w n, <[i := u]> ts !! j = Some w → thread_seq w = Some n →
    ∃ w', ts !! j = Some w' ∧ thread_seq w' = Some n) as Hold.
  { intros j w n Hj Hn. destruct (decide (i = j)) as [->|Hne].
    - rewrite list_lookup_insert_eq in Hj by eauto using lookup_lt_Some.
      simplify_eq. exists t. split; [done|congruence].
    - rewrite list_lookup_insert_ne in Hj by done. eauto. }
  split.
  - intros j w n Hj Hn. destruct (Hold _ _ _ Hj Hn) as (w' & Hw & Hn'). eauto.
  - intros j k w x n Hj Hk Hw Hx.
    destruct (Hold _ _ _ Hj Hw) as (? & ? & ?), (Hold _ _ _ Hk Hx) as (? & ? & ?).
    eauto.
Qed.

Lemma inv_step total s s' :
  (N.of_nat total < U64)%N → inv total s → step s s' → inv total s'.
Proof.
  intros Ht (Hb & Hq & Hsum & Hh) Hstep. destruct Hstep as
    [subs ts i ev Hi|subs ts i ev Hi|subs ts i ev Hi]; simpl in *.
  - pose proof (sum_pending_insert _ _ _
      (Numbered (set_seq ev (seq subs))) Hi) as Hs. simpl in Hs.
    unfold inv; simpl. rewrite N.mod_small by (unfold U64 in *; lia).
    assert (∀ j w n, <[i := Numbered (set_seq ev (seq subs))]> ts !! j = Some w →
      thread_seq w = Some n → (j = i ∧ n = seq subs) ∨ (n < seq subs)%N ∧
        j ≠ i ∧ ts !! j = Some w) as Hc.
    { intros j w n Hj Hn. destruct (decide (i = j)) as [->|Hne].
      - rewrite list_lookup_insert_eq in Hj by eauto using lookup_lt_Some.
        simplify_eq. simpl in *. simplify_eq. auto.
      - rewrite list_lookup_insert_ne in Hj by done. right. eauto. }
    split_and!; [| |lia|done].
    + intros j w n Hj Hn. destruct (Hc _ _ _ Hj Hn) as [[-> ->]|(?&?&?)]; lia.
    + intros j k w x n Hj Hk Hw Hx.
      destruct (Hc _ _ _ Hj Hw) as [[-> ->]|(?&?&?)],
        (Hc _ _ _ Hk Hx) as [[-> ?]|(?&?&?)]; try lia; eauto.
  - pose proof (sum_pending_insert _ _ _ (InHistory ev) Hi) as Hs. simpl in Hs.
    destruct (unique_insert ts i _ (InHistory ev) (seq subs) Hi eq_refl Hb Hq).
    unfold inv; simpl. split_and!; [done|done|lia|apply trim_history_length].
  - pose proof (sum_pending_insert _ _ _ (Delivered ev) Hi) as Hs. simpl in Hs.
    destruct (unique_insert ts i _ (Delivered ev) (seq subs) Hi eq_refl Hb Hq).
    unfold inv; simpl. split_and!; [done|done|lia|done].
Qed.

Lemma inv_init evs : inv (length evs) (init evs).
Proof.
  assert (∀ i t n, (Calling <$> evs) !! i = Some t → thread_seq t ≠ Some n) as Hno.
  { intros i t n. rewrite list_lookup_fmap, fmap_Some.
    by intros (ev & _ & ->). }
  unfold inv, init; simpl. split_and!.
  - intros i t n Hi Hn. by destruct (Hno _ _ n Hi).
  - intros i j t u n Hi _ Hn. by destruct (Hno _ _ n Hi).
  - clear Hno. induction evs as [|ev evs IH]; [done|]. csimpl in *. lia.
  - unfold EVENT_HISTORY_CAPACITY. simpl. lia.
Qed.

(** However the critical sections of concurrent [notify]
    calls interleave, no two changes get the same sequence number, every
    number is below [current_seq], and the history never outgrows its
    capacity. *)
Theorem race_numbers_unique (evs : list ChangeEvent) (s : sys) :
  (N.of_nat (length evs) < U64)%N →
  rtc step (init evs) s →
  (∀ i j t u n, s.2 !! i = Some t → s.2 !! j = Some u →
     thread_seq t = Some n → thread_seq u = Some n → i = j) ∧
  (∀ i t n, s.2 !! i = Some t → thread_seq t = Some n → (n < current_seq s.1)%N) ∧
  length (history s.1) ≤ EVENT_HISTORY_CAPACITY.
Proof.
  intros Hlt Hr. assert (inv (length evs) s) as (?&?&?&?); [|done].
  pose proof (inv_init evs) as Hi. induction Hr; [done|].
  eauto using inv_step.
Qed.
(** A change that is numbered but not yet in the history is
    silently missing from [events_since]: two concurrent changes 1 and 2
    after a published change 0 can reach a state where the counter is 3
    and [events_since 0] answers [Some] of change 2 alone. *)
Theorem events_since_gap (e0 e1 e2 : ChangeEvent) :
  ∃ s, rtc step (init [e0; e1; e2]) s ∧
    current_seq s.1 = 3%N ∧
    events_since 0 s.1 = Some [set_seq e2 2].
Proof.
  eexists. split.
  - eapply rtc_l; [by apply (step_number _ _ 0 e0)|]. simpl.
    eapply rtc_l; [by apply (step_record _ _ 0 (set_seq e0 0))|]. simpl.
    eapply rtc_l; [by apply (step_number _ _ 1 e1)|]. simpl.
    eapply rtc_l; [by apply (step_number _ _ 2 e2)|]. simpl.
    eapply rtc_once, (step_record _ _ 2 (set_seq e2 2)). done.
  - by vm_compute.
Qed.
End race.
End NotifyRace.

(** ** Instances and witnesses *)

(** A bounded queue: capacity, queued events, receiver alive. *)
Definition bounded_channel : Channel := {|
  Sender := (N * list ChangeEvent * bool)%type;
  channel c := (c, [], true);
  try_send ev '(c, q, alive) :=
    if alive then
      if decide (N.of_nat (length q) ≤ c)%N then (Sent, (c, q ++ [ev], alive))
      else (Full, (c, q, alive))
    else (Disconnected, (c, q, alive));
|}.

Definition sample_event (k : string) : ChangeEvent :=
  Event k Kind_Set None (Some (as_bytes "v")) 0.


(** Two writers, both numbered before either is recorded. *)
Lemma race_numbers_unique_witness :
  ∃ s : @Subscribers bounded_channel * list NotifyRace.thread,
    rtc NotifyRace.step (NotifyRace.init [sample_event "a"; sample_event "b"]) s ∧
    (NotifyRace.thread_seq <$> s.2) = [Some 0%N; Some 1%N] ∧
    length (history s.1) ≤ EVENT_HISTORY_CAPACITY.
Proof.
  assert (∃ s : @Subscribers bounded_channel * list NotifyRace.thread,
    rtc NotifyRace.step (NotifyRace.init [sample_event "a"; sample_event "b"]) s ∧
    (NotifyRace.thread_seq <$> s.2) = [Some 0%N; Some 1%N]) as (s & Hr & Hs).
  { eexists. split; [|].
    - eapply rtc_l; [by apply (NotifyRace.step_number _ _ 0 (sample_event "a"))|]. simpl.
      eapply rtc_once. by apply (NotifyRace.step_number _ _ 1 (sample_event "b")).
    - reflexivity. }
  exists s. split; [exact Hr|]. split; [exact Hs|].
  apply (NotifyRace.race_numbers_unique [sample_event "a"; sample_event "b"] s eq_refl Hr).
Defined.
