(* ===== verification/BTree.v ===== *)
(** The in-memory backend: [src/src/store/btree.rs].

    The world of a [BTreeStore] is its shared map, its shared hook state and
    the log of observer calls made so far.  A [BTreeTx] keeps an overlay, a
    snapshot of the validators and the staged events next to the store it was
    begun on, so a transaction operation runs on the pair.

    The overlay scans ([store_side], [overlay_side], [merge_sides]) work on
    lists in place of lazy iterators. *)

From stdpp Require Import options.
From S2P Require Import Prelude OrdMap Core Hooks.

(** ** Range scans *)

Definition limit_reached (limit : option nat) (len : nat) : bool :=
  match limit with Some lim => bool_decide (lim ≤ len) | None => false end.

(** The body shared by [collect_next_range] and [collect_prev_range]: push
    entries until the limit is reached. *)
Fixpoint collect_loop (limit : option nat) (l : list (string * bytes))
    (vec : list KeyValue) : list KeyValue :=
  match l with
  | [] => vec
  | kv :: l' =>
      if limit_reached limit (length vec) then vec
      else collect_loop limit l' (vec ++ [to_kv kv])
  end.

Definition collect_next_range (m : gmap string bytes) (lo hi : option string)
    (limit : option nat) : list KeyValue :=
  collect_loop limit (bt_range lo hi m) [].

Definition collect_prev_range (m : gmap string bytes) (lo hi : option string)
    (limit : option nat) : list KeyValue :=
  collect_loop limit (reverse (bt_range lo hi m)) [].

Definition build_next (m : gmap string bytes) (c : cursor) (limit : option N) :
    list KeyValue :=
  let limit := limit_of limit in
  match c.1, c.2 with
  | Some start, Some end_ =>
      if decide (end_ <ₖ start) then []
      else collect_next_range m (Some start) (Some end_) limit
  | Some start, None => collect_next_range m (Some start) None limit
  | None, Some end_ => collect_next_range m None (Some end_) limit
  | None, None => collect_next_range m None None limit
  end.

Definition build_prev (m : gmap string bytes) (c : cursor) (limit : option N) :
    list KeyValue :=
  let limit := limit_of limit in
  match c.1 with
  | None => []
  | Some start =>
      match c.2 with
      | Some end_ =>
          if decide (start <ₖ end_) then []
          else collect_prev_range m (Some end_) (Some start) limit
      | None => collect_prev_range m None (Some start) limit
      end
  end.

(** The closure [ordered] of the two sides, and the comparison of the merge. *)
Definition ordered (forward : bool) (s e : string) : Prop :=
  if forward then s ≤ₖ e else e ≤ₖ s.

#[export] Instance ordered_dec forward : RelDecision (ordered forward).
Proof. intros s e. unfold ordered. destruct forward; apply _. Defined.

(** The [base] iterator of [store_side] and [overlay_side]. *)
Definition side_base {V} (m : gmap string V) (c : cursor) (forward : bool) :
    list (string * V) :=
  match c.1, c.2 with
  | Some s, Some e =>
      if decide (ordered forward s e) then
        let '(lo, hi) := if forward then (s, e) else (e, s) in
        if forward then bt_range (Some lo) (Some hi) m
        else reverse (bt_range (Some lo) (Some hi) m)
      else []
  | Some s, None =>
      if forward then bt_range (Some s) None m
      else reverse (bt_range None (Some s) m)
  | None, Some e => if forward then bt_range None (Some e) m else []
  | None, None => if forward then bt_iter m else []
  end.

Definition store_side (m : gmap string bytes) (c : cursor)
    (overlay_keys : gset string) (forward : bool) : list (string * bytes) :=
  filter (λ kv, kv.1 ∉ overlay_keys) (side_base m c forward).

Definition overlay_side (o : gmap string (option bytes)) (c : cursor)
    (forward : bool) : list (string * bytes) :=
  omap (λ kv : string * option bytes, pair kv.1 <$> kv.2) (side_base o c forward).

(** The [loop] of [merge_sides]; each round consumes an item, so the number
    of items plus one is enough fuel. *)
Fixpoint merge_sides_loop (fuel : nat) (st ov : list (string * bytes))
    (limit : option nat) (forward : bool) (out : list KeyValue) : list KeyValue :=
  match fuel with
  | O => out
  | S fuel =>
      if limit_reached limit (length out) then out
      else match st, ov with
           | [], [] => out
           | [], o :: ov' => merge_sides_loop fuel [] ov' limit forward (out ++ [to_kv o])
           | s :: st', [] => merge_sides_loop fuel st' [] limit forward (out ++ [to_kv s])
           | s :: st', o :: ov' =>
               if decide (ordered forward s.1 o.1)
               then merge_sides_loop fuel st' ov limit forward (out ++ [to_kv s])
               else merge_sides_loop fuel st ov' limit forward (out ++ [to_kv o])
           end
  end.

Definition merge_sides (st ov : list (string * bytes)) (limit : option nat)
    (forward : bool) : list KeyValue :=
  merge_sides_loop (S (length st + length ov)) st ov limit forward [].

Definition build_next_overlay (m : gmap string bytes) (o : gmap string (option bytes))
    (c : cursor) (limit : option N) : list KeyValue :=
  merge_sides (store_side m c (dom o) true) (overlay_side o c true)
    (limit_of limit) true.

Definition build_prev_overlay (m : gmap string bytes) (o : gmap string (option bytes))
    (c : cursor) (limit : option N) : list KeyValue :=
  merge_sides (store_side m c (dom o) false) (overlay_side o c false)
    (limit_of limit) false.

(** ** The store *)

Record BTreeStore `{Channel} := MkBTree {
  map : gmap string bytes;
  hooks : HookState;
  calls : list (ObserverId * ChangeEvent);
}.

Section btree.
Context `{Ch : Channel}.

Definition btree_default : BTreeStore := MkBTree _ ∅ hooks_default [].

Definition with_map (f : gmap string bytes → gmap string bytes)
    (s : BTreeStore) : BTreeStore := MkBTree _ (f (map s)) (hooks s) (calls s).

(** [crate::store::hooks::notify(&self.hooks.subscribers(), ..)]. *)
Definition btree_notify (ev : ChangeEvent) (s : BTreeStore) : BTreeStore :=
  let '(cs, h) := hooks_notify ev (hooks s) in
  MkBTree _ (map s) h (calls s ++ cs).

Definition btree_on_hooks (f : HookState → HookState) (s : BTreeStore) : BTreeStore :=
  MkBTree _ (map s) (f (hooks s)) (calls s).

#[export] Instance BTreeStore_Hooks : Hooks BTreeStore := {|
  hk_add_validator v := btree_on_hooks (add_validator v);
  hk_add_observer scope o := btree_on_hooks (add_observer scope o);
  hk_watch_scope scope := btree_on_hooks (watch_scope scope);
  hk_current_seq s := current_seq (subscribers (hooks s));
  hk_events_since n s := events_since n (subscribers (hooks s));
|}.

Definition btree_get_bytes (k : string) : Op BTreeStore (option bytes) :=
  op_gets (λ s, map s !! k).

Definition btree_has (k : string) : Op BTreeStore bool :=
  op_gets (λ s, bool_decide (is_Some (map s !! k))).

Definition btree_gets_bytes (limit : option N) (dir : Direction) (c : cursor) :
    Op BTreeStore (list KeyValue) :=
  op_gets (λ s, match dir with
                | Next => build_next (map s) c limit
                | Prev => build_prev (map s) c limit
                end).

Definition btree_view : StoreView BTreeStore :=
  View btree_get_bytes btree_has btree_gets_bytes.

Definition btree_delete (k : string) : Op BTreeStore bool :=
  let! old_value := op_gets (λ s, map s !! k) in
  let! removed := op_gets (λ s, bool_decide (is_Some (map s !! k))) in
  op_modify (with_map (base.delete k)) ;;
  (if removed : bool
   then op_modify (btree_notify (Event k Kind_Delete old_value None 0))
   else op_ret ()) ;;
  op_ret removed.

Definition btree_set_bytes (k : string) (v : bytes) :
    Op BTreeStore (option bytes) :=
  let! vs := op_gets (λ s, validators (hooks s)) in
  validate_key vs btree_view k v ;;
  let! prev := op_gets (λ s, map s !! k) in
  op_modify (with_map <[k := v]>) ;;
  op_modify (btree_notify (Event k Kind_Set prev (Some v) 0)) ;;
  op_ret prev.

#[export] Instance BTreeStore_GetSet : GetSet BTreeStore := {|
  get_bytes := btree_get_bytes;
  has := btree_has;
  delete := btree_delete;
  set_bytes := btree_set_bytes;
  put_bytes := put_bytes_default btree_set_bytes;
  gets_bytes := btree_gets_bytes;
|}.
End btree.

(** ** Transactions *)

Record BTreeTx := MkTx {
  overlay : gmap string (option bytes);
  tx_validators : list Validator;
  staged : list ChangeEvent;
}.

(** [BTreeTx::stage]: one event per key, keeping the first old value. *)
Fixpoint stage (ev : ChangeEvent) (l : list ChangeEvent) : list ChangeEvent :=
  match l with
  | [] => [ev]
  | e :: l' =>
      if decide (ev_key e = ev_key ev)
      then Event (ev_key ev) (ev_kind ev) (ev_old e) (ev_new ev) (ev_seq ev) :: l'
      else e :: stage ev l'
  end.

(** Applying a staged overlay to a map, entry by entry. *)
Definition apply_entry (m : gmap string bytes) (kv : string * option bytes) :
    gmap string bytes :=
  match kv.2 with Some v => <[kv.1 := v]> m | None => base.delete kv.1 m end.

Definition apply_overlay (o : gmap string (option bytes)) (m : gmap string bytes) :
    gmap string bytes := foldl apply_entry m (bt_iter o).

Section tx.
Context `{Ch : Channel}.

(** A transaction operation runs on the shared store and its own state. *)
Abbreviation world := (BTreeStore * BTreeTx)%type.

Definition btree_begin_tx (s : BTreeStore) : world :=
  (s, MkTx ∅ (validators (hooks s)) []).

Definition tx_insert (k : string) (v : option bytes) (w : world) : world :=
  (w.1, MkTx (<[k := v]> (overlay w.2)) (tx_validators w.2) (staged w.2)).

Definition tx_stage (ev : ChangeEvent) (w : world) : world :=
  (w.1, MkTx (overlay w.2) (tx_validators w.2) (stage ev (staged w.2))).

Definition tx_get_bytes (k : string) : Op world (option bytes) :=
  op_gets (λ w, match overlay w.2 !! k with
                | Some st => st
                | None => map w.1 !! k
                end).

Definition tx_has (k : string) : Op world bool :=
  op_gets (λ w, match overlay w.2 !! k with
                | Some st => bool_decide (is_Some st)
                | None => bool_decide (is_Some (map w.1 !! k))
                end).

Definition tx_gets_bytes (limit : option N) (dir : Direction) (c : cursor) :
    Op world (list KeyValue) :=
  op_gets (λ w, match dir with
                | Next => build_next_overlay (map w.1) (overlay w.2) c limit
                | Prev => build_prev_overlay (map w.1) (overlay w.2) c limit
                end).

Definition tx_view : StoreView world := View tx_get_bytes tx_has tx_gets_bytes.

Definition tx_delete (k : string) : Op world bool :=
  let! old_value := tx_get_bytes k in
  let existed := bool_decide (is_Some old_value) in
  (if existed : bool then
     op_modify (tx_insert k None) ;;
     op_modify (tx_stage (Event k Kind_Delete old_value None 0))
   else op_ret ()) ;;
  op_ret existed.

Definition tx_set_bytes (k : string) (v : bytes) : Op world (option bytes) :=
  let! vs := op_gets (λ w, tx_validators w.2) in
  validate_key vs tx_view k v ;;
  let! prev := tx_get_bytes k in
  op_modify (tx_insert k (Some v)) ;;
  op_modify (tx_stage (Event k Kind_Set prev (Some v) 0)) ;;
  op_ret prev.

#[export] Instance BTreeTx_GetSet : GetSet world := {|
  get_bytes := tx_get_bytes;
  has := tx_has;
  delete := tx_delete;
  set_bytes := tx_set_bytes;
  put_bytes := put_bytes_default tx_set_bytes;
  gets_bytes := tx_gets_bytes;
|}.

(** The re-validation pass of [commit]. *)
Fixpoint revalidate (evs : list ChangeEvent) : Op world () :=
  match evs with
  | [] => op_ret ()
  | ev :: evs' =>
      match ev_kind ev, ev_new ev with
      | Kind_Set, Some v =>
          let! vs := op_gets (λ w, tx_validators w.2) in
          validate_key vs (RevalidateView tx_view (ev_key ev) (ev_old ev))
            (ev_key ev) v
      | _, _ => op_ret ()
      end ;;
      revalidate evs'
  end.

Definition take_overlay (w : world) : world :=
  (w.1, MkTx ∅ (tx_validators w.2) (staged w.2)).

(** The loop of [commit] that publishes the staged events. *)
Definition publish (evs : list ChangeEvent) (s : BTreeStore) : BTreeStore :=
  foldl (λ s ev, btree_notify ev s) s evs.

Definition tx_commit : Op world () :=
  let! evs := op_gets (λ w : world, staged w.2) in
  revalidate evs ;;
  let! o := op_gets (λ w : world, overlay w.2) in
  op_modify take_overlay ;;
  op_modify (λ w, (with_map (apply_overlay o) w.1, w.2)) ;;
  op_modify (λ w, (publish evs w.1, w.2)).

Definition tx_rollback : Op world () := op_ret ().

#[export] Instance BTreeStore_Store : Store BTreeStore world := {|
  begin_tx s := Ok (btree_begin_tx s);
  commit := tx_commit;
  rollback := tx_rollback;
  tx_store := fst;
|}.
End tx.

(** ** Scans against the specification *)

Section scans.
Implicit Types (m : gmap string bytes) (c : cursor).

Lemma limit_reached_spec (limit : option nat) len :
  limit_reached limit len = true ↔ ∃ n, limit = Some n ∧ n ≤ len.
Proof.
  destruct limit as [n|]; simpl; [|naive_solver].
  rewrite bool_decide_eq_true. naive_solver.
Qed.

Lemma take_budget_reached {A} limit len (l : list A) :
  limit_reached limit len = true → take_limit (budget limit len) l = [].
Proof.
  intros (n & -> & Hle)%limit_reached_spec. simpl.
  by replace (n - len) with 0 by lia.
Qed.

Lemma take_budget_cons {A} limit len x (l : list A) :
  limit_reached limit len = false →
  take_limit (budget limit len) (x :: l) =
    x :: take_limit (budget limit (S len)) l.
Proof.
  destruct limit as [n|]; [|done]. simpl. rewrite bool_decide_eq_false.
  intros Hlt. destruct (n - len) eqn:Hn; [lia|]. simpl. do 2 f_equal. lia.
Qed.

Lemma collect_loop_spec limit l vec :
  collect_loop limit l vec =
    vec ++ (to_kv <$> take_limit (budget limit (length vec)) l).
Proof.
  revert vec. induction l as [|kv l IH]; intros vec; simpl.
  { rewrite take_limit_nil. by rewrite app_nil_r. }
  destruct (limit_reached _ _) eqn:Hr.
  { rewrite take_budget_reached by done. by rewrite app_nil_r. }
  rewrite IH, take_budget_cons by done. rewrite fmap_cons, length_app. simpl.
  by rewrite <-app_assoc, Nat.add_1_r.
Qed.

Lemma build_next_spec m c limit : build_next m c limit = scan_spec limit Next c m.
Proof.
  unfold build_next, collect_next_range, scan_spec.
  destruct c as [[s|] [e|]]; simpl; [case_decide as Hlt|..];
    rewrite ?collect_loop_spec, ?budget_0; try done.
  rewrite bt_range_inverted by done. by rewrite take_limit_nil.
Qed.

Lemma build_prev_spec m c limit : build_prev m c limit = scan_spec limit Prev c m.
Proof.
  unfold build_prev, collect_prev_range, scan_spec.
  destruct c as [[s|] [e|]]; simpl; [case_decide as Hlt|..];
    rewrite ?collect_loop_spec, ?budget_0; try done.
  rewrite bt_range_inverted by done. by rewrite reverse_nil, take_limit_nil.
Qed.

(** The direction of a list of entries. *)
Definition directed {A} (forward : bool) (l : list A) : list A :=
  if forward then l else reverse l.

Lemma elem_of_directed {A} forward (x : A) l : x ∈ directed forward l ↔ x ∈ l.
Proof. destruct forward; simpl; [done|]. apply elem_of_reverse. Qed.

(** The window of a scan as (lower, upper) bounds; [None] when it is empty
    for lack of a starting point. *)
Definition scan_bounds (forward : bool) (c : cursor) : option cursor :=
  if forward then Some c
  else match c.1 with Some s => Some (c.2, Some s) | None => None end.

Lemma side_base_spec {V} (m : gmap string V) c forward :
  side_base m c forward =
    match scan_bounds forward c with
    | Some b => directed forward (bt_range b.1 b.2 m)
    | None => []
    end.
Proof.
  unfold side_base, scan_bounds, ordered.
  destruct c as [[s|] [e|]], forward; simpl; try done.
  - case_decide; [done|]. by rewrite bt_range_inverted by (by apply key_lt_nle).
  - case_decide; [done|]. by rewrite bt_range_inverted by (by apply key_lt_nle).
  - by rewrite bt_range_full.
Qed.

Definition dir_of (forward : bool) : Direction := if forward then Next else Prev.

Lemma scan_spec_dir limit forward c m :
  scan_spec limit (dir_of forward) c m =
    match scan_bounds forward c with
    | Some b => to_kv <$> take_limit (limit_of limit) (directed forward (bt_range b.1 b.2 m))
    | None => []
    end.
Proof. destruct forward; [done|]. by destruct c as [[]]. Qed.

(** *** Merging the two sides *)

Definition entry_ordered (forward : bool) (a b : string * bytes) : Prop :=
  ordered forward a.1 b.1.

#[export] Instance entry_ordered_dec forward : RelDecision (entry_ordered forward).
Proof. intros a b. unfold entry_ordered. apply _. Defined.
#[export] Instance entry_ordered_total forward : Total (entry_ordered forward).
Proof.
  intros a b. unfold entry_ordered, ordered. destruct forward;
    destruct (total key_le a.1 b.1); auto.
Qed.
#[export] Instance entry_ordered_trans forward : Transitive (entry_ordered forward).
Proof. intros a b d. unfold entry_ordered, ordered. destruct forward; key_order. Qed.

Lemma merge_sides_loop_spec fuel st ov limit forward out :
  length st + length ov < fuel →
  merge_sides_loop fuel st ov limit forward out =
    out ++ (to_kv <$> take_limit (budget limit (length out))
                        (list_merge (entry_ordered forward) st ov)).
Proof.
  revert st ov out. induction fuel as [|fuel IH]; intros st ov out Hf; [lia|].
  simpl. destruct (limit_reached _ _) eqn:Hr.
  { rewrite take_budget_reached by done. by rewrite app_nil_r. }
  assert (∀ x l, (out ++ [to_kv x]) ++
    (to_kv <$> take_limit (budget limit (length (out ++ [to_kv x]))) l) =
    out ++ (to_kv <$> take_limit (budget limit (length out)) (x :: l))) as Hstep.
  { intros x l. rewrite take_budget_cons by done. rewrite fmap_cons, length_app.
    simpl. by rewrite <-app_assoc, Nat.add_1_r. }
  destruct st as [|s st], ov as [|o ov]; simpl in *.
  - rewrite take_limit_nil. by rewrite app_nil_r.
  - rewrite IH by (simpl; lia). rewrite <-Hstep. by destruct ov.
  - rewrite IH by (simpl; lia). rewrite <-Hstep. by destruct st.
  - destruct (decide_rel (entry_ordered forward) s o) as [Ho|Ho];
      unfold entry_ordered in Ho.
    + rewrite decide_True by done. rewrite IH by (simpl; lia). apply Hstep.
    + rewrite decide_False by done. rewrite IH by (simpl; lia). apply Hstep.
Qed.
End scans.

(** ** The overlay *)

Section overlay.
Implicit Types (m : gmap string bytes) (o : gmap string (option bytes)).

(** The map a transaction sees: staged entries first. *)
Definition overlay_lookup o m (k : string) : option bytes :=
  match o !! k with Some st => st | None => m !! k end.

Lemma foldl_apply_entry_notin (l : list (string * option bytes)) m k :
  k ∉ l.*1 → foldl apply_entry m l !! k = m !! k.
Proof.
  revert m. induction l as [|[k' v] l IH]; intros m Hk; simpl; [done|].
  rewrite fmap_cons, not_elem_of_cons in Hk. destruct Hk as [Hne Hk].
  simpl in Hne. rewrite IH by done. unfold apply_entry. simpl.
  destruct v; simplify_map_eq; done.
Qed.

Lemma foldl_apply_entry_in (l : list (string * option bytes)) m k v :
  NoDup l.*1 → (k, v) ∈ l → foldl apply_entry m l !! k = v.
Proof.
  revert m. induction l as [|[k' v'] l IH]; intros m Hnd Hin; [by apply elem_of_nil in Hin|].
  rewrite fmap_cons in Hnd. apply NoDup_cons in Hnd as [Hk' Hnd]. simpl.
  apply elem_of_cons in Hin as [?|Hin]; [simplify_eq|by apply IH].
  rewrite foldl_apply_entry_notin by done.
  unfold apply_entry. simpl. destruct v'; by simplify_map_eq.
Qed.

Lemma apply_overlay_lookup o m k :
  apply_overlay o m !! k = overlay_lookup o m k.
Proof.
  unfold apply_overlay, overlay_lookup. destruct (o !! k) as [v|] eqn:Ho.
  - apply foldl_apply_entry_in; [apply bt_iter_NoDup_keys|].
    by apply elem_of_bt_iter.
  - apply foldl_apply_entry_notin. intros ([k' v] & -> & Hin)%list_elem_of_fmap.
    apply elem_of_bt_iter in Hin. simpl in *. congruence.
Qed.

Lemma apply_overlay_empty m : apply_overlay ∅ m = m.
Proof.
  apply map_eq. intros k. rewrite apply_overlay_lookup. unfold overlay_lookup.
  by rewrite lookup_empty.
Qed.

Lemma apply_overlay_insert o m k v :
  apply_overlay (<[k := v]> o) m =
    match v with
    | Some x => <[k := x]> (apply_overlay o m)
    | None => base.delete k (apply_overlay o m)
    end.
Proof.
  apply map_eq. intros k'. rewrite apply_overlay_lookup. unfold overlay_lookup.
  destruct (decide (k = k')) as [->|Hne]; [destruct v; by simplify_map_eq|].
  destruct v; rewrite !lookup_insert_ne, ?lookup_delete_ne, ?lookup_insert_ne,
    apply_overlay_lookup by done; done.
Qed.

(** *** The two sides of a merged scan *)

Definition store_entries o m (b : cursor) : list (string * bytes) :=
  filter (λ kv, kv.1 ∉ dom o) (bt_range b.1 b.2 m).

Definition overlay_entries o (b : cursor) : list (string * bytes) :=
  omap (λ kv : string * option bytes, pair kv.1 <$> kv.2) (bt_range b.1 b.2 o).

Lemma elem_of_store_entries o m b k v :
  (k, v) ∈ store_entries o m b ↔ in_bounds b.1 b.2 k ∧ o !! k = None ∧ m !! k = Some v.
Proof.
  unfold store_entries. rewrite list_elem_of_filter, elem_of_bt_range. simpl.
  rewrite not_elem_of_dom. naive_solver.
Qed.

Lemma elem_of_overlay_entries o b k v :
  (k, v) ∈ overlay_entries o b ↔ in_bounds b.1 b.2 k ∧ o !! k = Some (Some v).
Proof.
  unfold overlay_entries. rewrite list_elem_of_omap. split.
  - intros ([k' [v'|]] & Hin & Heq); simplify_eq/=. by apply elem_of_bt_range in Hin.
  - intros Hin. exists (k, Some v). split; [|done]. by apply elem_of_bt_range.
Qed.

Lemma omap_keys_sorted (l : list (string * option bytes)) :
  sorted_entries l →
  sorted_entries (omap (λ kv : string * option bytes, pair kv.1 <$> kv.2) l).
Proof.
  induction l as [|[k [v|]] l IH]; [done|..]; rewrite sorted_entries_cons;
    intros [Hs Hlt]; simpl; [|by apply IH].
  apply sorted_entries_cons. split; [by apply IH|].
  intros k' v' ([k'' [v''|]] & Hin & Heq)%list_elem_of_omap; simplify_eq/=.
  by eapply Hlt.
Qed.

Lemma store_side_spec m o c forward :
  store_side m c (dom o) forward =
    match scan_bounds forward c with
    | Some b => directed forward (store_entries o m b)
    | None => []
    end.
Proof.
  unfold store_side, store_entries. rewrite side_base_spec.
  destruct (scan_bounds forward c); [|done].
  destruct forward; simpl; [done|]. by rewrite filter_reverse.
Qed.

Lemma omap_reverse {A B} (f : A → option B) (l : list A) :
  omap f (reverse l) = reverse (omap f l).
Proof.
  induction l as [|x l IH]; [done|].
  rewrite reverse_cons, omap_app, IH. simpl.
  destruct (f x); simpl; [by rewrite reverse_cons|by rewrite app_nil_r].
Qed.

Lemma overlay_side_spec o c forward :
  overlay_side o c forward =
    match scan_bounds forward c with
    | Some b => directed forward (overlay_entries o b)
    | None => []
    end.
Proof.
  unfold overlay_side, overlay_entries. rewrite side_base_spec.
  destruct (scan_bounds forward c); [|done].
  destruct forward; simpl; [done|]. by rewrite omap_reverse.
Qed.
End overlay.

(** A sorted list is ordered for the merge, in either direction. *)
Lemma directed_sorted forward l :
  sorted_entries l → Sorted (entry_ordered forward) (directed forward l).
Proof.
  intros Hs. assert (Sorted entry_le l) as Hle.
  { apply StronglySorted_Sorted. unfold sorted_entries in Hs.
    induction l as [|kv l IH]; [constructor|].
    rewrite fmap_cons in Hs. apply StronglySorted_cons in Hs as [Hall Hs].
    apply StronglySorted_cons. split; [|by apply IH].
    rewrite Forall_forall in Hall. apply Forall_forall. intros kv' Hin.
    apply key_lt_le, Hall. by apply list_elem_of_fmap_2. }
  destruct forward; simpl; [done|]. by apply Sorted_reverse in Hle.
Qed.

Lemma directed_unsorted forward l :
  NoDup l.*1 → Sorted (entry_ordered forward) l → sorted_entries (directed forward l).
Proof.
  intros Hnd Hs. apply sorted_entries_weaken.
  - destruct forward; simpl; [done|]. by rewrite reverse_Permutation.
  - apply Sorted_StronglySorted; [apply _|].
    destruct forward; simpl; [done|]. by apply (Sorted_reverse (entry_ordered false)).
Qed.

Lemma directed_involutive {A} forward (l : list A) :
  directed forward (directed forward l) = l.
Proof. destruct forward; simpl; [done|]. apply reverse_involutive. Qed.

Lemma directed_keys {V} forward (l : list (string * V)) :
  (directed forward l).*1 ≡ₚ l.*1.
Proof. destruct forward; simpl; [done|]. by rewrite reverse_Permutation. Qed.

Lemma elem_of_list_merge forward l1 l2 (kv : string * bytes) :
  kv ∈ list_merge (entry_ordered forward) l1 l2 ↔ kv ∈ l1 ∨ kv ∈ l2.
Proof. by rewrite merge_Permutation, elem_of_app. Qed.

(** Merging two sorted, key-disjoint sides gives the sorted union. *)
Lemma merge_directed forward l1 l2 l :
  sorted_entries l1 → sorted_entries l2 → sorted_entries l →
  (∀ k, k ∈ l1.*1 → k ∈ l2.*1 → False) →
  (∀ k v, (k, v) ∈ l ↔ (k, v) ∈ l1 ∨ (k, v) ∈ l2) →
  list_merge (entry_ordered forward) (directed forward l1) (directed forward l2) =
    directed forward l.
Proof.
  intros H1 H2 Hl Hdisj Heq.
  rewrite <-(directed_involutive forward (list_merge _ _ _)). f_equal.
  apply sorted_entries_unique; [|done|].
  - apply directed_unsorted; [|apply Sorted_list_merge; [apply _|by apply directed_sorted..]].
    rewrite merge_Permutation, fmap_app, !directed_keys. apply NoDup_app.
    split_and!; [by apply sorted_entries_NoDup| |by apply sorted_entries_NoDup].
    intros k ??. by apply (Hdisj k).
  - intros k v. by rewrite elem_of_directed, elem_of_list_merge, !elem_of_directed.
Qed.

(** The scan of a transaction, which merges the committed map and the staged
    overlay, is the scan of the map the commit would produce. *)
Lemma merge_overlay_spec m o c limit :
  build_next_overlay m o c limit = scan_spec limit Next c (apply_overlay o m) ∧
  build_prev_overlay m o c limit = scan_spec limit Prev c (apply_overlay o m).
Proof.
  assert (∀ forward,
    merge_sides (store_side m c (dom o) forward) (overlay_side o c forward)
      (limit_of limit) forward =
    scan_spec limit (dir_of forward) c (apply_overlay o m)) as Hall.
  { intros forward. rewrite store_side_spec, overlay_side_spec, scan_spec_dir.
    unfold merge_sides. rewrite merge_sides_loop_spec by lia.
    simpl. rewrite budget_0. destruct (scan_bounds forward c) as [b|];
      [|simpl; by rewrite take_limit_nil].
    do 2 f_equal. apply merge_directed.
    - apply sorted_entries_filter, bt_range_sorted.
    - apply omap_keys_sorted, bt_range_sorted.
    - apply bt_range_sorted.
    - intros k ([? v1] & -> & Hin1)%list_elem_of_fmap
        ([? v2] & Hk & Hin2)%list_elem_of_fmap. simpl in Hk. subst.
      apply elem_of_store_entries in Hin1. apply elem_of_overlay_entries in Hin2.
      naive_solver.
    - intros k v. rewrite elem_of_bt_range, elem_of_store_entries,
        elem_of_overlay_entries, apply_overlay_lookup. unfold overlay_lookup.
      destruct (o !! k) as [[]|]; naive_solver. }
  split; [apply (Hall true)|apply (Hall false)].
Qed.
