(* ===== verification/BTreeSpec.v ===== *)
(** The in-memory backend against its contract: reads refine the abstract
    map, writes are validated and published, a transaction simulates the store
    that its commit produces, and a commit is all or nothing. *)

From stdpp Require Import options.
From S2P Require Import Prelude OrdMap Core Hooks BTree.

(** ** Views that only read *)

(** A view under an invariant of its own state, against one that leaves its
    state alone: every read gives the same answer. *)
Record view_sim {S T} (I : S → Prop) (v : StoreView S) (w : StoreView T) (t : T) : Prop := {
  vs_get k s : I s → ∃ r s', sv_get v k s = (r, s') ∧ I s' ∧ sv_get w k t = (r, t);
  vs_has k s : I s → ∃ r s', sv_has v k s = (r, s') ∧ I s' ∧ sv_has w k t = (r, t);
  vs_gets l d c s : I s → ∃ r s', sv_gets_bytes v l d c s = (r, s') ∧ I s' ∧
    sv_gets_bytes w l d c t = (r, t);
}.

Section view_sim.
Context {S T : Type} (I : S → Prop) (v : StoreView S) (w : StoreView T) (t : T).
Context (Hvs : view_sim I v w t).

Lemma run_view_sim p s :
  I s → ∃ r s', run_view v p s = (r, s') ∧ I s' ∧ run_view w p t = (r, t).
Proof using Hvs.
  revert s. induction p as [r|k cont IH|k cont IH|l d c cont IH]; intros s Hs; simpl;
    [by eauto|unfold op_try..].
  - destruct (vs_get _ _ _ _ Hvs k s Hs) as (r & s' & -> & Hs' & ->). by apply IH.
  - destruct (vs_has _ _ _ _ Hvs k s Hs) as (r & s' & -> & Hs' & ->). by apply IH.
  - destruct (vs_gets _ _ _ _ Hvs l d c s Hs) as (r & s' & -> & Hs' & ->). by apply IH.
Qed.

Lemma validate_key_sim vs k x s :
  I s → ∃ r s', validate_key vs v k x s = (r, s') ∧ I s' ∧ validate_key vs w k x t = (r, t).
Proof using Hvs.
  revert s. induction vs as [|vd vs IH]; intros s Hs; simpl; [by eauto|].
  destruct (scope_matches _ _); [|by apply IH]. unfold op_bind.
  destruct (run_view_sim (validate vd k x) s Hs) as ([[]|e] & s' & -> & Hs' & ->); eauto.
Qed.

(** Revalidation hides one key from both views alike. *)
Lemma revalidate_view_sim k old :
  view_sim I (RevalidateView v k old) (RevalidateView w k old) t.
Proof using Hvs.
  split; simpl; intros.
  - destruct (decide _); [by eexists _, _|by apply (vs_get _ _ _ _ Hvs)].
  - destruct (decide _); [by eexists _, _|by apply (vs_has _ _ _ _ Hvs)].
  - by apply (vs_gets _ _ _ _ Hvs).
Qed.
End view_sim.

(** Two views agree on two states: every read gives the same answer and
    leaves its own state as it was. *)
Record view_agrees {S T} (v : StoreView S) (s : S) (w : StoreView T) (t : T) : Prop := {
  va_get k : ∃ r, sv_get v k s = (r, s) ∧ sv_get w k t = (r, t);
  va_has k : ∃ r, sv_has v k s = (r, s) ∧ sv_has w k t = (r, t);
  va_gets l d c : ∃ r, sv_gets_bytes v l d c s = (r, s) ∧
    sv_gets_bytes w l d c t = (r, t);
}.

Section views.
Context {S T : Type} (v : StoreView S) (s : S) (w : StoreView T) (t : T).
Context (Hva : view_agrees v s w t).

Lemma agrees_sim : view_sim (λ s', s' = s) v w t.
Proof using Hva.
  destruct Hva as [Hg Hh Hs]. split.
  - intros k ? ->. destruct (Hg k) as (r & ? & ?). eauto.
  - intros k ? ->. destruct (Hh k) as (r & ? & ?). eauto.
  - intros l d c ? ->. destruct (Hs l d c) as (r & ? & ?). eauto.
Qed.

Lemma validate_key_agrees vs k x :
  ∃ r, validate_key vs v k x s = (r, s) ∧ validate_key vs w k x t = (r, t).
Proof using Hva.
  destruct (validate_key_sim _ _ _ _ agrees_sim vs k x s eq_refl) as (r & s' & ? & -> & ?). eauto.
Qed.

(** Revalidation hides one key from both views alike. *)
Lemma revalidate_view_agrees k old :
  view_agrees (RevalidateView v k old) s (RevalidateView w k old) t.
Proof using Hva.
  split; simpl; intros.
  - destruct (decide _); [by eexists|apply (va_get _ _ _ _ Hva)].
  - destruct (decide _); [by eexists|apply (va_has _ _ _ _ Hva)].
  - apply (va_gets _ _ _ _ Hva).
Qed.
End views.

(** ** The read contract *)

Section reads.
Context `{Ch : Channel}.
Abbreviation world := (BTreeStore * BTreeTx)%type.

#[export] Program Instance BTreeStore_GetSetReads : GetSetReads BTreeStore :=
  {| gs_holds m s := map s = m |}.
Next Obligation. intros m k s <-. by exists s. Qed.
Next Obligation. intros m k s <-. by exists s. Qed.
Next Obligation.
  intros m limit dir c s <-. exists s. split; [|done]. simpl.
  unfold btree_gets_bytes, op_gets.
  by destruct dir; rewrite ?build_next_spec, ?build_prev_spec.
Qed.

(** The map a transaction reads from. *)
Definition tx_map (w : world) : gmap string bytes :=
  apply_overlay (overlay w.2) (map w.1).

Lemma tx_get_bytes_spec k w : tx_get_bytes k w = (Ok (tx_map w !! k), w).
Proof.
  unfold tx_get_bytes, op_gets, tx_map. rewrite apply_overlay_lookup.
  unfold overlay_lookup. by destruct (_ !! k).
Qed.

Lemma tx_has_spec k w :
  tx_has k w = (Ok (bool_decide (is_Some (tx_map w !! k))), w).
Proof.
  unfold tx_has, op_gets, tx_map. rewrite apply_overlay_lookup.
  unfold overlay_lookup. by destruct (_ !! k).
Qed.

Lemma tx_gets_bytes_spec limit dir c w :
  tx_gets_bytes limit dir c w = (Ok (scan_spec limit dir c (tx_map w)), w).
Proof.
  unfold tx_gets_bytes, op_gets, tx_map.
  destruct (merge_overlay_spec (map w.1) (overlay w.2) c limit) as [Hn Hp].
  by destruct dir; rewrite ?Hn, ?Hp.
Qed.

#[export] Program Instance BTreeTx_GetSetReads : GetSetReads world :=
  {| gs_holds m w := tx_map w = m |}.
Next Obligation. intros m k w <-. exists w. simpl. by rewrite tx_get_bytes_spec. Qed.
Next Obligation. intros m k w <-. exists w. simpl. by rewrite tx_has_spec. Qed.
Next Obligation.
  intros m limit dir c w <-. exists w. simpl. by rewrite tx_gets_bytes_spec.
Qed.

Lemma btree_gets_bytes_spec limit dir c s :
  btree_gets_bytes limit dir c s = (Ok (scan_spec limit dir c (map s)), s).
Proof.
  unfold btree_gets_bytes, op_gets.
  by destruct dir; rewrite ?build_next_spec, ?build_prev_spec.
Qed.

(** A transaction and a store with the map it reads agree as views. *)
Lemma tx_btree_agree w s : tx_map w = map s → view_agrees tx_view w btree_view s.
Proof.
  intros Heq. split; simpl; intros.
  - rewrite tx_get_bytes_spec, Heq. by eexists.
  - rewrite tx_has_spec, Heq. by eexists.
  - rewrite tx_gets_bytes_spec, btree_gets_bytes_spec, Heq. by eexists.
Qed.

Lemma btree_view_agree s s' : map s = map s' → view_agrees btree_view s btree_view s'.
Proof.
  intros Heq. split; simpl; intros.
  - unfold btree_get_bytes, op_gets. rewrite Heq. by eexists.
  - unfold btree_has, op_gets. rewrite Heq. by eexists.
  - rewrite !btree_gets_bytes_spec, Heq. by eexists.
Qed.
End reads.

(** ** Writes *)

Section writes.
Context `{Ch : Channel}.
Abbreviation world := (BTreeStore * BTreeTx)%type.

(** The verdict of the registered validators on a write. *)
Definition verdict (s : BTreeStore) (k : string) (v : bytes) : Result () :=
  (validate_key (validators (hooks s)) btree_view k v s).1.

Lemma validate_btree vs s k v :
  validate_key vs btree_view k v s = ((validate_key vs btree_view k v s).1, s).
Proof.
  by destruct (validate_key_agrees _ _ _ _ (btree_view_agree s s eq_refl) vs k v)
    as (r & -> & _).
Qed.

Lemma btree_set_bytes_eq s k v :
  btree_set_bytes k v s =
    match verdict s k v with
    | Ok _ => (Ok (map s !! k),
        btree_notify (Event k Kind_Set (map s !! k) (Some v) 0) (with_map <[k := v]> s))
    | Err e => (Err e, s)
    end.
Proof.
  unfold btree_set_bytes, verdict. unfold op_bind, op_gets, op_modify, op_ret.
  rewrite validate_btree. by destruct (validate_key _ _ _ _ _) as [[] ?].
Qed.

Lemma btree_delete_eq s k :
  btree_delete k s =
    match map s !! k with
    | Some old => (Ok true,
        btree_notify (Event k Kind_Delete (Some old) None 0) (with_map (base.delete k) s))
    | None => (Ok false, with_map (base.delete k) s)
    end.
Proof.
  unfold btree_delete, op_bind, op_gets, op_modify, op_ret.
  by destruct (map s !! k).
Qed.

Lemma map_btree_notify ev s : map (btree_notify ev s) = map s.
Proof. done. Qed.
Lemma validators_btree_notify ev s :
  validators (hooks (btree_notify ev s)) = validators (hooks s).
Proof. done. Qed.

(** What [set_bytes] and [delete] of the transaction do. *)
Definition tx_verdict (w : world) (k : string) (v : bytes) : Result () :=
  (validate_key (tx_validators w.2) tx_view k v w).1.

Lemma tx_set_bytes_eq w k v :
  tx_set_bytes k v w =
    match tx_verdict w k v with
    | Ok _ => (Ok (tx_map w !! k),
        tx_stage (Event k Kind_Set (tx_map w !! k) (Some v) 0) (tx_insert k (Some v) w))
    | Err e => (Err e, w)
    end.
Proof.
  unfold tx_set_bytes, tx_verdict, op_bind, op_modify, op_ret, op_gets at 1.
  pose (s := MkBTree _ (tx_map w) hooks_default [] : BTreeStore).
  destruct (validate_key_agrees _ _ _ _ (tx_btree_agree w s eq_refl)
    (tx_validators w.2) k v) as ([[]|e] & -> & _); [|done].
  cbv beta iota. by rewrite tx_get_bytes_spec.
Qed.

Lemma tx_delete_eq w k :
  tx_delete k w =
    match tx_map w !! k with
    | Some old => (Ok true,
        tx_stage (Event k Kind_Delete (Some old) None 0) (tx_insert k None w))
    | None => (Ok false, w)
    end.
Proof.
  unfold tx_delete, op_bind, op_modify, op_ret. rewrite tx_get_bytes_spec.
  by destruct (tx_map w !! k).
Qed.

Lemma tx_map_stage ev w : tx_map (tx_stage ev w) = tx_map w.
Proof. done. Qed.

Lemma tx_map_insert k v w :
  tx_map (tx_insert k v w) =
    match v with Some x => <[k := x]> (tx_map w) | None => base.delete k (tx_map w) end.
Proof. apply apply_overlay_insert. Qed.
End writes.

(** ** The abstract store *)

(** What a [GetSet] backend promises, as a machine on one map: the reply to a
    call, the new map and the change to publish.  [accept] is the verdict of
    the validators on a write to the given map. *)
Section abstract.
Context (accept : gmap string bytes → string → bytes → Result ()).

Definition spec_set (k : string) (v : bytes) (reply : option bytes → GsReply)
    (m : gmap string bytes) : Result GsReply * gmap string bytes * list ChangeEvent :=
  match accept m k v with
  | Ok _ => (Ok (reply (m !! k)), <[k := v]> m, [Event k Kind_Set (m !! k) (Some v) 0])
  | Err e => (Err e, m, [])
  end.

Definition spec_call (call : GsCall) (m : gmap string bytes) :
    Result GsReply * gmap string bytes * list ChangeEvent :=
  match call with
  | CGet k => (Ok (RBytes (m !! k)), m, [])
  | CHas k => (Ok (RBool (bool_decide (is_Some (m !! k)))), m, [])
  | CDelete k =>
      (Ok (RBool (bool_decide (is_Some (m !! k)))), base.delete k m,
       match m !! k with
       | Some old => [Event k Kind_Delete (Some old) None 0]
       | None => []
       end)
  | CSet k v => spec_set k v RBytes m
  | CPut k v => spec_set k v (λ _, RUnit) m
  | CGets limit dir c => (Ok (REntries (scan_spec limit dir c m)), m, [])
  end.

Fixpoint spec_calls (calls : list GsCall) (m : gmap string bytes) :
    list (Result GsReply) * gmap string bytes * list ChangeEvent :=
  match calls with
  | [] => ([], m, [])
  | call :: calls' =>
      let '(r, m1, ev1) := spec_call call m in
      let '(rs, m2, ev2) := spec_calls calls' m1 in (r :: rs, m2, ev1 ++ ev2)
  end.
End abstract.

(** Exposes the operation behind a call without unfolding it. *)
Ltac call_unfold :=
  cbn [run_call spec_call get_bytes has delete set_bytes put_bytes gets_bytes
       BTreeStore_GetSet BTreeTx_GetSet].

(** The verdict of a list of validators on a write to a map. *)
Definition accepts (vs : list Validator) (m : gmap string bytes) (k : string)
    (v : bytes) : Result () :=
  (validate_key vs (@btree_view bounded_channel) k v
     (MkBTree bounded_channel m hooks_default [])).1.

Section refinement.
Context `{Ch : Channel}.
Abbreviation world := (BTreeStore * BTreeTx)%type.

Lemma notify_all_app evs1 evs2 (subs : Subscribers) :
  notify_all (evs1 ++ evs2) subs = notify_all evs2 (notify_all evs1 subs).
Proof. revert subs. induction evs1; intros; simpl; auto. Qed.

Lemma store_agree `{Ch2 : Channel} (s : @BTreeStore Ch) (t : @BTreeStore Ch2) :
  map s = map t → view_agrees btree_view s btree_view t.
Proof.
  intros Heq. split; simpl; intros.
  - unfold btree_get_bytes, op_gets. rewrite Heq. by eexists.
  - unfold btree_has, op_gets. rewrite Heq. by eexists.
  - rewrite !btree_gets_bytes_spec, Heq. by eexists.
Qed.

Lemma tx_agree `{Ch2 : Channel} (w : @BTreeStore Ch * BTreeTx) (t : @BTreeStore Ch2) :
  tx_map w = map t → view_agrees tx_view w btree_view t.
Proof.
  intros Heq. split; simpl; intros.
  - rewrite tx_get_bytes_spec. unfold btree_get_bytes, op_gets.
    rewrite Heq. by eexists.
  - rewrite tx_has_spec. unfold btree_has, op_gets. rewrite Heq. by eexists.
  - rewrite tx_gets_bytes_spec, btree_gets_bytes_spec, Heq. by eexists.
Qed.

Lemma verdict_accepts s k v :
  verdict s k v = accepts (validators (hooks s)) (map s) k v.
Proof.
  unfold verdict, accepts.
  destruct (validate_key_agrees _ _ _ _ (store_agree (Ch2 := bounded_channel) s
    (MkBTree bounded_channel (map s) hooks_default []) eq_refl)
    (validators (hooks s)) k v) as (? & -> & ->). done.
Qed.

Lemma tx_verdict_accepts w k v :
  tx_verdict w k v = accepts (tx_validators w.2) (tx_map w) k v.
Proof.
  unfold tx_verdict, accepts.
  destruct (validate_key_agrees _ _ _ _ (tx_agree (Ch2 := bounded_channel) w
    (MkBTree bounded_channel (tx_map w) hooks_default []) eq_refl)
    (tx_validators w.2) k v) as (? & -> & ->). done.
Qed.

Lemma btree_call_spec call s :
  let '(r, s') := run_call call s in
  let '(r', m', evs) := spec_call (accepts (validators (hooks s))) call (map s) in
  r = r' ∧ map s' = m' ∧ validators (hooks s') = validators (hooks s) ∧
  subscribers (hooks s') = notify_all evs (subscribers (hooks s)).
Proof.
  destruct call as [k|k|k|k v|k v|l d c]; call_unfold;
    unfold put_bytes_default, op_bind, op_ret, spec_set.
  - done.
  - done.
  - rewrite btree_delete_eq. destruct (map s !! k); done.
  - rewrite btree_set_bytes_eq, verdict_accepts. by destruct (accepts _ _ _ _).
  - rewrite btree_set_bytes_eq, verdict_accepts. by destruct (accepts _ _ _ _).
  - by rewrite btree_gets_bytes_spec.
Qed.

(** C7: The store behaves, on every sequence of calls, errors included,
    as one map: replies, scans of both directions under every cursor and
    limit, rejected writes that change nothing, and exactly one published
    event per effective change, in order and with the replaced value. *)
Theorem btree_refines_map (calls : list GsCall) (s : BTreeStore) :
  let '(rs, s') := run_calls calls s in
  let '(rs', m', evs) := spec_calls (accepts (validators (hooks s))) calls (map s) in
  rs = rs' ∧ map s' = m' ∧
  subscribers (hooks s') = notify_all evs (subscribers (hooks s)).
Proof.
  revert s. induction calls as [|call calls IH]; intros s; [done|].
  cbn [run_calls spec_calls]. pose proof (btree_call_spec call s) as Hc.
  destruct (run_call call s) as [r s1].
  destruct (spec_call _ call (map s)) as [[r' m1] ev1].
  destruct Hc as (-> & <- & Hv & Hs). specialize (IH s1). rewrite Hv in IH.
  destruct (run_calls calls s1) as [rs s2].
  destruct (spec_calls _ calls (map s1)) as [[rs' m2] ev2].
  destruct IH as (-> & <- & ->). by rewrite notify_all_app, Hs.
Qed.

(** *** Transactions *)

Lemma base_delete_None (m : gmap string bytes) k :
  m !! k = None → base.delete k m = m.
Proof. apply delete_id. Qed.

Lemma tx_call_spec call (w : world) :
  let '(r, w') := run_call call w in
  let '(r', m', _) := spec_call (accepts (tx_validators w.2)) call (tx_map w) in
  r = r' ∧ tx_map w' = m' ∧ w'.1 = w.1 ∧ tx_validators w'.2 = tx_validators w.2.
Proof.
  destruct call as [k|k|k|k v|k v|l d c]; call_unfold;
    unfold put_bytes_default, op_bind, op_ret, spec_set.
  - by rewrite tx_get_bytes_spec.
  - by rewrite tx_has_spec.
  - rewrite tx_delete_eq. destruct (tx_map w !! k) eqn:Hk; simpl;
      rewrite ?tx_map_stage, ?tx_map_insert; [done|].
    by rewrite delete_id.
  - rewrite tx_set_bytes_eq, tx_verdict_accepts.
    destruct (accepts _ _ _ _); simpl; [|done].
    by rewrite tx_map_stage, tx_map_insert.
  - rewrite tx_set_bytes_eq, tx_verdict_accepts.
    destruct (accepts _ _ _ _); simpl; [|done].
    by rewrite tx_map_stage, tx_map_insert.
  - by rewrite tx_gets_bytes_spec.
Qed.

Lemma tx_calls_spec calls (w : world) :
  let '(rs, w') := run_calls calls w in
  let '(rs', m', _) := spec_calls (accepts (tx_validators w.2)) calls (tx_map w) in
  rs = rs' ∧ tx_map w' = m' ∧ w'.1 = w.1 ∧ tx_validators w'.2 = tx_validators w.2.
Proof.
  revert w. induction calls as [|call calls IH]; intros w; [done|].
  cbn [run_calls spec_calls]. pose proof (tx_call_spec call w) as Hc.
  destruct (run_call call w) as [r w1].
  destruct (spec_call _ call (tx_map w)) as [[r' m1] ev1].
  destruct Hc as (-> & <- & Hs & Hv). specialize (IH w1). rewrite Hv in IH.
  destruct (run_calls calls w1) as [rs w2].
  destruct (spec_calls _ calls (tx_map w1)) as [[rs' m2] ev2].
  destruct IH as (-> & <- & -> & ->). done.
Qed.
End refinement.

(** ** Staged events and commit *)

Section commit.
Context `{Ch : Channel}.
Abbreviation world := (BTreeStore * BTreeTx)%type.

Lemma stage_keys ev l :
  ev_key <$> stage ev l =
    if decide (ev_key ev ∈ ev_key <$> l) then ev_key <$> l
    else (ev_key <$> l) ++ [ev_key ev].
Proof.
  induction l as [|e l IH]; [done|]. csimpl.
  destruct (decide (ev_key e = ev_key ev)) as [Heq|Hne]; csimpl.
  - rewrite decide_True by (rewrite Heq; by left). by rewrite Heq.
  - rewrite IH. destruct (decide (ev_key ev ∈ ev_key <$> l)) as [Hin|Hin].
    + by rewrite decide_True by (by right).
    + rewrite decide_False by (rewrite elem_of_cons; naive_solver). done.
Qed.

(** What staging does to the events: the staged one takes over its key and
    keeps the old value of the event it replaces. *)
Lemma elem_of_stage ev l e :
  NoDup (ev_key <$> l) →
  e ∈ stage ev l ↔
    (ev_key e ≠ ev_key ev ∧ e ∈ l) ∨
    (∃ e0, e0 ∈ l ∧ ev_key e0 = ev_key ev ∧
       e = Event (ev_key ev) (ev_kind ev) (ev_old e0) (ev_new ev) (ev_seq ev)) ∨
    (ev_key ev ∉ ev_key <$> l ∧ e = ev).
Proof.
  induction l as [|a l IH]; simpl.
  { intros _. rewrite list_elem_of_singleton. set_solver. }
  rewrite NoDup_cons. intros [Ha Hnd]. specialize (IH Hnd).
  destruct (decide (ev_key a = ev_key ev)) as [Heq|Hne].
  - rewrite elem_of_cons. split.
    + intros [->|Hin]; [right; left; exists a; split_and!; [by left|done|done]|].
      left. split; [|by right]. intros Hk. apply Ha. rewrite Heq, <-Hk.
      by apply list_elem_of_fmap_2.
    + intros [[Hk [->|Hin]%elem_of_cons]|[(e0 & [->|Hin]%elem_of_cons & Hk & ->)|[Hn _]]];
        [done|by right|by left| |set_solver].
      destruct Ha. rewrite Heq, <-Hk. by apply list_elem_of_fmap_2.
  - rewrite elem_of_cons, IH. set_solver.
Qed.

(** The staged events are those of the overlay, one for a key. *)
Record staged_wf (t : BTreeTx) : Prop := {
  so_nodup : NoDup (ev_key <$> staged t);
  so_overlay k st : overlay t !! k = Some st ↔
    ∃ ev, ev ∈ staged t ∧ ev_key ev = k ∧ ev_new ev = st;
  so_kind ev : ev ∈ staged t →
    ev_kind ev = match ev_new ev with Some _ => Kind_Set | None => Kind_Delete end;
}.

(** While nobody else writes, they show the committed values as old. *)
Record staged_ok (base : gmap string bytes) (t : BTreeTx) : Prop := {
  so_wf : staged_wf t;
  so_old ev : ev ∈ staged t → ev_old ev = base !! ev_key ev;
}.

Lemma stage_insert_wf (w : world) k st old :
  staged_wf w.2 →
  staged_wf
    (tx_stage (Event k (match st with Some _ => Kind_Set | None => Kind_Delete end) old st 0)
       (tx_insert k st w)).2.
Proof.
  intros [Hnd Hov Hev]. simpl. split; simpl.
  - rewrite stage_keys. simpl. case_decide as Hin; [done|].
    apply NoDup_app. split_and!; [done|set_solver|apply NoDup_singleton].
  - intros k' st'. destruct (decide (k = k')) as [<-|Hne].
    + rewrite lookup_insert_eq. split.
      * intros [= ->]. destruct (decide (k ∈ ev_key <$> staged w.2))
          as [(e0 & -> & Hin)%list_elem_of_fmap|Hin].
        -- eexists. rewrite elem_of_stage by done.
           split; [right; left; exists e0; split_and!; [done|simpl; done|done]|done].
        -- eexists. rewrite elem_of_stage by done. split; [right; right|]; done.
      * intros (ev & Hin & Hk & <-). rewrite elem_of_stage in Hin by done.
        destruct Hin as [[? _]|[(e0 & _ & _ & ->)|[_ ->]]]; done.
    + rewrite lookup_insert_ne, Hov by done. split.
      * intros (ev & Hin & <- & <-). exists ev. rewrite elem_of_stage by done.
        split; [left; simpl; by split|done].
      * intros (ev & Hin & Hk & <-). exists ev. rewrite elem_of_stage in Hin by done.
        destruct Hin as [[_ Hin]|[(e0 & _ & _ & ->)|[_ ->]]]; simpl in *; done.
  - intros ev Hin. rewrite elem_of_stage in Hin by done.
    destruct Hin as [[_ Hin]|[(e0 & Hin & Hk & ->)|[Hn ->]]]; simpl in *; [by apply Hev|done..].
Qed.

(** An event that shows the value read and the value written keeps the
    staged events in step with the overlay. *)
Lemma stage_insert_ok (w : world) k st :
  staged_ok (map w.1) w.2 →
  staged_ok (map w.1)
    (tx_stage (Event k (match st with Some _ => Kind_Set | None => Kind_Delete end)
       (tx_map w !! k) st 0) (tx_insert k st w)).2.
Proof.
  intros [Hwf Hold]. split; [by apply stage_insert_wf|]. simpl.
  destruct Hwf as [Hnd Hov Hev]. intros ev Hin. rewrite elem_of_stage in Hin by done.
  destruct Hin as [[_ Hin]|[(e0 & Hin & Hk & ->)|[Hn ->]]]; simpl in *.
  - by apply Hold.
  - rewrite <-Hk. by apply Hold.
  - unfold tx_map. rewrite apply_overlay_lookup.
    unfold overlay_lookup. destruct (overlay w.2 !! k) as [st'|] eqn:Ho; [|done].
    apply Hov in Ho as (ev & Hin & <- & _). destruct Hn.
    by apply list_elem_of_fmap_2.
Qed.

Lemma staged_ok_call call (w : world) :
  staged_ok (map w.1) w.2 → staged_ok (map w.1) (run_call call w).2.2.
Proof.
  intros Hok. destruct call as [k|k|k|k v|k v|l d c]; call_unfold;
    unfold put_bytes_default, op_bind, op_ret.
  - by rewrite tx_get_bytes_spec.
  - by rewrite tx_has_spec.
  - rewrite tx_delete_eq. pose proof (stage_insert_ok w k None Hok) as Hs.
    by destruct (tx_map w !! k).
  - rewrite tx_set_bytes_eq. pose proof (stage_insert_ok w k (Some v) Hok).
    by destruct (tx_verdict _ _ _).
  - rewrite tx_set_bytes_eq. pose proof (stage_insert_ok w k (Some v) Hok).
    by destruct (tx_verdict _ _ _).
  - by rewrite tx_gets_bytes_spec.
Qed.

Lemma staged_ok_calls calls (w : world) :
  staged_ok (map w.1) w.2 → staged_ok (map w.1) (run_calls calls w).2.2.
Proof.
  revert w. induction calls as [|call calls IH]; intros w Hok; [done|].
  cbn [run_calls]. pose proof (staged_ok_call call w Hok) as Hok1.
  pose proof (tx_call_spec call w) as Hc. destruct (run_call call w) as [r w1].
  destruct (spec_call _ _ _) as [[r' m'] evs]. destruct Hc as (_ & _ & Hs & _).
  simpl in *. specialize (IH w1). rewrite Hs in IH. specialize (IH Hok1).
  by destruct (run_calls calls w1).
Qed.

Lemma staged_ok_begin (s : BTreeStore) : staged_ok (map s) (btree_begin_tx s).2.
Proof.
  split; [split|]; simpl; [constructor| |by intros ? ?%elem_of_nil..].
  intros k st. rewrite lookup_empty. split; [done|]. by intros (? & ?%elem_of_nil & _).
Qed.

(** The check that [commit] repeats for one staged event. *)
Definition recheck (w : world) (ev : ChangeEvent) : Result () :=
  match ev_new ev with
  | Some v => (validate_key (tx_validators w.2)
      (RevalidateView tx_view (ev_key ev) (ev_old ev)) (ev_key ev) v w).1
  | None => Ok ()
  end.

Lemma revalidate_spec evs (w : world) :
  Forall (λ ev, ev_kind ev =
    match ev_new ev with Some _ => Kind_Set | None => Kind_Delete end) evs →
  ∃ r, revalidate evs w = (r, w) ∧
    (r = Ok () ↔ Forall (λ ev, recheck w ev = Ok ()) evs).
Proof.
  pose (s := MkBTree _ (tx_map w) hooks_default [] : BTreeStore).
  induction 1 as [|ev evs Hkind _ (r & Hr & IH)]; simpl.
  { exists (Ok ()). unfold op_ret. by rewrite Forall_nil. }
  pose proof (Forall_cons (λ ev, recheck w ev = Ok ()) ev evs) as Hc.
  unfold recheck at 2 in Hc. rewrite Hkind.
  destruct (ev_new ev) as [v|]; unfold op_bind; [|exists r; rewrite Hc, <-IH; naive_solver].
  unfold op_gets.
  destruct (validate_key_agrees _ _ _ _ (revalidate_view_agrees _ _ _ _
    (tx_btree_agree w s eq_refl) (ev_key ev) (ev_old ev))
    (tx_validators w.2) (ev_key ev) v) as ([[]|e] & Heq & _);
    rewrite Heq in *; simpl in Hc.
  - exists r. rewrite Hc, <-IH. naive_solver.
  - exists (Err e). rewrite Hc. naive_solver.
Qed.

Lemma publish_spec evs (s : BTreeStore) :
  map (publish evs s) = map s ∧
  subscribers (hooks (publish evs s)) = notify_all evs (subscribers (hooks s)) ∧
  validators (hooks (publish evs s)) = validators (hooks s).
Proof.
  unfold publish. revert s. induction evs as [|ev evs IH]; intros s; [done|].
  cbn [foldl notify_all]. by destruct (IH (btree_notify ev s)) as (-> & -> & ->).
Qed.

Lemma tx_commit_eq (w : world) :
  staged_wf w.2 →
  match tx_commit w with
  | (Ok _, w') => Forall (λ ev, recheck w ev = Ok ()) (staged w.2) ∧
      map w'.1 = tx_map w ∧
      subscribers (hooks w'.1) = notify_all (staged w.2) (subscribers (hooks w.1)) ∧
      validators (hooks w'.1) = validators (hooks w.1)
  | (Err _, w') => ¬ Forall (λ ev, recheck w ev = Ok ()) (staged w.2) ∧ w' = w
  end.
Proof.
  intros [_ _ Hev]. unfold tx_commit, op_bind, op_gets at 1.
  destruct (revalidate_spec (staged w.2) w) as ([[]|e] & -> & Hiff).
  { apply Forall_forall. intros ev ?. by apply Hev. }
  - split; [by apply Hiff|].
    unfold op_gets, op_modify. cbn [fst snd take_overlay overlay].
    by destruct (publish_spec (staged w.2)
      (with_map (apply_overlay (overlay w.2)) w.1)) as (-> & -> & ->).
  - split; [|done]. intros H. by apply Hiff in H.
Qed.

(** C6: A transaction is isolated while it runs and atomic when it
    commits.  Its calls, errors included, get the replies the store itself
    would give, while the store stays as it was.  The commit succeeds
    exactly when every staged write passes the validators again, shown the
    committed value of its own key; it then installs the map the direct
    calls would have produced and publishes one event per changed key, with
    the committed value as old and the final one as new.  A refused commit
    leaves everything as it was. *)
Theorem tx_atomic (calls : list GsCall) (s : BTreeStore) :
  let '(rs, w) := run_calls calls (btree_begin_tx s) in
  let '(rs', m', _) := spec_calls (accepts (validators (hooks s))) calls (map s) in
  rs = rs' ∧ w.1 = s ∧
  NoDup (ev_key <$> staged w.2) ∧
  (∀ ev, ev ∈ staged w.2 → ev_old ev = map s !! ev_key ev ∧ ev_new ev = m' !! ev_key ev) ∧
  (∀ k, m' !! k ≠ map s !! k → k ∈ ev_key <$> staged w.2) ∧
  let passes := Forall (λ ev, recheck w ev = Ok ()) (staged w.2) in
  match tx_commit w with
  | (Ok _, w') => passes ∧ map w'.1 = m' ∧
      subscribers (hooks w'.1) = notify_all (staged w.2) (subscribers (hooks s))
  | (Err _, w') => ¬ passes ∧ w'.1 = s
  end.
Proof.
  pose proof (staged_ok_calls calls (btree_begin_tx s) (staged_ok_begin s)) as Hok.
  pose proof (tx_calls_spec calls (btree_begin_tx s)) as Hc. simpl in Hok, Hc.
  destruct (run_calls calls (btree_begin_tx s)) as [rs w]. simpl in Hok.
  unfold tx_map at 1 in Hc. simpl in Hc. rewrite apply_overlay_empty in Hc.
  destruct (spec_calls _ _ _) as [[rs' m'] evs]. destruct Hc as (-> & <- & Hs & _).
  rewrite <-Hs in Hok. pose proof (tx_commit_eq w (so_wf _ _ Hok)) as Hcommit.
  rewrite Hs in Hok, Hcommit.
  destruct Hok as [[Hnd Hov _] Hev]. do 3 (split; [done|]). split; [|split].
  - intros ev Hin. split; [by apply Hev|]. unfold tx_map.
    rewrite apply_overlay_lookup. unfold overlay_lookup.
    assert (overlay w.2 !! ev_key ev = Some (ev_new ev)) as -> by (apply Hov; eauto).
    done.
  - intros k. unfold tx_map. rewrite apply_overlay_lookup. unfold overlay_lookup.
    destruct (overlay w.2 !! k) as [st|] eqn:Ho; [|by rewrite Hs]. intros _.
    apply Hov in Ho as (ev & Hin & <- & _). by apply list_elem_of_fmap_2.
  - destruct (tx_commit w) as [[[]|e] w']; naive_solver.
Qed.

(** Without validators a commit cannot fail. *)
Lemma recheck_no_validators (w : world) ev :
  tx_validators w.2 = [] → recheck w ev = Ok ().
Proof. unfold recheck. intros ->. by destruct (ev_new ev). Qed.

(** The store without validators accepts every write. *)
#[export] Program Instance BTreeStore_StoreWrites : StoreWrites BTreeStore world := {|
  sw_row _ _ := True;
  sw_ready m s := map s = m ∧ validators (hooks s) = [];
  sw_tx_ready base m w := map w.1 = base ∧ tx_map w = m ∧
    validators (hooks w.1) = [] ∧ tx_validators w.2 = [] ∧ staged_ok (map w.1) w.2;
|}.
Next Obligation. by intros m s [? _]. Qed.
Next Obligation. by intros base m w (_ & ? & _). Qed.
Next Obligation.
  intros m s [<- Hs]. exists (btree_begin_tx s). simpl. split; [done|].
  split_and!; [done|apply apply_overlay_empty|done..|apply staged_ok_begin].
Qed.
Next Obligation.
  intros base m k v w _ (Hb & <- & Hh & Hv & Hok). cbn [set_bytes BTreeTx_GetSet].
  rewrite tx_set_bytes_eq. unfold tx_verdict. rewrite Hv. simpl.
  eexists. split; [done|]. rewrite tx_map_stage, tx_map_insert.
  split_and!; [done..|]. apply (stage_insert_ok w k (Some v) Hok).
Qed.
Next Obligation.
  intros base m w (_ & <- & Hh & Hv & Hok). cbn [commit BTreeStore_Store]. pose proof (tx_commit_eq w (so_wf _ _ Hok)) as Hc.
  destruct (tx_commit w) as [[[]|e] w'].
  - destruct Hc as (_ & Hm & _ & Hv'). by exists w'.
  - destruct Hc as [[] _]. apply Forall_forall. intros ev _. by apply recheck_no_validators.
Qed.
Next Obligation. by intros base m w (<- & _ & Hh & _). Qed.

#[export] Program Instance BTreeStore_StoreIsolated : StoreIsolated BTreeStore world.
Next Obligation. done. Qed.
Next Obligation. by intros s w [= <-]. Qed.
Next Obligation.
  intros k v w. cbn [set_bytes BTreeTx_GetSet]. rewrite tx_set_bytes_eq.
  by destruct (tx_verdict w k v).
Qed.
End commit.
