(* ===== verification/Codec.v ===== *)
(** Byte-level encodings of the Rust standard library that the crate's wire
    formats are built from: little-endian fixed-width integers
    ([to_le_bytes], [from_le_bytes]) and the validation behind
    [str::from_utf8] and [String::from_utf8]. *)

From stdpp Require Import options.
From S2P Require Import Prelude Core.

#[local] Open Scope N_scope.

(** ** Fixed-width little-endian integers *)

Definition byte_of (n : N) : byte := default x00 (Byte.of_N (n `mod` 256)).

(** [to_le_bytes] of a [k]-byte integer. *)
Fixpoint to_le_bytes (k : nat) (v : N) : bytes :=
  match k with
  | O => []
  | S k => byte_of (v `mod` 256) :: to_le_bytes k (v / 256)
  end.

(** [from_le_bytes]. *)
Fixpoint from_le_bytes (l : bytes) : N :=
  match l with
  | [] => 0
  | b :: l => Byte.to_N b + 256 * from_le_bytes l
  end.

Abbreviation u32_le := (to_le_bytes 4).
Abbreviation u64_le := (to_le_bytes 8).

Definition U32_MAX : N := 4294967295.

(** [u32::try_from(len)] on a [usize]. *)
Definition u32_try_from (n : N) : Result N :=
  if decide (n ≤ U32_MAX) then Ok n
  else Err (Other "out of range integral type conversion attempted").

Lemma to_N_byte_of n : Byte.to_N (byte_of n) = n `mod` 256.
Proof.
  unfold byte_of. destruct (Byte.of_N (n `mod` 256)) as [b|] eqn:Hb; simpl.
  - by apply Byte.to_of_N_iff.
  - apply Byte.of_N_None_iff in Hb. pose proof (N.mod_lt n 256). lia.
Qed.

Lemma byte_of_to_N b : byte_of (Byte.to_N b) = b.
Proof.
  unfold byte_of. pose proof (Byte.to_N_bounded b).
  rewrite N.mod_small by lia. by rewrite Byte.of_to_N.
Qed.

Lemma to_le_bytes_length k v : length (to_le_bytes k v) = k.
Proof. revert v. induction k as [|k IH]; intros v; simpl; [done|]. by rewrite IH. Qed.

(** Decoding what was encoded gives the value modulo the width. *)
Lemma from_to_le_bytes k v : from_le_bytes (to_le_bytes k v) = v `mod` 256 ^ N.of_nat k.
Proof.
  revert v. induction k as [|k IH]; intros v; simpl to_le_bytes.
  { simpl. by rewrite N.mod_1_r. }
  simpl from_le_bytes. rewrite to_N_byte_of, IH, Nat2N.inj_succ, N.pow_succ_r'.
  rewrite N.Div0.mod_mod. rewrite N.Div0.mod_mul_r. done.
Qed.

Lemma from_to_u32 v : v ≤ U32_MAX → from_le_bytes (u32_le v) = v.
Proof.
  unfold U32_MAX. intros Hv. rewrite from_to_le_bytes. apply N.mod_small.
  change (256 ^ N.of_nat 4) with 4294967296. lia.
Qed.

(** And encoding what was decoded gives the bytes back. *)
Lemma to_from_le_bytes l : to_le_bytes (length l) (from_le_bytes l) = l.
Proof.
  induction l as [|b l IH]; [done|]. simpl length. simpl to_le_bytes. simpl from_le_bytes.
  pose proof (Byte.to_N_bounded b).
  replace (Byte.to_N b + 256 * from_le_bytes l)
    with (from_le_bytes l * 256 + Byte.to_N b) by lia.
  rewrite N.div_add_l by lia. rewrite N.div_small, N.add_0_r by lia.
  rewrite IH. f_equal.
  rewrite N.add_comm, N.Div0.mod_add, N.mod_small by lia. apply byte_of_to_N.
Qed.

(** The length bytes of a slice that is at least that long. *)
Lemma u32_prefix_take n (p l : bytes) :
  p `prefix_of` u32_le n ++ l → (4 ≤ length p)%nat → take 4 p = u32_le n.
Proof.
  intros [q Hq] Hlen. apply (f_equal (take 4)) in Hq.
  rewrite take_app_length' in Hq by (by rewrite to_le_bytes_length).
  rewrite Hq. by rewrite take_app_le by lia.
Qed.

(** ** UTF-8 *)

(** [core::str::Utf8Error]: [valid_up_to] and [error_len]. *)
Record Utf8Error := MkUtf8Error { valid_up_to : N; error_len : option N }.

Definition in_range (lo hi b : N) : bool := (lo <=? b) && (b <=? hi).

(** Whether [second] may follow [first]: the table of the standard library. *)
Definition second_ok (first second : N) : bool :=
  if first <=? 0xDF then in_range 0x80 0xBF second
  else if first =? 0xE0 then in_range 0xA0 0xBF second
  else if first =? 0xED then in_range 0x80 0x9F second
  else if first <=? 0xEF then in_range 0x80 0xBF second
  else if first =? 0xF0 then in_range 0x90 0xBF second
  else if first =? 0xF4 then in_range 0x80 0x8F second
  else in_range 0x80 0xBF second.

(** [utf8_char_width]; [0] for a byte that starts no character. *)
Definition utf8_char_width (b : N) : N :=
  if b <? 0x80 then 1
  else if in_range 0xC2 0xDF b then 2
  else if in_range 0xE0 0xEF b then 3
  else if in_range 0xF0 0xF4 b then 4
  else 0.

(** The continuation bytes of one character: [need] more, [seen] so far. *)
Fixpoint utf8_tail (need : nat) (seen : N) (l : bytes) : option (option N) :=
  match need with
  | O => None
  | S need =>
      match l with
      | [] => Some None
      | b :: l =>
          if in_range 0x80 0xBF (Byte.to_N b) then utf8_tail need (seen + 1) l
          else Some (Some seen)
      end
  end.

(** The error of the character at the head of [l], if it has one. *)
Definition utf8_char_error (first : N) (rest : bytes) : option (option N) :=
  match utf8_char_width first with
  | 0 => Some (Some 1)
  | 1 => None
  | w =>
      match rest with
      | [] => Some None
      | b :: rest =>
          if second_ok first (Byte.to_N b)
          then utf8_tail (N.to_nat (w - 2)) 2 rest
          else Some (Some 1)
      end
  end.

(** [run_utf8_validation]; [skip] counts the continuation bytes of the
    character under way, which were checked at its first byte. *)
Fixpoint utf8_validate (skip : N) (index : N) (l : bytes) : option Utf8Error :=
  match l with
  | [] => None
  | b :: l' =>
      if skip =? 0 then
        match utf8_char_error (Byte.to_N b) l' with
        | Some err => Some (MkUtf8Error index err)
        | None => utf8_validate (utf8_char_width (Byte.to_N b) - 1) (index + 1) l'
        end
      else utf8_validate (skip - 1) (index + 1) l'
  end.

Definition utf8_error (l : bytes) : option Utf8Error := utf8_validate 0 0 l.

(** [Display for Utf8Error]. *)
Definition utf8_message (e : Utf8Error) : string :=
  match error_len e with
  | Some n => "invalid utf-8 sequence of " +:+ pretty n +:+ " bytes from index "
                +:+ pretty (valid_up_to e)
  | None => "incomplete utf-8 byte sequence from index " +:+ pretty (valid_up_to e)
  end.

(** [str::from_utf8(..)?] in a function that returns [StoreError]. *)
Definition from_utf8 (l : bytes) : Result string :=
  match utf8_error l with
  | None => Ok (of_bytes l)
  | Some e => Err (Utf8Slice (utf8_message e))
  end.

(** [String::from_utf8(..)?]; the owned error prints the same text. *)
Definition string_from_utf8 (l : bytes) : Result string :=
  match utf8_error l with
  | None => Ok (of_bytes l)
  | Some e => Err (Utf8 (utf8_message e))
  end.

(** What every Rust [String] satisfies. *)
Definition valid_str (s : string) : Prop := utf8_error (as_bytes s) = None.

#[export] Instance valid_str_dec s : Decision (valid_str s).
Proof. unfold valid_str. destruct (utf8_error _); [by right|by left]. Defined.

Lemma from_utf8_valid s : valid_str s → from_utf8 (as_bytes s) = Ok s.
Proof. unfold valid_str, from_utf8. intros ->. by rewrite of_as_bytes. Qed.

Lemma from_utf8_Ok l s : from_utf8 l = Ok s → valid_str s ∧ l = as_bytes s.
Proof.
  unfold from_utf8, valid_str. destruct (utf8_error l) eqn:He; [done|].
  intros [= <-]. by rewrite as_of_bytes.
Qed.

#[export] Hint Resolve from_utf8_valid : oxkv.

Example utf8_ascii : utf8_error (as_bytes "oxkv") = None.
Proof. reflexivity. Qed.
Example utf8_bad : utf8_error [x61; xe2; x82] = Some (MkUtf8Error 1 None).
Proof. reflexivity. Qed.
Example utf8_surrogate : utf8_error [xed; xa0; x80] = Some (MkUtf8Error 0 (Some 1)).
Proof. reflexivity. Qed.
