(* ===== verification/Snapshot.v ===== *)
(** Snapshots: the record format, the incremental decoder, [load_stream] and
    the paginated [SaveStream] of [src/src/store/mod.rs].

    A stream of chunks is the list of its items; a chunk's error is given
    after its conversion into [StoreError].  The in-flight batch read of a
    [SaveStream] is the cursor it was issued with; it runs when it is polled.
    The loops of [poll_next] and of [save] take fuel, which [save_enough_fuel]
    bounds. *)

From stdpp Require Import options.
From S2P Require Import Prelude OrdMap Core Codec.

(** ** Records *)

Definition SNAPSHOT_MAGIC : bytes := as_bytes "OXKV".
Definition SNAPSHOT_VERSION : N := 1.
Definition SNAPSHOT_HEADER_LEN : nat := length SNAPSHOT_MAGIC + 4.
Definition SAVE_CHUNK_TARGET : N := 16 * 1024.
Definition SAVE_BATCH_SIZE : N := 256.

Definition write_snapshot_header (buffer : bytes) : bytes :=
  buffer ++ SNAPSHOT_MAGIC ++ u32_le SNAPSHOT_VERSION.

Definition blen {A} (l : list A) : N := N.of_nat (length l).

Definition try_err (prefix : string) (e : StoreError) : StoreError :=
  Serialization (prefix +:+ to_string e).

Definition encode_record (buffer : bytes) (k : string) (v : bytes) : Result bytes :=
  let? key_len := map_err (try_err "key too long: ") (u32_try_from (blen (as_bytes k))) in
  let? val_len := map_err (try_err "value too long: ") (u32_try_from (blen v)) in
  Ok (buffer ++ u32_le key_len ++ as_bytes k ++ u32_le val_len ++ v).

(** ** [RecordDecoder] *)

Record RecordDecoder := MkDecoder {
  buf : bytes;
  pos : nat;
  header_validated : bool;
}.

Definition decoder_new : RecordDecoder := MkDecoder [] 0 false.

Definition decoder_push (chunk : bytes) (d : RecordDecoder) : RecordDecoder :=
  MkDecoder (buf d ++ chunk) (pos d) (header_validated d).

Definition decoder_is_empty (d : RecordDecoder) : bool :=
  bool_decide (length (buf d) ≤ pos d).

(** [&self.buf[self.pos..]]. *)
Definition avail (d : RecordDecoder) : bytes := drop (pos d) (buf d).

Definition advance (n : nat) (d : RecordDecoder) : RecordDecoder :=
  MkDecoder (buf d) (pos d + n) (header_validated d).

Definition validate_header : Op RecordDecoder bool := λ d,
  let av := avail d in
  if bool_decide (4 ≤ length av ∧ take 4 av ≠ SNAPSHOT_MAGIC) then
    (Err (Serialization "not an oxkv snapshot: missing OXKV magic"), d)
  else if bool_decide (length av < SNAPSHOT_HEADER_LEN) then (Ok false, d)
  else
    let version := from_le_bytes (take 4 (drop 4 av)) in
    if bool_decide (version ≠ SNAPSHOT_VERSION) then
      (Err (Serialization ("unsupported oxkv snapshot version " +:+ pretty version +:+
        " (this build reads version " +:+ pretty SNAPSHOT_VERSION +:+ ")")), d)
    else (Ok true, MkDecoder (buf d) (pos d + SNAPSHOT_HEADER_LEN) true).

Definition next_record : Op RecordDecoder (option (string * bytes)) := λ d,
  let av := avail d in
  if (blen av <? 4)%N then (Ok None, d)
  else
    let key_len := from_le_bytes (take 4 av) in
    if (blen av <? 4 + key_len)%N then (Ok None, d)
    else
      let value_start := 4 + N.to_nat key_len in
      if (blen av <? 4 + key_len + 4)%N then (Ok None, d)
      else
        let val_len := from_le_bytes (take 4 (drop value_start av)) in
        if (blen av <? 4 + key_len + 4 + val_len)%N then (Ok None, d)
        else
          match from_utf8 (take (N.to_nat key_len) (drop 4 av)) with
          | Err e => (Err e, d)
          | Ok k =>
              (Ok (Some (k, take (N.to_nat val_len) (drop (value_start + 4) av))),
               advance (value_start + 4 + N.to_nat val_len) d)
          end.

Definition compact (d : RecordDecoder) : RecordDecoder :=
  if bool_decide (0 < pos d ∧ length (buf d) ≤ pos d * 2)
  then MkDecoder (drop (pos d) (buf d)) 0 (header_validated d) else d.

(** ** [load_stream] *)

Section load.
Context {S Tx : Type} `{Store S Tx}.

(** The locals of [load_stream]: transaction, decoder and count. *)
Abbreviation loading := (Tx * RecordDecoder * N)%type.

Definition on_decoder {A} : Op RecordDecoder A → Op loading A :=
  op_zoom (λ l, l.1.2) (λ d l, (l.1.1, d, l.2)).
Definition on_tx {A} : Op Tx A → Op loading A :=
  op_zoom (λ l, l.1.1) (λ t l, (t, l.1.2, l.2)).

(** The [while let] over [next_record]; every record takes at least eight
    bytes of the buffer, so its length is enough fuel. *)
Fixpoint load_records (fuel : nat) : Op loading () :=
  match fuel with
  | O => op_ret ()
  | Datatypes.S fuel =>
      let! rec := on_decoder next_record in
      match rec with
      | None => op_ret ()
      | Some (k, v) =>
          let! _ := on_tx (set_bytes k v) in
          op_modify (λ l, (l.1.1, l.1.2, l.2 + 1)%N) ;;
          load_records fuel
      end
  end.

Definition load_chunk (chunk : bytes) : Op loading () :=
  on_decoder (op_modify (decoder_push chunk)) ;;
  let! validated := op_gets (λ l, header_validated l.1.2) in
  let! proceed := (if validated : bool then op_ret true else on_decoder validate_header) in
  if proceed : bool then
    let! fuel := op_gets (λ l, Datatypes.S (length (buf l.1.2))) in
    load_records fuel ;;
    on_decoder (op_modify compact)
  else op_ret ().

Fixpoint load_chunks (chunks : list (Result bytes)) : Op loading () :=
  match chunks with
  | [] => op_ret ()
  | item :: chunks =>
      let! chunk := op_lift item in
      load_chunk chunk ;; load_chunks chunks
  end.

Definition load_body (chunks : list (Result bytes)) : Op loading N :=
  load_chunks chunks ;;
  let! d := op_gets (λ l, l.1.2) in
  if negb (header_validated d) then
    op_throw (Serialization "Truncated snapshot header at end of input")
  else if negb (decoder_is_empty d) then
    op_throw (Serialization "Truncated record at end of input")
  else on_tx commit ;; op_gets snd.

Definition load_stream (chunks : list (Result bytes)) : Op S N := λ s,
  match begin_tx s with
  | Err e => (Err e, s)
  | Ok w =>
      let '(r, l) := load_body chunks (w, decoder_new, 0%N) in (r, tx_store l.1.1)
  end.

(** [StoreExt::load]. *)
Definition load (data : bytes) : Op S N := load_stream [Ok data].
End load.

(** ** [SaveStream] *)

Record SaveStream := MkSave {
  ss_cursor : option string;
  ss_buffer : bytes;
  ss_pending : option (option string);
  ss_exhausted : bool;
}.

Definition save_stream_new : SaveStream := MkSave None (write_snapshot_header []) None false.

(** The loop over one batch: the records that are not the carried-over
    cursor go to the buffer. *)
Fixpoint encode_batch (cursor : option string) (batch : list KeyValue)
    (buffer : bytes) (last_key : option string) (processed : N) :
    Result (option string * N) * bytes :=
  match batch with
  | [] => (Ok (last_key, processed), buffer)
  | kv :: batch =>
      if decide (cursor = Some (key kv))
      then encode_batch cursor batch buffer last_key processed
      else match encode_record buffer (key kv) (value kv) with
           | Ok buffer => encode_batch cursor batch buffer (Some (key kv)) (processed + 1)
           | Err e => (Err e, buffer)
           end
  end.

Definition drain_batch (batch : list KeyValue) (st : SaveStream) : Result () * SaveStream :=
  match batch with
  | [] => (Ok (), MkSave (ss_cursor st) (ss_buffer st) None true)
  | _ =>
      match encode_batch (ss_cursor st) batch (ss_buffer st) None 0 with
      | (Err e, buffer) => (Err e, MkSave (ss_cursor st) buffer None true)
      | (Ok (last_key, processed), buffer) =>
          (Ok (), MkSave last_key buffer None
             ((blen batch <? SAVE_BATCH_SIZE)%N || (processed =? 0)%N || ss_exhausted st))
      end
  end.

(** The item of a round of [poll_next], or [None] to go round again. *)
Definition poll_tail (st : SaveStream) : option (option (Result bytes)) * SaveStream :=
  if (SAVE_CHUNK_TARGET <=? blen (ss_buffer st))%N then
    (Some (Some (Ok (ss_buffer st))),
     MkSave (ss_cursor st) [] (ss_pending st) (ss_exhausted st))
  else if ss_exhausted st then
    match ss_buffer st with
    | [] => (Some None, st)
    | b => (Some (Some (Ok b)), MkSave (ss_cursor st) [] (ss_pending st) (ss_exhausted st))
    end
  else (None, MkSave (ss_cursor st) (ss_buffer st) (Some (ss_cursor st)) (ss_exhausted st)).

Section save.
Context {S : Type} `{GetSet S}.

Definition poll_round (w : S * SaveStream) :
    option (option (Result bytes)) * (S * SaveStream) :=
  let '(s, st) := w in
  match ss_pending st with
  | None => let '(r, st) := poll_tail st in (r, (s, st))
  | Some cursor =>
      match gets_bytes (Some SAVE_BATCH_SIZE) Next (cursor, None) s with
      | (Err e, s) =>
          (Some (Some (Err e)), (s, MkSave (ss_cursor st) (ss_buffer st) None true))
      | (Ok batch, s) =>
          match drain_batch batch st with
          | (Err e, st) => (Some (Some (Err e)), (s, st))
          | (Ok _, st) => let '(r, st) := poll_tail st in (r, (s, st))
          end
      end
  end.

Fixpoint poll_next (fuel : nat) (w : S * SaveStream) :
    option (option (Result bytes)) * (S * SaveStream) :=
  match fuel with
  | O => (None, w)
  | Datatypes.S fuel =>
      match poll_round w with
      | (Some item, w) => (Some item, w)
      | (None, w) => poll_next fuel w
      end
  end.

(** [save]: the chunks appended to [out]; [None] when the fuel runs out. *)
Fixpoint save_loop (fuel : nat) (out : bytes) (w : S * SaveStream) :
    option (Result bytes * S) :=
  match fuel with
  | O => None
  | Datatypes.S fuel' =>
      match poll_next fuel w with
      | (None, _) => None
      | (Some None, w) => Some (Ok out, w.1)
      | (Some (Some (Err e)), w) => Some (Err e, w.1)
      | (Some (Some (Ok chunk)), w) => save_loop fuel' (out ++ chunk) w
      end
  end.

Definition save (fuel : nat) (s : S) : option (Result bytes * S) :=
  save_loop fuel [] (s, save_stream_new).
End save.
