(* ===== verification/SnapshotSpec.v ===== *)
(** Snapshots against their format: the stream a save produces, what a load
    makes of any prefix of it in any chunking, and the round trip. *)

From stdpp Require Import options.
From S2P Require Import Prelude OrdMap Core Codec Snapshot Hooks BTree BTreeSpec.

(** ** The format *)

(** One record and a whole snapshot. *)
Definition enc (kv : string * bytes) : bytes :=
  u32_le (blen (as_bytes kv.1)) ++ as_bytes kv.1 ++ u32_le (blen kv.2) ++ kv.2.

Definition encs (l : list (string * bytes)) : bytes := mjoin (enc <$> l).

Definition header : bytes := write_snapshot_header [].

Definition snapshot (l : list (string * bytes)) : bytes := header ++ encs l.

(** What a record must satisfy to be written: a Rust string as its key and
    lengths that fit in 32 bits. *)
Definition record_ok (kv : string * bytes) : Prop :=
  valid_str kv.1 ∧ (blen (as_bytes kv.1) ≤ U32_MAX)%N ∧ (blen kv.2 ≤ U32_MAX)%N.

#[export] Instance record_ok_dec kv : Decision (record_ok kv).
Proof. unfold record_ok. apply _. Defined.

Lemma encs_cons kv l : encs (kv :: l) = enc kv ++ encs l.
Proof. done. Qed.
Lemma encs_app l1 l2 : encs (l1 ++ l2) = encs l1 ++ encs l2.
Proof. unfold encs. by rewrite fmap_app, join_app. Qed.

Lemma enc_length kv : length (enc kv) = 8 + length (as_bytes kv.1) + length kv.2.
Proof. unfold enc. rewrite !length_app, !to_le_bytes_length. lia. Qed.

Lemma encode_record_ok buffer kv :
  record_ok kv → encode_record buffer kv.1 kv.2 = Ok (buffer ++ enc kv).
Proof.
  intros (_ & Hk & Hv). unfold encode_record, u32_try_from.
  by rewrite !decide_True by done.
Qed.

(** ** Decoding one record *)

Lemma take_enc_key kv rest :
  take 4 (enc kv ++ rest) = u32_le (blen (as_bytes kv.1)).
Proof. unfold enc. by rewrite <-!app_assoc, take_app_length'. Qed.

Lemma next_record_full d kv rest :
  record_ok kv → avail d = enc kv ++ rest →
  next_record d = (Ok (Some kv), advance (length (enc kv)) d).
Proof.
  intros (Hs & Hk & Hv) Hav. unfold next_record. cbv zeta. rewrite Hav.
  rewrite take_enc_key, from_to_u32 by done.
  assert (blen (enc kv ++ rest) =
    8 + blen (as_bytes kv.1) + blen kv.2 + blen rest)%N as Hlen.
  { unfold blen. rewrite length_app, enc_length. lia. }
  rewrite Hlen.
  assert (drop (4 + N.to_nat (blen (as_bytes kv.1))) (enc kv ++ rest) =
    u32_le (blen kv.2) ++ kv.2 ++ rest) as Hd.
  { unfold enc, blen. rewrite Nat2N.id, <-!app_assoc, <-drop_drop.
    rewrite (drop_app_length' (u32_le _)) by done. by rewrite drop_app_length. }
  rewrite !(proj2 (N.ltb_ge _ _)) by lia.
  assert (drop (4 + N.to_nat (blen (as_bytes kv.1)) + 4) (enc kv ++ rest) =
    kv.2 ++ rest) as ->.
  { rewrite <-(drop_drop _ 4), Hd. by rewrite (drop_app_length' (u32_le _)). }
  rewrite Hd, take_app_length', from_to_u32 by done.
  rewrite (proj2 (N.ltb_ge _ _)) by lia.
  assert (take (N.to_nat (blen (as_bytes kv.1))) (drop 4 (enc kv ++ rest)) =
    as_bytes kv.1) as ->.
  { unfold enc, blen. rewrite Nat2N.id, <-!app_assoc.
    rewrite (drop_app_length' (u32_le _)) by done. by rewrite take_app_length. }
  rewrite from_utf8_valid by done.
  assert (take (N.to_nat (blen kv.2)) (kv.2 ++ rest) = kv.2) as ->.
  { unfold blen. by rewrite Nat2N.id, take_app_length. }
  rewrite enc_length. unfold blen. rewrite !Nat2N.id, <-surjective_pairing.
  f_equal. f_equal. lia.
Qed.

(** Fewer bytes than the record has decode to nothing yet. *)
Lemma next_record_short d kv :
  record_ok kv → avail d `prefix_of` enc kv → length (avail d) < length (enc kv) →
  next_record d = (Ok None, d).
Proof.
  intros (Hs & Hk & Hv) Hpre Hlen. unfold next_record. cbv zeta.
  rewrite enc_length in Hlen. set (av := avail d) in *. clearbody av. unfold enc in Hpre.
  destruct (blen av <? 4)%N eqn:H1; [done|]. apply N.ltb_ge in H1. unfold blen in H1.
  rewrite (u32_prefix_take _ _ _ Hpre) by lia. rewrite from_to_u32 by done.
  destruct (blen av <? 4 + _)%N eqn:H2; [done|]. apply N.ltb_ge in H2.
  destruct (blen av <? 4 + _ + 4)%N eqn:H3; [done|]. apply N.ltb_ge in H3.
  unfold blen in H2, H3.
  assert (drop (4 + length (as_bytes kv.1)) av `prefix_of` u32_le (blen kv.2) ++ kv.2)
    as Hpre2.
  { destruct Hpre as [q Hq]. exists q.
    apply (f_equal (drop (4 + length (as_bytes kv.1)))) in Hq.
    rewrite <-drop_app_le by lia. rewrite <-Hq, <-drop_drop.
    rewrite (drop_app_length' (u32_le _)) by done. by rewrite drop_app_length. }
  unfold blen at 1 3. rewrite Nat2N.id.
  rewrite (u32_prefix_take _ _ _ Hpre2) by (rewrite length_drop; lia).
  rewrite from_to_u32 by done.
  rewrite (proj2 (N.ltb_lt _ _)); [done|]. unfold blen. lia.
Qed.

Lemma next_record_empty d : avail d = [] → next_record d = (Ok None, d).
Proof. intros Hav. unfold next_record. by rewrite Hav. Qed.

#[local] Opaque enc header.

(** ** Loading *)

Definition insert_all (l : list (string * bytes)) (m : gmap string bytes) :
    gmap string bytes := foldl (λ m kv, <[kv.1 := kv.2]> m) m l.

Lemma insert_all_app l1 l2 m : insert_all (l1 ++ l2) m = insert_all l2 (insert_all l1 m).
Proof. apply foldl_app. Qed.

Lemma insert_all_notin l m k : k ∉ l.*1 → insert_all l m !! k = m !! k.
Proof.
  revert m. induction l as [|[k' v] l IH]; intros m Hk; [done|].
  rewrite fmap_cons, not_elem_of_cons in Hk. destruct Hk as [Hne Hk]. simpl in *.
  unfold insert_all in *. rewrite IH by done. by rewrite lookup_insert_ne.
Qed.

Lemma insert_all_in l m k v : NoDup l.*1 → (k, v) ∈ l → insert_all l m !! k = Some v.
Proof.
  revert m. induction l as [|[k' v'] l IH]; intros m Hnd Hin; [by apply elem_of_nil in Hin|].
  rewrite fmap_cons in Hnd. apply NoDup_cons in Hnd as [Hk' Hnd]. simpl.
  apply elem_of_cons in Hin as [?|Hin]; [simplify_eq|by apply IH].
  change (insert_all l (<[k' := v']> m) !! k' = Some v').
  rewrite insert_all_notin by done. by simplify_map_eq.
Qed.

(** Inserting the entries of a map is the union that prefers it. *)
Lemma insert_all_iter (m1 m2 : gmap string bytes) : insert_all (bt_iter m1) m2 = m1 ∪ m2.
Proof.
  apply map_eq. intros k. rewrite lookup_union.
  destruct (m1 !! k) as [v|] eqn:Hk; simpl.
  - rewrite (insert_all_in _ _ _ v); [by destruct (m2 !! k)|apply bt_iter_NoDup_keys|].
    by apply elem_of_bt_iter.
  - rewrite insert_all_notin; [by destruct (m2 !! k)|].
    intros ([k' v] & -> & Hin)%list_elem_of_fmap. apply elem_of_bt_iter in Hin.
    simpl in *. congruence.
Qed.

Lemma avail_advance n d : avail (advance n d) = drop n (avail d).
Proof. unfold avail. simpl. by rewrite drop_drop. Qed.

Lemma avail_compact d : avail (compact d) = avail d.
Proof. unfold compact. case_bool_decide; done. Qed.

Lemma avail_push c d :
  pos d ≤ length (buf d) → avail (decoder_push c d) = avail d ++ c.
Proof. intros Hp. unfold avail. simpl. by rewrite drop_app_le. Qed.

Lemma decoder_is_empty_spec d : decoder_is_empty d = true ↔ avail d = [].
Proof.
  unfold decoder_is_empty, avail. rewrite bool_decide_eq_true. split.
  - apply drop_ge.
  - intros Hd. apply (f_equal length) in Hd. rewrite length_drop in Hd. simpl in Hd. lia.
Qed.

Section load.
Context {S Tx : Type} `{StoreWrites S Tx}.
Abbreviation loading := (Tx * RecordDecoder * N)%type.

(** The bytes left over do not hold the next record. *)
Definition short (todo : list (string * bytes)) (av : bytes) : Prop :=
  av `prefix_of` encs todo ∧
  match todo with [] => True | r :: _ => length av < length (enc r) end.

Lemma short_next d todo :
  Forall record_ok todo → short todo (avail d) → next_record d = (Ok None, d).
Proof.
  intros Hok [Hpre Hlen]. destruct todo as [|r todo].
  - apply next_record_empty. destruct Hpre as [q Hq]. unfold encs in Hq. simpl in Hq.
    symmetry in Hq. by apply app_eq_nil in Hq as [-> _].
  - apply Forall_cons in Hok as [Hr _]. eapply next_record_short; [done| |done].
    rewrite encs_cons in Hpre.
    destruct (prefix_weak_total (avail d) (enc r) (enc r ++ encs todo)) as [?|Hx];
      [done|by apply prefix_app_r|done|].
    apply prefix_length in Hx. lia.
Qed.

(** The records that the format and the store can take. *)
Definition loadable (kv : string * bytes) : Prop := record_ok kv ∧ sw_row S Tx kv.1 kv.2.

Lemma loadable_ok recs : Forall loadable recs → Forall record_ok recs.
Proof. intros Hr. eapply Forall_impl; [exact Hr|]. by intros kv [? _]. Qed.

Lemma load_records_spec fuel base m w d n todo :
  sw_tx_ready base m w → Forall loadable todo → pos d ≤ length (buf d) →
  avail d `prefix_of` encs todo → length (avail d) < fuel →
  ∃ ds todo' w' d', todo = ds ++ todo' ∧
    load_records fuel (w, d, n) = (Ok (), (w', d', n + blen ds)%N) ∧
    header_validated d' = header_validated d ∧ pos d' ≤ length (buf d') ∧
    avail d = encs ds ++ avail d' ∧ short todo' (avail d') ∧
    sw_tx_ready base (insert_all ds m) w'.
Proof.
  revert m w d n todo. induction fuel as [|fuel IH]; intros m w d n todo Hw Hok Hp Hpre Hf;
    [lia|]. simpl. unfold on_decoder, op_zoom, op_bind. simpl.
  assert (short todo (avail d) ∨ ∃ r todo', todo = r :: todo' ∧
    ∃ rest, avail d = enc r ++ rest) as [Hsh|(r & todo' & -> & rest & Hav)].
  { destruct todo as [|r todo']; [by left|].
    destruct (decide (length (avail d) < length (enc r))); [by left|right].
    eexists _, _. split; [done|]. rewrite encs_cons in Hpre.
    destruct (prefix_weak_total (enc r) (avail d) (enc r ++ encs todo')) as [[q ?]|Hx];
      [by apply prefix_app_r|done|by exists q|].
    pose proof (prefix_length _ _ Hx). exists [].
    rewrite app_nil_r. apply prefix_length_eq; [done|lia]. }
  - rewrite (short_next _ todo) by (done || by apply loadable_ok). exists [], todo, w, d.
    unfold blen. simpl. rewrite N.add_0_r. split_and!; try done; apply Hsh.
  - apply Forall_cons in Hok as [[Hr Hrow] Hok].
    rewrite (next_record_full _ _ _ Hr Hav). destruct r as [k v].
    unfold on_tx, op_zoom. simpl.
    destruct (sw_set base m k v w Hrow Hw) as (w1 & -> & Hw1).
    unfold op_modify. simpl.
    set (d1 := advance (length (enc (k, v))) d).
    assert (avail d1 = rest) as Hav1.
    { unfold d1. by rewrite avail_advance, Hav, drop_app_length. }
    assert (length (avail d) = length (buf d) - pos d) as Hl by apply length_drop.
    destruct (IH (<[k := v]> m) w1 d1 (n + 1)%N todo') as
      (ds & todo'' & w' & d' & -> & Hrun & Hhv & Hp' & Hav' & Hsh & Hw');
      [done|done| | | |].
    { rewrite Hav, length_app in Hl. unfold d1. simpl. lia. }
    { rewrite Hav, encs_cons in Hpre. rewrite Hav1. by apply prefix_app_inv in Hpre. }
    { rewrite Hav, length_app, enc_length in Hf. rewrite Hav1. lia. }
    exists ((k, v) :: ds), todo'', w', d'. split_and!; try done.
    + rewrite Hrun. do 2 f_equal. unfold blen. simpl. lia.
    + rewrite Hav, encs_cons, <-app_assoc. f_equal. by rewrite <-Hav1.
Qed.

(** Where a load of a prefix [p] of the snapshot of [recs] stands. *)
Definition loaded (recs : list (string * bytes)) (m : gmap string bytes) (p : bytes)
    (l : loading) : Prop :=
  let '(w, d, n) := l in
  pos d ≤ length (buf d) ∧
  if header_validated d then
    ∃ ds todo, recs = ds ++ todo ∧ n = blen ds ∧ sw_tx_ready m (insert_all ds m) w ∧
      p = snapshot ds ++ avail d ∧ short todo (avail d)
  else avail d = p ∧ length p < 8 ∧ n = 0%N ∧ sw_tx_ready m m w.

Lemma loaded_ready recs m p l : loaded recs m p l → ∃ m', sw_tx_ready m m' l.1.1.
Proof.
  destruct l as [[w d] n]. intros [_ Hl]. destruct (header_validated d).
  - destruct Hl as (ds & _ & _ & _ & Hw & _). by eexists.
  - destruct Hl as (_ & _ & _ & Hw). by eexists.
Qed.

Lemma snapshot_app l1 l2 : snapshot (l1 ++ l2) = snapshot l1 ++ encs l2.
Proof. unfold snapshot. by rewrite encs_app, app_assoc. Qed.

Lemma prefix_header (p : bytes) q :
  p `prefix_of` header ++ q → 4 ≤ length p → take 4 p = SNAPSHOT_MAGIC.
Proof.
  intros [r Hr] Hl. apply (f_equal (take 4)) in Hr.
  rewrite (take_app_le p) in Hr by lia. by rewrite <-Hr.
Qed.

Lemma validate_header_spec d (q : bytes) :
  avail d `prefix_of` header ++ q →
  validate_header d =
    if decide (length (avail d) < 8) then (Ok false, d)
    else (Ok true, MkDecoder (buf d) (pos d + 8) true).
Proof.
  intros Hp. unfold validate_header.
  rewrite bool_decide_eq_false_2 by (intros [Hl Hne]; eauto using prefix_header).
  change SNAPSHOT_HEADER_LEN with 8. case_decide as Hlt.
  { by rewrite bool_decide_eq_true_2. }
  rewrite bool_decide_eq_false_2 by done.
  assert (∃ r, avail d = header ++ r) as [r ->]; [|done].
  destruct (prefix_weak_total header (avail d) (header ++ q)) as [[r Hr]|Hx];
    [by apply prefix_app_r|done|by exists r|].
  exists []. rewrite app_nil_r. apply prefix_length_eq; [done|].
  change (length header) with 8. lia.
Qed.

Lemma load_records_step recs m w d n c p :
  Forall loadable recs →
  header_validated d = true → pos d ≤ length (buf d) →
  (∃ ds todo, recs = ds ++ todo ∧ n = blen ds ∧ sw_tx_ready m (insert_all ds m) w ∧
    p ++ c = snapshot ds ++ avail d ∧ avail d `prefix_of` encs todo) →
  ∃ l', (load_records (Datatypes.S (length (buf d))) ;;
         on_decoder (op_modify compact)) (w, d, n) = (Ok (), l') ∧
    loaded recs m (p ++ c) l'.
Proof.
  intros Hok Hhv Hpos (ds & todo & -> & -> & Hw & Hp & Hpre).
  apply Forall_app in Hok as [_ Hok].
  destruct (load_records_spec (Datatypes.S (length (buf d))) m (insert_all ds m) w d (blen ds) todo) as
    (ds' & todo' & w' & d' & -> & Hrun & Hhv' & Hpos' & Hav & Hsh & Hw');
    [done|done|done|done|unfold avail; rewrite length_drop; lia|].
  unfold op_bind. rewrite Hrun. eexists. split; [done|]. simpl.
  split; [unfold compact; case_bool_decide; simpl; lia|].
  assert (header_validated (compact d') = true) as ->.
  { unfold compact. case_bool_decide; simpl; congruence. }
  exists (ds ++ ds'), todo'. rewrite avail_compact. split_and!.
  - by rewrite app_assoc.
  - unfold blen. rewrite length_app. lia.
  - by rewrite insert_all_app.
  - rewrite snapshot_app, <-app_assoc, <-Hav. done.
  - apply Hsh.
Qed.

Lemma load_chunk_spec recs m p c l :
  Forall loadable recs → loaded recs m p l → (p ++ c) `prefix_of` snapshot recs →
  ∃ l', load_chunk c l = (Ok (), l') ∧ loaded recs m (p ++ c) l'.
Proof.
  intros Hok Hl Hpre. destruct l as [[w d] n]. destruct Hl as (Hpos & Hl).
  unfold load_chunk. erewrite op_bind_ok by done. simpl.
  assert (avail (decoder_push c d) = avail d ++ c) as Hpush by by apply avail_push.
  assert (pos (decoder_push c d) ≤ length (buf (decoder_push c d))) as Hpos'.
  { simpl. rewrite length_app. lia. }
  unfold op_bind at 1, op_gets at 1. simpl. destruct (header_validated d) eqn:Hhv.
  - destruct Hl as (ds & todo & -> & -> & Hv & -> & Hsh).
    unfold op_bind at 1. simpl. unfold op_bind at 1, op_gets at 1. simpl.
    apply load_records_step; [done|done|done|].
    exists ds, todo. rewrite Hpush. split_and!; [done..|by rewrite app_assoc|].
    rewrite snapshot_app, <-app_assoc in Hpre. by apply prefix_app_inv in Hpre.
  - destruct Hl as (Hav & Hlt & -> & Hv).
    assert (validate_header (decoder_push c d) =
      if decide (length (p ++ c) < 8) then (Ok false, decoder_push c d)
      else (Ok true, MkDecoder (buf (decoder_push c d)) (pos d + 8) true)) as Hvh.
    { rewrite (validate_header_spec _ (encs recs)); by rewrite Hpush, Hav. }
    unfold op_bind at 1, on_decoder at 1, op_zoom at 1. simpl. rewrite Hvh.
    case_decide as Hc; simpl.
    + eexists. split; [done|]. simpl. rewrite Hhv, Hpush, Hav. done.
    + unfold op_bind at 1, op_gets at 1. cbv beta iota.
      apply load_records_step; [done|done| |].
      * simpl. rewrite length_app. rewrite length_app in Hc.
        assert (length (avail d) = length (buf d) - pos d) by apply length_drop.
        rewrite Hav in *. lia.
      * exists [], recs. split_and!; [done..| |].
        -- change (p ++ c = header ++ drop (pos d + 8) (buf (decoder_push c d))).
           rewrite <-drop_drop. change (drop (pos d) _) with (avail (decoder_push c d)).
           rewrite Hpush, Hav. destruct Hpre as [q Hq].
           apply (f_equal (take 8)) in Hq. rewrite (take_app_le (p ++ c)) in Hq by lia.
           change (take 8 (snapshot recs)) with header in Hq.
           by rewrite Hq, take_drop.
        -- change (drop (pos d + 8) (buf (decoder_push c d)) `prefix_of` encs recs).
           rewrite <-drop_drop. change (drop (pos d) _) with (avail (decoder_push c d)).
           rewrite Hpush, Hav. destruct Hpre as [q Hq]. exists q.
           apply (f_equal (drop 8)) in Hq. rewrite drop_app_le in Hq by lia. done.
Qed.

Lemma load_chunks_spec recs m cs p l :
  Forall loadable recs → loaded recs m p l → (p ++ mjoin cs) `prefix_of` snapshot recs →
  ∃ l', load_chunks (Ok <$> cs) l = (Ok (), l') ∧ loaded recs m (p ++ mjoin cs) l'.
Proof.
  intros Hok. revert p l. induction cs as [|c cs IH]; intros p l Hl Hpre; simpl.
  { rewrite app_nil_r. by eexists. }
  change (mjoin (c :: cs)) with (c ++ mjoin cs) in *. rewrite app_assoc in Hpre.
  destruct (load_chunk_spec recs m p c l) as (l1 & Hc & Hl1); [done..| |].
  { etrans; [|done]. by apply prefix_app_r. }
  unfold op_bind at 1, op_lift. unfold op_bind at 1. rewrite Hc.
  destruct (IH (p ++ c) l1 Hl1 Hpre) as (l2 & Hr & Hl2).
  exists l2. split; [exact Hr|]. by rewrite app_assoc.
Qed.

(** *** Failures *)

(** A step that only touches the transaction by [set_bytes]. *)
Definition keeps `{!StoreIsolated S Tx} (base : gmap string bytes) (s0 : S) (l : loading) : Prop :=
  (∃ m, sw_tx_ready base m l.1.1) ∧ tx_store l.1.1 = s0.

Section isolated.
Context `{!StoreIsolated S Tx} (base : gmap string bytes).
#[local] Abbreviation keeps := (keeps base).

Lemma load_keeps_bind {A B} (m : Op loading A) (f : A → Op loading B) s0 l :
  keeps s0 (m l).2 → (∀ a l', keeps s0 l' → keeps s0 (f a l').2) →
  keeps s0 (op_bind m f l).2.
Proof using Type*. unfold op_bind. intros Hm Hf. destruct (m l) as [[a|e] l']; auto. Qed.

Lemma keeps_decoder {A} (m : Op RecordDecoder A) s0 l :
  keeps s0 l → keeps s0 (on_decoder m l).2.
Proof using Type*. unfold on_decoder, op_zoom. destruct (m l.1.2). done. Qed.

Lemma keeps_set k v s0 l : keeps s0 l → keeps s0 (on_tx (set_bytes k v) l).2.
Proof using Type*.
  intros [[m Hr] Hs]. unfold on_tx, op_zoom.
  pose proof (si_set k v l.1.1) as Hst.
  destruct (sw_set base m k v _ (si_row k v) Hr) as (w' & Heq & Hr'). rewrite Heq in *. simpl in *.
  split; [by eexists|simpl; congruence].
Qed.

Lemma keeps_records fuel s0 l : keeps s0 l → keeps s0 (load_records fuel l).2.
Proof using Type*.
  revert l. induction fuel as [|fuel IH]; intros l Hk; [done|].
  cbn [load_records]. apply load_keeps_bind; [by apply keeps_decoder|].
  intros [[k v]|] l1 Hk1; [|done].
  apply load_keeps_bind; [by apply keeps_set|]. intros _ l2 Hk2.
  apply load_keeps_bind; [done|]. intros _ l3 Hk3. by apply IH.
Qed.

Lemma keeps_chunks items s0 l : keeps s0 l → keeps s0 (load_chunks items l).2.
Proof using Type*.
  revert l. induction items as [|item items IH]; intros l Hk; [done|].
  cbn [load_chunks]. apply load_keeps_bind; [done|]. intros chunk l1 Hk1.
  apply load_keeps_bind; [|by auto]. unfold load_chunk.
  apply load_keeps_bind; [by apply keeps_decoder|]. intros _ l2 Hk2.
  apply load_keeps_bind; [done|]. intros b l3 Hk3. apply load_keeps_bind.
  { destruct b; [done|by apply keeps_decoder]. }
  intros [] l4 Hk4; [|done].
  apply load_keeps_bind; [done|]. intros fuel l5 Hk5.
  apply load_keeps_bind; [by apply keeps_records|]. intros _ l6 Hk6. by apply keeps_decoder.
Qed.

Lemma keeps_failure (items : list (Result bytes)) (s s' : S) e :
  sw_ready base s → load_stream (Tx := Tx) items s = (Err e, s') → s' = s.
Proof using Type*.
  intros Hs. destruct (sw_begin base s Hs) as (w & Hb & Hw). unfold load_stream.
  rewrite Hb. assert (keeps s (w, decoder_new, 0%N)) as Hk.
  { split; [by eexists|]. by apply si_begin. }
  apply (keeps_chunks items) in Hk. unfold load_body, op_bind.
  destruct (load_chunks items _) as [[[]|e'] l] eqn:Hl; simpl in Hk;
    [|by intros [= _ <-]; apply Hk].
  unfold op_gets at 1. destruct (negb _); [by intros [= _ <-]; apply Hk|].
  destruct (negb _); [by intros [= _ <-]; apply Hk|].
  unfold on_tx, op_zoom. destruct Hk as [[m Hk] _]. destruct (sw_commit base m l.1.1 Hk) as (w' & -> & _).
  by intros [=].
Qed.
(** A load that fails, on whatever input and at whatever point, leaves the
    store exactly as it was. *)
Theorem load_failure_untouched (items : list (Result bytes)) (s s' : S) e :
  sw_ready base s → load_stream (Tx := Tx) items s = (Err e, s') → s' = s.
Proof using Type*. apply keeps_failure. Qed.
End isolated.

Lemma load_stream_chunks items (s : S) base m w l :
  begin_tx s = Ok w →
  load_chunks items (w, decoder_new, 0%N) = (Ok (), l) → sw_tx_ready base m l.1.1 →
  load_stream (Tx := Tx) items s =
    if header_validated l.1.2 then
      if decoder_is_empty l.1.2 then (Ok l.2, tx_store (commit l.1.1).2)
      else (Err (Serialization "Truncated record at end of input"), tx_store l.1.1)
    else (Err (Serialization "Truncated snapshot header at end of input"), tx_store l.1.1).
Proof.
  intros Hb Hl Hr. unfold load_stream, load_body, op_bind. rewrite Hb, Hl.
  unfold op_gets at 1. destruct (header_validated _), (decoder_is_empty _); try done.
  simpl. unfold on_tx, op_zoom. by destruct (sw_commit base m _ Hr) as (w' & -> & _).
Qed.

Lemma short_snapshot ds todo (av : bytes) ds' :
  ds' `prefix_of` ds ++ todo → short todo av →
  snapshot ds ++ av = snapshot ds' → av = [].
Proof.
  intros Hpre [Hav Hlt] Heq.
  destruct (prefix_weak_total ds' ds (ds ++ todo)) as [[x ->]|[x ->]];
    [done|by apply prefix_app_r| |].
  - apply (f_equal length) in Heq. rewrite snapshot_app, !length_app in Heq.
    destruct av; simpl in *; [done|lia].
  - rewrite snapshot_app in Heq. apply app_inv_head in Heq as ->.
    destruct x as [|r x]; [done|]. apply prefix_app_inv in Hpre as [y ->].
    simpl in Hlt. rewrite encs_cons, length_app in Hlt. lia.
Qed.

(** Whatever the chunk boundaries, loading a prefix of a valid snapshot
    succeeds exactly when it ends after a whole record, and then adds exactly
    those records to the store and returns their number; a load cut
    mid-header or mid-record fails and leaves the store with its map. *)
Lemma load_prefix_holds (recs : list (string * bytes)) (cs : list bytes) (m : gmap string bytes) (s : S) :
  sw_ready m s → Forall loadable recs → mjoin cs `prefix_of` snapshot recs →
  match load_stream (Tx := Tx) (Ok <$> cs) s with
  | (Ok n, s') => ∃ ds, ds `prefix_of` recs ∧ mjoin cs = snapshot ds ∧
      n = blen ds ∧ gs_holds (insert_all ds m) s'
  | (Err _, s') => sw_ready m s' ∧ ∀ ds, ds `prefix_of` recs → mjoin cs ≠ snapshot ds
  end.
Proof.
  intros Hs Hok Hpre. destruct (sw_begin m s Hs) as (w & Hb & Hw).
  destruct (load_chunks_spec recs m cs [] (w, decoder_new, 0%N)) as (l & Hl & Hld); [done| |done|].
  { simpl. split_and!; try done; lia. }
  destruct (loaded_ready _ _ _ _ Hld) as [m' Hr]. pose proof (sw_drop _ _ _ Hr) as Hdrop.
  rewrite (load_stream_chunks _ _ _ _ _ _ Hb Hl Hr). simpl in Hld.
  destruct l as [[w' d] n]. simpl in *. destruct Hld as (_ & Hld).
  destruct (header_validated d).
  - destruct Hld as (ds & todo & -> & -> & Hw' & -> & Hsh).
    destruct (decoder_is_empty d) eqn:He.
    + apply decoder_is_empty_spec in He. rewrite He, app_nil_r.
      exists ds. split; [by apply prefix_app_r|]. split_and!; [done..|].
      by destruct (sw_commit _ _ _ Hw') as (w2 & -> & Hg).
    + split; [done|]. intros ds' Hds' Heq.
      assert (avail d = []) as Hemp by eauto using short_snapshot.
      apply decoder_is_empty_spec in Hemp. congruence.
  - destruct Hld as (_ & Hlt & _). split; [done|]. intros ds _ Heq. rewrite Heq in Hlt.
    unfold snapshot in Hlt. rewrite length_app in Hlt.
    change (length header) with 8 in Hlt. lia.
Qed.

(** In an isolated store a failed load leaves the very store. *)
Theorem load_prefix `{!StoreIsolated S Tx} (recs : list (string * bytes)) (cs : list bytes)
    (m : gmap string bytes) (s : S) :
  sw_ready m s → Forall record_ok recs → mjoin cs `prefix_of` snapshot recs →
  match load_stream (Tx := Tx) (Ok <$> cs) s with
  | (Ok n, s') => ∃ ds, ds `prefix_of` recs ∧ mjoin cs = snapshot ds ∧
      n = blen ds ∧ gs_holds (insert_all ds m) s'
  | (Err _, s') => s' = s ∧ ∀ ds, ds `prefix_of` recs → mjoin cs ≠ snapshot ds
  end.
Proof.
  intros Hs Hok Hpre. assert (Forall loadable recs) as Hrows.
  { eapply Forall_impl; [exact Hok|]. intros kv Hkv. split; [done|apply si_row]. }
  pose proof (load_prefix_holds recs cs m s Hs Hrows Hpre) as Hl.
  pose proof (λ s' e, keeps_failure m (Ok <$> cs) s s' e Hs) as Hf.
  destruct (load_stream _ s) as [[n|e] s'] eqn:He; [done|].
  split; [by apply (Hf s' e)|apply Hl].
Qed.

Lemma load_whole recs cs m (s : S) :
  sw_ready m s → Forall loadable recs → mjoin cs = snapshot recs →
  ∃ s', load_stream (Tx := Tx) (Ok <$> cs) s = (Ok (blen recs), s') ∧ gs_holds (insert_all recs m) s'.
Proof.
  intros Hs Hok Hcs. destruct (sw_begin m s Hs) as (w & Hb & Hw).
  destruct (load_chunks_spec recs m cs [] (w, decoder_new, 0%N)) as
    (l & Hl & Hld); [done| |by rewrite app_nil_l, Hcs|].
  { simpl. split_and!; try done; lia. }
  destruct (loaded_ready _ _ _ _ Hld) as [m' Hr].
  rewrite (load_stream_chunks _ _ _ _ _ _ Hb Hl Hr). rewrite app_nil_l, Hcs in Hld.
  destruct l as [[w' d] n]. simpl in *. destruct Hld as (_ & Hld).
  destruct (header_validated d).
  - destruct Hld as (ds & todo & -> & -> & Hw' & Heq & Hsh).
    assert (avail d = []) as Hemp.
    { eapply short_snapshot; [|exact Hsh|by symmetry]. done. }
    rewrite Hemp, app_nil_r in Heq. apply (decoder_is_empty_spec d) in Hemp as ->.
    rewrite <-(app_nil_r (snapshot ds)), snapshot_app in Heq.
    apply app_inv_head in Heq. assert (todo = []) as ->.
    { destruct todo as [|r todo]; [done|]. apply (f_equal length) in Heq.
      rewrite encs_cons, length_app, enc_length in Heq. simpl in Heq. lia. }
    rewrite app_nil_r. eexists. split; [done|].
    by destruct (sw_commit _ _ _ Hw') as (w2 & -> & Hg).
  - destruct Hld as (_ & Hlt & _). unfold snapshot in Hlt. rewrite length_app in Hlt.
    change (length header) with 8 in Hlt. lia.
Qed.
End load.

(** ** Saving *)

(** The entries from a key of the map on are a suffix of the traversal. *)
Lemma bt_range_from {V} (m : gmap string V) i k v :
  bt_iter m !! i = Some (k, v) → bt_range (Some k) None m = drop i (bt_iter m).
Proof.
  intros Hi. rewrite (drop_S _ _ _ Hi). apply (bt_range_suffix None None m (take i (bt_iter m))).
  by rewrite bt_range_full, take_drop_middle.
Qed.

Lemma encode_batch_fresh cur l buffer lk n :
  Forall record_ok l → (∀ kv, kv ∈ l → cur ≠ Some kv.1) →
  encode_batch cur (to_kv <$> l) buffer lk n =
    (Ok (match last l with Some kv => Some kv.1 | None => lk end, n + blen l)%N,
     buffer ++ encs l).
Proof.
  revert buffer lk n. induction l as [|kv l IH]; intros buffer lk n Hok Hne; simpl.
  { unfold blen. simpl. by rewrite N.add_0_r, app_nil_r. }
  apply Forall_cons in Hok as [Hkv Hok].
  rewrite decide_False by (apply Hne; by left).
  rewrite encode_record_ok by done. rewrite IH by (try done; intros; apply Hne; by right).
  rewrite encs_cons, app_assoc. f_equal. f_equal. f_equal.
  - rewrite last_cons. by destruct (last l).
  - unfold blen. simpl. lia.
Qed.

Section save.
Context {S : Type} `{GetSetReads S} (m : gmap string bytes).
Abbreviation L := (bt_iter m).

(** The cursor after the first [i] entries. *)
Definition cursor_at (i : nat) (cur : option string) : Prop :=
  match i with
  | O => cur = None
  | Datatypes.S j => ∃ k v, L !! j = Some (k, v) ∧ cur = Some k
  end.

(** The page read at a cursor: it repeats the entry of the cursor. *)
Definition fresh (i : nat) : list (string * bytes) :=
  take (match i with O => 256 | Datatypes.S _ => 255 end) (drop i L).

Lemma page_spec i cur s :
  gs_holds m s → cursor_at i cur →
  ∃ s', gets_bytes (Some SAVE_BATCH_SIZE) Next (cur, None) s =
    (Ok (to_kv <$> take 256 (drop (pred i) L)), s') ∧ gs_holds m s'.
Proof.
  intros Hwf Hc.
  destruct (gs_gets m (Some SAVE_BATCH_SIZE) Next (cur, None) s Hwf) as (s' & -> & Hw).
  exists s'. split; [|done]. unfold scan_spec. simpl.
  change (Pos.to_nat 256) with 256. destruct i as [|j]; simpl in *.
  - rewrite Hc, bt_range_full. done.
  - destruct Hc as (k & v & Hj & ->). by rewrite (bt_range_from _ _ _ _ Hj).
Qed.

Lemma fresh_length i :
  i = 0 ∧ length (fresh i) = 256 `min` (length L - i) ∨
  i ≠ 0 ∧ length (fresh i) = 255 `min` (length L - i).
Proof. unfold fresh. rewrite length_take, length_drop. destruct i; auto. Qed.

Lemma later_key j kv kv' :
  L !! j = Some kv → kv' ∈ drop (Datatypes.S j) L → kv'.1 ≠ kv.1.
Proof.
  intros Hj Hin Heq. pose proof (bt_iter_NoDup_keys m) as Hnd.
  rewrite <-(take_drop_middle _ _ _ Hj), fmap_app in Hnd. apply NoDup_app in Hnd
    as (_ & _ & Hnd). rewrite fmap_cons in Hnd. apply NoDup_cons in Hnd as [Hnd _].
  apply Hnd. rewrite <-Heq. by apply list_elem_of_fmap_2.
Qed.

(** A page contributes its fresh entries. *)
Lemma encode_page i cur buffer :
  Forall record_ok L → cursor_at i cur →
  encode_batch cur (to_kv <$> take 256 (drop (pred i) L)) buffer None 0 =
    (Ok (fst <$> last (fresh i), blen (fresh i)), buffer ++ encs (fresh i)).
Proof.
  intros Hok Hc. assert (Forall record_ok (fresh i)).
  { unfold fresh. by apply Forall_take, Forall_drop. }
  assert (∀ cur, (∀ kv, kv ∈ fresh i → cur ≠ Some kv.1) →
    encode_batch cur (to_kv <$> fresh i) buffer None 0 =
    (Ok (fst <$> last (fresh i), blen (fresh i)), buffer ++ encs (fresh i))) as Hf.
  { intros cur' Hne. rewrite encode_batch_fresh by done. by destruct (last (fresh i)). }
  destruct i as [|j]; simpl in Hc.
  - apply Hf. intros. by rewrite Hc.
  - destruct Hc as (k & v & Hj & ->). rewrite Nat.pred_succ, (drop_S _ _ _ Hj).
    simpl. rewrite decide_True by done. apply Hf.
    intros kv Hin [= Heq]. apply (later_key _ _ kv Hj); [|done].
    rewrite <-(take_drop 255 (drop _ L)). apply elem_of_app. by left.
Qed.

Lemma fresh_last i kv :
  last (fresh i) = Some kv → cursor_at (i + length (fresh i)) (Some kv.1).
Proof.
  destruct kv as [k v]. intros Hl. rewrite last_lookup in Hl.
  pose proof (lookup_lt_Some _ _ _ Hl).
  unfold fresh in Hl. rewrite lookup_take_lt, lookup_drop in Hl
    by (unfold fresh in *; rewrite length_take in *; lia).
  fold (fresh i) in Hl. destruct (length (fresh i)) as [|n] eqn:Hn; [lia|].
  rewrite Nat.add_succ_r. simpl. exists k, v. split; [|done]. by rewrite <-Hl.
Qed.

(** One round after a page has arrived. *)
Lemma drain_spec i st :
  Forall record_ok L → i ≤ length L → cursor_at i (ss_cursor st) →
  ss_exhausted st = false →
  ∃ cur ex, drain_batch (to_kv <$> take 256 (drop (pred i) L)) st =
      (Ok (), MkSave cur (ss_buffer st ++ encs (fresh i)) None ex) ∧
    (if ex then i + length (fresh i) = length L
     else cursor_at (i + length (fresh i)) cur ∧ 0 < length (fresh i)).
Proof.
  intros Hok Hi Hc Hex. pose proof (fresh_length i) as Hfl.
  assert (blen (to_kv <$> take 256 (drop (pred i) L)) =
    N.of_nat (256 `min` (length L - pred i))) as Hblen.
  { unfold blen. by rewrite length_fmap, length_take, length_drop. }
  unfold drain_batch. rewrite encode_page, Hblen, Hex by done.
  destruct (to_kv <$> take 256 (drop (pred i) L)) as [|kv0 page] eqn:Hpage.
  - assert (length L - pred i = 0) as Hz.
    { apply (f_equal length) in Hpage. rewrite length_fmap, length_take, length_drop in Hpage.
      change (length []) with 0 in Hpage. lia. }
    assert (length L = 0 ∧ i = 0) as [Hl ->].
    { destruct i as [|j]; [lia|]. destruct Hc as (k & v & Hj & _).
      apply lookup_lt_Some in Hj. rewrite Nat.pred_succ in Hz. lia. }
    apply nil_length_inv in Hl. unfold fresh. rewrite Hl. simpl.
    exists (ss_cursor st), true. rewrite app_nil_r. done.
  - eexists _, _. split; [done|].
    destruct (_ || _ || false) eqn:Hcond; rewrite orb_false_r in Hcond.
    + apply orb_true_iff in Hcond as [Hlt|Hz].
      * apply N.ltb_lt in Hlt. change SAVE_BATCH_SIZE with 256%N in Hlt.
        lia.
      * apply N.eqb_eq in Hz. unfold blen in Hz. lia.
    + apply orb_false_iff in Hcond as [_ Hz]. apply N.eqb_neq in Hz.
      unfold blen in Hz. split; [|lia].
      destruct (last (fresh i)) as [kv|] eqn:Hl; [by apply fresh_last|].
      apply last_None in Hl. rewrite Hl in Hz. done.
Qed.

(** Where a save stands after [i] entries, [out] yielded. *)
Definition saving (i : nat) (out : bytes) (w : S * SaveStream) : Prop :=
  gs_holds m w.1 ∧ i ≤ length L ∧
  out ++ ss_buffer w.2 = snapshot (take i L) ∧
  if ss_exhausted w.2 then ss_pending w.2 = None ∧ i = length L
  else cursor_at i (ss_cursor w.2) ∧
    (ss_pending w.2 = None ∨ ss_pending w.2 = Some (ss_cursor w.2)).

(** Bounds the rounds until the next item. *)
Definition rounds (i : nat) (st : SaveStream) : nat :=
  2 * (length L - i) + match ss_pending st with Some _ => 0 | None => 1 end.

(** What a round may give, [bound] limiting the rounds after it. *)
Definition round_ok (bound : nat) (out : bytes)
    (r : option (option (Result bytes)) * (S * SaveStream)) : Prop :=
  match r with
  | (None, w) => ∃ i, saving i out w ∧ rounds i w.2 < bound
  | (Some None, w) => out = snapshot L ∧ gs_holds m w.1
  | (Some (Some (Ok c)), w) => (∃ i, saving i (out ++ c) w) ∧ c ≠ [] ∧ ss_buffer w.2 = []
  | (Some (Some (Err _)), _) => False
  end.

Lemma poll_tail_spec i out s st :
  saving i out (s, st) → ss_pending st = None →
  round_ok (2 * (length L - i) + 1) out (let '(r, st') := poll_tail st in (r, (s, st'))).
Proof.
  intros (Hwf & Hi & Hout & Hst) Hp. unfold poll_tail. simpl in *.
  destruct (SAVE_CHUNK_TARGET <=? blen (ss_buffer st))%N eqn:Hfull.
  - simpl. split; [|split; [intros Hb; by rewrite Hb in Hfull|done]].
    exists i. unfold saving. simpl. by rewrite app_nil_r.
  - destruct (ss_exhausted st) eqn:Hex.
    + destruct Hst as [_ ->]. rewrite take_ge in Hout by lia.
      destruct (ss_buffer st) as [|b l] eqn:Hb; simpl.
      * by rewrite <-Hout, app_nil_r.
      * split; [|by split]. exists (length L). unfold saving. simpl.
        rewrite app_nil_r, take_ge by lia. done.
    + exists i. unfold saving, rounds. simpl.
      split_and!; try done; [apply Hst|by right|lia].
Qed.

Lemma poll_round_spec i out w :
  Forall record_ok L → saving i out w → round_ok (rounds i w.2) out (poll_round w).
Proof.
  intros Hok Hsav. destruct w as [s st]. pose proof Hsav as (Hwf & Hi & Hout & Hst).
  unfold poll_round, rounds. simpl in *. destruct (ss_pending st) as [cur|] eqn:Hp.
  - destruct (ss_exhausted st) eqn:Hex; [by destruct Hst|].
    destruct Hst as [Hc [?|[= ->]]]; [done|].
    destruct (page_spec i _ s Hwf Hc) as (s' & -> & Hwf').
    destruct (drain_spec i st Hok Hi Hc Hex) as (cur & ex & -> & Hd).
    assert (i + length (fresh i) ≤ length L) as Hle by (pose proof (fresh_length i); lia).
    assert (take (i + length (fresh i)) L = take i L ++ fresh i) as Htake.
    { rewrite <-(take_take_drop L i). f_equal. unfold fresh.
      rewrite length_take. destruct i; rewrite ?take_ge by (rewrite ?length_drop; lia).
      - destruct (decide (256 ≤ length (drop 0 L))).
        + by rewrite Nat.min_l by lia.
        + rewrite Nat.min_r, !take_ge by lia. done.
      - destruct (decide (255 ≤ length (drop (Datatypes.S i) L))).
        + by rewrite Nat.min_l by lia.
        + rewrite Nat.min_r, !take_ge by lia. done. }
    pose proof (poll_tail_spec (i + length (fresh i)) out s'
      (MkSave cur (ss_buffer st ++ encs (fresh i)) None ex)) as Ht.
    assert (0 < length (fresh i) ∨ ex = true) as Hprog by (destruct ex; [by right|naive_solver]).
    destruct (poll_tail (MkSave cur (ss_buffer st ++ encs (fresh i)) None ex))
      as [r st'] eqn:Htail.
    assert (round_ok (2 * (length L - (i + length (fresh i))) + 1) out (r, (s', st'))) as Hr.
    { apply Ht; [|done]. unfold saving. simpl.
      rewrite app_assoc, Hout, Htake, snapshot_app. split_and!; try done.
      destruct ex; [done|]. destruct Hd. auto. }
    destruct r as [[[c|e]|]|]; [exact Hr|done|exact Hr|].
    simpl in Hr |- *. destruct Hr as (j & Hj & Hb). exists j. split; [done|].
    destruct ex; [|destruct Hd; lia]. exfalso.
    unfold poll_tail in Htail. simpl in Htail. destruct (_ <=? _)%N; [done|].
    by destruct (ss_buffer st ++ encs (fresh i)).
  - by apply poll_tail_spec.
Qed.

Lemma poll_next_spec fuel i out w :
  Forall record_ok L → saving i out w → rounds i w.2 < fuel →
  ∃ item w', poll_next fuel w = (Some item, w') ∧ round_ok 0 out (Some item, w').
Proof.
  intros Hok. revert i w. induction fuel as [|fuel IH]; intros i w Hs Hf; [lia|].
  simpl. pose proof (poll_round_spec i out w Hok Hs) as Hr.
  destruct (poll_round w) as [[item|] w']; [by exists item, w'|].
  destruct Hr as (j & Hj & Hlt). apply (IH j); [done|lia].
Qed.

Lemma saving_length i out w : saving i out w → length out ≤ length (snapshot L).
Proof.
  intros (_ & _ & Hout & _). rewrite <-(take_drop i L), snapshot_app.
  rewrite <-Hout, !length_app. lia.
Qed.

Lemma save_loop_spec fuel i out w :
  Forall record_ok L → saving i out w →
  2 * length L + 1 + (length (snapshot L) - length out) < fuel →
  ∃ s', save_loop fuel out w = Some (Ok (snapshot L), s') ∧ gs_holds m s'.
Proof.
  intros Hok. revert i out w. induction fuel as [|fuel IH]; intros i out w Hs Hf; [lia|].
  cbn [save_loop].
  destruct (poll_next_spec (Datatypes.S fuel) i out w) as (item & w' & -> & Hr);
    [done|done|unfold rounds; destruct (ss_pending _); lia|].
  destruct item as [[c|e]|]; simpl in Hr; [|done|].
  - destruct Hr as ([j Hj] & Hc & _). apply (IH j); [done|].
    pose proof (saving_length _ _ _ Hj) as Hl. rewrite length_app in *.
    destruct c; [done|]. simpl in *. lia.
  - destruct Hr as (-> & Hw). by exists w'.1.
Qed.

Lemma save_enough_fuel fuel s :
  gs_holds m s → Forall record_ok L →
  2 * length L + 1 + length (snapshot L) < fuel →
  ∃ s', save fuel s = Some (Ok (snapshot L), s') ∧ gs_holds m s'.
Proof.
  intros Hw Hok Hf. apply (save_loop_spec fuel 0 []); [done| |simpl; lia].
  unfold saving. simpl. split_and!; try done; [lia|by left].
Qed.
End save.

(** ** The round trip *)

(** C30: A backup restores: saving any store that answers its reads from a map of
    writable records, and loading the bytes, cut into chunks anywhere, into any
    store that accepts writes gives a store that holds the saved entries over
    its own, and reports their number.  The save terminates within the given
    number of rounds and leaves the saved store's map as it was. *)
Theorem save_load_roundtrip {S S2 Tx2 : Type} `{GetSetReads S} `{StoreWrites S2 Tx2}
    (fuel : nat) (m m2 : gmap string bytes) (s : S) (t : S2) :
  gs_holds m s → Forall (loadable (S := S2) (Tx := Tx2)) (bt_iter m) →
  2 * length (bt_iter m) + 1 + length (snapshot (bt_iter m)) < fuel → sw_ready m2 t →
  ∃ data s', save fuel s = Some (Ok data, s') ∧ gs_holds m s' ∧
    ∀ cs, mjoin cs = data → ∃ t',
      load_stream (Tx := Tx2) (Ok <$> cs) t = (Ok (N.of_nat (size m)), t') ∧ gs_holds (m ∪ m2) t'.
Proof.
  intros Hwf Hok Hf Ht.
  destruct (save_enough_fuel m fuel s) as (s' & Hs & Hh); [done|by eapply loadable_ok|done|].
  exists (snapshot (bt_iter m)), s'. split_and!; [done..|]. intros cs Hcs.
  destruct (load_whole (bt_iter m) cs m2 t Ht Hok Hcs) as (t' & Hl & Hv').
  exists t'. rewrite insert_all_iter in Hv'. split; [|done]. rewrite Hl. f_equal. f_equal.
  unfold blen. by rewrite (Permutation_length (bt_iter_perm _)), length_map_to_list.
Qed.

(** ** Witnesses *)

Definition sample_store : @BTreeStore bounded_channel :=
  MkBTree bounded_channel {[ "a" := as_bytes "1"; "b" := as_bytes "22" ]} hooks_default [].

Definition empty_store : @BTreeStore bounded_channel := @btree_default bounded_channel.

(** Seven bytes: not even a whole header. *)
Lemma load_failure_untouched_witness :
  (load_stream (Tx := @BTreeStore bounded_channel * BTreeTx)
     [Ok (as_bytes "OXK"); Ok (as_bytes "Vxxx")] sample_store).2 = sample_store.
Proof.
  apply (load_failure_untouched (Tx := @BTreeStore bounded_channel * BTreeTx) (map sample_store)
    [Ok (as_bytes "OXK"); Ok (as_bytes "Vxxx")] sample_store _
    (Serialization "Truncated snapshot header at end of input"));
    [by split|vm_compute; reflexivity].
Defined.

(** Two records, the second one cut: the load is refused. *)
Lemma load_prefix_witness :
  match load_stream (Tx := @BTreeStore bounded_channel * BTreeTx)
    (Ok <$> [take 5 (snapshot [("a", as_bytes "1"); ("b", as_bytes "22")]);
             take 16 (drop 5 (snapshot [("a", as_bytes "1"); ("b", as_bytes "22")]))])
    sample_store with
  | (Ok _, _) => False
  | (Err _, s') => s' = sample_store
  end.
Proof.
  pose proof (load_prefix (Tx := @BTreeStore bounded_channel * BTreeTx)
    [("a", as_bytes "1"); ("b", as_bytes "22")]
    [take 5 (snapshot [("a", as_bytes "1"); ("b", as_bytes "22")]);
     take 16 (drop 5 (snapshot [("a", as_bytes "1"); ("b", as_bytes "22")]))]
    (map sample_store) sample_store (conj eq_refl eq_refl)) as Hl.
  destruct (load_stream _ _) as [[n|e] s'] eqn:Heq.
  - vm_compute in Heq. discriminate.
  - apply Hl; [by repeat constructor; vm_compute|].
    exists (drop 21 (snapshot [("a", as_bytes "1"); ("b", as_bytes "22")])). reflexivity.
Defined.

Lemma save_load_roundtrip_witness :
  ∃ data s', save 100 sample_store = Some (Ok data, s') ∧ map s' = map sample_store ∧
    ∀ cs, mjoin cs = data → ∃ t',
      load_stream (Tx := @BTreeStore bounded_channel * BTreeTx) (Ok <$> cs) empty_store =
        (Ok (N.of_nat (size (map sample_store))), t') ∧
      map t' = map sample_store ∪ map empty_store.
Proof.
  pose proof (save_load_roundtrip (S := @BTreeStore bounded_channel)
    (S2 := @BTreeStore bounded_channel) (Tx2 := @BTreeStore bounded_channel * BTreeTx)
    100 (map sample_store) (map empty_store) sample_store empty_store) as Hrt.
  apply Hrt.
  - reflexivity.
  - assert (Forall record_ok (bt_iter (map sample_store))) as Hok
      by (apply (bool_decide_unpack _); vm_compute; exact I).
    eapply Forall_impl; [exact Hok|]. intros kv Hkv. by split.
  - apply (bool_decide_unpack _). vm_compute. exact I.
  - by split.
Defined.
