(* ===== verification/Storage.v ===== *)
(** The storage abstraction: [src/src/store/storage.rs].

    [StorageBackend W] is the trait [Storage], its methods running on the world [W] that holds
    the objects.  [StorageLaws] states the trait's documented contract against
    a map from paths to objects; clients are proved against it.  [MemStorage]
    is the in-memory backend of the crate and an instance of both. *)

From stdpp Require Import options.
From S2P Require Import Prelude OrdMap Core Hooks.

(** ** Paths *)

Abbreviation ObjectPath := string (only parsing).

Definition path_is_empty (p : ObjectPath) : bool := bool_decide (p = "").

Definition child (p : ObjectPath) (segment : string) : ObjectPath :=
  if path_is_empty p then segment else p +:+ "/" +:+ segment.

(** ** Requests and replies *)

Record ObjectVersion := MkVersion {
  ov_e_tag : option string;
  ov_version : option string;
}.

Inductive PutMode :=
| Create
| Update (expected : ObjectVersion).

Record GetOptions := MkGetOptions { if_none_match : option string }.

Record PutOutcome := MkPutOutcome {
  po_e_tag : option string;
  po_version : option string;
}.

Record GetOutput := MkGetOutput {
  go_bytes : bytes;
  go_e_tag : option string;
  go_version : option string;
}.

Class StorageBackend (W : Type) := {
  st_get : ObjectPath → Op W GetOutput;
  st_get_opts : ObjectPath → GetOptions → Op W GetOutput;
  st_put_opts : ObjectPath → bytes → PutMode → Op W PutOutcome;
  st_delete : ObjectPath → Op W ();
  st_list : ObjectPath → Op W (list ObjectPath);
}.

(** [under_prefix]. *)
Definition under_prefix (k prefix : string) : bool :=
  if bool_decide (prefix = "") then true
  else match strip_prefix prefix k with
       | None => false
       | Some rest => bool_decide (rest = "") || str_starts_with rest "/"
       end.

(** The error text by which backends report, and callers recognise, a
    missing object. *)
Definition is_not_found_msg (e : StoreError) : bool :=
  str_contains (Core.to_string e) "not found".

(** ** The contract *)

(** A backend in a well-formed state behaves like one map from paths to
    contents with an entity tag: reads return the current object or the
    not-found error and change nothing; a conditional write that fails its
    precondition is a [CasConflict] and changes nothing, and one that succeeds
    installs the payload under a non-empty tag it returns; an update with the
    version that was just read succeeds.  A backend may accept some paths only
    ([st_path]): one that keeps objects in directories has no place for an
    object and another below it.  And a backend may be one whose objects have to
    be fit to be found after every write ([st_safe]), because the process can
    stop there; most ask for nothing ([Unguarded]). *)
Class StorageLaws (W : Type) `{StorageBackend W} := {
  st_objects : W → gmap string (bytes * string);
  st_wf : W → Prop;
  st_path : ObjectPath → Prop;
  st_safe : gmap string (bytes * string) → Prop;
  st_known p w : st_wf w → is_Some (st_objects w !! p) → st_path p;
  st_get_law p w : st_wf w → st_path p →
    ∃ r w', st_get p w = (r, w') ∧ st_objects w' = st_objects w ∧ st_wf w' ∧
      match st_objects w !! p with
      | Some (b, tag) => ∃ v, r = Ok (MkGetOutput b (Some tag) v)
      | None => ∃ msg, r = Err (Storage msg) ∧ is_not_found_msg (Storage msg) = true
      end;
  st_get_opts_law p opts w : st_wf w → st_path p →
    ∃ r w', st_get_opts p opts w = (r, w') ∧ st_objects w' = st_objects w ∧ st_wf w' ∧
      match st_objects w !! p with
      | Some (b, tag) =>
          if decide (if_none_match opts = Some tag) then r = Err NotModified
          else ∃ v, r = Ok (MkGetOutput b (Some tag) v)
      | None => ∃ msg, r = Err (Storage msg) ∧
          is_not_found_msg (Storage msg) = true
      end;
  st_put_law p b mode w : st_wf w → st_path p →
    (∀ tag, tag ≠ "" → (mode = Create → st_objects w !! p = None) → st_safe (<[p := (b, tag)]> (st_objects w))) →
    ∃ r w', st_put_opts p b mode w = (r, w') ∧ st_wf w' ∧
      match r with
      | Ok out => ∃ tag, po_e_tag out = Some tag ∧
          st_objects w' = <[p := (b, tag)]> (st_objects w) ∧
          match mode with
          | Create => st_objects w !! p = None
          | Update v => ∃ b0 tag0, st_objects w !! p = Some (b0, tag0) ∧
              ov_e_tag v = Some tag0
          end
      | Err e => (∃ msg, e = CasConflict msg) ∧ st_objects w' = st_objects w ∧
          match mode with
          | Create => is_Some (st_objects w !! p)
          | Update v => ∀ b0 tag0, st_objects w !! p = Some (b0, tag0) →
              ov_e_tag v = Some tag0 → is_Some (ov_version v)
          end
      end;
  st_put_tag_law p b mode w out w' : st_wf w → st_path p → st_put_opts p b mode w = (Ok out, w') →
    po_e_tag out ≠ Some "";
  st_update_law p b w w1 out : st_wf w → st_path p → st_get p w = (Ok out, w1) →
    ∃ r w', st_put_opts p b (Update (MkVersion (go_e_tag out) (go_version out))) w1 = (Ok r, w');
  st_delete_law p w : st_wf w → st_path p → st_safe (base.delete p (st_objects w)) →
    ∃ w', st_delete p w = (Ok (), w') ∧ st_wf w' ∧
      st_objects w' = base.delete p (st_objects w);
  st_list_law prefix w : st_wf w → (∃ s, st_path (child prefix s)) →
    ∃ l w', st_list prefix w = (Ok l, w') ∧ st_wf w' ∧ st_objects w' = st_objects w ∧
      (∀ p, p ∈ l → is_Some (st_objects w !! p) ∧ under_prefix p prefix = true) ∧
      ∀ p, is_Some (st_objects w !! p) → under_prefix p prefix = true → p ≠ prefix → p ∈ l;
}.
Arguments st_objects {W _ _} _.
Arguments st_wf {W _ _} _.
Arguments st_path W {_ _} _.
Arguments st_safe W {_ _} _.

(** A backend whose writes may leave any objects. *)
Class Unguarded (W : Type) `{StorageLaws W} : Prop := unguarded objs : st_safe W objs.

(** What a client asks of a backend: that it accepts the client's paths. *)
Class Accepts (W : Type) `{StorageLaws W} (p : ObjectPath) : Prop := accepted : st_path W p.
Arguments accepted {W _ _} p {_}.

(** ** [MemStorage] *)

Record MemObject := MkMemObject {
  mo_bytes : bytes;
  mo_etag : string;
  mo_version : N;
}.

Record MemInner := MkMemInner {
  objects : gmap string MemObject;
  mem_seq : N;
}.

Definition mem_new : MemInner := MkMemInner ∅ 0.

(** [format!("{:016x}")]: [n] lower-case hexadecimal digits. *)
Definition hex_digit (n : N) : Ascii.ascii :=
  Ascii.ascii_of_N (if (n <? 10)%N then 48 + n else 87 + n)%N.

Fixpoint hex_pad (width : nat) (n : N) : string :=
  match width with
  | O => ""
  | S width => hex_pad width (n / 16) +:+ String (hex_digit (n mod 16)) ""
  end.

(** [next_version]: the counter is a [u64]. *)
Definition next_version (inner : MemInner) : string * N * MemInner :=
  let n := ((mem_seq inner + 1) mod U64)%N in
  (hex_pad 16 n, n, MkMemInner (objects inner) n).

Definition mem_get (path : ObjectPath) : Op MemInner GetOutput := λ inner,
  (match objects inner !! path with
   | None => Err (Storage ("not found: " +:+ path))
   | Some obj => Ok (MkGetOutput (mo_bytes obj) (Some (mo_etag obj))
                       (Some (pretty (mo_version obj))))
   end, inner).

Definition mem_get_opts (path : ObjectPath) (options : GetOptions) : Op MemInner GetOutput :=
  let! out := mem_get path in
  if bool_decide (if_none_match options = go_e_tag out ∧ is_Some (go_e_tag out))
  then op_throw NotModified else op_ret out.

(** The precondition of a put, with the message of its violation. *)
Definition mem_precondition (path : ObjectPath) (mode : PutMode) (inner : MemInner) :
    Result () :=
  match mode with
  | Create =>
      if decide (is_Some (objects inner !! path))
      then Err (CasConflict (path +:+ ": already exists")) else Ok ()
  | Update expected =>
      match objects inner !! path with
      | None => Err (CasConflict (path +:+ ": missing for update"))
      | Some current =>
          if decide (ov_e_tag expected = Some (mo_etag current)) then
            match ov_version expected with
            | Some version =>
                if decide (version = pretty (mo_version current)) then Ok ()
                else Err (CasConflict (path +:+ ": version mismatch"))
            | None => Ok ()
            end
          else Err (CasConflict (path +:+ ": etag mismatch"))
      end
  end.

Definition mem_put_opts (path : ObjectPath) (payload : bytes) (mode : PutMode) :
    Op MemInner PutOutcome := λ inner,
  match mem_precondition path mode inner with
  | Err e => (Err e, inner)
  | Ok _ =>
      let '(etag, version, inner1) := next_version inner in
      (Ok (MkPutOutcome (Some etag) (Some (pretty version))),
       MkMemInner (<[path := MkMemObject payload etag version]> (objects inner1))
         (mem_seq inner1))
  end.

Definition mem_delete (path : ObjectPath) : Op MemInner () :=
  op_modify (λ inner, MkMemInner (base.delete path (objects inner)) (mem_seq inner)).

Definition mem_list (prefix : ObjectPath) : Op MemInner (list ObjectPath) :=
  op_gets (λ inner, filter (λ k, under_prefix k prefix = true) (bt_iter (objects inner)).*1).

#[export] Instance MemStorage_Storage : StorageBackend MemInner := {|
  st_get := mem_get;
  st_get_opts := mem_get_opts;
  st_put_opts := mem_put_opts;
  st_delete := mem_delete;
  st_list := mem_list;
|}.

(** ** Lemmas *)

Lemma not_found_msg p : is_not_found_msg (Storage ("not found: " +:+ p)) = true.
Proof. apply str_contains_spec. by exists "storage error: ", (": " +:+ p). Qed.

(** The tag a backend object carries. *)
Definition mem_objects (inner : MemInner) : gmap string (bytes * string) :=
  (λ o, (mo_bytes o, mo_etag o)) <$> objects inner.

#[export] Program Instance MemStorage_Laws : StorageLaws MemInner :=
  {| st_objects := mem_objects; st_wf _ := True; st_path _ := True; st_safe _ := True |}.
Next Obligation. done. Qed.
Next Obligation.
  intros p w _ _. unfold mem_objects. rewrite lookup_fmap. eexists _, w. split; [done|].
  split; [done|]. split; [done|]. destruct (objects w !! p) as [o|] eqn:Ho; simpl.
  - by eexists.
  - eexists. split; [done|]. apply not_found_msg.
Qed.
Next Obligation.
  intros p opts w _ _. unfold mem_objects. rewrite lookup_fmap. simpl.
  unfold mem_get_opts, mem_get, op_bind.
  destruct (objects w !! p) as [o|] eqn:Ho; simpl.
  - case_bool_decide as Hb; simpl.
    + destruct Hb as [Hb _]. eexists _, w. split; [done|]. by rewrite decide_True.
    + eexists _, w. split; [done|]. rewrite decide_False by naive_solver.
      do 2 (split; [done|]). by eexists.
  - eexists _, w. split; [done|]. do 2 (split; [done|]). eexists. split; [done|].
    apply not_found_msg.
Qed.
Next Obligation.
  intros p b mode w _ _ _. simpl. unfold mem_put_opts. eexists _, _.
  split; [apply surjective_pairing|]. split; [done|]. unfold mem_objects.
  destruct (mem_precondition p mode w) as [[]|e] eqn:Hpre; simpl.
  - eexists. split; [done|]. rewrite fmap_insert. split; [done|].
    unfold mem_precondition in Hpre. rewrite lookup_fmap. destruct mode as [|v].
    + case_decide as Hd; [done|]. apply eq_None_not_Some in Hd. by rewrite Hd.
    + destruct (objects w !! p) as [o|]; [|done]. simpl.
      case_decide; [|done]. by eexists _, _.
  - unfold mem_precondition in Hpre. rewrite lookup_fmap. destruct mode as [|v].
    + case_decide as Hd; [|done]. simplify_eq. split; [by eexists|]. split; [done|].
      by apply fmap_is_Some.
    + destruct (objects w !! p) as [o|] eqn:Ho; simpl.
      * case_decide as Hd; [|simplify_eq; split; [by eexists|]; split; [done|naive_solver]].
        destruct (ov_version v); [|done]. case_decide; [done|]. simplify_eq.
        split; [by eexists|]. split; [done|]. by eauto.
      * simplify_eq. split; [by eexists|]. done.
Qed.
Next Obligation.
  intros p b mode w out w' _ _. simpl. unfold mem_put_opts.
  destruct (mem_precondition p mode w); [|done]. intros [= <- _]. cbn [po_e_tag hex_pad].
  generalize (hex_pad 15 ((mem_seq w + 1) mod U64 / 16)). by intros [].
Qed.
Next Obligation.
  intros p b w w1 out _ _. simpl. unfold mem_get, mem_put_opts.
  destruct (objects w !! p) as [o|] eqn:Ho; [|done]. intros [= <- <-].
  unfold mem_precondition. cbn [ov_e_tag ov_version go_e_tag go_version].
  rewrite Ho, !decide_True by done. by eexists _, _.
Qed.
Next Obligation.
  intros p w _ _ _. eexists. split; [done|]. split; [done|]. unfold mem_objects. simpl.
  by rewrite fmap_delete.
Qed.
Next Obligation.
  intros prefix w _ _. eexists _, w. split; [done|]. split; [done|]. split; [done|].
  assert (∀ p, p ∈ filter (λ k, under_prefix k prefix = true) (bt_iter (objects w)).*1 ↔
    is_Some (mem_objects w !! p) ∧ under_prefix p prefix = true) as Hl.
  { intros p. rewrite list_elem_of_filter, list_elem_of_fmap. unfold mem_objects.
    rewrite lookup_fmap, fmap_is_Some. split.
    - intros (Hu & [k o] & -> & Hin). apply elem_of_bt_iter in Hin. simpl. by rewrite Hin.
    - intros ([o Ho] & Hu). split; [done|]. exists (p, o). split; [done|].
      by apply elem_of_bt_iter. }
  split; intros p; [apply Hl|]. intros Hp Hu _. by apply Hl.
Qed.

#[export] Instance mem_unguarded : Unguarded MemInner.
Proof. by intros objs. Qed.

(** An update without a tag is refused, whatever is stored. *)
Lemma update_without_tag p b v inner :
  ∃ msg, mem_put_opts p b (Update (MkVersion None v)) inner = (Err (CasConflict msg), inner).
Proof.
  unfold mem_put_opts, mem_precondition. destruct (objects inner !! p) as [o|]; cbn; [|by eexists].
  rewrite decide_False by done. by eexists.
Qed.

#[export] Instance mem_accepts p : Accepts MemInner p.
Proof. done. Qed.

(** ** Entity tags are never reused *)

Lemma hex_digit_code a :
  (a < 16)%N → Ascii.N_of_ascii (hex_digit a) = (if a <? 10 then 48 + a else 87 + a)%N.
Proof.
  intros Ha. unfold hex_digit. apply Ascii.N_ascii_embedding.
  destruct (a <? 10)%N; lia.
Qed.

Lemma hex_digit_inj a b : (a < 16)%N → (b < 16)%N → hex_digit a = hex_digit b → a = b.
Proof.
  intros Ha Hb Heq. apply (f_equal Ascii.N_of_ascii) in Heq.
  rewrite !hex_digit_code in Heq by done.
  destruct (N.ltb_spec a 10), (N.ltb_spec b 10); lia.
Qed.

Lemma app_char_inj s1 s2 c1 c2 :
  s1 +:+ String c1 "" = s2 +:+ String c2 "" → s1 = s2 ∧ c1 = c2.
Proof.
  revert s2. induction s1 as [|a s1 IH]; intros [|b s2] Heq; unfold String.app in *;
    simpl in *; injection Heq; intros; subst; try done.
  - by destruct s2.
  - by destruct s1.
  - destruct (IH s2); naive_solver.
Qed.

Lemma hex_pad_inj width n m :
  (n < 16 ^ N.of_nat width)%N → (m < 16 ^ N.of_nat width)%N →
  hex_pad width n = hex_pad width m → n = m.
Proof.
  revert n m. induction width as [|width IH]; intros n m Hn Hm Heq.
  { simpl in *. lia. }
  simpl in Heq. apply app_char_inj in Heq as [Heq Hd].
  rewrite Nat2N.inj_succ, N.pow_succ_r' in Hn, Hm.
  apply hex_digit_inj in Hd; [|by apply N.mod_lt..].
  apply IH in Heq; [|by apply N.Div0.div_lt_upper_bound..].
  rewrite (N.div_mod n 16), (N.div_mod m 16) by done. congruence.
Qed.

Lemma hex_pad_length width n : String.length (hex_pad width n) = width.
Proof.
  revert n. induction width as [|width IH]; intros n; [done|]. cbn [hex_pad].
  rewrite string_length_app, IH. simpl. lia.
Qed.

Lemma hex_pad_S width n :
  hex_pad (S width) n = hex_pad width (n / 16) +:+ String (hex_digit (n mod 16)) "".
Proof. done. Qed.

#[global] Opaque hex_pad.

(** Any use of the backend by any number of clients, one call at a time. *)
Inductive MemCall :=
| MGet (p : ObjectPath)
| MPut (p : ObjectPath) (b : bytes) (mode : PutMode)
| MDelete (p : ObjectPath).

Definition mem_call (c : MemCall) (w : MemInner) : MemInner :=
  match c with
  | MGet p => (mem_get p w).2
  | MPut p b mode => (mem_put_opts p b mode w).2
  | MDelete p => (mem_delete p w).2
  end.

Definition mem_calls (cs : list MemCall) (w : MemInner) : MemInner :=
  foldl (λ w c, mem_call c w) w cs.

(** Every object carries the tag of its version, which was issued. *)
Definition mem_ok (w : MemInner) : Prop :=
  ∀ p o, objects w !! p = Some o →
    mo_etag o = hex_pad 16 (mo_version o) ∧ (mo_version o ≤ mem_seq w)%N.

Lemma mem_call_spec c w :
  mem_ok w → (mem_seq w + 1 < U64)%N →
  let w' := mem_call c w in
  mem_ok w' ∧ (mem_seq w ≤ mem_seq w' ≤ mem_seq w + 1)%N ∧
  ∀ p o, objects w' !! p = Some o →
    objects w !! p = Some o ∨ (mem_seq w < mo_version o)%N.
Proof.
  intros Hok Hlt. destruct c as [p|p b mode|p]; simpl.
  - split_and!; [done|lia|lia|by left].
  - unfold mem_put_opts. destruct (mem_precondition p mode w); simpl;
      [|split_and!; [done|lia|lia|by left]].
    rewrite (N.mod_small _ U64) by lia. split_and!; [|lia|lia|].
    + intros p' o. simpl. destruct (decide (p = p')) as [<-|Hne].
      * rewrite lookup_insert_eq. intros [= <-]. simpl. split; [done|lia].
      * rewrite lookup_insert_ne by done. intros Ho. destruct (Hok _ _ Ho). split; [done|lia].
    + intros p' o. destruct (decide (p = p')) as [<-|Hne].
      * rewrite lookup_insert_eq. intros [= <-]. right. simpl. lia.
      * rewrite lookup_insert_ne by done. by left.
  - split_and!; [|lia|lia|].
    + intros p' o. simpl. rewrite lookup_delete_Some. intros [_ Ho]. by apply (Hok p').
    + intros p' o. rewrite lookup_delete_Some. intros [_ Ho]. by left.
Qed.

Lemma mem_calls_spec cs w :
  mem_ok w → (mem_seq w + N.of_nat (length cs) < U64)%N →
  let w' := mem_calls cs w in
  mem_ok w' ∧ (mem_seq w ≤ mem_seq w' ≤ mem_seq w + N.of_nat (length cs))%N ∧
  ∀ p o, objects w' !! p = Some o →
    objects w !! p = Some o ∨ (mem_seq w < mo_version o)%N.
Proof.
  revert w. induction cs as [|c cs IH]; intros w Hok Hlt; simpl in *.
  { split_and!; [done|lia|lia|by left]. }
  destruct (mem_call_spec c w) as (Hok1 & [Hl1 Hl2] & Ho1); [done|lia|].
  destruct (IH (mem_call c w)) as (Hok2 & [Hl3 Hl4] & Ho2); [done|lia|].
  unfold mem_calls in *. simpl. split_and!; [done|lia|lia|].
  intros p o Ho. destruct (Ho2 _ _ Ho) as [Ho'|Ho']; [by apply Ho1|right; lia].
Qed.

(** Compare-and-swap has no ABA problem: if a client read an object at some
    point and, after any further calls by anyone (deletes and re-creations
    included), its conditional update with the tag it read succeeds, then the
    object is still the very one it read. *)
Theorem mem_cas_no_aba (past later : list MemCall) p o payload version :
  let w := mem_calls past mem_new in
  let w' := mem_calls later w in
  (N.of_nat (length past) + N.of_nat (length later) < U64)%N →
  objects w !! p = Some o →
  is_ok (mem_put_opts p payload (Update (MkVersion (Some (mo_etag o)) version)) w').1 = true →
  objects w' !! p = Some o.
Proof.
  intros w w' Hlt Ho Hput.
  destruct (mem_calls_spec past mem_new) as (Hok & [_ Hseq] & _); [done|simpl; lia|].
  fold w in Hok, Hseq. simpl in Hseq.
  destruct (mem_calls_spec later w) as (Hok' & [_ Hseq'] & Hnew); [done|lia|].
  fold w' in Hok', Hseq', Hnew.
  unfold mem_put_opts, mem_precondition in Hput.
  destruct (objects w' !! p) as [o'|] eqn:Ho'; [|done]. simpl in Hput.
  case_decide as Htag; [|done]. injection Htag as Htag.
  destruct (Hnew _ _ Ho') as [?|Hgt]; [congruence|].
  destruct (Hok _ _ Ho) as [He Hv], (Hok' _ _ Ho') as [He' Hv'].
  rewrite He, He' in Htag. apply hex_pad_inj in Htag; [lia|..];
    change (16 ^ N.of_nat 16)%N with U64; lia.
Qed.

Lemma mem_cas_no_aba_witness :
  objects (mem_calls [MGet "m"; MDelete "x"]
    (mem_calls [MPut "m" (as_bytes "1") Create] mem_new)) !! "m" =
  Some (MkMemObject (as_bytes "1") "0000000000000001" 1).
Proof.
  apply (mem_cas_no_aba [MPut "m" (as_bytes "1") Create] [MGet "m"; MDelete "x"] "m"
    (MkMemObject (as_bytes "1") "0000000000000001" 1) (as_bytes "2") None);
    [reflexivity|vm_compute; reflexivity|vm_compute; reflexivity].
Defined.
