(* ===== verification/Json.v ===== *)
(** What the engine asks of the libraries it calls for its objects' contents
    and for time: [serde_json] for a type that derives [Serialize] and
    [Deserialize], SHA-256, CRC-32 and the system clock.  They are classes; a
    witness uses the concrete instances at the end. *)

From stdpp Require Import options.
From S2P Require Import Prelude Core Codec Storage.

(** [serde_json::to_vec] and [serde_json::from_slice].  Serialising cannot
    fail for the crate's types, which are records of strings, integers and
    vectors; an error of [from_slice] is its rendered message. *)
Class Json (A : Type) := {
  to_vec : A → bytes;
  from_slice : bytes → string + A;
}.

(** A serialised value deserialises to itself. *)
Class JsonLaws (A : Type) `{Json A} := {
  from_to_vec a : from_slice (to_vec a) = inr a;
}.

#[export] Hint Rewrite @from_to_vec using typeclasses eauto : oxkv.

(** [sha2::Sha256::digest] and [crc32fast::hash]. *)
Class Digests := {
  sha256 : bytes → bytes;
  crc32 : bytes → N;
}.

(** [crate::store::now_millis], a [u64]. *)
Class Clock (W : Type) := { now_millis : Op W N }.

(** Reading the clock succeeds and touches no object. *)
Class ClockLaws (W : Type) `{StorageLaws W} `{Clock W} := {
  now_millis_law w : st_wf w →
    ∃ t w', now_millis w = (Ok t, w') ∧ st_objects w' = st_objects w ∧ st_wf w';
}.

(** ** Concrete instances *)

Fixpoint pos_to_bytes (p : positive) : bytes :=
  match p with
  | xH => []
  | xO p => x00 :: pos_to_bytes p
  | xI p => x01 :: pos_to_bytes p
  end.

Fixpoint pos_of_bytes (l : bytes) : positive :=
  match l with
  | [] => xH
  | b :: l => if decide (b = x00) then xO (pos_of_bytes l) else xI (pos_of_bytes l)
  end.

Lemma pos_of_to_bytes p : pos_of_bytes (pos_to_bytes p) = p.
Proof. induction p as [p IH|p IH|]; simpl; [by rewrite IH|by rewrite IH|done]. Qed.

(** A serialisation of any countable type. *)
Definition countable_json {A} `{Countable A} : Json A := {|
  to_vec a := pos_to_bytes (encode a);
  from_slice l := match decode (pos_of_bytes l) with
                  | Some a => inr a
                  | None => inl "expected value"
                  end;
|}.

Lemma countable_json_laws {A} `{Countable A} : @JsonLaws A countable_json.
Proof. split. intros a. simpl. by rewrite pos_of_to_bytes, decode_encode. Qed.

(** Checksums for examples: the length, which is all the examples need. *)
Definition length_digests : Digests := {|
  sha256 l := to_le_bytes 32 (N.of_nat (length l));
  crc32 l := (N.of_nat (length l) mod 4294967296)%N;
|}.

(** The in-memory backend with a clock that advances by one. *)
Definition still_clock : Clock MemInner := {| now_millis := op_ret 0%N |}.

Lemma still_clock_laws : @ClockLaws MemInner _ _ still_clock.
Proof. split. intros w _. by exists 0%N, w. Qed.

(** [{n:0width}]: decimal, padded with zeros to at least [width] digits. *)
Definition zero_pad (width : nat) (n : N) : string :=
  let s := pretty n in
  of_bytes (replicate (width - String.length s) x30) +:+ s.
