(* ===== verification/Float.v ===== *)
(** Floating-point literals: [str::parse] at [f64] and [f32], which the queries use
    for boosts, bounds and numeric terms, over the standard library's
    specification of IEEE 754 arithmetic. *)

From Stdlib Require Export Floats.SpecFloat.
From stdpp Require Import options.
From S2P Require Import Prelude.

(** ** Reading *)

(** The digits at the front: their value after [acc], their number after [n], and
    what follows. *)
Fixpoint read_digits (l : bytes) (acc : N) (n : nat) : N * nat * bytes :=
  match l with
  | b :: l' =>
      if is_ascii_digit b then read_digits l' (acc * 10 + (Byte.to_N b - 48))%N (S n)
      else (acc, n, l)
  | [] => (acc, n, [])
  end.

(** A leading sign: whether it is a minus, and what follows. *)
Definition read_sign (l : bytes) : bool * bytes :=
  match l with
  | x2d :: l => (true, l)
  | x2b :: l => (false, l)
  | _ => (false, l)
  end.

(** The grammar of the standard library: digits with a point somewhere and an
    optional exponent, as an integer and a power of ten. *)
Definition read_number (l : bytes) : option (N * Z) :=
  let '(i, ni, l) := read_digits l 0 0 in
  let '(m, nf, l) :=
    match l with x2e :: l => read_digits l i 0 | _ => (i, 0, l) end in
  if bool_decide (ni + nf = 0) then None
  else
    match l with
    | [] => Some (m, (- Z.of_nat nf)%Z)
    | x65 :: l | x45 :: l =>
        let '(neg, l) := read_sign l in
        match read_digits l 0 0 with
        | (e, S _, []) => Some (m, ((if neg then - Z.of_N e else Z.of_N e) - Z.of_nat nf)%Z)
        | _ => None
        end
    | _ => None
    end.

Definition ascii_lower (b : byte) : byte :=
  if ((65 <=? Byte.to_N b) && (Byte.to_N b <=? 90))%N
  then default b (Byte.of_N (Byte.to_N b + 32)) else b.

(** ** Rounding *)

Section format.
Context (prec emax : Z).

(** The float nearest to [m * 10^e]. *)
Definition scale_ten (neg : bool) (m : N) (e : Z) : spec_float :=
  match m with
  | 0%N => S754_zero neg
  | Npos p =>
      if (0 <=? e)%Z then binary_round prec emax neg (p * Z.to_pos (10 ^ e)) 0
      else
        let '(q, e', l) := SFdiv_core_binary prec emax (Zpos p) 0 (10 ^ (- e)) 0 in
        binary_round_aux prec emax neg q e' l
  end.

Definition parse_float (s : string) : option spec_float :=
  let '(neg, l) := read_sign (as_bytes s) in
  let name := of_bytes (ascii_lower <$> l) in
  if bool_decide (name = "inf" ∨ name = "infinity") then Some (S754_infinity neg)
  else if bool_decide (name = "nan") then Some S754_nan
  else (λ me, scale_ten neg me.1 me.2) <$> read_number l.
End format.

Abbreviation f64 := spec_float.
Abbreviation f32 := spec_float.
Definition f64_parse : string → option f64 := parse_float 53 1024.
Definition f32_parse : string → option f32 := parse_float 24 128.

(** [f64::EPSILON]: two to the power of [-52]. *)
Definition F64_EPSILON : f64 := S754_finite false 4503599627370496 (-104).
Definition f64_sub : f64 → f64 → f64 := SFsub 53 1024.

#[export] Instance spec_float_eq_dec : EqDecision spec_float.
Proof. solve_decision. Defined.

(** ** Literals that always parse *)

Definition all_digits (l : bytes) : Prop := l ≠ [] ∧ Forall (λ b, is_ascii_digit b = true) l.

Lemma read_digits_all l acc n :
  Forall (λ b, is_ascii_digit b = true) l → ∃ v, read_digits l acc n = (v, n + length l, []).
Proof.
  intros Hl. revert acc n. induction Hl as [|b l Hb _ IH]; intros acc n; cbn [read_digits length].
  - exists acc. by rewrite Nat.add_0_r.
  - rewrite Hb. destruct (IH (acc * 10 + (Byte.to_N b - 48))%N (S n)) as [v ->]. exists v.
    by rewrite Nat.add_succ_r.
Qed.

Lemma read_digits_stop l c r acc n :
  Forall (λ b, is_ascii_digit b = true) l → is_ascii_digit c = false →
  ∃ v, read_digits (l ++ c :: r) acc n = (v, n + length l, c :: r).
Proof.
  intros Hl Hc. revert acc n. induction Hl as [|b l Hb _ IH]; intros acc n; cbn [read_digits length app].
  - exists acc. by rewrite Hc, Nat.add_0_r.
  - rewrite Hb. destruct (IH (acc * 10 + (Byte.to_N b - 48))%N (S n)) as [v ->]. exists v.
    by rewrite Nat.add_succ_r.
Qed.

(** Digits, with an optional point and more digits, as a boost has them. *)
Definition decimal (l : bytes) : Prop :=
  all_digits l ∨ ∃ i f, l = i ++ x2e :: f ∧ all_digits i ∧ all_digits f.

Lemma read_number_decimal l : decimal l → is_Some (read_number l).
Proof.
  intros [[Hne Hl]|(i & f & -> & [Hi Hid] & [Hf Hfd])]; unfold read_number.
  - destruct (read_digits_all l 0 0 Hl) as [v ->]. rewrite bool_decide_eq_false_2; [done|].
    destruct l; [done|]. cbn. lia.
  - destruct (read_digits_stop i x2e f 0 0 Hid eq_refl) as [v ->].
    destruct (read_digits_all f v 0 Hfd) as [v' ->]. rewrite bool_decide_eq_false_2; [done|].
    destruct i; [done|]. cbn. lia.
Qed.

Lemma digit_ne b : is_ascii_digit b = true → b ≠ x2d ∧ b ≠ x2b ∧ ascii_lower b = b ∧ b ≠ x69 ∧ b ≠ x6e.
Proof. intros Hb. destruct b; vm_compute in Hb; try done; split_and!; done. Qed.

Lemma decimal_head l : decimal l → ∃ b r, l = b :: r ∧ is_ascii_digit b = true.
Proof.
  intros [[Hne Hl]|(i & f & -> & [Hi Hid] & _)].
  - destruct Hl; [done|]. by eexists _, _.
  - destruct Hid; [done|]. by eexists _, _.
Qed.

Lemma parse_float_decimal prec emax s : decimal (as_bytes s) → is_Some (parse_float prec emax s).
Proof.
  intros Hs. unfold parse_float. destruct (decimal_head _ Hs) as (b & r & Hb & Hd).
  destruct (digit_ne b Hd) as (Hm & Hp & Hl & Hi & Hn).
  assert (read_sign (as_bytes s) = (false, as_bytes s)) as ->.
  { rewrite Hb. unfold read_sign. by destruct b. }
  assert (∀ name, as_bytes name ≠ [] → head (as_bytes name) ≠ Some b →
    of_bytes (ascii_lower <$> as_bytes s) ≠ name) as Hname.
  { intros name _ Hh Heq. apply Hh. rewrite <-Heq, as_of_bytes, Hb. cbn. by rewrite Hl. }
  rewrite bool_decide_eq_false_2.
  2: { intros [Heq|Heq]; (eapply Hname; [| |exact Heq]); cbn; congruence. }
  rewrite bool_decide_eq_false_2 by (apply Hname; cbn; congruence).
  destruct (read_number_decimal _ Hs) as [me ->]. by eexists.
Qed.
