(* ===== verification/Query.v ===== *)
(** Queries: [src/src/query/mod.rs].

    The parser is generated from the grammar src/src/query/query.pest; it is a
    parameter that answers with a tree of pairs.  This file has the syntax trees
    and the builder that turns the former into the latter. *)

From stdpp Require Import options.
From S2P Require Import Prelude Core Float.

(** ** Syntax trees *)

Inductive Prefix := Must | MustNot | Not.
Inductive BinaryOp := And | Or.

Record TermExpr := MkTerm {
  te_value : string;
  is_quoted : bool;
  is_regex : bool;
  fuzzy_slop : option N;
  te_boost : option f32;
}.

Inductive Query :=
| Group (items : list QueryItem)
with QueryItem :=
| MkItem (prefix : option Prefix) (expr : Expression) (op : option BinaryOp)
with Expression :=
| Term (term : TermExpr)
| Field (field : string) (expr : Expression)
| Range (start end_ : string) (inclusive : bool) (boost : option f32)
| SubQuery (query : Query) (boost : option f32).

#[export] Instance Prefix_eq_dec : EqDecision Prefix.
Proof. solve_decision. Defined.
#[export] Instance BinaryOp_eq_dec : EqDecision BinaryOp.
Proof. solve_decision. Defined.

Definition qi_prefix (i : QueryItem) : option Prefix := let '(MkItem p _ _) := i in p.
Definition qi_expr (i : QueryItem) : Expression := let '(MkItem _ e _) := i in e.
Definition qi_op (i : QueryItem) : option BinaryOp := let '(MkItem _ _ o) := i in o.
Definition items_of (q : Query) : list QueryItem := let '(Group l) := q in l.

(** ** Parse trees *)

(** The rules of the grammar that leave a pair. *)
Inductive Rule :=
| R_query | R_single_query | R_must | R_must_not | R_field_query | R_field_name
| R_modified_term | R_unquoted_term | R_quoted_term | R_phrase_content | R_regex_term
| R_regex_content | R_fuzzy_slop | R_boost | R_inc_range | R_exc_range | R_sub_query
| R_and_op | R_or_op | R_not_op | R_EOI.

#[export] Instance Rule_eq_dec : EqDecision Rule.
Proof. solve_decision. Defined.

(** [pest::iterators::Pair]: its rule, its text and its inner pairs. *)
Inductive Pair := MkPair (rule : Rule) (text : string) (inner : list Pair).

Definition as_rule (p : Pair) : Rule := let '(MkPair r _ _) := p in r.
Definition as_str (p : Pair) : string := let '(MkPair _ s _) := p in s.
Definition into_inner (p : Pair) : list Pair := let '(MkPair _ _ l) := p in l.

(** [Result<T, String>]. *)
Definition AstResult (A : Type) : Type := (string + A)%type.
Definition ast_bind {A B} (m : AstResult A) (f : A → AstResult B) : AstResult B :=
  match m with inl e => inl e | inr a => f a end.

(** The loops of the builder: they stop at the first error. *)
Definition ast_fold {A B} (f : B → A → AstResult B) : list A → B → AstResult B :=
  fix go l st :=
    match l with
    | [] => inr st
    | a :: l => ast_bind (f st a) (go l)
    end.

Definition rule_name (r : Rule) : string :=
  match r with
  | R_query => "query" | R_single_query => "single_query" | R_must => "must"
  | R_must_not => "must_not" | R_field_query => "field_query" | R_field_name => "field_name"
  | R_modified_term => "modified_term" | R_unquoted_term => "unquoted_term"
  | R_quoted_term => "quoted_term" | R_phrase_content => "phrase_content"
  | R_regex_term => "regex_term" | R_regex_content => "regex_content"
  | R_fuzzy_slop => "fuzzy_slop" | R_boost => "boost" | R_inc_range => "inc_range"
  | R_exc_range => "exc_range" | R_sub_query => "sub_query" | R_and_op => "and_op"
  | R_or_op => "or_op" | R_not_op => "not_op" | R_EOI => "EOI"
  end.

Definition op_name (o : BinaryOp) : string := match o with And => "And" | Or => "Or" end.

Definition invalid (r : Rule) : string :=
  "malformed parse tree: expected a `" +:+ rule_name r +:+ "` node".

(** ** The builder *)

Abbreviation backslash := (Ascii.ascii_of_nat 92).

(** [str::trim_start_matches] of one character. *)
Fixpoint trim_start (c : Ascii.ascii) (s : string) : string :=
  match s with
  | EmptyString => EmptyString
  | String a s' => if decide (a = c) then trim_start c s' else s
  end.

Definition boost_of (p : Pair) : option f32 :=
  f32_parse (trim_start (Ascii.ascii_of_nat 94) (as_str p)).

(** Byte by byte: the bytes after the first one of an escaped character are no
    backslashes, and are copied as the character itself would be. *)
Fixpoint unescape (raw : string) : string :=
  match raw with
  | EmptyString => EmptyString
  | String c raw =>
      if decide (c = backslash) then
        match raw with
        | String escaped raw => String escaped (unescape raw)
        | EmptyString => String backslash EmptyString
        end
      else String c (unescape raw)
  end.

(** [items.last_mut()] and the assignment. *)
Fixpoint set_last_op (o : BinaryOp) (items : list QueryItem) : list QueryItem :=
  match items with
  | [] => []
  | [MkItem p e _] => [MkItem p e (Some o)]
  | i :: items => i :: set_last_op o items
  end.

Definition ensure_no_dangling_operator (items : list QueryItem) : AstResult () :=
  match last items ≫= qi_op with
  | Some o => inl ("dangling boolean operator `" +:+ op_name o +:+ "` with no following expression")
  | None => inr ()
  end.

Definition sibling_boost (nodes : list Pair) (idx : nat) : option f32 :=
  nodes !! idx ≫= λ p, if decide (as_rule p = R_boost) then boost_of p else None.

Definition range_parts (p : Pair) (boost : option f32) (inclusive : bool) : Expression :=
  let bound (i : nat) := from_option (λ p, unescape (as_str p)) "" (into_inner p !! i) in
  Range (bound 0) (bound 1) inclusive boost.

(** A pair inside a term. *)
Definition term_step (t : TermExpr) (p : Pair) : TermExpr :=
  let content := from_option (λ p, unescape (as_str p)) "" (head (into_inner p)) in
  match as_rule p with
  | R_unquoted_term =>
      MkTerm (unescape (as_str p)) (is_quoted t) (is_regex t) (fuzzy_slop t) (te_boost t)
  | R_quoted_term => MkTerm content true (is_regex t) (fuzzy_slop t) (te_boost t)
  | R_regex_term => MkTerm content (is_quoted t) true (fuzzy_slop t) (te_boost t)
  | R_fuzzy_slop =>
      let slop :=
        match trim_start (Ascii.ascii_of_nat 126) (as_str p) with
        | EmptyString => Some 2%N
        | slop => parse_uint 256 slop
        end in
      MkTerm (te_value t) (is_quoted t) (is_regex t) slop (te_boost t)
  | R_boost => MkTerm (te_value t) (is_quoted t) (is_regex t) (fuzzy_slop t) (boost_of p)
  | _ => t
  end.

Definition parse_modified_term (p : Pair) : TermExpr :=
  foldl term_step (MkTerm "" false false None None) (into_inner p).

(** A pair inside a query: the items so far and the pending prefix. *)
Definition query_step (single : Pair → AstResult (option Prefix * Expression))
    (st : list QueryItem * option Prefix) (p : Pair) : AstResult (list QueryItem * option Prefix) :=
  match as_rule p with
  | R_not_op => inr (st.1, Some Not)
  | R_single_query =>
      ast_bind (single p) (λ r,
        inr (st.1 ++ [MkItem (match st.2 with Some q => Some q | None => r.1 end) r.2 None], None))
  | R_and_op => inr (set_last_op And st.1, st.2)
  | R_or_op => inr (set_last_op Or st.1, st.2)
  | _ => inr st
  end.

(** A pair of a single query, at the counted position of [nodes]: the prefix and
    the expression so far. *)
Definition single_step (field sub : Pair → AstResult Expression) (nodes : list Pair)
    (st : nat * (option Prefix * option Expression)) (p : Pair) :
    AstResult (nat * (option Prefix * option Expression)) :=
  let '(idx, st) := st in
  ast_bind
  match as_rule p with
  | R_must => inr (Some Must, st.2)
  | R_must_not => inr (Some MustNot, st.2)
  | R_field_query => ast_bind (field p) (λ e, inr (st.1, Some e))
  | R_modified_term => inr (st.1, Some (Term (parse_modified_term p)))
  | R_sub_query => ast_bind (sub p) (λ e, inr (st.1, Some e))
  | R_inc_range => inr (st.1, Some (range_parts p (sibling_boost nodes (S idx)) true))
  | R_exc_range => inr (st.1, Some (range_parts p (sibling_boost nodes (S idx)) false))
  | _ => inr st
  end
  (λ st, inr (S idx, st)).

Fixpoint parse_query (p : Pair) : AstResult Query :=
  let '(MkPair _ _ nodes) := p in
  ast_bind
    (ast_fold (query_step parse_single_query) nodes ([], None))
    (λ st, ast_bind (ensure_no_dangling_operator st.1) (λ _, inr (Group st.1)))
with parse_single_query (p : Pair) : AstResult (option Prefix * Expression) :=
  let '(MkPair _ _ nodes) := p in
  ast_bind
    (ast_fold (single_step parse_field_query parse_sub_query nodes) nodes (0, (None, None)))
    (λ '(_, st), match st.2 with
           | Some e => inr (st.1, e)
           | None => inl (invalid R_single_query)
           end)
with parse_field_query (p : Pair) : AstResult Expression :=
  let '(MkPair _ _ nodes) := p in
  match nodes with
  | name :: rest =>
      if decide (as_rule name = R_field_name) then
        match rest with
        | val :: _ =>
            ast_bind
              match as_rule val with
              | R_modified_term => inr (Term (parse_modified_term val))
              | R_inc_range => inr (range_parts val (sibling_boost nodes 2) true)
              | R_exc_range => inr (range_parts val (sibling_boost nodes 2) false)
              | R_sub_query => parse_sub_query val
              | _ => inl (invalid R_field_query)
              end
              (λ e, inr (Field (as_str name) e))
        | [] => inl (invalid R_field_query)
        end
      else inl (invalid R_field_name)
  | [] => inl (invalid R_field_name)
  end
with parse_sub_query (p : Pair) : AstResult Expression :=
  let '(MkPair _ _ nodes) := p in
  match nodes with
  | q :: _ => ast_bind (parse_query q) (λ q, inr (SubQuery q (sibling_boost nodes 1)))
  | [] => inl (invalid R_query)
  end.

Fixpoint build_ast (pairs : list Pair) : AstResult Query :=
  match pairs with
  | [] => inr (Group [])
  | p :: pairs => if decide (as_rule p = R_query) then parse_query p else build_ast pairs
  end.

(** [LuceneParser::parse(Rule::main, _)], which pest generates; an error is its
    message. *)
Class Lucene := { lucene_parse : string → string + list Pair }.

Definition parse `{Lucene} (input : string) : AstResult Query :=
  ast_bind (lucene_parse input) build_ast.
