(* ===== verification/QuerySpec.v ===== *)
(** The query builder against the grammar: on every tree that the grammar can
    produce it succeeds, and its results are exactly the well-formed syntax
    trees. *)

From stdpp Require Import options.
From S2P Require Import Prelude Core Float Query.

(** ** The trees of the grammar *)

(** [boost?]: nothing, or a caret and a decimal number. *)
Inductive g_boost : list Pair → Prop :=
| gb_none : g_boost []
| gb_some l : decimal l → g_boost [MkPair R_boost (of_bytes (x5e :: l)) []].

(** [fuzzy_slop?]: nothing, or a tilde and digits. *)
Inductive g_slop : list Pair → Prop :=
| gs_none : g_slop []
| gs_some l : Forall (λ b, is_ascii_digit b = true) l →
    g_slop [MkPair R_fuzzy_slop (of_bytes (x7e :: l)) []].

Inductive g_text : Pair → Prop :=
| gt_unquoted s : g_text (MkPair R_unquoted_term s [])
| gt_quoted s c : g_text (MkPair R_quoted_term s [MkPair R_phrase_content c []])
| gt_regex s c : g_text (MkPair R_regex_term s [MkPair R_regex_content c []]).

(** [modified_term]. *)
Inductive g_term : Pair → Prop :=
| gt_term s t slop boost : g_text t → g_slop slop → g_boost boost →
    g_term (MkPair R_modified_term s (t :: slop ++ boost)).

(** [range_query]: the range and its boost; its bounds are of no concern here. *)
Inductive g_range : list Pair → Prop :=
| gr_inc s lo hi boost : g_boost boost → g_range (MkPair R_inc_range s [lo; hi] :: boost)
| gr_exc s lo hi boost : g_boost boost → g_range (MkPair R_exc_range s [lo; hi] :: boost).

(** [modifier?]. *)
Inductive g_modifier : list Pair → Prop :=
| gm_none : g_modifier []
| gm_must s : g_modifier [MkPair R_must s []]
| gm_must_not s : g_modifier [MkPair R_must_not s []].

(** [not_op?] and [binary_op?]. *)
Inductive g_not : list Pair → Prop :=
| gn_none : g_not []
| gn_not s : g_not [MkPair R_not_op s []].
Inductive g_op : list Pair → Prop :=
| go_none : g_op []
| go_and s : g_op [MkPair R_and_op s []]
| go_or s : g_op [MkPair R_or_op s []].

Inductive g_query : Pair → Prop :=
| g_group s l : g_items l → g_query (MkPair R_query s l)
with g_items : list Pair → Prop :=
| gi_last neg p : g_not neg → g_single p → g_items (neg ++ [p])
| gi_more neg p op l : g_not neg → g_single p → g_op op → g_items l →
    g_items ((neg ++ [p]) ++ op ++ l)
with g_single : Pair → Prop :=
| g_one s m body : g_modifier m → g_body body → g_single (MkPair R_single_query s (m ++ body))
with g_body : list Pair → Prop :=
| gb_field s name body : g_value body →
    g_body [MkPair R_field_query s (MkPair R_field_name name [] :: body)]
| gb_value body : g_value body → g_body body
with g_value : list Pair → Prop :=
| gv_term p : g_term p → g_value [p]
| gv_range l : g_range l → g_value l
| gv_sub s q boost : g_query q → g_boost boost → g_value [MkPair R_sub_query s (q :: boost)].

Scheme g_query_mut := Induction for g_query Sort Prop
  with g_items_mut := Induction for g_items Sort Prop
  with g_single_mut := Induction for g_single Sort Prop
  with g_body_mut := Induction for g_body Sort Prop
  with g_value_mut := Induction for g_value Sort Prop.
Combined Scheme grammar_ind from g_query_mut, g_items_mut, g_single_mut, g_body_mut, g_value_mut.

(** ** Well-formed syntax trees *)

(** A boost is the value of a decimal number. *)
Definition wf_boost (b : option f32) : Prop :=
  b = None ∨ ∃ l, decimal l ∧ b = f32_parse (of_bytes l).

(** A term is a phrase, a regex or neither, and its slop is a byte. *)
Definition wf_term (t : TermExpr) : Prop :=
  is_quoted t && is_regex t = false ∧
  match fuzzy_slop t with Some n => (n < 256)%N | None => True end ∧ wf_boost (te_boost t).

(** No group is empty, no last item has an operator, and fields do not nest
    directly. *)
Inductive wf_query : Query → Prop :=
| w_group l : wf_items l → wf_query (Group l)
with wf_items : list QueryItem → Prop :=
| wi_last p e : wf_expr e → wf_items [MkItem p e None]
| wi_more p e o l : wf_expr e → wf_items l → wf_items (MkItem p e o :: l)
with wf_expr : Expression → Prop :=
| w_field f e : wf_value e → wf_expr (Field f e)
| w_value e : wf_value e → wf_expr e
with wf_value : Expression → Prop :=
| w_term t : wf_term t → wf_value (Term t)
| w_range lo hi i b : wf_boost b → wf_value (Range lo hi i b)
| w_sub q b : wf_query q → wf_boost b → wf_value (SubQuery q b).

Scheme wf_query_mut := Induction for wf_query Sort Prop
  with wf_items_mut := Induction for wf_items Sort Prop
  with wf_expr_mut := Induction for wf_expr Sort Prop
  with wf_value_mut := Induction for wf_value Sort Prop.
Combined Scheme wf_ind from wf_query_mut, wf_items_mut, wf_expr_mut, wf_value_mut.

(** ** The leaves *)

Lemma decimal_not c l : decimal l → is_ascii_digit c = false → head l ≠ Some c.
Proof. intros Hl Hc. destruct (decimal_head l Hl) as (b & r & -> & Hb). cbn. congruence. Qed.

Lemma trim_other c s : head (as_bytes s) ≠ Some (Ascii.byte_of_ascii c) → trim_start c s = s.
Proof.
  destruct s as [|a s]; [done|]. intros Hne. cbn [trim_start]. case_decide as Ha; [|done].
  subst. by destruct Hne.
Qed.

Lemma boost_text l r s : decimal l → boost_of (MkPair r (of_bytes (x5e :: l)) s) = f32_parse (of_bytes l).
Proof.
  intros Hl. unfold boost_of. cbn [as_str].
  change (of_bytes (x5e :: l)) with (String (Ascii.ascii_of_nat 94) (of_bytes l)).
  cbn [trim_start]. rewrite decide_True by done. f_equal. apply trim_other. rewrite as_of_bytes.
  by apply decimal_not.
Qed.

Lemma boost_some l : g_boost l → wf_boost (sibling_boost l 0).
Proof.
  intros [|d Hd]; [by left|]. right. exists d. split; [done|].
  unfold sibling_boost. cbn [lookup list_lookup mbind option_bind as_rule]. rewrite decide_True by done.
  by apply boost_text.
Qed.

Lemma parse_digits_bound bound l acc n : parse_digits bound l acc = Some n → (acc < bound)%N → (n < bound)%N.
Proof.
  revert acc. induction l as [|b l IH]; intros acc; cbn [parse_digits]; [congruence|].
  case_match; [|done]. destruct (N.ltb_spec (acc * 10 + (Byte.to_N b - 48)) bound)%N; [|done].
  intros Hp _. by eapply IH.
Qed.

Lemma parse_uint_bound bound s n : parse_uint bound s = Some n → (0 < bound)%N → (n < bound)%N.
Proof. unfold parse_uint. case_match; [done|]. intros Hp Hb. by eapply parse_digits_bound. Qed.

Lemma sibling_app m r l : sibling_boost (m ++ r :: l) (S (length m)) = sibling_boost l 0.
Proof.
  unfold sibling_boost. rewrite lookup_app_r by lia.
  by replace (S (length m) - length m) with 1 by lia.
Qed.

(** The value of a slop. *)
Definition slop_of (l : list Pair) : option N :=
  match l with
  | p :: _ => match trim_start (Ascii.ascii_of_nat 126) (as_str p) with
              | EmptyString => Some 2%N
              | slop => parse_uint 256 slop
              end
  | [] => None
  end.

Lemma slop_some l : g_slop l → match slop_of l with Some n => (n < 256)%N | None => True end.
Proof.
  intros [|d Hd]; [done|]. cbn [slop_of as_str].
  destruct (trim_start _ _) as [|a s]; [done|].
  destruct (parse_uint 256 (String a s)) as [n|] eqn:Hn; [|done]. by eapply parse_uint_bound.
Qed.

Lemma term_fold t slop boost :
  g_slop slop → g_boost boost → fuzzy_slop t = None → te_boost t = None →
  foldl term_step t (slop ++ boost) =
    MkTerm (te_value t) (is_quoted t) (is_regex t) (slop_of slop) (sibling_boost boost 0).
Proof.
  intros [|d Hd] [|d' Hd'] Hs Hb; destruct t; cbn in Hs, Hb; subst; reflexivity.
Qed.

Lemma term_ok p : g_term p → wf_term (parse_modified_term p).
Proof.
  intros [s t slop boost Ht Hs Hb]. unfold parse_modified_term. cbn [into_inner foldl].
  pose proof (slop_some _ Hs). pose proof (boost_some _ Hb).
  destruct Ht; rewrite term_fold by done; by split_and!.
Qed.

(** ** Every tree builds *)

Lemma ast_fold_app {A B} (f : B → A → AstResult B) l l' st :
  ast_fold f (l ++ l') st = ast_bind (ast_fold f l st) (ast_fold f l').
Proof.
  revert st. induction l as [|a l IH]; intros st; [done|].
  change (ast_fold f ((a :: l) ++ l') st) with (ast_bind (f st a) (ast_fold f (l ++ l'))).
  change (ast_fold f (a :: l) st) with (ast_bind (f st a) (ast_fold f l)).
  destruct (f st a) as [e|st']; [done|]. apply IH.
Qed.

Lemma parse_query_eq r s l :
  parse_query (MkPair r s l) =
    ast_bind (ast_fold (query_step parse_single_query) l ([], None)) (λ st,
      ast_bind (ensure_no_dangling_operator st.1) (λ _, inr (Group st.1))).
Proof. reflexivity. Qed.

Lemma parse_single_eq r s l :
  parse_single_query (MkPair r s l) =
    ast_bind (ast_fold (single_step parse_field_query parse_sub_query l) l (0, (None, None)))
      (λ '(_, st), match st.2 with Some e => inr (st.1, e) | None => inl (invalid R_single_query) end).
Proof. reflexivity. Qed.

Lemma parse_sub_eq r s q l :
  parse_sub_query (MkPair r s (q :: l)) =
    ast_bind (parse_query q) (λ q, inr (SubQuery q (sibling_boost l 0))).
Proof. reflexivity. Qed.

Lemma set_last_snoc o l p e o' : set_last_op o (l ++ [MkItem p e o']) = l ++ [MkItem p e (Some o)].
Proof.
  induction l as [|i l IH]; [done|]. cbn [app set_last_op]. rewrite IH.
  destruct i. by destruct l.
Qed.

(** One item, negated or not. *)
Lemma item_fold neg p pr e items :
  g_not neg → as_rule p = R_single_query → parse_single_query p = inr (pr, e) →
  ast_fold (query_step parse_single_query) (neg ++ [p]) (items, None) =
    inr (items ++ [MkItem (match neg with [] => pr | _ => Some Not end) e None], None).
Proof.
  intros [|s] Hr Hp; cbn [app]; unfold ast_fold, query_step; cbn [as_rule]; rewrite Hr, Hp; done.
Qed.

Lemma op_fold op items p e :
  g_op op →
  ∃ o, ast_fold (query_step parse_single_query) op (items ++ [MkItem p e None], None) =
    inr (items ++ [MkItem p e o], None).
Proof.
  intros [|s|s]; cbn [ast_fold query_step as_rule ast_bind fst snd]; rewrite ?set_last_snoc; by eexists.
Qed.

Lemma items_last l : wf_items l → last l ≫= qi_op = None.
Proof. induction 1 as [|p e o l He Hl IH]; [done|]. by destruct Hl. Qed.

Lemma single_rule p : g_single p → as_rule p = R_single_query.
Proof. by intros []. Qed.

(** The values, after a modifier and under a field. *)
Definition builds_value (l : list Pair) : Prop :=
  (∀ m pr o, ∃ i e, ast_fold (single_step parse_field_query parse_sub_query (m ++ l)) l
      (length m, (pr, o)) = inr (i, (pr, Some e)) ∧ wf_value e) ∧
  (∀ r s name, ∃ e, parse_field_query (MkPair r s (MkPair R_field_name name [] :: l)) =
      inr (Field name e) ∧ wf_value e).

Lemma range_builds s lo hi boost (inc : bool) :
  g_boost boost → builds_value (MkPair (if inc then R_inc_range else R_exc_range) s [lo; hi] :: boost).
Proof.
  intros Hb. pose proof (boost_some _ Hb) as Hw. set (p := MkPair _ _ _). split.
  - intros m pr o.
    assert (ast_fold (single_step parse_field_query parse_sub_query (m ++ p :: boost)) (p :: boost)
        (length m, (pr, o)) =
      ast_fold (single_step parse_field_query parse_sub_query (m ++ p :: boost)) boost
        (S (length m), (pr, Some (range_parts p (sibling_boost boost 0) inc)))) as ->.
    { rewrite <-(sibling_app m p boost). by destruct inc. }
    destruct Hb; (eexists _, _; split; [reflexivity|]; by constructor).
  - intros r s' name. eexists. split; [destruct inc; reflexivity|]. by constructor.
Qed.

Lemma grammar_builds :
  (∀ p, g_query p → ∃ q, parse_query p = inr q ∧ wf_query q) ∧
  (∀ l, g_items l → ∀ items, ∃ items',
    ast_fold (query_step parse_single_query) l (items, None) = inr (items ++ items', None) ∧
    wf_items items') ∧
  (∀ p, g_single p → ∃ pr e, parse_single_query p = inr (pr, e) ∧ wf_expr e) ∧
  (∀ l, g_body l → ∀ m pr, ∃ i e,
    ast_fold (single_step parse_field_query parse_sub_query (m ++ l)) l (length m, (pr, None)) =
      inr (i, (pr, Some e)) ∧ wf_expr e) ∧
  (∀ l, g_value l → builds_value l).
Proof.
  apply grammar_ind.
  - intros s l _ IH. destruct (IH []) as (items & Hf & Hw). exists (Group items).
    rewrite parse_query_eq, Hf. cbn [ast_bind app fst]. unfold ensure_no_dangling_operator.
    rewrite items_last by done. split; [done|by constructor].
  - intros neg p Hn Hp (pr & e & Hs & Hw) items.
    rewrite (item_fold neg p pr e) by (done || by apply single_rule). eexists. split; [done|]. by constructor.
  - intros neg p op l Hn Hp (pr & e & Hs & Hw) Ho _ IH items.
    rewrite ast_fold_app, (item_fold neg p pr e) by (done || by apply single_rule). cbn [ast_bind].
    rewrite ast_fold_app. destruct (op_fold op items (match neg with [] => pr | _ => Some Not end) e Ho) as [o ->].
    cbn [ast_bind]. destruct (IH (items ++ [MkItem (match neg with [] => pr | _ => Some Not end) e o]))
      as (items' & -> & Hw').
    eexists. rewrite <-app_assoc. split; [done|]. by constructor.
  - intros s m body Hm _ IH.
    assert (∃ pr, ast_fold (single_step parse_field_query parse_sub_query (m ++ body)) m (0, (None, None)) =
      inr (length m, (pr, None))) as [pr Hpr] by (destruct Hm; by eexists).
    destruct (IH m pr) as (i & e & Hf & Hw). exists pr, e.
    rewrite parse_single_eq, ast_fold_app, Hpr. cbn [ast_bind]. by rewrite Hf.
  - intros s name body _ [_ IH] m pr. destruct (IH R_field_query s name) as (e & Hf & Hw).
    eexists _, _. unfold ast_fold, single_step. cbn [as_rule]. rewrite Hf. split; [done|]. by constructor.
  - intros body _ [IH _] m pr. destruct (IH m pr None) as (i & e & Hf & Hw). exists i, e. split; [done|].
    by constructor.
  - intros p Hp. pose proof (term_ok p Hp) as Hw. destruct Hp as [s t slop boost Ht Hs Hb]. split.
    + intros m pr o. eexists _, _. split; [reflexivity|]. by constructor.
    + intros r s' name. eexists. split; [reflexivity|]. by constructor.
  - intros l [s lo hi boost Hb|s lo hi boost Hb]; [by apply (range_builds _ _ _ _ true)|by apply (range_builds _ _ _ _ false)].
  - intros s q boost _ (qq & Hq & Hw) Hb. pose proof (boost_some _ Hb). split.
    + intros m pr o. eexists _, _. unfold ast_fold, single_step. cbn [as_rule]. rewrite parse_sub_eq, Hq.
      split; [reflexivity|]. by constructor.
    + intros r s' name. eexists.
      change (parse_field_query (MkPair r s' [MkPair R_field_name name []; MkPair R_sub_query s (q :: boost)]))
        with (ast_bind (parse_sub_query (MkPair R_sub_query s (q :: boost))) (λ e, inr (Field name e) : AstResult Expression)).
      rewrite parse_sub_eq, Hq. split; [reflexivity|]. by constructor.
Qed.

(** ** Every well-formed tree is built *)

(** A backslash before every byte. *)
Fixpoint escape (s : string) : string :=
  match s with
  | EmptyString => EmptyString
  | String c s => String backslash (String c (escape s))
  end.

Lemma unescape_escape s : unescape (escape s) = s.
Proof. induction s as [|c s IH]; [done|]. cbn [escape unescape]. rewrite decide_True by done. by rewrite IH. Qed.

Lemma boost_tree b : wf_boost b → ∃ l, g_boost l ∧ sibling_boost l 0 = b.
Proof.
  intros [->|(l & Hl & ->)]; [by exists []; split; [constructor|]|].
  eexists. split; [by apply gb_some, Hl|]. unfold sibling_boost.
  cbn [lookup list_lookup mbind option_bind as_rule]. rewrite decide_True by done. by apply boost_text.
Qed.

Lemma slop_text n :
  (n < 256)%N →
  forallb is_ascii_digit (as_bytes (pretty n)) = true ∧
  slop_of [MkPair R_fuzzy_slop (of_bytes (x7e :: as_bytes (pretty n))) []] = Some n.
Proof.
  assert (forallb (λ i, let n := N.of_nat i in forallb is_ascii_digit (as_bytes (pretty n)) &&
    bool_decide (slop_of [MkPair R_fuzzy_slop (of_bytes (x7e :: as_bytes (pretty n))) []] = Some n))
    (seq 0 256) = true) as Hall by (vm_compute; reflexivity).
  intros Hn. rewrite forallb_forall in Hall. specialize (Hall (N.to_nat n)).
  cbv zeta in Hall. rewrite N2Nat.id in Hall. apply andb_true_iff in Hall as [Hd Hs].
  - by apply bool_decide_eq_true in Hs.
  - apply in_seq. lia.
Qed.

Lemma slop_tree o :
  match o with Some n => (n < 256)%N | None => True end → ∃ l, g_slop l ∧ slop_of l = o.
Proof.
  intros Ho. destruct o as [n|]; [|by exists []; split; [constructor|]].
  destruct (slop_text n Ho) as [Hd Hs]. eexists. split; [|exact Hs]. constructor.
  apply Forall_forall. intros b Hb. rewrite forallb_forall in Hd. by apply Hd, list_elem_of_In.
Qed.

Lemma term_tree t : wf_term t → ∃ p, g_term p ∧ as_rule p = R_modified_term ∧ parse_modified_term p = t.
Proof.
  intros (Hqr & Hs & Hb). destruct t as [v q r o b]. cbn in *.
  destruct (slop_tree o Hs) as (ls & Hls & <-), (boost_tree b Hb) as (lb & Hlb & <-).
  set (txt := if q then MkPair R_quoted_term "" [MkPair R_phrase_content (escape v) []]
              else if r then MkPair R_regex_term "" [MkPair R_regex_content (escape v) []]
              else MkPair R_unquoted_term (escape v) []).
  exists (MkPair R_modified_term "" (txt :: ls ++ lb)). split; [|split; [done|]].
  - constructor; [|done..]. unfold txt. destruct q, r; try done; constructor.
  - unfold parse_modified_term. cbn [into_inner foldl]. rewrite term_fold by (done || by destruct q, r).
    destruct q, r; try done; cbn; by rewrite unescape_escape.
Qed.

Definition built_value (e : Expression) (l : list Pair) : Prop :=
  (∀ m pr o, ∃ i, ast_fold (single_step parse_field_query parse_sub_query (m ++ l)) l
      (length m, (pr, o)) = inr (i, (pr, Some e))) ∧
  (∀ r s name, parse_field_query (MkPair r s (MkPair R_field_name name [] :: l)) = inr (Field name e)).

Lemma range_tree lo hi (inc : bool) b : wf_boost b → ∃ l, g_range l ∧ built_value (Range lo hi inc b) l.
Proof.
  intros Hb. destruct (boost_tree b Hb) as (lb & Hlb & <-).
  set (p := MkPair (if inc then R_inc_range else R_exc_range) ""
    [MkPair R_unquoted_term (escape lo) []; MkPair R_unquoted_term (escape hi) []]).
  exists (p :: lb). split; [unfold p; destruct inc; by constructor|].
  assert (∀ b, range_parts p b inc = Range lo hi inc b) as Hp
    by (intros; unfold range_parts; cbn; by rewrite !unescape_escape).
  split.
  - intros m pr o.
    assert (ast_fold (single_step parse_field_query parse_sub_query (m ++ p :: lb)) (p :: lb)
        (length m, (pr, o)) =
      ast_fold (single_step parse_field_query parse_sub_query (m ++ p :: lb)) lb
        (S (length m), (pr, Some (range_parts p (sibling_boost lb 0) inc)))) as ->.
    { rewrite <-(sibling_app m p lb). by destruct inc. }
    rewrite Hp. destruct Hlb; by eexists.
  - intros r s name.
    assert (parse_field_query (MkPair r s (MkPair R_field_name name [] :: p :: lb)) =
      inr (Field name (range_parts p (sibling_boost lb 0) inc))) as -> by (by destruct inc).
    by rewrite Hp.
Qed.

(** An expression, with an item's prefix in front. *)
Lemma item_built p e :
  (∃ body, g_body body ∧ ∀ m pr, ∃ i,
    ast_fold (single_step parse_field_query parse_sub_query (m ++ body)) body (length m, (pr, None)) =
      inr (i, (pr, Some e))) →
  ∃ neg s pr, g_not neg ∧ g_single s ∧
    parse_single_query s = inr (pr, e) ∧ match neg with [] => pr | _ => Some Not end = p.
Proof.
  intros (body & Hg & Hb).
  assert (∀ m mp, g_modifier m →
    ast_fold (single_step parse_field_query parse_sub_query (m ++ body)) m (0, (None, None)) =
      inr (length m, (mp, None)) →
    parse_single_query (MkPair R_single_query "" (m ++ body)) = inr (mp, e)) as Hm.
  { intros m mp _ Hmp. rewrite parse_single_eq, ast_fold_app, Hmp. cbn [ast_bind].
    destruct (Hb m mp) as [i Hi]. by rewrite Hi. }
  destruct p as [[]|].
  - exists [], (MkPair R_single_query "" ([MkPair R_must "" []] ++ body)), (Some Must).
    split_and!; [constructor|by constructor; [constructor|]|by apply Hm; [constructor|]|done].
  - exists [], (MkPair R_single_query "" ([MkPair R_must_not "" []] ++ body)), (Some MustNot).
    split_and!; [constructor|by constructor; [constructor|]|by apply Hm; [constructor|]|done].
  - exists [MkPair R_not_op "" []], (MkPair R_single_query "" ([] ++ body)), None.
    split_and!; [constructor|by constructor; [constructor|]|by apply Hm; [constructor|]|done].
  - exists [], (MkPair R_single_query "" ([] ++ body)), None.
    split_and!; [constructor|by constructor; [constructor|]|by apply Hm; [constructor|]|done].
Qed.

Lemma trees_built :
  (∀ q, wf_query q → ∃ p, g_query p ∧ parse_query p = inr q) ∧
  (∀ l, wf_items l → ∃ nodes, g_items nodes ∧ ∀ items,
    ast_fold (query_step parse_single_query) nodes (items, None) = inr (items ++ l, None)) ∧
  (∀ e, wf_expr e → ∃ body, g_body body ∧ ∀ m pr, ∃ i,
    ast_fold (single_step parse_field_query parse_sub_query (m ++ body)) body (length m, (pr, None)) =
      inr (i, (pr, Some e))) ∧
  (∀ e, wf_value e → ∃ body, g_value body ∧ built_value e body).
Proof.
  apply wf_ind.
  - intros l Hl (nodes & Hg & Hf). exists (MkPair R_query "" nodes). split; [by constructor|].
    rewrite parse_query_eq, Hf. cbn [ast_bind app fst]. unfold ensure_no_dangling_operator.
    by rewrite items_last.
  - intros p e _ He. destruct (item_built p e He) as (neg & s & pr & Hn & Hs & Hp & <-).
    exists (neg ++ [s]). split; [by constructor|]. intros items.
    by rewrite (item_fold neg s pr e) by (done || by apply single_rule).
  - intros p e o l _ He _ (nodes & Hg & Hf). destruct (item_built p e He) as (neg & s & pr & Hn & Hs & Hp & <-).
    set (op := match o with None => [] | Some And => [MkPair R_and_op "" []] | Some Or => [MkPair R_or_op "" []] end).
    exists ((neg ++ [s]) ++ op ++ nodes). split.
    { constructor; try done. unfold op. destruct o as [[]|]; constructor. }
    intros items. rewrite ast_fold_app, (item_fold neg s pr e) by (done || by apply single_rule).
    cbn [ast_bind]. rewrite ast_fold_app.
    assert (∀ i, ast_fold (query_step parse_single_query) op (items ++ [MkItem i e None], None) =
      inr (items ++ [MkItem i e o], None)) as ->.
    { intros i. unfold op. destruct o as [[]|]; cbn [ast_fold query_step as_rule ast_bind fst snd];
        by rewrite ?set_last_snoc. }
    cbn [ast_bind]. rewrite Hf. by rewrite <-app_assoc.
  - intros f e _ (body & Hg & _ & Hf). eexists. split; [by apply (gb_field "" f body)|].
    intros m pr. eexists. unfold ast_fold, single_step. cbn [as_rule]. by rewrite Hf.
  - intros e _ (body & Hg & Hf & _). exists body. split; [by constructor|]. intros m pr. by apply Hf.
  - intros t Ht. destruct (term_tree t Ht) as (p & Hg & Hr & <-). exists [p]. split; [by constructor|].
    destruct p as [? s nodes]. cbn in Hr. subst. split; [intros m pr o; by eexists|done].
  - intros lo hi i b Hb. destruct (range_tree lo hi i b Hb) as (l & Hg & Hl). exists l. by split; [constructor|].
  - intros q b _ (p & Hg & Hp) Hb. destruct (boost_tree b Hb) as (lb & Hlb & <-).
    exists [MkPair R_sub_query "" (p :: lb)]. split; [by constructor|].
    assert (parse_sub_query (MkPair R_sub_query "" (p :: lb)) = inr (SubQuery q (sibling_boost lb 0))) as Hs
      by (rewrite parse_sub_eq, Hp; done).
    split.
    + intros m pr o. eexists. unfold ast_fold, single_step. cbn [as_rule]. by rewrite Hs.
    + intros r s name.
      change (ast_bind (parse_sub_query (MkPair R_sub_query "" (p :: lb))) (λ e, inr (Field name e) : AstResult Expression) =
        inr (Field name (SubQuery q (sibling_boost lb 0)))). by rewrite Hs.
Qed.


Definition u_term (s : string) : Pair := MkPair R_modified_term s [MkPair R_unquoted_term s []].

(** [+a AND (f:[1 TO 2]^2.5 OR NOT b~)]. *)
Definition sample_tree : Pair :=
  let range := [MkPair R_inc_range "[1 TO 2]" [MkPair R_unquoted_term "1" []; MkPair R_unquoted_term "2" []];
                MkPair R_boost "^2.5" []] in
  MkPair R_query "" [
    MkPair R_single_query "+a" [MkPair R_must "+" []; u_term "a"];
    MkPair R_and_op "AND" [];
    MkPair R_single_query "" [MkPair R_sub_query "" [MkPair R_query "" [
      MkPair R_single_query "" [MkPair R_field_query "" (MkPair R_field_name "f" [] :: range)];
      MkPair R_or_op "OR" []; MkPair R_not_op "NOT" [];
      MkPair R_single_query "b~" [MkPair R_modified_term "b~"
        [MkPair R_unquoted_term "b" []; MkPair R_fuzzy_slop "~" []]]]]]].

Definition sample_query : Query :=
  let plain s := MkTerm s false false None None in
  Group [
    MkItem (Some Must) (Term (plain "a")) (Some And);
    MkItem None (SubQuery (Group [
      MkItem None (Field "f" (Range "1" "2" true (f32_parse "2.5"))) (Some Or);
      MkItem (Some Not) (Term (MkTerm "b" false false (Some 2%N) None)) None]) None) None].

Lemma sample_builds : parse_query sample_tree = inr sample_query.
Proof. vm_compute. reflexivity. Qed.

Lemma sample_wf : wf_query sample_query.
Proof.
  assert (∀ s, wf_value (Term (MkTerm s false false None None))) as Hp.
  { intros s. constructor. split; [done|]. split; [done|by left]. }
  constructor. apply wi_more; [apply w_value, Hp|]. apply wi_last, w_value, w_sub; [|by left].
  constructor. apply wi_more.
  - apply w_field, w_range. right. exists (as_bytes "2.5"). split; [|reflexivity].
    right. exists (as_bytes "2"), (as_bytes "5"). split; [reflexivity|].
    split; (split; [done|by repeat constructor]).
  - apply wi_last, w_value, w_term. split; [done|]. split; [done|by left].
Qed.


(** A quoted bound of a range keeps its quotes, unlike a quoted term. *)
Definition quoted (s : string) : string :=
  let q := Ascii.ascii_of_nat 34 in String q (s +:+ String q EmptyString).
Definition quoted_pair (s : string) : Pair :=
  MkPair R_quoted_term (quoted s) [MkPair R_phrase_content s []].

Lemma range_keeps_quotes :
  range_parts (MkPair R_inc_range "" [quoted_pair "a"; quoted_pair "b"]) None true =
    Range (quoted "a") (quoted "b") true None ∧
  te_value (parse_modified_term (MkPair R_modified_term "" [quoted_pair "a"])) = "a".
Proof. split; reflexivity. Qed.
