(* ===== verification/QueryDate.v ===== *)
(** Calendar dates in queries: the ISO-8601 literals of [src/src/query/json.rs],
    their UTC seconds and the intervals they stand for, against the Gregorian
    calendar. *)

From stdpp Require Import options.
From S2P Require Import Prelude Core Query.
#[local] Open Scope Z_scope.

Inductive DatePrecision := Year | Month | Day | Minute | Second.

#[export] Instance DatePrecision_eq_dec : EqDecision DatePrecision.
Proof. solve_decision. Defined.

Definition at_least_month (p : DatePrecision) : bool := negb (bool_decide (p = Year)).

Record DateLit := MkLit {
  dl_ts : Z;
  dl_precision : DatePrecision;
  dl_year : Z;
  dl_month : Z;
}.

Definition SECS_PER_DAY : Z := 86400.

Definition digit (b : bytes) (i : nat) : option Z :=
  b !! i ≫= λ c, if is_ascii_digit c then Some (Z.of_N (Byte.to_N c) - 48) else None.

(** [n] digits from [i] on. *)
Definition digits (b : bytes) (i n : nat) : option Z :=
  foldl (λ acc k, acc ≫= λ acc, digit b (i + k)%nat ≫= λ d, Some (acc * 10 + d)) (Some 0) (seq 0 n).

Definition expect (b : bytes) (i : nat) (c : byte) : option () :=
  if decide (b !! i = Some c) then Some () else None.

(** Integer division truncates. *)
Definition days_from_civil (y m d : Z) : Z :=
  let y := if m <=? 2 then y - 1 else y in
  let era := Z.quot (if 0 <=? y then y else y - 399) 400 in
  let yoe := y - era * 400 in
  let mp := Z.rem (m + 9) 12 in
  let doy := Z.quot (153 * mp + 2) 5 + d - 1 in
  let doe := yoe * 365 + Z.quot yoe 4 - Z.quot yoe 100 + doy in
  era * 146097 + doe - 719468.

Definition next_start (l : DateLit) : Z :=
  match dl_precision l with
  | Year => days_from_civil (dl_year l + 1) 1 1 * SECS_PER_DAY
  | Month =>
      let '(y, m) := if dl_month l =? 12 then (dl_year l + 1, 1) else (dl_year l, dl_month l + 1) in
      days_from_civil y m 1 * SECS_PER_DAY
  | Day => dl_ts l + SECS_PER_DAY
  | Minute => dl_ts l + 60
  | Second => dl_ts l + 1
  end.

Definition parse_ymd (b : bytes) : option (Z * Z * Z) :=
  if decide (length b < 4)%nat then None
  else
    digits b 0 4 ≫= λ year,
    if decide (length b = 4%nat) then Some (year, 1, 1)
    else
      expect b 4 x2d ≫= λ _,
      digits b 5 2 ≫= λ month,
      if negb ((1 <=? month) && (month <=? 12)) then None
      else if decide (length b = 7%nat) then Some (year, month, 1)
      else
        expect b 7 x2d ≫= λ _,
        digits b 8 2 ≫= λ day,
        if negb ((1 <=? day) && (day <=? 31)) then None
        else Some (year, month, day).

(** The digits at the front. *)
Fixpoint digit_run (l : bytes) : nat :=
  match l with
  | c :: l => if is_ascii_digit c then S (digit_run l) else O
  | [] => O
  end.

(** The zone at [i]: what it takes off the seconds. *)
Definition parse_zone (b : bytes) (i : nat) : option Z :=
  match b !! i with
  | None => Some 0
  | Some c =>
      if decide ((c = x5a ∨ c = x7a) ∧ (i + 1 = length b)%nat) then Some 0
      else if decide (c = x2b ∨ c = x2d) then
        digits b (i + 1) 2 ≫= λ oh,
        if (23 <? oh) || negb (bool_decide (b !! (i + 3)%nat = Some x3a)) then None
        else
          digits b (i + 4) 2 ≫= λ om,
          if (59 <? om) || negb (bool_decide ((i + 6)%nat = length b)) then None
          else
            let mag := oh * 3600 + om * 60 in
            Some (if decide (c = x2d) then - mag else mag)
      else None
  end.

(** [b] has more than ten bytes. *)
Definition parse_time_zone (b : bytes) : option (Z * DatePrecision) :=
  if negb (bool_decide (b !! 10%nat = Some x54 ∨ b !! 10%nat = Some x74 ∨ b !! 10%nat = Some x20)) then None
  else
    digits b 11 2 ≫= λ hour,
    if (23 <? hour) || negb (bool_decide (b !! 13%nat = Some x3a)) then None
    else
      digits b 14 2 ≫= λ minute,
      if 59 <? minute then None
      else
        let secs := hour * 3600 + minute * 60 in
        (if decide (b !! 16%nat = Some x3a) then
           digits b 17 2 ≫= λ second,
           if 59 <? second then None else Some (secs + second, Second, 19%nat)
         else Some (secs, Minute, 16%nat)) ≫= λ '(secs, precision, i),
        let i := if decide (b !! i = Some x2e) then (S i + digit_run (drop (S i) b))%nat else i in
        parse_zone b i ≫= λ offset, Some (secs - offset, precision).

Definition parse_date_literal (raw : string) : option DateLit :=
  let b := as_bytes raw in
  parse_ymd b ≫= λ '(year, month, day),
  let precision :=
    if decide (length b ≤ 4)%nat then Year else if decide (length b ≤ 7)%nat then Month else Day in
  let ts := days_from_civil year month day * SECS_PER_DAY in
  if decide (10 < length b)%nat then
    parse_time_zone b ≫= λ '(secs, precision), Some (MkLit (ts + secs) precision year month)
  else Some (MkLit ts precision year month).

Record DateInterval := MkInterval { di_start : Z; di_end : Z }.

Definition date_interval (start end_ : string) (inclusive : bool) : option DateInterval :=
  parse_date_literal start ≫= λ lo,
  parse_date_literal end_ ≫= λ hi,
  Some (MkInterval (if inclusive then dl_ts lo else next_start lo)
                   (if inclusive then next_start hi else dl_ts hi)).

Definition date_term (t : TermExpr) : option DateInterval :=
  if is_quoted t || is_regex t || bool_decide (is_Some (fuzzy_slop t)) then None
  else
    parse_date_literal (te_value t) ≫= λ lit,
    if at_least_month (dl_precision lit) then Some (MkInterval (dl_ts lit) (next_start lit)) else None.

Definition in_interval (i : DateInterval) (ts : Z) : bool := (di_start i <=? ts) && (ts <? di_end i).

(** The string case of [date_leaf_matches]. *)
Definition date_text_matches (text : string) (i : DateInterval) : bool :=
  match parse_date_literal text with Some lit => in_interval i (dl_ts lit) | None => false end.

(** ** The calendar *)

Definition leap (y : Z) : bool :=
  (y mod 4 =? 0) && (negb (y mod 100 =? 0) || (y mod 400 =? 0)).

Definition year_length (y : Z) : Z := if leap y then 366 else 365.

Definition month_length (y m : Z) : Z :=
  if decide (m = 2) then if leap y then 29 else 28
  else if decide (m = 4 ∨ m = 6 ∨ m = 9 ∨ m = 11) then 30 else 31.

(** Days before the year, and in it before the month. *)
Fixpoint days_before_year (y : nat) : Z :=
  match y with
  | O => 0
  | S y => days_before_year y + year_length (Z.of_nat y)
  end.
Fixpoint days_before_month (y : Z) (m : nat) : Z :=
  match m with
  | O => 0
  | S m => days_before_month y m + month_length y (Z.of_nat m + 1)
  end.

(** The number of a day, counted day by day from the start of the year 0. *)
Definition civil_days (y m d : Z) : Z :=
  days_before_year (Z.to_nat y) + days_before_month y (Z.to_nat (m - 1)) + d - 1.

Lemma months_cases (P : Z → Prop) :
  P 1 → P 2 → P 3 → P 4 → P 5 → P 6 → P 7 → P 8 → P 9 → P 10 → P 11 → P 12 →
  ∀ m, 1 ≤ m ≤ 12 → P m.
Proof.
  intros. assert (m = 1 ∨ m = 2 ∨ m = 3 ∨ m = 4 ∨ m = 5 ∨ m = 6 ∨ m = 7 ∨ m = 8 ∨ m = 9 ∨ m = 10 ∨
    m = 11 ∨ m = 12) as Hm by lia. by destruct_or! Hm; subst m.
Qed.

(** The years part of the algorithm: leap days counted by inclusion and exclusion. *)
Definition year_days (y : Z) : Z := 365 * y + y / 4 - y / 100 + y / 400.

Lemma era_days y :
  -1 ≤ y →
  let era := Z.quot (if 0 <=? y then y else y - 399) 400 in
  let yoe := y - era * 400 in
  era * 146097 + (yoe * 365 + Z.quot yoe 4 - Z.quot yoe 100) = year_days y.
Proof.
  intros Hy era yoe. assert (era = y / 400) as Hera.
  { unfold era. destruct (Z.leb_spec 0 y); [by apply Z.quot_div_nonneg; lia|].
    assert (y = -1) as -> by lia. reflexivity. }
  assert (0 ≤ yoe < 400) as Hyoe.
  { unfold yoe. rewrite Hera. pose proof (Z.div_mod y 400) as Hd. pose proof (Z.mod_pos_bound y 400). lia. }
  rewrite !Z.quot_div_nonneg by lia. unfold year_days, yoe in *. rewrite Hera in *. clear era yoe Hera.
  Z.to_euclidean_division_equations. lia.
Qed.

Lemma days_from_civil_eq y m d :
  0 ≤ y → 1 ≤ m ≤ 12 →
  days_from_civil y m d =
    year_days (if m <=? 2 then y - 1 else y) + Z.quot (153 * Z.rem (m + 9) 12 + 2) 5 + d - 719469.
Proof.
  intros Hy Hm. unfold days_from_civil. rewrite <-era_days by (destruct (m <=? 2); lia). lia.
Qed.

Lemma year_days_step y : 0 ≤ y → year_days y = year_days (y - 1) + year_length y.
Proof.
  intros Hy. unfold year_days, year_length, leap.
  destruct (Z.eqb_spec (y mod 4) 0), (Z.eqb_spec (y mod 100) 0), (Z.eqb_spec (y mod 400) 0); cbn [negb andb orb];
    Z.to_euclidean_division_equations; lia.
Qed.

Lemma february y : month_length y 2 = year_length y - 337.
Proof. unfold month_length, year_length. rewrite decide_True by done. destruct (leap y); lia. Qed.

(** Evaluates what depends on the month alone. *)
Ltac compute_month :=
  repeat match goal with
  | |- context [Z.quot ?a 5] => let v := eval vm_compute in (Z.quot a 5) in change (Z.quot a 5) with v
  | |- context [?a <=? 2] => let v := eval vm_compute in (a <=? 2) in change (a <=? 2) with v
  end.

Lemma month_step y m :
  0 ≤ y → 1 ≤ m < 12 → days_from_civil y (m + 1) 1 = days_from_civil y m 1 + month_length y m.
Proof.
  intros Hy Hm. rewrite !days_from_civil_eq by lia. pose proof (year_days_step y Hy) as Hs.
  assert (1 ≤ m ≤ 12) as Hm' by lia. revert m Hm' Hm.
  apply (months_cases (λ m, 1 ≤ m < 12 → _)); intros Hlt; try lia;
    compute_month;
    match goal with |- _ = _ + month_length ?y ?m =>
      first [rewrite february|change (month_length y m) with 30|change (month_length y m) with 31]
    end; lia.
Qed.

Lemma year_step y : 0 ≤ y → days_from_civil (y + 1) 1 1 = days_from_civil y 12 1 + 31.
Proof.
  intros Hy. rewrite !days_from_civil_eq by lia. compute_month. replace (y + 1 - 1) with y by lia. lia.
Qed.

Lemma civil_month_step y m :
  1 ≤ m → civil_days y (m + 1) 1 = civil_days y m 1 + month_length y m.
Proof.
  intros Hm. unfold civil_days. replace (Z.to_nat (m + 1 - 1)) with (S (Z.to_nat (m - 1))) by lia.
  cbn [days_before_month]. replace (Z.of_nat (Z.to_nat (m - 1)) + 1) with m by lia. lia.
Qed.

Lemma civil_year_step y : 0 ≤ y → civil_days (y + 1) 1 1 = civil_days y 12 1 + 31.
Proof.
  intros Hy. unfold civil_days. replace (Z.to_nat (y + 1)) with (S (Z.to_nat y)) by lia.
  cbn [days_before_year]. replace (Z.of_nat (Z.to_nat y)) with y by lia.
  change (Z.to_nat (1 - 1)) with O. change (Z.to_nat (12 - 1)) with 11%nat.
  change (days_before_month y 11) with
    (0 + 31 + month_length y 2 + 31 + 30 + 31 + 30 + 31 + 31 + 30 + 31 + 30).
  rewrite february. cbn [days_before_month]. lia.
Qed.

Lemma civil_months y m :
  0 ≤ y → days_from_civil y 1 1 = civil_days y 1 1 - 719528 → 1 ≤ m ≤ 12 →
  days_from_civil y m 1 = civil_days y m 1 - 719528.
Proof.
  intros Hy H1 Hm. assert (∃ n, m = Z.of_nat n + 1) as [n ->] by (exists (Z.to_nat (m - 1)); lia).
  induction n as [|n IH]; [done|].
  replace (Z.of_nat (S n) + 1) with (Z.of_nat n + 1 + 1) by lia.
  rewrite month_step, civil_month_step, IH by lia. lia.
Qed.

(** The date algorithm counts days: for every year from 0 on, month and day
    number, whether or not the month has that day. *)
Lemma days_from_civil_is (y m d : Z) :
  0 ≤ y → 1 ≤ m ≤ 12 → days_from_civil y m d = civil_days y m d - civil_days 1970 1 1.
Proof.
  intros Hy Hm. assert (civil_days 1970 1 1 = 719528) as -> by (vm_compute; reflexivity).
  assert (days_from_civil y m d = days_from_civil y m 1 + (d - 1)) as ->
    by (rewrite !days_from_civil_eq by done; lia).
  rewrite (civil_months y m Hy); [unfold civil_days; lia| |done].
  assert (∃ n, y = Z.of_nat n) as [n ->] by (exists (Z.to_nat y); lia).
  clear Hy. induction n as [|n IH]; [reflexivity|].
  replace (Z.of_nat (S n)) with (Z.of_nat n + 1) by lia.
  rewrite year_step, civil_year_step, (civil_months _ 12) by (done || lia). lia.
Qed.
