(* ===== verification/QueryDateSpec.v ===== *)
(** Date literals: the texts that parse, what they mean, that they keep within the
    integers of the code, and which instants their intervals hold. *)

From stdpp Require Import options.
From S2P Require Import Prelude Core Query QueryDate.
#[local] Open Scope Z_scope.

(** ** Texts *)

Definition digit_byte (d : Z) : byte := default x30 (Byte.of_N (48 + Z.to_N d)).
Definition show2 (v : Z) : bytes := [digit_byte (v / 10); digit_byte (v mod 10)].
Definition show4 (v : Z) : bytes := show2 (v / 100) ++ show2 (v mod 100).

(** No zone, [Z] or an offset. *)
Inductive Zone :=
| Local
| Utc (c : byte)
| Offset (minus : bool) (oh om : Z).

Record TimeText := MkTime {
  tt_sep : byte;
  tt_hour : Z;
  tt_minute : Z;
  tt_second : option Z;
  tt_frac : option bytes;
  tt_zone : Zone;
}.

Inductive DateText :=
| TYear (y : Z)
| TMonth (y m : Z)
| TDay (y m d : Z)
| TTime (y m d : Z) (t : TimeText).

Definition show_zone (z : Zone) : bytes :=
  match z with
  | Local => []
  | Utc c => [c]
  | Offset minus oh om => (if minus then x2d else x2b) :: show2 oh ++ x3a :: show2 om
  end.

Definition show_fine (s : option Z) (f : option bytes) : bytes :=
  match s with Some s => x3a :: show2 s | None => [] end ++
  match f with Some f => x2e :: f | None => [] end.

Definition show_time (t : TimeText) : bytes :=
  tt_sep t :: show2 (tt_hour t) ++ x3a :: show2 (tt_minute t) ++
  show_fine (tt_second t) (tt_frac t) ++ show_zone (tt_zone t).

Definition show_date (t : DateText) : bytes :=
  match t with
  | TYear y => show4 y
  | TMonth y m => show4 y ++ x2d :: show2 m
  | TDay y m d => show4 y ++ x2d :: show2 m ++ x2d :: show2 d
  | TTime y m d t => show4 y ++ x2d :: show2 m ++ x2d :: show2 d ++ show_time t
  end.

Definition valid_zone (z : Zone) : Prop :=
  match z with
  | Local => True
  | Utc c => c = x5a ∨ c = x7a
  | Offset _ oh om => 0 ≤ oh ≤ 23 ∧ 0 ≤ om ≤ 59
  end.

Definition valid_time (t : TimeText) : Prop :=
  (tt_sep t = x54 ∨ tt_sep t = x74 ∨ tt_sep t = x20) ∧
  0 ≤ tt_hour t ≤ 23 ∧ 0 ≤ tt_minute t ≤ 59 ∧
  match tt_second t with Some s => 0 ≤ s ≤ 59 | None => True end ∧
  match tt_frac t with Some f => Forall (λ b, is_ascii_digit b = true) f | None => True end ∧
  valid_zone (tt_zone t).

Definition valid_ymd (y m d : Z) : Prop := 0 ≤ y ≤ 9999 ∧ 1 ≤ m ≤ 12 ∧ 1 ≤ d ≤ 31.

Definition valid_text (t : DateText) : Prop :=
  match t with
  | TYear y => valid_ymd y 1 1
  | TMonth y m => valid_ymd y m 1
  | TDay y m d => valid_ymd y m d
  | TTime y m d t => valid_ymd y m d ∧ valid_time t
  end.

Definition zone_offset (z : Zone) : Z :=
  match z with
  | Offset minus oh om => (if minus then -1 else 1) * (oh * 3600 + om * 60)
  | _ => 0
  end.

(** Seconds of a calendar date at midnight. *)
Definition midnight (y m d : Z) : Z := (civil_days y m d - civil_days 1970 1 1) * 86400.

Definition time_seconds (t : TimeText) : Z :=
  tt_hour t * 3600 + tt_minute t * 60 + default 0 (tt_second t) - zone_offset (tt_zone t).

Definition date_meaning (t : DateText) : DateLit :=
  match t with
  | TYear y => MkLit (midnight y 1 1) Year y 1
  | TMonth y m => MkLit (midnight y m 1) Month y m
  | TDay y m d => MkLit (midnight y m d) Day y m
  | TTime y m d t =>
      MkLit (midnight y m d + time_seconds t)
        (match tt_second t with Some _ => Second | None => Minute end) y m
  end.

(** ** Digits *)

Lemma digit_value c :
  is_ascii_digit c = true →
  0 ≤ Z.of_N (Byte.to_N c) - 48 < 10 ∧ digit_byte (Z.of_N (Byte.to_N c) - 48) = c.
Proof. intros Hc. destruct c; vm_compute in Hc; try done; (split; [by vm_compute|reflexivity]). Qed.

Lemma digit_byte_value d :
  0 ≤ d < 10 → is_ascii_digit (digit_byte d) = true ∧ Z.of_N (Byte.to_N (digit_byte d)) - 48 = d.
Proof.
  intros Hd. assert (d = 0 ∨ d = 1 ∨ d = 2 ∨ d = 3 ∨ d = 4 ∨ d = 5 ∨ d = 6 ∨ d = 7 ∨ d = 8 ∨ d = 9) as Hc by lia.
  by destruct_or! Hc; subst d.
Qed.

Lemma digit_drop b i k : digit b (i + k) = digit (drop i b) k.
Proof. unfold digit. by rewrite lookup_drop. Qed.

Lemma digits_drop b i n : digits b i n = digits (drop i b) 0 n.
Proof.
  unfold digits. generalize (Some 0). induction (seq 0 n) as [|k l IH]; intros o; [done|]. cbn [foldl].
  rewrite IH. by rewrite digit_drop, Nat.add_0_l.
Qed.

Lemma digit_cons c r : digit (c :: r) 0 = if is_ascii_digit c then Some (Z.of_N (Byte.to_N c) - 48) else None.
Proof. done. Qed.

Lemma digits2_spec b i v : digits b i 2 = Some v ↔ 0 ≤ v < 100 ∧ drop i b = show2 v ++ drop (i + 2) b.
Proof.
  rewrite digits_drop, <-drop_drop. generalize (drop i b) as l. intros l.
  unfold digits. cbn [seq foldl mbind option_bind Nat.add].
  destruct l as [|c0 [|c1 l]].
  - split; [done|by intros [_ ?]].
  - rewrite digit_cons. destruct (is_ascii_digit c0); (split; [done|by intros [_ ?]]).
  - change (digit (c0 :: c1 :: l) 1) with (digit (c1 :: l) 0). rewrite !digit_cons. cbn [drop show2 app].
    destruct (is_ascii_digit c0) eqn:H0, (is_ascii_digit c1) eqn:H1; cbn [mbind option_bind];
      (split; [|intros [Hv [= Hc0 Hc1]]]); try done.
    + intros [= <-]. destruct (digit_value c0 H0) as [Hb0 He0], (digit_value c1 H1) as [Hb1 He1].
      split; [lia|]. set (d0 := Z.of_N (Byte.to_N c0) - 48) in *. set (d1 := Z.of_N (Byte.to_N c1) - 48) in *.
      replace ((0 * 10 + d0) * 10 + d1) with (d1 + d0 * 10) by lia.
      rewrite Z.div_add, Z.mod_add, Z.div_small, Z.mod_small by lia. by rewrite Z.add_0_l, He0, He1.
    + subst c0 c1. assert (0 ≤ v / 10 < 10) as Hd by (Z.to_euclidean_division_equations; lia).
      assert (0 ≤ v mod 10 < 10) as Hm by (by apply Z.mod_pos_bound).
      rewrite (proj2 (digit_byte_value _ Hd)), (proj2 (digit_byte_value _ Hm)). f_equal.
      Z.to_euclidean_division_equations; lia.
    + subst c1. rewrite (proj1 (digit_byte_value _ (Z.mod_pos_bound v 10 eq_refl))) in H1. done.
    + subst c0. assert (0 ≤ v / 10 < 10) as Hd by (Z.to_euclidean_division_equations; lia).
      by rewrite (proj1 (digit_byte_value _ Hd)) in H0.
    + subst c0. assert (0 ≤ v / 10 < 10) as Hd by (Z.to_euclidean_division_equations; lia).
      by rewrite (proj1 (digit_byte_value _ Hd)) in H0.
Qed.

Lemma digits_split b i : digits b i 4 = digits b i 2 ≫= λ hi, digits b (i + 2) 2 ≫= λ lo, Some (hi * 100 + lo).
Proof.
  unfold digits. cbn [seq foldl mbind option_bind]. rewrite !Nat.add_0_r.
  replace (i + 2 + 1)%nat with (i + 3)%nat by lia.
  destruct (digit b i) as [d0|]; [|done]. cbn [mbind option_bind].
  destruct (digit b (i + 1)) as [d1|]; [|done]. cbn [mbind option_bind].
  destruct (digit b (i + 2)) as [d2|]; [|done]. cbn [mbind option_bind].
  destruct (digit b (i + 3)) as [d3|]; [|done]. cbn [mbind option_bind]. f_equal. lia.
Qed.

Lemma digits4_spec b i v : digits b i 4 = Some v ↔ 0 ≤ v < 10000 ∧ drop i b = show4 v ++ drop (i + 4) b.
Proof.
  rewrite digits_split. unfold show4. replace (i + 4)%nat with (i + 2 + 2)%nat by lia. split.
  - intros (hi & Hhi & (lo & Hlo & [= <-])%bind_Some)%bind_Some.
    apply digits2_spec in Hhi as [Hb Hd], Hlo as [Hb' Hd']. split; [lia|].
    replace (hi * 100 + lo) with (lo + hi * 100) by lia.
    rewrite Z.div_add, Z.mod_add, Z.div_small, Z.mod_small by lia. rewrite Z.add_0_l, <-app_assoc, <-Hd'. done.
  - intros [Hv Hd]. rewrite <-app_assoc in Hd.
    assert (drop (i + 2) b = show2 (v mod 100) ++ drop (i + 2 + 2) b) as Hd'.
    { rewrite <-drop_drop, Hd. done. }
    rewrite (proj2 (digits2_spec b i (v / 100))).
    2: { split; [Z.to_euclidean_division_equations; lia|]. by rewrite Hd'. }
    cbn [mbind option_bind]. rewrite (proj2 (digits2_spec b (i + 2) (v mod 100))).
    2: { split; [by apply Z.mod_pos_bound|done]. }
    cbn [mbind option_bind]. f_equal. Z.to_euclidean_division_equations; lia.
Qed.

Lemma lookup_head_drop (b : bytes) i c : b !! i = Some c ↔ drop i b = c :: drop (i + 1) b.
Proof.
  pose proof (lookup_drop b i 0) as Hl. rewrite Nat.add_0_r in Hl. rewrite <-Hl, <-drop_drop.
  generalize (drop i b) as l. intros [|c' l]; (split; [|intros [=]]); [done..| |];
    cbn; rewrite ?drop_0; congruence.
Qed.

Lemma expect_spec b i c : expect b i c = Some () ↔ drop i b = c :: drop (i + 1) b.
Proof. unfold expect. rewrite <-lookup_head_drop. by case_decide. Qed.

(** ** Zones *)

Lemma drop_more (b p r : bytes) i : drop i b = p ++ r → drop (i + length p) b = r.
Proof. intros Hd. by rewrite <-drop_drop, Hd, drop_app_length. Qed.

Lemma drop_whole (b l : bytes) i : (i ≤ length b)%nat → drop i b = l → length b = (i + length l)%nat.
Proof. intros Hi <-. rewrite length_drop. lia. Qed.

Lemma drop_end (b : bytes) i : drop i b = [] → b !! i = None.
Proof. intros Hd. apply lookup_ge_None_2. apply (f_equal length) in Hd. rewrite length_drop in Hd. cbn in Hd. lia. Qed.

Lemma parse_zone_inv b i o :
  parse_zone b i = Some o → ∃ z, valid_zone z ∧ drop i b = show_zone z ∧ o = zone_offset z.
Proof.
  unfold parse_zone. destruct (b !! i) as [c|] eqn:Hc.
  2: { intros [= <-]. exists Local. split; [done|]. split; [|done]. apply drop_ge. by apply lookup_ge_None. }
  apply lookup_head_drop in Hc. case_decide as Hz.
  { intros [= <-]. destruct Hz as [Hz Hlen]. exists (Utc c). split; [done|]. split; [|done].
    rewrite Hc. cbn. by rewrite drop_ge by lia. }
  case_decide as Hs; [|done]. intros (oh & Hoh & Ho)%bind_Some.
  destruct (Z.ltb_spec 23 oh); [done|]. cbn [orb] in Ho.
  destruct (bool_decide (b !! (i + 3)%nat = Some x3a)) eqn:Hsep; [|done]. cbn [negb] in Ho.
  apply bool_decide_eq_true, lookup_head_drop in Hsep.
  apply bind_Some in Ho as (om & Hom & Ho). destruct (Z.ltb_spec 59 om); [done|]. cbn [orb] in Ho.
  destruct (bool_decide ((i + 6)%nat = length b)) eqn:Hlen; [|done]. cbn [negb] in Ho.
  apply bool_decide_eq_true in Hlen. injection Ho as <-.
  apply digits2_spec in Hoh as [Hoh Hdh], Hom as [Hom Hdm].
  exists (Offset (bool_decide (c = x2d)) oh om). split; [cbn; lia|]. split.
  - rewrite Hc, Hdh. replace (i + 1 + 2)%nat with (i + 3)%nat by lia. rewrite Hsep.
    replace (i + 3 + 1)%nat with (i + 4)%nat by lia. rewrite Hdm.
    rewrite drop_ge by lia. cbn [show_zone]. rewrite app_nil_r. f_equal. case_bool_decide; [done|].
    by destruct Hs.
  - cbn [zone_offset]. case_bool_decide; case_decide; try done; lia.
Qed.

Lemma parse_zone_show b i z :
  (i ≤ length b)%nat → valid_zone z → drop i b = show_zone z → parse_zone b i = Some (zone_offset z).
Proof.
  intros Hi Hz Hd. pose proof (drop_whole _ _ _ Hi Hd) as Hlen. unfold parse_zone.
  destruct z as [|c|minus oh om]; cbn [show_zone] in *.
  - by rewrite (drop_end _ _ Hd).
  - assert (b !! i = Some c) as -> by (apply lookup_head_drop; rewrite Hd; f_equal; symmetry; exact (drop_more b [c] [] i Hd)).
    by rewrite decide_True by done.
  - set (s := if minus then x2d else x2b) in *.
    pose proof (drop_more b [s] _ i Hd) as H1. cbn [length] in H1.
    pose proof (drop_more b (show2 oh) _ _ H1) as H3. cbn [length show2] in H3.
    pose proof (drop_more b [x3a] _ _ H3) as H4. cbn [length] in H4.
    pose proof (drop_more b (show2 om) [] _ ltac:(rewrite app_nil_r; exact H4)) as H6. cbn [length show2] in H6.
    replace (i + 1 + 2)%nat with (i + 3)%nat in * by lia. replace (i + 3 + 1)%nat with (i + 4)%nat in * by lia.
    replace (i + 4 + 2)%nat with (i + 6)%nat in * by lia.
    assert (b !! i = Some s) as -> by (apply lookup_head_drop; by rewrite H1).
    assert (¬ (s = x5a ∨ s = x7a)) by (unfold s; destruct minus; by intros [|]).
    rewrite decide_False by naive_solver.
    rewrite decide_True by (unfold s; destruct minus; auto).
    cbn in Hz. rewrite (proj2 (digits2_spec b (i + 1) oh))
      by (split; [lia|]; replace (i + 1 + 2)%nat with (i + 3)%nat by lia; by rewrite H1, H3).
    cbn [mbind option_bind]. rewrite (proj2 (Z.ltb_ge 23 oh)) by lia.
    rewrite bool_decide_eq_true_2 by (apply lookup_head_drop; replace (i + 3 + 1)%nat with (i + 4)%nat by lia; by rewrite H4).
    cbn [negb orb]. rewrite (proj2 (digits2_spec b (i + 4) om))
      by (split; [lia|]; replace (i + 4 + 2)%nat with (i + 6)%nat by lia; by rewrite H6, app_nil_r).
    cbn [mbind option_bind]. rewrite (proj2 (Z.ltb_ge 59 om)) by lia.
    rewrite bool_decide_eq_true_2 by (cbn in Hlen; lia). cbn [negb orb zone_offset]. f_equal.
    unfold s. destruct minus; cbn [decide]; [rewrite decide_True by done|rewrite decide_False by done]; lia.
Qed.

(** ** Times *)

Lemma digit_run_take l : Forall (λ b, is_ascii_digit b = true) (take (digit_run l) l).
Proof.
  induction l as [|c l IH]; [constructor|]. cbn [digit_run].
  destruct (is_ascii_digit c) eqn:Hc; [by constructor|constructor].
Qed.

Lemma digit_run_app f r :
  Forall (λ b, is_ascii_digit b = true) f → (∀ c, head r = Some c → is_ascii_digit c = false) →
  digit_run (f ++ r) = length f.
Proof.
  intros Hf Hr. induction Hf as [|c f Hc _ IH]; cbn [app digit_run length].
  - destruct r as [|c r]; [done|]. cbn [digit_run]. by rewrite Hr.
  - by rewrite Hc, IH.
Qed.

(** Where a fraction at [i] ends. *)
Definition after_fraction (b : bytes) (i : nat) : nat :=
  if decide (b !! i = Some x2e) then (S i + digit_run (drop (S i) b))%nat else i.

Definition show_frac (f : option bytes) : bytes := match f with Some f => x2e :: f | None => [] end.

Lemma after_fraction_inv b i :
  ∃ f, match f with Some f => Forall (λ b, is_ascii_digit b = true) f | None => True end ∧
    drop i b = show_frac f ++ drop (after_fraction b i) b.
Proof.
  unfold after_fraction. case_decide as Hc; [|by exists None].
  exists (Some (take (digit_run (drop (S i) b)) (drop (S i) b))). split; [apply digit_run_take|].
  apply lookup_head_drop in Hc. rewrite Hc. cbn [show_frac app]. f_equal.
  rewrite Nat.add_1_r, <-drop_drop. by rewrite take_drop.
Qed.

Lemma after_fraction_show b i f r :
  match f with Some f => Forall (λ b, is_ascii_digit b = true) f | None => True end →
  (∀ c, head r = Some c → is_ascii_digit c = false ∧ c ≠ x2e) →
  drop i b = show_frac f ++ r → drop (after_fraction b i) b = r.
Proof.
  intros Hf Hr Hd. unfold after_fraction. destruct f as [f|]; cbn [show_frac app] in Hd.
  - pose proof (drop_more b [x2e] _ i Hd) as H1. cbn [length] in H1.
    rewrite decide_True by (apply lookup_head_drop; by rewrite H1).
    rewrite <-(Nat.add_1_r i), H1. rewrite (digit_run_app f r Hf) by (intros c Hc; by apply Hr).
    by apply (drop_more b f r (i + 1)).
  - rewrite decide_False; [done|]. intros Hl%lookup_head_drop. rewrite Hd in Hl. destruct r as [|c r]; [done|].
    injection Hl as -> _. by destruct (Hr x2e eq_refl).
Qed.

Lemma zone_head z c : valid_zone z → head (show_zone z) = Some c → is_ascii_digit c = false ∧ c ≠ x2e ∧ c ≠ x3a.
Proof. destruct z as [|c'|minus oh om]; cbn; [done| |destruct minus]; intros Hz [= <-]; [|done..]. by destruct Hz as [->| ->]. Qed.

Definition time_precision (t : TimeText) : DatePrecision :=
  match tt_second t with Some _ => Second | None => Minute end.

Lemma frac_head f r c :
  head (show_frac f ++ r) = Some c → c = x2e ∨ head r = Some c.
Proof. destruct f; cbn; [intros [= <-]; by left|by right]. Qed.

Lemma parse_time_inv b secs p :
  parse_time_zone b = Some (secs, p) →
  ∃ t, valid_time t ∧ drop 10 b = show_time t ∧ secs = time_seconds t ∧ p = time_precision t.
Proof.
  unfold parse_time_zone. case_bool_decide as Hsep; [|done]. cbn [negb].
  intros (hour & Hh & Ht)%bind_Some. destruct (Z.ltb_spec 23 hour); [done|]. cbn [orb] in Ht.
  case_bool_decide as Hc; [|done]. cbn [negb] in Ht. apply bind_Some in Ht as (minute & Hm & Ht).
  destruct (Z.ltb_spec 59 minute); [done|].
  apply bind_Some in Ht as ([[secs' p'] i] & Hfine & Ht).
  fold (after_fraction b i) in Ht. apply bind_Some in Ht as (off & Hz & [= <- <-]).
  apply parse_zone_inv in Hz as (z & Hz & Hdz & ->).
  apply digits2_spec in Hh as [Hhb Hhd], Hm as [Hmb Hmd]. apply lookup_head_drop in Hc. cbn in Hhd, Hc, Hmd.
  destruct (after_fraction_inv b i) as (f & Hf & Hdf).
  assert (∃ sep, (sep = x54 ∨ sep = x74 ∨ sep = x20) ∧ drop 10 b = sep :: drop 11 b) as (sep & Hsv & Hsd).
  { destruct Hsep as [Hs|[Hs|Hs]]; eexists; (split; [|exact (proj1 (lookup_head_drop _ _ _) Hs)]); auto. }
  assert (drop 10 b = sep :: show2 hour ++ x3a :: show2 minute ++ drop 16 b) as Hpre
    by by rewrite Hsd, Hhd, Hc, Hmd.
  case_decide as Hcs.
  - apply bind_Some in Hfine as (second & Hs & Hfine). destruct (Z.ltb_spec 59 second); [done|].
    injection Hfine as <- <- <-. apply lookup_head_drop in Hcs. apply digits2_spec in Hs as [Hsb Hsd']. cbn in Hcs, Hsd'.
    exists (MkTime sep hour minute (Some second) f z). split; [unfold valid_time; cbn; split_and!; (done || lia)|].
    split; [|split; [unfold time_seconds; cbn [tt_hour tt_minute tt_second tt_zone default from_option id]; lia|done]]. rewrite Hpre. unfold show_time, show_fine. cbn [tt_sep tt_hour tt_minute tt_second tt_frac tt_zone].
    rewrite Hcs, Hsd', Hdf, Hdz. fold (show_frac f). by rewrite <-app_assoc.
  - injection Hfine as <- <- <-. exists (MkTime sep hour minute None f z). split; [unfold valid_time; cbn; split_and!; (done || lia)|].
    split; [|split; [unfold time_seconds; cbn [tt_hour tt_minute tt_second tt_zone default from_option id]; lia|done]]. rewrite Hpre. unfold show_time, show_fine. cbn [tt_sep tt_hour tt_minute tt_second tt_frac tt_zone].
    by rewrite Hdf, Hdz.
Qed.

(** A byte is where the rest says. *)
Ltac at_head H H' := apply lookup_head_drop; cbn [Nat.add]; by rewrite H, H'.

Lemma parse_time_show b t :
  (10 ≤ length b)%nat → valid_time t → drop 10 b = show_time t →
  parse_time_zone b = Some (time_seconds t, time_precision t).
Proof.
  intros Hlen (Hsep & Hh & Hm & Hs & Hf & Hz) Hd. unfold show_time in Hd.
  pose proof (drop_more b [tt_sep t] _ _ Hd) as H11. cbn [length Nat.add] in H11.
  pose proof (drop_more b (show2 (tt_hour t)) _ _ H11) as H13. cbn [length show2 Nat.add] in H13.
  pose proof (drop_more b [x3a] _ _ H13) as H14. cbn [length Nat.add] in H14.
  pose proof (drop_more b (show2 (tt_minute t)) _ _ H14) as H16. cbn [length show2 Nat.add] in H16.
  assert (b !! 10%nat = Some (tt_sep t)) as H10 by (at_head Hd H11).
  unfold parse_time_zone. rewrite bool_decide_eq_true_2 by (rewrite H10; destruct Hsep as [->|[->| ->]]; auto). cbn [negb].
  rewrite (proj2 (digits2_spec b 11 (tt_hour t))) by (split; [lia|]; cbn [Nat.add]; by rewrite H11, H13).
  cbn [mbind option_bind]. rewrite (proj2 (Z.ltb_ge 23 _)) by lia.
  rewrite bool_decide_eq_true_2 by (at_head H13 H14). cbn [negb orb].
  rewrite (proj2 (digits2_spec b 14 (tt_minute t))) by (split; [lia|]; cbn [Nat.add]; by rewrite H14, H16).
  cbn [mbind option_bind]. rewrite (proj2 (Z.ltb_ge 59 _)) by lia.
  unfold show_fine in H16. fold (show_frac (tt_frac t)) in H16.
  assert (∀ i secs (p : DatePrecision), drop i b = show_frac (tt_frac t) ++ show_zone (tt_zone t) → (i ≤ length b)%nat →
    (parse_zone b (after_fraction b i) ≫= λ o, Some (secs - o, p)) = Some (secs - zone_offset (tt_zone t), p)) as Hend.
  { intros i secs p Hdi Hi.
    pose proof (after_fraction_show b i _ _ Hf (λ c Hc, let '(conj H (conj H' _)) := zone_head _ _ Hz Hc in conj H H') Hdi) as Hz'.
    rewrite (parse_zone_show b _ (tt_zone t)); [done| |done|done].
    unfold after_fraction. case_decide; [|done]. pose proof (f_equal length Hz') as Hl. revert Hl.
    unfold after_fraction. rewrite decide_True by done. rewrite length_drop. intros Hl.
    assert (digit_run (drop (S i) b) ≤ length (drop (S i) b))%nat as Hrun.
    { clear. generalize (drop (S i) b). induction l as [|c l IH]; [done|]. cbn. destruct (is_ascii_digit c); cbn; lia. }
    rewrite length_drop in Hrun. assert (i < length b)%nat by (apply lookup_lt_is_Some; by eexists). lia. }
  destruct (tt_second t) as [s|] eqn:Hsec.
  - rewrite <-app_assoc in H16. pose proof (drop_more b [x3a] _ _ H16) as H17. cbn [length Nat.add] in H17.
    pose proof (drop_more b (show2 s) _ _ H17) as H19. cbn [length show2 Nat.add] in H19.
    rewrite decide_True by (at_head H16 H17).
    rewrite (proj2 (digits2_spec b 17 s)) by (split; [lia|]; cbn [Nat.add]; by rewrite H17, H19).
    cbn [mbind option_bind]. rewrite (proj2 (Z.ltb_ge 59 _)) by lia. cbn [mbind option_bind].
    fold (after_fraction b 19). rewrite (Hend 19%nat) by (done || (apply (f_equal length) in H17;
      rewrite length_drop in H17; cbn [length app show2] in H17; lia)).
    unfold time_seconds, time_precision. rewrite Hsec. cbn [default]. done.
  - rewrite decide_False.
    2: { intros Hl%lookup_head_drop. apply (f_equal head) in Hl. rewrite H16 in Hl.
         apply frac_head in Hl as [|Hl]; [done|]. by destruct (zone_head _ _ Hz Hl) as (_ & _ & ?). }
    cbn [mbind option_bind]. fold (after_fraction b 16). rewrite (Hend 16%nat) by (done || (apply (f_equal length) in H14;
      rewrite length_drop in H14; cbn [length app show2] in H14; lia)).
    unfold time_seconds, time_precision. rewrite Hsec. cbn [default]. by rewrite Z.add_0_r.
Qed.

(** ** Dates *)

Lemma parse_ymd_inv b y m d :
  parse_ymd b = Some (y, m, d) →
  valid_ymd y m d ∧
  (b = show4 y ∧ m = 1 ∧ d = 1 ∨ b = show4 y ++ x2d :: show2 m ∧ d = 1 ∨
   b = show4 y ++ x2d :: show2 m ++ x2d :: show2 d ++ drop 10 b).
Proof.
  unfold parse_ymd, valid_ymd. case_decide as Hlen; [done|]. intros (y' & Hy & Hp)%bind_Some.
  apply digits4_spec in Hy as [Hyb Hyd]. rewrite drop_0 in Hyd. cbn [Nat.add] in Hyd. case_decide as H4.
  { injection Hp as <- <- <-. split; [lia|]. left. rewrite drop_ge, app_nil_r in Hyd by lia. done. }
  apply bind_Some in Hp as ([] & He & Hp). apply expect_spec in He. apply bind_Some in Hp as (m' & Hm & Hp).
  apply digits2_spec in Hm as [Hmb Hmd]. cbn [Nat.add] in He, Hmd.
  destruct ((1 <=? m') && (m' <=? 12)) eqn:Hmr; [|done]. cbn [negb] in Hp. case_decide as H7.
  { injection Hp as <- <- <-. split; [lia|]. right; left. split; [|done].
    rewrite Hyd, He, Hmd. by rewrite (drop_ge b 7), app_nil_r by lia. }
  apply bind_Some in Hp as ([] & He7 & Hp). apply expect_spec in He7. apply bind_Some in Hp as (d' & Hd & Hp).
  apply digits2_spec in Hd as [Hdb Hdd]. cbn [Nat.add] in He7, Hdd.
  destruct ((1 <=? d') && (d' <=? 31)) eqn:Hdr; [|done]. injection Hp as <- <- <-.
  split; [lia|]. right; right. by rewrite <-Hdd, <-He7, <-Hmd, <-He, <-Hyd.
Qed.

Lemma parse_ymd_year y : 0 ≤ y ≤ 9999 → parse_ymd (show4 y) = Some (y, 1, 1).
Proof.
  intros Hy. unfold parse_ymd. rewrite decide_False by (cbn; lia).
  rewrite (proj2 (digits4_spec (show4 y) 0 y)) by (split; [lia|by rewrite drop_0]).
  cbn [mbind option_bind]. by rewrite decide_True by done.
Qed.

Lemma parse_ymd_month y m :
  valid_ymd y m 1 → parse_ymd (show4 y ++ x2d :: show2 m) = Some (y, m, 1).
Proof.
  intros (Hy & Hm & _). set (b := show4 y ++ x2d :: show2 m). unfold parse_ymd.
  rewrite decide_False by (cbn; lia).
  rewrite (proj2 (digits4_spec b 0 y)) by (split; [lia|done]). cbn [mbind option_bind].
  rewrite decide_False by done. rewrite (proj2 (expect_spec b 4 x2d)) by done. cbn [mbind option_bind].
  rewrite (proj2 (digits2_spec b 5 m)) by (split; [lia|done]). cbn [mbind option_bind].
  rewrite (proj2 (Z.leb_le 1 m)), (proj2 (Z.leb_le m 12)) by lia. cbn [andb negb].
  by rewrite decide_True by done.
Qed.

Lemma parse_ymd_day y m d r :
  valid_ymd y m d → parse_ymd (show4 y ++ x2d :: show2 m ++ x2d :: show2 d ++ r) = Some (y, m, d).
Proof.
  intros (Hy & Hm & Hd). set (b := show4 y ++ x2d :: show2 m ++ x2d :: show2 d ++ r). unfold parse_ymd.
  rewrite decide_False by (cbn; lia).
  rewrite (proj2 (digits4_spec b 0 y)) by (split; [lia|done]). cbn [mbind option_bind].
  rewrite decide_False by done. rewrite (proj2 (expect_spec b 4 x2d)) by done. cbn [mbind option_bind].
  rewrite (proj2 (digits2_spec b 5 m)) by (split; [lia|done]). cbn [mbind option_bind].
  rewrite (proj2 (Z.leb_le 1 m)), (proj2 (Z.leb_le m 12)) by lia. cbn [andb negb].
  rewrite decide_False by done. rewrite (proj2 (expect_spec b 7 x2d)) by done. cbn [mbind option_bind].
  rewrite (proj2 (digits2_spec b 8 d)) by (split; [lia|done]). cbn [mbind option_bind].
  by rewrite (proj2 (Z.leb_le 1 d)), (proj2 (Z.leb_le d 31)) by lia.
Qed.

(** What a literal is, from its day on. *)
Definition date_body (b : bytes) : option DateLit :=
  parse_ymd b ≫= λ '(y, m, d),
  if decide (10 < length b)%nat then
    (λ '(secs, p), MkLit (midnight y m d + secs) p y m) <$> parse_time_zone b
  else Some (MkLit (midnight y m d)
    (if decide (length b ≤ 4)%nat then Year else if decide (length b ≤ 7)%nat then Month else Day) y m).

Lemma parse_date_body raw : parse_date_literal raw = date_body (as_bytes raw).
Proof.
  unfold parse_date_literal, date_body. destruct (parse_ymd (as_bytes raw)) as [[[y m] d]|] eqn:Hp; [|done].
  apply parse_ymd_inv in Hp as [(Hy & Hm & Hd) _]. cbn [mbind option_bind].
  assert (days_from_civil y m d * SECS_PER_DAY = midnight y m d) as ->.
  { unfold midnight. by rewrite (days_from_civil_is y m d) by lia. }
  case_decide; [|done]. by destruct (parse_time_zone (as_bytes raw)) as [[secs p]|].
Qed.

Lemma date_body_spec b lit :
  date_body b = Some lit ↔ ∃ t, valid_text t ∧ b = show_date t ∧ lit = date_meaning t.
Proof.
  unfold date_body. split.
  - intros ([[y m] d] & Hp & Hl)%bind_Some. apply parse_ymd_inv in Hp as [Hv Hp].
    destruct Hp as [(-> & -> & ->)|[[-> ->]|Hb]].
    + exists (TYear y). split_and!; [done|done|]. by injection Hl as <-.
    + exists (TMonth y m). split_and!; [done|done|]. by injection Hl as <-.
    + pose proof (f_equal length Hb) as Hlen. cbn [length app show4 show2] in Hlen. case_decide as H10.
      * apply fmap_Some in Hl as ([secs p] & Ht & ->). apply parse_time_inv in Ht as (t & Ht & Hd & -> & ->).
        exists (TTime y m d t). split_and!; [done| |done]. cbn [show_date]. by rewrite <-Hd.
      * exists (TDay y m d). split; [done|]. rewrite (drop_ge b 10) in Hb by lia.
        rewrite app_nil_r in Hb. split; [exact Hb|]. injection Hl as <-. by rewrite Hb.
  - intros (t & Hv & -> & ->). destruct t as [y|y m|y m d|y m d t]; cbn [show_date valid_text] in *.
    + rewrite parse_ymd_year by apply Hv. done.
    + rewrite parse_ymd_month by done. done.
    + pose proof (parse_ymd_day y m d [] Hv) as Hp. rewrite app_nil_r in Hp. rewrite Hp. done.
    + destruct Hv as [Hv Ht]. rewrite parse_ymd_day by done. cbn [mbind option_bind].
      rewrite decide_True by (cbn; lia).
      rewrite (parse_time_show _ t); [done|cbn; lia|done|done].
Qed.

Lemma date_literal_intro raw t :
  valid_text t → as_bytes raw = show_date t → parse_date_literal raw = Some (date_meaning t).
Proof. intros Hv Hs. rewrite parse_date_body, date_body_spec. by exists t. Qed.



(** ** Bounds *)

Lemma days_bounds y m d :
  0 ≤ y ≤ 9999 → 1 ≤ m ≤ 12 → 1 ≤ d ≤ 31 → -719528 ≤ days_from_civil y m d ≤ 2932896.
Proof.
  intros Hy Hm Hd. rewrite days_from_civil_eq by lia. unfold year_days. revert m Hm.
  apply (months_cases (λ m, _ ≤ _ ≤ _)); compute_month; Z.to_euclidean_division_equations; lia.
Qed.

Lemma midnight_days y m d : 0 ≤ y → 1 ≤ m ≤ 12 → midnight y m d = days_from_civil y m d * 86400.
Proof. intros Hy Hm. by rewrite days_from_civil_is by lia. Qed.

Lemma month_length_bounds y m : 28 ≤ month_length y m ≤ 31.
Proof. unfold month_length. repeat case_decide; destruct (leap y); lia. Qed.

(** The first second of the month after. *)
Definition month_after (y m : Z) : Z :=
  (if m =? 12 then days_from_civil (y + 1) 1 1 else days_from_civil y (m + 1) 1) * 86400.

Lemma month_after_eq y m :
  0 ≤ y → 1 ≤ m ≤ 12 → month_after y m = midnight y m 1 + month_length y m * 86400.
Proof.
  intros Hy Hm. unfold month_after. rewrite midnight_days by lia. destruct (Z.eqb_spec m 12) as [->|].
  - rewrite year_step by lia. change (month_length y 12) with 31. lia.
  - rewrite month_step by lia. lia.
Qed.

Lemma next_start_month ts y m : next_start (MkLit ts Month y m) = month_after y m.
Proof. unfold next_start, month_after. cbn [dl_precision dl_year dl_month]. by destruct (m =? 12). Qed.

Lemma year_after y : 0 ≤ y → days_from_civil (y + 1) 1 1 = days_from_civil y 1 1 + year_length y.
Proof.
  intros Hy. rewrite !days_from_civil_eq by lia. compute_month. pose proof (year_days_step y Hy).
  replace (y + 1 - 1) with y by lia. lia.
Qed.

Lemma time_bounds t :
  valid_time t →
  -86340 ≤ time_seconds t ≤ 172680 + default 0 (tt_second t) ∧ default 0 (tt_second t) ≤ 59.
Proof.
  intros (_ & Hh & Hm & Hs & _ & Hz). unfold time_seconds.
  assert (0 ≤ default 0 (tt_second t) ≤ 59) by (destruct (tt_second t); cbn; lia).
  assert (-86340 ≤ zone_offset (tt_zone t) ≤ 86340).
  { destruct (tt_zone t) as [|c|minus oh om]; cbn in Hz |- *; [lia..|]. destruct minus; lia. }
  lia.
Qed.

(** C37: Date arithmetic keeps within its integers and every interval of a literal
    is proper.  For every literal that parses, the year after it fits where the
    code adds one, its seconds and those of the start of the next unit are within
    thirteen digits, far from the bounds of [i64], and the next unit starts after
    the literal does. *)
Theorem date_literal_bounds (raw : string) (lit : DateLit) :
  parse_date_literal raw = Some lit →
  0 ≤ dl_year lit ≤ 9999 ∧ 1 ≤ dl_month lit ≤ 12 ∧
  -62167305540 ≤ dl_ts lit < next_start lit ∧ next_start lit ≤ 253402387140.
Proof.
  rewrite parse_date_body. unfold date_body. intros ([[y m] d] & Hp & Hl)%bind_Some.
  apply parse_ymd_inv in Hp as [(Hy & Hm & Hd) Hp]. pose proof (days_bounds y m d Hy Hm Hd) as Hb.
  rewrite midnight_days in Hl by lia. case_decide as H10.
  - apply fmap_Some in Hl as ([secs p] & Ht & ->). apply parse_time_inv in Ht as (t & Ht & _ & -> & ->).
    pose proof (time_bounds t Ht). unfold next_start, time_precision. cbn [dl_year dl_month dl_ts dl_precision].
    destruct (tt_second t); cbn [default from_option id] in *; lia.
  - injection Hl as <-. cbn [dl_year dl_month dl_ts]. do 2 (split; [done|]).
    destruct Hp as [(Hb0 & -> & ->)|[[Hb0 ->]|Hb0]]; pose proof (f_equal length Hb0) as Hlen; cbn in Hlen.
    + rewrite decide_True by lia. unfold next_start. cbn [dl_year dl_precision].
      rewrite (year_after y) by lia. pose proof (days_bounds y 12 31 ltac:(lia) ltac:(lia) ltac:(lia)) as Hb'.
      pose proof (year_step y ltac:(lia)). pose proof (year_after y ltac:(lia)).
      rewrite (days_from_civil_eq y 12 31), (days_from_civil_eq y 12 1) in * by lia.
      unfold year_length, SECS_PER_DAY in *. destruct (leap y); lia.
    + rewrite decide_False, decide_True by lia. rewrite next_start_month, month_after_eq, midnight_days by lia.
      pose proof (month_length_bounds y m). pose proof (days_bounds y m 31 Hy Hm ltac:(lia)) as Hb'.
      rewrite (days_from_civil_eq y m 31), (days_from_civil_eq y m 1) in * by lia. lia.
    + rewrite decide_False, decide_False by lia. unfold next_start. cbn [dl_precision dl_ts]. unfold SECS_PER_DAY. lia.
Qed.

Lemma date_literal_bounds_witness :
  0 ≤ 9999 ≤ 9999 ∧ 1 ≤ 12 ≤ 12 ∧ -62167305540 ≤ 253402387139 < 253402387140 ∧ 253402387140 ≤ 253402387140.
Proof. apply (date_literal_bounds "9999-12-31T23:59:59-23:59" (MkLit 253402387139 Second 9999 12)). vm_compute. reflexivity. Defined.

(** ** Ranges *)

(** A day that its month has. *)
Definition real_day (y m d : Z) : Prop := 0 ≤ y ≤ 9999 ∧ 1 ≤ m ≤ 12 ∧ 1 ≤ d ≤ month_length y m.

(** The unit of [p] that [a] is in is before that of [b]. *)
Definition before (p : DatePrecision) (a b : Z * Z * Z) : Prop :=
  let '(y, m, d) := a in
  let '(y', m', d') := b in
  match p with
  | Year => y < y'
  | Month => y < y' ∨ y = y' ∧ m < m'
  | _ => y < y' ∨ y = y' ∧ (m < m' ∨ m = m' ∧ d < d')
  end.

(** The day, the month or the year that a literal without a time names. *)
Definition unit_date (t : DateText) : option (DatePrecision * (Z * Z * Z)) :=
  match t with
  | TYear y => Some (Year, (y, 1, 1))
  | TMonth y m => Some (Month, (y, m, 1))
  | TDay y m d => Some (Day, (y, m, d))
  | TTime _ _ _ _ => None
  end.

(** Months in a row. *)
Definition month_start (k : Z) : Z := midnight (k / 12) (k mod 12 + 1) 1.

Lemma month_index y m :
  1 ≤ m ≤ 12 → (12 * y + (m - 1)) / 12 = y ∧ (12 * y + (m - 1)) mod 12 + 1 = m.
Proof.
  intros Hm. replace (12 * y + (m - 1)) with (m - 1 + y * 12) by lia.
  rewrite Z.div_add, Z.mod_add, Z.div_small, Z.mod_small by lia. lia.
Qed.

Lemma month_start_of y m : 1 ≤ m ≤ 12 → month_start (12 * y + (m - 1)) = midnight y m 1.
Proof. intros Hm. unfold month_start. by destruct (month_index y m Hm) as [-> ->]. Qed.

Lemma midnight_day y m d : midnight y m d = midnight y m 1 + (d - 1) * 86400.
Proof. unfold midnight, civil_days. lia. Qed.

Lemma month_start_step y m :
  0 ≤ y → 1 ≤ m ≤ 12 → month_start (12 * y + m) = midnight y m 1 + month_length y m * 86400.
Proof.
  intros Hy Hm. rewrite <-month_after_eq by lia. unfold month_after. destruct (Z.eqb_spec m 12) as [->|].
  - replace (12 * y + 12) with (12 * (y + 1) + (1 - 1)) by lia.
    rewrite month_start_of by lia. by rewrite midnight_days by lia.
  - replace (12 * y + m) with (12 * y + ((m + 1) - 1)) by lia.
    rewrite month_start_of by lia. by rewrite midnight_days by lia.
Qed.

Lemma month_start_next k : 0 ≤ k → month_start k ≤ month_start (k + 1).
Proof.
  intros Hk. pose proof (Z.mod_pos_bound k 12 eq_refl) as Hr. pose proof (Z.div_mod k 12 ltac:(lia)) as Hq.
  assert (0 ≤ k / 12) by (apply Z.div_pos; lia).
  pose proof (month_start_step (k / 12) (k mod 12 + 1) ltac:(lia) ltac:(lia)) as Hs.
  replace (12 * (k / 12) + (k mod 12 + 1)) with (k + 1) in Hs by lia. rewrite Hs. fold (month_start k).
  pose proof (month_length_bounds (k / 12) (k mod 12 + 1)). lia.
Qed.

Lemma month_start_mono k k' : 0 ≤ k ≤ k' → month_start k ≤ month_start k'.
Proof.
  intros Hk. assert (∃ n, k' = k + Z.of_nat n) as [n ->] by (exists (Z.to_nat (k' - k)); lia).
  assert (0 ≤ k) as H0 by lia. clear Hk. induction n as [|n IH]; [by rewrite Z.add_0_r|].
  replace (k + Z.of_nat (S n)) with (k + Z.of_nat n + 1) by lia.
  pose proof (month_start_next (k + Z.of_nat n)). lia.
Qed.

(** Where an instant is among the months: in its own. *)
Lemma instant_month y m d s k :
  real_day y m d → 0 ≤ s < 86400 → 0 ≤ k → month_start k ≤ midnight y m d + s ↔ k ≤ 12 * y + (m - 1).
Proof.
  intros (Hy & Hm & Hd) Hs Hk. rewrite midnight_day.
  pose proof (month_start_step y m ltac:(lia) Hm) as Hstep. split.
  - intros Hle. destruct (decide (k ≤ 12 * y + (m - 1))) as [|Hgt]; [done|].
    pose proof (month_start_mono (12 * y + m) k ltac:(lia)). lia.
  - intros Hle. pose proof (month_start_mono k (12 * y + (m - 1)) ltac:(lia)) as H.
    rewrite month_start_of in H by done. lia.
Qed.

(** Where the unit of a literal starts and ends. *)
Lemma unit_bounds t p y m d :
  unit_date t = Some (p, (y, m, d)) → valid_text t → real_day y m d →
  dl_ts (date_meaning t) = midnight y m d ∧
  next_start (date_meaning t) =
    match p with
    | Year => month_start (12 * (y + 1))
    | Month => month_start (12 * y + m)
    | _ => midnight y m d + 86400
    end.
Proof.
  intros Ht Hv (Hy & Hm & Hd). destruct t; cbn in Ht; simplify_eq; (split; [done|]).
  - unfold next_start. cbn [date_meaning dl_precision dl_year].
    replace (12 * (y + 1)) with (12 * (y + 1) + (1 - 1)) by lia.
    by rewrite month_start_of, midnight_days by lia.
  - cbn [date_meaning]. rewrite next_start_month, month_after_eq by lia.
    by rewrite month_start_step by lia.
  - done.
Qed.

Lemma instant_day y m d s y' m' d' :
  real_day y m d → 0 ≤ s < 86400 → real_day y' m' d' →
  midnight y' m' d' ≤ midnight y m d + s ↔ ¬ before Day (y, m, d) (y', m', d').
Proof.
  intros Hr Hs Hr'. pose proof Hr as (Hy & Hm & Hd). pose proof Hr' as (Hy' & Hm' & Hd'). cbn.
  pose proof (instant_month y m d s (12 * y' + (m' - 1)) Hr Hs ltac:(lia)) as H1.
  pose proof (instant_month y' m' d' 0 (12 * y + (m - 1) + 1) Hr' ltac:(lia) ltac:(lia)) as H2.
  rewrite month_start_of in H1 by done. rewrite (midnight_day y' m' d') in *.
  destruct (decide (y = y' ∧ m = m')) as [[-> ->]|Hne]; [rewrite (midnight_day y' m' d) in *; lia|].
  destruct (decide (12 * y' + (m' - 1) < 12 * y + (m - 1))) as [Hlt|Hge].
  - pose proof (instant_month y' m' d' 0 (12 * y + (m - 1)) Hr' ltac:(lia) ltac:(lia)) as H3.
    rewrite month_start_of, (midnight_day y' m' d') in H3 by done. rewrite (midnight_day y m d) in *. lia.
  - assert (¬ (midnight y' m' 1 ≤ midnight y m d + s)) by lia. lia.
Qed.

(** Where an instant is next to the unit of a literal. *)
Lemma instant_unit t p u y m d s :
  unit_date t = Some (p, u) → valid_text t → real_day u.1.1 u.1.2 u.2 →
  real_day y m d → 0 ≤ s < 86400 →
  (dl_ts (date_meaning t) ≤ midnight y m d + s ↔ ¬ before p (y, m, d) u) ∧
  (midnight y m d + s < next_start (date_meaning t) ↔ ¬ before p u (y, m, d)).
Proof.
  destruct u as [[y' m'] d']. cbn [fst snd]. intros Ht Hv Hr' Hr Hs.
  destruct (unit_bounds t p y' m' d' Ht Hv Hr') as [-> ->].
  pose proof Hr as (Hy & Hm & Hd). pose proof Hr' as (Hy' & Hm' & Hd').
  destruct t; cbn in Ht; simplify_eq.
  - pose proof (instant_month y m d s (12 * y' + (1 - 1)) Hr Hs ltac:(lia)) as H1.
    pose proof (instant_month y m d s (12 * (y' + 1)) Hr Hs ltac:(lia)) as H2.
    rewrite month_start_of in H1 by done. cbn. lia.
  - pose proof (instant_month y m d s (12 * y' + (m' - 1)) Hr Hs ltac:(lia)) as H1.
    pose proof (instant_month y m d s (12 * y' + m') Hr Hs ltac:(lia)) as H2.
    rewrite month_start_of in H1 by done. cbn. lia.
  - split; [by apply instant_day|].
    pose proof (instant_day y' m' d' 0 y m d Hr' ltac:(lia) Hr) as H2.
    change (before Day (y', m', d') (y, m, d)) with
      (y' < y ∨ y' = y ∧ (m' < m ∨ m' = m ∧ d' < d)) in *.
    unfold midnight in *. lia.
Qed.

(** The day an instant text names, if it has no offset, and the seconds into it. *)
Definition instant_of (t : DateText) : option (Z * Z * Z * Z) :=
  match t with
  | TYear y => Some (y, 1, 1, 0)
  | TMonth y m => Some (y, m, 1, 0)
  | TDay y m d => Some (y, m, d, 0)
  | TTime y m d t =>
      if decide (zone_offset (tt_zone t) = 0) then Some (y, m, d, time_seconds t) else None
  end.

Lemma instant_of_ts t y m d s :
  valid_text t → instant_of t = Some (y, m, d, s) →
  dl_ts (date_meaning t) = midnight y m d + s ∧ 0 ≤ s < 86400.
Proof.
  intros Hv Hi. destruct t as [y'|y' m'|y' m' d'|y' m' d' t]; cbn in Hi; simplify_eq; [by rewrite Z.add_0_r..|].
  case_decide as Hz; simplify_eq. split; [done|]. destruct Hv as (_ & _ & Hh & Hm & Hs & _ & _).
  unfold time_seconds. rewrite Hz.
  assert (0 ≤ default 0 (tt_second t) ≤ 59) by (destruct (tt_second t); cbn; lia). lia.
Qed.

(** Date ranges are ranges of the calendar.  Between bounds that are years,
    months or days, each in its own precision, an inclusive range holds exactly
    the UTC instants whose unit is not before that of the lower bound and not
    after that of the upper one, and an exclusive range exactly those strictly
    between; the days are those of the Gregorian calendar, leap days included. *)
Theorem date_range_calendar (lo hi : DateText) (inclusive : bool) (start end_ text : string)
    (pl ph : DatePrecision) (ul uh u : Z * Z * Z) (t : DateText) (s : Z) :
  valid_text lo → as_bytes start = show_date lo → unit_date lo = Some (pl, ul) →
  valid_text hi → as_bytes end_ = show_date hi → unit_date hi = Some (ph, uh) →
  valid_text t → as_bytes text = show_date t → instant_of t = Some (u, s) →
  real_day ul.1.1 ul.1.2 ul.2 → real_day uh.1.1 uh.1.2 uh.2 → real_day u.1.1 u.1.2 u.2 →
  ∃ i, date_interval start end_ inclusive = Some i ∧
    (date_text_matches text i = true ↔
     if inclusive then ¬ before pl u ul ∧ ¬ before ph uh u else before pl ul u ∧ before ph u uh).
Proof.
  intros Hlo Hs Hul Hhi He Huh Ht Htx Hi Hrl Hrh Hr.
  unfold date_interval, date_text_matches.
  rewrite (date_literal_intro start lo), (date_literal_intro end_ hi), (date_literal_intro text t) by done.
  cbn [mbind option_bind]. eexists; split; [done|]. destruct u as [[y m] d]. cbn [fst snd] in *.
  destruct (instant_of_ts t y m d s Ht Hi) as [-> Hsec].
  destruct (instant_unit lo pl ul y m d s Hul Hlo Hrl Hr Hsec) as [Hl1 Hl2].
  destruct (instant_unit hi ph uh y m d s Huh Hhi Hrh Hr Hsec) as [Hh1 Hh2].
  unfold in_interval. rewrite andb_true_iff, Z.leb_le, Z.ltb_lt.
  destruct inclusive; cbn [di_start di_end]; [by rewrite Hl1, Hh2|].
  assert (∀ p a b, ¬ ¬ before p a b → before p a b) as Hdec.
  { intros p [[]] [[]]. destruct p; cbn; lia. }
  pose proof (Hdec pl ul (y, m, d)). pose proof (Hdec ph (y, m, d) uh). 
  assert (∀ a b, a ≤ b ↔ ¬ b < a) as Hle by (intros; lia).
  rewrite (Hle (next_start _)), Hl2. rewrite Hle in Hh1.
  clear -Hh1 H H0. destruct (decide (midnight y m d + s < dl_ts (date_meaning hi))); tauto.
Qed.

Lemma date_range_calendar_witness :
  ∃ i, date_interval "2023-12" "2024-02" true = Some i ∧
    (date_text_matches "2024-02-29T23:59:59Z" i = true ↔
     ¬ before Month (2024, 2, 29) (2023, 12, 1) ∧ ¬ before Month (2024, 2, 1) (2024, 2, 29)).
Proof.
  apply (date_range_calendar (TMonth 2023 12) (TMonth 2024 2) true "2023-12" "2024-02"
    "2024-02-29T23:59:59Z" Month Month (2023, 12, 1) (2024, 2, 1) (2024, 2, 29)
    (TTime 2024 2 29 (MkTime x54 23 59 (Some 59) None (Utc x5a))) 86399); try reflexivity;
    cbn; unfold valid_ymd, real_day, valid_time; cbn; split_and!; auto; by vm_compute.
Defined.
