(* ===== verification/QueryEval.v ===== *)
(** The matcher of [src/src/query/json.rs]: a query compiled once and evaluated
    against a JSON document.

    A JSON number, a regular expression, the edit distance and the Unicode tables
    are parameters, stated as classes; a character is its UTF-8 bytes. *)

From stdpp Require Import options.
From S2P Require Import Prelude Core Float Query QueryDate.

(** ** Libraries *)

(** [serde_json::Number]. *)
Class JsonNumbers := {
  Number : Type;
  as_f64 : Number → option f64;
  render_number : Number → string;
}.

(** [regex::Regex]; an error of [Regex::new] is [None]. *)
Class RegexLib := {
  Regex : Type;
  regex_new : string → option Regex;
  is_match : Regex → string → bool;
  regex_escape : string → string;
}.

(** [strsim]. *)
Class EditDistance := { levenshtein : string → string → N }.

(** The tables of the standard library. *)
Class Unicode := {
  is_alphanumeric : string → bool;
  to_lowercase : string → string;
}.

(** ** Text *)

Definition is_continuation (b : byte) : bool := (N.land (Byte.to_N b) 192 =? 128)%N.

(** [str::chars]: every byte that starts a character with those that continue it. *)
Definition char_groups : bytes → list bytes :=
  foldr (λ b gs,
    match gs with
    | (c :: g) :: gs' => if is_continuation c then (b :: c :: g) :: gs' else [b] :: gs
    | _ => [b] :: gs
    end) [].
Definition chars (s : string) : list string := of_bytes <$> char_groups (as_bytes s).

(** [str::split]. *)
Fixpoint split_chars (separator : string → bool) (cs : list string) (current : string) : list string :=
  match cs with
  | [] => [current]
  | c :: cs =>
      if separator c then current :: split_chars separator cs ""
      else split_chars separator cs (current +:+ c)
  end.

(** ** Documents *)

Section value.
Context `{JsonNumbers}.

Inductive Value :=
| Null
| JBool (b : bool)
| JNumber (n : Number)
| JString (s : string)
| JArray (arr : list Value)
| JObject (map : list (string * Value)).

Definition value_as_f64 (v : Value) : option f64 := match v with JNumber n => as_f64 n | _ => None end.
Definition value_as_str (v : Value) : option string := match v with JString s => Some s | _ => None end.

(** [map.get(key).is_some_and(f)]. *)
Definition get_is (f : Value → bool) (key : string) : list (string * Value) → bool :=
  fix go m :=
    match m with
    | [] => false
    | (k, v) :: m => if decide (k = key) then f v else go m
    end.
End value.

(** ** Compiled queries *)

Inductive Bound := BNum (x : f64) | BStr (s : string).

Section compiled.
Context `{RegexLib}.

Inductive TermKind :=
| Glob (re : option Regex)
| Pattern (re : option Regex)
| Contains (needle : string)
| FuzzyToken (target : string) (slop : N).

Inductive CompiledQuery :=
| CQuery (items : list CompiledItem)
with CompiledItem :=
| CItem (prefix : option Prefix) (op : option BinaryOp) (expr : CompiledExpr)
with CompiledExpr :=
| CTerm (kind : TermKind)
| CField (path : list string) (expr : CompiledExpr)
| CRange (start end_ : Bound) (inclusive : bool)
| CDate (interval : DateInterval)
| CSubQuery (query : CompiledQuery).

Definition ci_prefix (i : CompiledItem) : option Prefix := let '(CItem p _ _) := i in p.
Definition ci_op (i : CompiledItem) : option BinaryOp := let '(CItem _ o _) := i in o.
Definition ci_expr (i : CompiledItem) : CompiledExpr := let '(CItem _ _ e) := i in e.
Definition cq_items (q : CompiledQuery) : list CompiledItem := let '(CQuery l) := q in l.
End compiled.

(** ** Compilation *)

Definition parse_bound (raw : string) : Bound :=
  match f64_parse raw with Some x => BNum x | None => BStr raw end.

(** Splits a field name at the dots that no backslash escapes.  Byte by byte: what
    follows the first byte of an escaped character is copied either way. *)
Fixpoint split_field_from (chars : string) (current : string) : list string :=
  match chars with
  | EmptyString => [current]
  | String c chars =>
      if decide (c = backslash) then
        match chars with
        | String escaped chars => split_field_from chars (current +:+ String escaped "")
        | EmptyString => [current]
        end
      else if decide (c = Ascii.ascii_of_nat 46) then current :: split_field_from chars ""
      else split_field_from chars (current +:+ String c "")
  end.
Definition split_field_path (field : string) : list string := split_field_from field "".

Section compile.
Context `{RegexLib} `{Unicode}.

Definition glob_source (pattern : string) : string :=
  "(?is)^" +:+
  foldr (λ c source,
    (if decide (c = "*") then ".*" else if decide (c = "?") then "." else regex_escape c) +:+ source)
    "$" (chars pattern).

Definition glob_regex (pattern : string) : option Regex := regex_new (glob_source pattern).

Definition compile_term (term : TermExpr) : TermKind :=
  if is_regex term then Pattern (regex_new (te_value term))
  else if is_quoted term then Contains (to_lowercase (te_value term))
  else
    match fuzzy_slop term with
    | Some slop => FuzzyToken (to_lowercase (te_value term)) slop
    | None =>
        if str_contains (te_value term) "*" || str_contains (te_value term) "?" then Glob (glob_regex (te_value term))
        else FuzzyToken (to_lowercase (te_value term)) 2
    end.

Fixpoint compile_query (q : Query) : CompiledQuery :=
  let '(Group items) := q in CQuery (map compile_item items)
with compile_item (i : QueryItem) : CompiledItem :=
  let '(MkItem prefix expr op) := i in CItem prefix op (compile_expr expr)
with compile_expr (e : Expression) : CompiledExpr :=
  match e with
  | Term term =>
      match date_term term with
      | Some interval => CDate interval
      | None => CTerm (compile_term term)
      end
  | Field field expr => CField (split_field_path field) (compile_expr expr)
  | Range start end_ inclusive _ =>
      match date_interval start end_ inclusive with
      | Some interval => CDate interval
      | None => CRange (parse_bound start) (parse_bound end_) inclusive
      end
  | SubQuery query _ => CSubQuery (compile_query query)
  end.
End compile.

(** ** Leaves *)

Section leaves.
Context `{JsonNumbers} `{RegexLib} `{Unicode} `{EditDistance}.

Definition tokens_ci (text : string) : list string :=
  filter (.≠ "") (split_chars (λ c, negb (is_alphanumeric c)) (chars text) "").

Definition match_string_kind (kind : TermKind) (text : string) : bool :=
  match kind with
  | Glob (Some re) | Pattern (Some re) => is_match re text
  | Glob None | Pattern None => false
  | Contains needle => str_contains (to_lowercase text) needle
  | FuzzyToken target slop =>
      existsb (λ token, (levenshtein target token <=? slop)%N) (tokens_ci text)
  end.

Definition numeric_literal (kind : TermKind) : option f64 :=
  match kind with
  | Contains text | FuzzyToken text _ => f64_parse text
  | _ => None
  end.

Definition number_matches (kind : TermKind) (value : option f64) (rendered : string) : bool :=
  match value, numeric_literal kind with
  | Some value, Some term_num => SFltb (SFabs (f64_sub value term_num)) F64_EPSILON
  | _, _ => match_string_kind kind rendered
  end.

Definition match_term (kind : TermKind) (val : Value) : bool :=
  match val with
  | JString text => match_string_kind kind text
  | JNumber number => number_matches kind (as_f64 number) (render_number number)
  | JBool flag => number_matches kind None (if flag then "true" else "false")
  | _ => false
  end.

Definition range_matches (start end_ : Bound) (inclusive : bool) (val : Value) : bool :=
  match start, end_ with
  | BNum low, BNum high =>
      match
        match value_as_f64 val with Some v => Some v | None => value_as_str val ≫= f64_parse end
      with
      | Some v => if inclusive then SFleb low v && SFleb v high else SFltb low v && SFltb v high
      | None => false
      end
  | BStr low, BStr high =>
      match value_as_str val with
      | Some v =>
          if inclusive then bool_decide (low ≤ₖ v) && bool_decide (v ≤ₖ high)
          else bool_decide (low <ₖ v) && bool_decide (v <ₖ high)
      | None => false
      end
  | _, _ => false
  end.

Definition date_leaf_matches (val : Value) (interval : DateInterval) : bool :=
  match val with
  | JString text => date_text_matches text interval
  | _ => false
  end.

(** ** Paths *)

Definition check_array_or_leaf (predicate : Value → bool) (val : Value) : bool :=
  match val with
  | JArray arr => existsb predicate arr
  | _ => predicate val
  end.

Fixpoint resolve_path (predicate : Value → bool) (current : Value) (path : list string) : bool :=
  match path with
  | [] => check_array_or_leaf predicate current
  | head :: tail =>
      match current with
      | JObject map => get_is (λ next, resolve_path predicate next tail) head map
      | JArray arr => existsb (λ item, resolve_path predicate item path) arr
      | _ => false
      end
  end.

Fixpoint scan_anywhere (predicate : Value → bool) (doc : Value) : bool :=
  match doc with
  | JObject map => existsb (λ kv, scan_anywhere predicate kv.2) map
  | JArray arr => existsb (scan_anywhere predicate) arr
  | _ => predicate doc
  end.

Definition match_leaf_value (doc : Value) (field_path : list string) (predicate : Value → bool) : bool :=
  match field_path with
  | [] => scan_anywhere predicate doc
  | _ => resolve_path predicate doc field_path
  end.

(** ** Evaluation *)

(** The clauses of a group with operators: a new one after every [Or]. *)
Definition clause_step {A} (op : A → option BinaryOp) (st : list (list A) * list A) (item : A) :
    list (list A) * list A :=
  let clause := st.2 ++ [item] in
  if decide (op item = Some Or) then (st.1 ++ [clause], []) else (st.1, clause).

(** [item_matches] is [eval_item] at the document and the path. *)
Definition eval_boolean {A} (op : A → option BinaryOp) (item_matches : A → bool) (items : list A) : bool :=
  let '(clauses, clause) := foldl (clause_step op) ([], []) items in
  existsb (forallb item_matches) (clauses ++ [clause]).

(** [expr_matches] is [eval_expr] of the item's expression. *)
Definition eval_occurrences {A} (prefix : A → option Prefix) (expr_matches : A → bool) :
    list A → bool → bool → bool :=
  fix go items has_optional optional_matched :=
    match items with
    | [] => negb has_optional || optional_matched
    | item :: items =>
        let matched := expr_matches item in
        match prefix item with
        | Some Must => if matched then go items has_optional optional_matched else false
        | Some MustNot | Some Not => if matched then false else go items has_optional optional_matched
        | None => go items true (optional_matched || matched)
        end
    end.

(** An item's outcome from its expression's. *)
Definition item_outcome (prefix : option Prefix) (matched : bool) : bool :=
  match prefix with
  | Some MustNot | Some Not => negb matched
  | Some Must | None => matched
  end.

(** The items of a group with operators are evaluated before their clauses are
    cut, which keeps the recursion structural; the equation below is the code's. *)
Fixpoint matches_in (q : CompiledQuery) (doc : Value) (current_path : list string) : bool :=
  let '(CQuery items) := q in
  match items with
  | [] => true
  | _ =>
      if existsb (λ item, bool_decide (is_Some (ci_op item))) items then
        eval_boolean fst snd
          (map (λ '(CItem prefix op expr), (op, item_outcome prefix (eval_expr expr doc current_path))) items)
      else
        eval_occurrences ci_prefix (λ '(CItem _ _ expr), eval_expr expr doc current_path) items false false
  end
with eval_expr (e : CompiledExpr) (doc : Value) (current_path : list string) : bool :=
  match e with
  | CTerm kind => match_leaf_value doc current_path (match_term kind)
  | CField path expr => eval_expr expr doc (current_path ++ path)
  | CRange start end_ inclusive => match_leaf_value doc current_path (range_matches start end_ inclusive)
  | CDate interval => match_leaf_value doc current_path (λ val, date_leaf_matches val interval)
  | CSubQuery query => matches_in query doc current_path
  end.

Definition eval_item (doc : Value) (current_path : list string) (item : CompiledItem) : bool :=
  item_outcome (ci_prefix item) (eval_expr (ci_expr item) doc current_path).

Definition eval (query : Query) (doc : Value) : bool := matches_in (compile_query query) doc [].

(** The clauses do not depend on what is kept of the items. *)
Lemma clause_step_map {A B} (f : A → B) (op : B → option BinaryOp) items cs c :
  foldl (clause_step op) (map (map f) cs, map f c) (map f items) =
    prod_map (map (map f)) (map f) (foldl (clause_step (op ∘ f)) (cs, c) items).
Proof.
  revert cs c. induction items as [|i items IH]; intros cs c; [done|]. cbn [foldl map].
  assert (clause_step op (map (map f) cs, map f c) (f i) =
    (map (map f) (clause_step (op ∘ f) (cs, c) i).1, map f (clause_step (op ∘ f) (cs, c) i).2)) as ->.
  { unfold clause_step. cbn [fst snd compose]. change ((op ∘ f) i) with (op (f i)).
    case_decide; cbn [fst snd map]; rewrite map_app; cbn [map]; by rewrite ?map_app. }
  destruct (clause_step (op ∘ f) (cs, c) i) as [cs' c']. apply IH.
Qed.

Lemma eval_boolean_map {A B} (f : A → B) op m items :
  eval_boolean op m (map f items) = eval_boolean (op ∘ f) (m ∘ f) items.
Proof.
  unfold eval_boolean. pose proof (clause_step_map f op items [] []) as Hc. cbn [map] in Hc. rewrite Hc.
  destruct (foldl (clause_step (op ∘ f)) ([], []) items) as [cs c]. cbn [prod_map fst snd].
  change [map f c] with (map (map f) [c]). rewrite <-map_app. generalize (cs ++ [c]) as l.
  induction l as [|x l IH]; [done|]. cbn [map existsb]. rewrite IH. f_equal.
  induction x as [|y x IHx]; [done|]. cbn [map forallb]. by rewrite IHx.
Qed.

Lemma matches_in_eq items doc path :
  matches_in (CQuery items) doc path =
    match items with
    | [] => true
    | _ =>
        if existsb (λ item, bool_decide (is_Some (ci_op item))) items
        then eval_boolean ci_op (eval_item doc path) items
        else eval_occurrences ci_prefix (λ item, eval_expr (ci_expr item) doc path) items false false
    end.
Proof.
  assert (∀ l a b,
    eval_occurrences ci_prefix (λ '(CItem _ _ expr), eval_expr expr doc path) l a b =
    eval_occurrences ci_prefix (λ item, eval_expr (ci_expr item) doc path) l a b) as Hocc.
  { induction l as [|[p o e] l IH]; intros a b; [done|]. cbn. by repeat case_match. }
  destruct items as [|i items]; [done|]. cbn [matches_in]. rewrite eval_boolean_map, Hocc.
  case_match; [|done]. unfold eval_boolean.
  assert (∀ l cs c, foldl (clause_step (fst ∘ λ '(CItem prefix op expr),
      (op, item_outcome prefix (eval_expr expr doc path)))) (cs, c) l = foldl (clause_step ci_op) (cs, c) l) as Hcl.
  { induction l as [|[p o e] l IH]; intros cs c; [done|]. cbn [foldl]. unfold clause_step at 2 4. cbn. case_decide; apply IH. }
  rewrite Hcl. destruct (foldl (clause_step ci_op) ([], []) (i :: items)) as [cs c].
  generalize (cs ++ [c]) as l. induction l as [|x l IH]; [done|]. cbn [existsb]. rewrite IH. f_equal.
  induction x as [|[p o e] x IHx]; [done|]. cbn [forallb]. by rewrite IHx.
Qed.
End leaves.
