(* ===== verification/QueryEvalSpec.v ===== *)
(** What a query asks of a document, stated on its syntax tree without the
    compiled form, and that the matcher decides it; field paths, boosts and the
    places where the matcher departs from its description. *)

From stdpp Require Import options.
From S2P Require Import Prelude OrdMap Core Float Query QueryDate QueryEval.

(** ** Words *)

(** The pieces between separators. *)
Fixpoint pieces {A} (sep : A → bool) (l : list A) : list (list A) :=
  match l with
  | [] => [[]]
  | c :: l =>
      if sep c then [] :: pieces sep l
      else match pieces sep l with p :: ps => (c :: p) :: ps | [] => [[c]] end
  end.

Definition joined (l : list string) : string := foldr (λ a b, a +:+ b) "" l.

(** A piece is a longest run of what does not separate. *)
Definition run_of {A} (sep : A → bool) (l p : list A) : Prop :=
  ∃ pre post, l = pre ++ p ++ post ∧ Forall (λ c, sep c = false) p ∧
    (∀ c, last pre = Some c → sep c = true) ∧ (∀ c, head post = Some c → sep c = true).

Lemma pieces_none {A} (sep : A → bool) l : Forall (λ c, sep c = false) l → pieces sep l = [l].
Proof. induction 1 as [|c l Hc _ IH]; [done|]. cbn [pieces]. by rewrite Hc, IH. Qed.

Lemma pieces_app {A} (sep : A → bool) l s r : sep s = true → pieces sep (l ++ s :: r) = pieces sep l ++ pieces sep r.
Proof.
  intros Hs. induction l as [|c l IH]; cbn [app pieces]; [by rewrite Hs|]. rewrite IH.
  destruct (sep c); [done|]. destruct (pieces sep l) as [|p ps] eqn:Hp; [|done].
  destruct l as [|c' l]; cbn in Hp; [done|]. destruct (sep c'); [done|]. by destruct (pieces sep l).
Qed.

(** A list is one run, or a run up to its first separator. *)
Lemma first_split {A} (sep : A → bool) l :
  Forall (λ c, sep c = false) l ∨
  ∃ p s r, l = p ++ s :: r ∧ Forall (λ c, sep c = false) p ∧ sep s = true.
Proof.
  induction l as [|c l IH]; [by left|]. destruct (sep c) eqn:Hc.
  - right. by exists [], c, l.
  - destruct IH as [IH|(p & s & r & -> & Hp & Hs)]; [left; by constructor|].
    right. exists (c :: p), s, r. split_and!; [done|by constructor|done].
Qed.

Lemma split_ind {A} (sep : A → bool) (P : list A → Prop) :
  (∀ l, Forall (λ c, sep c = false) l → P l) →
  (∀ p s r, Forall (λ c, sep c = false) p → sep s = true → P r → P (p ++ s :: r)) →
  ∀ l, P l.
Proof.
  intros Hnone Hsep l. remember (length l) as n eqn:Hn. revert l Hn.
  induction (Nat.lt_wf_0 n) as [n _ IH]. intros l Hn.
  destruct (first_split sep l) as [Hl|(p & s & r & -> & Hp & Hs)]; [by apply Hnone|].
  apply Hsep; [done..|]. apply (IH (length r)); [|done]. rewrite Hn, length_app. cbn. lia.
Qed.

Lemma elem_of_pieces {A} (sep : A → bool) l p : p ∈ pieces sep l ↔ run_of sep l p.
Proof.
  split.
  - revert p. induction l as [l Hl|l s r Hl Hs IH] using (split_ind sep); intros p.
    + rewrite pieces_none by done. intros ->%list_elem_of_singleton.
      exists [], []. rewrite app_nil_r. by split_and!.
    + rewrite pieces_app, pieces_none by done. cbn [app]. intros [->|Hp]%elem_of_cons.
      * exists [], (s :: r). split_and!; [done|done|done|]. by intros c [= <-].
      * destruct (IH p Hp) as (pre & post & -> & Hf & Hpre & Hpost).
        exists (l ++ s :: pre), post. rewrite <-!app_assoc. split_and!; [done|done| |done].
        intros c Hc. destruct pre as [|c' pre]; [by rewrite last_snoc in Hc; injection Hc as <-|].
        apply Hpre. by rewrite last_app, last_cons_cons in Hc; destruct (last (c' :: pre)) eqn:H;
          [|by apply last_None in H].
  - intros (pre & post & -> & Hf & Hpre & Hpost).
    assert (p ∈ pieces sep (p ++ post)) as Hp.
    { destruct post as [|s post]; [rewrite app_nil_r, pieces_none by done; set_solver|].
      rewrite pieces_app, (pieces_none _ p) by (done || by apply Hpost). set_solver. }
    destruct pre as [|s pre _] using rev_ind; [done|].
    rewrite <-app_assoc. cbn [app]. rewrite pieces_app by (by apply Hpre; rewrite last_snoc). set_solver.
Qed.

Lemma split_chars_pieces sep cs cur :
  ∃ p ps, pieces sep cs = p :: ps ∧ split_chars sep cs cur = (cur +:+ joined p) :: (joined <$> ps).
Proof.
  revert cur. induction cs as [|c cs IH]; intros cur; cbn [pieces split_chars].
  - exists [], []. cbn. by rewrite string_app_nil_r.
  - destruct (sep c).
    + destruct (IH "") as (p & ps & -> & ->). eexists [], _. split; [done|]. cbn.
      by rewrite string_app_nil_r.
    + destruct (IH (cur +:+ c)) as (p & ps & -> & ->). eexists _, _. split; [done|]. cbn.
      by rewrite string_app_assoc.
Qed.

Lemma char_groups_ne l : Forall (.≠ []) (char_groups l).
Proof.
  induction l as [|b l IH]; [constructor|]. unfold char_groups in *. cbn [foldr].
  destruct (foldr _ [] l) as [|[|c g] gs]; [by repeat constructor|by constructor|].
  destruct (is_continuation c); constructor; auto. by inversion_clear IH.
Qed.

(** Nothing is lost between the characters. *)
Lemma char_groups_concat l : concat (char_groups l) = l.
Proof.
  induction l as [|b l IH]; [done|]. unfold char_groups in *. cbn [foldr].
  destruct (foldr _ [] l) as [|[|c g] gs]; [by rewrite <-IH|by rewrite <-IH|].
  destruct (is_continuation c); by rewrite <-IH.
Qed.

Lemma chars_ne s : Forall (.≠ "") (chars s).
Proof.
  unfold chars. apply Forall_fmap. eapply Forall_impl; [apply char_groups_ne|].
  intros g Hg Heq. apply Hg. cbn in Heq. by rewrite <-(as_of_bytes g), Heq.
Qed.

Lemma joined_nil l : Forall (.≠ "") l → joined l = "" ↔ l = [].
Proof.
  intros Hl. destruct Hl as [|s l Hs Hl]; [done|]. cbn. split; [|done]. by destruct s.
Qed.

(** A word of a text: a longest run of alphanumeric characters. *)
Definition word `{Unicode} (text w : string) : Prop :=
  ∃ cs, cs ≠ [] ∧ run_of (λ c, negb (is_alphanumeric c)) (chars text) cs ∧ w = joined cs.

Lemma elem_of_tokens `{Unicode} text w : w ∈ tokens_ci text ↔ word text w.
Proof.
  unfold tokens_ci, word. rewrite list_elem_of_filter.
  destruct (split_chars_pieces (λ c, negb (is_alphanumeric c)) (chars text) "") as (p & ps & Hp & ->).
  change ("" +:+ joined p) with (joined p). change (joined p :: (joined <$> ps)) with (joined <$> (p :: ps)).
  rewrite <-Hp, list_elem_of_fmap.
  assert (∀ cs, run_of (λ c, negb (is_alphanumeric c)) (chars text) cs → joined cs = "" ↔ cs = []) as Hne.
  { intros cs (pre & post & Heq & _). apply joined_nil. pose proof (chars_ne text) as Hc.
    rewrite Heq, !Forall_app in Hc. apply Hc. }
  split.
  - intros (Hw & cs & -> & Hcs%elem_of_pieces). exists cs. split_and!; [|done|done].
    intros ->. by apply Hw.
  - intros (cs & Hcs & Hrun & ->). split; [by rewrite Hne|]. exists cs. by rewrite elem_of_pieces.
Qed.

(** ** Groups *)

(** The clauses of a group with operators: what goes up to and with the first
    [Or], and the clauses of the rest; one clause more when an [Or] is last. *)
Inductive clause_of {A} (op : A → option BinaryOp) : list A → list A → Prop :=
| clause_whole l : Forall (λ i, op i ≠ Some Or) l → clause_of op l l
| clause_first l s r :
    Forall (λ i, op i ≠ Some Or) l → op s = Some Or → clause_of op (l ++ s :: r) (l ++ [s])
| clause_later l s r c :
    Forall (λ i, op i ≠ Some Or) l → op s = Some Or → clause_of op r c → clause_of op (l ++ s :: r) c.

Definition is_or {A} (op : A → option BinaryOp) (i : A) : bool := bool_decide (op i = Some Or).

Lemma not_or {A} (op : A → option BinaryOp) l :
  Forall (λ i, is_or op i = false) l ↔ Forall (λ i, op i ≠ Some Or) l.
Proof. apply Forall_iff. intros i. unfold is_or. apply bool_decide_eq_false. Qed.

Lemma clauses_none {A} (op : A → option BinaryOp) l cs c :
  Forall (λ i, op i ≠ Some Or) l → foldl (clause_step op) (cs, c) l = (cs, c ++ l).
Proof.
  intros Hl. revert c. induction Hl as [|i l Hi _ IH]; intros c; cbn [foldl]; [by rewrite app_nil_r|].
  unfold clause_step at 2. rewrite decide_False by done. cbn [fst snd]. by rewrite IH, <-app_assoc.
Qed.

Lemma clauses_prefix {A} (op : A → option BinaryOp) l cs c :
  foldl (clause_step op) (cs, c) l =
    (cs ++ (foldl (clause_step op) ([], c) l).1, (foldl (clause_step op) ([], c) l).2).
Proof.
  revert cs c. induction l as [|i l IH]; intros cs c; cbn [foldl]; [by rewrite app_nil_r|].
  unfold clause_step at 2 4 6. cbn [fst snd]. case_decide; [|by rewrite IH].
  rewrite IH, (IH ([] ++ _)). cbn [fst snd]. by rewrite <-app_assoc.
Qed.

Lemma clauses_or {A} (op : A → option BinaryOp) l s r :
  Forall (λ i, op i ≠ Some Or) l → op s = Some Or →
  foldl (clause_step op) ([], []) (l ++ s :: r) =
    ((l ++ [s]) :: (foldl (clause_step op) ([], []) r).1, (foldl (clause_step op) ([], []) r).2).
Proof.
  intros Hl Hs. rewrite foldl_app, clauses_none by done. cbn [foldl app].
  unfold clause_step at 2. rewrite decide_True by done. cbn [fst snd app]. by rewrite clauses_prefix.
Qed.

Lemma first_or_unique {A} (op : A → option BinaryOp) l s r l' s' r' :
  Forall (λ i, op i ≠ Some Or) l → Forall (λ i, op i ≠ Some Or) l' →
  op s = Some Or → op s' = Some Or → l ++ s :: r = l' ++ s' :: r' → l = l' ∧ s = s' ∧ r = r'.
Proof.
  intros Hl Hl' Hs Hs' Heq. revert l' Hl' Heq.
  induction Hl as [|i l Hi _ IH]; intros [|j l'] Hl' Heq; cbn in Heq; simplify_eq; [done|..].
  - by inversion_clear Hl'.
  - inversion_clear Hl'. destruct (IH l') as (-> & -> & ->); done.
Qed.

Lemma eval_boolean_spec {A} (op : A → option BinaryOp) m l :
  eval_boolean op m l = true ↔ ∃ c, clause_of op l c ∧ Forall (λ i, m i = true) c.
Proof.
  assert (∀ c : list A, forallb m c = true ↔ Forall (λ i, m i = true) c) as Hall
    by (intros c; rewrite forallb_forall, Forall_forall; by setoid_rewrite <-list_elem_of_In).
  induction l as [l Hl|l s r Hl Hs IH] using (split_ind (is_or op)); apply not_or in Hl.
  - unfold eval_boolean. rewrite clauses_none by done. cbn. rewrite orb_false_r, Hall. split.
    + intros Hm. exists l. split; [by constructor|done].
    + intros (c & Hc & Hm). destruct Hc as [l|l s r _ Hs|l s r c _ Hs _]; [done|..];
        rewrite Forall_app, Forall_cons in Hl; naive_solver.
  - assert (op s = Some Or) as Hs' by (unfold is_or in Hs; by apply bool_decide_eq_true in Hs).
    assert (eval_boolean op m (l ++ s :: r) = forallb m (l ++ [s]) || eval_boolean op m r) as ->.
    { unfold eval_boolean. rewrite clauses_or by done. by destruct (foldl _ _ r). }
    rewrite orb_true_iff, Hall, IH. split.
    + intros [Hm|(c & Hc & Hm)]; eexists; (split; [|exact Hm]); [by apply clause_first|by apply clause_later].
    + intros (c & Hc & Hm).
      remember (l ++ s :: r) as items eqn:Heq.
      destruct Hc as [items Hno|l' s' r' Hl' Hs''|l' s' r' c Hl' Hs'' Hc].
      * subst items. rewrite Forall_app, Forall_cons in Hno. naive_solver.
      * destruct (first_or_unique op _ _ _ _ _ _ Hl' Hl Hs'' Hs' Heq) as (-> & -> & ->). by left.
      * destruct (first_or_unique op _ _ _ _ _ _ Hl' Hl Hs'' Hs' Heq) as (-> & -> & ->). right. by exists c.
Qed.

Lemma eval_boolean_ext {A} (op op' : A → option BinaryOp) m m' l :
  (∀ i, op i = op' i) → (∀ i, m i = m' i) → eval_boolean op m l = eval_boolean op' m' l.
Proof.
  intros Hop Hm. unfold eval_boolean.
  assert (∀ st, foldl (clause_step op) st l = foldl (clause_step op') st l) as ->.
  { induction l as [|i l IH]; intros st; [done|]. cbn [foldl]. rewrite IH. f_equal. unfold clause_step. by rewrite Hop. }
  destruct (foldl (clause_step op') ([], []) l) as [cs c]. generalize (cs ++ [c]) as k.
  induction k as [|x k IH]; [done|]. cbn [existsb]. rewrite IH. f_equal.
  induction x as [|i x IHx]; [done|]. cbn [forallb]. by rewrite Hm, IHx.
Qed.

(** What an item contributes: its prefix, its operator and whether its expression
    holds. *)
Abbreviation outcome := (option Prefix * option BinaryOp * Prop)%type.

Definition holds (o : outcome) : Prop :=
  match o.1.1 with Some MustNot | Some Not => ¬ o.2 | _ => o.2 end.

(** With an operator in it a group is a disjunction of conjunctions; without one
    the required items hold, the prohibited ones do not, and one of the optional
    ones does, if there are any. *)
Definition group_sat (l : list outcome) : Prop :=
  if decide (Exists (λ o : outcome, is_Some o.1.2) l) then
    ∃ c, clause_of (λ o : outcome, o.1.2) l c ∧ Forall holds c
  else
    (∀ o, o ∈ l → o.1.1 ≠ None → holds o) ∧
    ((∀ o, o ∈ l → o.1.1 ≠ None) ∨ ∃ o, o ∈ l ∧ o.1.1 = None ∧ holds o).

Lemma eval_occurrences_spec {A} (prefix : A → option Prefix) m l has matched :
  eval_occurrences prefix m l has matched = true ↔
    (∀ i, i ∈ l → prefix i ≠ None → item_outcome (prefix i) (m i) = true) ∧
    (has = false ∧ (∀ i, i ∈ l → prefix i ≠ None) ∨ matched = true ∨ ∃ i, i ∈ l ∧ prefix i = None ∧ m i = true).
Proof.
  revert has matched. induction l as [|i l IH]; intros has matched; cbn [eval_occurrences].
  - rewrite orb_true_iff, negb_true_iff. setoid_rewrite elem_of_nil. naive_solver.
  - setoid_rewrite elem_of_cons.
    assert (∀ P : A → Prop, (∀ j, j = i ∨ j ∈ l → P j) ↔ P i ∧ ∀ j, j ∈ l → P j) as Hall by naive_solver.
    assert (∀ P : A → Prop, (∃ j, (j = i ∨ j ∈ l) ∧ P j) ↔ P i ∨ ∃ j, j ∈ l ∧ P j) as Hex by naive_solver.
    rewrite !Hall, Hex.
    revert IH. generalize (∀ j, j ∈ l → prefix j ≠ None → item_outcome (prefix j) (m j) = true) as R.
    generalize (∀ j, j ∈ l → prefix j ≠ None) as S. generalize (∃ j, j ∈ l ∧ prefix j = None ∧ m j = true) as T.
    intros T S R IH. clear Hall Hex.
    destruct (prefix i) as [[| |]|], (m i); cbn [item_outcome negb]; rewrite ?IH, ?orb_true_r, ?orb_false_r;
      clear IH; intuition congruence.
Qed.

(** ** Leaves *)

Section leaves.
Context `{JsonNumbers}.

Definition value_nested_ind (P : Value → Prop)
    (Hleaf : ∀ v, match v with JArray _ | JObject _ => False | _ => True end → P v)
    (Harr : ∀ l, Forall P l → P (JArray l))
    (Hobj : ∀ m, Forall (λ kv, P kv.2) m → P (JObject m)) : ∀ v, P v :=
  fix go v :=
    match v with
    | JArray l => Harr l ((fix all (l : list Value) : Forall P l :=
        match l with [] => Forall_nil_2 P | v :: l => Forall_cons_2 P v l (go v) (all l) end) l)
    | JObject m => Hobj m ((fix all (m : list (string * Value)) : Forall (λ kv, P kv.2) m :=
        match m with
        | [] => Forall_nil_2 _
        | kv :: m => Forall_cons_2 (λ kv, P kv.2) kv m (go kv.2) (all m)
        end) m)
    | Null => Hleaf Null I
    | JBool b => Hleaf (JBool b) I
    | JNumber n => Hleaf (JNumber n) I
    | JString s => Hleaf (JString s) I
    end.

(** The values a path leads to: keys are looked up in objects, arrays are entered
    before a key, and at the end the elements of an array count, one level deep. *)
Inductive reaches : Value → list string → Value → Prop :=
| reaches_here v : (∀ l, v ≠ JArray l) → reaches v [] v
| reaches_element l v : v ∈ l → reaches (JArray l) [] v
| reaches_key m k next path v :
    assoc k m = Some next → reaches next path v → reaches (JObject m) (k :: path) v
| reaches_across l item k path v :
    item ∈ l → reaches item (k :: path) v → reaches (JArray l) (k :: path) v.

(** The scalars of a document. *)
Inductive within : Value → Value → Prop :=
| within_here v : match v with JArray _ | JObject _ => False | _ => True end → within v v
| within_array l item v : item ∈ l → within item v → within (JArray l) v
| within_object m k next v : (k, next) ∈ m → within next v → within (JObject m) v.

Definition selects (doc : Value) (path : list string) (v : Value) : Prop :=
  match path with [] => within doc v | _ => reaches doc path v end.

Lemma get_is_assoc f k m : get_is f k m = true ↔ ∃ v, assoc k m = Some v ∧ f v = true.
Proof.
  induction m as [|[k' v] m IH]; cbn [get_is assoc]; [naive_solver|].
  destruct (decide (k' = k)); [|rewrite IH]; case_decide; naive_solver.
Qed.

Lemma existsb_elem {A} (f : A → bool) l : existsb f l = true ↔ ∃ x, x ∈ l ∧ f x = true.
Proof. rewrite existsb_exists. by setoid_rewrite <-list_elem_of_In. Qed.

Lemma resolve_path_spec pred doc path :
  resolve_path pred doc path = true ↔ ∃ v, reaches doc path v ∧ pred v = true.
Proof.
  revert path. induction doc as [v Hv|l IH|m IH] using value_nested_ind; intros [|k path].
  - assert (resolve_path pred v [] = pred v) as -> by by destruct v. split.
    + intros Hp. exists v. split; [|done]. constructor. intros l ->. done.
    + intros (v' & Hr & Hp). by inversion Hr; subst.
  - assert (resolve_path pred v (k :: path) = false) as -> by by destruct v. split; [done|].
    intros (v' & Hr & _). by inversion Hr; subst.
  - cbn. rewrite existsb_elem. split.
    + intros (v & Hv & Hp). exists v. split; [by constructor|done].
    + intros (v & Hr & Hp). inversion Hr as [v' Hne| | |]; subst; [by edestruct Hne|]. by exists v.
  - cbn [resolve_path]. rewrite existsb_elem. rewrite Forall_forall in IH. split.
    + intros (v & Hv & (v' & Hr & Hp)%IH); [|done]. exists v'. split; [by eapply reaches_across|done].
    + intros (v & Hr & Hp). inversion Hr as [| | |l' item k' p' v' Hi Hr']; subst.
      exists item. split; [done|]. apply IH; [done|]. by exists v.
  - cbn. split.
    + intros Hp. exists (JObject m). split; [by constructor|done].
    + intros (v & Hr & Hp). by inversion Hr; subst.
  - cbn [resolve_path]. rewrite get_is_assoc. rewrite Forall_forall in IH. split.
    + intros (next & Hk & Hp). apply (IH (k, next)) in Hp as (v & Hr & Hp); [|by apply assoc_elem].
      exists v. split; [by eapply reaches_key|done].
    + intros (v & Hr & Hp). inversion Hr as [| |m' k' next p' v' Hk Hr'|]; subst.
      exists next. split; [done|]. apply (IH (k, next)); [by apply assoc_elem|]. by exists v.
Qed.

Lemma scan_anywhere_spec pred doc :
  scan_anywhere pred doc = true ↔ ∃ v, within doc v ∧ pred v = true.
Proof.
  induction doc as [v Hv|l IH|m IH] using value_nested_ind.
  - assert (scan_anywhere pred v = pred v) as -> by by destruct v. split.
    + intros Hp. exists v. split; [by constructor|done].
    + intros (v' & Hw & Hp). by inversion Hw; subst.
  - cbn [scan_anywhere]. rewrite existsb_elem. rewrite Forall_forall in IH. split.
    + intros (item & Hi & (v & Hw & Hp)%IH); [|done]. exists v. split; [by eapply within_array|done].
    + intros (v & Hw & Hp). inversion Hw; subst; [done|]. eexists; split; [done|]. apply IH; [done|]. by exists v.
  - cbn [scan_anywhere]. rewrite existsb_elem. rewrite Forall_forall in IH. split.
    + intros ([k next] & Hi & (v & Hw & Hp)%IH); [|done]. exists v. split; [by eapply within_object|done].
    + intros (v & Hw & Hp). inversion Hw; subst; [done|]. eexists (_, _); split; [done|].
      apply (IH (_, _)); [done|]. by exists v.
Qed.

Lemma match_leaf_value_spec doc path pred :
  match_leaf_value doc path pred = true ↔ ∃ v, selects doc path v ∧ pred v = true.
Proof. destruct path; [apply scan_anywhere_spec|apply resolve_path_spec]. Qed.
End leaves.

(** ** What a query asks *)

Section sat.
Context `{JsonNumbers} `{RegexLib} `{Unicode} `{EditDistance}.

(** The text a scalar is compared as. *)
Inductive text_of : Value → string → Prop :=
| text_string s : text_of (JString s) s
| text_number n : text_of (JNumber n) (render_number n)
| text_true : text_of (JBool true) "true"
| text_false : text_of (JBool false) "false".

Definition has_wildcard (s : string) : Prop := ∃ a c b, s = a +:+ c +:+ b ∧ (c = "*" ∨ c = "?").

(** A regular expression searches, a phrase is contained up to case, a wildcard
    is a regular expression, and anything else is near one of the words. *)
Definition text_sat (t : TermExpr) (text : string) : Prop :=
  let near (slop : N) := ∃ w, word text w ∧ (levenshtein (to_lowercase (te_value t)) w ≤ slop)%N in
  if is_regex t then ∃ re, regex_new (te_value t) = Some re ∧ is_match re text = true
  else if is_quoted t then ∃ a b, to_lowercase text = a +:+ to_lowercase (te_value t) +:+ b
  else
    match fuzzy_slop t with
    | Some slop => near slop
    | None =>
        (has_wildcard (te_value t) ∧ ∃ re, glob_regex (te_value t) = Some re ∧ is_match re text = true) ∨
        (¬ has_wildcard (te_value t) ∧ near 2%N)
    end.

(** The number a term stands for: a regular expression and a wildcard stand for none. *)
Definition term_number (t : TermExpr) (x : f64) : Prop :=
  is_regex t = false ∧
  (is_quoted t = true ∨ is_Some (fuzzy_slop t) ∨ ¬ has_wildcard (te_value t)) ∧
  f64_parse (to_lowercase (te_value t)) = Some x.

Definition close (x y : f64) : Prop := SFltb (SFabs (f64_sub x y)) F64_EPSILON = true.

(** Dates compare as intervals, numbers as numbers, and the rest as text. *)
Definition term_sat (t : TermExpr) (v : Value) : Prop :=
  match date_term t with
  | Some i => ∃ s lit, v = JString s ∧ parse_date_literal s = Some lit ∧ (di_start i ≤ dl_ts lit < di_end i)%Z
  | None =>
      (∃ n x y, v = JNumber n ∧ as_f64 n = Some x ∧ term_number t y ∧ close x y) ∨
      (∃ text, text_of v text ∧ text_sat t text ∧
        ¬ ∃ n x y, v = JNumber n ∧ as_f64 n = Some x ∧ term_number t y)
  end.

(** The number of a leaf: a text counts if it reads as one. *)
Inductive leaf_number : Value → f64 → Prop :=
| leaf_number_number n x : as_f64 n = Some x → leaf_number (JNumber n) x
| leaf_number_text s x : f64_parse s = Some x → leaf_number (JString s) x.

(** Bounds that are both dates, both numbers or both neither. *)
Definition range_sat (start end_ : string) (inclusive : bool) (v : Value) : Prop :=
  match date_interval start end_ inclusive with
  | Some i => ∃ s lit, v = JString s ∧ parse_date_literal s = Some lit ∧ (di_start i ≤ dl_ts lit < di_end i)%Z
  | None =>
      (∃ low high x, f64_parse start = Some low ∧ f64_parse end_ = Some high ∧ leaf_number v x ∧
        if inclusive then SFleb low x = true ∧ SFleb x high = true else SFltb low x = true ∧ SFltb x high = true) ∨
      (f64_parse start = None ∧ f64_parse end_ = None ∧
       ∃ s, v = JString s ∧ if inclusive then start ≤ₖ s ∧ s ≤ₖ end_ else start <ₖ s ∧ s <ₖ end_)
  end.

Fixpoint query_sat (q : Query) (path : list string) (doc : Value) : Prop :=
  let '(Group items) := q in
  group_sat (map (λ '(MkItem prefix expr op), (prefix, op, expr_sat expr path doc)) items)
with expr_sat (e : Expression) (path : list string) (doc : Value) : Prop :=
  match e with
  | Term t => ∃ v, selects doc path v ∧ term_sat t v
  | Field field e => expr_sat e (path ++ split_field_path field) doc
  | Range start end_ inclusive _ => ∃ v, selects doc path v ∧ range_sat start end_ inclusive v
  | SubQuery q _ => query_sat q path doc
  end.

(** ** The matcher decides it *)

Lemma has_wildcard_spec s : str_contains s "*" || str_contains s "?" = true ↔ has_wildcard s.
Proof.
  rewrite orb_true_iff, !str_contains_spec. unfold has_wildcard. split.
  - intros [(a & b & ->)|(a & b & ->)]; eexists a, _, b; (split; [done|]); auto.
  - intros (a & c & b & -> & [->| ->]); [left|right]; by exists a, b.
Qed.

Lemma near_spec target slop text :
  existsb (λ token, (levenshtein target token <=? slop)%N) (tokens_ci text) = true ↔
  ∃ w, word text w ∧ (levenshtein target w ≤ slop)%N.
Proof. rewrite existsb_elem. setoid_rewrite elem_of_tokens. by setoid_rewrite N.leb_le. Qed.

Lemma match_string_spec t text : match_string_kind (compile_term t) text = true ↔ text_sat t text.
Proof.
  unfold compile_term, text_sat. destruct (is_regex t).
  { cbn. destruct (regex_new (te_value t)) as [re|]; naive_solver. }
  destruct (is_quoted t); [apply str_contains_spec|].
  destruct (fuzzy_slop t) as [slop|]; [apply near_spec|].
  pose proof (has_wildcard_spec (te_value t)) as Hw.
  destruct (str_contains _ _ || str_contains _ _).
  - cbn. destruct (glob_regex (te_value t)) as [re|]; naive_solver.
  - cbn [match_string_kind]. rewrite near_spec. naive_solver.
Qed.

Lemma numeric_literal_spec t y : numeric_literal (compile_term t) = Some y ↔ term_number t y.
Proof.
  unfold compile_term, term_number. destruct (is_regex t); [cbn; naive_solver|].
  destruct (is_quoted t); [cbn; naive_solver|].
  destruct (fuzzy_slop t) as [slop|]; [cbn; naive_solver|].
  pose proof (has_wildcard_spec (te_value t)) as Hw.
  destruct (str_contains _ _ || str_contains _ _); cbn [numeric_literal].
  - split; [done|]. intros (_ & [?|[[??]|Hn]] & _); [done..|]. by destruct Hn; apply Hw.
  - naive_solver.
Qed.

Lemma match_term_spec t v :
  match_term (compile_term t) v = true ↔
    (∃ n x y, v = JNumber n ∧ as_f64 n = Some x ∧ term_number t y ∧ close x y) ∨
    (∃ text, text_of v text ∧ text_sat t text ∧
      ¬ ∃ n x y, v = JNumber n ∧ as_f64 n = Some x ∧ term_number t y).
Proof.
  setoid_rewrite <-match_string_spec. setoid_rewrite <-numeric_literal_spec. unfold close.
  destruct v as [|b|n|s|l|m]; cbn [match_term number_matches].
  - split; [done|]. intros [(? & ? & ? & ? & _)|(? & Ht & _)]; [done|by inversion Ht].
  - split.
    + intros Hm. right. exists (if b then "true" else "false"). split; [destruct b; constructor|].
      split; [done|naive_solver].
    + intros [(? & ? & ? & ? & _)|(text & Ht & Hm & _)]; [done|]. by inversion Ht; subst.
  - unfold number_matches. destruct (as_f64 n) as [x|] eqn:Hx.
    + destruct (numeric_literal (compile_term t)) as [y|] eqn:Hy.
      * split; [left; naive_solver|]. intros [(? & ? & ? & [= <-] & ? & ? & ?)|(? & _ & _ & Hn)]; [naive_solver|].
        by destruct Hn; eexists n, x, y.
      * split; [right; eexists; split; [constructor|]; naive_solver|].
        intros [?|(text & Ht & Hm & _)]; [naive_solver|]. by inversion Ht; subst.
    + split; [right; eexists; split; [constructor|]; naive_solver|].
      intros [?|(text & Ht & Hm & _)]; [naive_solver|]. by inversion Ht; subst.
  - split; [right; eexists; split; [constructor|]; naive_solver|].
    intros [?|(text & Ht & Hm & _)]; [naive_solver|]. by inversion Ht; subst.
  - split; [done|]. intros [(? & ? & ? & ? & _)|(? & Ht & _)]; [done|by inversion Ht].
  - split; [done|]. intros [(? & ? & ? & ? & _)|(? & Ht & _)]; [done|by inversion Ht].
Qed.

Lemma date_leaf_spec v i :
  date_leaf_matches v i = true ↔
  ∃ s lit, v = JString s ∧ parse_date_literal s = Some lit ∧ (di_start i ≤ dl_ts lit < di_end i)%Z.
Proof.
  destruct v as [| | |s| |]; cbn; try by (split; [done|intros (? & ? & ? & _)]).
  unfold date_text_matches, in_interval. destruct (parse_date_literal s) as [lit|] eqn:Hl.
  - rewrite andb_true_iff, Z.leb_le, Z.ltb_lt. naive_solver.
  - naive_solver.
Qed.

Lemma range_matches_spec start end_ inclusive v :
  range_matches (parse_bound start) (parse_bound end_) inclusive v = true ↔
    (∃ low high x, f64_parse start = Some low ∧ f64_parse end_ = Some high ∧ leaf_number v x ∧
      if inclusive then SFleb low x = true ∧ SFleb x high = true else SFltb low x = true ∧ SFltb x high = true) ∨
    (f64_parse start = None ∧ f64_parse end_ = None ∧
     ∃ s, v = JString s ∧ if inclusive then start ≤ₖ s ∧ s ≤ₖ end_ else start <ₖ s ∧ s <ₖ end_).
Proof.
  unfold parse_bound, range_matches.
  destruct (f64_parse start) as [low|], (f64_parse end_) as [high|]; try naive_solver.
  - assert (∀ x, match match value_as_f64 v with Some v => Some v | None => value_as_str v ≫= f64_parse end with
      Some y => y = x | None => False end ↔ leaf_number v x) as Hv.
    { intros x. destruct v as [| |n|s| |]; cbn; try (split; [done|by inversion 1]).
      - destruct (as_f64 n) as [y|] eqn:Hn; [split; [intros ->; by constructor|inversion 1; congruence]|].
        split; [done|inversion 1; congruence].
      - destruct (f64_parse s) as [y|] eqn:Hn; [split; [intros ->; by constructor|inversion 1; congruence]|].
        split; [done|inversion 1; congruence]. }
    setoid_rewrite <-Hv. destruct (match value_as_f64 v with Some _ => _ | None => _ end) as [x|]; [|naive_solver].
    destruct inclusive; rewrite andb_true_iff; naive_solver.
  - destruct v as [| | |s| |]; cbn; try naive_solver.
    destruct inclusive; rewrite andb_true_iff, !bool_decide_eq_true; naive_solver.
Qed.

Lemma clause_of_elem {A} (op : A → option BinaryOp) l c i : clause_of op l c → i ∈ c → i ∈ l.
Proof.
  induction 1 as [l Hl|l s r Hl Hs|l s r c Hl Hs Hc IH]; [done|set_solver|].
  intros Hi%IH. set_solver.
Qed.

Lemma clause_of_map {A B} (f : A → B) (op : B → option BinaryOp) l c :
  clause_of (op ∘ f) l c → clause_of op (map f l) (map f c).
Proof.
  assert (∀ l, Forall (λ i, (op ∘ f) i ≠ Some Or) l → Forall (λ i, op i ≠ Some Or) (map f l)) as Hno
    by (intros l' Hl'; by apply Forall_fmap).
  induction 1 as [l Hl|l s r Hl Hs|l s r c Hl Hs Hc IH].
  - apply clause_whole. auto.
  - rewrite !map_app. apply clause_first; auto.
  - rewrite map_app. apply clause_later; auto.
Qed.

Lemma clause_of_unmap {A B} (f : A → B) (op : B → option BinaryOp) l c :
  clause_of op (map f l) c → ∃ c', c = map f c' ∧ clause_of (op ∘ f) l c'.
Proof.
  assert (∀ l, Forall (λ i, op i ≠ Some Or) (map f l) → Forall (λ i, (op ∘ f) i ≠ Some Or) l) as Hno
    by (intros l' Hl'; exact (proj1 (Forall_fmap f _ l') Hl')).
  intros Hc. remember (map f l) as fl eqn:Heq. revert l Heq.
  induction Hc as [fl Hl|fl s r Hl Hs|fl s r c Hl Hs Hc IH]; intros l Heq.
  - subst. exists l. split; [done|]. apply clause_whole. auto.
  - symmetry in Heq. apply map_eq_app in Heq as (l1 & l2 & -> & <- & Heq).
    apply map_eq_cons in Heq as (s' & l3 & -> & <- & <-). exists (l1 ++ [s']). rewrite map_app.
    split; [done|]. apply clause_first; auto.
  - symmetry in Heq. apply map_eq_app in Heq as (l1 & l2 & -> & <- & Heq).
    apply map_eq_cons in Heq as (s' & l3 & -> & <- & <-). destruct (IH l3 eq_refl) as (c' & -> & Hc').
    exists c'. split; [done|]. apply clause_later; auto.
Qed.

(** What a group needs of its outcomes, whatever they are computed from. *)
Lemma group_spec {A} (prefix : A → option Prefix) (op : A → option BinaryOp) (m : A → bool) (P : A → Prop) l :
  Forall (λ i, m i = true ↔ P i) l →
  match l with
  | [] => true
  | _ =>
      if existsb (λ i, bool_decide (is_Some (op i))) l
      then eval_boolean op (λ i, item_outcome (prefix i) (m i)) l
      else eval_occurrences prefix m l false false
  end = true ↔ group_sat (map (λ i, (prefix i, op i, P i)) l).
Proof.
  intros Hl. rewrite Forall_forall in Hl.
  assert (∀ i, i ∈ l → item_outcome (prefix i) (m i) = true ↔ holds (prefix i, op i, P i)) as Hout.
  { intros i Hi. specialize (Hl i Hi). unfold holds. cbn [fst snd].
    destruct (prefix i) as [[]|], (m i); cbn; naive_solver. }
  unfold group_sat.
  assert (existsb (λ i, bool_decide (is_Some (op i))) l = true ↔
    Exists (λ o : outcome, is_Some o.1.2) (map (λ i, (prefix i, op i, P i)) l)) as Hex.
  { rewrite existsb_elem, Exists_exists. setoid_rewrite bool_decide_eq_true.
    setoid_rewrite list_elem_of_fmap. naive_solver. }
  assert (∀ b : bool, match l with [] => true | _ => b end = true ↔ l = [] ∨ b = true) as ->
    by (intros b; destruct l; naive_solver).
  case_decide as Hops.
  - rewrite (proj2 Hex Hops), eval_boolean_spec. split.
    + intros [->|(c & Hc & Hf)]; [by inversion Hops|]. exists (map (λ i, (prefix i, op i, P i)) c).
      split; [by apply clause_of_map|]. apply Forall_fmap. rewrite Forall_forall in Hf |- *.
      intros i Hi. apply Hout; [by eapply clause_of_elem|by apply Hf].
    + intros (c & Hc & Hf). right. apply clause_of_unmap in Hc as (c' & -> & Hc).
      exists c'. split; [done|]. apply (proj1 (Forall_fmap (λ i, (prefix i, op i, P i)) _ c')) in Hf. rewrite Forall_forall in Hf |- *.
      intros i Hi. apply Hout; [by eapply clause_of_elem|by apply Hf].
  - assert (existsb (λ i, bool_decide (is_Some (op i))) l = false) as ->
      by (apply not_true_iff_false; by rewrite Hex).
    rewrite eval_occurrences_spec. setoid_rewrite list_elem_of_fmap. split.
    + intros [->|[Hreq Hopt]]; [split; [|left]; intros o (i & _ & Hi); by apply elem_of_nil in Hi|].
      split; [intros o (i & -> & Hi) Hp; apply Hout; by auto|].
      destruct Hopt as [[_ Hopt]|[?|(i & Hi & Hp & Hm)]]; [left|done|right].
      * intros o (i & -> & Hi). by apply Hopt.
      * exists (prefix i, op i, P i). split_and!; [by exists i|done|]. apply Hout; [done|]. by rewrite Hp.
    + intros [Hreq Hopt]. right. split.
      * intros i Hi Hp. apply Hout; [done|]. apply Hreq; [by exists i|done].
      * destruct Hopt as [Hopt|(o & (i & -> & Hi) & Hp & Hh)]; [left|right; right].
        -- split; [done|]. intros i Hi. by apply (Hopt (prefix i, op i, P i)); exists i.
        -- exists i. split_and!; [done|done|]. apply Hout in Hh; [|done]. cbn in Hp. by rewrite Hp in Hh.
Qed.

Section query_ind.
Context (P : Query → Prop) (Q : Expression → Prop).
Context (Hgroup : ∀ items, Forall (λ i, Q (qi_expr i)) items → P (Group items)).
Context (Hterm : ∀ t, Q (Term t)) (Hfield : ∀ f e, Q e → Q (Field f e)).
Context (Hrange : ∀ a b i o, Q (Range a b i o)) (Hsub : ∀ q o, P q → Q (SubQuery q o)).

Fixpoint query_nested (q : Query) : P q :=
  let '(Group items) := q in
  Hgroup items ((fix all (l : list QueryItem) : Forall (λ i, Q (qi_expr i)) l :=
    match l with
    | [] => Forall_nil_2 _
    | MkItem p e o :: l => Forall_cons_2 (λ i, Q (qi_expr i)) (MkItem p e o) l (expr_nested e) (all l)
    end) items)
with expr_nested (e : Expression) : Q e :=
  match e with
  | Term t => Hterm t
  | Field f e => Hfield f e (expr_nested e)
  | Range a b i o => Hrange a b i o
  | SubQuery q o => Hsub q o (query_nested q)
  end.
End query_ind.

Lemma group_items items path doc :
  map (λ i, (qi_prefix i, qi_op i, expr_sat (qi_expr i) path doc)) items =
  map (λ '(MkItem prefix expr op), (prefix, op, expr_sat expr path doc)) items.
Proof. apply map_ext. by intros []. Qed.

Lemma compiled_group items path doc :
  match map compile_item items with
  | [] => true
  | _ =>
      if existsb (λ item, bool_decide (is_Some (ci_op item))) (map compile_item items)
      then eval_boolean ci_op (eval_item doc path) (map compile_item items)
      else eval_occurrences ci_prefix (λ item, eval_expr (ci_expr item) doc path) (map compile_item items) false false
  end =
  match items with
  | [] => true
  | _ =>
      if existsb (λ i, bool_decide (is_Some (qi_op i))) items
      then eval_boolean qi_op (λ i, item_outcome (qi_prefix i) (eval_expr (compile_expr (qi_expr i)) doc path)) items
      else eval_occurrences qi_prefix (λ i, eval_expr (compile_expr (qi_expr i)) doc path) items false false
  end.
Proof.
  assert (existsb (λ item, bool_decide (is_Some (ci_op item))) (map compile_item items) =
    existsb (λ i, bool_decide (is_Some (qi_op i))) items) as ->
    by (induction items as [|[p e o] l IH]; [done|]; cbn; by rewrite IH).
  assert (∀ a b, eval_occurrences ci_prefix (λ item, eval_expr (ci_expr item) doc path) (map compile_item items) a b =
    eval_occurrences qi_prefix (λ i, eval_expr (compile_expr (qi_expr i)) doc path) items a b) as Hocc.
  { induction items as [|[p e o] l IH]; intros a b; [done|]. cbn. rewrite !IH. done. }
  rewrite Hocc, eval_boolean_map. destruct items as [|i items]; [done|]. cbn [map].
  destruct (existsb _ _); [|done]. apply eval_boolean_ext; by intros [].
Qed.

Lemma matches_sat q path doc : matches_in (compile_query q) doc path = true ↔ query_sat q path doc.
Proof.
  revert q path doc.
  apply (query_nested (λ q, ∀ path doc, matches_in (compile_query q) doc path = true ↔ query_sat q path doc)
    (λ e, ∀ path doc, eval_expr (compile_expr e) doc path = true ↔ expr_sat e path doc)).
  - intros items IH path doc. change (compile_query (Group items)) with (CQuery (map compile_item items)).
    cbn [query_sat]. rewrite matches_in_eq.
    rewrite <-(group_items items path doc), <-(group_spec qi_prefix qi_op
      (λ i, eval_expr (compile_expr (qi_expr i)) doc path)) by (eapply Forall_impl; [exact IH|naive_solver]).
    by rewrite (compiled_group items path doc).
  - intros t path doc. cbn [compile_expr expr_sat]. unfold term_sat. destruct (date_term t) as [i|].
    + cbn [eval_expr]. rewrite match_leaf_value_spec. by setoid_rewrite date_leaf_spec.
    + cbn [eval_expr]. rewrite match_leaf_value_spec. by setoid_rewrite match_term_spec.
  - intros f e IH path doc. cbn. apply IH.
  - intros a b i o path doc. cbn [compile_expr expr_sat]. unfold range_sat. destruct (date_interval a b i) as [di|].
    + cbn [eval_expr]. rewrite match_leaf_value_spec. by setoid_rewrite date_leaf_spec.
    + cbn [eval_expr]. rewrite match_leaf_value_spec. by setoid_rewrite range_matches_spec.
  - intros q o IH path doc. cbn. apply IH.
Qed.

End sat.

(** ** Boosts and the slop of phrases *)

Definition unboosted_term (t : TermExpr) : TermExpr :=
  MkTerm (te_value t) (is_quoted t) (is_regex t) (if is_quoted t || is_regex t then None else fuzzy_slop t) None.

Fixpoint unboosted (q : Query) : Query :=
  let '(Group items) := q in
  Group (map (λ '(MkItem prefix expr op), MkItem prefix (unboosted_expr expr) op) items)
with unboosted_expr (e : Expression) : Expression :=
  match e with
  | Term t => Term (unboosted_term t)
  | Field f e => Field f (unboosted_expr e)
  | Range a b i _ => Range a b i None
  | SubQuery q _ => SubQuery (unboosted q) None
  end.

Section boosts.
Context `{JsonNumbers} `{RegexLib} `{Unicode} `{EditDistance}.

Lemma unboosted_term_compiles t :
  date_term (unboosted_term t) = date_term t ∧ compile_term (unboosted_term t) = compile_term t.
Proof. destruct t as [v [] [] slop boost]; (split; [|done]); done. Qed.

Lemma unboosted_compiles q : compile_query (unboosted q) = compile_query q.
Proof.
  revert q. apply (query_nested (λ q, compile_query (unboosted q) = compile_query q)
    (λ e, compile_expr (unboosted_expr e) = compile_expr e)).
  - intros items IH.
    change (CQuery (map compile_item (map (λ '(MkItem p e o), MkItem p (unboosted_expr e) o) items)) =
      CQuery (map compile_item items)).
    f_equal. rewrite map_map. induction IH as [|[p e o] l He _ IH]; [done|]. cbn [map]. f_equal; [|exact IH].
    change (CItem p o (compile_expr (unboosted_expr e)) = CItem p o (compile_expr e)).
    cbn [qi_expr] in He. by rewrite He.
  - intros t. cbn. by destruct (unboosted_term_compiles t) as [-> ->].
  - intros f e IH. change (CField (split_field_path f) (compile_expr (unboosted_expr e)) =
      CField (split_field_path f) (compile_expr e)). by rewrite IH.
  - done.
  - intros q o IH. change (CSubQuery (compile_query (unboosted q)) = CSubQuery (compile_query q)). by rewrite IH.
Qed.

(** Boosts, and the slop of a phrase, have no influence on whether a document
    matches: without them every query gives the same answer on every document. *)
Theorem boosts_do_not_matter (q : Query) (doc : Value) : eval (unboosted q) doc = eval q doc.
Proof. unfold eval. by rewrite unboosted_compiles. Qed.
End boosts.

(** ** Field paths *)

Abbreviation dot := (Ascii.ascii_of_nat 46).

Fixpoint escape_segment (s : string) : string :=
  match s with
  | EmptyString => EmptyString
  | String c s =>
      if decide (c = backslash ∨ c = dot) then String backslash (String c (escape_segment s))
      else String c (escape_segment s)
  end.

Fixpoint join_path (l : list string) : string :=
  match l with
  | [] => ""
  | [s] => escape_segment s
  | s :: l => escape_segment s +:+ String dot (join_path l)
  end.

Lemma split_escaped s rest current :
  split_field_from (escape_segment s +:+ rest) current = split_field_from rest (current +:+ s).
Proof.
  revert current. induction s as [|c s IH]; intros current; [by rewrite string_app_nil_r|].
  cbn [escape_segment]. case_decide as Hc.
  - change ((String backslash (String c (escape_segment s))) +:+ rest) with
      (String backslash (String c (escape_segment s +:+ rest))).
    cbn [split_field_from]. rewrite decide_True by done. rewrite IH. by rewrite string_app_assoc.
  - change ((String c (escape_segment s)) +:+ rest) with (String c (escape_segment s +:+ rest)).
    cbn [split_field_from]. rewrite !decide_False by tauto. rewrite IH. by rewrite string_app_assoc.
Qed.

Lemma split_join l current :
  l ≠ [] → split_field_from (join_path l) current = match l with s :: l => (current +:+ s) :: l | [] => [] end.
Proof.
  revert current. induction l as [|s l IH]; intros current Hne; [done|]. destruct l as [|s' l].
  - cbn [join_path]. by rewrite <-(string_app_nil_r (escape_segment s)), split_escaped.
  - change (join_path (s :: s' :: l)) with (escape_segment s +:+ String dot (join_path (s' :: l))).
    rewrite split_escaped. cbn [split_field_from]. rewrite decide_False by done. rewrite decide_True by done.
    by rewrite IH by done.
Qed.

(** Every path of keys can be written as a field name: with the dots and the
    backslashes of its keys escaped and its keys joined by dots, it is split into
    those keys again, whatever is in them, the empty key included. *)
Theorem field_path_round_trip (segments : list string) :
  segments ≠ [] → split_field_path (join_path segments) = segments.
Proof. intros Hne. unfold split_field_path. rewrite split_join by done. by destruct segments. Qed.

Lemma field_path_round_trip_witness :
  split_field_path (join_path ["a.b"; ""; "c\d"]) = ["a.b"; ""; "c\d"] ∧
  join_path ["a.b"; ""; "c\d"] = "a\.b..c\\d".
Proof. split; [apply field_path_round_trip; discriminate|reflexivity]. Defined.

(** ** Examples *)

(** Concrete libraries: integers, patterns that match only themselves, ASCII, and
    the edit distance row by row. *)
Definition Z_numbers : JsonNumbers := {|
  Number := Z;
  as_f64 z := Some (binary_normalize 53 1024 z 0 false);
  render_number z := pretty z;
|}.

Definition literal_regex : RegexLib := {|
  Regex := string;
  regex_new s := Some s;
  is_match re text := bool_decide (re = text);
  regex_escape s := s;
|}.

Definition ascii_unicode : Unicode := {|
  is_alphanumeric s :=
    match as_bytes (of_bytes (ascii_lower <$> as_bytes s)) with
    | [b] => is_ascii_digit b || ((97 <=? Byte.to_N b) && (Byte.to_N b <=? 122))%N
    | _ => false
    end;
  to_lowercase s := of_bytes (ascii_lower <$> as_bytes s);
|}.

(** The row of distances after one character more of the first text. *)
Definition next_row (c : byte) (b : bytes) (row : list N) : list N :=
  let start := (default 0 (head row) + 1)%N in
  start :: (fix go (b : bytes) (row : list N) (left : N) : list N :=
    match b, row with
    | d :: b, diag :: ((up :: _) as row') =>
        let v := N.min (N.min (left + 1) (up + 1)) (if decide (c = d) then diag else diag + 1) in
        v :: go b row' v
    | _, _ => []
    end%N) b row start.

Definition row_distance : EditDistance := {|
  levenshtein a b :=
    default 0%N (last (foldl (λ row c, next_row c (as_bytes b) row)
      (N.of_nat <$> seq 0 (S (length (as_bytes b)))) (as_bytes a)));
|}.

Section examples.
#[local] Existing Instance Z_numbers.
#[local] Existing Instance literal_regex.
#[local] Existing Instance ascii_unicode.
#[local] Existing Instance row_distance.

Definition bare (s : string) : Expression := Term (MkTerm s false false None None).
Definition item (prefix : option Prefix) (field value : string) (op : option BinaryOp) : QueryItem :=
  MkItem prefix (Field field (bare value)) op.

Definition sample_doc : Value :=
  JObject [("name", JString "Ada Lovelace"); ("born", JString "1815-12-10");
           ("age", JNumber 36%Z); ("tags", JArray [JString "math"; JArray [JString "deep"]])].

Lemma distances : levenshtein "kitten" "sitting" = 3%N ∧ levenshtein "" "abc" = 3%N ∧ levenshtein "rust" "rust" = 0%N.
Proof. by vm_compute. Qed.

Lemma sample_matches :
  eval (Group [item None "name" "lovelase" (Some And); item None "born" "1815-12" None]) sample_doc = true ∧
  eval (Group [item (Some Must) "age" "36.0" None; item (Some MustNot) "tags" "math" None]) sample_doc = false.
Proof. by vm_compute. Qed.

(** The words of a text keep their case while the term's word loses it: a text in
    capitals is not found, not even by the same capitals. *)
Lemma capitals_not_found :
  eval (Group [MkItem None (bare "BERLIN") None]) (JString "BERLIN") = false ∧
  eval (Group [MkItem None (bare "berlin") None]) (JString "BERLIN") = false ∧
  eval (Group [MkItem None (Term (MkTerm "BERLIN" true false None None)) None]) (JString "BERLIN") = true.
Proof. by vm_compute. Qed.

(** In a group with an operator somewhere, items without one between them are
    joined by [AND], not by [OR]. *)
Lemma missing_operator_is_and :
  let doc := JObject [("a", JString "alpha"); ("b", JString "beta"); ("c", JString "gamma")] in
  let first := item None "a" "alpha" in
  let rest := [item None "b" "nothing" (Some And); item None "c" "nothing" None] in
  eval (Group (first None :: rest)) doc = false ∧ eval (Group (first (Some Or) :: rest)) doc = true ∧
  eval (Group (first (Some And) :: rest)) doc = false.
Proof. by vm_compute. Qed.

(** An array in an array is entered before a key and without a path, but not at
    the end of a path. *)
Lemma nested_array_missed :
  eval (Group [item None "tags" "deep" None]) sample_doc = false ∧
  eval (Group [MkItem None (bare "deep") None]) sample_doc = true ∧
  eval (Group [item None "a.b" "deep" None]) (JObject [("a", JArray [JArray [JObject [("b", JString "deep")]]])]) = true.
Proof. by vm_compute. Qed.
End examples.
