(* ===== verification/Gets.v ===== *)
(** The [GetSetExt] trait of [src/src/store/mod.rs]: values stored as JSON, and the
    pages of entries a query selects, over any backend. *)

From stdpp Require Import options.
From S2P Require Import Prelude OrdMap Core Hooks BTree BTreeSpec.
From S2P Require Import Json Float Query QuerySpec QueryDate QueryEval QueryEvalSpec.

(** [serde::Serialize] and [serde::de::DeserializeOwned]; an error is its
    rendered message. *)
Class Serde (T : Type) := {
  serialize : T → string + bytes;
  deserialize : bytes → string + T;
}.

Definition serde_result {A} (r : string + A) : Result A :=
  match r with inl e => Err (Core.Json e) | inr a => Ok a end.

Definition BATCH_SIZE : N := 256.

Section ext.
Context {S : Type} `{GetSet S}.

Section typed.
Context {T : Type} `{Serde T}.

Definition set (k : string) (v : T) : Op S (option T) :=
  let! json := op_lift (serde_result (serialize v)) in
  let! prev := set_bytes k json in
  match prev with
  | Some prev => let! p := op_lift (serde_result (deserialize prev)) in op_ret (Some p)
  | None => op_ret None
  end.

Definition put (k : string) (v : T) : Op S () :=
  let! json := op_lift (serde_result (serialize v)) in
  put_bytes k json.

Definition get (k : string) : Op S (option T) :=
  let! json := get_bytes k in
  match json with
  | Some json => let! v := op_lift (serde_result (deserialize json)) in op_ret (Some v)
  | None => op_ret None
  end.
End typed.

Section gets.
Context `{Lucene} `{JsonNumbers} `{RegexLib} `{Unicode} `{EditDistance} `{!Json Value}.

Definition entry_matches (ast : Query) (kv : KeyValue) : bool :=
  match from_slice (value kv) with inr v => eval ast v | inl _ => false end.

(** The entries of a batch, up to the last that [max_results] allows. *)
Fixpoint scan_batch (ast : Query) (max_results : N) (page_cursor : option string)
    (batch : list KeyValue) (results : list KeyValue) : list KeyValue :=
  match batch with
  | [] => results
  | kv :: batch =>
      if decide (page_cursor = Some (key kv)) then scan_batch ast max_results page_cursor batch results
      else if entry_matches ast kv then
        let results := results ++ [kv] in
        if (max_results <=? N.of_nat (length results))%N then results
        else scan_batch ast max_results page_cursor batch results
      else scan_batch ast max_results page_cursor batch results
  end.

(** The two [gets], of [GetSetExt] and of [StoreView], have one body, over the
    [gets_bytes] of a store or of a view. *)
Section scans.
Context (scan : option N → Direction → cursor → Op S (list KeyValue)).

(** The loop, [fuel] pages of it: a page that is not the last one starts a new
    window with fewer entries. *)
Fixpoint gets_pages (fuel : nat) (ast : Query) (max_results : N) (direction : Direction)
    (end_ page_cursor : option string) (results : list KeyValue) : Op S (list KeyValue) :=
  match fuel with
  | O => op_ret results
  | Datatypes.S fuel =>
      let! batch := scan (Some BATCH_SIZE) direction (page_cursor, end_) in
      match last batch with
      | None => op_ret results
      | Some last_kv =>
          let is_last_batch := (N.of_nat (length batch) <? BATCH_SIZE)%N in
          let results := scan_batch ast max_results page_cursor batch results in
          if is_last_batch || (max_results <=? N.of_nat (length results))%N then op_ret results
          else gets_pages fuel ast max_results direction end_ (Some (key last_kv)) results
      end
  end.

Definition query_scan (fuel : nat) (limit : option N) (direction : Direction) (c : cursor)
    (query : option string) : Op S (list KeyValue) :=
  match query with
  | None => scan limit direction c
  | Some query =>
      let max_results := default USIZE_MAX limit in
      if (max_results =? 0)%N then op_ret []
      else
        match parse query with
        | inl e => op_throw (Other e)
        | inr ast => gets_pages fuel ast max_results direction c.2 c.1 []
        end
  end.
End scans.

Definition gets : nat → option N → Direction → cursor → option string → Op S (list KeyValue) :=
  query_scan gets_bytes.

Definition view_gets (v : StoreView S) :
    nat → option N → Direction → cursor → option string → Op S (list KeyValue) :=
  query_scan (sv_gets_bytes v).
End gets.
End ext.

(** ** Values *)

Section typed_spec.
Context {S Tx : Type} `{StoreWrites S Tx} {T : Type} `{Serde T}.

Definition decoded (b : option bytes) : Result (option T) :=
  match b with
  | Some b => match deserialize b with inr v => Ok (Some v) | inl e => Err (Core.Json e) end
  | None => Ok None
  end.

Lemma decode_eq (b : option bytes) (w : Tx) :
  match b with
  | Some b => let! v := op_lift (serde_result (deserialize b)) in op_ret (Some v)
  | None => op_ret None
  end w = (decoded b, w).
Proof. destruct b as [b|]; [|done]. cbn. unfold op_bind, op_lift, serde_result. by destruct (deserialize b). Qed.

Lemma get_eq (m : gmap string bytes) (k : string) (w : Tx) :
  gs_holds m w → ∃ w', gs_holds m w' ∧ get (T := T) k w = (decoded (m !! k), w').
Proof.
  intros Hw. destruct (gs_get m k w Hw) as (w' & Hg & Hw'). exists w'. split; [done|].
  unfold get. erewrite op_bind_ok by exact Hg. by rewrite decode_eq.
Qed.

(** A typed write is read back.  In a transaction that accepts writes, setting
    a value that serialises stores exactly its bytes and changes no other key, and
    answers with the previous value decoded; the value is written even when that
    decoding fails and the call ends in an error.  A value that decodes from its
    own bytes is then what a typed read answers. *)
Theorem typed_set_get (base m : gmap string bytes) (k : string) (v : T) (json : bytes) (w : Tx) :
  sw_tx_ready (S := S) base m w → serialize v = inr json → sw_row S Tx k json → deserialize json = inr v →
  ∃ w', set k v w = (decoded (m !! k), w') ∧ sw_tx_ready (S := S) base (<[k := json]> m) w' ∧
    (get k w').1 = Ok (Some v) ∧ ∀ k', k' ≠ k → (get (T := T) k' w').1 = decoded (m !! k').
Proof.
  intros Hw Hs Hrow Hd. destruct (sw_set base m k json w Hrow Hw) as (w' & Hset & Hw'). exists w'.
  assert (∀ k', (get (T := T) k' w').1 = decoded (<[k := json]> m !! k')) as Hget.
  { intros k'. by destruct (get_eq _ k' w' (sw_tx_holds _ _ _ Hw')) as (w'' & _ & ->). }
  split; [|split_and!; [done|..]].
  - unfold set. rewrite Hs. erewrite op_bind_ok by done. erewrite op_bind_ok by exact Hset. apply decode_eq.
  - rewrite Hget, lookup_insert, decide_True by done. cbn. by rewrite Hd.
  - intros k' Hk. by rewrite Hget, lookup_insert_ne.
Qed.
End typed_spec.

(** ** Pages *)

(** ** Pages *)

Section windows.
Context (m : gmap string bytes) (dir : Direction) (end_ : option string).

(** The whole window from a cursor. *)
Definition window (c : option string) : list KeyValue := scan_spec None dir (c, end_) m.

Lemma scan_limit n c : scan_spec (Some n) dir (c, end_) m = take (N.to_nat n) (window c).
Proof.
  unfold window, scan_spec. destruct dir; [by rewrite <-take_limit_fmap|].
  cbn [fst snd]. destruct c; [by rewrite <-take_limit_fmap|by rewrite take_nil].
Qed.

Lemma window_from c pre kv post :
  window c = pre ++ kv :: post → window (Some (key kv)) = kv :: post.
Proof.
  assert (∀ (l : list (string * bytes)), to_kv <$> l = pre ++ kv :: post →
    ∃ l1 p l2, l = l1 ++ p :: l2 ∧ pre = to_kv <$> l1 ∧ kv = to_kv p ∧ post = to_kv <$> l2) as Hinv.
  { intros l Hl. apply fmap_app_inv in Hl as (l1 & l' & -> & Hl' & ->).
    symmetry in Hl'. apply fmap_cons_inv in Hl' as (p & l2 & -> & -> & ->). by eexists _, _, _. }
  unfold window, scan_spec. destruct dir; cbn [fst snd take_limit limit_of fmap option_fmap option_map].
  - intros (l1 & [k v] & l2 & Hl & -> & -> & ->)%Hinv.
    change (key (to_kv (k, v))) with k. by rewrite (bt_range_suffix _ _ _ _ _ _ _ Hl).
  - destruct c as [c|]; [|by destruct pre].
    intros (l1 & [k v] & l2 & Hl & -> & -> & ->)%Hinv.
    change (key (to_kv (k, v))) with k. apply (f_equal reverse) in Hl.
    rewrite reverse_involutive, reverse_app, reverse_cons, <-app_assoc in Hl.
    rewrite (bt_range_prefix _ _ _ _ _ _ _ Hl). by rewrite reverse_app, reverse_involutive.
Qed.

(** A cursor is the first key of its window or none of them. *)
Lemma window_cursor c kv post k : window c = kv :: post → c = Some k → k ∉ key <$> post.
Proof.
  intros Hw -> Hin. apply list_elem_of_fmap in Hin as (kv' & -> & Hin).
  apply list_elem_of_split in Hin as (l1 & l2 & ->).
  pose proof (window_from (Some (key kv')) (kv :: l1) kv' l2 Hw) as Hw'. rewrite Hw in Hw'.
  apply (f_equal length) in Hw'. cbn in Hw'. rewrite length_app in Hw'. cbn in Hw'. lia.
Qed.

Lemma window_size c : length (window c) ≤ size m.
Proof.
  assert (∀ lo hi, length (bt_range lo hi m) ≤ size m) as Hr.
  { intros lo hi. unfold bt_range. etrans; [apply length_filter|].
    by rewrite bt_iter_perm, length_map_to_list. }
  unfold window, scan_spec. destruct dir; cbn [fst snd take_limit limit_of fmap option_fmap option_map].
  - by rewrite length_fmap.
  - destruct c; [|cbn; lia]. by rewrite length_fmap, length_reverse.
Qed.
End windows.

Section gets_spec.
Context {S : Type}.
Context `{Lucene} `{JsonNumbers} `{RegexLib} `{Unicode} `{EditDistance} `{!Json Value}.

(** What a query selects of a window: the entries it matches, except one at the
    cursor. *)
Definition selected (ast : Query) (c : option string) (l : list KeyValue) : list KeyValue :=
  filter (λ kv, c ≠ Some (key kv) ∧ entry_matches ast kv = true) l.

Lemma scan_batch_spec ast max c l results :
  (N.of_nat (length results) < max)%N →
  scan_batch ast max c l results = take (N.to_nat max) (results ++ selected ast c l).
Proof.
  unfold selected. revert results. induction l as [|kv l IH]; intros results Hlt; cbn [scan_batch].
  - rewrite filter_nil, app_nil_r, take_ge by lia. done.
  - rewrite filter_cons. case_decide as Hc; [rewrite decide_False by naive_solver; by apply IH|].
    destruct (entry_matches ast kv); [|rewrite decide_False by naive_solver; by apply IH].
    rewrite decide_True by done. replace (results ++ kv :: filter _ l) with ((results ++ [kv]) ++
      filter (λ kv, c ≠ Some (key kv) ∧ entry_matches ast kv = true) l) by by rewrite <-app_assoc.
    case_match eqn:Hm; [apply N.leb_le in Hm|apply N.leb_gt in Hm; by apply IH].
    rewrite length_app in Hm. cbn in Hm. symmetry. apply take_app_length'. rewrite length_app. cbn. lia.
Qed.

Lemma selected_skip ast c l :
  (∀ k, c = Some k → k ∉ key <$> l) → selected ast c l = selected ast None l.
Proof.
  intros Hc. unfold selected. induction l as [|kv l IH]; [done|].
  rewrite !filter_cons, IH by (intros k Hk Hin; apply (Hc k Hk); by right).
  assert (c ≠ Some (key kv)) as Hne by (intros Hk; apply (Hc _ Hk); by left).
  destruct (decide (entry_matches ast kv = true)).
  - by rewrite !decide_True by done.
  - by rewrite !decide_False by naive_solver.
Qed.

Lemma selected_app ast c l1 l2 : selected ast c (l1 ++ l2) = selected ast c l1 ++ selected ast c l2.
Proof. apply filter_app. Qed.

(** What a full batch leaves: the window of its last key. *)
Lemma next_window (m : gmap string bytes) dir end_ c n kv ast :
  let W := window m dir end_ c in
  2 ≤ n → length (take n W) = n → last (take n W) = Some kv →
  length (window m dir end_ (Some (key kv))) < length W ∧
  selected ast (Some (key kv)) (window m dir end_ (Some (key kv))) = selected ast c (drop n W).
Proof.
  intros W Hn Hlen Hlast. apply last_Some in Hlast as [pre Hpre].
  assert (window m dir end_ c = pre ++ kv :: drop n W) as HW
    by (fold W; rewrite <-(take_drop n W) at 1; by rewrite Hpre, <-app_assoc).
  destruct pre as [|kv0 pre]; [rewrite Hpre in Hlen; cbn in Hlen; lia|].
  pose proof (window_from m dir end_ c _ _ _ HW) as HW'. rewrite HW'. split.
  - unfold W at 2. rewrite HW. cbn. rewrite length_app. cbn. lia.
  - unfold selected at 1. rewrite filter_cons, decide_False by naive_solver. fold (selected ast (Some (key kv)) (drop n W)).
    trans (selected ast None (drop n W)); [|symmetry]; apply selected_skip.
    + intros k [= <-]. by apply (window_cursor m dir end_ (Some (key kv)) kv (drop n W)).
    + intros k -> Hin. eapply (window_cursor m dir end_ (Some k) kv0 (pre ++ kv :: drop n W) k); [exact HW|done|].
      rewrite fmap_app, fmap_cons. set_solver.
Qed.

(** A scan that answers from [m] in the states of [P]. *)
Section scans.
Context (scan : option N → Direction → cursor → Op S (list KeyValue)) (m : gmap string bytes) (P : S → Prop).
Context (Hscan : ∀ limit dir c s, P s → ∃ s', scan limit dir c s = (Ok (scan_spec limit dir c m), s') ∧ P s').

Lemma pages_spec fuel ast max dir end_ c results (s : S) :
  P s → (N.of_nat (length results) < max)%N → length (window m dir end_ c) < fuel →
  ∃ s', gets_pages scan fuel ast max dir end_ c results s =
      (Ok (take (N.to_nat max) (results ++ selected ast c (window m dir end_ c))), s') ∧
    P s'.
Proof using Hscan.
  revert c results s. induction fuel as [|fuel IH]; intros c results s Hwf Hlt Hfuel; [lia|].
  set (W := window m dir end_ c) in *.
  destruct (Hscan (Some BATCH_SIZE) dir (c, end_) s Hwf) as (s1 & Hg & Hwf1).
  rewrite scan_limit in Hg. fold W in Hg.
  assert (∃ n, N.to_nat BATCH_SIZE = n ∧ BATCH_SIZE = N.of_nat n ∧ 2 ≤ n) as (n & Hn & Hbs & Hn2)
    by (exists (N.to_nat BATCH_SIZE); rewrite N2Nat.id; split_and!; [done|done|unfold BATCH_SIZE; lia]).
  rewrite Hn in Hg. cbn [gets_pages]. erewrite op_bind_ok by exact Hg.
  destruct (last (take n W)) as [kv|] eqn:Hlast.
  2: { apply last_None in Hlast. assert (W = []) as ->.
       { destruct W as [|kv W]; [done|]. destruct n; [lia|done]. }
       exists s1. split; [|done]. unfold selected. rewrite filter_nil, app_nil_r, take_ge by lia. done. }
  rewrite scan_batch_spec by done. rewrite Hbs.
  assert (selected ast c W = selected ast c (take n W) ++ selected ast c (drop n W)) as ->
    by by rewrite <-selected_app, take_drop.
  rewrite app_assoc.
  set (found := results ++ selected ast c (take n W)).
  destruct (N.ltb_spec (N.of_nat (length (take n W))) (N.of_nat n)) as [Hshort|Hfull]; cbn [orb].
  - exists s1. split; [|done]. rewrite (drop_ge W n) by (rewrite length_take in Hshort; lia).
    unfold selected at 1. by rewrite filter_nil, app_nil_r.
  - assert (length (take n W) = n) as Hlen by (rewrite length_take in *; lia).
    destruct (N.leb_spec max (N.of_nat (length (take (N.to_nat max) found)))) as [Hmax|Hmore].
    + exists s1. split; [|done]. rewrite length_take in Hmax. by rewrite take_app_le by lia.
    + rewrite length_take in Hmore. rewrite (take_ge found) by lia.
      destruct (next_window m dir end_ c n kv ast Hn2 Hlen Hlast) as [Hless Hsel]. fold W in Hless, Hsel.
      destruct (IH (Some (key kv)) found s1) as (s2 & Hp & Hwf2); [done|lia|lia|].
      exists s2. by rewrite Hp, Hsel.
Qed.

(** What a query answers on a map. *)
Definition gets_spec (limit : option N) (dir : Direction) (c : cursor) (query : option string) :
    Result (list KeyValue) :=
  match query with
  | None => Ok (scan_spec limit dir c m)
  | Some q =>
      if decide (limit = Some 0%N) then Ok []
      else
        match parse q with
        | inl e => Err (Other e)
        | inr ast =>
            Ok (take (N.to_nat (default USIZE_MAX limit)) (selected ast c.1 (scan_spec None dir c m)))
        end
  end.

Lemma query_scan_spec fuel limit dir c query (s : S) :
  P s → size m < fuel →
  ∃ s', P s' ∧ query_scan scan fuel limit dir c query s = (gets_spec limit dir c query, s').
Proof using Hscan.
  intros Hwf Hfuel. unfold query_scan, gets_spec. destruct query as [q|].
  2: { destruct (Hscan limit dir c s Hwf) as (s' & -> & Hwf'). by exists s'. }
  destruct (N.eqb_spec (default USIZE_MAX limit) 0) as [Hz|Hz].
  { rewrite decide_True by (destruct limit; cbn in Hz; [by subst|done]). by exists s. }
  rewrite decide_False by (intros ->; done). destruct (parse q) as [e|ast]; [by exists s|].
  destruct c as [c end_]. cbn [fst snd]. pose proof (window_size m dir end_ c).
  destruct (pages_spec fuel ast (default USIZE_MAX limit) dir end_ c [] s) as (s' & -> & Hwf'); [done|cbn; lia|lia|].
  by exists s'.
Qed.
End scans.

(** C25: A query selects from the window of the cursor.  On any backend that keeps
    the contract of [gets_bytes], with more fuel than entries: without a query
    [gets] is [gets_bytes]; a limit of zero selects nothing, whatever the query;
    a query that does not parse is an error; and otherwise the answer is the first
    entries of the window, as many as the limit asks for, whose values are JSON
    documents that the query matches, in the window's order and over as many
    batches as it takes, except an entry at the cursor itself. *)
Theorem gets_selects `{GetSetReads S} (fuel : nat) (limit : option N) (dir : Direction) (c : cursor)
    (query : option string) (m : gmap string bytes) (s : S) :
  gs_holds m s → size m < fuel →
  ∃ s', gs_holds m s' ∧
    gets fuel limit dir c query s =
      (match query with
       | None => Ok (scan_spec limit dir c m)
       | Some q =>
           if decide (limit = Some 0%N) then Ok []
           else
             match parse q with
             | inl e => Err (Other e)
             | inr ast =>
                 Ok (take (N.to_nat (default USIZE_MAX limit)) (selected ast c.1 (scan_spec None dir c m)))
             end
       end, s').
Proof.
  intros Hs Hf. by apply (query_scan_spec gets_bytes m (gs_holds m) (gs_gets m)).
Qed.

(** The same through the view of a validator or an observer: the committed or
    staged state, at the key under validation too. *)
Lemma view_gets_selects `{GetSetReads S} fuel limit dir c query k old (m : gmap string bytes) (s : S) :
  gs_holds m s → size m < fuel →
  ∃ s', gs_holds m s' ∧ view_gets (RevalidateView (store_view S) k old) fuel limit dir c query s =
    (gets_spec m limit dir c query, s').
Proof.
  intros Hs Hf. by apply (query_scan_spec (sv_gets_bytes (store_view S)) m (gs_holds m) (gs_gets m)).
Qed.
End gets_spec.

(** ** Witnesses *)

Section examples.
#[local] Existing Instance Z_numbers.
#[local] Existing Instance literal_regex.
#[local] Existing Instance ascii_unicode.
#[local] Existing Instance row_distance.

(** A parser of one bare word, and documents that are one string in quotes. *)
#[local] Instance one_word : Lucene := {|
  lucene_parse s :=
    if decide (s = "") then inl "expected single_query"
    else inr [MkPair R_query s [MkPair R_single_query s [u_term s]]]
|}.

#[local] Instance quoted_strings : Json Value := {|
  to_vec v := match v with JString s => x22 :: as_bytes s | _ => [] end;
  from_slice b := match b with x22 :: b => inr (JString (of_bytes b)) | _ => inl "expected value" end;
|}.

#[local] Instance quoted_serde : Serde string := {|
  serialize s := inr (x22 :: as_bytes s);
  deserialize b := match b with x22 :: b => inr (of_bytes b) | _ => inl "expected value" end;
|}.

Definition words : @BTreeStore bounded_channel :=
  MkBTree bounded_channel
    {[ "a" := x22 :: as_bytes "rust"; "b" := as_bytes "raw"; "c" := x22 :: as_bytes "lust"; "d" := x22 :: as_bytes "python" ]}
    hooks_default [].

(** From [a] on, the entry [a] itself is left out though it matches. *)
Lemma gets_selects_witness :
  ∃ s', map s' = map words ∧
    gets 5 (Some 2%N) Next (Some "a", None) (Some "rust") words = (Ok [KV "c" (x22 :: as_bytes "lust")], s').
Proof.
  destruct (gets_selects 5 (Some 2%N) Next (Some "a", None) (Some "rust") (map words) words) as (s' & Hh & Hg).
  - reflexivity.
  - apply (bool_decide_unpack _). vm_compute. exact I.
  - exists s'. split; [exact Hh|]. rewrite Hg. apply (f_equal (λ r, (r, s'))).
    vm_compute. reflexivity.
Defined.

(** An entry in place that is no document: the new value is written all the same. *)
Lemma typed_set_get_witness :
  ∃ w', set "b" "new" (btree_begin_tx words) = (Err (Core.Json "expected value"), w') ∧
    tx_map w' = <["b" := x22 :: as_bytes "new"]> (map words) ∧ (get "b" w').1 = Ok (Some "new").
Proof.
  destruct (typed_set_get (S := @BTreeStore bounded_channel) (map words) (map words) "b" "new"
    (x22 :: as_bytes "new") (btree_begin_tx words)) as (w' & Hset & Hw & Hget & _); [|done|done|done|].
  - split_and!; [done|apply apply_overlay_empty|done|done|]. apply staged_ok_begin.
  - exists w'. split; [|split; [apply Hw|exact Hget]]. rewrite Hset. apply (f_equal (λ r, (r, w'))).
    vm_compute. reflexivity.
Defined.

(** Must not overwrite, asked by a scan or by a lookup. *)
Definition absent_by_scan : Validator :=
  MkValidator All (λ k _, VGetsBytes None Next (Some k, Some k) (λ r,
    VRet (match r with Ok [] => Ok () | Ok _ => Err (Rejected k "exists") | Err e => Err e end))).
Definition absent_by_has : Validator :=
  MkValidator All (λ k _, VHas k (λ r,
    VRet (match r with Ok false => Ok () | Ok true => Err (Rejected k "exists") | Err e => Err e end))).

(** The view of the commit-time pass hides the staged write from lookups, and not
    from scans: an insert that both rules accept when it is staged is refused at
    the commit by the one that scans. *)
Lemma revalidation_scans_staged :
  let insert (rule : Validator) :=
    let '(r, w) := tx_set_bytes "new" (as_bytes "1") (btree_begin_tx (with_validator rule words)) in
    (r, (tx_commit w).1) in
  insert absent_by_has = (Ok None, Ok ()) ∧ insert absent_by_scan = (Ok None, Err (Rejected "new" "exists")).
Proof. vm_compute. by split. Qed.
End examples.
