(* ===== verification/Ownership.v ===== *)
(** Ownership and epoch fencing: [src/src/store/lsm/ownership.rs], and the
    paths under an epoch. *)

From stdpp Require Import options.
From S2P Require Import Prelude OrdMap Core Codec Hooks Storage Json.

Record OwnershipRecord := MkOwnership {
  or_epoch : N;
  or_owner_session : string;
  or_lease_expiry_ms : option N;
  or_manifest_etag : option string;
}.

#[export] Instance OwnershipRecord_eq_dec : EqDecision OwnershipRecord.
Proof. solve_decision. Defined.

#[export] Program Instance OwnershipRecord_countable : Countable OwnershipRecord :=
  inj_countable' (λ r, (or_epoch r, or_owner_session r, or_lease_expiry_ms r,
                        or_manifest_etag r))
    (λ '(e, s, l, m), MkOwnership e s l m) _.
Next Obligation. by intros []. Qed.

(** ** Paths *)

Definition ownership_path (prefix : ObjectPath) : ObjectPath :=
  if path_is_empty prefix then "ownership.json" else child prefix "ownership.json".

Definition format_epoch (epoch : N) : string := "e" +:+ zero_pad 6 epoch.

Definition epoch_prefix (prefix : ObjectPath) (epoch : N) : ObjectPath :=
  if path_is_empty prefix then format_epoch epoch else child prefix (format_epoch epoch).

Definition wal_path (prefix : ObjectPath) (epoch seq : N) : ObjectPath :=
  child (child (epoch_prefix prefix epoch) "wal") (zero_pad 8 seq +:+ ".log").

Definition sst_path (prefix : ObjectPath) (epoch level id : N) : ObjectPath :=
  child (child (child (epoch_prefix prefix epoch) "sst") ("L" +:+ pretty level))
    (zero_pad 9 id +:+ ".sst").

(** ** Backoff *)

Definition saturating_mul (a b : N) : N := N.min (a * b) (U64 - 1).

(** In milliseconds. *)
Definition cas_backoff (attempt : N) : N :=
  let jitter := (((attempt * 7) mod U64) mod 20)%N in
  let base := saturating_mul 50 (N.shiftl 1 (N.min attempt 5) mod U64) in
  let base := N.min base (1000 - 20) in
  N.min (base + jitter) 1000.

(** ** Acquiring *)

Section ownership.
Context {W : Type} `{StorageBackend W} `{Json OwnershipRecord}.

Definition saturating_add_1 (n : N) : N := N.min (n + 1) (U64 - 1).

(** The read half of [acquire_ownership]. *)
Definition acquire_read (prefix : ObjectPath) :
    Op W (option (OwnershipRecord * ObjectVersion)) :=
  try! r := st_get (ownership_path prefix) in
  match r with
  | Ok out =>
      match from_slice (go_bytes out) with
      | inr rec => op_ret (Some (rec, MkVersion (go_e_tag out) (go_version out)))
      | inl e => op_throw (Storage ("corrupt ownership.json: " +:+ e))
      end
  | Err e =>
      if is_not_found_msg e then op_ret None
      else op_throw (Storage ("get ownership failed: " +:+ Core.to_string e))
  end.

Definition new_record (existing : option (OwnershipRecord * ObjectVersion))
    (session : string) : OwnershipRecord :=
  MkOwnership (match existing with
               | None => 1
               | Some (r, _) => saturating_add_1 (or_epoch r)
               end) session None None.

(** The write half. *)
Definition acquire_put (prefix : ObjectPath) (session : string)
    (existing : option (OwnershipRecord * ObjectVersion)) : Op W OwnershipRecord :=
  let new_rec := new_record existing session in
  let mode := match existing with
              | Some (_, ver) => Update ver
              | None => Create
              end in
  try! put_res := st_put_opts (ownership_path prefix) (to_vec new_rec) mode in
  match put_res with
  | Ok _ => op_ret new_rec
  | Err (CasConflict _) =>
      op_throw (Fenced ("ownership CAS conflict at epoch " +:+ pretty (or_epoch new_rec) +:+
        " for session " +:+ session +:+ " — fenced"))
  | Err e => op_throw (Storage ("put ownership failed: " +:+ Core.to_string e))
  end.

Definition acquire_ownership (prefix : ObjectPath) (session : string) :
    Op W OwnershipRecord :=
  let! existing := acquire_read prefix in
  acquire_put prefix session existing.

Definition read_ownership (prefix : ObjectPath) : Op W (option OwnershipRecord) :=
  try! r := st_get (ownership_path prefix) in
  match r with
  | Ok out =>
      match from_slice (go_bytes out) with
      | inr rec => op_ret (Some rec)
      | inl e => op_throw (Storage ("corrupt ownership.json: " +:+ e))
      end
  | Err e =>
      if is_not_found_msg e then op_ret None
      else op_throw (Storage ("get ownership failed: " +:+ Core.to_string e))
  end.
End ownership.

(** The delay doubles from 50 ms, never exceeds the documented second, and
    keeps its jitter when it saturates. *)
Theorem cas_backoff_bounds (attempt : N) :
  (50 ≤ cas_backoff attempt < 1000)%N ∧
  (5 ≤ attempt → cas_backoff attempt = 980 + ((attempt * 7) mod U64) mod 20)%N ∧
  (attempt < 5 → cas_backoff attempt = 50 * 2 ^ attempt + (attempt * 7) mod 20)%N.
Proof.
  unfold cas_backoff, saturating_mul.
  assert ((((attempt * 7) mod U64) mod 20) < 20)%N as Hj by by apply N.mod_lt.
  destruct (decide (5 ≤ attempt)%N) as [Hge|Hlt].
  - rewrite (N.min_r attempt 5) by lia. change (N.shiftl 1 5 mod U64)%N with 32%N.
    change (N.min (N.min (50 * 32) (U64 - 1)) (1000 - 20))%N with 980%N.
    generalize dependent (((attempt * 7) mod U64) mod 20)%N. intros j Hj.
    rewrite N.min_l by lia. split; [lia|]. split; [done|]. intros. exfalso. lia.
  - assert (attempt = 0 ∨ attempt = 1 ∨ attempt = 2 ∨ attempt = 3 ∨ attempt = 4)%N
      as [->|[->|[->|[->| ->]]]] by lia; vm_compute; split_and!; done || (intros; congruence).
Qed.
