(* ===== verification/Fencing.v ===== *)
(** Concurrent acquisition of ownership.  Any number of sessions run
    [acquire_ownership] against one in-memory backend; each is a read followed
    by a conditional put, and the two halves interleave with those of the
    other sessions and with any other use of the backend. *)

From stdpp Require Import options.
From S2P Require Import Prelude OrdMap Core Codec Hooks Storage Json Ownership.

Inductive session :=
| Idle (name : string)
| Reading (name : string) (existing : option (OwnershipRecord * ObjectVersion))
| Owner (rec : OwnershipRecord)
| Lost (e : StoreError).

(** The object a call of the backend is about. *)
Definition call_path (c : MemCall) : ObjectPath :=
  match c with MGet p | MPut p _ _ | MDelete p => p end.

Section fencing.
Context `{Json OwnershipRecord} `{!JsonLaws OwnershipRecord} (prefix : ObjectPath).
Abbreviation sys := (MemInner * list session)%type.
Abbreviation path := (ownership_path prefix).

Inductive step : sys → sys → Prop :=
| step_read w ts i name r w' :
    ts !! i = Some (Idle name) → acquire_read prefix w = (r, w') →
    step (w, ts) (w', <[i := match r with
                             | Ok ex => Reading name ex
                             | Err e => Lost e
                             end]> ts)
| step_put w ts i name ex r w' :
    ts !! i = Some (Reading name ex) → acquire_put prefix name ex w = (r, w') →
    step (w, ts) (w', <[i := match r with
                             | Ok rec => Owner rec
                             | Err e => Lost e
                             end]> ts)
| step_other w ts c :
    call_path c ≠ path → step (w, ts) (mem_call c w, ts).

Definition init (names : list string) : sys := (mem_new, Idle <$> names).

(** The epoch in force: that of the stored record, or 0. *)
Definition epoch_is (w : MemInner) (e : N) : Prop :=
  match objects w !! path with
  | None => e = 0%N
  | Some o => ∃ rec, mo_bytes o = to_vec rec ∧ or_epoch rec = e
  end.

(** What a reader holds is a version that was current, and its content. *)
Definition reader_ok (w : MemInner) (ex : option (OwnershipRecord * ObjectVersion)) :
    Prop :=
  match ex with
  | None => True
  | Some (rec, ver) => ∃ v, ov_e_tag ver = Some (hex_pad 16 v) ∧ (v ≤ mem_seq w)%N ∧
      ∀ o, objects w !! path = Some o → mo_version o = v → mo_bytes o = to_vec rec
  end.

Record inv (s : sys) : Prop := {
  inv_mem : mem_ok s.1;
  inv_epoch : ∃ e, epoch_is s.1 e ∧ (e ≤ mem_seq s.1)%N ∧
    ∀ i rec, s.2 !! i = Some (Owner rec) → (1 ≤ or_epoch rec ≤ e)%N;
  inv_unique i j r1 r2 : s.2 !! i = Some (Owner r1) → s.2 !! j = Some (Owner r2) →
    or_epoch r1 = or_epoch r2 → i = j;
  inv_reader i name ex : s.2 !! i = Some (Reading name ex) → reader_ok s.1 ex;
}.

Lemma fence_inv_init names : inv (init names).
Proof.
  assert (∀ i t, (Idle <$> names) !! i = Some t → ∃ n, t = Idle n) as Hidle.
  { intros i t. rewrite list_lookup_fmap, fmap_Some. naive_solver. }
  split; simpl.
  - by intros p o.
  - exists 0%N. split_and!; [done|done|]. intros i rec Hi. by destruct (Hidle _ _ Hi).
  - intros i j r1 r2 Hi. by destruct (Hidle _ _ Hi).
  - intros i name ex Hi. by destruct (Hidle _ _ Hi).
Qed.

(** Replacing a session by one that is no owner keeps the owners. *)
Lemma lookup_replace (ts : list session) i j t u :
  <[i := u]> ts !! j = Some t → t = u ∨ ts !! j = Some t.
Proof. intros [(-> & -> & _)|[_ Hj]]%list_lookup_insert_Some; auto. Qed.

Lemma inv_replace w ts i t :
  inv (w, ts) → (∀ rec, t ≠ Owner rec) →
  (∀ name ex, t = Reading name ex → reader_ok w ex) → inv (w, <[i := t]> ts).
Proof.
  intros [Hm (e & He & Hle & Ho) Hu Hr] Hno Hrd. split; simpl in *; [done| | |].
  - exists e. split_and!; [done|done|]. intros j rec Hj.
    apply lookup_replace in Hj as [Hj|Hj]; [by destruct (Hno rec)|eauto].
  - intros j k r1 r2 Hj Hk. apply lookup_replace in Hj as [Hj|Hj];
      [by destruct (Hno r1)|]. apply lookup_replace in Hk as [Hk|Hk];
      [by destruct (Hno r2)|]. eauto.
  - intros j name ex Hj. apply lookup_replace in Hj as [Hj|Hj]; [by eapply Hrd|eauto].
Qed.

Lemma acquire_read_mem w :
  acquire_read prefix w =
    (match objects w !! path with
     | Some o =>
         match from_slice (mo_bytes o) with
         | inr rec => Ok (Some (rec, MkVersion (Some (mo_etag o)) (Some (pretty (mo_version o)))))
         | inl e => Err (Storage ("corrupt ownership.json: " +:+ e))
         end
     | None => Ok None
     end, w).
Proof.
  unfold acquire_read, op_try. cbn [st_get MemStorage_Storage]. unfold mem_get.
  destruct (objects w !! path) as [o|].
  - cbn [go_bytes]. by destruct (from_slice (mo_bytes o)).
  - by rewrite not_found_msg.
Qed.

(** A put either fails and changes nothing, or installs the new record over
    the version it expects. *)
Lemma acquire_put_mem name ex w :
  match acquire_put prefix name ex w with
  | (Err _, w') => w' = w
  | (Ok rec, w') => rec = new_record ex name ∧
      w' = (mem_put_opts path (to_vec rec)
        (match ex with Some (_, ver) => Update ver | None => Create end) w).2 ∧
      match ex with
      | None => objects w !! path = None
      | Some (_, ver) => ∃ o, objects w !! path = Some o ∧ ov_e_tag ver = Some (mo_etag o)
      end
  end.
Proof.
  unfold acquire_put, op_try. cbn [st_put_opts MemStorage_Storage].
  set (mode := match ex with Some (_, ver) => Update ver | None => Create end).
  assert (∀ r w', mem_put_opts path (to_vec (new_record ex name)) mode w = (r, w') →
    match r with
    | Err e => w' = w ∧ ∃ m, e = CasConflict m
    | Ok _ => match ex with
              | None => objects w !! path = None
              | Some (_, ver) => ∃ o, objects w !! path = Some o ∧
                  ov_e_tag ver = Some (mo_etag o)
              end
    end) as Hput.
  { intros r w'. unfold mem_put_opts. unfold mem_precondition.
    destruct ex as [[rec ver]|]; simpl.
    - destruct (objects w !! path) as [o|]; [|naive_solver].
      case_decide as Htag; [|naive_solver].
      destruct (ov_version ver); [case_decide|]; naive_solver.
    - case_decide as Hd; [naive_solver|]. apply eq_None_not_Some in Hd.
      intros [= <- <-]. done. }
  destruct (mem_put_opts _ _ _ _) as [[out|e] w'] eqn:Heq.
  - specialize (Hput _ _ eq_refl). simpl. split; [done|]. by rewrite Heq.
  - destruct (Hput _ _ eq_refl) as [-> [m ->]]. done.
Qed.

Lemma mem_put_success b mode w out w' :
  mem_put_opts path b mode w = (Ok out, w') → (mem_seq w + 1 < U64)%N →
  mem_seq w' = (mem_seq w + 1)%N ∧
  ∃ o, objects w' !! path = Some o ∧ mo_bytes o = b ∧ mo_version o = (mem_seq w + 1)%N.
Proof.
  unfold mem_put_opts. destruct (mem_precondition _ _ _); [|done]. intros [= _ <-] Hlt.
  simpl. rewrite (N.mod_small _ U64) by done. split; [done|].
  eexists. by rewrite lookup_insert_eq.
Qed.

Lemma mem_ok_put p b mode w :
  mem_ok w → (mem_seq w + 1 < U64)%N → mem_ok (mem_put_opts p b mode w).2.
Proof. intros Hm Hs. by destruct (mem_call_spec (MPut p b mode) w Hm Hs) as (? & _). Qed.

(** The backend's other users leave the ownership object alone. *)
Lemma other_call c w :
  call_path c ≠ path → mem_ok w → (mem_seq w + 1 < U64)%N →
  objects (mem_call c w) !! path = objects w !! path ∧ mem_ok (mem_call c w) ∧
  (mem_seq w ≤ mem_seq (mem_call c w))%N.
Proof.
  intros Hc Hm Hs. destruct (mem_call_spec c w Hm Hs) as (Hm' & [Hle _] & _).
  split; [|done]. destruct c as [p|p b mode|p]; simpl in *; [done| |].
  - unfold mem_put_opts. destruct (mem_precondition p mode w); simpl; [|done].
    by rewrite lookup_insert_ne.
  - by rewrite lookup_delete_ne.
Qed.

(** The tag a new owner replaced decides what it read. *)
Lemma put_epoch w ts i name ex rec w' :
  inv (w, ts) → ts !! i = Some (Reading name ex) → (mem_seq w + 1 < U64 - 1)%N →
  acquire_put prefix name ex w = (Ok rec, w') →
  ∃ e, epoch_is w e ∧ or_epoch rec = (e + 1)%N ∧
    (∀ j r, ts !! j = Some (Owner r) → 1 ≤ or_epoch r ≤ e)%N ∧ (e ≤ mem_seq w)%N.
Proof using Type*.
  intros [Hm (e & He & Hle & Ho) Hu Hr] Hi Hs Hput. simpl in *.
  pose proof (acquire_put_mem name ex w) as Hspec. rewrite Hput in Hspec.
  destruct Hspec as (-> & _ & Hcur). exists e. split_and!; [done| |done|done].
  destruct ex as [[rec ver]|]; simpl.
  - destruct Hcur as (o & Hcur & Htag). destruct (Hr _ _ _ Hi) as (v & Hv & Hvle & Hsame).
    destruct (Hm _ _ Hcur) as [Het Hver]. assert (v = mo_version o) as ->.
    { rewrite Hv in Htag. injection Htag as Htag. rewrite Het in Htag.
      apply hex_pad_inj in Htag; [done|..];
        change (16 ^ N.of_nat 16)%N with U64; lia. }
    unfold epoch_is in He. rewrite Hcur in He. destruct He as (r0 & Hb & <-).
    specialize (Hsame _ Hcur eq_refl). rewrite Hb in Hsame.
    assert (r0 = rec) as ->.
    { assert (inr r0 = inr rec :> string + OwnershipRecord) as Hi'
        by by rewrite <-!from_to_vec, Hsame. by injection Hi'. }
    unfold saturating_add_1. lia.
  - unfold epoch_is in He. rewrite Hcur in He. subst. done.
Qed.

Lemma fence_inv_step s s' :
  inv s → (mem_seq s.1 + 1 < U64 - 1)%N → step s s' → inv s'.
Proof using Type*.
  intros Hinv Hs Hstep.
  destruct Hstep as [w ts i name r w' Hi Hread|w ts i name ex r w' Hi Hput|w ts c Hc];
    simpl in *.
  - rewrite acquire_read_mem in Hread. injection Hread as <- <-.
    apply inv_replace; [done|intros rec; by repeat case_match|].
    intros n ex Hex. destruct (objects w !! path) as [o|] eqn:Hcur;
      [|by injection Hex as _ <-].
    destruct (from_slice (mo_bytes o)) as [e|rec] eqn:Hfs; [done|].
    injection Hex as _ <-. destruct (inv_mem _ Hinv _ _ Hcur) as [Het Hv].
    exists (mo_version o). simpl. split_and!; [by rewrite Het|done|].
    intros o' Ho' _. simplify_eq.
    destruct (inv_epoch _ Hinv) as (e & He & _). unfold epoch_is in He. simpl in He.
    rewrite Hcur in He. destruct He as (r0 & Hb & _).
    rewrite Hb, from_to_vec in Hfs. by simplify_eq.
  - pose proof (acquire_put_mem name ex w) as Hspec. rewrite Hput in Hspec.
    destruct r as [rec|e]; [|subst w'; by apply inv_replace].
    destruct (put_epoch _ _ _ _ _ _ _ Hinv Hi Hs Hput) as (e & He & Hepoch & Hoe & Hle).
    destruct Hspec as (Hrec & Hw' & Hcur).
    destruct (mem_put_opts path _ _ w) as [[out|err] w2] eqn:Hmp; simpl in Hw'; subst w2.
    2: { unfold acquire_put, op_try in Hput. cbn [st_put_opts MemStorage_Storage] in Hput.
         subst rec. rewrite Hmp in Hput. by destruct err. }
    assert (mem_ok w') as Hm'.
    { pose proof (mem_ok_put path (to_vec rec)
        (match ex with Some (_, ver) => Update ver | None => Create end) w) as Hok.
      rewrite Hmp in Hok. apply Hok; [apply Hinv|lia]. }
    apply mem_put_success in Hmp as [Hseq (o & Ho & Hb & Hv)]; [|lia].
    split; simpl; [done| | |].
    + exists (e + 1)%N. split_and!; [|lia|].
      * unfold epoch_is. rewrite Ho. by exists rec.
      * intros j r Hj. apply lookup_replace in Hj as [[= ->]|Hj]; [lia|].
        specialize (Hoe _ _ Hj). lia.
    + intros j k r1 r2 Hj Hk Heq.
      apply list_lookup_insert_Some in Hj as [(<- & ? & _)|[Hij Hj]],
        Hk as [(<- & ? & _)|[Hik Hk]]; simplify_eq.
      * done.
      * specialize (Hoe _ _ Hk). lia.
      * specialize (Hoe _ _ Hj). lia.
      * by eapply (inv_unique _ Hinv).
    + intros j n ex' Hj. apply lookup_replace in Hj as [?|Hj]; [done|].
      pose proof (inv_reader _ Hinv _ _ _ Hj) as Hrd. destruct ex' as [[r' ver]|]; [|done].
      destruct Hrd as (v & Hver & Hvle & _). exists v. simpl in Hvle.
      split_and!; [done|lia|]. intros o' Ho' Hv'. simplify_eq. lia.
  - destruct Hinv as [Hm (e & He & Hle & Ho) Hu Hr]. simpl in *.
    destruct (other_call c w Hc Hm) as (Hsame & Hm' & Hsle); [lia|].
    split; simpl; [done| |done|].
    + exists e. unfold epoch_is in *. rewrite Hsame. split_and!; [done|lia|done].
    + intros i name ex Hi. specialize (Hr _ _ _ Hi). destruct ex as [[r ver]|]; [|done].
      destruct Hr as (v & ? & ? & ?). exists v. rewrite Hsame. split_and!; [done|lia|done].
Qed.

Lemma step_seq s s' :
  mem_ok s.1 → (mem_seq s.1 + 1 < U64)%N → step s s' →
  (mem_seq s'.1 ≤ mem_seq s.1 + 1)%N.
Proof.
  intros Hm Hs Hstep.
  destruct Hstep as [w ts i name r w' Hi Hread|w ts i name ex r w' Hi Hput|w ts c Hc];
    simpl in *.
  - rewrite acquire_read_mem in Hread. injection Hread as _ <-. lia.
  - pose proof (acquire_put_mem name ex w) as Hspec. rewrite Hput in Hspec.
    destruct r as [rec|e]; [|subst; lia]. destruct Hspec as (_ & -> & _).
    by destruct (mem_call_spec (MPut path (to_vec rec)
      (match ex with Some (_, ver) => Update ver | None => Create end)) w Hm Hs)
      as (_ & [_ ?] & _).
  - by destruct (mem_call_spec c w Hm Hs) as (_ & [_ ?] & _).
Qed.

Lemma inv_reach n s s' :
  inv s → (mem_seq s.1 + N.of_nat n < U64 - 1)%N → nsteps step n s s' → inv s'.
Proof using Type*.
  revert s. induction n as [|n IH]; intros s Hinv Hs Hr; inversion Hr; subst; [done|].
  eapply IH; [|..|done].
  - eapply fence_inv_step; [done| |done]. lia.
  - pose proof (step_seq s y (inv_mem _ Hinv)) as Hle.
    assert (mem_seq y.1 ≤ mem_seq s.1 + 1)%N by (apply Hle; [lia|done]). lia.
Qed.


(** The two kinds of session step as functions, for running a schedule. *)
Definition read_now (i : nat) (s : sys) : sys :=
  match s.2 !! i with
  | Some (Idle name) =>
      let '(r, w') := acquire_read prefix s.1 in
      (w', <[i := match r with Ok ex => Reading name ex | Err e => Lost e end]> s.2)
  | _ => s
  end.

Definition put_now (i : nat) (s : sys) : sys :=
  match s.2 !! i with
  | Some (Reading name ex) =>
      let '(r, w') := acquire_put prefix name ex s.1 in
      (w', <[i := match r with Ok rec => Owner rec | Err e => Lost e end]> s.2)
  | _ => s
  end.

Lemma read_now_step i name s : s.2 !! i = Some (Idle name) → step s (read_now i s).
Proof.
  destruct s as [w ts]. unfold read_now. simpl. intros Hi. rewrite Hi.
  destruct (acquire_read prefix w) eqn:Heq. by eapply step_read.
Qed.

Lemma put_now_step i name ex s : s.2 !! i = Some (Reading name ex) → step s (put_now i s).
Proof.
  destruct s as [w ts]. unfold put_now. simpl. intros Hi. rewrite Hi.
  destruct (acquire_put prefix name ex w) eqn:Heq. by eapply step_put.
Qed.
End fencing.

(** Two sessions read the empty backend; the second put comes too late. *)
Definition ownership_json : Json OwnershipRecord := countable_json.

Definition raced : MemInner * list session :=
  @put_now ownership_json "p" 1 (@put_now ownership_json "p" 0
    (@read_now ownership_json "p" 1 (@read_now ownership_json "p" 0 (init ["a"; "b"])))).

