(* ===== verification/Manifest.v ===== *)
(** The manifest and its cache: [src/src/store/lsm/manifest.rs].

    An operation that goes through the cache runs on the backend's world and
    the cache.  [load_manifest] is one undisturbed call: the locks it takes and
    releases between its phases admit no other cache user in between. *)

From stdpp Require Import options.
From S2P Require Import Prelude OrdMap Core Codec Hooks Storage Json.

Record SstMeta := MkSstMeta {
  sm_id : string;
  sm_seq : N;
  sm_level : N;
  sm_min_key : string;
  sm_max_key : string;
  sm_size : N;
}.

Record Manifest := MkManifest {
  mf_version : N;
  mf_epoch : N;
  mf_wal : list string;
  mf_sst : list SstMeta;
}.

#[export] Instance SstMeta_eq_dec : EqDecision SstMeta.
Proof. solve_decision. Defined.
#[export] Instance Manifest_eq_dec : EqDecision Manifest.
Proof. solve_decision. Defined.

#[export] Program Instance SstMeta_countable : Countable SstMeta :=
  inj_countable' (λ m, (sm_id m, sm_seq m, sm_level m, sm_min_key m, sm_max_key m, sm_size m))
    (λ '(i, s, l, a, b, z), MkSstMeta i s l a b z) _.
Next Obligation. by intros []. Qed.
#[export] Program Instance Manifest_countable : Countable Manifest :=
  inj_countable' (λ m, (mf_version m, mf_epoch m, mf_wal m, mf_sst m))
    (λ '(v, e, w, s), MkManifest v e w s) _.
Next Obligation. by intros []. Qed.

Definition manifest_empty (epoch : N) : Manifest := MkManifest 0 epoch [] [].

Definition manifest_path (prefix : ObjectPath) : ObjectPath :=
  if path_is_empty prefix then "manifest.json" else child prefix "manifest.json".

(** ** The cache *)

Record CachedEntry := MkEntry {
  ce_manifest : Manifest;
  ce_etag : string;
  ce_fetched_at_ms : N;
}.

Record ManifestCache := MkCache {
  mc_entry : option CachedEntry;
  mc_skip_revalidation : bool;
}.

Definition cache_new : ManifestCache := MkCache None false.

Definition set_skip_revalidation (skip : bool) (c : ManifestCache) : ManifestCache :=
  MkCache (mc_entry c) skip.

Definition wrapping_sub (a b : N) : N := ((a + U64 - b) mod U64)%N.

(** [get_cached] at time [now]; [ttl] in milliseconds. *)
Definition get_cached (now ttl : N) (c : ManifestCache) : option (Manifest * string) :=
  match mc_entry c with
  | None => None
  | Some e =>
      if (wrapping_sub now (ce_fetched_at_ms e) <? ttl)%N
      then Some (ce_manifest e, ce_etag e) else None
  end.

Definition cache_update (now : N) (m : Manifest) (etag : string) (c : ManifestCache) :
    ManifestCache := MkCache (Some (MkEntry m etag now)) (mc_skip_revalidation c).

Definition cache_clear (c : ManifestCache) : ManifestCache :=
  MkCache None (mc_skip_revalidation c).

(** [unwrap_or_default] on an optional tag. *)
Definition tag_of (t : option string) : string := default "" t.

Section manifest.
Context {W : Type} `{StorageBackend W} `{Json Manifest} `{Clock W}.

Definition read_manifest (prefix : ObjectPath) : Op W (option (Manifest * string)) :=
  try! r := st_get (manifest_path prefix) in
  match r with
  | Ok out =>
      match from_slice (go_bytes out) with
      | inr m => op_ret (Some (m, tag_of (go_e_tag out)))
      | inl e => op_throw (Storage ("parse manifest: " +:+ e))
      end
  | Err e =>
      if is_not_found_msg e then op_ret None
      else op_throw (Storage ("get manifest failed: " +:+ Core.to_string e))
  end.

Definition cas_manifest (prefix : ObjectPath) (m : Manifest)
    (expected_etag : option string) : Op W string :=
  let path := manifest_path prefix in
  let mode := match expected_etag with
              | None => Create
              | Some etag => Update (MkVersion (Some etag) None)
              end in
  try! r := st_put_opts path (to_vec m) mode in
  match r with
  | Ok out => op_ret (tag_of (po_e_tag out))
  | Err (CasConflict detail) =>
      op_throw (CasConflict ("manifest " +:+ path +:+ ": " +:+ detail))
  | Err e => op_throw (Storage ("put manifest failed: " +:+ Core.to_string e))
  end.

(** A backend and a manifest cache. *)
Abbreviation cached := (W * ManifestCache)%type.

Definition on_storage {A} : Op W A → Op cached A := op_zoom fst (λ w s, (w, s.2)).

(** [cache.lock().await.update(..)], which stamps the current time. *)
Definition publish_cache (m : Manifest) (etag : string) : Op cached () :=
  let! now := on_storage now_millis in
  op_modify (λ s, (s.1, cache_update now m etag s.2)).

(** Phase 2 of [load_manifest] without a fresh entry: an unconditional read. *)
Definition load_cold (prefix : ObjectPath) (epoch : N) : Op cached (Manifest * string) :=
  let! r := on_storage (read_manifest prefix) in
  match r with
  | Some (m, etag) => publish_cache m etag ;; op_ret (m, etag)
  | None => publish_cache (manifest_empty epoch) "" ;; op_ret (manifest_empty epoch, "")
  end.

(** Phase 2 with a fresh entry: a poll with its tag. *)
Definition load_warm (prefix : ObjectPath) (epoch : N) (m : Manifest) (etag : string) :
    Op cached (Manifest * string) :=
  try! r := on_storage (st_get_opts (manifest_path prefix) (MkGetOptions (Some etag))) in
  match r with
  | Ok out =>
      match from_slice (go_bytes out) with
      | inr m' =>
          publish_cache m' (tag_of (go_e_tag out)) ;; op_ret (m', tag_of (go_e_tag out))
      | inl e => op_throw (Storage ("parse manifest: " +:+ e))
      end
  | Err NotModified => op_ret (m, etag)
  | Err e =>
      if is_not_found_msg e then
        publish_cache (manifest_empty epoch) "" ;; op_ret (manifest_empty epoch, "")
      else op_throw (Storage ("get manifest failed: " +:+ Core.to_string e))
  end.

Definition load_manifest (prefix : ObjectPath) (epoch ttl : N) :
    Op cached (Manifest * string) :=
  let! now := on_storage now_millis in
  let! c := op_gets snd in
  match mc_skip_revalidation c, get_cached now ttl c with
  | true, Some hit => op_ret hit
  | _, Some (m, etag) => load_warm prefix epoch m etag
  | _, None => load_cold prefix epoch
  end.
End manifest.

(** ** Coherence *)

Section coherence.
Context {W : Type} `{ClockLaws W} `{JsonLaws Manifest} (prefix : ObjectPath).
Context `{!Accepts W (manifest_path prefix)}.
Abbreviation path := (manifest_path prefix).

(** The stored manifest: that of the object, the empty one when it is
    missing, an error when it does not parse. *)
Definition stored_manifest (epoch : N) (w : W) : Result (Manifest * string) :=
  match st_objects w !! path with
  | None => Ok (manifest_empty epoch, "")
  | Some (b, tag) =>
      match from_slice b with
      | inr m => Ok (m, tag)
      | inl e => Err (Storage ("parse manifest: " +:+ e))
      end
  end.

(** The cached manifest is what its tag stands for. *)
Definition coherent (s : W * ManifestCache) : Prop :=
  st_wf s.1 ∧
  (∀ b tag, st_objects s.1 !! path = Some (b, tag) → tag ≠ "") ∧
  ∀ e b, mc_entry s.2 = Some e → st_objects s.1 !! path = Some (b, ce_etag e) →
    from_slice b = inr (ce_manifest e).

Lemma publish_cache_spec m etag w c :
  st_wf w → ∃ w' c', publish_cache m etag (w, c) = (Ok (), (w', c')) ∧
    st_objects w' = st_objects w ∧ st_wf w' ∧
    mc_skip_revalidation c' = mc_skip_revalidation c ∧
    ∃ t, mc_entry c' = Some (MkEntry m etag t).
Proof using Type*.
  intros Hwf. unfold publish_cache, on_storage, op_zoom, op_bind, op_modify. simpl.
  destruct (now_millis_law w Hwf) as (t & w' & -> & Ho & Hwf').
  eexists w', _. split; [done|]. split_and!; [done..|]. by exists t.
Qed.

(** A publication of what is stored keeps the cache coherent. *)
Lemma publish_coherent m etag w w0 c :
  coherent (w0, c) → st_wf w → st_objects w = st_objects w0 →
  (∀ b, st_objects w !! path = Some (b, etag) → from_slice b = inr m) →
  ∃ s', publish_cache m etag (w, c) = (Ok (), s') ∧ coherent s' ∧
    st_objects s'.1 = st_objects w ∧ mc_skip_revalidation s'.2 = mc_skip_revalidation c.
Proof using Type*.
  intros (_ & Htag & _) Hwf Ho Hb. simpl in *.
  destruct (publish_cache_spec m etag w c Hwf) as (w' & c' & -> & Ho' & Hwf' & Hskip & t & He).
  exists (w', c'). split; [done|]. split; [|done].
  split; [done|]. simpl. rewrite Ho'. split; [by rewrite Ho|].
  intros e b He' Hob. rewrite He in He'. injection He' as <-. by apply Hb.
Qed.

Lemma read_manifest_spec w :
  st_wf w → ∃ w', st_wf w' ∧ st_objects w' = st_objects w ∧
    read_manifest prefix w =
      (match st_objects w !! path with
       | None => Ok None
       | Some (b, tag) =>
           match from_slice b with
           | inr m => Ok (Some (m, tag))
           | inl e => Err (Storage ("parse manifest: " +:+ e))
           end
       end, w').
Proof using Type*.
  intros Hwf. unfold read_manifest, op_try.
  destruct (st_get_law path w Hwf (accepted path)) as (r & w' & -> & Ho & Hwf' & Hr).
  exists w'. split; [done|]. split; [done|].
  destruct (st_objects w !! path) as [[b tag]|].
  - destruct Hr as [v ->]. cbn [go_bytes go_e_tag]. by destruct (from_slice b).
  - destruct Hr as (msg & -> & ->). done.
Qed.

Lemma on_storage_eq {A} (m : Op W A) w c r w' :
  m w = (r, w') → on_storage m (w, c) = (r, (w', c)).
Proof. unfold on_storage, op_zoom. simpl. by intros ->. Qed.

Lemma coherent_same w w0 c :
  coherent (w0, c) → st_wf w → st_objects w = st_objects w0 → coherent (w, c).
Proof. intros (_ & ? & ?) Hwf Ho. unfold coherent. simpl in *. by rewrite Ho. Qed.

(** What both phases of a load end with, for one view of the object. *)
Lemma finish_load (w w0 : W) c m etag :
  coherent (w0, c) → st_wf w → st_objects w = st_objects w0 →
  (∀ b, st_objects w !! path = Some (b, etag) → from_slice b = inr m) →
  ∃ s', (publish_cache m etag ;; op_ret (m, etag)) (w, c) = (Ok (m, etag), s') ∧
    st_objects s'.1 = st_objects w0 ∧ coherent s' ∧
    mc_skip_revalidation s'.2 = mc_skip_revalidation c.
Proof using Type*.
  intros Hco Hwf Ho Hb.
  destruct (publish_coherent m etag w w0 c Hco Hwf Ho Hb) as (s' & Hp & Hco' & Hos & Hskip).
  exists s'. erewrite op_bind_ok by done. split; [done|]. split; [by rewrite Hos|done].
Qed.

Lemma load_cold_spec epoch w c :
  coherent (w, c) →
  ∃ s', load_cold prefix epoch (w, c) = (stored_manifest epoch w, s') ∧
    st_objects s'.1 = st_objects w ∧ coherent s' ∧
    mc_skip_revalidation s'.2 = mc_skip_revalidation c.
Proof using Type*.
  intros Hco. pose proof Hco as (Hwf & Htag & _). simpl in *.
  destruct (read_manifest_spec w Hwf) as (w2 & Hwf2 & Ho2 & Hr).
  apply (on_storage_eq _ _ c) in Hr. unfold load_cold, stored_manifest.
  destruct (st_objects w !! path) as [[b tag]|] eqn:Hob;
    [destruct (from_slice b) as [err|m] eqn:Hfs|].
  - rewrite (op_bind_err _ _ _ _ _ Hr). eexists. split; [done|].
    split; [done|]. split; [by eapply coherent_same|done].
  - rewrite (op_bind_ok _ _ _ _ _ Hr). apply finish_load; [done..|].
    intros b'. rewrite Ho2, Hob. by intros [= <-].
  - rewrite (op_bind_ok _ _ _ _ _ Hr). apply finish_load; [done..|].
    intros b'. by rewrite Ho2, Hob.
Qed.

Lemma load_warm_spec epoch w c e :
  coherent (w, c) → mc_entry c = Some e →
  ∃ s', load_warm prefix epoch (ce_manifest e) (ce_etag e) (w, c) = (stored_manifest epoch w, s') ∧
    st_objects s'.1 = st_objects w ∧ coherent s' ∧
    mc_skip_revalidation s'.2 = mc_skip_revalidation c.
Proof using Type*.
  intros Hco He. pose proof Hco as (Hwf & Htag & Hent). simpl in *.
  unfold load_warm, stored_manifest, op_try.
  destruct (st_get_opts_law path (MkGetOptions (Some (ce_etag e))) w Hwf (accepted path))
    as (r & w2 & Hg & Ho2 & Hwf2 & Hr).
  rewrite (on_storage_eq _ _ c _ _ Hg).
  assert (coherent (w2, c)) as Hco2 by by eapply coherent_same.
  destruct (st_objects w !! path) as [[b tag]|] eqn:Hob.
  - simpl in Hr. case_decide as Heq.
    + injection Heq as <-. subst r. exists (w2, c). by rewrite (Hent e b He eq_refl).
    + destruct Hr as [v ->]. cbn [go_bytes go_e_tag tag_of default].
      destruct (from_slice b) as [err|m] eqn:Hfs; [by exists (w2, c)|].
      apply finish_load; [done..|]. intros b'. rewrite Ho2, Hob. by intros [= <-].
  - destruct Hr as (msg & -> & Hnf). rewrite Hnf. apply finish_load; [done..|].
    intros b'. by rewrite Ho2, Hob.
Qed.

(** A revalidating load; stated for the clients of the manifest. *)
Lemma load_manifest_spec (epoch ttl : N) (w : W) (c : ManifestCache) :
  coherent (w, c) →
  mc_skip_revalidation c = false ∨ mc_entry c = None ∨ ttl = 0%N →
  ∃ s', load_manifest prefix epoch ttl (w, c) = (stored_manifest epoch w, s') ∧
    st_objects s'.1 = st_objects w ∧ coherent s' ∧
    mc_skip_revalidation s'.2 = mc_skip_revalidation c.
Proof using Type*.
  intros Hco Hfresh. pose proof Hco as (Hwf & _ & _). simpl in *.
  destruct (now_millis_law w Hwf) as (now & w1 & Hnow & Ho1 & Hwf1).
  assert (coherent (w1, c)) as Hco1 by by eapply coherent_same.
  assert (stored_manifest epoch w = stored_manifest epoch w1) as ->
    by by unfold stored_manifest; rewrite Ho1.
  rewrite <-Ho1. unfold load_manifest.
  rewrite (op_bind_ok _ _ _ _ _ (on_storage_eq _ _ c _ _ Hnow)).
  erewrite op_bind_ok by done. cbn [snd].
  assert (get_cached now ttl c = None ∨ mc_skip_revalidation c = false ∧
    ∃ e, mc_entry c = Some e ∧ get_cached now ttl c = Some (ce_manifest e, ce_etag e))
    as [-> | (Hs & e & He & ->)].
  { unfold get_cached. destruct (mc_entry c) as [e|]; [|by left].
    destruct (N.ltb_spec (wrapping_sub now (ce_fetched_at_ms e)) ttl); [right|by left].
    destruct Hfresh as [?|[?| ->]]; [eauto|done|lia]. }
  - pose proof (load_cold_spec epoch w1 c Hco1) as Hl. by destruct (mc_skip_revalidation c).
  - pose proof (load_warm_spec epoch w1 c e Hco1 He) as Hl. by rewrite Hs in *.
Qed.

(** *** The only writer of a manifest *)

(** [m] is stored under [etag], or nothing is and [m] is empty. *)
Definition manifest_on (epoch : N) (m : Manifest) (etag : string)
    (objs : gmap string (bytes * string)) : Prop :=
  match objs !! path with
  | None => m = manifest_empty epoch ∧ etag = ""
  | Some (b, tag) => tag = etag ∧ etag ≠ "" ∧ from_slice b = inr m
  end.
Definition manifest_is (epoch : N) (m : Manifest) (etag : string) (w : W) : Prop :=
  manifest_on epoch m etag (st_objects w).

(** The manifest cache of the only writer is never stale. *)
Definition current (epoch : N) (m : Manifest) (etag : string) (s : W * ManifestCache) : Prop :=
  st_wf s.1 ∧ manifest_is epoch m etag s.1 ∧
  ∀ e, mc_entry s.2 = Some e → ce_manifest e = m ∧ ce_etag e = etag.

Lemma current_same epoch m etag w w' c :
  current epoch m etag (w, c) → st_wf w' → st_objects w' !! path = st_objects w !! path →
  current epoch m etag (w', c).
Proof. intros (_ & Hm & He) Hwf Ho. split; [done|]. unfold manifest_is, manifest_on in *. simpl. by rewrite Ho. Qed.

Lemma current_publish epoch m etag w c :
  st_wf w → manifest_is epoch m etag w →
  ∃ s', publish_cache m etag (w, c) = (Ok (), s') ∧ st_objects s'.1 = st_objects w ∧
    current epoch m etag s'.
Proof using Type*.
  intros Hwf Hm. destruct (publish_cache_spec m etag w c Hwf)
    as (w' & c' & Hp & Ho & Hwf' & _ & t & He).
  exists (w', c'). split; [done|]. split; [done|]. split; [done|]. split.
  - unfold manifest_is, manifest_on in *. simpl. by rewrite Ho.
  - simpl. rewrite He. by intros e [= <-].
Qed.

Lemma current_finish epoch m etag w c :
  st_wf w → manifest_is epoch m etag w →
  ∃ s', (publish_cache m etag ;; op_ret (m, etag)) (w, c) = (Ok (m, etag), s') ∧
    st_objects s'.1 = st_objects w ∧ current epoch m etag s'.
Proof using Type*.
  intros Hwf Hm. destruct (current_publish epoch m etag w c Hwf Hm) as (s' & Hp & Ho & Hc).
  exists s'. by rewrite (op_bind_ok _ _ _ _ _ Hp).
Qed.

(** Its loads return the stored manifest, with or without revalidation. *)
Lemma load_current epoch ttl m etag w c :
  current epoch m etag (w, c) →
  ∃ s', load_manifest prefix epoch ttl (w, c) = (Ok (m, etag), s') ∧
    st_objects s'.1 = st_objects w ∧ current epoch m etag s'.
Proof using Type*.
  intros Hc. pose proof Hc as (Hwf & Hm & He). cbn [fst snd] in *.
  destruct (now_millis_law w Hwf) as (now & w1 & Hnow & Ho1 & Hwf1).
  assert (current epoch m etag (w1, c)) as Hc1 by (eapply current_same; [done..|by rewrite Ho1]).
  pose proof Hc1 as (_ & Hm1 & _). rewrite <-Ho1. unfold load_manifest.
  rewrite (op_bind_ok _ _ _ _ _ (on_storage_eq _ _ c _ _ Hnow)).
  erewrite op_bind_ok by done. cbn [fst snd] in *. clear Hwf Hm Hc Ho1 Hnow.
  assert (get_cached now ttl c = None ∨ get_cached now ttl c = Some (m, etag)) as [-> | ->].
  { unfold get_cached. destruct (mc_entry c) as [e|]; [|by left].
    destruct (He e eq_refl) as [-> ->]. case_match; auto. }
  - assert (∃ s', load_cold prefix epoch (w1, c) = (Ok (m, etag), s') ∧
      st_objects s'.1 = st_objects w1 ∧ current epoch m etag s') as Hcold.
    { destruct (read_manifest_spec w1 Hwf1) as (w2 & Hwf2 & Ho2 & Hr).
      apply (on_storage_eq _ _ c) in Hr. unfold load_cold. rewrite <-Ho2.
      assert (manifest_is epoch m etag w2) as Hm2 by (unfold manifest_is, manifest_on; by rewrite Ho2).
      unfold manifest_is, manifest_on in Hm1. destruct (st_objects w1 !! path) as [[b tag]|].
      - destruct Hm1 as (-> & _ & Hb). rewrite Hb in Hr.
        rewrite (op_bind_ok _ _ _ _ _ Hr). by apply current_finish.
      - destruct Hm1 as [-> ->]. rewrite (op_bind_ok _ _ _ _ _ Hr). by apply current_finish. }
    by destruct (mc_skip_revalidation c).
  - destruct (mc_skip_revalidation c); [by exists (w1, c)|]. unfold load_warm, op_try.
    destruct (st_get_opts_law path (MkGetOptions (Some etag)) w1 Hwf1 (accepted path))
      as (r & w2 & Hg & Ho2 & Hwf2 & Hr).
    rewrite (on_storage_eq _ _ c _ _ Hg). rewrite <-Ho2.
    assert (current epoch m etag (w2, c)) as Hc2 by (eapply current_same; [done..|by rewrite Ho2]).
    unfold manifest_is, manifest_on in Hm1. destruct (st_objects w1 !! path) as [[b tag]|].
    + destruct Hm1 as (-> & _ & Hb). rewrite decide_True in Hr by done. subst r. by exists (w2, c).
    + destruct Hm1 as [-> ->], Hr as (msg & -> & Hnf). rewrite Hnf.
      apply current_finish; [done|]. apply Hc2.
Qed.

(** Its writes succeed. *)
Lemma cas_current epoch m etag m' w c :
  current epoch m etag (w, c) →
  (∀ tag, tag ≠ "" → st_safe W (<[path := (to_vec m', tag)]> (st_objects w))) →
  ∃ tag w', cas_manifest prefix m' (if bool_decide (etag = "") then None else Some etag) w =
      (Ok tag, w') ∧ st_wf w' ∧ st_objects w' = <[path := (to_vec m', tag)]> (st_objects w) ∧
    manifest_is epoch m' tag w'.
Proof using Type*.
  intros (Hwf & Hm & _) Hsafe. cbn [fst snd] in *. unfold cas_manifest, op_try.
  set (mode := match (if bool_decide _ then _ else _) with None => _ | Some _ => _ end).
  destruct (st_put_law path (to_vec m') mode w Hwf (accepted path)) as (r & w' & Hput & Hwf' & Hr); [auto|].
  rewrite Hput. destruct r as [out|e].
  - destruct Hr as (tag & Htag & Ho & _). rewrite Htag. exists tag, w'.
    split; [done|]. split; [done|]. split; [done|]. unfold manifest_is, manifest_on.
    rewrite Ho, lookup_insert_eq. split; [done|]. split; [|by rewrite from_to_vec].
    intros ->. by apply (st_put_tag_law _ _ _ _ _ _ Hwf (accepted path) Hput).
  - exfalso. destruct Hr as (_ & _ & Hr). unfold manifest_is, manifest_on in Hm. subst mode.
    destruct (st_objects w !! path) as [[b tag]|].
    + destruct Hm as (-> & Hne & _). rewrite bool_decide_eq_false_2 in Hr by done.
      by destruct (Hr b etag eq_refl eq_refl).
    + destruct Hm as [_ ->]. rewrite bool_decide_eq_true_2 in Hr by done. by destruct Hr.
Qed.

(** C32: A revalidating load (every load but that of a warm single-writer cache)
    returns the stored manifest and its tag, the empty manifest of the epoch
    when there is none, and an error when the object does not parse; in every
    case the objects are untouched and the cache stays coherent, whatever it
    held before and however stale that was. *)
Theorem load_manifest_current (epoch ttl : N) (w : W) (c : ManifestCache) :
  coherent (w, c) →
  mc_skip_revalidation c = false ∨ mc_entry c = None ∨ ttl = 0%N →
  ∃ s', load_manifest prefix epoch ttl (w, c) = (stored_manifest epoch w, s') ∧
    st_objects s'.1 = st_objects w ∧ coherent s'.
Proof using Type*.
  intros Hco Hfresh. destruct (load_manifest_spec epoch ttl w c Hco Hfresh) as (s' & ? & ? & ? & _).
  by exists s'.
Qed.

(** A manifest write is a compare-and-swap: it succeeds exactly when the
    stored object is the expected one (no object for a create, the expected
    tag for an update) and then installs the manifest under the tag it
    returns; otherwise it is a [CasConflict] and nothing changes. *)
Theorem cas_manifest_atomic `{!Unguarded W} (m : Manifest) (expected : option string) (w : W) :
  st_wf w →
  let current := snd <$> st_objects w !! path in
  ∃ r w', cas_manifest prefix m expected w = (r, w') ∧ st_wf w' ∧
    match r with
    | Ok tag => current = expected ∧
        st_objects w' = <[path := (to_vec m, tag)]> (st_objects w)
    | Err e => current ≠ expected ∧ st_objects w' = st_objects w ∧
        ∃ detail, e = CasConflict detail
    end.
Proof using Type*.
  intros Hwf current. unfold cas_manifest, op_try.
  destruct (st_put_law path (to_vec m) (match expected with
    | None => Create | Some etag => Update (MkVersion (Some etag) None) end) w Hwf (accepted path))
    as (r & w' & -> & Hwf' & Hr); [intros; apply unguarded|].
  destruct r as [out|e].
  - destruct Hr as (tag & Htag & Ho & Hcur). exists (Ok tag), w'. rewrite Htag.
    split; [done|]. split; [done|]. split; [|done]. unfold current.
    destruct expected as [etag|]; [|by rewrite Hcur].
    destruct Hcur as (b0 & tag0 & -> & [= ->]). done.
  - destruct Hr as ([msg ->] & Ho & Hcur). eexists _, w'. split; [done|].
    split; [done|]. split; [|split; [done|by eexists]]. unfold current.
    destruct expected as [etag|]; [|by destruct Hcur as [? ->]].
    destruct (st_objects w !! path) as [[b0 tag0]|]; [|done]. simpl. intros [= ->].
    by destruct (Hcur _ _ eq_refl eq_refl).
Qed.
End coherence.

(** ** Witnesses *)

Section witnesses.
#[local] Existing Instance still_clock.
#[local] Existing Instance still_clock_laws.
#[local] Instance manifest_json : Json Manifest := countable_json.
#[local] Instance manifest_json_laws : JsonLaws Manifest := countable_json_laws.

(** A backend that holds a manifest with one write-ahead log. *)
Definition sample_manifest : Manifest := MkManifest 3 1 ["e000001/wal/00000001.log"] [].
Definition sample_backend : MemInner :=
  (mem_put_opts "manifest.json" (to_vec sample_manifest) Create mem_new).2.

Lemma load_manifest_current_witness :
  ∃ s', load_manifest "" 1 1000 (sample_backend, cache_new) =
      (Ok (sample_manifest, "0000000000000001"), s') ∧
    st_objects s'.1 = st_objects sample_backend ∧ coherent "" s'.
Proof.
  assert (stored_manifest "" 1 sample_backend = Ok (sample_manifest, "0000000000000001"))
    as <- by (vm_compute; reflexivity).
  apply (load_manifest_current "" 1 1000 sample_backend cache_new); [|by left].
  split; [exact I|]. split; [|by intros ? ? ?].
  intros b tag Heq. vm_compute in Heq. injection Heq as _ <-. discriminate.
Defined.

(** A write that expects no manifest is refused. *)
Lemma cas_manifest_atomic_witness :
  ∃ r w', cas_manifest "" sample_manifest None sample_backend = (r, w') ∧ True ∧
    match r with
    | Ok tag => Some "0000000000000001" = None ∧
        st_objects w' = <["manifest.json" := (to_vec sample_manifest, tag)]>
          (st_objects sample_backend)
    | Err e => Some "0000000000000001" ≠ None ∧
        st_objects w' = st_objects sample_backend ∧ ∃ detail, e = CasConflict detail
    end.
Proof.
  pose proof (cas_manifest_atomic "" sample_manifest None sample_backend I) as Hcas.
  assert (snd <$> st_objects sample_backend !! manifest_path "" = Some "0000000000000001")
    as Htag by (vm_compute; reflexivity).
  cbv zeta in Hcas. rewrite Htag in Hcas. exact Hcas.
Defined.
End witnesses.
