(* ===== verification/ObjectStore.v ===== *)
(** The cloud backend: [Storage] for [Arc<dyn object_store::ObjectStore>] of
    [src/src/store/storage.rs].

    The crate [object_store] is the class [ObjectStoreApi]; [ObjectStoreLaws]
    states what it documents of a store with conditional writes.  On the paths
    that the crate leaves as they are, the adapter keeps the contract of
    [Storage], so that the theorems about the log-structured store hold on it. *)

From stdpp Require Import options.
From S2P Require Import Prelude OrdMap Core Hooks Storage Json Ownership Manifest.

(** ** The crate *)

(** The variants of [object_store::Error] that the adapter tells apart. *)
Inductive OsErrorKind := OsNotFound | OsNotModified | OsPrecondition | OsAlreadyExists | OsOther.

Inductive OsPutMode :=
| OsCreate
| OsUpdate (e_tag version : option string).

(** The calls of the crate on the state of the service; a listing is the
    stream of its items. *)
Class ObjectStoreApi (W : Type) := {
  OsError : Type;
  os_kind : OsError → OsErrorKind;
  os_display : OsError → string;
  OsPath : Type;
  os_path_from : string → OsPath;
  os_path_str : OsPath → string;
  GetResult : Type;
  gr_e_tag : GetResult → option string;
  gr_version : GetResult → option string;
  gr_bytes : GetResult → W → (OsError + bytes) * W;
  os_get : OsPath → W → (OsError + GetResult) * W;
  os_get_opts : OsPath → option string → W → (OsError + GetResult) * W;
  os_put_opts : OsPath → bytes → OsPutMode → W → (OsError + (option string * option string)) * W;
  os_delete : OsPath → W → (OsError + ()) * W;
  os_list : option OsPath → W → list (OsError + OsPath) * W;
}.

(** ** The adapter *)

Section adapter.
Context {W : Type} `{ObjectStoreApi W}.

Definition map_get_error (path : ObjectPath) (err : OsError) : StoreError :=
  match os_kind err with
  | OsNotFound => Storage ("not found: " +:+ path)
  | OsNotModified => NotModified
  | OsPrecondition => Storage ("precondition failed: " +:+ path +:+ ": " +:+ os_display err)
  | _ => Storage ("get " +:+ path +:+ " failed: " +:+ os_display err)
  end.

Definition map_list_error (err : OsError) : StoreError := Storage ("list failed: " +:+ os_display err).

Definition map_put_error (path : ObjectPath) (err : OsError) : StoreError :=
  match os_kind err with
  | OsAlreadyExists | OsPrecondition => CasConflict (path +:+ ": " +:+ os_display err)
  | _ => Storage ("put " +:+ path +:+ " failed: " +:+ os_display err)
  end.

(** [.await.map_err(f)?]. *)
Definition os_await {A} (f : OsError → StoreError) (m : W → (OsError + A) * W) : Op W A := λ w,
  let '(r, w) := m w in (match r with inr a => Ok a | inl e => Err (f e) end, w).

(** The tail that [get] and [get_opts] share. *)
Definition get_output (path : ObjectPath) (res : GetResult) : Op W GetOutput :=
  let! bytes := os_await (λ e, Storage ("read " +:+ path +:+ " failed: " +:+ os_display e)) (gr_bytes res) in
  op_ret (MkGetOutput bytes (gr_e_tag res) (gr_version res)).

Definition object_get (path : ObjectPath) : Op W GetOutput :=
  let! res := os_await (map_get_error path) (os_get (os_path_from path)) in
  get_output path res.

Definition object_get_opts (path : ObjectPath) (options : GetOptions) : Op W GetOutput :=
  let! res := os_await (map_get_error path) (os_get_opts (os_path_from path) (if_none_match options)) in
  get_output path res.

Definition os_mode (mode : PutMode) : OsPutMode :=
  match mode with
  | Create => OsCreate
  | Update expected => OsUpdate (ov_e_tag expected) (ov_version expected)
  end.

Definition object_put_opts (path : ObjectPath) (payload : bytes) (mode : PutMode) : Op W PutOutcome :=
  let! res := os_await (map_put_error path) (os_put_opts (os_path_from path) payload (os_mode mode)) in
  op_ret (MkPutOutcome res.1 res.2).

Definition object_delete (path : ObjectPath) : Op W () := λ w,
  let '(r, w) := os_delete (os_path_from path) w in
  (match r with
   | inr _ => Ok ()
   | inl e => match os_kind e with
              | OsNotFound => Ok ()
              | _ => Err (Storage ("delete " +:+ path +:+ " failed: " +:+ os_display e))
              end
   end, w).

(** The loop over the stream of the listing. *)
Fixpoint drain_listing (items : list (OsError + OsPath)) (keys : list ObjectPath) : Result (list ObjectPath) :=
  match items with
  | [] => Ok keys
  | inl e :: _ => Err (map_list_error e)
  | inr location :: items => drain_listing items (keys ++ [os_path_str location])
  end.

Definition object_list (prefix : ObjectPath) : Op W (list ObjectPath) := λ w,
  let '(items, w) := os_list (Some (os_path_from prefix)) w in (drain_listing items [], w).

Definition object_backend : StorageBackend W := {|
  st_get := object_get;
  st_get_opts := object_get_opts;
  st_put_opts := object_put_opts;
  st_delete := object_delete;
  st_list := object_list;
|}.
End adapter.

(** ** What the crate promises *)

(** A service that is reached keeps a map from paths to objects with an entity
    tag, and makes conditional writes atomically. *)
Class ObjectStoreLaws (W : Type) `{ObjectStoreApi W} := {
  os_objects : W → gmap string (bytes * string);
  os_reached : W → Prop;
  os_canonical p w x : os_reached w → os_objects w !! p = Some x → os_path_str (os_path_from p) = p;
  os_canonical_parent p s : os_path_str (os_path_from (child p s)) = child p s →
    os_path_str (os_path_from p) = p;
  os_get_law p w : os_reached w →
    ∃ r w1, os_get p w = (r, w1) ∧ os_objects w1 = os_objects w ∧ os_reached w1 ∧
      match os_objects w !! os_path_str p with
      | Some (b, tag) => ∃ res w2, r = inr res ∧ gr_e_tag res = Some tag ∧ gr_bytes res w1 = (inr b, w2) ∧
          os_objects w2 = os_objects w ∧ os_reached w2
      | None => ∃ e, r = inl e ∧ os_kind e = OsNotFound
      end;
  os_get_opts_law p none_match w : os_reached w →
    ∃ r w1, os_get_opts p none_match w = (r, w1) ∧ os_objects w1 = os_objects w ∧ os_reached w1 ∧
      match os_objects w !! os_path_str p with
      | Some (b, tag) =>
          if decide (none_match = Some tag) then ∃ e, r = inl e ∧ os_kind e = OsNotModified
          else ∃ res w2, r = inr res ∧ gr_e_tag res = Some tag ∧ gr_bytes res w1 = (inr b, w2) ∧
            os_objects w2 = os_objects w ∧ os_reached w2
      | None => ∃ e, r = inl e ∧ os_kind e = OsNotFound
      end;
  os_put_law p b mode w : os_reached w →
    ∃ r w', os_put_opts p b mode w = (r, w') ∧ os_reached w' ∧
      let cur := os_objects w !! os_path_str p in
      match r with
      | inr (e_tag, version) => ∃ tag, e_tag = Some tag ∧ tag ≠ "" ∧
          os_objects w' = <[os_path_str p := (b, tag)]> (os_objects w) ∧
          match mode with
          | OsCreate => cur = None
          | OsUpdate t _ => ∃ b0 tag0, cur = Some (b0, tag0) ∧ t = Some tag0
          end
      | inl e => os_objects w' = os_objects w ∧
          match mode with
          | OsCreate => os_kind e = OsAlreadyExists ∧ is_Some cur
          | OsUpdate t v => os_kind e = OsPrecondition ∧
              ∀ b0 tag0, cur = Some (b0, tag0) → t = Some tag0 → is_Some v
          end
      end;
  os_update_law p b w res w1 : os_reached w → os_get p w = (inr res, w1) →
    ∀ b0 w2, gr_bytes res w1 = (inr b0, w2) →
    ∃ r w', os_put_opts p b (OsUpdate (gr_e_tag res) (gr_version res)) w2 = (inr r, w');
  os_delete_law p w : os_reached w →
    ∃ r w', os_delete p w = (r, w') ∧ os_reached w' ∧
      os_objects w' = base.delete (os_path_str p) (os_objects w) ∧
      ∀ e, r = inl e → os_kind e = OsNotFound;
  os_list_law p w : os_reached w →
    ∃ items w', os_list (Some p) w = (items, w') ∧ os_reached w' ∧ os_objects w' = os_objects w ∧
      (∀ e, inl e ∉ items) ∧
      (∀ l, inr l ∈ items → is_Some (os_objects w !! os_path_str l) ∧
        under_prefix (os_path_str l) (os_path_str p) = true) ∧
      ∀ k, is_Some (os_objects w !! k) → under_prefix k (os_path_str p) = true → k ≠ os_path_str p →
        ∃ l, inr l ∈ items ∧ os_path_str l = k;
}.

Section laws.
Context {W : Type} `{ObjectStoreLaws W}.
#[local] Existing Instance object_backend.

(** The paths the crate does not rewrite. *)
Definition canonical (p : ObjectPath) : Prop := os_path_str (os_path_from p) = p.

Lemma object_get_ok p w w1 w2 res b tag (m : W → (OsError + GetResult) * W) :
  m w = (inr res, w1) → gr_e_tag res = Some tag → gr_bytes res w1 = (inr b, w2) →
  (let! res := os_await (map_get_error p) m in get_output p res) w =
    (Ok (MkGetOutput b (Some tag) (gr_version res)), w2).
Proof using Type.
  intros Hm Ht Hb. unfold os_await, op_bind, get_output. rewrite Hm. cbn. unfold os_await, op_bind.
  by rewrite Hb, Ht.
Qed.

Lemma object_get_err p w w1 e {A} (m : W → (OsError + A) * W) (k : A → Op W GetOutput) :
  m w = (inl e, w1) → (let! res := os_await (map_get_error p) m in k res) w = (Err (map_get_error p e), w1).
Proof using Type. intros Hm. unfold os_await, op_bind. by rewrite Hm. Qed.

Lemma drain_listing_ok items keys :
  (∀ e, inl e ∉ items) → ∃ l, drain_listing items keys = Ok (keys ++ l) ∧
    ∀ k, k ∈ l ↔ ∃ p, inr p ∈ items ∧ os_path_str p = k.
Proof using Type.
  revert keys. induction items as [|[e|p] items IH]; intros keys Hok.
  - exists []. rewrite app_nil_r. split; [done|]. intros k. split; [by intros ?%elem_of_nil|].
    by intros (p & ?%elem_of_nil & _).
  - destruct (Hok e). by left.
  - destruct (IH (keys ++ [os_path_str p])) as (l & Hl & Hin); [intros e He; apply (Hok e); by right|].
    exists (os_path_str p :: l). cbn. rewrite Hl, <-app_assoc. split; [done|]. intros k.
    rewrite elem_of_cons, Hin. split.
    + intros [->|(q & ? & ?)]; [exists p; split; [by left|done]|exists q; split; [by right|done]].
    + intros (q & [[= ->]|Hq]%elem_of_cons & <-); [by left|right; by exists q].
Qed.

Program Definition object_laws : StorageLaws W := {|
  st_objects := os_objects;
  st_wf := os_reached;
  st_path := canonical;
  st_safe _ := True;
|}.
Next Obligation. intros p w Hw [x Hx]. by eapply os_canonical. Qed.
Next Obligation.
  intros p w Hw Hp. destruct (os_get_law (os_path_from p) w Hw) as (r & w1 & Hg & Ho1 & Hw1 & Hr).
  rewrite Hp in Hr. cbn [st_get object_backend]. unfold object_get. destruct (os_objects w !! p) as [[b tag]|].
  - destruct Hr as (res & w2 & -> & Ht & Hb & Ho2 & Hw2). eexists _, w2.
    split; [by eapply object_get_ok|]. split; [congruence|]. split; [done|]. by eexists.
  - destruct Hr as (e & -> & He). eexists _, w1. split; [by eapply object_get_err|]. split; [done|].
    split; [done|]. unfold map_get_error. rewrite He. eexists. split; [done|]. apply not_found_msg.
Qed.
Next Obligation.
  intros p opts w Hw Hp.
  destruct (os_get_opts_law (os_path_from p) (if_none_match opts) w Hw) as (r & w1 & Hg & Ho1 & Hw1 & Hr).
  rewrite Hp in Hr. cbn [st_get_opts object_backend]. unfold object_get_opts.
  destruct (os_objects w !! p) as [[b tag]|]; [case_decide as Hd|].
  - destruct Hr as (e & -> & He). eexists _, w1. split; [by eapply object_get_err|]. split; [done|].
    split; [done|]. unfold map_get_error. by rewrite He.
  - destruct Hr as (res & w2 & -> & Ht & Hb & Ho2 & Hw2). eexists _, w2.
    split; [by eapply object_get_ok|]. split; [congruence|]. split; [done|]. by eexists.
  - destruct Hr as (e & -> & He). eexists _, w1. split; [by eapply object_get_err|]. split; [done|].
    split; [done|]. unfold map_get_error. rewrite He. eexists. split; [done|]. apply not_found_msg.
Qed.
Next Obligation.
  intros p b mode w Hw Hp _.
  destruct (os_put_law (os_path_from p) b (os_mode mode) w Hw) as (r & w' & Hput & Hw' & Hr).
  rewrite Hp in Hr. cbv zeta in Hr. cbn [st_put_opts object_backend]. unfold object_put_opts, os_await, op_bind.
  rewrite Hput. destruct r as [e|[t v]]; (eexists _, w'; split; [done|]; split; [done|]); cbn.
  - destruct Hr as [Ho Hr]. unfold map_put_error. destruct mode as [|u]; destruct Hr as [-> Hr];
      (split; [by eexists|]; split; [done|exact Hr]).
  - destruct Hr as (tag & -> & _ & Ho & Hr). exists tag. split; [done|]. split; [done|].
    by destruct mode as [|u].
Qed.
Next Obligation.
  intros p b mode w out w' Hw Hp.
  destruct (os_put_law (os_path_from p) b (os_mode mode) w Hw) as (r & w1 & Hput & Hw' & Hr).
  cbn [st_put_opts object_backend]. unfold object_put_opts, os_await, op_bind. rewrite Hput.
  destruct r as [e|[t v]]; [done|]. intros [= <- _]. destruct Hr as (tag & -> & Hne & _). cbn. congruence.
Qed.
Next Obligation.
  intros p b w w1 out Hw Hp. cbn [st_get object_backend st_put_opts]. unfold object_get, os_await at 1, op_bind at 1.
  destruct (os_get (os_path_from p) w) as [[e|res] w0] eqn:Hg; [done|]. unfold get_output, os_await, op_bind.
  destruct (gr_bytes res w0) as [[e|b0] w2] eqn:Hb; [done|]. intros [= <- <-].
  destruct (os_update_law _ b _ _ _ Hw Hg _ _ Hb) as (r & w' & Hput).
  unfold object_put_opts, os_await, op_bind. cbn. rewrite Hput. by eexists _, w'.
Qed.
Next Obligation.
  intros p w Hw Hp _. destruct (os_delete_law (os_path_from p) w Hw) as (r & w' & Hd & Hw' & Ho & He).
  rewrite Hp in Ho. exists w'. cbn [st_delete object_backend]. unfold object_delete. rewrite Hd.
  split; [|done]. destruct r as [e|[]]; [|done]. by rewrite (He e eq_refl).
Qed.
Next Obligation.
  intros prefix w Hw [s Hs]. assert (canonical prefix) as Hp by (by eapply os_canonical_parent).
  destruct (os_list_law (os_path_from prefix) w Hw) as (items & w' & Hl & Hw' & Ho & Hok & Hin & Hall).
  rewrite Hp in *. destruct (drain_listing_ok items [] Hok) as (l & Hd & Hl').
  exists l, w'. cbn [st_list object_backend]. unfold object_list. rewrite Hl, Hd.
  split; [done|]. split; [done|]. split; [done|]. split.
  - intros k (q & Hq & <-)%Hl'. by apply Hin.
  - intros k Hk Hu Hne. apply Hl'. by apply Hall.
Qed.

#[export] Instance object_unguarded : @Unguarded W _ object_laws.
Proof. by intros objs. Qed.
End laws.
