(* ===== verification/Blob.v ===== *)
(** Large values: [src/src/store/lsm/blob.rs], and the dereference
    [resolve_value] of [src/src/store/lsm/read.rs]. *)

From stdpp Require Import options.
From S2P Require Import Prelude OrdMap Core Codec Hooks Storage Json Ownership.

Record BlobPointer := MkBlobPointer {
  bp_blob : string;
  bp_len : N;
  bp_crc : N;
}.

#[export] Instance BlobPointer_eq_dec : EqDecision BlobPointer.
Proof. solve_decision. Defined.
#[export] Program Instance BlobPointer_countable : Countable BlobPointer :=
  inj_countable' (λ p, (bp_blob p, bp_len p, bp_crc p)) (λ '(b, l, c), MkBlobPointer b l c) _.
Next Obligation. by intros []. Qed.

Definition is_overflow (k : string) (v : bytes) (block_size : N) : bool :=
  (block_size <? N.of_nat (String.length k) + N.of_nat (length v) + 8)%N.

(** [{byte:02x}] for every byte of a digest. *)
Definition hex_bytes (l : bytes) : string :=
  foldr (λ b s, hex_pad 2 (Byte.to_N b) +:+ s) "" l.

Definition BLOB_POINTER_TAG : bytes := x00 :: as_bytes "oxkv-blob-v1:".

(** [slice::strip_prefix]. *)
Fixpoint strip_bytes (pre l : bytes) : option bytes :=
  match pre, l with
  | [], _ => Some l
  | a :: pre, b :: l => if decide (a = b) then strip_bytes pre l else None
  | _ :: _, [] => None
  end.

Section blob.
Context `{Dg : Digests} `{Js : Json BlobPointer}.

Definition blob_hash (v : bytes) : string := hex_bytes (sha256 v).

Definition blob_path (prefix : ObjectPath) (epoch : N) (hash : string) : ObjectPath :=
  child (child (epoch_prefix prefix epoch) "blob") hash.

Definition encode_blob_pointer (blob : ObjectPath) (len crc : N) : bytes :=
  BLOB_POINTER_TAG ++ to_vec (MkBlobPointer blob len crc).

Definition try_decode_blob_pointer (v : bytes) : option BlobPointer :=
  match strip_bytes BLOB_POINTER_TAG v with
  | None => None
  | Some json => match from_slice json with inr p => Some p | inl _ => None end
  end.

Context {W : Type} `{StorageBackend W}.

Definition put_blob (prefix : ObjectPath) (epoch : N) (v : bytes) : Op W ObjectPath :=
  let path := blob_path prefix epoch (blob_hash v) in
  try! r := st_put_opts path v Create in
  match r with
  | Ok _ => op_ret path
  | Err (CasConflict _) => op_ret path
  | Err e => op_throw (Storage ("put blob failed: " +:+ Core.to_string e))
  end.

Definition get_blob (path : ObjectPath) : Op W bytes :=
  try! r := st_get path in
  match r with
  | Ok out => op_ret (go_bytes out)
  | Err e =>
      op_throw (Storage ("get blob " +:+ path +:+ " failed: " +:+ Core.to_string e))
  end.

Definition resolve_value (raw : bytes) : Op W bytes :=
  match try_decode_blob_pointer raw with
  | None => op_ret raw
  | Some ptr =>
      let! b := get_blob (bp_blob ptr) in
      let len := N.of_nat (length b) in
      if bool_decide (len ≠ bp_len ptr) then
        op_throw (Storage ("blob len mismatch for " +:+ bp_blob ptr +:+ ": expected " +:+
          pretty (bp_len ptr) +:+ ", got " +:+ pretty len))
      else if bool_decide (crc32 b ≠ bp_crc ptr) then
        op_throw (Storage ("blob crc mismatch for " +:+ bp_blob ptr +:+ ": expected " +:+
          pretty (bp_crc ptr) +:+ ", got " +:+ pretty (crc32 b)))
      else op_ret b
  end.

(** Spilling a value as the flush does: the blob, then its pointer. *)
Definition spill (prefix : ObjectPath) (epoch : N) (v : bytes) : Op W bytes :=
  let! path := put_blob prefix epoch v in
  op_ret (encode_blob_pointer path (N.of_nat (length v)) (crc32 v)).
End blob.

(** ** Lemmas *)

Lemma strip_bytes_Some pre l r : strip_bytes pre l = Some r ↔ l = pre ++ r.
Proof.
  revert l. induction pre as [|a pre IH]; intros l; simpl; [split; congruence|].
  destruct l as [|b l]; [done|]. case_decide; subst; [rewrite IH|]; split; congruence.
Qed.

Section laws.
Context `{Dg : Digests} `{JsonLaws BlobPointer} {W : Type} `{StorageLaws W}.

Lemma decode_encode_pointer blob len crc :
  try_decode_blob_pointer (encode_blob_pointer blob len crc) =
    Some (MkBlobPointer blob len crc).
Proof using Type*.
  unfold try_decode_blob_pointer, encode_blob_pointer.
  rewrite (proj2 (strip_bytes_Some _ _ _)) by done. by rewrite from_to_vec.
Qed.

(** Bytes without the tag are user data. *)
Lemma decode_untagged v :
  strip_bytes BLOB_POINTER_TAG v = None → try_decode_blob_pointer v = None.
Proof. unfold try_decode_blob_pointer. by intros ->. Qed.

(** The object at the content address of a value, if any, holds the value:
    what a collision-free hash gives. *)
Definition blob_addressed (prefix : ObjectPath) (epoch : N) (v : bytes) (w : W) : Prop :=
  ∀ b tag, st_objects w !! blob_path prefix epoch (blob_hash v) = Some (b, tag) → b = v.

Lemma put_blob_spec prefix epoch v w `{!Accepts W (blob_path prefix epoch (blob_hash v))} :
  st_wf w → blob_addressed prefix epoch v w →
  (∀ tag, tag ≠ "" → st_objects w !! blob_path prefix epoch (blob_hash v) = None →
    st_safe W (<[blob_path prefix epoch (blob_hash v) := (v, tag)]> (st_objects w))) →
  ∃ w', put_blob prefix epoch v w = (Ok (blob_path prefix epoch (blob_hash v)), w') ∧
    st_wf w' ∧
    (∃ tag, st_objects w' !! blob_path prefix epoch (blob_hash v) = Some (v, tag)) ∧
    (∀ p, p ≠ blob_path prefix epoch (blob_hash v) →
      st_objects w' !! p = st_objects w !! p) ∧
    (∀ p o, st_objects w !! p = Some o → st_objects w' !! p = Some o).
Proof using Type*.
  intros Hwf Haddr Hsafe. unfold put_blob, op_try.
  destruct (st_put_law (blob_path prefix epoch (blob_hash v)) v Create w Hwf (accepted _))
    as (r & w' & -> & Hwf' & Hr); [intros tag Ht Hno; by apply Hsafe, Hno|].
  destruct r as [out|e].
  - destruct Hr as (tag & _ & Ho & Hnone). exists w'. rewrite Ho. split_and!; [done|done| | |].
    + exists tag. by rewrite lookup_insert_eq.
    + intros p Hp. by rewrite lookup_insert_ne.
    + intros p o Hp. rewrite lookup_insert_ne; [done|]. intros <-. congruence.
  - destruct Hr as ([msg ->] & Ho & [[b tag] Hb]). exists w'. rewrite Ho.
    split_and!; [done|done| |done|done]. rewrite Hb. apply Haddr in Hb as ->. by exists tag.
Qed.

(** A spilled value comes back: writing the blob and resolving the pointer
    it yields, with any growth of the backend in between, returns the value
    after the length and checksum tests; and writing an existing blob again
    is not an error. *)
Theorem spill_resolve (prefix : ObjectPath) (epoch : N) (v : bytes) (w w2 : W)
    `{!Accepts W (blob_path prefix epoch (blob_hash v)), !Unguarded W} :
  st_wf w → blob_addressed prefix epoch v w →
  ∃ ptr w1, spill prefix epoch v w = (Ok ptr, w1) ∧ st_wf w1 ∧
    (∀ p o, st_objects w !! p = Some o → st_objects w1 !! p = Some o) ∧
    (st_wf w2 → (∀ p o, st_objects w1 !! p = Some o → st_objects w2 !! p = Some o) →
     ∃ w3, resolve_value ptr w2 = (Ok v, w3) ∧ st_objects w3 = st_objects w2).
Proof using Type*.
  intros Hwf Haddr.
  destruct (put_blob_spec prefix epoch v w Hwf Haddr (λ _ _ _, unguarded _))
    as (w1 & Hput & Hwf1 & [tag Hob] & _ & Hkeep).
  eexists _, w1. unfold spill. rewrite (op_bind_ok _ _ _ _ _ Hput).
  split; [done|]. split; [done|]. split; [done|]. intros Hwf2 Hgrow.
  unfold resolve_value. rewrite decode_encode_pointer. cbn [bp_blob bp_len bp_crc].
  destruct (st_get_law (blob_path prefix epoch (blob_hash v)) w2 Hwf2 (accepted _))
    as (r & w3 & Hget & Ho3 & _ & Hr).
  rewrite (Hgrow _ _ Hob) in Hr. destruct Hr as [ver ->].
  exists w3. split; [|done]. unfold op_bind, get_blob, op_try. rewrite Hget.
  unfold op_ret. cbn [go_bytes]. by rewrite !bool_decide_eq_false_2 by auto.
Qed.
End laws.

Section witnesses.
#[local] Existing Instance length_digests.
#[local] Instance pointer_json : Json BlobPointer := countable_json.
#[local] Instance pointer_json_laws : JsonLaws BlobPointer := countable_json_laws.

Definition spilled : MemInner := (spill "p" 1 (as_bytes "large") mem_new).2.

Lemma spill_resolve_witness :
  ∃ ptr w1, spill "p" 1 (as_bytes "large") mem_new = (Ok ptr, w1) ∧ st_wf w1 ∧
    (∀ p o, st_objects mem_new !! p = Some o → st_objects w1 !! p = Some o) ∧
    (st_wf spilled →
     (∀ p o, st_objects w1 !! p = Some o → st_objects spilled !! p = Some o) →
     ∃ w3, resolve_value ptr spilled = (Ok (as_bytes "large"), w3) ∧
       st_objects w3 = st_objects spilled).
Proof.
  apply (spill_resolve "p" 1 (as_bytes "large") mem_new spilled); [exact I|].
  intros b tag Hb. vm_compute in Hb. discriminate.
Defined.
End witnesses.
