(* ===== verification/Probe.v ===== *)
(** The storage probe: [src/src/store/lsm/probe.rs]. *)

From stdpp Require Import options.
From S2P Require Import Prelude Core Storage.

Definition probe_path (prefix : ObjectPath) : ObjectPath :=
  let base := if path_is_empty prefix then "probe" else child prefix "probe" in
  child base "canary".

(** The tag no backend gives, in double quotes. *)
Definition stale_tag : string :=
  let quote := String (Ascii.ascii_of_nat 34) "" in
  quote +:+ "stale-etag-should-not-match" +:+ quote.

Section probe.
Context {W : Type} `{StorageBackend W}.

(** [let _ = store.delete(&path).await; return Err(..)]. *)
Definition probe_fail (path : ObjectPath) (msg : string) : Op W () :=
  try! _ := st_delete path in op_throw (Storage msg).

(** [.map_err(|e| Storage(format!("{what} failed: {e}")))]. *)
Definition probe_step {A} (what : string) (m : Op W A) : Op W A :=
  try! r := m in
  match r with
  | Ok a => op_ret a
  | Err e => op_throw (Storage ("probe " +:+ what +:+ " failed: " +:+ Core.to_string e))
  end.

(** What follows the first create. *)
Definition probe_checks (path : ObjectPath) (first : PutOutcome) : Op W () :=
  try! second := st_put_opts path (as_bytes "probe2") Create in
  match second with
  | Ok _ => probe_fail path
      "probe store accepted duplicate create — conditional writes not enforced (needs S3/R2/GCS/Azure, not B2/Hetzner)"
  | Err (CasConflict _) =>
      try! third := st_put_opts path (as_bytes "probe3")
        (Update (MkVersion (Some stale_tag) None)) in
      match third with
      | Ok _ => probe_fail path
          "probe store accepted stale If-Match — conditional overwrite not enforced"
      | Err (CasConflict _) =>
          let valid := MkVersion (po_e_tag first) (po_version first) in
          let! _ := probe_step "valid update"
            (st_put_opts path (as_bytes "probe-ok") (Update valid)) in
          probe_step "cleanup" (st_delete path)
      | Err e => probe_fail path
          ("probe stale update unexpected error (expected CAS conflict): " +:+
            Core.to_string e)
      end
  | Err e => probe_fail path
      ("probe second create unexpected error (expected CAS conflict): " +:+
        Core.to_string e)
  end.

Definition probe_store (prefix : ObjectPath) : Op W () :=
  let path := probe_path prefix in
  let! first := probe_step "create" (st_put_opts path (as_bytes "probe") Create) in
  probe_checks path first.

Lemma probe_step_ok {A} what (m : Op W A) w a w' :
  probe_step what m w = (Ok a, w') → m w = (Ok a, w').
Proof. unfold probe_step, op_try. by destruct (m w) as [[] ?]. Qed.

Lemma probe_fail_not_ok path msg w w' : probe_fail path msg w ≠ (Ok (), w').
Proof. unfold probe_fail, op_try. by destruct (st_delete path w). Qed.

(** The probe vouches for what it saw: on any backend whatsoever, it passes
    only if the backend took the first create, refused the second one and the
    overwrite with a stale tag as conflicts, and took the overwrite with the
    tag it had returned. *)
Theorem probe_sound (prefix : ObjectPath) (w w' : W) :
  let path := probe_path prefix in
  probe_store prefix w = (Ok (), w') →
  ∃ first w1 c2 w2 c3 w3 out4 w4,
    st_put_opts path (as_bytes "probe") Create w = (Ok first, w1) ∧
    st_put_opts path (as_bytes "probe2") Create w1 = (Err (CasConflict c2), w2) ∧
    st_put_opts path (as_bytes "probe3") (Update (MkVersion (Some stale_tag) None)) w2 =
      (Err (CasConflict c3), w3) ∧
    st_put_opts path (as_bytes "probe-ok")
      (Update (MkVersion (po_e_tag first) (po_version first))) w3 = (Ok out4, w4) ∧
    st_delete path w4 = (Ok (), w').
Proof.
  intros path Hp. unfold probe_store in Hp. fold path in Hp.
  apply op_bind_inv in Hp as (first & w1 & H1 & Hp). apply probe_step_ok in H1. unfold probe_checks in Hp.
  unfold op_try at 1 in Hp.
  destruct (st_put_opts path (as_bytes "probe2") Create w1) as [[o2|e2] w2] eqn:H2;
    [by apply probe_fail_not_ok in Hp|].
  destruct e2; try (exfalso; by eapply probe_fail_not_ok).
  unfold op_try at 1 in Hp.
  destruct (st_put_opts path (as_bytes "probe3") _ w2) as [[o3|e3] w3] eqn:H3;
    [by apply probe_fail_not_ok in Hp|].
  destruct e3; try (exfalso; by eapply probe_fail_not_ok).
  apply op_bind_inv in Hp as (out4 & w4 & H4 & Hp). apply probe_step_ok in H4, Hp.
  by eexists first, w1, _, w2, _, w3, out4, w4.
Qed.
End probe.

(** On a backend that keeps its contract the probe touches its canary only; when
    it passes it has removed it, and when there is one before, it leaves all as
    it is. *)
Section contract.
Context {W : Type} `{StorageLaws W} `{!Unguarded W} (prefix : ObjectPath) `{!Accepts W (probe_path prefix)}.
Abbreviation path := (probe_path prefix).

Definition off_canary (w w' : W) : Prop :=
  st_wf w' ∧ ∀ q, q ≠ path → st_objects w' !! q = st_objects w !! q.

Lemma canary_put b mode w :
  st_wf w → ∃ r w', st_put_opts path b mode w = (r, w') ∧ off_canary w w' ∧
    match r with
    | Ok out => is_Some (st_objects w' !! path) ∧
        match mode with Create => st_objects w !! path = None | Update _ => True end
    | Err e => (∃ msg, e = CasConflict msg) ∧ st_objects w' = st_objects w ∧
        match mode with Create => is_Some (st_objects w !! path) | Update _ => True end
    end.
Proof using Type*.
  intros Hwf. destruct (st_put_law path b mode w Hwf (accepted _) (λ _ _ _, unguarded _)) as (r & w' & Hp & Hwf' & Hr).
  exists r, w'. split; [done|]. destruct r as [out|e].
  - destruct Hr as (tag & _ & Ho & Hm). split.
    + split; [done|]. intros q Hq. rewrite Ho. by apply lookup_insert_ne.
    + rewrite Ho, lookup_insert_eq. split; [done|]. by destruct mode.
  - destruct Hr as (He & Ho & Hm). split; [split; [done|by rewrite Ho]|]. split_and!; [done..|by destruct mode].
Qed.

Lemma canary_delete w :
  st_wf w → ∃ w', st_delete path w = (Ok (), w') ∧ off_canary w w' ∧ st_objects w' !! path = None.
Proof using Type*.
  intros Hwf. destruct (st_delete_law path w Hwf (accepted _) (unguarded _)) as (w' & Hd & Hwf' & Ho).
  exists w'. rewrite Ho, lookup_delete_eq. split_and!; [done| |done]. split; [done|]. intros q Hq.
  rewrite Ho. by apply lookup_delete_ne.
Qed.

Lemma off_canary_trans w w1 w2 : off_canary w w1 → off_canary w1 w2 → off_canary w w2.
Proof using Type. intros [_ H1] [? H2]. split; [done|]. intros q Hq. by rewrite H2, H1. Qed.

Lemma checks_outcome first w :
  st_wf w → is_Some (st_objects w !! path) →
  ∃ r w', probe_checks path first w = (r, w') ∧ off_canary w w' ∧ (r = Ok () → st_objects w' !! path = None).
Proof using Type*.
  intros Hwf Hc. unfold probe_checks, op_try at 1.
  destruct (canary_put (as_bytes "probe2") Create w Hwf) as (r & w1 & -> & H1 & Hr).
  destruct r as [out|e]; [destruct Hr as [_ Hn]; by rewrite Hn in Hc; destruct Hc|].
  destruct Hr as ([msg ->] & _). unfold op_try at 1.
  destruct (canary_put (as_bytes "probe3") (Update (MkVersion (Some stale_tag) None)) w1 (proj1 H1))
    as (r & w2 & -> & H2 & Hr).
  pose proof (off_canary_trans _ _ _ H1 H2) as H12. destruct r as [out|e].
  - unfold probe_fail, op_try. destruct (canary_delete w2 (proj1 H2)) as (w3 & -> & H3 & _).
    eexists _, w3. split; [done|]. split; [by eapply off_canary_trans|done].
  - destruct Hr as ([msg' ->] & _). unfold op_bind, probe_step at 1, op_try at 1.
    destruct (canary_put (as_bytes "probe-ok") (Update (MkVersion (po_e_tag first) (po_version first))) w2
      (proj1 H2)) as (r & w3 & -> & H3 & _).
    pose proof (off_canary_trans _ _ _ H12 H3) as H13. destruct r as [out|e].
    + cbn [op_ret]. unfold probe_step, op_try. destruct (canary_delete w3 (proj1 H3)) as (w4 & -> & H4 & Hn).
      exists (Ok ()), w4. split; [done|]. split; [by eapply off_canary_trans|done].
    + eexists _, w3. split; [done|]. by split.
Qed.

Lemma probe_outcome w :
  st_wf w →
  ∃ r w', probe_store prefix w = (r, w') ∧ off_canary w w' ∧ (r = Ok () → st_objects w' = st_objects w) ∧
    (is_Some (st_objects w !! path) → st_objects w' = st_objects w ∧
      ∃ msg, r = Err (Storage ("probe create failed: CAS conflict: " +:+ msg))).
Proof using Type*.
  intros Hwf. unfold probe_store, op_bind, probe_step at 1, op_try at 1.
  destruct (canary_put (as_bytes "probe") Create w Hwf) as (r & w1 & -> & H1 & Hr). destruct r as [out|e].
  - destruct Hr as [Hs Hn]. cbn [op_ret].
    destruct (checks_outcome out w1 (proj1 H1) Hs) as (r & w2 & Hc & H2 & Hok).
    pose proof (off_canary_trans _ _ _ H1 H2) as H12. exists r, w2. split; [done|]. split; [done|]. split.
    + intros Hr. apply map_eq. intros q. destruct (decide (q = path)) as [->|Hq]; [|by apply H12].
      by rewrite Hok, Hn.
    + rewrite Hn. by intros [].
  - destruct Hr as ([msg ->] & Ho & _). eexists _, w1. split; [done|]. split; [done|]. split; [done|].
    intros _. split; [done|]. exists msg. done.
Qed.
End contract.

(** On the in-memory backend without a canary the probe passes and leaves no
    trace among the objects. *)
Theorem probe_passes (prefix : ObjectPath) (w : MemInner) :
  objects w !! probe_path prefix = None →
  ∃ w', probe_store prefix w = (Ok (), w') ∧ objects w' = objects w.
Proof.
  intros Hnone. unfold probe_store, probe_checks. set (path := probe_path prefix) in *.
  unfold op_bind at 1, probe_step at 1, op_try at 1. cbn [st_put_opts MemStorage_Storage].
  unfold mem_put_opts at 1, mem_precondition at 1. rewrite Hnone, decide_False by (by intros []).
  cbn [next_version]. unfold op_try at 1, op_ret at 1, mem_put_opts at 1, mem_precondition at 1.
  cbn [objects]. rewrite lookup_insert_eq, decide_True by done.
  unfold op_try at 1, mem_put_opts at 1, mem_precondition at 1.
  cbn [objects ov_e_tag mo_etag]. rewrite lookup_insert_eq, decide_False.
  2: { intros Heq%(inj Some). apply (f_equal String.length) in Heq.
       cbn [mo_etag] in Heq. by rewrite hex_pad_length in Heq. }
  unfold op_bind at 1, probe_step at 1, op_try at 1, mem_put_opts at 1, mem_precondition at 1.
  cbn [objects ov_e_tag ov_version mo_etag mo_version po_e_tag po_version].
  rewrite lookup_insert_eq, decide_True, decide_True by done.
  eexists. split; [done|]. simpl. rewrite !delete_insert_eq. by apply delete_id.
Qed.

Lemma probe_passes_witness :
  ∃ w', probe_store "p" mem_new = (Ok (), w') ∧ objects w' = objects mem_new.
Proof. apply (probe_passes "p" mem_new). reflexivity. Defined.

Lemma probe_sound_witness :
  ∃ first w1, st_put_opts (probe_path "p") (as_bytes "probe") Create mem_new = (Ok first, w1).
Proof.
  destruct (probe_sound "p" mem_new (probe_store "p" mem_new).2)
    as (first & w1 & _ & _ & _ & _ & _ & _ & H1 & _); [vm_compute; reflexivity|].
  exists first, w1. exact H1.
Defined.
