(* ===== verification/Wal.v ===== *)
(** Write-ahead log records and their replay: [src/src/store/lsm/wal.rs], the
    encoder [encode_ops] of [src/src/store/lsm/store.rs] and the entry decoder
    [decode_entry] of [src/src/store/lsm/sst.rs], which reads the same frames.

    A position in a buffer is the slice from it on. *)

From stdpp Require Import options.
From S2P Require Import Prelude OrdMap Core Codec Hooks Snapshot Storage Json Manifest.

(** A staged operation: [None] is a tombstone. *)
Abbreviation row := (string * option bytes)%type.
Abbreviation MemMap := (gmap string (option bytes)).

Definition TOMBSTONE_VLEN : N := U32_MAX.

(** ** Encoding *)

Definition encode_op (buf : bytes) (op : row) : Result bytes :=
  match op.2 with
  | Some v =>
      map_err (λ e, Storage ("encode wal: " +:+ Core.to_string e))
        (encode_record buf op.1 v)
  | None =>
      let? klen := map_err (λ e, Storage ("key too long: " +:+ Core.to_string e))
        (u32_try_from (blen (as_bytes op.1))) in
      Ok (buf ++ u32_le klen ++ as_bytes op.1 ++ u32_le TOMBSTONE_VLEN)
  end.

Fixpoint encode_ops_from (buf : bytes) (ops : list row) : Result bytes :=
  match ops with
  | [] => Ok buf
  | op :: ops => let? buf := encode_op buf op in encode_ops_from buf ops
  end.

Definition encode_ops (ops : list row) : Result bytes := encode_ops_from [] ops.

(** ** Decoding *)

(** [decode_entry]: the entry at the head of the slice and the slice after it;
    [None] on truncation. *)
Definition decode_entry (l : bytes) : Result (option (row * bytes)) :=
  if (blen l <? 4)%N then Ok None
  else
    let klen := from_le_bytes (take 4 l) in
    if (blen l <? 4 + klen + 4)%N then Ok None
    else
      match utf8_error (take (N.to_nat klen) (drop 4 l)) with
      | Some e => Err (Storage ("utf8: " +:+ utf8_message e))
      | None =>
          let k := of_bytes (take (N.to_nat klen) (drop 4 l)) in
          let v := drop (N.to_nat klen) (drop 4 l) in
          let vlen := from_le_bytes (take 4 v) in
          if (vlen =? TOMBSTONE_VLEN)%N then Ok (Some ((k, None), drop 4 v))
          else if (blen l <? 4 + klen + 4 + vlen)%N then Ok None
          else Ok (Some ((k, Some (take (N.to_nat vlen) (drop 4 v))),
                         drop (N.to_nat vlen) (drop 4 v)))
      end.

(** The loop of [decode_wal_records]: the same frame by frame, except that an
    invalid key ends the file as a truncation does.  A frame is at least eight
    bytes, so the length of the data is enough fuel. *)
Fixpoint decode_wal_loop (fuel : nat) (l : bytes) (records : list row) : list row :=
  match fuel with
  | O => records
  | S fuel =>
      match decode_entry l with
      | Ok (Some (r, l')) => decode_wal_loop fuel l' (records ++ [r])
      | Ok None | Err _ => records
      end
  end.

Definition decode_wal_records (data : bytes) : list row :=
  decode_wal_loop (S (length data)) data [].

(** ** Replay *)

Definition apply_rows (rows : list row) (m : MemMap) : MemMap :=
  foldl (λ m r, <[r.1 := r.2]> m) m rows.

Lemma apply_rows_app l1 l2 m : apply_rows (l1 ++ l2) m = apply_rows l2 (apply_rows l1 m).
Proof. apply foldl_app. Qed.

Section replay.
Context {W : Type} `{StorageBackend W} `{Json Manifest} `{Clock W}.

(** Storage, manifest cache and the table under replay. *)
Abbreviation replaying := ((W * ManifestCache) * MemMap)%type.

Definition on_cached {A} : Op (W * ManifestCache) A → Op replaying A :=
  op_zoom fst (λ c s, (c, s.2)).

(** [read.rs]: a [Storage] error whose text says [not found]. *)
Definition is_not_found (e : StoreError) : bool :=
  match e with Storage msg => str_contains msg "not found" | _ => false end.

(** One pass over the listed files: the missing ones. *)
Fixpoint replay_pass (ids missing : list string) : Op replaying (list string) :=
  match ids with
  | [] => op_ret missing
  | wal_id :: ids =>
      try! r := on_cached (on_storage (st_get wal_id)) in
      match r with
      | Ok out =>
          op_modify (λ s : replaying,
            (s.1, apply_rows (decode_wal_records (go_bytes out)) s.2)) ;;
          replay_pass ids missing
      | Err e =>
          if is_not_found e then replay_pass ids (missing ++ [wal_id])
          else op_throw (Storage ("read wal " +:+ wal_id +:+ " failed: " +:+
                                   Core.to_string e))
      end
  end.

Fixpoint join_comma (l : list string) : string :=
  match l with
  | [] => ""
  | [s] => s
  | s :: l => s +:+ ", " +:+ join_comma l
  end.

Definition replay_listed_wals (prefix : ObjectPath) (epoch : N) (wal_ids : list string) :
    Op replaying () :=
  let! missing := replay_pass wal_ids [] in
  match missing with
  | [] => op_ret ()
  | _ =>
      on_cached (op_modify (λ c : W * ManifestCache, (c.1, cache_clear c.2))) ;;
      let! m := on_cached (load_manifest prefix epoch 0) in
      let! missing := replay_pass (mf_wal m.1) [] in
      match missing with
      | [] => op_ret ()
      | _ => op_throw (Storage ("wal listed in manifest but absent from storage: " +:+
                                 join_comma missing))
      end
  end.
End replay.

(** ** The frame format *)

(** One frame; [op_ok] is what a writable operation satisfies.  A value of
    [TOMBSTONE_VLEN] bytes is not one, see [wal_max_value_lost]. *)
Definition frame (op : row) : bytes :=
  u32_le (blen (as_bytes op.1)) ++ as_bytes op.1 ++
  match op.2 with
  | Some v => u32_le (blen v) ++ v
  | None => u32_le TOMBSTONE_VLEN
  end.

Definition frames (ops : list row) : bytes := mjoin (frame <$> ops).

Definition op_ok (op : row) : Prop :=
  valid_str op.1 ∧ (blen (as_bytes op.1) ≤ U32_MAX)%N ∧
  match op.2 with Some v => (blen v < TOMBSTONE_VLEN)%N | None => True end.

#[export] Instance op_ok_dec op : Decision (op_ok op).
Proof. unfold op_ok. destruct (op.2); apply _. Defined.

Lemma frame_length op :
  length (frame op) =
    8 + length (as_bytes op.1) + match op.2 with Some v => length v | None => 0 end.
Proof.
  unfold frame. rewrite !length_app, to_le_bytes_length.
  destruct op.2; rewrite ?length_app, to_le_bytes_length; lia.
Qed.

Lemma encode_op_ok buf op : op_ok op → encode_op buf op = Ok (buf ++ frame op).
Proof.
  intros (_ & Hk & Hv). unfold encode_op, frame. destruct op as [k [v|]]; simpl in *.
  - unfold encode_record, u32_try_from. unfold TOMBSTONE_VLEN in Hv.
    rewrite !decide_True by (done || lia). done.
  - unfold u32_try_from. by rewrite decide_True.
Qed.

Lemma frames_cons op ops : frames (op :: ops) = frame op ++ frames ops.
Proof. done. Qed.

Lemma encode_ops_from_ok buf ops :
  Forall op_ok ops → encode_ops_from buf ops = Ok (buf ++ frames ops).
Proof.
  intros Hok. revert buf. induction Hok as [|op ops Hop _ IH]; intros buf; simpl.
  { unfold frames. simpl. by rewrite app_nil_r. }
  rewrite encode_op_ok by done. cbn [res_bind]. by rewrite IH, frames_cons, app_assoc.
Qed.

Lemma take_blen (l r : bytes) : take (N.to_nat (blen l)) (l ++ r) = l.
Proof. unfold blen. by rewrite Nat2N.id, take_app_length. Qed.
Lemma drop_blen (l r : bytes) : drop (N.to_nat (blen l)) (l ++ r) = r.
Proof. unfold blen. by rewrite Nat2N.id, drop_app_length. Qed.
Lemma blen_app (l r : bytes) : blen (l ++ r) = (blen l + blen r)%N.
Proof. unfold blen. rewrite length_app. lia. Qed.
Lemma blen_u32 n : blen (u32_le n) = 4%N.
Proof. unfold blen. by rewrite to_le_bytes_length. Qed.

Lemma u32_head n (l : bytes) : take 4 (u32_le n ++ l) = u32_le n ∧ drop 4 (u32_le n ++ l) = l.
Proof. split; [by apply take_app_length'|by apply drop_app_length']. Qed.

(** What follows the key of a frame. *)
Definition frame_tail (v : option bytes) : bytes :=
  match v with Some v => u32_le (blen v) ++ v | None => u32_le TOMBSTONE_VLEN end.

Lemma decode_entry_head k (rest : bytes) :
  valid_str k → (blen (as_bytes k) ≤ U32_MAX)%N →
  decode_entry (u32_le (blen (as_bytes k)) ++ as_bytes k ++ rest) =
    if (blen rest <? 4)%N then Ok None
    else
      let vlen := from_le_bytes (take 4 rest) in
      if (vlen =? TOMBSTONE_VLEN)%N then Ok (Some ((k, None), drop 4 rest))
      else if (blen rest <? 4 + vlen)%N then Ok None
      else Ok (Some ((k, Some (take (N.to_nat vlen) (drop 4 rest))),
                     drop (N.to_nat vlen) (drop 4 rest))).
Proof.
  intros Hs Hk. unfold decode_entry. cbv zeta.
  destruct (u32_head (blen (as_bytes k)) (as_bytes k ++ rest)) as [-> ->].
  rewrite from_to_u32, take_blen, drop_blen by done. unfold valid_str in Hs.
  rewrite Hs, of_as_bytes, !blen_app, blen_u32. rewrite (proj2 (N.ltb_ge _ _)) by lia.
  destruct (N.ltb_spec (blen rest) 4).
  - by rewrite (proj2 (N.ltb_lt _ _)) by lia.
  - rewrite (proj2 (N.ltb_ge _ _)) by lia. destruct (_ =? _)%N; [done|].
    destruct (N.ltb_spec (blen rest) (4 + from_le_bytes (take 4 rest))).
    + by rewrite (proj2 (N.ltb_lt _ _)) by lia.
    + by rewrite (proj2 (N.ltb_ge _ _)) by lia.
Qed.

Lemma frame_split k v :
  frame (k, v) = u32_le (blen (as_bytes k)) ++ as_bytes k ++ frame_tail v.
Proof. done. Qed.

Lemma decode_frame op rest :
  op_ok op → decode_entry (frame op ++ rest) = Ok (Some (op, rest)).
Proof.
  destruct op as [k v]. intros (Hs & Hk & Hv). cbn [fst snd] in *.
  rewrite frame_split, <-!app_assoc, decode_entry_head by done. cbv zeta.
  unfold frame_tail. destruct v as [v|]; rewrite <-?app_assoc.
  - unfold TOMBSTONE_VLEN in Hv.
    destruct (u32_head (blen v) (v ++ rest)) as [-> ->].
    rewrite from_to_u32, take_blen, drop_blen, !blen_app, blen_u32 by lia.
    rewrite !(proj2 (N.ltb_ge _ _)) by lia.
    rewrite (proj2 (N.eqb_neq _ _)) by (unfold TOMBSTONE_VLEN; lia). done.
  - destruct (u32_head TOMBSTONE_VLEN rest) as [-> ->].
    rewrite from_to_u32, blen_app, blen_u32 by done.
    rewrite (proj2 (N.ltb_ge _ _)) by lia. by rewrite N.eqb_refl.
Qed.

(** A cut frame decodes to nothing, as long as its value length is not cut
    off to look like a tombstone: a value is never that long. *)
Lemma decode_cut op (p : bytes) :
  op_ok op → p `prefix_of` frame op → length p < length (frame op) →
  decode_entry p = Ok None.
Proof.
  destruct op as [k v]. intros (Hs & Hk & Hv) Hpre Hlen. cbn [fst snd] in *.
  rewrite frame_split in Hpre, Hlen.
  destruct (prefix_weak_total (u32_le (blen (as_bytes k)) ++ as_bytes k) p
    (u32_le (blen (as_bytes k)) ++ as_bytes k ++ frame_tail v)) as [[r ->]|Hsh].
  - rewrite app_assoc. by apply prefix_app_r.
  - done.
  - (* the key is whole *)
    rewrite <-!app_assoc in *. apply prefix_app_inv, prefix_app_inv in Hpre.
    rewrite !length_app in Hlen. rewrite decode_entry_head by done. cbv zeta.
    destruct (N.ltb_spec (blen r) 4) as [|H4]; [done|]. unfold blen in H4.
    unfold frame_tail in *. destruct v as [v|].
    + rewrite (u32_prefix_take _ _ _ Hpre), from_to_u32 by (unfold TOMBSTONE_VLEN in *; lia).
      rewrite (proj2 (N.eqb_neq _ _)) by lia. rewrite (proj2 (N.ltb_lt _ _)); [done|].
      rewrite !length_app, !to_le_bytes_length in Hlen. unfold blen. lia.
    + exfalso. rewrite !to_le_bytes_length in Hlen. lia.
  - (* not even the key is whole *)
    unfold decode_entry. cbv zeta. apply prefix_length in Hsh as Hl.
    destruct (N.ltb_spec (blen p) 4) as [|H4]; [done|]. unfold blen in H4.
    rewrite (u32_prefix_take _ _ _ Hsh), from_to_u32 by (done || lia).
    rewrite (proj2 (N.ltb_lt _ _)); [done|].
    rewrite length_app, to_le_bytes_length in Hl. unfold blen. lia.
Qed.

(** ** Whole files *)

(** Decoding a prefix of a log: the whole frames it holds. *)
Lemma decode_wal_loop_spec fuel ops p acc :
  Forall op_ok ops → p `prefix_of` frames ops → length p < fuel →
  ∃ ds todo, ops = ds ++ todo ∧ decode_wal_loop fuel p acc = acc ++ ds ∧
    frames ds `prefix_of` p ∧
    match todo with [] => True | op :: _ => length p < length (frames (ds ++ [op])) end.
Proof.
  intros Hok. revert p acc ops Hok. induction fuel as [|fuel IH]; intros p acc ops Hok Hpre Hf;
    [lia|]. cbn [decode_wal_loop]. destruct ops as [|op ops].
  { assert (p = []) as ->.
    { destruct Hpre as [q Hq]. symmetry in Hq. by apply app_eq_nil in Hq as [-> _]. }
    exists [], []. rewrite !app_nil_r. split_and!; [done|done|apply prefix_nil|done]. }
  apply Forall_cons in Hok as [Hop Hok]. rewrite frames_cons in Hpre.
  destruct (prefix_weak_total (frame op) p (frame op ++ frames ops)) as [[r ->]|Hsh];
    [by apply prefix_app_r|done| |].
  - rewrite decode_frame by done. apply prefix_app_inv in Hpre.
    rewrite length_app, frame_length in Hf.
    destruct (IH r (acc ++ [op]) ops Hok Hpre) as (ds & todo & -> & -> & Hds & Htodo); [lia|].
    exists (op :: ds), todo. rewrite frames_cons, <-app_assoc.
    split_and!; [done|done|by apply prefix_app|].
    destruct todo as [|op' todo]; [done|]. change ((op :: ds) ++ [op']) with (op :: (ds ++ [op'])).
    rewrite frames_cons, !length_app. lia.
  - destruct (decide (length p < length (frame op))) as [Hlt|Hge].
    + rewrite (decode_cut op) by done. exists [], (op :: ops). rewrite app_nil_r.
      split_and!; [done|done|apply prefix_nil|].
      change ([] ++ [op]) with [op]. rewrite frames_cons, length_app. lia.
    + assert (p = frame op) as -> by (apply prefix_length_eq; [done|lia]).
      rewrite <-(app_nil_r (frame op)), decode_frame by done.
      rewrite frame_length in Hf.
      destruct (IH [] (acc ++ [op]) ops Hok) as (ds & todo & -> & -> & Hds & Htodo);
        [apply prefix_nil|simpl; lia|].
      exists (op :: ds), todo. rewrite frames_cons, <-app_assoc.
      split_and!; [done|done|by apply prefix_app|].
      destruct todo as [|op' todo]; [done|].
      change ((op :: ds) ++ [op']) with (op :: (ds ++ [op'])).
      rewrite frames_cons, !length_app. lia.
Qed.

Lemma decode_wal_frames ops : Forall op_ok ops → decode_wal_records (frames ops) = ops.
Proof.
  intros Hok. unfold decode_wal_records.
  destruct (decode_wal_loop_spec (S (length (frames ops))) ops (frames ops) [])
    as (ds & todo & Hops & -> & Hds & Htodo); [done|done|lia|].
  destruct todo as [|op todo]; [by rewrite app_nil_r in Hops|].
  rewrite Hops in Htodo. unfold frames in Htodo.
  rewrite !fmap_app, !join_app, !length_app in Htodo. simpl in Htodo.
  rewrite !length_app in Htodo. simpl in Htodo. lia.
Qed.

(** C9: A log survives a crash in the middle of its upload: what was encoded
    decodes to the operations in their order, and any prefix of the bytes
    decodes, without an error, to exactly the operations whose frames it holds
    in full. *)
Theorem wal_torn_tail (ops : list row) :
  Forall op_ok ops →
  ∃ data, encode_ops ops = Ok data ∧ decode_wal_records data = ops ∧
    ∀ p, p `prefix_of` data →
      ∃ ds todo, ops = ds ++ todo ∧ decode_wal_records p = ds ∧
        (∃ d, encode_ops ds = Ok d ∧ d `prefix_of` p) ∧
        match todo with
        | [] => True
        | op :: _ => ∀ d, encode_ops (ds ++ [op]) = Ok d → ¬ d `prefix_of` p
        end.
Proof.
  intros Hok. exists (frames ops). unfold encode_ops at 1.
  rewrite encode_ops_from_ok, decode_wal_frames by done. split_and!; [done|done|].
  intros p Hpre. unfold decode_wal_records.
  destruct (decode_wal_loop_spec (S (length p)) ops p []) as (ds & todo & -> & -> & Hds & Htodo);
    [done|done|lia|].
  exists ds, todo. apply Forall_app in Hok as [Hok Hok'].
  split_and!; [done|done| |].
  - exists (frames ds). unfold encode_ops. by rewrite encode_ops_from_ok.
  - destruct todo as [|op todo]; [done|]. intros d. unfold encode_ops.
    apply Forall_cons in Hok' as [Hop _].
    rewrite encode_ops_from_ok by (apply Forall_app; split; [done|by constructor]).
    intros [= <-] Hp. apply prefix_length in Hp. simpl in Hp. lia.
Qed.

Lemma wal_torn_tail_witness :
  ∃ data, encode_ops [("a", Some (as_bytes "1")); ("b", None)] = Ok data ∧
    decode_wal_records data = [("a", Some (as_bytes "1")); ("b", None)].
Proof.
  destruct (wal_torn_tail [("a", Some (as_bytes "1")); ("b", None)]) as (data & H1 & H2 & _).
  - apply (bool_decide_unpack _). vm_compute. exact I.
  - exists data. split; [exact H1|exact H2].
Defined.

(** The one value length the encoder accepts and the format cannot carry:
    a value of exactly [u32::MAX] bytes is written with the tombstone marker as
    its length and replays as a deletion of its key. *)
Theorem wal_max_value_lost (k : string) (v : bytes) :
  valid_str k → (blen (as_bytes k) ≤ U32_MAX)%N → blen v = U32_MAX →
  ∃ data rest, encode_ops [(k, Some v)] = Ok data ∧
    decode_wal_records data = (k, None) :: rest.
Proof.
  intros Hs Hk Hv. eexists. unfold encode_ops, encode_ops_from, encode_op, encode_record,
    u32_try_from. cbn [fst snd]. rewrite Hv, !decide_True by done. cbn [map_err res_bind app].
  assert (∀ fuel l acc, ∃ rest, decode_wal_loop fuel l acc = acc ++ rest) as Happ.
  { induction fuel as [|fuel IH]; intros l acc; cbn [decode_wal_loop];
      [exists []; by rewrite app_nil_r|].
    destruct (decode_entry l) as [[[r l']|]|e]; [|by exists []; rewrite app_nil_r..].
    destruct (IH l' (acc ++ [r])) as [rest ->]. exists (r :: rest). by rewrite <-app_assoc. }
  unfold decode_wal_records. cbn [decode_wal_loop].
  rewrite decode_entry_head by done. cbv zeta.
  destruct (u32_head U32_MAX v) as [-> ->]. rewrite blen_app, blen_u32.
  rewrite (proj2 (N.ltb_ge _ _)) by lia. rewrite from_to_u32 by done.
  change (U32_MAX =? TOMBSTONE_VLEN)%N with true. cbv iota.
  match goal with |- context [decode_wal_loop ?f v ?acc] => destruct (Happ f v acc) as [r Hr] end.
  exists r. split; [done|]. by rewrite Hr.
Qed.

Lemma wal_max_value_lost_witness :
  ∃ data rest,
    encode_ops [("k", Some (replicate (N.to_nat U32_MAX) x00))] = Ok data ∧
    decode_wal_records data = ("k", None) :: rest.
Proof.
  apply (wal_max_value_lost "k" (replicate (N.to_nat U32_MAX) x00)).
  - vm_compute. reflexivity.
  - vm_compute. discriminate.
  - unfold blen. rewrite length_replicate. apply N2Nat.id.
Defined.

(** ** Replay *)

Section replay_spec.
Context {W : Type} `{ClockLaws W} `{JsonLaws Manifest}.

(** Every listed file holds the frames of its operations. *)
Definition listed (w : W) (files : list (string * list row)) : Prop :=
  Forall (λ f, Forall op_ok f.2 ∧ ∃ tag, st_objects w !! f.1 = Some (frames f.2, tag)) files.

Lemma listed_same w w' files :
  st_objects w' = st_objects w → listed w files → listed w' files.
Proof. unfold listed. by intros ->. Qed.

Lemma replay_pass_spec files w c m :
  st_wf w → listed w files →
  ∃ w', replay_pass files.*1 [] ((w, c), m) =
      (Ok [], ((w', c), apply_rows (mjoin files.*2) m)) ∧
    st_wf w' ∧ st_objects w' = st_objects w.
Proof using Type*.
  revert w m. induction files as [|[id ops] files IH]; intros w m Hwf Hl.
  { by exists w. }
  apply Forall_cons in Hl as [(Hok & tag & Hob) Hl]. simpl in Hok, Hob.
  cbn [fmap list_fmap fst replay_pass]. unfold op_try, on_cached at 1, on_storage at 1,
    op_zoom. cbn [fst snd].
  destruct (st_get_law id w Hwf (st_known _ _ Hwf (mk_is_Some _ _ Hob))) as (r & w1 & -> & Ho & Hwf1 & Hr).
  rewrite Hob in Hr. destruct Hr as [ver ->]. cbn [go_bytes].
  rewrite decode_wal_frames by done. unfold op_bind, op_modify. cbn [fst snd].
  destruct (IH w1 (apply_rows ops m) Hwf1) as (w2 & -> & Hwf2 & Ho2);
    [by eapply listed_same|].
  exists w2. split; [|split; [done|congruence]].
  by rewrite <-apply_rows_app.
Qed.

(** Recovery: replaying logs that are all present rebuilds the table by
    applying every logged operation in the order it was logged, on top of
    what the table held, without touching an object. *)
Theorem replay_rebuilds (prefix : ObjectPath) (epoch : N)
    (files : list (string * list row)) (w : W) (c : ManifestCache) (m : MemMap) :
  st_wf w → listed w files →
  ∃ w', replay_listed_wals prefix epoch files.*1 ((w, c), m) =
      (Ok (), ((w', c), apply_rows (mjoin files.*2) m)) ∧
    st_objects w' = st_objects w.
Proof using Type*.
  intros Hwf Hl. destruct (replay_pass_spec files w c m Hwf Hl) as (w' & Hp & _ & Ho).
  exists w'. unfold replay_listed_wals. by rewrite (op_bind_ok _ _ _ _ _ Hp).
Qed.
End replay_spec.

Section witnesses.
#[local] Existing Instance still_clock.
#[local] Existing Instance still_clock_laws.
#[local] Instance manifest_json : Json Manifest := countable_json.
#[local] Instance manifest_json_laws : JsonLaws Manifest := countable_json_laws.

Definition one_wal : MemInner :=
  (mem_put_opts "e000001/wal/00000000.log"
     (frames [("a", Some (as_bytes "1")); ("b", None)]) Create mem_new).2.

Lemma replay_rebuilds_witness :
  ∃ w', replay_listed_wals "" 1 ["e000001/wal/00000000.log"] ((one_wal, cache_new), ∅) =
      (Ok (), ((w', cache_new),
               apply_rows [("a", Some (as_bytes "1")); ("b", None)] ∅)) ∧
    st_objects w' = st_objects one_wal.
Proof.
  apply (replay_rebuilds "" 1
    [("e000001/wal/00000000.log", [("a", Some (as_bytes "1")); ("b", None)])]
    one_wal cache_new ∅); [exact I|].
  constructor; [|constructor]. split.
  - apply (bool_decide_unpack _). vm_compute. exact I.
  - exists "0000000000000001". vm_compute. reflexivity.
Defined.
End witnesses.
