(* ===== verification/Merge.v ===== *)
(** The newest-wins merge: [src/src/store/lsm/merge.rs].

    A pull source is the list of the items it will yield.  The [BinaryHeap] is
    the list of its entries in the order in which it pops them. *)

From stdpp Require Import options.
From S2P Require Import Prelude OrdMap Core Wal.

(** ** Definitions *)

(** [map.entry(key).or_insert(value)]. *)
Definition or_insert (m : MemMap) (r : row) : MemMap :=
  match m !! r.1 with Some _ => m | None => <[r.1 := r.2]> m end.

Definition newest_map (sources : list (list row)) : MemMap :=
  foldl (λ m src, foldl or_insert m src) ∅ sources.

Definition live_rows (l : list row) : list (string * bytes) :=
  omap (λ r : row, pair r.1 <$> r.2) l.

Definition merge_sources (sources : list (list row)) : list KeyValue :=
  to_kv <$> live_rows (bt_iter (newest_map sources)).

Record MergeHeapEntry := MkHeapEntry {
  he_key : string;
  he_rank : nat;
  he_value : option bytes;
}.

(** The order of [MergeHeapEntry], reversed as the code reverses it: the entry
    that pops first comes first.  The [source] of an entry is its rank. *)
Definition pops_before (a b : MergeHeapEntry) : Prop :=
  he_key a <ₖ he_key b ∨ (he_key a = he_key b ∧ he_rank a < he_rank b).

#[export] Instance pops_before_dec : RelDecision pops_before.
Proof. intros a b. unfold pops_before. apply _. Defined.

Fixpoint heap_push (e : MergeHeapEntry) (h : list MergeHeapEntry) : list MergeHeapEntry :=
  match h with
  | [] => [e]
  | e' :: h' => if decide (pops_before e e') then e :: h else e' :: heap_push e h'
  end.

(** The heap and the sources. *)
Abbreviation merging := (list MergeHeapEntry * list (list (Result row)))%type.

(** Pulls the next item of a source into the heap. *)
Definition pull (rank : nat) : Op merging () := λ s,
  match s.2 !! rank with
  | Some (Ok (k, v) :: rest) =>
      (Ok (), (heap_push (MkHeapEntry k rank v) s.1, <[rank := rest]> s.2))
  | Some (Err e :: rest) => (Err e, (s.1, <[rank := rest]> s.2))
  | _ => (Ok (), s)
  end.

Fixpoint pull_all (ranks : list nat) : Op merging () :=
  match ranks with
  | [] => op_ret ()
  | r :: ranks => pull r ;; pull_all ranks
  end.

(** The inner loop: the older entries of the key are pulled and dropped. *)
Fixpoint drop_dups (fuel : nat) (k : string) : Op merging () := λ s,
  match fuel with
  | O => (Ok (), s)
  | S fuel =>
      match s.1 with
      | dup :: h =>
          if decide (he_key dup = k)
          then (pull (he_rank dup) ;; drop_dups fuel k) (h, s.2)
          else (Ok (), s)
      | [] => (Ok (), s)
      end
  end.

Definition total_len {A} (l : list (list A)) : nat := sum_list (length <$> l).

(** The outer loop; every round takes an item off a source or the heap, and
    so does every round of the inner one. *)
Fixpoint merge_loop (fuel : nat) (limit : option nat) (out : list (string * bytes)) :
    Op merging (list (string * bytes)) := λ s,
  match fuel with
  | O => (Ok out, s)
  | S fuel =>
      match s.1 with
      | [] => (Ok out, s)
      | entry :: h =>
          (drop_dups (S (length h + total_len s.2)) (he_key entry) ;;
           pull (he_rank entry) ;;
           match he_value entry with
           | Some v =>
               let out := out ++ [(he_key entry, v)] in
               if match limit with Some lim => bool_decide (lim ≤ length out) | None => false end
               then op_ret out
               else merge_loop fuel limit out
           | None => merge_loop fuel limit out
           end) (h, s.2)
      end
  end.

Definition pull_merge_next (sources : list (list (Result row))) (limit : option nat) :
    Result (list (string * bytes)) :=
  if decide (limit = Some 0) then Ok []
  else
    ((pull_all (seq 0 (length sources)) ;;
      merge_loop (S (total_len sources)) limit []) ([], sources)).1.

Definition merged_gets_bytes (sources : list (list row)) (limit : option N)
    (dir : Direction) (c : cursor) : list KeyValue :=
  let merged := merge_sources sources in
  let filtered :=
    match dir with
    | Next => filter (λ kv, in_bounds c.1 c.2 (key kv)) merged
    | Prev =>
        match c.1 with
        | None => []
        | Some start => reverse (filter (λ kv, in_bounds c.2 (Some start) (key kv)) merged)
        end
    end in
  take_limit (limit_of limit) filtered.

(** ** The abstract merge *)

(** The newest entry of a key. *)
Fixpoint newest (sources : list (list row)) (k : string) : option (option bytes) :=
  match sources with
  | [] => None
  | src :: sources =>
      match assoc k src with Some v => Some v | None => newest sources k end
  end.

(** The live part of a table: tombstones hide their key. *)
Definition live (m : MemMap) : gmap string bytes := omap id m.

Lemma or_insert_all_lookup l m k :
  foldl or_insert m l !! k = match m !! k with Some v => Some v | None => assoc k l end.
Proof.
  revert m. induction l as [|[k' v'] l IH]; intros m; simpl; [by destruct (m !! k)|].
  rewrite IH. unfold or_insert. simpl. destruct (m !! k') as [v|] eqn:Hk'.
  - destruct (decide (k' = k)) as [->|]; [by rewrite Hk'|done].
  - destruct (decide (k' = k)) as [->|]; [by rewrite lookup_insert_eq, Hk'|].
    by rewrite lookup_insert_ne.
Qed.

Lemma newest_map_lookup sources k : newest_map sources !! k = newest sources k.
Proof.
  unfold newest_map.
  assert (∀ m, foldl (λ m src, foldl or_insert m src) m sources !! k =
    match m !! k with Some v => Some v | None => newest sources k end) as Hall.
  { induction sources as [|src sources IH]; intros m; simpl; [by destruct (m !! k)|].
    rewrite IH, or_insert_all_lookup. by destruct (m !! k), (assoc k src). }
  by rewrite Hall, lookup_empty.
Qed.

Lemma live_lookup m k v : live m !! k = Some v ↔ m !! k = Some (Some v).
Proof. unfold live. rewrite lookup_omap. destruct (m !! k) as [[]|]; naive_solver. Qed.

Lemma live_rows_sorted l : sorted_entries l → sorted_entries (live_rows l).
Proof.
  unfold live_rows. induction l as [|[k [v|]] l IH]; [done|..];
    rewrite sorted_entries_cons; intros [Hs Hlt]; simpl; [|by apply IH].
  apply sorted_entries_cons. split; [by apply IH|].
  intros k' v' ([k'' [v''|]] & Hin & Heq)%list_elem_of_omap; simplify_eq/=.
  by eapply Hlt.
Qed.

Lemma live_rows_iter m : live_rows (bt_iter m) = bt_iter (live m).
Proof.
  apply sorted_entries_eq_iter; [apply live_rows_sorted, bt_iter_sorted|].
  intros k v. unfold live_rows. rewrite list_elem_of_omap, live_lookup. split.
  - intros ([k' [v'|]] & Hin & Heq); simplify_eq/=. by apply elem_of_bt_iter.
  - intros Hk. exists (k, Some v). split; [by apply elem_of_bt_iter|done].
Qed.

Lemma merge_sources_spec sources :
  merge_sources sources = to_kv <$> bt_iter (live (newest_map sources)).
Proof. unfold merge_sources. by rewrite live_rows_iter. Qed.

Lemma merged_gets_spec sources limit dir c :
  merged_gets_bytes sources limit dir c =
    scan_spec limit dir c (live (newest_map sources)).
Proof.
  unfold merged_gets_bytes, scan_spec. rewrite merge_sources_spec.
  assert (∀ lo hi m, filter (λ kv, in_bounds lo hi (key kv)) (to_kv <$> bt_iter m) =
    to_kv <$> bt_range lo hi m) as Hf.
  { intros lo hi m. unfold bt_range. induction (bt_iter m) as [|kv l IH]; [done|].
    rewrite fmap_cons, !filter_cons, IH. unfold to_kv at 1. cbn [key].
    by destruct (decide (in_bounds lo hi kv.1)). }
  destruct dir; rewrite ?Hf; [by rewrite take_limit_fmap|].
  destruct c.1; [|by destruct (limit_of limit); simpl; rewrite ?take_nil].
  by rewrite Hf, <-fmap_reverse, take_limit_fmap.
Qed.

(** ** The lazy merge *)

(** Sources that fail on no row. *)
Definition yields (sources : list (list row)) : list (list (Result row)) :=
  (λ l : list row, (Ok <$> l : list (Result row))) <$> sources.

Lemma pops_before_trans a b c : pops_before a b → pops_before b c → pops_before a c.
Proof.
  unfold pops_before. intros [H1|[H1 H1']] [H2|[H2 H2']].
  - left. key_order.
  - left. key_order.
  - left. key_order.
  - right. split; [congruence|lia].
Qed.

Lemma pops_before_total a b : he_rank a ≠ he_rank b → ¬ pops_before a b → pops_before b a.
Proof.
  unfold pops_before. intros Hne Hn.
  destruct (decide (he_key a = he_key b)) as [Heq|Hk].
  - right. split; [done|]. destruct (decide (he_rank b < he_rank a)); [done|].
    destruct Hn. right. split; [done|lia].
  - left. destruct (total key_le (he_key a) (he_key b)).
    + destruct Hn. left. key_order.
    + key_order.
Qed.

Lemma elem_of_heap_push e e' h : e' ∈ heap_push e h ↔ e' = e ∨ e' ∈ h.
Proof.
  induction h as [|x h IH]; simpl; [set_solver|]. case_decide; set_solver.
Qed.

Lemma heap_push_sorted e h :
  StronglySorted pops_before h → (∀ e', e' ∈ h → he_rank e' ≠ he_rank e) →
  StronglySorted pops_before (heap_push e h).
Proof.
  induction h as [|x h IH]; intros Hs Hr; simpl; [by repeat constructor|].
  apply StronglySorted_cons in Hs as [Hall Hs]. case_decide as Hb.
  - apply StronglySorted_cons. split; [|by apply StronglySorted_cons].
    constructor; [done|]. rewrite Forall_forall in *. intros y Hy.
    eapply pops_before_trans; [done|by apply Hall].
  - apply StronglySorted_cons. split; [|apply IH; [done|set_solver]].
    rewrite Forall_forall in *. intros y Hy.
    apply elem_of_heap_push in Hy as [->|Hy]; [|by apply Hall].
    apply pops_before_total; [|done]. apply not_eq_sym, Hr. by left.
Qed.

(** A source under way: its entry in the heap and the rows still to come. *)
Abbreviation cell := (option row * list row)%type.

Definition cell_rows (c : cell) : list row := option_list c.1 ++ c.2.
Definition contents (R : list cell) : list (list row) := cell_rows <$> R.

(** The state of a merge of the cells [R]. *)
Record merges (s : merging) (R : list cell) : Prop := {
  mg_srcs : s.2 = (λ c : cell, Ok <$> c.2) <$> R;
  mg_sorted : StronglySorted pops_before s.1;
  mg_heap e : e ∈ s.1 ↔ ∃ rest, R !! he_rank e = Some (Some (he_key e, he_value e), rest);
  mg_rows i c : R !! i = Some c → sorted_entries (cell_rows c);
}.

(** Every cell but [hole] has its next row in the heap. *)
Definition settled (hole : option nat) (R : list cell) : Prop :=
  ∀ i rest, R !! i = Some (None, rest) → rest = [] ∨ hole = Some i.

Lemma contents_insert i c R : contents (<[i := c]> R) = <[i := cell_rows c]> (contents R).
Proof. apply list_fmap_insert. Qed.

Lemma list_insert_same {A} (l : list A) i x : l !! i = Some x → <[i := x]> l = l.
Proof. apply list_insert_id. Qed.

Lemma pull_merges i h srcs R rest :
  merges (h, srcs) R → R !! i = Some (None, rest) →
  ∃ s' c, pull i (h, srcs) = (Ok (), s') ∧ merges s' (<[i := c]> R) ∧
    cell_rows c = rest ∧ (c.1 = None → c.2 = []).
Proof.
  intros [Hsrcs Hs Hh Hr] Hi. unfold pull. cbn [snd fst] in *.
  rewrite Hsrcs, list_lookup_fmap, Hi. simpl. destruct rest as [|[k v] rest]; simpl.
  - exists (h, srcs), (None, []). rewrite (list_insert_same R) by done.
    split; [by rewrite <-Hsrcs|]. split; [by split|done].
  - eexists _, (Some (k, v), rest). split; [done|]. split; [|done].
    assert (∀ e, e ∈ h → he_rank e ≠ i) as Hfresh.
    { intros e He Heq. apply Hh in He as [rest' He]. rewrite Heq in He. congruence. }
    split; cbn [fst snd].
    + by rewrite list_fmap_insert.
    + apply heap_push_sorted; done.
    + intros e. rewrite elem_of_heap_push. split.
      * intros [->|He]; simpl.
        -- exists rest. rewrite list_lookup_insert_eq; [done|by eapply lookup_lt_Some].
        -- specialize (Hfresh e He). rewrite list_lookup_insert_ne by done. by apply Hh.
      * intros [rest' He]. apply list_lookup_insert_Some in He as [(Hre & ? & _)|[Hne He]].
        -- left. destruct e. simpl in *. by simplify_eq.
        -- right. apply Hh. by exists rest'.
    + intros j c Hj. apply list_lookup_insert_Some in Hj as [(<- & <- & _)|[_ Hj]];
        [|by eapply Hr]. apply (Hr i (None, (k, v) :: rest) Hi).
Qed.

Lemma pop_merges e h srcs R :
  merges (e :: h, srcs) R →
  ∃ rest, R !! he_rank e = Some (Some (he_key e, he_value e), rest) ∧
    merges (h, srcs) (<[he_rank e := (None, rest)]> R) ∧
    (∀ k v, (k, v) ∈ rest → he_key e <ₖ k).
Proof.
  intros [Hsrcs Hs Hh Hr]. cbn [fst snd] in *.
  destruct (proj1 (Hh e) (list_elem_of_here _ _)) as [rest He].
  exists rest. split; [done|].
  pose proof (Hr _ _ He) as Hsort. unfold cell_rows in Hsort. simpl in Hsort.
  apply sorted_entries_cons in Hsort as [Hrest Hlt]. split; [|done].
  apply StronglySorted_cons in Hs as [Hall Hs]. rewrite Forall_forall in Hall.
  split; cbn [fst snd].
  - rewrite list_fmap_insert. simpl. rewrite list_insert_same; [done|].
    by rewrite list_lookup_fmap, He.
  - done.
  - intros e'. split.
    + intros He'. assert (he_rank e' ≠ he_rank e) as Hne.
      { intros Heq. destruct (proj1 (Hh e') (list_elem_of_further _ _ _ He')) as [rest' Hr'].
        rewrite Heq, He in Hr'. injection Hr' as Hk Hv _.
        destruct (Hall e' He') as [Hk'|[_ Hlt']]; [rewrite Hk in Hk'; key_order|lia]. }
      rewrite list_lookup_insert_ne by done. apply Hh. by right.
    + intros [rest' He']. apply list_lookup_insert_Some in He' as [(? & ? & _)|[Hne He']];
        [done|].
      assert (e' ∈ e :: h) as [->|?]%elem_of_cons by (apply Hh; by exists rest'); done.
  - intros j c Hj. apply list_lookup_insert_Some in Hj as [(<- & <- & _)|[_ Hj]];
      [done|by eapply Hr].
Qed.

Lemma newest_insert C i l l' q :
  C !! i = Some l → assoc q l' = assoc q l → newest (<[i := l']> C) q = newest C q.
Proof.
  revert i. induction C as [|l0 C IH]; intros [|i] Hi Ha; simpl in *; try done.
  - simplify_eq. by rewrite Ha.
  - by rewrite (IH i).
Qed.

Lemma newest_at C i l k v :
  C !! i = Some l → assoc k l = Some v →
  (∀ j l', j < i → C !! j = Some l' → assoc k l' = None) → newest C k = Some v.
Proof.
  revert i. induction C as [|l0 C IH]; intros [|i] Hi Ha Hlt; simpl in *; try done.
  - simplify_eq. by rewrite Ha.
  - rewrite (Hlt 0 l0) by (done || lia). eapply IH; [done|done|].
    intros j l' Hj. apply (Hlt (S j)). lia.
Qed.

Lemma newest_None C k : (∀ i l, C !! i = Some l → assoc k l = None) → newest C k = None.
Proof.
  induction C as [|l C IH]; intros Hno; simpl; [done|].
  rewrite (Hno 0 l) by done. apply IH. intros i. apply (Hno (S i)).
Qed.

Lemma newest_elem C k v : newest C k = Some v → ∃ i l, C !! i = Some l ∧ (k, v) ∈ l.
Proof.
  induction C as [|l C IH]; simpl; [done|].
  destruct (assoc k l) eqn:Ha.
  - intros [= ->]. exists 0, l. split; [done|by apply assoc_elem].
  - intros Hk. destruct (IH Hk) as (i & l' & Hi & Hin). by exists (S i), l'.
Qed.

(** Items under way; a pull moves one from its source to the heap. *)
Definition in_flight (s : merging) : nat := length s.1 + total_len s.2.

Lemma heap_push_length e h : length (heap_push e h) = S (length h).
Proof. induction h as [|x h IH]; simpl; [done|]. case_decide; simpl; [done|by rewrite IH]. Qed.

Lemma total_len_insert {A} (l : list (list A)) i x y :
  l !! i = Some x → total_len (<[i := y]> l) + length x = total_len l + length y.
Proof.
  unfold total_len. revert i. induction l as [|z l IH]; intros [|i] Hi; csimpl in *; try done.
  - simplify_eq. lia.
  - specialize (IH _ Hi). lia.
Qed.

Lemma pull_in_flight i s s' : pull i s = (Ok (), s') → in_flight s' = in_flight s.
Proof.
  unfold pull, in_flight. destruct (s.2 !! i) as [[|[[k v]|e] rest]|] eqn:Hi;
    intros [= <-]; try done.
  simpl. rewrite heap_push_length.
  pose proof (total_len_insert _ _ _ rest Hi) as Ht. simpl in Ht. lia.
Qed.

(** Every row of a settled merge is at or after the head of the heap. *)
Lemma merges_min e h srcs R :
  merges (e :: h, srcs) R →
  ∀ e', e' ∈ e :: h → he_key e ≤ₖ he_key e'.
Proof.
  intros [_ Hs _ _] e'. apply StronglySorted_cons in Hs as [Hall _].
  rewrite Forall_forall in Hall. intros [->|He']%elem_of_cons; [done|].
  destruct (Hall _ He') as [?|[Heq _]]; [by apply key_lt_le|by rewrite Heq].
Qed.

Lemma row_after_head s R i r rest k v :
  merges s R → R !! i = Some (Some r, rest) → (k, v) ∈ cell_rows (Some r, rest) →
  MkHeapEntry r.1 i r.2 ∈ s.1 ∧ r.1 ≤ₖ k ∧ (k = r.1 → v = r.2).
Proof.
  intros [_ _ Hh Hr] Hi Hin. split.
  - apply Hh. exists rest. simpl. by rewrite Hi, <-surjective_pairing.
  - specialize (Hr _ _ Hi). unfold cell_rows in *. simpl in *.
    apply sorted_entries_cons in Hr as [_ Hlt].
    apply elem_of_cons in Hin as [<-|Hin]; [done|]. specialize (Hlt _ _ Hin).
    split; [by apply key_lt_le|]. intros ->. exfalso. key_order.
Qed.

(** What holds while the dups of [k] are dropped: the hole keeps rows after
    [k], every other row is at [k] or after. *)
Record dropping (k : string) (hole : nat) (s : merging) (R : list cell) : Prop := {
  dr_merges : merges s R;
  dr_settled : settled (Some hole) R;
  dr_from i c q v : R !! i = Some c → (q, v) ∈ cell_rows c → k ≤ₖ q;
  dr_hole : ∃ rest, R !! hole = Some (None, rest) ∧ ∀ q v, (q, v) ∈ rest → k <ₖ q;
}.

(** Without the key at the head of the heap there are no rows of it left. *)
Lemma dropping_done k hole s R :
  dropping k hole s R → (∀ e, head s.1 = Some e → he_key e ≠ k) →
  ∀ i c v, R !! i = Some c → (k, v) ∉ cell_rows c.
Proof.
  intros [Hm Hset Hfrom (hrest & Hhole & Hafter)] Hhead i [[r|] rest] v Hi Hin.
  - destruct (row_after_head _ _ _ _ _ _ _ Hm Hi Hin) as (He & Hle & _).
    destruct s as [[|e h] srcs]; cbn [fst] in *; [by apply elem_of_nil in He|].
    pose proof (merges_min _ _ _ _ Hm _ He) as Hmin. simpl in Hmin.
    specialize (Hhead e eq_refl).
    destruct (proj1 (mg_heap _ _ Hm e) (list_elem_of_here _ _)) as [rest' He'].
    assert (k ≤ₖ he_key e) by (eapply Hfrom; [exact He'|by left]). key_order.
  - unfold cell_rows in Hin. simpl in Hin. destruct (Hset _ _ Hi) as [->|[= ->]].
    + by apply elem_of_nil in Hin.
    + rewrite Hhole in Hi. simplify_eq. specialize (Hafter _ _ Hin). key_order.
Qed.

(** Popping the head of the heap and pulling its source. *)
Lemma pop_pull e h srcs R :
  merges (e :: h, srcs) R →
  ∃ rest s' c, R !! he_rank e = Some (Some (he_key e, he_value e), rest) ∧
    pull (he_rank e) (h, srcs) = (Ok (), s') ∧
    merges s' (<[he_rank e := c]> R) ∧ cell_rows c = rest ∧ (c.1 = None → c.2 = []) ∧
    (∀ k v, (k, v) ∈ rest → he_key e <ₖ k) ∧ in_flight s' < in_flight (e :: h, srcs).
Proof.
  intros Hm. destruct (pop_merges _ _ _ _ Hm) as (rest & He & Hm1 & Hlt).
  assert (<[he_rank e := (None, rest)]> R !! he_rank e = Some (None, rest)) as Hi.
  { rewrite list_lookup_insert_eq; [done|]. by eapply lookup_lt_Some. }
  destruct (pull_merges _ _ _ _ _ Hm1 Hi) as (s' & c & Hp & Hm2 & Hrows & Hc).
  rewrite list_insert_insert_eq in Hm2. exists rest, s', c.
  split_and!; try done. rewrite (pull_in_flight _ _ _ Hp). unfold in_flight. simpl. lia.
Qed.

Lemma drop_dups_spec fuel k hole s R :
  dropping k hole s R → in_flight s < fuel →
  ∃ s' R', drop_dups fuel k s = (Ok (), s') ∧ dropping k hole s' R' ∧
    R' !! hole = R !! hole ∧ in_flight s' ≤ in_flight s ∧
    (∀ q, q ≠ k → newest (contents R') q = newest (contents R) q) ∧
    (∀ i c v, R' !! i = Some c → (k, v) ∉ cell_rows c).
Proof.
  revert s R. induction fuel as [|fuel IH]; intros s R Hd Hf; [lia|].
  destruct s as [[|e h] srcs]; cbn [drop_dups fst snd].
  { exists ([], srcs), R. split_and!; try done. by apply (dropping_done k hole ([], srcs)). }
  destruct (decide (he_key e = k)) as [<-|Hne].
  2: { exists (e :: h, srcs), R. split_and!; try done.
       apply (dropping_done k hole (e :: h, srcs)); [done|]. by intros e' [= <-]. }
  destruct Hd as [Hm Hset Hfrom (hrest & Hhole & Hafter)].
  destruct (pop_pull _ _ _ _ Hm) as (rest & s1 & c & He & Hp & Hm1 & Hrows & Hc & Hlt & Hfl).
  assert (he_rank e ≠ hole) as Hr by (intros Heq; rewrite Heq in He; congruence).
  unfold op_bind. rewrite Hp.
  destruct (IH s1 (<[he_rank e := c]> R)) as (s' & R' & -> & Hd' & Hhole' & Hle & Hnew & Hno).
  - split; [done| | |].
    + intros i r Hi. apply list_lookup_insert_Some in Hi as [(<- & -> & _)|[_ Hi]];
        [left; by apply Hc|by apply Hset].
    + intros i c' q v Hi Hin. apply list_lookup_insert_Some in Hi as [(<- & <- & _)|[_ Hi]];
        [|by eapply Hfrom].
      rewrite Hrows in Hin. by eapply key_lt_le, Hlt.
    + exists hrest. by rewrite list_lookup_insert_ne.
  - lia.
  - exists s', R'. rewrite Hhole', list_lookup_insert_ne by done.
    split_and!; try done; [lia|]. intros q Hq. rewrite Hnew by done.
    rewrite contents_insert, Hrows. apply (newest_insert _ _ (cell_rows (Some (he_key e, he_value e), rest))).
    + unfold contents. by rewrite list_lookup_fmap, He.
    + unfold cell_rows. simpl. by rewrite decide_False.
Qed.

(** From a settled state no row is below the head of the heap. *)
Lemma head_least e h srcs R :
  merges (e :: h, srcs) R → settled None R →
  ∀ i c q v, R !! i = Some c → (q, v) ∈ cell_rows c → he_key e ≤ₖ q.
Proof.
  intros Hm Hset i [[r|] rest] q v Hi Hin.
  - destruct (row_after_head _ _ _ _ _ _ _ Hm Hi Hin) as (He & Hle & _).
    pose proof (merges_min _ _ _ _ Hm _ He) as Hmin. simpl in Hmin. key_order.
  - destruct (Hset _ _ Hi) as [->|?]; [|done]. by apply elem_of_nil in Hin.
Qed.

(** The head is the newest row of the least key. *)
Lemma head_newest e h srcs R :
  merges (e :: h, srcs) R → settled None R →
  newest (contents R) (he_key e) = Some (he_value e) ∧
  ∀ q v, newest (contents R) q = Some v → he_key e ≤ₖ q.
Proof.
  intros Hm Hset. destruct (pop_merges _ _ _ _ Hm) as (rest & He & _). split.
  - apply (newest_at _ (he_rank e) (cell_rows (Some (he_key e, he_value e), rest))).
    + unfold contents. by rewrite list_lookup_fmap, He.
    + unfold cell_rows. simpl. by rewrite decide_True.
    + intros j l' Hj Hl'. unfold contents in Hl'. rewrite list_lookup_fmap in Hl'.
      destruct (R !! j) as [[[r|] rest']|] eqn:Hc; [| |done]; injection Hl' as <-;
        apply assoc_None; intros v Hin.
      * destruct (row_after_head _ _ _ _ _ _ _ Hm Hc Hin) as (Her & Hle & _).
        apply elem_of_cons in Her as [Heq|Her]; [rewrite <-Heq in Hj; simpl in Hj; lia|].
        destruct Hm as [_ Hs _ _]. apply StronglySorted_cons in Hs as [Hall _].
        rewrite Forall_forall in Hall. destruct (Hall _ Her) as [Hk|[_ Hk]]; simpl in Hk;
          [key_order|lia].
      * destruct (Hset _ _ Hc) as [->|?]; [|done]. by apply elem_of_nil in Hin.
  - intros q v Hq. apply newest_elem in Hq as (i & l & Hi & Hin).
    unfold contents in Hi. rewrite list_lookup_fmap in Hi.
    destruct (R !! i) as [c|] eqn:Hc; simplify_eq/=. by eapply head_least.
Qed.

(** One round of the outer loop, from a settled state: the head of the heap
    decides the least key, and the round removes that key. *)
Lemma merge_round e h srcs R :
  merges (e :: h, srcs) R → settled None R →
  newest (contents R) (he_key e) = Some (he_value e) ∧
  (∀ q v, newest (contents R) q = Some v → he_key e ≤ₖ q) ∧
  ∃ s' R',
    (drop_dups (S (length h + total_len srcs)) (he_key e) ;; pull (he_rank e)) (h, srcs) =
      (Ok (), s') ∧
    merges s' R' ∧ settled None R' ∧ in_flight s' < in_flight (e :: h, srcs) ∧
    (∀ q, q ≠ he_key e → newest (contents R') q = newest (contents R) q) ∧
    newest (contents R') (he_key e) = None.
Proof.
  intros Hm Hset. destruct (head_newest _ _ _ _ Hm Hset) as [Hnewest Hleast]. split; [done|]. split; [done|].
  destruct (pop_merges _ _ _ _ Hm) as (rest & He & Hm1 & Hlt).
  assert (dropping (he_key e) (he_rank e) (h, srcs) (<[he_rank e := (None, rest)]> R)) as Hd.
  { split; [done| | |].
    - intros i r Hi. apply list_lookup_insert_Some in Hi as [(-> & _ & _)|[_ Hi]];
        [by right|]. destruct (Hset _ _ Hi); [by left|done].
    - intros i c q v Hi Hin. apply list_lookup_insert_Some in Hi as [(_ & <- & _)|[_ Hi]];
        [by eapply key_lt_le, Hlt|by eapply head_least].
    - exists rest. split; [|done]. rewrite list_lookup_insert_eq; [done|].
      by eapply lookup_lt_Some. }
  destruct (drop_dups_spec (S (length h + total_len srcs)) _ _ _ _ Hd)
    as (s1 & R1 & Hrun & [Hm2 Hset2 _ (r2 & Hhole2 & _)] & Hhole & Hle & Hnew & Hno).
  { unfold in_flight. simpl. lia. }
  destruct s1 as [h1 srcs1].
  destruct (pull_merges _ _ _ _ _ Hm2 Hhole2) as (s' & c & Hp & Hm3 & Hrows & Hc).
  exists s', (<[he_rank e := c]> R1). rewrite (op_bind_ok _ _ _ _ _ Hrun).
  split; [done|]. split; [done|].
  assert (contents (<[he_rank e := c]> R1) = contents R1) as Hcont.
  { rewrite contents_insert, Hrows. apply list_insert_same. unfold contents.
    by rewrite list_lookup_fmap, Hhole2. }
  rewrite Hcont. split_and!.
  + intros i r Hi. apply list_lookup_insert_Some in Hi as [(_ & -> & _)|[Hne Hi]];
      [left; by apply Hc|]. destruct (Hset2 _ _ Hi) as [?|[= ?]]; [by left|done].
  + rewrite (pull_in_flight _ _ _ Hp). unfold in_flight in *. simpl in *. lia.
  + intros q Hq. rewrite Hnew by done. rewrite contents_insert.
    apply (newest_insert _ _ (cell_rows (Some (he_key e, he_value e), rest))).
    * unfold contents. by rewrite list_lookup_fmap, He.
    * unfold cell_rows. simpl. by rewrite decide_False.
  + apply newest_None. intros i l Hi. unfold contents in Hi.
    rewrite list_lookup_fmap in Hi. destruct (R1 !! i) as [c'|] eqn:Hc'; simplify_eq/=.
    apply assoc_None. intros v. by eapply Hno.
Qed.

(** A table from its least key on. *)
Lemma bt_iter_least (m : MemMap) k v :
  m !! k = Some v → (∀ q x, m !! q = Some x → k ≤ₖ q) →
  bt_iter (live m) =
    match v with
    | Some x => (k, x) :: bt_iter (live (base.delete k m))
    | None => bt_iter (live (base.delete k m))
    end.
Proof.
  intros Hk Hmin. symmetry.
  assert (∀ q x, live (base.delete k m) !! q = Some x ↔ q ≠ k ∧ live m !! q = Some x) as Hdel.
  { intros q x. rewrite !live_lookup, lookup_delete_Some. naive_solver. }
  destruct v as [x|]; apply sorted_entries_eq_iter.
  - apply sorted_entries_cons. split; [apply bt_iter_sorted|].
    intros q y Hq. apply elem_of_bt_iter, Hdel in Hq as [Hne Hq]. apply live_lookup in Hq.
    apply key_lt_le_ne. split; [by eapply Hmin|done].
  - intros q y. rewrite elem_of_cons, elem_of_bt_iter, Hdel. split.
    + intros [[= -> ->]|[_ Hq]]; [by apply live_lookup|done].
    + intros Hq. destruct (decide (q = k)) as [->|]; [|by right]. left.
      apply live_lookup in Hq. congruence.
  - apply bt_iter_sorted.
  - intros q y. rewrite elem_of_bt_iter, Hdel. split; [by intros [_ ?]|].
    intros Hq. split; [|done]. intros ->. apply live_lookup in Hq. congruence.
Qed.

Lemma merge_loop_spec fuel limit out s R m :
  merges s R → settled None R → (∀ q, m !! q = newest (contents R) q) →
  in_flight s < fuel → (∀ n, limit = Some n → length out < n) →
  ∃ s', merge_loop fuel limit out s =
    (Ok (out ++ take_limit (budget limit (length out)) (bt_iter (live m))), s').
Proof.
  revert out s R m. induction fuel as [|fuel IH]; intros out s R m Hm Hset Hq Hf Hlim; [lia|].
  cbn [merge_loop]. destruct s as [[|e h] srcs]; cbn [fst snd].
  - exists ([], srcs). assert (m = ∅) as ->.
    { apply map_eq. intros q. rewrite Hq, lookup_empty. apply newest_None.
      intros i l Hi. unfold contents in Hi. rewrite list_lookup_fmap in Hi.
      destruct (R !! i) as [[[r|] rest]|] eqn:Hc; [| |done]; injection Hi as <-.
      - assert (MkHeapEntry r.1 i r.2 ∈ []) as Hin.
        { apply (mg_heap _ _ Hm (MkHeapEntry r.1 i r.2)). exists rest. simpl.
          by rewrite Hc, <-surjective_pairing. }
        by apply elem_of_nil in Hin.
      - by destruct (Hset _ _ Hc) as [->|?]. }
    change (live ∅) with (∅ : gmap string bytes).
    assert (bt_iter (∅ : gmap string bytes) = []) as ->.
    { symmetry. apply sorted_entries_eq_iter; [constructor|]. intros k v.
      rewrite lookup_empty, elem_of_nil. naive_solver. }
    by rewrite take_limit_nil, app_nil_r.
  - destruct (merge_round _ _ _ _ Hm Hset)
      as (Hk & Hmin & s1 & R1 & Hround & Hm1 & Hset1 & Hfl & Hnew & Hnone).
    rewrite <-Hq in Hk.
    rewrite (bt_iter_least m (he_key e) (he_value e) Hk)
      by (intros q x; rewrite Hq; apply Hmin).
    assert (∀ q, base.delete (he_key e) m !! q = newest (contents R1) q) as Hq1.
    { intros q. destruct (decide (he_key e = q)) as [<-|Hne].
      - by rewrite lookup_delete_eq, Hnone.
      - rewrite lookup_delete_ne by done. by rewrite Hnew, Hq. }
    assert (∀ (f : Op merging (list (string * bytes))),
      (drop_dups (S (length h + total_len srcs)) (he_key e) ;; pull (he_rank e) ;; f)
        (h, srcs) = f s1) as ->.
    { intros f. unfold op_bind in *. destruct (drop_dups _ _ _) as [[[]|err] s2]; [|done].
      by rewrite Hround. }
    destruct (he_value e) as [v|].
    + assert (take_limit (budget limit (length out))
          ((he_key e, v) :: bt_iter (live (base.delete (he_key e) m))) =
        (he_key e, v) :: take_limit (budget limit (S (length out)))
          (bt_iter (live (base.delete (he_key e) m)))) as ->.
      { destruct limit as [n|]; [|done]. simpl. specialize (Hlim n eq_refl).
        replace (n - length out) with (S (n - S (length out))) by lia. done. }
      assert (length (out ++ [(he_key e, v)]) = S (length out)) as Hlen
        by (rewrite length_app; simpl; lia).
      destruct limit as [n|].
      * case_bool_decide as Hn; rewrite Hlen in Hn.
        -- exists s1. simpl. by replace (n - S (length out)) with 0 by lia.
        -- destruct (IH (out ++ [(he_key e, v)]) s1 R1 _ Hm1 Hset1 Hq1) as [s' ->];
             [lia|intros n' [= <-]; lia|].
           exists s'. by rewrite Hlen, <-app_assoc.
      * destruct (IH (out ++ [(he_key e, v)]) s1 R1 _ Hm1 Hset1 Hq1) as [s' ->];
          [lia|done|].
        exists s'. by rewrite <-app_assoc.
    + apply (IH out s1 R1 _ Hm1 Hset1 Hq1); [lia|done].
Qed.

(** Filling the heap. *)
Lemma pull_all_spec (sources : list (list row)) :
  Forall sorted_entries sources →
  ∃ s R, pull_all (seq 0 (length sources)) ([], yields sources) = (Ok (), s) ∧
    merges s R ∧ settled None R ∧ contents R = sources ∧
    in_flight s = total_len (yields sources).
Proof.
  intros Hsort.
  assert (∀ n i s R, i + n = length R → merges s R →
    (∀ j r, j < i → R !! j = Some (None, r) → r = []) →
    (∀ j c, i ≤ j → R !! j = Some c → c.1 = None) →
    ∃ s' R', pull_all (seq i n) s = (Ok (), s') ∧ merges s' R' ∧ settled None R' ∧
      contents R' = contents R ∧ in_flight s' = in_flight s) as Hall.
  { induction n as [|n IH]; intros i s R Hn Hm Hbelow Habove; simpl.
    - exists s, R. split_and!; try done. intros j r Hj. left. eapply Hbelow; [|done].
      apply lookup_lt_Some in Hj. lia.
    - destruct (lookup_lt_is_Some_2 R i) as [[hd rest] Hi]; [lia|].
      pose proof (Habove i _ (le_n i) Hi) as Hhd. simpl in Hhd. subst hd.
      destruct s as [h srcs].
      destruct (pull_merges _ _ _ _ _ Hm Hi) as (s1 & c & Hp & Hm1 & Hrows & Hc).
      rewrite (op_bind_ok _ _ _ _ _ Hp).
      assert (contents (<[i := c]> R) = contents R) as Hcont.
      { rewrite contents_insert, Hrows. apply list_insert_same. unfold contents.
        by rewrite list_lookup_fmap, Hi. }
      destruct (IH (S i) s1 (<[i := c]> R)) as (s' & R' & Hrun & Hm' & Hset & Hcont' & Hfl).
      + rewrite length_insert. lia.
      + done.
      + intros j r Hj Hjr. apply list_lookup_insert_Some in Hjr as [(<- & -> & _)|[Hne Hjr]];
          [by apply Hc|]. apply (Hbelow j); [lia|done].
      + intros j c' Hj Hjc. rewrite list_lookup_insert_ne in Hjc by lia.
        apply (Habove j); [lia|done].
      + exists s', R'. rewrite Hcont', Hfl. split_and!; try done.
        by apply pull_in_flight in Hp. }
  destruct (Hall (length sources) 0 ([], yields sources)
    ((λ l, (None, l)) <$> sources)) as (s & R & Hrun & Hm & Hset & Hcont & Hfl).
  - by rewrite length_fmap.
  - split; cbn [fst snd].
    + by rewrite <-list_fmap_compose.
    + constructor.
    + intros e. rewrite elem_of_nil. split; [done|]. intros [rest He].
      rewrite list_lookup_fmap in He. by destruct (sources !! _).
    + intros i c Hi. rewrite list_lookup_fmap in Hi.
      destruct (sources !! i) as [l|] eqn:Hl; [|done]. injection Hi as <-.
      rewrite Forall_forall in Hsort. apply Hsort. by eapply list_elem_of_lookup_2.
  - lia.
  - intros j c _ Hj. rewrite list_lookup_fmap in Hj.
    destruct (sources !! j); [|done]. by injection Hj as <-.
  - exists s, R. split_and!; try done. rewrite Hcont. unfold contents.
    rewrite <-list_fmap_compose. rewrite <-(list_fmap_id sources) at 2. done.
Qed.

Lemma pull_merge_newest (sources : list (list row)) (limit : option nat) :
  Forall sorted_entries sources →
  pull_merge_next (yields sources) limit =
    Ok (take_limit limit (bt_iter (live (newest_map sources)))).
Proof.
  intros Hsort. unfold pull_merge_next. case_decide as H0; [by rewrite H0|].
  assert (length (yields sources) = length sources) as -> by apply length_fmap.
  destruct (pull_all_spec sources Hsort) as (s & R & Hrun & Hm & Hset & Hcont & Hfl).
  rewrite (op_bind_ok _ _ _ _ _ Hrun).
  destruct (merge_loop_spec (S (total_len (yields sources)))
    limit [] s R (newest_map sources) Hm Hset) as [s' ->].
  - intros q. by rewrite newest_map_lookup, Hcont.
  - lia.
  - intros [|n] ->; [done|simpl; lia].
  - simpl. by rewrite budget_0.
Qed.

(** C10: The lazy scan is the eager one: over sorted sources the heap merge returns
    exactly the first [limit] rows of the newest-wins union without its
    tombstones, and the eager merge with a cursor is the scan of that union in
    either direction; both always return. *)
Theorem merges_agree (sources : list (list row)) (limit : option N) (dir : Direction)
    (c : cursor) :
  Forall sorted_entries sources →
  (∃ rows, pull_merge_next (yields sources) (limit_of limit) = Ok rows ∧
    to_kv <$> rows = scan_spec limit Next (None, None) (live (newest_map sources))) ∧
  merged_gets_bytes sources limit dir c =
    scan_spec limit dir c (live (newest_map sources)).
Proof.
  intros Hsort. rewrite pull_merge_newest by done. split; [|apply merged_gets_spec].
  eexists. split; [done|]. unfold scan_spec. cbn [fst snd].
  rewrite bt_range_full. by rewrite <-?take_limit_fmap.
Qed.

Lemma merges_agree_witness :
  ∃ rows, pull_merge_next (yields
      [[("a", None); ("b", Some (as_bytes "2"))];
       [("a", Some (as_bytes "1")); ("c", Some (as_bytes "3"))]]) (Some 1) = Ok rows ∧
    to_kv <$> rows = [KV "b" (as_bytes "2")].
Proof.
  destruct (merges_agree
    [[("a", None); ("b", Some (as_bytes "2"))];
     [("a", Some (as_bytes "1")); ("c", Some (as_bytes "3"))]] (Some 1%N) Next (None, None))
    as [(rows & Hrun & Heq) _].
  - repeat constructor.
  - exists rows. split; [exact Hrun|]. rewrite Heq. vm_compute. reflexivity.
Defined.
