(* ===== verification/Sst.v ===== *)
(** Sorted string tables: [src/src/store/lsm/sst.rs].

    As in the logs, a position in a block is the slice from it on, and the
    entry decoder of the file is [Wal.decode_entry], which the three readers
    share with the lazy scan: the loops of [get_option] and
    [scan_with_tombstones] spell out the same steps in the same order.  Sums of
    offsets are exact: where [block_bytes] would overflow a [usize] on a
    hostile footer the code panics instead of returning. *)

From stdpp Require Import options.
From S2P Require Import Prelude OrdMap Core Codec Snapshot Json Wal.

#[local] Open Scope N_scope.

Definition SST_MAGIC : bytes := as_bytes "OXKV".
Definition SST_TRAILER_LEN : N := 8.
Definition SST_VERSION : N := 1.
Definition DEFAULT_BLOCK_SIZE : N := 32 * 1024.

Record BlockMeta := MkBlockMeta {
  bm_min_key : string;
  bm_max_key : string;
  bm_offset : N;
  bm_len : N;
  bm_crc : N;
}.

Record SstFooter := MkSstFooter {
  ft_index : list BlockMeta;
  ft_bloom_bits : bytes;
  ft_bloom_k : N;
  ft_bloom_m : N;
  ft_file_crc : N;
}.

#[export] Instance BlockMeta_eq_dec : EqDecision BlockMeta.
Proof. solve_decision. Defined.
#[export] Instance SstFooter_eq_dec : EqDecision SstFooter.
Proof. solve_decision. Defined.

#[export] Program Instance BlockMeta_countable : Countable BlockMeta :=
  inj_countable' (λ m, (bm_min_key m, bm_max_key m, bm_offset m, bm_len m, bm_crc m))
    (λ '(a, b, c, d, e), MkBlockMeta a b c d e) _.
Next Obligation. by intros []. Qed.
#[export] Program Instance SstFooter_countable : Countable SstFooter :=
  inj_countable' (λ f, (ft_index f, ft_bloom_bits f, ft_bloom_k f, ft_bloom_m f, ft_file_crc f))
    (λ '(a, b, c, d, e), MkSstFooter a b c d e) _.
Next Obligation. by intros []. Qed.

(** [&data[a..b]]. *)
Definition slice (data : bytes) (a b : N) : bytes :=
  take (N.to_nat (b - a)) (drop (N.to_nat a) data).

(** ** The bloom filter *)

Record Bloom := MkBloom { bl_bits : bytes; bl_k : N; bl_m : N }.

Definition bloom_new (n : N) : Bloom :=
  let n := N.max n 1 in
  let m := n * 10 in
  MkBloom (replicate (N.to_nat ((m + 7) / 8)) x00) 3 m.

(** [bits[bit / 8] |= 1 << (bit % 8)]. *)
Definition set_bit (bits : bytes) (bit : N) : bytes :=
  alter (λ b, byte_of (N.lor (Byte.to_N b) (N.shiftl 1 (bit mod 8))))
    (N.to_nat (bit / 8)) bits.

(** [bits.get(bit / 8).is_some_and(|byte| byte & (1 << (bit % 8)) != 0)]. *)
Definition get_bit (bits : bytes) (bit : N) : bool :=
  match bits !! N.to_nat (bit / 8) with
  | Some b => negb (N.land (Byte.to_N b) (N.shiftl 1 (bit mod 8)) =? 0)
  | None => false
  end.

(** The values of [0..k]. *)
Definition upto (k : N) : list N := N.of_nat <$> seq 0 (N.to_nat k).

Section sst.
Context `{Dg : Digests} `{Js : Json SstFooter}.

Definition bloom_hash (item : string) (seed : N) : N :=
  crc32 (as_bytes item ++ u32_le seed).

Definition bloom_set (b : Bloom) (k : string) : Bloom :=
  MkBloom
    (foldl (λ bits i, set_bit bits (bloom_hash k i mod bl_m b)) (bl_bits b) (upto (bl_k b)))
    (bl_k b) (bl_m b).

(** ** The builder *)

Record Building := MkBuilding {
  sb_blocks : list bytes;
  sb_index : list BlockMeta;
  sb_cur_block : bytes;
  sb_cur_min : option string;
  sb_cur_max : option string;
  sb_offset : N;
}.

(** The index entry of the block under way.  [expect] cannot fail: a
    non-empty block has both keys. *)
Definition cut_meta (st : Building) : BlockMeta :=
  MkBlockMeta (default "" (sb_cur_min st)) (default "" (sb_cur_max st)) (sb_offset st)
    (blen (sb_cur_block st)) (crc32 (sb_cur_block st)).

Definition cut_block (st : Building) : Building :=
  MkBuilding (sb_blocks st ++ [sb_cur_block st]) (sb_index st ++ [cut_meta st])
    [] None (sb_cur_max st) (sb_offset st + blen (sb_cur_block st)).

(** Writes the record directly into the block under way. *)
Definition write_record (buf : bytes) (e : row) : Result bytes :=
  let? klen := map_err (λ e, Serialization ("key too long: " +:+ Core.to_string e))
    (u32_try_from (blen (as_bytes e.1))) in
  let buf := buf ++ u32_le klen ++ as_bytes e.1 in
  match e.2 with
  | Some v =>
      let? vlen := map_err (λ e, Serialization ("value too long: " +:+ Core.to_string e))
        (u32_try_from (blen v)) in
      Ok (buf ++ u32_le vlen ++ v)
  | None => Ok (buf ++ u32_le TOMBSTONE_VLEN)
  end.

Definition add_entry (block_size : N) (st : Building) (e : row) : Result Building :=
  let rec_len := 4 + blen (as_bytes e.1) + 4 +
                 match e.2 with Some v => blen v | None => 0 end in
  let st :=
    if bool_decide (sb_cur_block st ≠ [] ∧ block_size < blen (sb_cur_block st) + rec_len)
    then cut_block st else st in
  let cur_min := match sb_cur_min st with Some k => Some k | None => Some e.1 end in
  let? buf := write_record (sb_cur_block st) e in
  Ok (MkBuilding (sb_blocks st) (sb_index st) buf cur_min (Some e.1) (sb_offset st)).

Fixpoint add_entries (block_size : N) (es : list row) (st : Building) : Result Building :=
  match es with
  | [] => Ok st
  | e :: es => let? st := add_entry block_size st e in add_entries block_size es st
  end.

(** The file of the finished blocks. *)
Definition write_file (blocks : list bytes) (footer : SstFooter) : bytes :=
  let footer_bytes := to_vec footer in
  mjoin blocks ++ footer_bytes ++ u32_le (blen footer_bytes) ++ SST_MAGIC ++
    u32_le SST_VERSION.

Definition build_sst (entries : MemMap) (block_size : N) : Result bytes :=
  let block_size := N.max block_size 64 in
  let bloom := foldl bloom_set (bloom_new (N.of_nat (size entries))) (bt_iter entries).*1 in
  let? st := add_entries block_size (bt_iter entries) (MkBuilding [] [] [] None None 0) in
  let st := if bool_decide (sb_cur_block st ≠ []) then cut_block st else st in
  Ok (write_file (sb_blocks st)
        (MkSstFooter (sb_index st) (bl_bits bloom) (bl_k bloom) (bl_m bloom)
           (crc32 (mjoin (sb_blocks st))))).

(** ** The reader *)

Record SstFile := MkSstFile {
  sf_data : bytes;
  sf_footer : SstFooter;
  sf_footer_offset : N;
}.

Definition parse (data : bytes) : Result SstFile :=
  if blen data <? 12 then Err (Storage "sst too small")
  else
    let magic_offset := blen data - SST_TRAILER_LEN in
    if bool_decide (slice data magic_offset (magic_offset + 4) ≠ SST_MAGIC)
    then Err (Storage "sst bad magic")
    else
      let ver := from_le_bytes (slice data (magic_offset + 4) (magic_offset + 8)) in
      if bool_decide (ver ≠ SST_VERSION)
      then Err (Storage ("unsupported sst version " +:+ pretty ver))
      else
        let footer_len_offset := magic_offset - 4 in
        let footer_len := from_le_bytes (slice data footer_len_offset (footer_len_offset + 4)) in
        if footer_len_offset <? footer_len then Err (Storage "sst footer out of bounds")
        else
          let footer_start := footer_len_offset - footer_len in
          if bool_decide (footer_start + footer_len ≠ footer_len_offset
                          ∨ blen data < footer_start)
          then Err (Storage "sst footer out of bounds")
          else
            match from_slice (slice data footer_start footer_len_offset) with
            | inl e => Err (Storage ("parse footer: " +:+ e))
            | inr footer =>
                if bool_decide (ft_bloom_k footer = 0 ∨ 32 < ft_bloom_k footer)
                then Err (Storage ("sst implausible bloom_k " +:+ pretty (ft_bloom_k footer)))
                else Ok (MkSstFile data footer footer_start)
            end.

Definition sst_size (f : SstFile) : N := blen (sf_data f).

Definition may_contain (f : SstFile) (k : string) : bool :=
  match ft_index (sf_footer f) with
  | [] => false
  | _ =>
      let m := ft_bloom_m (sf_footer f) in
      if m =? 0 then true
      else
        let bits := ft_bloom_bits (sf_footer f) in
        if blen bits * 8 <? m then false
        else forallb (λ i, get_bit bits (bloom_hash k i mod m)) (upto (ft_bloom_k (sf_footer f)))
  end.

Definition block_bytes (f : SstFile) (meta : BlockMeta) : Result bytes :=
  let start := bm_offset meta in
  let stop := start + bm_len meta in
  if sf_footer_offset f <? stop then Err (Storage "block out of bounds")
  else
    let b := slice (sf_data f) start stop in
    let crc := crc32 b in
    if bool_decide (crc ≠ bm_crc meta)
    then Err (Storage ("block crc mismatch for " +:+ bm_min_key meta +:+ ".." +:+
           bm_max_key meta +:+ ": expected " +:+ pretty (bm_crc meta) +:+ ", got " +:+
           pretty crc))
    else Ok b.

(** The loop of [get_option] over one block; [None] when it runs off the
    block.  Every entry takes at least eight bytes off the slice. *)
Fixpoint find_in_block (fuel : nat) (k : string) (l : bytes) :
    Result (option (option bytes)) :=
  match fuel with
  | O => Ok None
  | S fuel =>
      let? e := decode_entry l in
      match e with
      | None => Ok None
      | Some ((k', v), l') => if decide (k' = k) then Ok (Some v) else find_in_block fuel k l'
      end
  end.

Fixpoint find_in_blocks (f : SstFile) (k : string) (metas : list BlockMeta) :
    Result (option (option bytes)) :=
  match metas with
  | [] => Ok None
  | meta :: metas =>
      if bool_decide (k <ₖ bm_min_key meta ∨ bm_max_key meta <ₖ k)
      then find_in_blocks f k metas
      else
        let? b := block_bytes f meta in
        let? hit := find_in_block (S (length b)) k b in
        match hit with
        | Some v => Ok (Some v)
        | None => find_in_blocks f k metas
        end
  end.

Definition get_option (f : SstFile) (k : string) : Result (option (option bytes)) :=
  if may_contain f k then find_in_blocks f k (ft_index (sf_footer f)) else Ok None.

(** Whether the block can hold keys of the range. *)
Definition overlaps (start stop : option string) (meta : BlockMeta) : bool :=
  match start with Some s => negb (bool_decide (bm_max_key meta <ₖ s)) | None => true end &&
  match stop with Some e => negb (bool_decide (e <ₖ bm_min_key meta)) | None => true end.

(** The loop of [scan_with_tombstones] over one block: the output, and
    whether the limit was reached. *)
Fixpoint scan_block (fuel : nat) (start stop : option string) (limit : option nat)
    (l : bytes) (out : list row) : Result (list row * bool) :=
  match fuel with
  | O => Ok (out, false)
  | S fuel =>
      let? e := decode_entry l in
      match e with
      | None => Ok (out, false)
      | Some (r, l') =>
          if decide (in_bounds start stop r.1) then
            let out := out ++ [r] in
            if match limit with Some lim => bool_decide (lim ≤ length out)%nat | None => false end
            then Ok (out, true)
            else scan_block fuel start stop limit l' out
          else scan_block fuel start stop limit l' out
      end
  end.

Fixpoint scan_blocks (f : SstFile) (start stop : option string) (limit : option nat)
    (metas : list BlockMeta) (out : list row) : Result (list row) :=
  match metas with
  | [] => Ok (take_limit limit out)
  | meta :: metas =>
      if overlaps start stop meta then
        let? b := block_bytes f meta in
        let? res := scan_block (S (length b)) start stop limit b out in
        if res.2 then Ok res.1 else scan_blocks f start stop limit metas res.1
      else scan_blocks f start stop limit metas out
  end.

Definition scan_with_tombstones (f : SstFile) (start stop : option string)
    (limit : option nat) : Result (list row) :=
  scan_blocks f start stop limit (ft_index (sf_footer f)) [].

Fixpoint all_blocks (f : SstFile) (metas : list BlockMeta) : Result bytes :=
  match metas with
  | [] => Ok []
  | meta :: metas =>
      let? b := block_bytes f meta in
      let? rest := all_blocks f metas in Ok (b ++ rest)
  end.

Definition verify_file_crc (f : SstFile) : Result () :=
  let? b := all_blocks f (ft_index (sf_footer f)) in
  let got := crc32 b in
  if bool_decide (got ≠ ft_file_crc (sf_footer f))
  then Err (Storage ("file crc mismatch: expected " +:+ pretty (ft_file_crc (sf_footer f)) +:+
         ", got " +:+ pretty got))
  else Ok ().

(** ** The lazy scan *)

(** [block] and [pos] are the rest of the block under way. *)
Record SstScan := MkSstScan {
  sc_block_idx : nat;
  sc_block : option bytes;
  sc_done : bool;
}.

Definition scan_iter : SstScan := MkSstScan 0 None false.

(** [Iterator::next].  The item, and the scan after it. *)
Fixpoint scan_next (fuel : nat) (f : SstFile) (start stop : option string) (s : SstScan) :
    option (Result row) * SstScan :=
  match fuel with
  | O => (None, s)
  | S fuel =>
      if sc_done s then (None, s)
      else
        match sc_block s with
        | None =>
            match ft_index (sf_footer f) !! sc_block_idx s with
            | None => (None, s)
            | Some meta =>
                let s := MkSstScan (S (sc_block_idx s)) None false in
                if overlaps start stop meta then
                  match block_bytes f meta with
                  | Ok b => scan_next fuel f start stop (MkSstScan (sc_block_idx s) (Some b) false)
                  | Err e => (Some (Err e), MkSstScan (sc_block_idx s) None true)
                  end
                else scan_next fuel f start stop s
            end
        | Some l =>
            match decode_entry l with
            | Err e => (Some (Err e), MkSstScan (sc_block_idx s) (sc_block s) true)
            | Ok None => scan_next fuel f start stop (MkSstScan (sc_block_idx s) None false)
            | Ok (Some (r, l')) =>
                let s := MkSstScan (sc_block_idx s) (Some l') false in
                if decide (in_bounds start stop r.1) then (Some (Ok r), s)
                else scan_next fuel f start stop s
            end
        end
  end.

(** A round of the loop leaves fewer blocks or a shorter slice. *)
Definition scan_fuel (f : SstFile) : nat :=
  S (S (length (ft_index (sf_footer f))) * (length (sf_data f) + 2)).

(** The items of the scan, up to its end. *)
Fixpoint scan_items (fuel : nat) (f : SstFile) (start stop : option string) (s : SstScan) :
    list (Result row) :=
  match fuel with
  | O => []
  | S fuel =>
      match scan_next (scan_fuel f) f start stop s with
      | (None, _) => []
      | (Some item, s) => item :: scan_items fuel f start stop s
      end
  end.

Definition scan_stream (f : SstFile) (start stop : option string) : list (Result row) :=
  scan_items (scan_fuel f) f start stop scan_iter.
End sst.
