(* ===== verification/SstSpec.v ===== *)
(** Correctness of sorted string tables: the lazy scan is the eager one on any
    file, the bloom filter has no false negatives, and a built file reads back
    as the table it was built from. *)

From stdpp Require Import options.
From S2P Require Import Prelude OrdMap Core Codec Snapshot Json Wal Sst.

(** ** Bits *)

Lemma land_bit x j : negb (N.land x (N.shiftl 1 j) =? 0)%N = N.testbit x j.
Proof.
  rewrite N.shiftl_1_l.
  assert (N.land x (2 ^ j) = if N.testbit x j then 2 ^ j else 0)%N as ->.
  { apply N.bits_inj. intros i. rewrite N.land_spec, N.pow2_bits_eqb.
    destruct (N.eqb_spec j i) as [<-|Hne].
    - destruct (N.testbit x j); [|by rewrite N.bits_0].
      by rewrite N.pow2_bits_true.
    - rewrite andb_false_r. destruct (N.testbit x j); [|by rewrite N.bits_0].
      by rewrite N.pow2_bits_false. }
  destruct (N.testbit x j); [|done].
  pose proof (N.pow_nonzero 2 j). by rewrite (proj2 (N.eqb_neq _ _)) by lia.
Qed.

Lemma get_bit_set bits i j :
  get_bit bits j = true → get_bit (set_bit bits i) j = true.
Proof.
  unfold get_bit, set_bit. rewrite list_lookup_alter. case_decide as Heq; [|done].
  rewrite Heq. destruct (bits !! N.to_nat (j / 8)) as [b|]; [|done]. simpl.
  rewrite !land_bit, to_N_byte_of.
  rewrite (N.mod_pow2_bits_low _ 8) by (apply N.mod_lt; lia).
  rewrite N.lor_spec. intros ->. done.
Qed.

Lemma get_bit_same bits i :
  (i < blen bits * 8)%N → get_bit (set_bit bits i) i = true.
Proof.
  intros Hi. unfold get_bit, set_bit, blen in *.
  destruct (lookup_lt_is_Some_2 bits (N.to_nat (i / 8))) as [b Hb].
  { pose proof (N.Div0.div_lt_upper_bound i 8 (N.of_nat (length bits))). lia. }
  rewrite list_lookup_alter_eq, Hb. simpl.
  rewrite !land_bit, to_N_byte_of.
  rewrite (N.mod_pow2_bits_low _ 8) by (apply N.mod_lt; lia).
  rewrite N.lor_spec, N.shiftl_1_l, N.pow2_bits_true. apply orb_true_r.
Qed.

Lemma set_bit_length bits i : length (set_bit bits i) = length bits.
Proof. apply length_alter. Qed.

Lemma set_bits_spec (js : list N) bits :
  let bits' := foldl set_bit bits js in
  length bits' = length bits ∧
  (∀ j, get_bit bits j = true → get_bit bits' j = true) ∧
  (∀ i, i ∈ js → (i < blen bits * 8)%N → get_bit bits' i = true).
Proof.
  revert bits. induction js as [|i js IH]; intros bits; simpl.
  { split_and!; [done|done|]. by intros i ?%elem_of_nil. }
  destruct (IH (set_bit bits i)) as (Hl & Hm & Hi). unfold blen in *.
  rewrite set_bit_length in *. split_and!; [done| |].
  - intros j Hj. by apply Hm, get_bit_set.
  - intros j [->|Hj]%elem_of_cons Hlt; [|by apply Hi].
    apply Hm, get_bit_same. done.
Qed.

Section bloom.
Context `{Dg : Digests}.

(** Every bit of a key is set. *)
Definition blooms (b : Bloom) (k : string) : Prop :=
  ∀ i, i ∈ upto (bl_k b) → get_bit (bl_bits b) (bloom_hash k i mod bl_m b) = true.

Definition bloom_wf (b : Bloom) : Prop :=
  (0 < bl_m b ∧ bl_m b ≤ blen (bl_bits b) * 8)%N ∧ bl_k b = 3%N.

Lemma bloom_new_wf n : bloom_wf (bloom_new n).
Proof.
  unfold bloom_wf, bloom_new, blen. cbn [bl_m bl_k bl_bits]. rewrite length_replicate.
  split; [|done]. split; [lia|]. rewrite N2Nat.id.
  pose proof (N.Div0.div_mod (N.max n 1 * 10 + 7) 8).
  pose proof (N.mod_lt (N.max n 1 * 10 + 7) 8). lia.
Qed.

Lemma bloom_set_spec b k :
  bloom_wf b →
  bloom_wf (bloom_set b k) ∧ blooms (bloom_set b k) k ∧
  ∀ k', blooms b k' → blooms (bloom_set b k) k'.
Proof.
  intros [Hm Hk]. unfold bloom_wf, blooms, bloom_set. cbn [bl_m bl_k bl_bits].
  assert (∀ js bits, foldl (λ bits i, set_bit bits (bloom_hash k i mod bl_m b)%N) bits js =
    foldl set_bit bits ((λ i, bloom_hash k i mod bl_m b)%N <$> js)) as ->.
  { induction js as [|i js IH]; intros bits; simpl; [done|apply IH]. }
  destruct (set_bits_spec ((λ i, bloom_hash k i mod bl_m b)%N <$> upto (bl_k b)) (bl_bits b))
    as (Hl & Hmono & Hset).
  unfold blen in *. rewrite Hl. split_and!; try done; try lia.
  - intros i Hi. apply Hset.
    { apply (list_elem_of_fmap_2 (λ i, bloom_hash k i mod bl_m b)%N). done. }
    pose proof (N.mod_lt (bloom_hash k i) (bl_m b)). lia.
  - intros k' Hk' i Hi. by apply Hmono, Hk'.
Qed.

Lemma bloom_all_spec ks b :
  bloom_wf b →
  bloom_wf (foldl bloom_set b ks) ∧
  (∀ k, blooms b k ∨ k ∈ ks → blooms (foldl bloom_set b ks) k).
Proof.
  revert b. induction ks as [|k ks IH]; intros b Hb; simpl.
  { split; [done|]. by intros k [?|?%elem_of_nil]. }
  destruct (bloom_set_spec b k Hb) as (Hwf & Hk & Hmono).
  destruct (IH _ Hwf) as [Hwf' Hall]. split; [done|].
  intros k' [Hk'|[->|Hk']%elem_of_cons]; apply Hall; auto.
Qed.
End bloom.

(** ** The lazy scan *)

Lemma decode_entry_shrinks l r l' :
  decode_entry l = Ok (Some (r, l')) → length l' < length l.
Proof.
  unfold decode_entry. destruct (N.ltb_spec (blen l) 4) as [|H4]; [done|]. cbv zeta.
  set (klen := from_le_bytes (take 4 l)).
  destruct (N.ltb_spec (blen l) (4 + klen + 4)) as [|Hk]; [done|].
  destruct (utf8_error _); [done|]. unfold blen in *.
  destruct (_ =? _)%N; [|destruct (_ <? _)%N; [done|]];
    intros [= _ <-]; rewrite !length_drop; lia.
Qed.

Section scan.
Context `{Dg : Digests}.
Context (f : SstFile) (start stop : option string).

(** The in-range items of a slice, before those of [k]. *)
Fixpoint slice_items (fuel : nat) (l : bytes) (k : list (Result row)) : list (Result row) :=
  match fuel with
  | O => k
  | S fuel =>
      match decode_entry l with
      | Err e => [Err e]
      | Ok None => k
      | Ok (Some (r, l')) =>
          if decide (in_bounds start stop r.1) then Ok r :: slice_items fuel l' k
          else slice_items fuel l' k
      end
  end.

Fixpoint blocks_items (metas : list BlockMeta) : list (Result row) :=
  match metas with
  | [] => []
  | meta :: metas =>
      if overlaps start stop meta then
        match block_bytes f meta with
        | Ok b => slice_items (S (length b)) b (blocks_items metas)
        | Err e => [Err e]
        end
      else blocks_items metas
  end.

Lemma slice_items_fuel n1 n2 l k :
  length l < n1 → length l < n2 → slice_items n1 l k = slice_items n2 l k.
Proof.
  revert n2 l. induction n1 as [|n1 IH]; intros [|n2] l H1 H2; try lia.
  simpl. destruct (decode_entry l) as [[[r l']|]|e] eqn:Hd; [|done|done].
  apply decode_entry_shrinks in Hd. rewrite (IH n2) by lia. done.
Qed.

(** The items still to come. *)
Definition items_of (s : SstScan) : list (Result row) :=
  if sc_done s then []
  else
    let rest := blocks_items (drop (sc_block_idx s) (ft_index (sf_footer f))) in
    match sc_block s with
    | Some l => slice_items (S (length l)) l rest
    | None => rest
    end.

Definition scan_wf (s : SstScan) : Prop :=
  match sc_block s with Some l => length l ≤ length (sf_data f) | None => True end.

Definition todo (s : SstScan) : nat :=
  if sc_done s then 0
  else S ((length (ft_index (sf_footer f)) - sc_block_idx s) * (length (sf_data f) + 2) +
          match sc_block s with Some l => S (length l) | None => 0 end).

Lemma block_bytes_le meta b : block_bytes f meta = Ok b → length b ≤ length (sf_data f).
Proof.
  unfold block_bytes. destruct (_ <? _)%N; [done|]. case_bool_decide; [done|].
  intros [= <-]. unfold slice. rewrite length_take, length_drop. lia.
Qed.

Lemma todo_fuel s : scan_wf s → todo s < scan_fuel f.
Proof.
  unfold todo, scan_fuel, scan_wf. destruct (sc_done s), (sc_block s); intros; nia.
Qed.

(** What a pull returns and leaves. *)
Definition pulled (s : SstScan) (r : option (Result row) * SstScan) : Prop :=
  scan_wf r.2 ∧
  match r.1 with
  | None => items_of s = []
  | Some item => items_of s = item :: items_of r.2 ∧ todo r.2 < todo s
  end.

Lemma pulled_step s s' r :
  items_of s = items_of s' → todo s' ≤ todo s → pulled s' r → pulled s r.
Proof.
  intros Hi Ht [Hwf Hr]. split; [done|]. rewrite Hi. destruct r.1; [|done].
  destruct Hr. split; [done|lia].
Qed.

Lemma drop_index idx meta :
  ft_index (sf_footer f) !! idx = Some meta →
  drop idx (ft_index (sf_footer f)) = meta :: drop (S idx) (ft_index (sf_footer f)).
Proof. intros Hm. by rewrite (drop_S _ meta). Qed.

Lemma scan_next_spec fuel s :
  scan_wf s → todo s < fuel → pulled s (scan_next fuel f start stop s).
Proof.
  revert s. induction fuel as [|fuel IH]; intros [idx blk dn] Hwf Hf; [lia|].
  cbn [scan_next sc_done sc_block sc_block_idx]. destruct dn; [done|].
  destruct blk as [l|].
  - destruct (decode_entry l) as [[[r l']|]|e] eqn:Hd.
    + apply decode_entry_shrinks in Hd as Hl. unfold scan_wf in Hwf. simpl in Hwf.
      assert (items_of (MkSstScan idx (Some l) false) =
        if decide (in_bounds start stop r.1)
        then Ok r :: items_of (MkSstScan idx (Some l') false)
        else items_of (MkSstScan idx (Some l') false)) as Hi.
      { unfold items_of. cbn [sc_done sc_block sc_block_idx]. cbn [slice_items]. rewrite Hd.
        by rewrite (slice_items_fuel (length l) (S (length l'))) by lia. }
      assert (scan_wf (MkSstScan idx (Some l') false)) as Hwf'
        by (unfold scan_wf; simpl; lia).
      assert (todo (MkSstScan idx (Some l') false) < todo (MkSstScan idx (Some l) false))
        as Ht by (unfold todo; simpl; lia).
      case_decide as Hb.
      * split; [done|]. by split.
      * eapply pulled_step; [exact Hi|lia|]. apply IH; [done|lia].
    + eapply pulled_step; [| |apply IH].
      * unfold items_of. cbn [sc_done sc_block sc_block_idx slice_items]. by rewrite Hd.
      * unfold todo. simpl. lia.
      * done.
      * unfold todo in *. simpl in *. lia.
    + split; [done|]. cbn [fst snd]. split.
      * unfold items_of. cbn [sc_done sc_block sc_block_idx slice_items]. by rewrite Hd.
      * apply Nat.lt_0_succ.
  - destruct (ft_index (sf_footer f) !! idx) as [meta|] eqn:Hm.
    2: { split; [done|]. unfold items_of. simpl.
         by rewrite drop_ge by (by apply lookup_ge_None). }
    apply lookup_lt_Some in Hm as Hlt.
    assert (items_of (MkSstScan idx None false) =
      blocks_items (meta :: drop (S idx) (ft_index (sf_footer f)))) as Hi.
    { unfold items_of. cbn [sc_done sc_block sc_block_idx]. by rewrite (drop_index _ _ Hm). }
    cbn [blocks_items] in Hi. unfold todo in Hf. cbn [sc_done sc_block sc_block_idx] in Hf.
    assert (length (ft_index (sf_footer f)) - idx =
      S (length (ft_index (sf_footer f)) - S idx)) as Hn by lia.
    rewrite Hn, Nat.mul_succ_l in Hf.
    destruct (overlaps start stop meta).
    + destruct (block_bytes f meta) as [b|e] eqn:Hb.
      * apply block_bytes_le in Hb.
        apply (pulled_step _ (MkSstScan (S idx) (Some b) false)); [exact Hi| |apply IH];
          [|exact Hb|];
          unfold todo; cbn [sc_done sc_block sc_block_idx];
          rewrite ?Hn, ?Nat.mul_succ_l; lia.
      * split; [done|]. cbn [fst snd]. split; [exact Hi|]. apply Nat.lt_0_succ.
    + apply (pulled_step _ (MkSstScan (S idx) None false)); [exact Hi| |apply IH];
        [|done|];
        unfold todo; cbn [sc_done sc_block sc_block_idx];
        rewrite ?Hn, ?Nat.mul_succ_l; lia.
Qed.

Lemma scan_items_spec fuel s :
  scan_wf s → todo s < fuel → scan_items fuel f start stop s = items_of s.
Proof.
  revert s. induction fuel as [|fuel IH]; intros s Hwf Hf; [lia|]. cbn [scan_items].
  destruct (scan_next_spec (scan_fuel f) s Hwf (todo_fuel s Hwf)) as [Hwf' Hp].
  destruct (scan_next _ _ _ _ s) as [[item|] s']; simpl in *; [|done].
  destruct Hp as [-> Ht]. f_equal. apply IH; [done|lia].
Qed.

Lemma scan_stream_items :
  scan_stream f start stop = blocks_items (ft_index (sf_footer f)).
Proof.
  unfold scan_stream. rewrite scan_items_spec; [done|done|]. by apply todo_fuel.
Qed.

(** What a loop over an iterator of results with [?] collects. *)
Fixpoint collect (l : list (Result row)) : Result (list row) :=
  match l with
  | [] => Ok []
  | Ok r :: l => let? rs := collect l in Ok (r :: rs)
  | Err e :: _ => Err e
  end.

Lemma collect_slice fuel l out k :
  (let? res := scan_block fuel start stop None l out in
   if res.2 then Ok res.1 else let? rs := collect k in Ok (res.1 ++ rs)) =
  (let? rs := collect (slice_items fuel l k) in Ok (out ++ rs)).
Proof.
  revert l out. induction fuel as [|fuel IH]; intros l out; simpl; [done|].
  destruct (decode_entry l) as [[[r l']|]|e]; simpl; [|done|done].
  case_decide; [|apply IH]. rewrite IH. simpl.
  destruct (collect (slice_items fuel l' k)); simpl; [|done]. by rewrite <-app_assoc.
Qed.

Lemma scan_blocks_items metas out :
  scan_blocks f start stop None metas out =
    (let? rs := collect (blocks_items metas) in Ok (out ++ rs)).
Proof.
  revert out. induction metas as [|meta metas IH]; intros out; cbn [scan_blocks blocks_items].
  { simpl. by rewrite app_nil_r. }
  destruct (overlaps start stop meta); [|apply IH].
  destruct (block_bytes f meta) as [b|e]; cbn [res_bind]; [|done].
  rewrite <-collect_slice. destruct (scan_block _ _ _ _ _ _) as [[out' stopped]|e];
    cbn [res_bind fst snd]; [|done]. by destruct stopped.
Qed.
End scan.

Lemma collect_ok (l : list row) : collect (Ok <$> l) = Ok l.
Proof. induction l as [|r l IH]; [done|]. rewrite fmap_cons. cbn [collect]. by rewrite IH. Qed.

(** The lazy scan mirrors the eager one on every file, corrupt ones included:
    pulling it to the end yields the rows of [scan_with_tombstones] in the same
    order, and the first error it yields is the error the eager scan returns. *)
Theorem sst_scans_agree `{Dg : Digests} (f : SstFile) (start stop : option string) :
  scan_with_tombstones f start stop None = collect (scan_stream f start stop).
Proof.
  unfold scan_with_tombstones. rewrite scan_stream_items, scan_blocks_items.
  by destruct (collect _).
Qed.

(** ** Well-formed files *)

(** The index entry of a block of rows. *)
Definition block_meta `{Dg : Digests} (off : N) (c : list row) : BlockMeta :=
  MkBlockMeta (default "" (fst <$> head c)) (default "" (fst <$> last c)) off
    (blen (frames c)) (crc32 (frames c)).

Fixpoint metas_of `{Dg : Digests} (off : N) (cs : list (list row)) : list BlockMeta :=
  match cs with
  | [] => []
  | c :: cs => block_meta off c :: metas_of (off + blen (frames c)) cs
  end.

Lemma frames_nil : frames [] = [].
Proof. done. Qed.

Lemma frames_app l1 l2 : frames (l1 ++ l2) = frames l1 ++ frames l2.
Proof. unfold frames. by rewrite fmap_app, join_app. Qed.

Lemma frames_join (cs : list (list row)) : mjoin (frames <$> cs) = frames (mjoin cs).
Proof. induction cs as [|c cs IH]; [done|].
  change (frames c ++ mjoin (frames <$> cs) = frames (c ++ mjoin cs)).
  by rewrite IH, frames_app.
Qed.

Lemma frames_nil_inv l : frames l = [] → l = [].
Proof.
  destruct l as [|r l]; [done|]. rewrite frames_cons. intros [Hf _]%app_eq_nil.
  apply (f_equal length) in Hf. rewrite frame_length in Hf. simpl in Hf. lia.
Qed.

Lemma frames_length_lt l : length l ≤ length (frames l).
Proof.
  induction l as [|r l IH]; [simpl; lia|].
  rewrite frames_cons, length_app, frame_length. cbn [length]. lia.
Qed.

Lemma slice_mid (a b c : bytes) : slice (a ++ b ++ c) (blen a) (blen a + blen b) = b.
Proof.
  unfold slice. replace (blen a + blen b - blen a)%N with (blen b) by lia.
  by rewrite drop_blen, take_blen.
Qed.

#[local] Opaque frames.

Lemma metas_of_snoc `{Dg : Digests} off cs c :
  metas_of off (cs ++ [c]) = metas_of off cs ++ [block_meta (off + blen (frames (mjoin cs))) c].
Proof.
  revert off. induction cs as [|c0 cs IH]; intros off; simpl.
  - rewrite frames_nil. by rewrite N.add_0_r.
  - rewrite IH, frames_app, blen_app. by rewrite N.add_assoc.
Qed.

Section file.
Context `{Dg : Digests}.

(** The index entry of a block that holds the rows [c]. *)
Definition holds (f : SstFile) (meta : BlockMeta) (c : list row) : Prop :=
  block_bytes f meta = Ok (frames c) ∧ Forall op_ok c ∧
  ∀ k v, (k, v) ∈ c → bm_min_key meta ≤ₖ k ∧ k ≤ₖ bm_max_key meta.

Lemma find_in_frames fuel k c :
  Forall op_ok c → length c < fuel → find_in_block fuel k (frames c) = Ok (assoc k c).
Proof.
  intros Hok. revert fuel. induction Hok as [|r c Hr Hok IH]; intros [|fuel] Hf;
    simpl in Hf; try lia; [done|].
  cbn [find_in_block assoc]. rewrite frames_cons, decode_frame by done. cbn [res_bind].
  destruct r as [k' v]. simpl. case_decide; [done|]. apply IH. lia.
Qed.

Lemma find_in_blocks_spec f k metas cs :
  Forall2 (holds f) metas cs → find_in_blocks f k metas = Ok (assoc k (mjoin cs)).
Proof.
  induction 1 as [|meta c metas cs (Hb & Hok & Hspan) _ IH]; [done|].
  cbn [find_in_blocks]. change (mjoin (c :: cs)) with (c ++ mjoin cs). rewrite assoc_app. case_bool_decide as Hout.
  - rewrite assoc_None; [done|]. intros v Hin. apply Hspan in Hin as [H1 H2].
    destruct Hout; key_order.
  - rewrite Hb. cbn [res_bind]. pose proof (frames_length_lt c).
    rewrite find_in_frames by (done || lia). simpl. destruct (assoc k c); [done|apply IH].
Qed.

Lemma slice_items_frames start stop fuel c k :
  Forall op_ok c → length c < fuel →
  slice_items start stop fuel (frames c) k =
    (Ok <$> filter (λ r, in_bounds start stop r.1) c : list (Result row)) ++ k.
Proof.
  intros Hok. revert fuel. induction Hok as [|r c Hr Hok IH]; intros [|fuel] Hf;
    simpl in Hf; try lia; [done|].
  cbn [slice_items]. rewrite frames_cons, decode_frame by done.
  rewrite filter_cons. case_decide; simpl; rewrite IH by lia; done.
Qed.

Lemma blocks_items_spec f start stop metas cs :
  Forall2 (holds f) metas cs →
  blocks_items f start stop metas =
    (Ok <$> filter (λ r, in_bounds start stop r.1) (mjoin cs) : list (Result row)).
Proof.
  induction 1 as [|meta c metas cs (Hb & Hok & Hspan) _ IH]; [done|].
  cbn [blocks_items]. change (mjoin (c :: cs)) with (c ++ mjoin cs). rewrite filter_app, fmap_app, IH.
  pose proof (frames_length_lt c).
  destruct (overlaps start stop meta) eqn:Ho.
  - rewrite Hb, slice_items_frames by (done || lia). done.
  - assert (filter (λ r : row, in_bounds start stop r.1) c = []) as ->; [|done].
    apply filter_none. intros [k v] Hin [H1 H2].
    apply Hspan in Hin as [H3 H4]. unfold overlaps in Ho. simpl in *.
    destruct start as [s|], stop as [e|]; simpl in *;
      repeat (case_bool_decide; simpl in Ho); try done; key_order.
Qed.

Lemma all_blocks_spec f metas cs :
  Forall2 (holds f) metas cs → all_blocks f metas = Ok (frames (mjoin cs)).
Proof.
  induction 1 as [|meta c metas cs (Hb & _) _ IH]; [done|].
  cbn [all_blocks]. rewrite Hb. cbn [res_bind]. rewrite IH. simpl. by rewrite frames_app.
Qed.

(** The first and the last row bound a sorted block. *)
Lemma head_last_span off (c : list row) k v :
  sorted_entries c → (k, v) ∈ c →
  bm_min_key (block_meta off c) ≤ₖ k ∧ k ≤ₖ bm_max_key (block_meta off c).
Proof.
  intros Hs Hin. cbn [block_meta bm_min_key bm_max_key]. split.
  - destruct c as [|r c]; [by apply elem_of_nil in Hin|]. simpl.
    apply sorted_entries_cons in Hs as [_ Hlt].
    apply elem_of_cons in Hin as [<-|Hin]; [done|]. by eapply key_lt_le, Hlt.
  - destruct (last c) as [r|] eqn:Hl; [|by apply last_None in Hl; subst; apply elem_of_nil in Hin].
    simpl. apply last_Some in Hl as [c' ->].
    apply sorted_entries_app in Hs as (_ & _ & Hlt).
    apply elem_of_app in Hin as [Hin|Hin].
    + apply key_lt_le, (Hlt k v r.1 r.2); [done|]. rewrite <-surjective_pairing. by left.
    + apply list_elem_of_singleton in Hin as <-. done.
Qed.

Lemma holds_all f pre cs rest :
  Forall (Forall op_ok) cs → sorted_entries (mjoin cs) →
  sf_data f = pre ++ frames (mjoin cs) ++ rest →
  (blen pre + blen (frames (mjoin cs)) ≤ sf_footer_offset f)%N →
  Forall2 (holds f) (metas_of (blen pre) cs) cs.
Proof.
  intros Hok. revert pre. induction Hok as [|c cs Hc Hok IH]; intros pre Hs Hd Ho;
    [constructor|]. simpl in *. rewrite frames_app in Hd, Ho. rewrite blen_app in Ho.
  rewrite <-app_assoc in Hd.
  apply sorted_entries_app in Hs as (Hsc & Hscs & _).
  constructor.
  - split; [|split; [done|]].
    + unfold block_bytes. cbn [block_meta bm_offset bm_len bm_crc].
      rewrite (proj2 (N.ltb_ge _ _)) by lia. rewrite Hd, slice_mid. by case_bool_decide.
    + intros k v. by apply head_last_span.
  - rewrite <-blen_app. apply IH; [done| |].
    + by rewrite Hd, <-app_assoc.
    + rewrite blen_app. lia.
Qed.
End file.

(** ** The builder *)

Section build.
Context `{Dg : Digests} `{JsonLaws SstFooter}.

(** The state of the builder after the rows of [cs] and then [cur]. *)
Record built (st : Building) (cs : list (list row)) (cur : list row) : Prop := {
  bu_blocks : sb_blocks st = frames <$> cs;
  bu_index : sb_index st = metas_of 0 cs;
  bu_block : sb_cur_block st = frames cur;
  bu_offset : sb_offset st = blen (frames (mjoin cs));
  bu_min : sb_cur_min st = fst <$> head cur;
  bu_max : cur ≠ [] → sb_cur_max st = fst <$> last cur;
}.

Lemma cut_block_built st cs cur :
  built st cs cur → cur ≠ [] → built (cut_block st) (cs ++ [cur]) [].
Proof using Type.
  intros [Hb Hi Hc Ho Hmin Hmax] Hne. unfold cut_block, cut_meta.
  rewrite Hb, Hi, Hc, Ho, Hmin, (Hmax Hne). split; cbn; try done.
  - by rewrite fmap_app.
  - rewrite metas_of_snoc. by rewrite N.add_0_l.
  - rewrite join_app, frames_app, blen_app. simpl. by rewrite app_nil_r.
Qed.

Lemma write_record_ok buf e : op_ok e → write_record buf e = Ok (buf ++ frame e).
Proof using Type.
  destruct e as [k [v|]]; intros (_ & Hk & Hv); unfold write_record, frame; cbn [fst snd] in *;
    unfold u32_try_from; rewrite decide_True by done; cbn [map_err res_bind].
  - unfold TOMBSTONE_VLEN in Hv. rewrite decide_True by lia. cbn [map_err res_bind].
    by rewrite <-!app_assoc.
  - by rewrite <-!app_assoc.
Qed.

Lemma add_entry_built bs st cs cur e :
  built st cs cur → op_ok e →
  ∃ st' cs' cur', add_entry bs st e = Ok st' ∧ built st' cs' cur' ∧
    mjoin cs' ++ cur' = (mjoin cs ++ cur) ++ [e].
Proof using Type.
  intros Hbu He. unfold add_entry.
  assert (∃ st1 cs1 cur1,
    (if bool_decide (sb_cur_block st ≠ [] ∧ (bs < blen (sb_cur_block st) +
       (4 + blen (as_bytes e.1) + 4 + match e.2 with Some v => blen v | None => 0 end))%N)
     then cut_block st else st) = st1 ∧ built st1 cs1 cur1 ∧
    mjoin cs1 ++ cur1 = mjoin cs ++ cur) as (st1 & cs1 & cur1 & -> & Hb1 & Heq).
  { case_bool_decide as Hcut; eexists _; [|by exists cs, cur].
    exists (cs ++ [cur]), []. split; [done|]. split.
    - apply cut_block_built; [done|]. intros ->. destruct Hcut as [Hne _]. apply Hne.
      by rewrite (bu_block _ _ _ Hbu), frames_nil.
    - rewrite join_app. simpl. by rewrite !app_nil_r. }
  destruct Hb1 as [Hb Hi Hc Ho Hmin Hmax]. rewrite write_record_ok by done. cbn [res_bind].
  eexists _, cs1, (cur1 ++ [e]). split; [done|]. split.
  - split; cbn; try done.
    + rewrite Hc, frames_app, frames_cons. by rewrite frames_nil, app_nil_r.
    + rewrite Hmin. by destruct cur1.
    + intros _. by rewrite last_snoc.
  - by rewrite app_assoc, Heq.
Qed.

Lemma add_entries_built bs es st cs cur :
  built st cs cur → Forall op_ok es →
  ∃ st' cs' cur', add_entries bs es st = Ok st' ∧ built st' cs' cur' ∧
    mjoin cs' ++ cur' = (mjoin cs ++ cur) ++ es.
Proof using Type.
  intros Hbu Hok. revert st cs cur Hbu. induction Hok as [|e es He Hok IH]; intros st cs cur Hbu.
  { exists st, cs, cur. by rewrite app_nil_r. }
  destruct (add_entry_built bs _ _ _ _ Hbu He) as (st1 & cs1 & cur1 & Ha & Hb1 & Heq).
  destruct (IH _ _ _ Hb1) as (st2 & cs2 & cur2 & Has & Hb2 & Heq2).
  exists st2, cs2, cur2. cbn [add_entries]. rewrite Ha. cbn [res_bind].
  split; [done|]. split; [done|]. by rewrite Heq2, Heq, <-!app_assoc.
Qed.

Definition footer_of (m : MemMap) (cs : list (list row)) : SstFooter :=
  let bloom := foldl bloom_set (bloom_new (N.of_nat (size m))) (bt_iter m).*1 in
  MkSstFooter (metas_of 0 cs) (bl_bits bloom) (bl_k bloom) (bl_m bloom)
    (crc32 (frames (mjoin cs))).

(** A build cuts the rows into blocks. *)
Lemma build_sst_spec (m : MemMap) bs :
  Forall op_ok (bt_iter m) →
  ∃ cs, mjoin cs = bt_iter m ∧
    build_sst m bs = Ok (write_file (frames <$> cs) (footer_of m cs)).
Proof using Type.
  intros Hok.
  destruct (add_entries_built (N.max bs 64) (bt_iter m) (MkBuilding [] [] [] None None 0) [] [])
    as (st & cs & cur & Ha & Hbu & Heq); [by split|done|]. simpl in Heq.
  unfold build_sst. cbv zeta. rewrite Ha. cbn [res_bind].
  assert (∃ cs', mjoin cs' = bt_iter m ∧
    built (if bool_decide (sb_cur_block st ≠ []) then cut_block st else st) cs' [])
    as (cs' & Heq' & [Hb Hi _ _ _ _]).
  { case_bool_decide as Hcut.
    - exists (cs ++ [cur]). rewrite join_app. simpl. rewrite app_nil_r. split; [done|].
      apply cut_block_built; [done|]. intros ->. apply Hcut.
      by rewrite (bu_block _ _ _ Hbu), frames_nil.
    - assert (cur = []) as ->.
      { apply frames_nil_inv. rewrite <-(bu_block _ _ _ Hbu).
        destruct (sb_cur_block st); [done|]. by destruct Hcut. }
      exists cs. by rewrite app_nil_r in Heq. }
  exists cs'. split; [done|]. unfold footer_of. by rewrite Hb, Hi, frames_join.
Qed.

(** Where the trailer of a written file lies. *)
Lemma write_file_slices (blocks : list bytes) (footer : SstFooter) :
  let data := write_file blocks footer in
  let lo := blen (mjoin blocks) in
  let hi := (lo + blen (to_vec footer))%N in
  blen data = (hi + 12)%N ∧
  slice data lo hi = to_vec footer ∧
  slice data hi (hi + 4) = u32_le (blen (to_vec footer)) ∧
  slice data (hi + 4) (hi + 8) = SST_MAGIC ∧
  slice data (hi + 8) (hi + 12) = u32_le SST_VERSION.
Proof using Type.
  cbv zeta. unfold write_file. set (B := mjoin blocks). set (F := to_vec footer).
  assert (∀ d a b c lo hi, d = a ++ b ++ c → lo = blen a → hi = (blen a + blen b)%N →
    slice d lo hi = b) as Hmid by (intros d a b c ?? -> -> ->; apply slice_mid).
  assert (blen SST_MAGIC = 4%N) as Hm by done.
  split_and!.
  - rewrite !blen_app, !blen_u32, Hm. lia.
  - by apply (Hmid _ B F (u32_le (blen F) ++ SST_MAGIC ++ u32_le SST_VERSION)).
  - apply (Hmid _ (B ++ F) (u32_le (blen F)) (SST_MAGIC ++ u32_le SST_VERSION));
      rewrite ?blen_app, ?blen_u32; [by rewrite <-!app_assoc|lia..].
  - apply (Hmid _ (B ++ F ++ u32_le (blen F)) SST_MAGIC (u32_le SST_VERSION));
      rewrite ?blen_app, ?blen_u32, ?Hm; [by rewrite <-!app_assoc|lia..].
  - apply (Hmid _ (B ++ F ++ u32_le (blen F) ++ SST_MAGIC) (u32_le SST_VERSION) []);
      rewrite ?blen_app, ?blen_u32, ?Hm; [by rewrite app_nil_r, <-!app_assoc|lia..].
Qed.

(** Parsing a written file. *)
Lemma parse_write_file (blocks : list bytes) (footer : SstFooter) :
  (blen (to_vec footer) ≤ U32_MAX)%N → (0 < ft_bloom_k footer ≤ 32)%N →
  parse (write_file blocks footer) =
    Ok (MkSstFile (write_file blocks footer) footer (blen (mjoin blocks))).
Proof using Type*.
  intros Hlen Hk.
  destruct (write_file_slices blocks footer) as (Hd & Hft & Hfl & Hmagic & Hver).
  unfold parse. set (data := write_file blocks footer) in *. clearbody data.
  set (hi := (blen (mjoin blocks) + blen (to_vec footer))%N) in *.
  rewrite (proj2 (N.ltb_ge _ _)) by lia. cbv zeta. unfold SST_TRAILER_LEN.
  replace (blen data - 8)%N with (hi + 4)%N by lia.
  replace (hi + 4 + 4)%N with (hi + 8)%N by lia.
  rewrite Hmagic, bool_decide_eq_false_2 by (intros []; done).
  replace (hi + 4 + 8)%N with (hi + 12)%N by lia.
  rewrite Hver, from_to_u32, bool_decide_eq_false_2 by (done || (intros []; done)).
  replace (hi + 4 - 4)%N with hi by lia.
  rewrite Hfl, from_to_u32 by done. rewrite (proj2 (N.ltb_ge _ _)) by lia.
  replace (hi - blen (to_vec footer))%N with (blen (mjoin blocks)) by lia.
  rewrite bool_decide_eq_false_2 by (intros [Hne|Hlt]; lia).
  rewrite Hft, from_to_vec. by rewrite bool_decide_eq_false_2 by lia.
Qed.

(** A key of the table passes the filter of its file. *)
Lemma may_contain_spec m cs data off k :
  mjoin cs = bt_iter m → is_Some (m !! k) →
  may_contain (MkSstFile data (footer_of m cs) off) k = true.
Proof using Type.
  intros Hcs [v Hk]. apply elem_of_bt_iter in Hk. unfold may_contain, footer_of.
  cbv zeta. cbn [sf_footer ft_index ft_bloom_m ft_bloom_bits ft_bloom_k].
  set (b := foldl bloom_set (bloom_new (N.of_nat (size m))) (bt_iter m).*1).
  destruct (bloom_all_spec (bt_iter m).*1 (bloom_new (N.of_nat (size m))))
    as [[[Hm0 Hm] _] Hall]; [apply bloom_new_wf|]. fold b in Hm0, Hm, Hall.
  destruct cs as [|c cs]; [simpl in Hcs; rewrite <-Hcs in Hk; by apply elem_of_nil in Hk|].
  cbn [metas_of]. rewrite (proj2 (N.eqb_neq _ _)), (proj2 (N.ltb_ge _ _)) by lia.
  apply forallb_forall. intros i Hi. apply Hall.
  - right. by apply (list_elem_of_fmap_2 fst _ (k, v)).
  - by apply list_elem_of_In.
Qed.
End build.

(** What a file that stores a table answers. *)
Record file_holds `{Dg : Digests} (f : SstFile) (m : MemMap) : Prop := {
  fh_crc : verify_file_crc f = Ok ();
  fh_get k : get_option f k = Ok (m !! k);
  fh_stream start stop : scan_stream f start stop = (Ok <$> bt_range start stop m);
}.
Arguments fh_crc {_ _ _} _.
Arguments fh_get {_ _ _} _ _.
Arguments fh_stream {_ _ _} _ _ _.

Lemma fh_scan `{Dg : Digests} f m start stop :
  file_holds f m → scan_with_tombstones f start stop None = Ok (bt_range start stop m).
Proof.
  intros Hf. unfold scan_with_tombstones. rewrite scan_blocks_items.
  rewrite <-scan_stream_items, (fh_stream Hf), collect_ok. done.
Qed.

Lemma build_sst_holds `{Dg : Digests} `{JsonLaws SstFooter} (m : MemMap) (block_size : N) :
  Forall op_ok (bt_iter m) →
  (∀ data, build_sst m block_size = Ok data → (blen data ≤ U32_MAX)%N) →
  ∃ data f, build_sst m block_size = Ok data ∧ parse data = Ok f ∧ file_holds f m.
Proof.
  intros Hok Hsize. destruct (build_sst_spec m block_size Hok) as (cs & Hcs & Hb).
  specialize (Hsize _ Hb). rewrite <-Hcs in Hok.
  set (data := write_file (frames <$> cs) (footer_of m cs)) in *.
  exists data, (MkSstFile data (footer_of m cs) (blen (mjoin (frames <$> cs)))).
  destruct (write_file_slices (frames <$> cs) (footer_of m cs)) as [Hd _]. fold data in Hd.
  destruct (bloom_all_spec (bt_iter m).*1 (bloom_new (N.of_nat (size m))))
    as [[_ Hk3] _]; [apply bloom_new_wf|].
  split; [done|]. split.
  { apply parse_write_file; [lia|]. unfold footer_of. cbv zeta. cbn [ft_bloom_k]. lia. }
  set (f := MkSstFile _ _ _).
  assert (Forall2 (holds f) (ft_index (sf_footer f)) cs) as Hf.
  { apply (holds_all f [] cs (drop (length (mjoin (frames <$> cs))) data)).
    - apply Forall_forall. intros c Hc. rewrite Forall_forall in *. intros r Hr.
      apply Hok. apply list_elem_of_join. by exists c.
    - rewrite Hcs. apply bt_iter_sorted.
    - subst f data. cbn [sf_data app]. unfold write_file.
      by rewrite frames_join, drop_app_length.
    - subst f. cbn [sf_footer_offset]. rewrite frames_join. unfold blen at 1. simpl. lia. }
  split.
  { unfold verify_file_crc. rewrite (all_blocks_spec _ _ _ Hf). cbn [res_bind].
    subst f. cbn [sf_footer]. unfold footer_of. cbv zeta. cbn [ft_file_crc].
    by rewrite bool_decide_eq_false_2 by auto. }
  - intros k. unfold get_option. destruct (may_contain f k) eqn:Hmay.
    + rewrite (find_in_blocks_spec _ _ _ _ Hf), Hcs. by rewrite assoc_bt_iter.
    + destruct (m !! k) as [v|] eqn:Hk; [|done].
      unfold f in Hmay. rewrite may_contain_spec in Hmay by (done || by rewrite Hk). done.
  - intros start stop. rewrite scan_stream_items, (blocks_items_spec _ _ _ _ _ Hf). by rewrite Hcs.
Qed.

(** C5: A built file is the table: it parses, its checksums verify, a point lookup
    returns the table's entry for every key (the filter never hides one, and a
    tombstone is told from a missing key), and a scan of any range, eager or
    lazy, returns the entries of the range in key order. *)
Theorem sst_roundtrip `{Dg : Digests} `{JsonLaws SstFooter} (m : MemMap) (block_size : N) :
  Forall op_ok (bt_iter m) →
  (∀ data, build_sst m block_size = Ok data → (blen data ≤ U32_MAX)%N) →
  ∃ data f, build_sst m block_size = Ok data ∧ parse data = Ok f ∧
    verify_file_crc f = Ok () ∧
    (∀ k, get_option f k = Ok (m !! k)) ∧
    (∀ start stop, scan_with_tombstones f start stop None = Ok (bt_range start stop m)) ∧
    (∀ start stop, scan_stream f start stop = (Ok <$> bt_range start stop m)).
Proof.
  intros Hok Hsize. destruct (build_sst_holds m block_size Hok Hsize) as (data & f & Hb & Hp & Hf).
  exists data, f. split_and!; [done|done|apply Hf|apply Hf| |apply Hf].
  intros start stop. by apply fh_scan.
Qed.

Section witnesses.
#[local] Existing Instance length_digests.
#[local] Instance footer_json : Json SstFooter := countable_json.
#[local] Instance footer_json_laws : JsonLaws SstFooter := countable_json_laws.

Definition sample_table : MemMap := {["a" := Some (as_bytes "1"); "b" := None]}.

Lemma sst_roundtrip_witness :
  ∃ data f, build_sst sample_table 64 = Ok data ∧ parse data = Ok f ∧
    get_option f "a" = Ok (Some (Some (as_bytes "1"))) ∧
    get_option f "b" = Ok (Some None) ∧ get_option f "c" = Ok None.
Proof.
  destruct (sst_roundtrip sample_table 64) as (data & f & Hb & Hp & _ & Hget & _).
  - apply (bool_decide_unpack _). vm_compute. exact I.
  - intros data Hb.
    assert (match build_sst sample_table 64 with
            | Ok d => (blen d <=? U32_MAX)%N | Err _ => true end = true) as Hle
      by (vm_compute; reflexivity).
    rewrite Hb in Hle. by apply N.leb_le.
  - exists data, f. split; [exact Hb|]. split; [exact Hp|].
    split; [|split]; rewrite Hget; reflexivity.
Defined.
End witnesses.
