(* ===== verification/Cache.v ===== *)
(** The cache abstraction and its built-in S3-FIFO implementation:
    [src/src/store/cache.rs].

    The class [Cache] is the trait; [CacheLaws] states what its clients rely
    on, which is only that a cache never answers with anything but the last
    value inserted. *)

From stdpp Require Import options.
From S2P Require Import Prelude Codec.

Definition sat_add (a b : N) : N := N.min (a + b) USIZE_MAX.
(** [saturating_sub] is [N.sub]. *)

Record CacheStats := MkStats {
  st_hits : N;
  st_misses : N;
  st_inserts : N;
  st_evictions : N;
}.

Class Cache (C K V : Type) := {
  cache_get : K → C → option V * C;
  cache_insert : K → V → C → C;
  cache_remove : K → C → C;
  cache_contains : K → C → bool;
  cache_stats : C → option CacheStats;
}.

(** An insertion may evict anything, itself included. *)
Class CacheLaws (C K V : Type) `{Countable K, Cache C K V} := {
  cache_view : C → gmap K V;
  cache_get_law k c :
    (cache_get k c).1 = cache_view c !! k ∧ cache_view (cache_get k c).2 = cache_view c;
  cache_insert_law k v c : cache_view (cache_insert k v c) ⊆ <[k := v]> (cache_view c);
  cache_remove_law k c : cache_view (cache_remove k c) = base.delete k (cache_view c);
  cache_contains_law k c : cache_contains k c = bool_decide (is_Some (cache_view c !! k));
}.

Definition MAX_FREQ : N := 3.
Definition GHOST_MAX_ENTRIES : nat := 1024.

Inductive Queue := Small | Medium | Large.

#[export] Instance Queue_eq_dec : EqDecision Queue.
Proof. solve_decision. Defined.

Record Entry (V : Type) := MkCacheEntry {
  e_value : V;
  e_weight : N;
  e_freq : N;
  e_queue : Queue;
  e_seq : N;
}.
Arguments MkCacheEntry {V} _ _ _ _ _.
Arguments e_value {V} _.
Arguments e_weight {V} _.
Arguments e_freq {V} _.
Arguments e_queue {V} _.
Arguments e_seq {V} _.

Section s3.
Context {K V : Type} `{Countable K}.

Record S3Inner := MkS3 {
  s3_map : gmap K (Entry V);
  s3_small : list (N * K);
  s3_medium : list (N * K);
  s3_large : list (N * K);
  s3_ghost : list (K * N);
  s3_ghost_map : gmap K N;
  s3_ghost_weight : N;
  s3_weight : N;
  s3_next_seq : N;
}.

Definition s3_new : S3Inner := MkS3 ∅ [] [] [] [] ∅ 0 0 0.

Definition with_map (m : gmap K (Entry V)) (w : N) (s : S3Inner) : S3Inner :=
  MkS3 m (s3_small s) (s3_medium s) (s3_large s) (s3_ghost s) (s3_ghost_map s)
    (s3_ghost_weight s) w (s3_next_seq s).

Definition with_ghost (g : list (K * N)) (gm : gmap K N) (gw : N) (s : S3Inner) : S3Inner :=
  MkS3 (s3_map s) (s3_small s) (s3_medium s) (s3_large s) g gm gw (s3_weight s)
    (s3_next_seq s).

Definition slots (q : Queue) (s : S3Inner) : list (N * K) :=
  match q with Small => s3_small s | Medium => s3_medium s | Large => s3_large s end.

Definition set_slots (q : Queue) (l : list (N * K)) (s : S3Inner) : S3Inner :=
  MkS3 (s3_map s)
    (match q with Small => l | _ => s3_small s end)
    (match q with Medium => l | _ => s3_medium s end)
    (match q with Large => l | _ => s3_large s end)
    (s3_ghost s) (s3_ghost_map s) (s3_ghost_weight s) (s3_weight s) (s3_next_seq s).

(** [bump]; the number wraps at [u64::MAX]. *)
Definition bump (s : S3Inner) : N * S3Inner :=
  (s3_next_seq s,
   MkS3 (s3_map s) (s3_small s) (s3_medium s) (s3_large s) (s3_ghost s) (s3_ghost_map s)
     (s3_ghost_weight s) (s3_weight s) ((s3_next_seq s + 1) mod (USIZE_MAX + 1))%N).

(** Whether a slot of [q] stands for the entry of its key. *)
Definition live_slot (m : gmap K (Entry V)) (q : Queue) (slot : N * K) : bool :=
  match m !! slot.2 with
  | Some e => bool_decide (e_seq e = slot.1 ∧ e_queue e = q)
  | None => false
  end.

Fixpoint pop_live (m : gmap K (Entry V)) (q : Queue) (l : list (N * K)) :
    option K * list (N * K) :=
  match l with
  | [] => (None, [])
  | slot :: l => if live_slot m q slot then (Some slot.2, l) else pop_live m q l
  end.

Definition pop_live_key (q : Queue) (s : S3Inner) : option K * S3Inner :=
  let '(k, l) := pop_live (s3_map s) q (slots q s) in (k, set_slots q l s).

Definition push_slot (q : Queue) (seq : N) (k : K) (s : S3Inner) : S3Inner :=
  set_slots q (slots q s ++ [(seq, k)]) s.

(** The trimming loop of [remember_ghost]: one round takes one ghost. *)
Fixpoint trim_ghost (cap : N) (g : list (K * N)) (gm : gmap K N) (gw : N) :
    list (K * N) * gmap K N * N :=
  match g with
  | [] => ([], gm, gw)
  | (k, w) :: g' =>
      if (cap <? gw)%N || bool_decide (GHOST_MAX_ENTRIES < length g) then
        match gm !! k with
        | Some _ => trim_ghost cap g' (base.delete k gm) (gw - w)%N
        | None => trim_ghost cap g' gm gw
        end
      else (g, gm, gw)
  end.

Definition remember_ghost (k : K) (weight ghost_cap : N) (s : S3Inner) : S3Inner :=
  match s3_ghost_map s !! k with
  | Some _ => s
  | None =>
      let '(g, gm, gw) := trim_ghost ghost_cap (s3_ghost s ++ [(k, weight)])
        (<[k := weight]> (s3_ghost_map s)) (sat_add (s3_ghost_weight s) weight) in
      with_ghost g gm gw s
  end.

(** [self.map.remove(&key)] with the weight it gives back. *)
Definition drop_entry (k : K) (e : Entry V) (s : S3Inner) : S3Inner :=
  with_map (base.delete k (s3_map s)) (s3_weight s - e_weight e)%N s.

(** A hot entry takes a new slot of the large queue. *)
Definition demote (k : K) (e : Entry V) (s : S3Inner) : S3Inner :=
  let '(seq, s) := bump s in
  push_slot Large seq k
    (with_map (<[k := MkCacheEntry (e_value e) (e_weight e) (e_freq e - 1)%N Large seq]>
                 (s3_map s)) (s3_weight s) s).

(** A popped key is in the map, so [self.map.get(&key)] finds it. *)
Definition evict_from_small (ghost_cap : N) (s : S3Inner) : bool * S3Inner :=
  match pop_live_key Small s with
  | (None, s) => (false, s)
  | (Some k, s) =>
      match s3_map s !! k with
      | Some e =>
          if (e_freq e =? 0)%N
          then (true, remember_ghost k (e_weight e) ghost_cap (drop_entry k e s))
          else (true, demote k e s)
      | None => (true, s)
      end
  end.

Definition evict_from_medium (s : S3Inner) : bool * S3Inner :=
  match pop_live_key Medium s with
  | (None, s) => (false, s)
  | (Some k, s) =>
      match s3_map s !! k with
      | Some e => if (e_freq e =? 0)%N then (true, drop_entry k e s) else (true, demote k e s)
      | None => (true, s)
      end
  end.

(** A sum over the entries. *)
Definition esum (f : Entry V → N) (m : gmap K (Entry V)) : N :=
  map_fold (λ _ e n, (f e + n)%N) 0%N m.

(** Every round but the last decreases a frequency. *)
Fixpoint evict_large_loop (fuel : nat) (progress : bool) (s : S3Inner) : bool * S3Inner :=
  match fuel with
  | O => (progress, s)
  | S fuel =>
      match pop_live_key Large s with
      | (None, s) => (progress, s)
      | (Some k, s) =>
          match s3_map s !! k with
          | Some e =>
              if (0 <? e_freq e)%N then evict_large_loop fuel true (demote k e s)
              else (true, drop_entry k e s)
          | None => (true, s)
          end
      end
  end.

Definition evict_from_large (s : S3Inner) : bool * S3Inner :=
  evict_large_loop (S (N.to_nat (esum e_freq (s3_map s)))) false s.

(** The iterations of [evict_while_over]. *)
Fixpoint evict_loop (bound : nat) (capacity ghost_cap : N) (s : S3Inner) : S3Inner :=
  match bound with
  | O => s
  | S bound =>
      if (s3_weight s <=? capacity)%N then s
      else
        match evict_from_small ghost_cap s with
        | (true, s) => evict_loop bound capacity ghost_cap s
        | (false, s) =>
            match evict_from_medium s with
            | (true, s) => evict_loop bound capacity ghost_cap s
            | (false, s) =>
                match evict_from_large s with
                | (true, s) => evict_loop bound capacity ghost_cap s
                | (false, s) => s
                end
            end
        end
  end.

Definition evict_while_over (capacity ghost_cap : N) (s : S3Inner) : S3Inner :=
  evict_loop (size (s3_map s) * 4 + 32) capacity ghost_cap s.

(** [LruCache]; a clone shares its state, so one value stands for all. *)
Record LruCache := MkLru {
  lru_inner : S3Inner;
  lru_capacity : N;
  lru_ghost_cap : N;
  lru_weigher : K → V → N;
  lru_counters : CacheStats;
}.

Definition lru_new (max_capacity : N) (weigher : K → V → N) : LruCache :=
  MkLru s3_new max_capacity max_capacity weigher (MkStats 0 0 0 0).

Definition with_inner (s : S3Inner) (n : CacheStats) (c : LruCache) : LruCache :=
  MkLru s (lru_capacity c) (lru_ghost_cap c) (lru_weigher c) n.

(** [fetch_add] wraps. *)
Definition wadd (a b : N) : N := ((a + b) mod (USIZE_MAX + 1))%N.

Definition record_hit (n : CacheStats) : CacheStats :=
  MkStats (wadd (st_hits n) 1) (st_misses n) (st_inserts n) (st_evictions n).
Definition record_miss (n : CacheStats) : CacheStats :=
  MkStats (st_hits n) (wadd (st_misses n) 1) (st_inserts n) (st_evictions n).
Definition record_insert (evicted : N) (n : CacheStats) : CacheStats :=
  MkStats (st_hits n) (st_misses n) (wadd (st_inserts n) 1) (wadd (st_evictions n) evicted).

Definition freq_up (f : N) : N := N.min (f + 1) MAX_FREQ.

Definition lru_get (k : K) (c : LruCache) : option V * LruCache :=
  let s := lru_inner c in
  match s3_map s !! k with
  | Some e =>
      let e' := MkCacheEntry (e_value e) (e_weight e) (freq_up (e_freq e)) (e_queue e)
                  (e_seq e) in
      (Some (e_value e),
       with_inner (with_map (<[k := e']> (s3_map s)) (s3_weight s) s)
         (record_hit (lru_counters c)) c)
  | None => (None, with_inner s (record_miss (lru_counters c)) c)
  end.

(** The bookkeeping of an insertion, before the eviction. *)
Definition admission (capacity : N) (k : K) (v : V) (weight : N) (s : S3Inner) : S3Inner :=
  match s3_map s !! k with
  | Some e =>
      with_map (<[k := MkCacheEntry v weight (freq_up (e_freq e)) (e_queue e) (e_seq e)]>
                  (s3_map s))
        (sat_add (s3_weight s - e_weight e) weight) s
  | None =>
      if (weight <=? capacity)%N then
        let '(promoted, s) :=
          match s3_ghost_map s !! k with
          | Some w =>
              (true, with_ghost (s3_ghost s) (base.delete k (s3_ghost_map s))
                       (s3_ghost_weight s - w)%N s)
          | None => (false, s)
          end in
        let queue := if promoted then Medium else Small in
        let freq := if promoted then 1%N else 0%N in
        let '(seq, s) := bump s in
        let s := push_slot queue seq k
                   (with_map (<[k := MkCacheEntry v weight freq queue seq]> (s3_map s))
                      (s3_weight s) s) in
        with_map (s3_map s) (sat_add (s3_weight s) weight) s
      else s
  end.

Definition lru_insert (k : K) (v : V) (c : LruCache) : LruCache :=
  let s := admission (lru_capacity c) k v (lru_weigher c k v) (lru_inner c) in
  let s' := evict_while_over (lru_capacity c) (lru_ghost_cap c) s in
  let evicted := N.of_nat (size (s3_map s) - size (s3_map s')) in
  with_inner s' (record_insert evicted (lru_counters c)) c.

Definition lru_remove (k : K) (c : LruCache) : LruCache :=
  let s := lru_inner c in
  let s := match s3_map s !! k with Some e => drop_entry k e s | None => s end in
  let s := match s3_ghost_map s !! k with
           | Some w => with_ghost (s3_ghost s) (base.delete k (s3_ghost_map s))
                         (s3_ghost_weight s - w)%N s
           | None => s
           end in
  with_inner s (lru_counters c) c.

Definition lru_contains (k : K) (c : LruCache) : bool :=
  bool_decide (is_Some (s3_map (lru_inner c) !! k)).

#[export] Instance lru_cache : Cache LruCache K V := {|
  cache_get := lru_get;
  cache_insert := lru_insert;
  cache_remove := lru_remove;
  cache_contains := lru_contains;
  cache_stats c := Some (lru_counters c);
|}.
End s3.

Arguments S3Inner K V {_ _}.
Arguments LruCache K V {_ _}.

(** ** Correctness *)

Section s3_spec.
Context {K V : Type} `{Countable K}.
Implicit Types (s : S3Inner K V) (m : gmap K (Entry V)) (e : Entry V) (q : Queue).

Lemma esum_delete f m k e :
  m !! k = Some e → esum f m = (f e + esum f (base.delete k m))%N.
Proof.
  intros Hk. unfold esum.
  by rewrite (map_fold_delete_L _ _ k e m) by (done || (intros; lia)).
Qed.

Lemma esum_insert_new f m k e :
  m !! k = None → esum f (<[k := e]> m) = (f e + esum f m)%N.
Proof. intros Hk. unfold esum. rewrite map_fold_insert_L; [done|intros; lia|done]. Qed.

Lemma esum_insert f m k e e' :
  m !! k = Some e → (esum f (<[k := e']> m) + f e = esum f m + f e')%N.
Proof.
  intros Hk. rewrite (esum_delete f m k e Hk).
  rewrite <-(insert_delete_eq m), esum_insert_new by apply lookup_delete_eq. lia.
Qed.

Lemma esum_le f c m : (∀ e, (f e ≤ c)%N) → (esum f m ≤ c * N.of_nat (size m))%N.
Proof.
  intros Hf. induction m as [|k e m Hk IH] using map_ind.
  { unfold esum. rewrite map_fold_empty. lia. }
  rewrite esum_insert_new, map_size_insert_None by done. specialize (Hf e). lia.
Qed.

(** What the cache can answer. *)
Definition view s : gmap K V := e_value <$> s3_map s.

(** Every entry but that of the hole has its slot in its queue. *)
Definition filed (hole : option K) s : Prop :=
  ∀ k e, s3_map s !! k = Some e → hole = Some k ∨ (e_seq e, k) ∈ slots (e_queue e) s.

Definition s3_inv s : Prop := filed None s ∧ s3_weight s = esum e_weight (s3_map s).

Lemma slots_set_slots q q' l s :
  slots q (set_slots q' l s) = if decide (q = q') then l else slots q s.
Proof. by destruct q, q'. Qed.

Lemma set_slots_map q l s : s3_map (set_slots q l s) = s3_map s.
Proof. done. Qed.

Lemma live_slot_true m q slot :
  live_slot m q slot = true →
  ∃ e, m !! slot.2 = Some e ∧ e_seq e = slot.1 ∧ e_queue e = q.
Proof.
  unfold live_slot. destruct (m !! slot.2) as [e|]; [|done].
  intros [??]%bool_decide_eq_true. eauto.
Qed.

Lemma pop_live_None m q l l' :
  pop_live m q l = (None, l') → l' = [] ∧ ∀ slot, slot ∈ l → live_slot m q slot = false.
Proof.
  induction l as [|slot l IH]; simpl.
  { intros [= <-]. split; [done|]. by intros ? ?%elem_of_nil. }
  destruct (live_slot m q slot) eqn:Hl; [done|]. intros [-> Hall]%IH.
  split; [done|]. intros ? [->|?]%elem_of_cons; auto.
Qed.

Lemma pop_live_Some m q l k l' :
  pop_live m q l = (Some k, l') →
  (∃ e, m !! k = Some e ∧ e_queue e = q) ∧
  ∀ k' e', k' ≠ k → m !! k' = Some e' → e_queue e' = q →
    (e_seq e', k') ∈ l → (e_seq e', k') ∈ l'.
Proof.
  induction l as [|slot l IH]; simpl; [done|].
  destruct (live_slot m q slot) eqn:Hl.
  - intros [= <- <-]. apply live_slot_true in Hl as (e & He & _ & Hq). split; [eauto|].
    intros k' e' Hne _ _ [Heq|?]%elem_of_cons; [|done]. by destruct slot; simplify_eq/=.
  - intros Hp. destruct (IH Hp) as [He Hall]. split; [done|].
    intros k' e' Hne Hk' Hq [Heq|?]%elem_of_cons; [|by apply Hall].
    exfalso. subst slot. unfold live_slot in Hl. simpl in Hl. rewrite Hk' in Hl.
    apply bool_decide_eq_false in Hl. naive_solver.
Qed.

(** Popping a queue: it is empty, or the key of an entry of it comes out. *)
Lemma pop_live_key_spec q s :
  filed None s →
  match pop_live_key q s with
  | (None, s') => filed None s' ∧ s3_map s' = s3_map s ∧ s3_weight s' = s3_weight s ∧
      ∀ k e, s3_map s !! k = Some e → e_queue e ≠ q
  | (Some k, s') => filed (Some k) s' ∧ s3_map s' = s3_map s ∧
      s3_weight s' = s3_weight s ∧ ∃ e, s3_map s !! k = Some e ∧ e_queue e = q
  end.
Proof.
  intros Hf. unfold pop_live_key. destruct (pop_live _ _ _) as [[k|] l] eqn:Hp.
  - apply pop_live_Some in Hp as [He Hall]. split; [|done].
    intros k' e' Hk'. rewrite set_slots_map in Hk'. rewrite slots_set_slots.
    destruct (decide (k' = k)) as [->|Hne]; [by left|right].
    destruct (Hf _ _ Hk') as [|Hin]; [done|]. case_decide as Hq; [|done].
    apply Hall; try done. by rewrite Hq in Hin.
  - apply pop_live_None in Hp as [-> Hno].
    assert (∀ k e, s3_map s !! k = Some e → e_queue e ≠ q) as Hnone.
    { intros k e Hk Hq. destruct (Hf _ _ Hk) as [|Hin]; [done|]. rewrite Hq in Hin.
      apply Hno in Hin. unfold live_slot in Hin. simpl in Hin. rewrite Hk in Hin.
      apply bool_decide_eq_false in Hin. naive_solver. }
    split_and!; try done. intros k e Hk. rewrite set_slots_map in Hk.
    rewrite slots_set_slots. rewrite decide_False by (by eapply Hnone). by apply Hf.
Qed.

Lemma drop_entry_spec k e s :
  filed (Some k) s → s3_map s !! k = Some e → s3_weight s = esum e_weight (s3_map s) →
  s3_inv (drop_entry k e s).
Proof.
  intros Hf Hk Hw. split.
  - intros k' e' Hk'. unfold drop_entry, with_map in Hk'. simpl in Hk'.
    apply lookup_delete_Some in Hk' as [Hne Hk'].
    destruct (Hf _ _ Hk') as [[= ->]|Hin]; [done|right]. by destruct (e_queue e').
  - unfold drop_entry, with_map. simpl. rewrite Hw, (esum_delete _ _ _ _ Hk). lia.
Qed.

Lemma demote_map k e s :
  s3_map (demote k e s) =
    <[k := MkCacheEntry (e_value e) (e_weight e) (e_freq e - 1)%N Large (s3_next_seq s)]>
      (s3_map s).
Proof. done. Qed.

Lemma demote_spec k e s :
  filed (Some k) s → s3_map s !! k = Some e → s3_weight s = esum e_weight (s3_map s) →
  s3_inv (demote k e s).
Proof.
  intros Hf Hk Hw. split.
  - intros k' e'. rewrite demote_map. intros [[<- <-]|[Hne Hk']]%lookup_insert_Some; right.
    + simpl. apply elem_of_app. right. by left.
    + destruct (Hf _ _ Hk') as [[= ->]|Hin]; [done|].
      destruct (e_queue e'); [done..|]. simpl. apply elem_of_app. by left.
  - change (s3_weight (demote k e s)) with (s3_weight s). rewrite demote_map, Hw.
    pose proof (esum_insert e_weight _ k e
      (MkCacheEntry (e_value e) (e_weight e) (e_freq e - 1)%N Large (s3_next_seq s)) Hk) as He.
    simpl in He. lia.
Qed.

Lemma remember_ghost_same k w cap s :
  s3_map (remember_ghost k w cap s) = s3_map s ∧
  s3_weight (remember_ghost k w cap s) = s3_weight s ∧
  ∀ q, slots q (remember_ghost k w cap s) = slots q s.
Proof.
  unfold remember_ghost. destruct (s3_ghost_map s !! k); [done|].
  destruct (trim_ghost _ _ _ _) as [[g gm] gw]. split_and!; [done..|]. by intros [].
Qed.

Lemma remember_ghost_inv k w cap s : s3_inv s → s3_inv (remember_ghost k w cap s).
Proof.
  intros [Hf Hw]. destruct (remember_ghost_same k w cap s) as (Hm & Hw' & Hs).
  split; [|by rewrite Hm, Hw']. intros k' e'. rewrite Hm, Hs. apply Hf.
Qed.
(** *** Eviction *)

(** What is left to do: a cold entry goes, a hot one first turns large. *)
Definition rank m : N := esum (λ e, if decide (e_queue e = Large) then 1%N else 2%N) m.

(** The outcome of one eviction step on the queue [q]. *)
Definition stepped q s (r : bool * S3Inner K V) : Prop :=
  s3_inv r.2 ∧
  if r.1 then (rank (s3_map r.2) < rank (s3_map s))%N
  else s3_map r.2 = s3_map s ∧ ∀ k e, s3_map s !! k = Some e → e_queue e ≠ q.

Lemma rank_drop k e s :
  s3_map s !! k = Some e → (rank (s3_map (drop_entry k e s)) < rank (s3_map s))%N.
Proof.
  intros Hk. unfold rank. rewrite (esum_delete _ (s3_map s) _ _ Hk).
  unfold drop_entry, with_map. simpl. case_decide; lia.
Qed.

Lemma rank_demote k e s :
  s3_map s !! k = Some e →
  (rank (s3_map (demote k e s)) + (if decide (e_queue e = Large) then 1 else 2) =
    rank (s3_map s) + 1)%N.
Proof.
  intros Hk. unfold rank. rewrite demote_map.
  exact (esum_insert (λ e, if decide (e_queue e = Large) then 1%N else 2%N) _ _ _ _ Hk).
Qed.

Lemma evict_from_small_spec cap s : s3_inv s → stepped Small s (evict_from_small cap s).
Proof.
  intros [Hf Hw]. unfold evict_from_small.
  pose proof (pop_live_key_spec Small s Hf) as Hp.
  destruct (pop_live_key Small s) as [[k|] s'].
  - destruct Hp as (Hf' & Hm & Hw' & e & Hk & Hq). rewrite <-Hm, <-Hw' in *.
    rewrite Hk. destruct (e_freq e =? 0)%N; split; cbn [fst snd].
    + by apply remember_ghost_inv, drop_entry_spec.
    + destruct (remember_ghost_same k (e_weight e) cap (drop_entry k e s')) as (-> & _).
      rewrite <-Hm. by apply rank_drop.
    + by apply demote_spec.
    + pose proof (rank_demote k e s' Hk) as Hr.
      rewrite Hq, decide_False in Hr by done.
      rewrite <-Hm. lia.
  - destruct Hp as (Hf' & Hm & Hw' & Hno). split; [|done]. split; [done|]. simpl. congruence.
Qed.

Lemma evict_from_medium_spec s : s3_inv s → stepped Medium s (evict_from_medium s).
Proof.
  intros [Hf Hw]. unfold evict_from_medium.
  pose proof (pop_live_key_spec Medium s Hf) as Hp.
  destruct (pop_live_key Medium s) as [[k|] s'].
  - destruct Hp as (Hf' & Hm & Hw' & e & Hk & Hq). rewrite <-Hm, <-Hw' in *.
    rewrite Hk. destruct (e_freq e =? 0)%N; split; cbn [fst snd].
    + by apply drop_entry_spec.
    + rewrite <-Hm. by apply rank_drop.
    + by apply demote_spec.
    + pose proof (rank_demote k e s' Hk) as Hr.
      rewrite Hq, decide_False in Hr by done.
      rewrite <-Hm. lia.
  - destruct Hp as (Hf' & Hm & Hw' & Hno). split; [|done]. split; [done|]. simpl. congruence.
Qed.

(** The second-chance loop ends by dropping an entry, if there is one. *)
Lemma evict_large_loop_spec fuel p s :
  s3_inv s → N.to_nat (esum e_freq (s3_map s)) < fuel →
  let r := evict_large_loop fuel p s in
  s3_inv r.2 ∧
  ((r.1 = true ∧ (rank (s3_map r.2) < rank (s3_map s))%N) ∨
   (r.1 = p ∧ s3_map r.2 = s3_map s ∧ ∀ k e, s3_map s !! k = Some e → e_queue e ≠ Large)).
Proof.
  revert p s. induction fuel as [|fuel IH]; intros p s [Hf Hw] Hfuel; [lia|].
  cbn [evict_large_loop]. pose proof (pop_live_key_spec Large s Hf) as Hp.
  destruct (pop_live_key Large s) as [[k|] s'].
  - destruct Hp as (Hf' & Hm & Hw' & e & Hk & Hq). rewrite <-Hm, <-Hw' in *.
    rewrite Hk. destruct (N.ltb_spec 0 (e_freq e)) as [Hhot|Hcold].
    + destruct (IH true (demote k e s')) as [Hi Hr].
      { by apply demote_spec. }
      { rewrite demote_map.
        pose proof (esum_insert e_freq (s3_map s') k e
          (MkCacheEntry (e_value e) (e_weight e) (e_freq e - 1)%N Large (s3_next_seq s')) Hk)
          as Hs. simpl in Hs. lia. }
      split; [done|]. destruct Hr as [[-> Hr]|(_ & _ & Hno)].
      * left. split; [done|]. pose proof (rank_demote k e s' Hk) as Hd.
        rewrite Hq, decide_True in Hd by done. lia.
      * destruct (Hno k _ (lookup_insert_eq (s3_map s') k _) eq_refl).
    + split; [by apply drop_entry_spec|]. left. split; [done|]. by apply rank_drop.
  - destruct Hp as (Hf' & Hm & Hw' & Hno). split; [|by right].
    split; [done|]. simpl. congruence.
Qed.

Lemma evict_from_large_spec s : s3_inv s → stepped Large s (evict_from_large s).
Proof.
  intros Hi. unfold evict_from_large.
  destruct (evict_large_loop_spec (S (N.to_nat (esum e_freq (s3_map s)))) false s Hi)
    as [Hi' Hr]; [lia|].
  split; [done|]. by destruct Hr as [[-> ?]|(-> & ? & ?)].
Qed.

(** The bound of the eviction is enough: the weight fits in the end. *)
Lemma evict_loop_spec bound capacity cap s :
  s3_inv s → (rank (s3_map s) ≤ N.of_nat bound)%N →
  s3_inv (evict_loop bound capacity cap s) ∧
  (s3_weight (evict_loop bound capacity cap s) ≤ capacity)%N.
Proof.
  revert s. induction bound as [|bound IH]; intros s Hi Hr; cbn [evict_loop].
  - split; [done|]. rewrite (proj2 Hi).
    destruct (decide (s3_map s = ∅)) as [->|(k & e & Hk)%map_choose];
      [unfold esum; rewrite map_fold_empty; lia|].
    unfold rank in Hr. rewrite (esum_delete _ _ _ _ Hk) in Hr. cbv beta in Hr.
    case_decide; lia.
  - destruct (N.leb_spec (s3_weight s) capacity); [done|].
    destruct (evict_from_small_spec cap s Hi) as [Hi1 H1].
    destruct (evict_from_small cap s) as [[] s1]; cbn [fst snd] in *; [apply IH; [done|lia]|].
    destruct H1 as [Hm1 Hno1].
    destruct (evict_from_medium_spec s1 Hi1) as [Hi2 H2].
    destruct (evict_from_medium s1) as [[] s2]; cbn [fst snd] in *;
      [apply IH; [done|rewrite Hm1 in H2; lia]|].
    destruct H2 as [Hm2 Hno2].
    destruct (evict_from_large_spec s2 Hi2) as [Hi3 H3].
    destruct (evict_from_large s2) as [[] s3]; cbn [fst snd] in *;
      [apply IH; [done|rewrite Hm2, Hm1 in H3; lia]|].
    destruct H3 as [Hm3 Hno3]. split; [done|].
    rewrite (proj2 Hi3), Hm3, Hm2, Hm1.
    destruct (decide (s3_map s = ∅)) as [->|(k & e & Hk)%map_choose];
      [unfold esum; rewrite map_fold_empty; lia|]. exfalso.
    specialize (Hno1 k e). specialize (Hno2 k e). specialize (Hno3 k e).
    rewrite Hm2, Hm1 in Hno3. rewrite Hm1 in Hno2. destruct (e_queue e); naive_solver.
Qed.

Lemma rank_bound m : (rank m ≤ N.of_nat (size m * 4 + 32))%N.
Proof.
  pose proof (esum_le (λ e, if decide (e_queue e = Large) then 1%N else 2%N) 2%N m) as Hle.
  unfold rank. etrans; [apply Hle|lia]. intros e. case_decide; lia.
Qed.

(** *** Admission *)

Lemma admission_map capacity k v weight s :
  s3_map (admission capacity k v weight s) =
    match s3_map s !! k with
    | Some e =>
        <[k := MkCacheEntry v weight (freq_up (e_freq e)) (e_queue e) (e_seq e)]> (s3_map s)
    | None =>
        if (weight <=? capacity)%N then
          <[k := MkCacheEntry v weight
                   (match s3_ghost_map s !! k with Some _ => 1%N | None => 0%N end)
                   (match s3_ghost_map s !! k with Some _ => Medium | None => Small end)
                   (s3_next_seq s)]>
            (s3_map s)
        else s3_map s
    end.
Proof.
  unfold admission. destruct (s3_map s !! k); [done|]. destruct (_ <=? _)%N; [|done].
  by destruct (s3_ghost_map s !! k).
Qed.

Lemma admission_filed capacity k v weight s : filed None s → filed None (admission capacity k v weight s).
Proof.
  intros Hf k' e'. rewrite admission_map. unfold admission.
  destruct (s3_map s !! k) as [e|] eqn:Hk.
  - intros [[<- <-]|[Hne Hk']]%lookup_insert_Some; right; cbn.
    + destruct (Hf _ _ Hk) as [|Hin]; [done|]. by destruct (e_queue e).
    + destruct (Hf _ _ Hk') as [|Hin]; [done|]. by destruct (e_queue e').
  - destruct (_ <=? _)%N; [|by apply Hf].
    assert (∀ e q l, (e_seq e, k') ∈ slots (e_queue e) s →
      (e_seq e, k') ∈ slots (e_queue e) (set_slots q (slots q s ++ l) s)) as Hkeep.
    { intros e q l Hin. rewrite slots_set_slots. case_decide as Hq; [|done].
      apply elem_of_app. left. by rewrite <-Hq. }
    intros [[<- <-]|[Hne Hk']]%lookup_insert_Some; right;
      [|destruct (Hf _ _ Hk') as [|Hin]; [done|]];
      destruct (s3_ghost_map s !! k); cbn.
    1,2: apply elem_of_app; right; by left.
    + apply (Hkeep e' Medium [(s3_next_seq s, k)]) in Hin. by destruct (e_queue e').
    + apply (Hkeep e' Small [(s3_next_seq s, k)]) in Hin. by destruct (e_queue e').
Qed.

(** An insertion keeps the books while no sum leaves [usize]. *)
Lemma admission_inv capacity k v weight s :
  s3_inv s → (s3_weight s ≤ capacity)%N → (weight ≤ U32_MAX)%N →
  (capacity + U32_MAX ≤ USIZE_MAX)%N → s3_inv (admission capacity k v weight s).
Proof.
  intros [Hf Hw] Hle Hwt Hcap. split; [by apply admission_filed|]. rewrite admission_map.
  unfold admission. destruct (s3_map s !! k) as [e|] eqn:Hk.
  - cbn. pose proof (esum_insert e_weight _ k e
      (MkCacheEntry v weight (freq_up (e_freq e)) (e_queue e) (e_seq e)) Hk) as Hs.
    cbn in Hs. pose proof (esum_delete e_weight _ _ _ Hk). unfold sat_add. lia.
  - destruct (_ <=? _)%N; [|done]. rewrite esum_insert_new by done. cbn [e_weight].
    rewrite <-Hw. unfold sat_add, bump.
    destruct (s3_ghost_map s !! k); cbn; lia.
Qed.

(** *** Values *)

Lemma view_drop k e s : view (drop_entry k e s) ⊆ view s.
Proof.
  unfold view, drop_entry, with_map. simpl. rewrite fmap_delete. apply delete_subseteq.
Qed.

Lemma view_demote k e s : s3_map s !! k = Some e → view (demote k e s) = view s.
Proof.
  intros Hk. unfold view. rewrite demote_map, fmap_insert. simpl.
  apply insert_id. by rewrite lookup_fmap, Hk.
Qed.

Lemma view_pop q s : view (pop_live_key q s).2 = view s.
Proof. unfold pop_live_key. by destruct (pop_live _ _ _). Qed.

Lemma view_small cap s : view (evict_from_small cap s).2 ⊆ view s.
Proof.
  unfold evict_from_small. pose proof (view_pop Small s) as Hp.
  destruct (pop_live_key Small s) as [[k|] s']; simpl in Hp; rewrite <-Hp; [|done].
  destruct (s3_map s' !! k) as [e|] eqn:Hk; [|done]. destruct (_ =? _)%N; simpl.
  - unfold view at 1. destruct (remember_ghost_same k (e_weight e) cap (drop_entry k e s'))
      as (-> & _). apply view_drop.
  - by rewrite view_demote.
Qed.

Lemma view_medium s : view (evict_from_medium s).2 ⊆ view s.
Proof.
  unfold evict_from_medium. pose proof (view_pop Medium s) as Hp.
  destruct (pop_live_key Medium s) as [[k|] s']; simpl in Hp; rewrite <-Hp; [|done].
  destruct (s3_map s' !! k) as [e|] eqn:Hk; [|done]. destruct (_ =? _)%N; simpl.
  - apply view_drop.
  - by rewrite view_demote.
Qed.

Lemma view_large fuel p s : view (evict_large_loop fuel p s).2 ⊆ view s.
Proof.
  revert p s. induction fuel as [|fuel IH]; intros p s; [done|]. cbn [evict_large_loop].
  pose proof (view_pop Large s) as Hp.
  destruct (pop_live_key Large s) as [[k|] s']; simpl in Hp; rewrite <-Hp; [|done].
  destruct (s3_map s' !! k) as [e|] eqn:Hk; [|done]. destruct (_ <? _)%N; simpl.
  - rewrite <-(view_demote k e s') by done. apply IH.
  - apply view_drop.
Qed.

Lemma view_evict bound capacity cap s : view (evict_loop bound capacity cap s) ⊆ view s.
Proof.
  revert s. induction bound as [|bound IH]; intros s; [done|]. cbn [evict_loop].
  destruct (_ <=? _)%N; [done|].
  pose proof (view_small cap s) as H1.
  destruct (evict_from_small cap s) as [[] s1]; simpl in H1; [by rewrite IH|].
  pose proof (view_medium s1) as H2.
  destruct (evict_from_medium s1) as [[] s2]; simpl in H2; [by rewrite IH, H2|].
  pose proof (view_large (S (N.to_nat (esum e_freq (s3_map s2)))) false s2) as H3.
  fold (evict_from_large s2) in H3.
  destruct (evict_from_large s2) as [[] s3]; simpl in H3; [by rewrite IH, H3, H2|].
  by rewrite H3, H2.
Qed.

Lemma view_admission capacity k v weight s :
  view (admission capacity k v weight s) ⊆ <[k := v]> (view s).
Proof.
  unfold view. rewrite admission_map. destruct (s3_map s !! k) as [e|] eqn:Hk.
  - by rewrite fmap_insert.
  - destruct (_ <=? _)%N; [by rewrite fmap_insert|].
    apply insert_subseteq. by rewrite lookup_fmap, Hk.
Qed.

#[export] Program Instance lru_cache_laws : CacheLaws (LruCache K V) K V := {|
  cache_view c := view (lru_inner c);
|}.
Next Obligation.
  intros k c. cbn [cache_get lru_cache]. unfold lru_get, view.
  destruct (s3_map (lru_inner c) !! k) as [e|] eqn:Hk; cbn; rewrite lookup_fmap, Hk;
    (split; [done|]); [|done].
  rewrite fmap_insert. apply insert_id. by rewrite lookup_fmap, Hk.
Qed.
Next Obligation.
  intros k v c. cbn [cache_insert lru_cache lru_insert with_inner lru_inner].
  unfold lru_insert. cbn. unfold evict_while_over. by rewrite view_evict, view_admission.
Qed.
Next Obligation.
  intros k c. cbn [cache_remove lru_cache]. unfold lru_remove, view.
  destruct (s3_map (lru_inner c) !! k) as [e|] eqn:Hk;
    [|rewrite (delete_id (e_value <$> s3_map (lru_inner c))) by (by rewrite lookup_fmap, Hk)];
    destruct (s3_ghost_map _ !! k); cbn; by rewrite <-?fmap_delete.
Qed.
Next Obligation.
  intros k c. cbn [cache_contains lru_cache]. unfold lru_contains, view.
  apply bool_decide_ext. by rewrite lookup_fmap, fmap_is_Some.
Qed.
End s3_spec.

(** ** Clients *)

Section client.
Context {C K V : Type} `{CacheLaws C K V}.

(** The calls of the trait that change a cache. *)
Inductive CacheCall :=
| CcGet (k : K)
| CcInsert (k : K) (v : V)
| CcRemove (k : K).

(** The answers to the [get]s among some calls, and the cache after them. *)
Fixpoint run_cache (calls : list CacheCall) (c : C) : list (option V) * C :=
  match calls with
  | [] => ([], c)
  | CcGet k :: calls =>
      let '(r, c) := cache_get k c in
      let '(rs, c) := run_cache calls c in (r :: rs, c)
  | CcInsert k v :: calls => run_cache calls (cache_insert k v c)
  | CcRemove k :: calls => run_cache calls (cache_remove k c)
  end.

(** The same calls on a map that never forgets. *)
Fixpoint run_map (calls : list CacheCall) (m : gmap K V) : list (option V) :=
  match calls with
  | [] => []
  | CcGet k :: calls => m !! k :: run_map calls m
  | CcInsert k v :: calls => run_map calls (<[k := v]> m)
  | CcRemove k :: calls => run_map calls (base.delete k m)
  end.

Lemma run_cache_answers calls c m :
  cache_view c ⊆ m →
  Forall2 (λ got want, got = None ∨ got = want) (run_cache calls c).1 (run_map calls m).
Proof.
  revert c m. induction calls as [|[k|k v|k] calls IH]; intros c m Hsub; simpl.
  - constructor.
  - destruct (cache_get_law k c) as [Hr Hv]. destruct (cache_get k c) as [r c'].
    simpl in Hr, Hv. subst r. destruct (run_cache calls c') as [rs c''] eqn:Hrun. simpl.
    constructor; [|apply (f_equal fst) in Hrun; simpl in Hrun; rewrite <-Hrun; apply IH;
                   by rewrite Hv].
    destruct (cache_view c !! k) as [v|] eqn:Hk; [right|by left].
    symmetry. by eapply lookup_weaken.
  - apply IH. rewrite cache_insert_law. by apply insert_mono.
  - apply IH. rewrite cache_remove_law. by apply delete_mono.
Qed.
End client.

Arguments CacheCall K V : clear implicits.

Section lru_theorem.
Context {K V : Type} `{Countable K}.

(** What holds of a cache between two calls. *)
Definition lru_wf (c : LruCache K V) : Prop :=
  s3_inv (lru_inner c) ∧ (s3_weight (lru_inner c) ≤ lru_capacity c)%N.

Lemma lru_get_wf k c : lru_wf c → lru_wf (lru_get k c).2.
Proof.
  intros [[Hf Hw] Hle]. unfold lru_get.
  destruct (s3_map (lru_inner c) !! k) as [e|] eqn:Hk; [|done].
  split; [split|done]; cbn.
  - intros k' e'. cbn. intros [[<- <-]|[Hne Hk']]%lookup_insert_Some; right.
    + destruct (Hf _ _ Hk) as [|Hin]; [done|]. cbn. by destruct (e_queue e).
    + destruct (Hf _ _ Hk') as [|Hin]; [done|]. by destruct (e_queue e').
  - rewrite Hw. pose proof (esum_insert e_weight _ k e
      (MkCacheEntry (e_value e) (e_weight e) (freq_up (e_freq e)) (e_queue e) (e_seq e)) Hk)
      as Hs. cbn in Hs. lia.
Qed.

Lemma lru_insert_wf k v c :
  (lru_weigher c k v ≤ U32_MAX)%N → (lru_capacity c + U32_MAX ≤ USIZE_MAX)%N →
  lru_wf c → lru_wf (lru_insert k v c).
Proof.
  intros Hwt Hcap [Hi Hle]. unfold lru_insert, lru_wf. cbn.
  apply evict_loop_spec; [by apply admission_inv|apply rank_bound].
Qed.

Lemma lru_remove_wf k c : lru_wf c → lru_wf (lru_remove k c).
Proof.
  intros [[Hf Hw] Hle]. unfold lru_remove.
  assert (∀ s gm gw, lru_wf (with_inner s (lru_counters c) c) →
    lru_wf (with_inner (with_ghost (s3_ghost s) gm gw s) (lru_counters c) c)) as Hghost.
  { intros s gm gw [[Hf' Hw'] Hle']. split; [split|]; [|done|done].
    intros k' e' Hk'. destruct (Hf' k' e' Hk') as [|Hin]; [by left|right].
    by destruct (e_queue e'). }
  destruct (s3_map (lru_inner c) !! k) as [e|] eqn:Hk.
  - assert (lru_wf (with_inner (drop_entry k e (lru_inner c)) (lru_counters c) c)) as Hd.
    { split; [|cbn; lia]. apply drop_entry_spec; [|done|done].
      intros k' e' Hk'. right. by destruct (Hf k' e' Hk'). }
    destruct (s3_ghost_map _ !! k); [by apply Hghost|done].
  - destruct (s3_ghost_map _ !! k); [by apply Hghost|done].
Qed.

Lemma run_cache_wf weigher capacity (calls : list (CacheCall K V)) (c : LruCache K V) :
  lru_capacity c = capacity → lru_weigher c = weigher →
  (∀ k v, (weigher k v ≤ U32_MAX)%N) → (capacity + U32_MAX ≤ USIZE_MAX)%N →
  lru_wf c → lru_wf (run_cache calls c).2 ∧ lru_capacity (run_cache calls c).2 = capacity.
Proof.
  intros Hc Hw Hwt Hcap. revert c Hc Hw.
  induction calls as [|[k|k v|k] calls IH]; intros c Hc Hw Hwf; cbn [run_cache]; [done| | |].
  - cbn [cache_get lru_cache].
    assert (lru_wf (lru_get k c).2 ∧ lru_capacity (lru_get k c).2 = capacity ∧
      lru_weigher (lru_get k c).2 = weigher) as (Hwf' & Hc' & Hw').
    { split; [by apply lru_get_wf|]. unfold lru_get. by destruct (_ !! k). }
    destruct (lru_get k c) as [r c']. cbn [snd] in *.
    specialize (IH c' Hc' Hw' Hwf'). by destruct (run_cache calls c').
  - apply IH; [done|done|]. apply lru_insert_wf; [by rewrite Hw|by rewrite Hc|done].
  - apply IH; [done|done|by apply lru_remove_wf].
Qed.

(** C33: The S3-FIFO cache under any sequence of calls: a [get] answers with
    nothing or with the value last inserted under the key and not removed
    since, the weight on its books is the weight of the entries it holds,
    and between two calls that weight is within the capacity, so the bounded
    eviction loop always finishes its work. *)
Theorem lru_calls (capacity : N) (weigher : K → V → N) (calls : list (CacheCall K V)) :
  (∀ k v, (weigher k v ≤ U32_MAX)%N) → (capacity + U32_MAX ≤ USIZE_MAX)%N →
  let '(replies, c) := run_cache calls (lru_new capacity weigher) in
  Forall2 (λ got want, got = None ∨ got = want) replies (run_map calls ∅) ∧
  s3_weight (lru_inner c) = esum e_weight (s3_map (lru_inner c)) ∧
  (s3_weight (lru_inner c) ≤ capacity)%N.
Proof.
  intros Hw Hcap.
  pose proof (run_cache_answers calls (lru_new capacity weigher) ∅) as Ha.
  destruct (run_cache_wf weigher capacity calls (lru_new capacity weigher))
    as [[[Hf Hsum] Hle] Hc]; try done.
  { split; [split|]; try done. cbn. lia. }
  destruct (run_cache calls _) as [replies c]. cbn [fst snd] in *.
  split; [apply Ha; done|]. by rewrite <-Hc.
Qed.
End lru_theorem.

Lemma lru_calls_witness :
  let calls := [CcInsert "a" 6%N; CcInsert "b" 5%N; CcGet "a"; CcGet "b"] in
  let '(replies, c) := run_cache calls (lru_new 10 (λ _ v, N.min v U32_MAX)) in
  replies = [None; Some 5%N] ∧ (s3_weight (lru_inner c) ≤ 10)%N.
Proof.
  pose proof (lru_calls 10 (λ (_ : string) v, N.min v U32_MAX)
    [CcInsert "a" 6%N; CcInsert "b" 5%N; CcGet "a"; CcGet "b"]) as Hl.
  cbv zeta. revert Hl.
  assert (∀ r : list (option N) * LruCache string N,
    r = run_cache [CcInsert "a" 6%N; CcInsert "b" 5%N; CcGet "a"; CcGet "b"]
          (lru_new 10 (λ _ v, N.min v U32_MAX)) →
    r.1 = [None; Some 5%N]) as Hr by (intros r ->; vm_compute; reflexivity).
  specialize (Hr _ eq_refl). destruct (run_cache _ _) as [replies c]. cbn [fst] in Hr.
  intros Hl. destruct Hl as (_ & _ & Hle).
  - intros k v. apply N.le_min_r.
  - vm_compute. discriminate.
  - split; [exact Hr|exact Hle].
Defined.
