(* ===== verification/Read.v ===== *)
(** The lookup engine: [src/src/store/lsm/read.rs].  [resolve_value] is in
    [Blob], [is_not_found] in [Wal].

    The state of a lookup is the storage, the manifest cache and the SST cache
    of its [ReadCtx].  The [staged] hit and the [layers] are what the caller
    read under its locks; a closure given to [retry_once_not_found] reads them
    afresh on each run. *)

From stdpp Require Import options.
From S2P Require Import Prelude OrdMap Core Codec Storage Json Manifest Blob Wal Merge Sst.
From S2P Require Import SstSpec Cache.

(** ** Definitions *)

(** The two tests of the filter's closure. *)
Definition row_kept (lower upper : option string) (r : row) : bool :=
  match lower with Some lo => negb (bool_decide (r.1 <ₖ lo)) | None => true end &&
  match upper with Some hi => negb (bool_decide (hi <ₖ r.1)) | None => true end.

Definition filter_rows (m : MemMap) (dir : Direction) (c : cursor) : list row :=
  let '(lower, upper) := match dir with Next => (c.1, c.2) | Prev => (c.2, c.1) end in
  match lower, upper with
  | None, None => bt_iter m
  | _, _ => filter (λ r, row_kept lower upper r = true) (bt_iter m)
  end.

(** Whether a file's key range meets the scanned one. *)
Definition file_overlaps (start stop : option string) (meta : SstMeta) : bool :=
  match start with Some s => bool_decide (s ≤ₖ sm_max_key meta) | None => true end &&
  match stop with Some e => bool_decide (sm_min_key meta ≤ₖ e) | None => true end.

Section read.
Context {W C : Type} `{StorageBackend W} `{Clock W} `{Json Manifest} `{Json SstFooter}
  `{Digests} `{Json BlobPointer} `{Cache C string SstFile}.
(** The fields of [ReadCtx] that are values. *)
Context (prefix : ObjectPath) (epoch : N).

Abbreviation reading := ((W * ManifestCache) * C)%type.

Definition on_engine {A} : Op (W * ManifestCache) A → Op reading A :=
  op_zoom fst (λ c s, (c, s.2)).
Definition on_disk {A} (m : Op W A) : Op reading A := on_engine (on_storage m).

Definition read_sst (id : string) : Op reading SstFile :=
  try! r := on_disk (st_get id) in
  match r with
  | Ok out =>
      let! sst := op_lift (parse (go_bytes out)) in
      op_lift (verify_file_crc sst) ;; op_ret sst
  | Err e => op_throw (Storage ("get sst " +:+ id +:+ " failed: " +:+ Core.to_string e))
  end.

Definition fetch_sst (id : string) : Op reading SstFile :=
  let! hit := (λ s : reading, let '(hit, c) := cache_get id s.2 in (Ok hit, (s.1, c))) in
  match hit with
  | Some cached => op_ret cached
  | None =>
      let! sst := read_sst id in
      op_modify (λ s : reading, (s.1, cache_insert id sst s.2)) ;; op_ret sst
  end.

Definition clear_manifest_cache : Op reading () :=
  op_modify (λ s : reading, ((s.1.1, cache_clear s.1.2), s.2)).

Definition retry_once_not_found {S A} (clear : Op S ()) (op : Op S A) : Op S A :=
  try! r := op in
  match r with
  | Err e => if is_not_found e then clear ;; op else op_throw e
  | Ok a => op_ret a
  end.

(** The files of [point_lookup], newest first. *)
Fixpoint search_files (metas : list SstMeta) (k : string) : Op reading (option bytes) :=
  match metas with
  | [] => op_ret None
  | meta :: metas =>
      if bool_decide (k <ₖ sm_min_key meta ∨ sm_max_key meta <ₖ k)
      then search_files metas k
      else
        let! sst := fetch_sst (sm_id meta) in
        let! hit := op_lift (get_option sst k) in
        match hit with
        | Some (Some raw) => let! v := on_disk (resolve_value raw) in op_ret (Some v)
        | Some None => op_ret None
        | None => search_files metas k
        end
  end.

Definition point_lookup (staged : option (option bytes)) (k : string) :
    Op reading (option bytes) :=
  match staged with
  | Some (Some raw) => let! v := on_disk (resolve_value raw) in op_ret (Some v)
  | Some None => op_ret None
  | None =>
      let! m := on_engine (load_manifest prefix epoch 1000) in
      search_files (reverse (mf_sst m.1)) k
  end.

(** The files of a forward scan, newest first. *)
Fixpoint fetch_files (metas : list SstMeta) (start stop : option string) :
    Op reading (list SstFile) :=
  match metas with
  | [] => op_ret []
  | meta :: metas =>
      if file_overlaps start stop meta then
        let! sst := fetch_sst (sm_id meta) in
        let! files := fetch_files metas start stop in
        op_ret (sst :: files)
      else fetch_files metas start stop
  end.

Fixpoint resolve_entries (l : list (string * bytes)) : Op reading (list KeyValue) :=
  match l with
  | [] => op_ret []
  | (k, raw) :: l =>
      let! v := on_disk (resolve_value raw) in
      let! rest := resolve_entries l in
      op_ret (KV k v :: rest)
  end.

Fixpoint resolve_rows (l : list row) : Op reading (list row) :=
  match l with
  | [] => op_ret []
  | (k, Some raw) :: l =>
      let! v := on_disk (resolve_value raw) in
      let! rest := resolve_rows l in
      op_ret ((k, Some v) :: rest)
  | (k, None) :: l => let! rest := resolve_rows l in op_ret ((k, None) :: rest)
  end.

(** The files of a backward scan, which reads them past the cache. *)
Fixpoint scan_files (metas : list SstMeta) (start stop : option string) :
    Op reading (list (list row)) :=
  match metas with
  | [] => op_ret []
  | meta :: metas =>
      if file_overlaps start stop meta then
        let! sst := read_sst (sm_id meta) in
        let! scan := op_lift (scan_with_tombstones sst start stop None) in
        let! resolved := resolve_rows scan in
        let! rest := scan_files metas start stop in
        op_ret (resolved :: rest)
      else scan_files metas start stop
  end.

Definition scan_manifest (m : Manifest) (layers : list (list row)) (limit : option N)
    (dir : Direction) (c : cursor) : Op reading (list KeyValue) :=
  match dir with
  | Prev =>
      match c.1 with
      | None => op_ret []
      | Some _ =>
          let! files := scan_files (reverse (mf_sst m)) c.2 c.1 in
          op_ret (merged_gets_bytes (layers ++ files) limit Prev c)
      end
  | Next =>
      let! files := fetch_files (reverse (mf_sst m)) c.1 c.2 in
      let! merged := op_lift (pull_merge_next
        (yields layers ++ ((λ f, scan_stream f c.1 c.2) <$> files)) (limit_of limit)) in
      resolve_entries merged
  end.

Definition range_lookup (layers : list (list row)) (limit : option N) (dir : Direction)
    (c : cursor) : Op reading (list KeyValue) :=
  let! m := on_engine (load_manifest prefix epoch 1000) in
  scan_manifest m.1 layers limit dir c.
End read.
