(* ===== verification/ReadSpec.v ===== *)
(** Correctness of the lookup engine: point lookups and range scans through
    the caches, the files and the blobs answer from one map, the newest-wins
    union of the caller's layers and the manifest's files. *)

From stdpp Require Import options.
From S2P Require Import Prelude OrdMap Core Codec Snapshot Storage Json Manifest Blob Wal Merge.
From S2P Require Import Sst SstSpec Cache Read.

(** ** Tables *)

(** The newest-wins union of some tables. *)
Definition merged (ts : list MemMap) : MemMap := newest_map (bt_iter <$> ts).

Lemma newest_cons (l : list row) ls k :
  newest (l :: ls) k = match assoc k l with Some v => Some v | None => newest ls k end.
Proof. done. Qed.

Lemma newest_app l1 l2 k :
  newest (l1 ++ l2) k = match newest l1 k with Some v => Some v | None => newest l2 k end.
Proof.
  induction l1 as [|l l1 IH]; [done|]. simpl. rewrite IH. by destruct (assoc k l).
Qed.

Lemma live_join (m : MemMap) k : live m !! k = mjoin (m !! k).
Proof. unfold live. rewrite lookup_omap. by destruct (m !! k) as [[]|]. Qed.

Lemma assoc_bt_range {V} lo hi (m : gmap string V) k :
  assoc k (bt_range lo hi m) = if decide (in_bounds lo hi k) then m !! k else None.
Proof.
  destruct (assoc k (bt_range lo hi m)) as [v|] eqn:Ha.
  - apply assoc_elem in Ha. unfold bt_range in Ha. apply list_elem_of_filter in Ha as [Hb Ha].
    apply elem_of_bt_iter in Ha. by rewrite decide_True.
  - case_decide as Hb; [|done]. destruct (m !! k) as [v|] eqn:Hk; [|done].
    rewrite (assoc_sorted k v) in Ha; [done|apply bt_range_sorted|].
    apply list_elem_of_filter. split; [done|]. by apply elem_of_bt_iter.
Qed.

Lemma newest_range lo hi (ts : list MemMap) k :
  newest (bt_range lo hi <$> ts) k =
    if decide (in_bounds lo hi k) then newest (bt_iter <$> ts) k else None.
Proof.
  induction ts as [|t ts IH]; [by destruct (decide _)|].
  rewrite !fmap_cons, !newest_cons, IH, assoc_bt_range, assoc_bt_iter.
  by destruct (decide _).
Qed.

(** Two families that agree in a window scan alike in it. *)
Lemma range_live_agree lo hi (m1 m2 : MemMap) :
  (∀ k, in_bounds lo hi k → m1 !! k = m2 !! k) →
  bt_range lo hi (live m1) = bt_range lo hi (live m2).
Proof.
  intros Heq. apply sorted_entries_eq_range; [apply bt_range_sorted|]. intros k v.
  unfold bt_range. rewrite list_elem_of_filter, elem_of_bt_iter, !live_lookup. simpl.
  split; intros [Hb Hk]; (split; [done|]); by rewrite ?Heq, <-?Heq in *.
Qed.

Lemma iter_live_range lo hi (ts ts' : list MemMap) :
  (∀ k, in_bounds lo hi k → newest (bt_iter <$> ts') k = newest (bt_iter <$> ts) k) →
  bt_iter (live (newest_map (bt_range lo hi <$> ts'))) = bt_range lo hi (live (merged ts)).
Proof.
  intros Heq. symmetry. apply sorted_entries_eq_iter; [apply bt_range_sorted|]. intros k v.
  unfold bt_range at 1, merged. rewrite list_elem_of_filter, elem_of_bt_iter, !live_lookup,
    !newest_map_lookup, newest_range. simpl.
  destruct (decide (in_bounds lo hi k)) as [Hb|]; [rewrite Heq by done|]; naive_solver.
Qed.

Lemma filter_rows_range (m : MemMap) dir c :
  filter_rows m dir c =
    match dir with Next => bt_range c.1 c.2 m | Prev => bt_range c.2 c.1 m end.
Proof.
  unfold filter_rows. assert (∀ lo hi, filter (λ r, row_kept lo hi r = true) (bt_iter m) =
    bt_range lo hi m) as Hf.
  { intros lo hi. unfold bt_range. apply list_filter_iff. intros [k v].
    unfold row_kept, in_bounds. simpl. rewrite andb_true_iff.
    destruct lo as [lo|], hi as [hi|]; simpl;
      repeat case_bool_decide; simpl; split; intros [H1 H2]; split; try done; key_order. }
  destruct dir; (destruct c as [[a|] [b|]]; cbn [fst snd]; [apply Hf..|]); by rewrite bt_range_full.
Qed.

(** ** Related tables *)

Lemma bt_iter_fmap {A B} (f : A → B) (m : gmap string A) :
  bt_iter (f <$> m) = (λ kv, (kv.1, f kv.2)) <$> bt_iter m.
Proof.
  symmetry. apply sorted_entries_eq_iter.
  - unfold sorted_entries. rewrite <-list_fmap_compose. apply bt_iter_sorted.
  - intros k v. rewrite lookup_fmap, fmap_Some, list_elem_of_fmap. split.
    + intros ([k' a] & Heq & Hin). simplify_eq/=. apply elem_of_bt_iter in Hin. eauto.
    + intros (a & Hk & ->). exists (k, a). split; [done|]. by apply elem_of_bt_iter.
Qed.

(** Related maps have related entries, in the same order. *)
Lemma bt_range_related {A B} (R : A → B → Prop) lo hi (m1 : gmap string A) (m2 : gmap string B) :
  (∀ k, option_Forall2 R (m1 !! k) (m2 !! k)) →
  Forall2 (λ x y, x.1 = y.1 ∧ R x.2 y.2) (bt_range lo hi m1) (bt_range lo hi m2).
Proof.
  intros HR. set (mz := map_zip m1 m2).
  assert (∀ k a b, mz !! k = Some (a, b) ↔ m1 !! k = Some a ∧ m2 !! k = Some b) as Hz.
  { intros k a b. unfold mz. by rewrite map_lookup_zip_Some. }
  assert (m1 = fst <$> mz) as H1.
  { apply map_eq. intros k. rewrite lookup_fmap. specialize (HR k). specialize (Hz k).
    destruct (m1 !! k) as [a|], (m2 !! k) as [b|], (mz !! k) as [[a' b']|]; inversion HR;
      naive_solver. }
  assert (m2 = snd <$> mz) as H2.
  { apply map_eq. intros k. rewrite lookup_fmap. specialize (HR k). specialize (Hz k).
    destruct (m1 !! k) as [a|], (m2 !! k) as [b|], (mz !! k) as [[a' b']|]; inversion HR;
      naive_solver. }
  assert (Forall (λ kv : string * (A * B), R kv.2.1 kv.2.2) (bt_iter mz)) as Hall.
  { apply Forall_forall. intros [k [a b]] Hin. apply elem_of_bt_iter in Hin.
    apply Hz in Hin as [Ha Hb]. specialize (HR k). rewrite Ha, Hb in HR. by inversion HR. }
  rewrite H1, H2. unfold bt_range. rewrite !bt_iter_fmap.
  induction Hall as [|[k [a b]] l Hr _ IH]; [constructor|].
  rewrite !fmap_cons, !filter_cons. cbn [fst snd]. by case_decide; [constructor|].
Qed.

Lemma take_limit_Forall2 {A B} (R : A → B → Prop) n l k :
  Forall2 R l k → Forall2 R (take_limit n l) (take_limit n k).
Proof. destruct n; [|done]. apply Forall2_take. Qed.

(** ** Lookups *)

Section lookups.
Context {W C : Type} `{ClockLaws W} `{JsonLaws Manifest} `{Json SstFooter}
  `{Digests} `{Json BlobPointer} `{!Cache C string SstFile, !CacheLaws C string SstFile}.
Context (prefix : ObjectPath) (epoch : N) (objs : gmap string (bytes * string)).
(** The ids of files, of this and of earlier manifests, and the manifest cache,
    which a lookup only changes when it loads the manifest. *)
Context (known : string → Prop) (mc : ManifestCache).

Abbreviation reading := ((W * ManifestCache) * C)%type.

(** The user value that a stored one stands for. *)
Definition stands_for (raw v : bytes) : Prop :=
  match try_decode_blob_pointer raw with
  | None => v = raw
  | Some ptr => (∃ tag, objs !! bp_blob ptr = Some (v, tag)) ∧
      N.of_nat (length v) = bp_len ptr ∧ crc32 v = bp_crc ptr
  end.

Definition table_stands (t u : MemMap) : Prop :=
  ∀ k, option_Forall2 (option_Forall2 stands_for) (t !! k) (u !! k).

(** No value of the table reads as a blob pointer. *)
Definition plain (t : MemMap) : Prop :=
  ∀ k v, t !! k = Some (Some v) → try_decode_blob_pointer v = None.

Lemma plain_stands t : plain t → table_stands t t.
Proof using Type.
  intros Hp k. destruct (t !! k) as [[v|]|] eqn:Hk; repeat constructor.
  unfold stands_for. by rewrite (Hp k v).
Qed.

Lemma plain_all ls : Forall plain ls → Forall2 table_stands ls ls.
Proof using Type.
  induction 1 as [|t ls Ht _ IH]; constructor; [by apply plain_stands|done].
Qed.

(** The object of a manifest entry is a sound file of the table. *)
Definition stores (meta : SstMeta) (t : MemMap) : Prop :=
  known (sm_id meta) ∧ ∃ data tag f, objs !! sm_id meta = Some (data, tag) ∧ parse data = Ok f ∧ file_holds f t ∧
    ∀ k, is_Some (t !! k) → sm_min_key meta ≤ₖ k ∧ k ≤ₖ sm_max_key meta.

(** A cached file is what its object holds, as long as there is one: files are
    never overwritten, but the cache may keep one that was deleted. *)
Definition files_cached (c : C) : Prop :=
  ∀ id f, cache_view c !! id = Some f →
    known id ∧ ∀ data tag, objs !! id = Some (data, tag) → parse data = Ok f.

Definition reads_ok (s : reading) : Prop :=
  st_objects s.1.1 = objs ∧ st_wf s.1.1 ∧ s.1.2 = mc ∧ files_cached s.2.

(** The operation answers [a] from any such state, and keeps it so. *)
Definition answers {A} (m : Op reading A) (a : A) : Prop :=
  ∀ s, reads_ok s → ∃ s', m s = (Ok a, s') ∧ reads_ok s'.

Lemma answers_ret {A} (a : A) : answers (op_ret a) a.
Proof using Type. intros s Hs. by exists s. Qed.

Lemma answers_lift {A} (a : A) : answers (op_lift (Ok a)) a.
Proof using Type. intros s Hs. by exists s. Qed.

Lemma answers_bind {A B} (m : Op reading A) (f : A → Op reading B) a b :
  answers m a → answers (f a) b → answers (op_bind m f) b.
Proof using Type.
  intros Hm Hf s Hs. destruct (Hm s Hs) as (s1 & Hr & Hs1).
  rewrite (op_bind_ok _ _ _ _ _ Hr). by apply Hf.
Qed.

Lemma on_disk_eq {A} (m : Op W A) (w w' : W) c (k : C) r :
  m w = (r, w') → on_disk m ((w, c), k) = (r, ((w', c), k)).
Proof using Type. unfold on_disk, on_engine, on_storage, op_zoom. simpl. by intros ->. Qed.

(** A read of the storage keeps the state of a lookup. *)
Lemma reads_ok_same w w' c k :
  reads_ok ((w, c), k) → st_wf w' → st_objects w' = st_objects w → reads_ok ((w', c), k).
Proof using Type.
  intros (Ho & _ & Hmc & Hf) Hwf Ho'. split; [by rewrite <-Ho|]. by split.
Qed.

Lemma answers_get id data tag {A} (f : Result GetOutput → Op reading A) (a : A) :
  objs !! id = Some (data, tag) →
  (∀ v, answers (f (Ok (MkGetOutput data (Some tag) v))) a) →
  answers (op_try (on_disk (st_get id)) f) a.
Proof using Type.
  intros Hob Hf [[w c] k] Hs. pose proof Hs as (Ho & Hwf & _). simpl in *.
  destruct (st_get_law id w Hwf (st_known _ _ Hwf (mk_is_Some _ _ (eq_trans (f_equal (.!! id) Ho) Hob)))) as (r & w' & Hg & Ho' & Hwf' & Hr).
  unfold op_try. rewrite (on_disk_eq _ _ _ c k _ Hg). rewrite Ho, Hob in Hr.
  destruct Hr as [v ->]. apply Hf. eapply reads_ok_same; [done..|]. by rewrite Ho'.
Qed.

Lemma answers_resolve raw v : stands_for raw v → answers (on_disk (resolve_value raw)) v.
Proof using Type.
  unfold stands_for, resolve_value. destruct (try_decode_blob_pointer raw) as [ptr|].
  2: { intros ->. intros [[w c] k] Hs. by exists ((w, c), k). }
  intros ([tag Hob] & Hlen & Hcrc) [[w c] k] Hs. pose proof Hs as (Ho & Hwf & _).
  simpl in *. destruct (st_get_law (bp_blob ptr) w Hwf (st_known _ _ Hwf (mk_is_Some _ _ (eq_trans (f_equal (.!! _) Ho) Hob)))) as (r & w' & Hg & Ho' & Hwf' & Hr).
  rewrite Ho, Hob in Hr. destruct Hr as [ver ->].
  exists ((w', c), k). split; [|eapply reads_ok_same; [done..|]; by rewrite Ho'].
  apply on_disk_eq. unfold get_blob, op_bind, op_try. rewrite Hg. cbn.
  by rewrite !bool_decide_eq_false_2 by auto.
Qed.

Lemma answers_read meta t f data tag :
  objs !! sm_id meta = Some (data, tag) → parse data = Ok f → file_holds f t →
  answers (read_sst (sm_id meta)) f.
Proof using Type.
  intros Hob Hp Hf. unfold read_sst. eapply answers_get; [done|]. intros v. cbn [go_bytes].
  rewrite Hp. apply (answers_bind _ _ f); [apply answers_lift|].
  apply (answers_bind _ _ ()); [|apply answers_ret]. rewrite (fh_crc Hf). apply answers_lift.
Qed.

Lemma answers_fetch meta t f data tag :
  known (sm_id meta) → objs !! sm_id meta = Some (data, tag) → parse data = Ok f → file_holds f t →
  answers (fetch_sst (sm_id meta)) f.
Proof using Type*.
  intros Hkn Hob Hp Hf [[w c] k] (Ho & Hwf & Hmc & Hfc). unfold fetch_sst, op_bind. cbn [fst snd].
  destruct (cache_get_law (sm_id meta) k) as [Hhit Hview].
  destruct (cache_get (sm_id meta) k) as [hit k1]. simpl in Hhit, Hview.
  assert (reads_ok ((w, c), k1)) as Hs1.
  { do 3 (split; [done|]). unfold files_cached. simpl. by rewrite Hview. }
  destruct hit as [f'|].
  - destruct (Hfc _ _ (eq_sym Hhit)) as [_ Hp']. specialize (Hp' _ _ Hob).
    assert (f' = f) as -> by congruence. by exists ((w, c), k1).
  - destruct (answers_read meta t f data tag Hob Hp Hf _ Hs1) as ([[w2 c2] k2] & -> & Hs2).
    eexists. split; [done|]. destruct Hs2 as (Ho2 & Hwf2 & Hmc2 & Hfc2).
    do 3 (split; [done|]). simpl. intros id f' Hv.
    pose proof (lookup_weaken _ _ _ _ Hv (cache_insert_law (sm_id meta) f k2)) as Hv'.
    apply lookup_insert_Some in Hv' as [[<- <-]|[_ Hv']]; [|by eapply Hfc2].
    split; [done|]. intros data' tag' Hob'. congruence.
Qed.

(** *** Point lookups *)

Lemma search_files_spec metas ts us k :
  Forall2 stores metas ts → Forall2 table_stands ts us →
  answers (search_files metas k) (mjoin (newest (bt_iter <$> us) k)).
Proof using Type*.
  intros Hst. revert us.
  induction Hst as [|meta t metas ts (Hkn & data & tag & f & Hob & Hp & Hf & Hspan) _ IH];
    intros us Hus; inversion Hus as [|? u ? us' Htu Hus']; subst; [apply answers_ret|].
  specialize (IH _ Hus'). cbn [search_files]. rewrite fmap_cons, newest_cons, assoc_bt_iter.
  specialize (Htu k). case_bool_decide as Hout.
  - destruct (t !! k) eqn:Hk; [|by inversion Htu].
    destruct (Hspan k) as [Hmn Hmx]; [by rewrite Hk|]. exfalso. destruct Hout; key_order.
  - apply (answers_bind _ _ f); [by eapply answers_fetch|]. rewrite (fh_get Hf).
    eapply answers_bind; [apply answers_lift|].
    destruct (t !! k) as [[raw|]|]; inversion Htu as [? ? Hr|]; subst; [| |done].
    + inversion Hr as [? v Hv|]; subst.
      eapply answers_bind; [by apply answers_resolve|apply answers_ret].
    + inversion Hr; subst. apply answers_ret.
Qed.

(** *** Range scans *)

Lemma not_overlaps meta t lo hi k :
  (∀ k, is_Some (t !! k) → sm_min_key meta ≤ₖ k ∧ k ≤ₖ sm_max_key meta) →
  file_overlaps lo hi meta = false → in_bounds lo hi k → (t : MemMap) !! k = None.
Proof using Type.
  intros Hspan Ho [Hlo Hhi]. destruct (t !! k) as [v|] eqn:Hk; [|done].
  destruct (Hspan k) as [Hmn Hmx]; [by rewrite Hk|]. unfold file_overlaps in Ho.
  destruct lo, hi; simpl in *; repeat (case_bool_decide; simpl in Ho); try done; key_order.
Qed.

Lemma fetch_files_spec metas ts lo hi :
  Forall2 stores metas ts →
  ∃ fs ts', answers (fetch_files metas lo hi) fs ∧ Forall2 file_holds fs ts' ∧
    ∀ k, in_bounds lo hi k → newest (bt_iter <$> ts') k = newest (bt_iter <$> ts) k.
Proof using Type*.
  induction 1 as [|meta t metas ts (Hkn & data & tag & f & Hob & Hp & Hf & Hspan) _
    (fs & ts' & Ha & Hfs & Heq)]; [by exists [], []; split; [apply answers_ret|]|].
  cbn [fetch_files]. destruct (file_overlaps lo hi meta) eqn:Ho.
  - exists (f :: fs), (t :: ts'). split_and!.
    + eapply answers_bind; [by eapply answers_fetch|].
      eapply answers_bind; [exact Ha|apply answers_ret].
    + by constructor.
    + intros k Hk. rewrite !fmap_cons, !newest_cons. by rewrite Heq.
  - exists fs, ts'. split_and!; [done|done|]. intros k Hk.
    rewrite fmap_cons, newest_cons, assoc_bt_iter, Heq by done.
    by rewrite (not_overlaps meta t lo hi k).
Qed.

Lemma resolve_entries_spec l l' :
  Forall2 (λ x y : string * bytes, x.1 = y.1 ∧ stands_for x.2 y.2) l l' →
  answers (resolve_entries l) (to_kv <$> l').
Proof using Type.
  induction 1 as [|[k raw] [k' v] l l' [Hk Hv] _ IH]; simpl in *; [apply answers_ret|].
  subst k'. eapply answers_bind; [by apply answers_resolve|].
  eapply answers_bind; [exact IH|apply answers_ret].
Qed.

Lemma resolve_rows_spec l l' :
  Forall2 (λ x y : row, x.1 = y.1 ∧ option_Forall2 stands_for x.2 y.2) l l' →
  answers (resolve_rows l) l'.
Proof using Type.
  induction 1 as [|[k raw] [k' v] l l' [Hk Hv] _ IH]; [apply answers_ret|].
  cbn [fst snd] in *. subst k'. destruct Hv as [raw v Hv|]; cbn [resolve_rows].
  - eapply answers_bind; [by apply answers_resolve|].
    eapply answers_bind; [exact IH|apply answers_ret].
  - eapply answers_bind; [exact IH|apply answers_ret].
Qed.

Lemma scan_files_spec metas ts us lo hi :
  Forall2 stores metas ts → Forall2 table_stands ts us →
  ∃ us', answers (scan_files metas lo hi) (bt_range lo hi <$> us') ∧
    ∀ k, in_bounds lo hi k → newest (bt_iter <$> us') k = newest (bt_iter <$> us) k.
Proof using Type*.
  intros Hst. revert us.
  induction Hst as [|meta t metas ts (Hkn & data & tag & f & Hob & Hp & Hf & Hspan) _ IH];
    intros us Hus; inversion Hus as [|? u ? us0 Htu Hus']; subst;
    [by exists []; split; [apply answers_ret|]|].
  destruct (IH _ Hus') as (us' & Ha & Heq). cbn [scan_files].
  destruct (file_overlaps lo hi meta) eqn:Ho.
  - exists (u :: us'). split.
    + eapply answers_bind; [by eapply answers_read|]. rewrite (fh_scan _ _ _ _ Hf).
      eapply answers_bind; [apply answers_lift|].
      eapply answers_bind; [by apply resolve_rows_spec, bt_range_related|].
      eapply answers_bind; [exact Ha|apply answers_ret].
    + intros k Hk. rewrite !fmap_cons, !newest_cons. by rewrite Heq.
  - exists us'. split; [done|]. intros k Hk.
    rewrite fmap_cons, newest_cons, assoc_bt_iter, Heq by done.
    specialize (Htu k). rewrite (not_overlaps meta t lo hi k) in Htu by done. by inversion Htu.
Qed.

(** *** Both *)

Lemma stands_merged ts us :
  Forall2 table_stands ts us →
  ∀ k, option_Forall2 (option_Forall2 stands_for) (newest (bt_iter <$> ts) k)
         (newest (bt_iter <$> us) k).
Proof using Type.
  intros Htu k. induction Htu as [|t u ts us Htu _ IH]; [constructor|].
  rewrite !fmap_cons, !newest_cons, !assoc_bt_iter. specialize (Htu k).
  destruct (t !! k), (u !! k); inversion Htu; subst; [by constructor|done].
Qed.

(** The tables of the layers and of the files. *)
Lemma layers_range (ls : list MemMap) dir c :
  (λ l, filter_rows l dir c) <$> ls =
    match dir with Next => bt_range c.1 c.2 | Prev => bt_range c.2 c.1 end <$> ls.
Proof using Type.
  apply list_fmap_ext. intros _ l _. rewrite filter_rows_range. by destruct dir.
Qed.

Lemma scan_forward m ts us ls limit c :
  Forall2 stores (reverse (mf_sst m)) ts → Forall2 table_stands ts us → Forall plain ls →
  answers (scan_manifest m (bt_range c.1 c.2 <$> ls) limit Next c)
    (scan_spec limit Next c (live (merged (ls ++ us)))).
Proof using Type*.
  intros Hst Htu Hplain. cbn [scan_manifest].
  destruct (fetch_files_spec _ _ c.1 c.2 Hst) as (fs & ts' & Ha & Hfs & Heq).
  eapply answers_bind; [exact Ha|].
  assert (yields (bt_range c.1 c.2 <$> ls) ++ ((λ f, scan_stream f c.1 c.2) <$> fs) =
    yields (bt_range c.1 c.2 <$> (ls ++ ts'))) as ->.
  { unfold yields. rewrite !fmap_app. f_equal. clear Ha Heq.
    induction Hfs as [|f t fs' ts1 Hf _ IH]; [done|]. rewrite !fmap_cons, IH.
    by rewrite (fh_stream Hf). }
  rewrite pull_merge_newest by (apply Forall_fmap, Forall_true; intros; apply bt_range_sorted).
  eapply answers_bind; [apply answers_lift|].
  rewrite (iter_live_range _ _ (ls ++ ts)).
  2: { intros k Hk. rewrite !fmap_app, !newest_app. by rewrite Heq. }
  unfold scan_spec. apply resolve_entries_spec. apply take_limit_Forall2, bt_range_related.
  intros k. rewrite !live_join. unfold merged. rewrite !newest_map_lookup.
  assert (Forall2 table_stands (ls ++ ts) (ls ++ us)) as Hall.
  { apply Forall2_app; [by apply plain_all|done]. }
  pose proof (stands_merged _ _ Hall k) as Hk. by destruct Hk; [|constructor].
Qed.

Lemma scan_backward m ts us ls limit c :
  Forall2 stores (reverse (mf_sst m)) ts → Forall2 table_stands ts us →
  answers (scan_manifest m (bt_range c.2 c.1 <$> ls) limit Prev c)
    (scan_spec limit Prev c (live (merged (ls ++ us)))).
Proof using Type*.
  intros Hst Htu. cbn [scan_manifest]. unfold scan_spec.
  destruct c.1 as [start|] eqn:Hc; [|apply answers_ret].
  destruct (scan_files_spec _ _ _ c.2 (Some start) Hst Htu) as (us' & Ha & Heq).
  eapply answers_bind; [exact Ha|].
  rewrite merged_gets_spec, <-fmap_app. unfold scan_spec. rewrite Hc.
  rewrite (range_live_agree _ _ _ (merged (ls ++ us))); [apply answers_ret|].
  intros k Hk. unfold merged. rewrite !newest_map_lookup, newest_range, decide_True by done.
  rewrite !fmap_app, !newest_app. by rewrite Heq.
Qed.

Lemma point_staged (ls : list MemMap) k :
  Forall plain ls → is_Some (newest (bt_iter <$> ls) k) →
  answers (point_lookup prefix epoch (newest (bt_iter <$> ls) k) k)
    (mjoin (newest (bt_iter <$> ls) k)).
Proof using Type*.
  intros Hplain [v Hn]. pose proof (stands_merged ls ls (plain_all _ Hplain) k) as Hself.
  rewrite Hn in *. inversion Hself as [? ? Hr|]; subst.
  destruct v as [raw|]; [|apply answers_ret]. inversion Hr; subst.
  eapply answers_bind; [by apply answers_resolve|apply answers_ret].
Qed.

(** After a load of [m], the rest of a lookup. *)
Lemma point_files m ts us (ls : list MemMap) k :
  Forall2 stores (reverse (mf_sst m)) ts → Forall2 table_stands ts us →
  newest (bt_iter <$> ls) k = None →
  answers (search_files (reverse (mf_sst m)) k) (live (merged (ls ++ us)) !! k).
Proof using Type*.
  intros Hst Htu Hn. rewrite live_join. unfold merged.
  rewrite newest_map_lookup, fmap_app, newest_app, Hn. by eapply search_files_spec.
Qed.

Lemma range_files m ts us (ls : list MemMap) limit dir c :
  Forall2 stores (reverse (mf_sst m)) ts → Forall2 table_stands ts us → Forall plain ls →
  answers (scan_manifest m ((λ l, filter_rows l dir c) <$> ls) limit dir c)
    (scan_spec limit dir c (live (merged (ls ++ us)))).
Proof using Type*.
  intros Hst Htu Hplain. rewrite layers_range.
  destruct dir; [by eapply scan_forward|by eapply scan_backward].
Qed.
End lookups.

Section engine.
Context {W C : Type} `{ClockLaws W} `{JsonLaws Manifest} `{Json SstFooter}
  `{Digests} `{Json BlobPointer} `{!Cache C string SstFile, !CacheLaws C string SstFile}.
Context (prefix : ObjectPath) (epoch : N) (objs : gmap string (bytes * string)).
Context (known : string → Prop) `{!Accepts W (manifest_path prefix)}.

Abbreviation reading := ((W * ManifestCache) * C)%type.

(** What a lookup leaves behind: the objects, a sound SST cache, and a manifest
    cache that is coherent if it was. *)
Record read_from (s s' : reading) : Prop := {
  rf_objects : st_objects s'.1.1 = st_objects s.1.1;
  rf_coherent : coherent prefix s'.1;
  rf_cached : files_cached objs known s'.2;
  rf_skip : mc_skip_revalidation s'.1.2 = mc_skip_revalidation s.1.2;
}.

(** A lookup loads the current manifest. *)
Lemma load_step (s : reading) m etag :
  st_objects s.1.1 = objs → coherent prefix s.1 → files_cached objs known s.2 →
  mc_skip_revalidation s.1.2 = false ∨ mc_entry s.1.2 = None →
  stored_manifest prefix epoch s.1.1 = Ok (m, etag) →
  ∃ s1, on_engine (load_manifest prefix epoch 1000) s = (Ok (m, etag), s1) ∧
    reads_ok objs known s1.1.2 s1 ∧ read_from s s1.
Proof using Type*.
  destruct s as [[w c] k]. cbn [fst snd]. intros Ho Hco Hf Hfresh Hm.
  destruct (load_manifest_spec prefix epoch 1000 w c Hco) as ([w' c'] & Hl & Ho' & Hco' & Hskip);
    [by destruct Hfresh; auto|].
  exists ((w', c'), k). unfold on_engine, op_zoom. cbn [fst snd] in *. rewrite Hl, Hm.
  split; [done|]. split; [|done]. split; [by rewrite <-Ho|]. split; [apply Hco'|done].
Qed.

(** The lookups over the layers [ls], which the caller read, and the files of the
    current manifest. *)
Section lookup.
Context (ls ts us : list MemMap) (m : Manifest) (etag : string) (s : reading).
Context (Ho : st_objects s.1.1 = objs) (Hco : coherent prefix s.1) (Hf : files_cached objs known s.2).
Context (Hfresh : mc_skip_revalidation s.1.2 = false ∨ mc_entry s.1.2 = None).
Context (Hm : stored_manifest prefix epoch s.1.1 = Ok (m, etag)).
Context (Hst : Forall2 (stores objs known) (reverse (mf_sst m)) ts) (Htu : Forall2 (table_stands objs) ts us).
Context (Hplain : Forall plain ls).
Abbreviation db := (live (merged (ls ++ us))).

Lemma read_done s2 s' : reads_ok objs known s2.1.2 s' → read_from s s2 → read_from s s'.
Proof using Type*.
  destruct s2 as [[w2 c2] k2], s' as [[w3 c3] k3]. intros (Ho' & Hwf' & Hmc & Hf') [Ho2 Hco2 _ Hs2].
  cbn [fst snd] in *. subst c3. split; cbn [fst snd]; try done; [congruence|].
  apply (coherent_same prefix w3 w2); [done..|]. congruence.
Qed.

Lemma engine_point k :
  ∃ s', point_lookup prefix epoch (newest (bt_iter <$> ls) k) k s = (Ok (db !! k), s') ∧ read_from s s'.
Proof using Type*.
  destruct (newest (bt_iter <$> ls) k) as [v|] eqn:Hn.
  - assert (reads_ok objs known s.1.2 s) as Hs by (split; [done|]; split; [apply Hco|done]).
    destruct (point_staged prefix epoch objs known _ ls k Hplain (mk_is_Some _ _ Hn) _ Hs)
      as (s' & Hr & Hs').
    rewrite Hn in Hr. exists s'. split; [|by eapply (read_done s)]. rewrite Hr.
    rewrite live_join. unfold merged. by rewrite newest_map_lookup, fmap_app, newest_app, Hn.
  - destruct (load_step s m etag Ho Hco Hf Hfresh Hm) as (s1 & Hload & Hs1 & Hr1). cbn [point_lookup].
    rewrite (op_bind_ok _ _ _ _ _ Hload).
    destruct (point_files _ _ _ _ _ _ _ k Hst Htu Hn _ Hs1) as (s' & Hr & Hs').
    exists s'. split; [done|by eapply read_done].
Qed.

Lemma engine_range limit dir c :
  ∃ s', range_lookup prefix epoch ((λ l, filter_rows l dir c) <$> ls) limit dir c s =
      (Ok (scan_spec limit dir c db), s') ∧ read_from s s'.
Proof using Type*.
  destruct (load_step s m etag Ho Hco Hf Hfresh Hm) as (s1 & Hload & Hs1 & Hr1). unfold range_lookup.
  rewrite (op_bind_ok _ _ _ _ _ Hload). cbn [fst].
  destruct (range_files _ _ _ _ _ _ _ limit dir c Hst Htu Hplain _ Hs1) as (s' & Hr & Hs').
  exists s'. split; [done|by eapply read_done].
Qed.
End lookup.

(** C4: The reads of the engine are reads of one map: with the caller's layers
    [ls], newest first, over the files of the current manifest, a point
    lookup returns the live value of the newest-wins union at its key and a
    range lookup returns the documented window of that union, in either
    direction and under any limit, through blobs, block indexes, bloom
    filters, the manifest cache and any SST cache; no read fails and no
    object changes. *)
Theorem lsm_reads (ls ts us : list MemMap) (m : Manifest) (etag : string) (s : reading)
    (k : string) (limit : option N) (dir : Direction) (c : cursor) :
  st_objects s.1.1 = objs → coherent prefix s.1 → files_cached objs known s.2 →
  mc_skip_revalidation s.1.2 = false ∨ mc_entry s.1.2 = None →
  stored_manifest prefix epoch s.1.1 = Ok (m, etag) →
  Forall2 (stores objs known) (reverse (mf_sst m)) ts → Forall2 (table_stands objs) ts us →
  Forall plain ls →
  let db := live (merged (ls ++ us)) in
  (∃ s', point_lookup prefix epoch (newest (bt_iter <$> ls) k) k s = (Ok (db !! k), s') ∧
    read_from s s') ∧
  (∃ s', range_lookup prefix epoch ((λ l, filter_rows l dir c) <$> ls) limit dir c s =
      (Ok (scan_spec limit dir c db), s') ∧ read_from s s').
Proof using Type*. intros. split; [by eapply engine_point|by eapply engine_range]. Qed.
End engine.

Section witnesses.
#[local] Existing Instance length_digests.
#[local] Existing Instance still_clock.
#[local] Existing Instance still_clock_laws.
#[local] Instance rd_manifest_json : Json Manifest := countable_json.
#[local] Instance rd_manifest_json_laws : JsonLaws Manifest := countable_json_laws.
#[local] Instance rd_footer_json : Json SstFooter := countable_json.
#[local] Instance rd_footer_json_laws : JsonLaws SstFooter := countable_json_laws.
#[local] Instance rd_pointer_json : Json BlobPointer := countable_json.

(** A store with one file and one staged write. *)
Definition one_file : bytes :=
  match build_sst sample_table 64 with Ok data => data | Err _ => [] end.
Definition one_meta : SstMeta := MkSstMeta "sst/0" 0 0 "a" "b" 0.
Definition one_manifest : Manifest := MkManifest 1 1 [] [one_meta].
Definition one_store : MemInner :=
  (mem_put_opts "manifest.json" (to_vec one_manifest) Create
     (mem_put_opts "sst/0" one_file Create mem_new).2).2.
Definition one_reading : (MemInner * ManifestCache) * LruCache string SstFile :=
  ((one_store, cache_new), lru_new 1000 (λ _ _, 1%N)).
Definition one_layer : MemMap := {["c" := Some (as_bytes "3")]}.

Lemma lsm_reads_witness :
  (∃ s', point_lookup "" 1 None "a" one_reading = (Ok (Some (as_bytes "1")), s') ∧
    st_objects s'.1.1 = st_objects one_store) ∧
  (∃ s', range_lookup "" 1 [[("c", Some (as_bytes "3"))]] (Some 5%N) Next (None, None)
      one_reading = (Ok [KV "a" (as_bytes "1"); KV "c" (as_bytes "3")], s') ∧
    st_objects s'.1.1 = st_objects one_store).
Proof.
  destruct (build_sst_holds sample_table 64) as (data & f & Hb & Hp & Hf).
  { apply (bool_decide_unpack _). vm_compute. exact I. }
  { intros data Hb. apply N.leb_le.
    assert (match build_sst sample_table 64 with
            | Ok d => (blen d <=? U32_MAX)%N | Err _ => true end = true) as Hle
      by (vm_compute; reflexivity).
    by rewrite Hb in Hle. }
  assert (data = one_file) as -> by (unfold one_file; by rewrite Hb).
  assert (table_stands (st_objects one_store) sample_table sample_table) as Hplain.
  { apply plain_stands. intros k v Hk. unfold sample_table in Hk.
    apply lookup_insert_Some in Hk as [[_ [= <-]]|[_ Hk]]; [vm_compute; reflexivity|].
    apply lookup_singleton_Some in Hk as [_ Hk]. discriminate. }
  destruct (lsm_reads "" 1 (st_objects one_store) (λ _, True) [one_layer] [sample_table] [sample_table]
    one_manifest "0000000000000002" one_reading "a" (Some 5%N) Next (None, None))
    as [[s1 [Hpoint [Ho1 _]]] [s2 [Hrange [Ho2 _]]]].
  - reflexivity.
  - split; [exact I|]. split; [|by intros ? ? ?].
    intros b tag Heq. vm_compute in Heq. injection Heq as _ <-. discriminate.
  - intros id g Hid. by vm_compute in Hid.
  - by left.
  - vm_compute. reflexivity.
  - constructor; [|constructor]. split; [exact I|]. exists one_file, "0000000000000001", f.
    split; [vm_compute; reflexivity|]. split; [exact Hp|]. split; [exact Hf|].
    intros k [v Hk]. unfold sample_table in Hk.
    apply lookup_insert_Some in Hk as [[<- _]|[_ Hk]];
      [|apply lookup_singleton_Some in Hk as [<- _]];
      split; apply (bool_decide_unpack _); vm_compute; exact I.
  - constructor; [exact Hplain|constructor].
  - constructor; [|constructor]. intros k v Hk. unfold one_layer in Hk.
    apply lookup_singleton_Some in Hk as [_ [= <-]]. vm_compute. reflexivity.
  - assert (newest (bt_iter <$> [one_layer]) "a" = None) as Hn by (vm_compute; reflexivity).
    assert (live (merged ([one_layer] ++ [sample_table])) !! "a" = Some (as_bytes "1")) as Ha
      by (vm_compute; reflexivity).
    assert ((λ l, filter_rows l Next (None, None)) <$> [one_layer] =
      [[("c", Some (as_bytes "3"))]]) as Hl by (vm_compute; reflexivity).
    assert (scan_spec (Some 5%N) Next (None, None) (live (merged ([one_layer] ++ [sample_table])))
      = [KV "a" (as_bytes "1"); KV "c" (as_bytes "3")]) as Hs by (vm_compute; reflexivity).
    rewrite Hn, Ha in Hpoint. rewrite Hl, Hs in Hrange.
    split; [exists s1|exists s2]; split; assumption.
Defined.
End witnesses.
