(* ===== verification/LsmStore.v ===== *)
(** The single-writer LSM store: [src/src/store/lsm/store.rs].

    An operation that takes the write gate is one undisturbed step: the gate
    serialises the durable write paths and everything they call.  The prefix,
    the epoch and the session of a store never change and are parameters.
    [sleep] has no effect on the state. *)

From stdpp Require Import options.
From S2P Require Import Prelude OrdMap Core Codec Hooks Snapshot Storage Json Ownership Manifest.
From S2P Require Import Blob Probe Wal Merge Sst Cache Read.

Definition WAL_MAINTENANCE_COUNT : nat := 200.
Definition L1_MERGE_COUNT : nat := 16.
Definition MAX_GROUP_WRITES : nat := 256.
Definition FLUSH_THRESHOLD : N := 32 * 1024 * 1024.
Definition L0_COMPACT_BYTES : N := 128 * 1024 * 1024.
Definition L1_BLOCK_SIZE : N := 64 * 1024.

(** ** Orphan logs *)

(** [s.split(sep)]: the segments around the separators. *)
Fixpoint split_on (sep : Ascii.ascii) (s : string) : list string :=
  match s with
  | EmptyString => [EmptyString]
  | String a s =>
      if decide (a = sep) then EmptyString :: split_on sep s
      else match split_on sep s with
           | seg :: segs => String a seg :: segs
           | [] => [String a EmptyString]
           end
  end.

Definition is_orphan_wal_key (relative : string) : bool :=
  match split_on (Ascii.ascii_of_nat 47) relative with
  | [epoch; kind; file] =>
      if bool_decide (kind ≠ "wal") then false
      else
        match strip_prefix "e" epoch with
        | None => false
        | Some digits =>
            match strip_suffix ".log" file with
            | None => false
            | Some num =>
                bool_decide (6 ≤ String.length digits) &&
                forallb is_ascii_digit (as_bytes digits) &&
                bool_decide (String.length num = 8) &&
                forallb is_ascii_digit (as_bytes num)
            end
        end
  | _ => false
  end.

(** ** The writer's state *)

Record PendingWrite := MkPending {
  pw_id : N;
  pw_key : string;
  pw_value : bytes;
  pw_encoded : bytes;
}.

(** [ox_io] is the storage, the manifest cache and the SST cache.  A responder
    that was answered is an entry of [ox_answers]; [ox_pending_ctr] is the
    static [PENDING_CTR]. *)
Record OxKvStore `{Channel} (W C : Type) := MkOx {
  ox_io : (W * ManifestCache) * C;
  ox_mem : MemMap;
  ox_wal_seq : N;
  ox_wal_buffer : list row;
  ox_sst_seq : N;
  ox_pending : list PendingWrite;
  ox_hooks : HookState;
  ox_answers : gmap N (Result ());
  ox_pending_ctr : N;
}.
Arguments MkOx {_ W C} _ _ _ _ _ _ _ _ _.
Arguments ox_io {_ W C} _.
Arguments ox_mem {_ W C} _.
Arguments ox_wal_seq {_ W C} _.
Arguments ox_wal_buffer {_ W C} _.
Arguments ox_sst_seq {_ W C} _.
Arguments ox_pending {_ W C} _.
Arguments ox_hooks {_ W C} _.
Arguments ox_answers {_ W C} _.
Arguments ox_pending_ctr {_ W C} _.

(** [fetch_add(1)] on a [u64]. *)
Definition wrapping_inc (n : N) : N := ((n + 1) mod U64)%N.

(** *** Pure steps of the maintenance *)

(** The estimate of a table's size. *)
Definition mem_estimate (m : MemMap) : N :=
  foldr (λ r n, (blen (as_bytes r.1) + match r.2 with Some v => blen v | None => 0 end + 8 + n)%N)
    0%N (bt_iter m).

(** The loop of [discard_flushed]. *)
Definition discard_rows (rows : list row) (m : MemMap) : MemMap :=
  foldl (λ m r, if bool_decide (m !! r.1 = Some r.2) then base.delete r.1 m else m) m rows.

(** [keys().next()] and [keys().next_back()] with their default. *)
Definition first_key (m : MemMap) : string := default "" (fst <$> head (bt_iter m)).
Definition last_key (m : MemMap) : string := default "" (fst <$> last (bt_iter m)).

Definition sum_sizes (l : list SstMeta) : N := foldr (λ m n, (sm_size m + n)%N) 0%N l.

Definition at_level (lv : N) (l : list SstMeta) : list SstMeta :=
  filter (λ m, sm_level m = lv) l.

Definition key_min (a b : string) : string := if decide (b <ₖ a) then b else a.
Definition key_max (a b : string) : string := if decide (a ≤ₖ b) then b else a.

(** [iter().min().unwrap_or("")], and [max]. *)
Definition min_of (l : list string) : string :=
  match l with [] => "" | k :: l => foldl key_min k l end.
Definition max_of (l : list string) : string :=
  match l with [] => "" | k :: l => foldl key_max k l end.

Definition sort_by_seq : list SstMeta → list SstMeta :=
  sort_by (λ y x, (sm_seq y <? sm_seq x)%N).
Definition sort_by_min_key : list SstMeta → list SstMeta :=
  sort_by (λ y x, bool_decide (sm_min_key y <ₖ sm_min_key x)).

(** [windows(2).min_by_key(..)]: the first of the smallest adjacent pairs. *)
Fixpoint smallest_pair (l : list SstMeta) : option (SstMeta * SstMeta) :=
  match l with
  | a :: ((b :: _) as l') =>
      match smallest_pair l' with
      | Some (c, d) =>
          if (sm_size c + sm_size d <? sm_size a + sm_size b)%N then Some (c, d) else Some (a, b)
      | None => Some (a, b)
      end
  | _ => None
  end.

Definition has_id (l : list SstMeta) (m : SstMeta) : bool :=
  existsb (λ x, bool_decide (sm_id x = sm_id m)) l.

(** The inputs of a compaction: every L0 file, the L1 files that overlap their
    range and, at the L1 bound, the smallest adjacent pair with what overlaps
    it, in the order of their numbers. *)
Definition l1_inputs (ssts l0 : list SstMeta) : list SstMeta :=
  let l0_min := min_of (sm_min_key <$> l0) in
  let l0_max := max_of (sm_max_key <$> l0) in
  let l1 := at_level 1 ssts in
  let overlapping :=
    filter (λ m, ¬ (sm_max_key m <ₖ l0_min ∨ l0_max <ₖ sm_min_key m)) l1 in
  if bool_decide (L1_MERGE_COUNT ≤ length l1) then
    let folded :=
      match smallest_pair (sort_by_min_key l1) with
      | Some (a, b) =>
          let lo := key_min (sm_min_key a) (sm_min_key b) in
          let hi := key_max (sm_max_key a) (sm_max_key b) in
          foldl (λ acc m,
            if bool_decide (lo ≤ₖ sm_max_key m ∧ sm_min_key m ≤ₖ hi) && negb (has_id acc m)
            then acc ++ [m] else acc) overlapping l1
      | None => overlapping
      end in
    sort_by_seq folded
  else overlapping.

Section writer.
Context {W C : Type} `{StorageBackend W} `{Clock W} `{Json Manifest} `{Json SstFooter}
  `{Json OwnershipRecord} `{Digests} `{Json BlobPointer} `{Cache C string SstFile}
  `{Ch : Channel}.
Context (prefix : ObjectPath) (epoch : N) (session : string).

Abbreviation reading := ((W * ManifestCache) * C)%type.
Abbreviation writer := (OxKvStore W C).

Definition set_io (io : reading) (s : writer) : writer :=
  MkOx io (ox_mem s) (ox_wal_seq s) (ox_wal_buffer s) (ox_sst_seq s) (ox_pending s)
    (ox_hooks s) (ox_answers s) (ox_pending_ctr s).
Definition set_mem (m : MemMap) (s : writer) : writer :=
  MkOx (ox_io s) m (ox_wal_seq s) (ox_wal_buffer s) (ox_sst_seq s) (ox_pending s)
    (ox_hooks s) (ox_answers s) (ox_pending_ctr s).
Definition set_wal_seq (n : N) (s : writer) : writer :=
  MkOx (ox_io s) (ox_mem s) n (ox_wal_buffer s) (ox_sst_seq s) (ox_pending s)
    (ox_hooks s) (ox_answers s) (ox_pending_ctr s).
Definition set_wal_buffer (b : list row) (s : writer) : writer :=
  MkOx (ox_io s) (ox_mem s) (ox_wal_seq s) b (ox_sst_seq s) (ox_pending s)
    (ox_hooks s) (ox_answers s) (ox_pending_ctr s).
Definition set_sst_seq (n : N) (s : writer) : writer :=
  MkOx (ox_io s) (ox_mem s) (ox_wal_seq s) (ox_wal_buffer s) n (ox_pending s)
    (ox_hooks s) (ox_answers s) (ox_pending_ctr s).
Definition set_pending (p : list PendingWrite) (s : writer) : writer :=
  MkOx (ox_io s) (ox_mem s) (ox_wal_seq s) (ox_wal_buffer s) (ox_sst_seq s) p
    (ox_hooks s) (ox_answers s) (ox_pending_ctr s).
Definition set_hooks (h : HookState) (s : writer) : writer :=
  MkOx (ox_io s) (ox_mem s) (ox_wal_seq s) (ox_wal_buffer s) (ox_sst_seq s) (ox_pending s)
    h (ox_answers s) (ox_pending_ctr s).
Definition set_answers (a : gmap N (Result ())) (s : writer) : writer :=
  MkOx (ox_io s) (ox_mem s) (ox_wal_seq s) (ox_wal_buffer s) (ox_sst_seq s) (ox_pending s)
    (ox_hooks s) a (ox_pending_ctr s).
Definition set_pending_ctr (n : N) (s : writer) : writer :=
  MkOx (ox_io s) (ox_mem s) (ox_wal_seq s) (ox_wal_buffer s) (ox_sst_seq s) (ox_pending s)
    (ox_hooks s) (ox_answers s) n.

Definition on_io {A} : Op reading A → Op writer A := op_zoom ox_io set_io.
Definition load : Op writer (Manifest * string) :=
  on_io (on_engine (load_manifest prefix epoch 1000)).
Definition load_fresh : Op writer (Manifest * string) :=
  on_io (on_engine (load_manifest prefix epoch 0)).
Definition clear_cache : Op writer () := on_io clear_manifest_cache.
Definition update_cache (m : Manifest) (etag : string) : Op writer () :=
  on_io (on_engine (publish_cache m etag)).

(** [let _ = op.await]. *)
Definition op_ignore {S A} (m : Op S A) : Op S () := try! _ := m in op_ret ().

Definition etag_opt (etag : string) : option string :=
  if bool_decide (etag = "") then None else Some etag.

(** The write-once upload of the log, of an L0 file and of an L1 file: a lost
    [Create] is accepted only when the object already holds the bytes. *)
Definition put_new (what : string) (path : ObjectPath) (num : N) (payload : bytes) :
    Op writer () :=
  try! r := on_io (on_disk (st_put_opts path payload Create)) in
  match r with
  | Ok _ => op_ret ()
  | Err (CasConflict _) =>
      try! r := on_io (on_disk (st_get path)) in
      match r with
      | Err e => op_throw (Storage ("read back " +:+ what +:+ " failed: " +:+ Core.to_string e))
      | Ok existing =>
          if bool_decide (go_bytes existing ≠ payload) then
            op_throw (Storage (what +:+ " sequence " +:+ pretty num +:+
              " already holds different bytes; refusing to overwrite"))
          else op_ret ()
      end
  | Err e => op_throw (Storage ("put " +:+ what +:+ " failed: " +:+ Core.to_string e))
  end.

(** The ownership test before a manifest write. *)
Definition check_owner (missing : string) : Op writer () :=
  let! cur := on_io (on_disk (read_ownership prefix)) in
  match cur with
  | Some rec =>
      if bool_decide (or_epoch rec = epoch ∧ or_owner_session rec = session) then op_ret ()
      else op_throw (Fenced ("fenced: epoch " +:+ pretty epoch +:+ " session " +:+ session +:+
             " superseded by epoch " +:+ pretty (or_epoch rec) +:+ " session " +:+
             or_owner_session rec))
  | None => op_throw (Fenced ("fenced: ownership missing " +:+ missing))
  end.

Definition bump_version (m : Manifest) (wal : list string) (sst : list SstMeta) : Manifest :=
  MkManifest (wrapping_inc (mf_version m)) (mf_epoch m) wal sst.

Definition cas (m : Manifest) (etag : string) : Op writer string :=
  on_io (on_disk (cas_manifest prefix m (etag_opt etag))).

(** The large values of some entries, moved to blobs. *)
Fixpoint spill_rows (block_size : N) (rows : list row) : Op writer (list row) :=
  match rows with
  | [] => op_ret []
  | (k, v) :: rows =>
      let! v' :=
        match v with
        | Some b =>
            if is_overflow k b block_size then
              let! path := on_io (on_disk (put_blob prefix epoch b)) in
              op_ret (Some (encode_blob_pointer path (blen b) (crc32 b)))
            else op_ret (Some b)
        | None => op_ret None
        end in
      let! rest := spill_rows block_size rows in
      op_ret ((k, v') :: rest)
  end.

Definition apply_mem (updates : list row) : Op writer () :=
  op_modify (λ s, set_mem (apply_rows updates (ox_mem s)) s).

(** *** Flush *)

Definition discard_flushed (snapshot : MemMap) : Op writer () :=
  op_modify (λ s, set_mem (discard_rows (bt_iter snapshot) (ox_mem s)) s).

Definition find_id (id : string) (l : list SstMeta) : option SstMeta :=
  list_find (λ m, sm_id m = id) l ≫= λ r, Some r.2.

(** The publication of an uploaded L0 file. *)
Definition publish_l0 (snapshot : MemMap) (meta : SstMeta) : Op writer (option SstMeta) :=
  let! loaded := load in
  let '(m, etag) := loaded in
  match find_id (sm_id meta) (mf_sst m) with
  | Some existing => discard_flushed snapshot ;; op_ret (Some existing)
  | None =>
      let m := bump_version m (mf_wal m) (mf_sst m ++ [meta]) in
      try! r := cas m etag in
      match r with
      | Ok new_etag =>
          update_cache m new_etag ;; discard_flushed snapshot ;; op_ret (Some meta)
      | Err (CasConflict detail) =>
          clear_cache ;;
          let! reloaded := load_fresh in
          match find_id (sm_id meta) (mf_sst reloaded.1) with
          | Some existing => discard_flushed snapshot ;; op_ret (Some existing)
          | None => op_throw (Storage ("manifest CAS conflict after backoff retry: " +:+ detail))
          end
      | Err e => op_throw e
      end
  end.

Definition flush_mem_to_sst_inner (force : bool) : Op writer (option SstMeta) :=
  let! snapshot := op_gets ox_mem in
  if bool_decide (snapshot = ∅) || (negb force && (mem_estimate snapshot <? FLUSH_THRESHOLD)%N)
  then op_ret None
  else
    let! rows := spill_rows DEFAULT_BLOCK_SIZE (bt_iter snapshot) in
    let sst_entries : MemMap := list_to_map rows in
    let! sst_bytes := op_lift (build_sst sst_entries DEFAULT_BLOCK_SIZE) in
    if bool_decide (sst_bytes = []) then op_ret None
    else
      let! num := op_gets ox_sst_seq in
      op_modify (λ s, set_sst_seq (wrapping_inc (ox_sst_seq s)) s) ;;
      let id := sst_path prefix epoch 0 num in
      put_new "sst" id num sst_bytes ;;
      check_owner "before manifest CAS" ;;
      publish_l0 snapshot (MkSstMeta id num 0 (first_key sst_entries) (last_key sst_entries)
                             (blen sst_bytes)).

(** *** Garbage collection *)

(** Deletes the collected logs in order; the count of those deleted. *)
Fixpoint delete_wals (ids : list string) (deleted : nat) : Op writer nat :=
  match ids with
  | [] => op_ret deleted
  | id :: ids =>
      try! r := on_io (on_disk (st_delete id)) in
      match r with
      | Ok _ => delete_wals ids (S deleted)
      | Err e =>
          op_throw (Storage ("delete wal " +:+ id +:+ " failed: " +:+ Core.to_string e))
      end
  end.

Fixpoint gc_wal_loop (attempts : nat) : Op writer nat :=
  match attempts with
  | O => op_ret 0
  | S attempts =>
      let! loaded := load in
      let '(m, etag) := loaded in
      if bool_decide (mf_wal m = [] ∨ mf_sst m = []) then op_ret 0
      else
        let m' := bump_version m [] (mf_sst m) in
        try! r := cas m' etag in
        match r with
        | Ok new_etag => update_cache m' new_etag ;; delete_wals (mf_wal m) 0
        | Err (CasConflict _) => clear_cache ;; gc_wal_loop attempts
        | Err e => op_throw e
        end
  end.

Definition gc_wal_inner : Op writer nat := gc_wal_loop 4.

(** One listed key: whether the orphan pass deletes it. *)
Definition is_orphan (m : Manifest) (k : ObjectPath) : bool :=
  match strip_prefix prefix k with
  | None => false
  | Some relative =>
      is_orphan_wal_key (default relative (strip_prefix "/" relative)) &&
      negb (bool_decide (k ∈ mf_wal m))
  end.

Fixpoint delete_orphans (m : Manifest) (keys : list ObjectPath) (deleted : nat) :
    Op writer nat :=
  match keys with
  | [] => op_ret deleted
  | k :: keys =>
      if is_orphan m k then
        try! r := on_io (on_disk (st_delete k)) in
        match r with
        | Ok _ => delete_orphans m keys (S deleted)
        | Err _ => op_ret deleted
        end
      else delete_orphans m keys deleted
  end.

Definition gc_orphans_inner : Op writer nat :=
  let! cur := on_io (on_disk (read_ownership prefix)) in
  if match cur with
     | Some rec => bool_decide (or_epoch rec = epoch ∧ or_owner_session rec = session)
     | None => false
     end
  then
    let! loaded := load_fresh in
    try! r := on_io (on_disk (st_list prefix)) in
    match r with
    | Ok keys => delete_orphans loaded.1 keys 0
    | Err _ => op_ret 0
    end
  else op_ret 0.

(** *** Compaction *)

(** The resolved rows of the inputs, newest first. *)
Fixpoint read_inputs (metas : list SstMeta) : Op writer (list (list row)) :=
  match metas with
  | [] => op_ret []
  | meta :: metas =>
      let! sst := on_io (fetch_sst (sm_id meta)) in
      let! scan := op_lift (scan_with_tombstones sst None None None) in
      let! resolved := on_io (resolve_rows scan) in
      let! rest := read_inputs metas in
      op_ret (resolved :: rest)
  end.

(** [let _ = delete(..).await] for every input. *)
Fixpoint delete_inputs (metas : list SstMeta) : Op writer () :=
  match metas with
  | [] => op_ret ()
  | m :: metas => op_ignore (on_io (on_disk (st_delete (sm_id m)))) ;; delete_inputs metas
  end.

Definition without (inputs l : list SstMeta) : list SstMeta :=
  filter (λ m, has_id inputs m = false) l.

(** No live key is left: the inputs go, nothing takes their place. *)
Fixpoint drop_inputs (attempts : nat) (inputs : list SstMeta) : Op writer (option SstMeta) :=
  match attempts with
  | O => op_ret None
  | S attempts =>
      let! loaded := load in
      let '(m, etag) := loaded in
      let kept := without inputs (mf_sst m) in
      if bool_decide (length kept = length (mf_sst m)) then op_ret None
      else
        let m' := bump_version m (mf_wal m) kept in
        try! r := cas m' etag in
        match r with
        | Ok new_etag => update_cache m' new_etag ;; delete_inputs inputs ;; op_ret None
        | Err (CasConflict _) => clear_cache ;; drop_inputs attempts inputs
        | Err e => op_throw e
        end
  end.

(** The removal of a replaced file from the SST cache and the storage. *)
Fixpoint retire_inputs (metas : list SstMeta) : Op writer () :=
  match metas with
  | [] => op_ret ()
  | m :: metas =>
      on_io (op_modify (λ io : reading, (io.1, cache_remove (sm_id m) io.2))) ;;
      op_ignore (on_io (on_disk (st_delete (sm_id m)))) ;; retire_inputs metas
  end.

(** The swap of the inputs for the new L1 file. *)
Fixpoint swap_inputs (attempts : nat) (inputs : list SstMeta) (new_meta : SstMeta) :
    Op writer (option SstMeta) :=
  match attempts with
  | O => op_ret None
  | S attempts =>
      let! loaded := load in
      let '(m, etag) := loaded in
      match find_id (sm_id new_meta) (mf_sst m) with
      | Some existing => op_ret (Some existing)
      | None =>
          let m' := bump_version m (mf_wal m)
                      (sort_by_seq (without inputs (mf_sst m) ++ [new_meta])) in
          try! r := cas m' etag in
          match r with
          | Ok new_etag =>
              update_cache m' new_etag ;; retire_inputs inputs ;; op_ret (Some new_meta)
          | Err (CasConflict _) => clear_cache ;; swap_inputs attempts inputs new_meta
          | Err e => op_throw e
          end
      end
  end.

Definition compact_inner : Op writer (option SstMeta) :=
  let! snapshot := load in
  let ssts := mf_sst snapshot.1 in
  let l0 := at_level 0 ssts in
  if bool_decide (length l0 < 4) && (sum_sizes l0 <=? L0_COMPACT_BYTES)%N &&
     bool_decide (length (at_level 1 ssts) < L1_MERGE_COUNT)
  then op_ret None
  else
    let l1 := l1_inputs ssts l0 in
    if bool_decide (l0 = [] ∧ l1 = []) then op_ret None
    else
      let! sources := read_inputs (reverse l0 ++ reverse l1) in
      let l1_entries : MemMap :=
        list_to_map ((λ kv, (key kv, Some (value kv))) <$> merge_sources sources) in
      let! rows := spill_rows L1_BLOCK_SIZE (bt_iter l1_entries) in
      let final_entries : MemMap := list_to_map rows in
      if bool_decide (final_entries = ∅) then drop_inputs 4 (l0 ++ l1)
      else
        let! sst_bytes := op_lift (build_sst final_entries L1_BLOCK_SIZE) in
        let! num := op_gets ox_sst_seq in
        op_modify (λ s, set_sst_seq (wrapping_inc (ox_sst_seq s)) s) ;;
        let id := sst_path prefix epoch 1 num in
        put_new "L1 sst" id num sst_bytes ;;
        check_owner "before compaction CAS" ;;
        swap_inputs 4 (l0 ++ l1)
          (MkSstMeta id num 1 (first_key final_entries) (last_key final_entries)
             (blen sst_bytes)).

(** *** Durable appends *)

Definition maintain_wal (wal_len : nat) : Op writer () :=
  if bool_decide (wal_len < WAL_MAINTENANCE_COUNT) then op_ret ()
  else
    try! r := flush_mem_to_sst_inner true in
    match r with
    | Err _ => op_ret ()
    | Ok _ => op_ignore gc_wal_inner ;; op_ignore gc_orphans_inner
    end.

Definition maintain_after_write (wal_len : nat) : Op writer () :=
  op_ignore (flush_mem_to_sst_inner false) ;;
  op_ignore compact_inner ;;
  maintain_wal wal_len.

(** The listing of an uploaded log; [attempt] counts from 0 to 3. *)
Fixpoint list_wal (attempts attempt : nat) (wal_id : string) (updates : list row) :
    Op writer () :=
  match attempts with
  | O => op_ret ()
  | S attempts =>
      let! loaded := load in
      let '(m, etag) := loaded in
      if bool_decide (wal_id ∈ mf_wal m) then
        apply_mem updates ;; maintain_after_write (length (mf_wal m))
      else
        let m' := bump_version m (mf_wal m ++ [wal_id]) (mf_sst m) in
        try! r := cas m' etag in
        match r with
        | Ok new_etag =>
            update_cache m' new_etag ;; apply_mem updates ;;
            maintain_after_write (length (mf_wal m'))
        | Err (CasConflict detail) =>
            clear_cache ;;
            if bool_decide (attempt = 3) then
              op_throw (CasConflict ("wal manifest CAS conflict after retries: " +:+ detail))
            else list_wal attempts (S attempt) wal_id updates
        | Err e => op_throw e
        end
  end.

Definition append_wal_locked (payload : bytes) (updates : list row) : Op writer () :=
  let! num := op_gets ox_wal_seq in
  op_modify (λ s, set_wal_seq (wrapping_inc (ox_wal_seq s)) s) ;;
  let path := wal_path prefix epoch num in
  put_new "wal" path num payload ;;
  check_owner "after wal put" ;;
  list_wal 4 0 path updates.

Definition restore_staged_locked (ops : list row) : Op writer () :=
  op_modify (λ s, set_wal_buffer (ops ++ ox_wal_buffer s) s).

Definition drain_staged_locked : Op writer () :=
  let! ops := op_gets ox_wal_buffer in
  op_modify (set_wal_buffer []) ;;
  match ops with
  | [] => op_ret ()
  | _ =>
      match encode_ops ops with
      | Err e => restore_staged_locked ops ;; op_throw e
      | Ok payload =>
          try! r := append_wal_locked payload [] in
          match r with
          | Err e => restore_staged_locked ops ;; op_throw e
          | Ok _ => op_ret ()
          end
      end
  end.

(** *** The public operations *)

Definition stage_set (k : string) (v : bytes) : Op writer () :=
  op_modify (λ s, set_mem (<[k := Some v]> (ox_mem s)) s) ;;
  op_modify (λ s, set_wal_buffer (ox_wal_buffer s ++ [(k, Some v)]) s).

Definition stage_delete (k : string) : Op writer () :=
  op_modify (λ s, set_mem (<[k := None]> (ox_mem s)) s) ;;
  op_modify (λ s, set_wal_buffer (ox_wal_buffer s ++ [(k, None)]) s).

(** Under the write gate. *)
Definition flush : Op writer () := drain_staged_locked.
Definition flush_mem_to_sst : Op writer (option SstMeta) := flush_mem_to_sst_inner false.
Definition flush_mem_to_sst_force : Op writer (option SstMeta) := flush_mem_to_sst_inner true.
Definition gc_wal : Op writer nat := gc_wal_inner.
Definition gc_orphans : Op writer nat := gc_orphans_inner.
Definition compact : Op writer (option SstMeta) := compact_inner.

Definition ox_get_bytes (k : string) : Op writer (option bytes) :=
  retry_once_not_found clear_cache
    (let! staged := op_gets (λ s, ox_mem s !! k) in
     on_io (point_lookup prefix epoch staged k)).

Definition ox_has (k : string) : Op writer bool :=
  let! v := ox_get_bytes k in op_ret (bool_decide (is_Some v)).

Definition ox_gets_bytes (limit : option N) (dir : Direction) (c : cursor) :
    Op writer (list KeyValue) :=
  retry_once_not_found clear_cache
    (let! mem := op_gets ox_mem in
     on_io (range_lookup prefix epoch [filter_rows mem dir c] limit dir c)).

Definition manifest_version : Op writer N :=
  let! m := load in op_ret (mf_version m.1).

Definition ox_notify (ev : ChangeEvent) : Op writer () :=
  op_modify (λ s, set_hooks (hooks_notify ev (ox_hooks s)).2 s).

Definition ox_delete (k : string) : Op writer bool :=
  drain_staged_locked ;;
  let! old_value := ox_get_bytes k in
  if bool_decide (is_Some old_value) then
    let! payload := op_lift (encode_ops [(k, None)]) in
    append_wal_locked payload [(k, None)] ;;
    ox_notify (Event k Kind_Delete old_value None 0) ;;
    op_ret true
  else op_ret false.

Definition persist_batch (batch : list PendingWrite) : Op writer () :=
  match batch with
  | [] => op_ret ()
  | _ =>
      drain_staged_locked ;;
      append_wal_locked (mjoin (pw_encoded <$> batch))
        ((λ e, (pw_key e, Some (pw_value e))) <$> batch)
  end.

(** [put_bytes] up to the gate: the write is encoded and queued. *)
Definition put_enqueue (k : string) (v : bytes) : Op writer N :=
  let! encoded := op_lift (map_err (λ e, Storage ("encode wal: " +:+ Core.to_string e))
                             (encode_record [] k v)) in
  let! id := op_gets ox_pending_ctr in
  op_modify (λ s, set_pending_ctr (wrapping_inc (ox_pending_ctr s)) s) ;;
  op_modify (λ s, set_pending (ox_pending s ++ [MkPending id k v encoded]) s) ;;
  op_ret id.

Definition leader_lost : StoreError :=
  Storage "group commit leader lost; write fate unknown — read back to confirm".

(** [put_bytes] under the gate: a write that was answered returns its answer;
    otherwise the holder leads batches until its own was in one.  A round
    takes a write off the queue, whose length is enough fuel.  With an empty
    queue and no answer the code waits for a leader that holds the gate no
    longer; that wait ends in the error of a dropped responder. *)
Fixpoint put_lead (fuel : nat) (id : N) : Op writer () :=
  match fuel with
  | O => op_throw leader_lost
  | S fuel =>
      let! answer := op_gets (λ s, ox_answers s !! id) in
      match answer with
      | Some r => op_lift r
      | None =>
          let! batch := op_gets (λ s, take MAX_GROUP_WRITES (ox_pending s)) in
          op_modify (λ s, set_pending (drop MAX_GROUP_WRITES (ox_pending s)) s) ;;
          match batch with
          | [] => op_throw leader_lost
          | _ =>
              try! result := persist_batch batch in
              op_modify (λ s, set_answers
                (foldl (λ a e, <[pw_id e := result]> a) (ox_answers s) batch) s) ;;
              if bool_decide (id ∈ pw_id <$> batch) then op_lift result else put_lead fuel id
          end
      end
  end.

Definition ox_put_bytes (k : string) (v : bytes) : Op writer () :=
  let! id := put_enqueue k v in
  let! queued := op_gets (λ s, length (ox_pending s)) in
  put_lead (S queued) id.

Definition ox_view : StoreView writer := View ox_get_bytes ox_has ox_gets_bytes.

Definition ox_set_bytes (k : string) (v : bytes) : Op writer (option bytes) :=
  let! vs := op_gets (λ s, validators (ox_hooks s)) in
  validate_key vs ox_view k v ;;
  let! prev := ox_get_bytes k in
  ox_put_bytes k v ;;
  ox_notify (Event k Kind_Set prev (Some v) 0) ;;
  op_ret prev.

#[export] Instance ox_GetSet : GetSet writer := {|
  get_bytes := ox_get_bytes;
  has := ox_has;
  delete := ox_delete;
  set_bytes := ox_set_bytes;
  put_bytes := ox_put_bytes;
  gets_bytes := ox_gets_bytes;
|}.

Definition ox_on_hooks (f : HookState → HookState) (s : writer) : writer :=
  set_hooks (f (ox_hooks s)) s.

#[export] Instance OxKvStore_Hooks : Hooks writer := {|
  hk_add_validator v := ox_on_hooks (add_validator v);
  hk_add_observer scope o := ox_on_hooks (add_observer scope o);
  hk_watch_scope scope := ox_on_hooks (watch_scope scope);
  hk_current_seq s := current_seq (subscribers (ox_hooks s));
  hk_events_since n s := events_since n (subscribers (ox_hooks s));
|}.
End writer.

(** ** The builder *)

Definition parse_u64 : string → option N := parse_uint U64.

(** The number after the highest one in use. *)
Definition high_water (nums : list (option N)) : N :=
  foldl (λ hi n, match n with Some n => N.max hi (n + 1) | None => hi end)%N 0%N nums.

Definition wal_number (epoch : N) (id : string) : option N :=
  strip_prefix (format_epoch epoch +:+ "/wal/") id ≫= λ rest,
  strip_suffix ".log" rest ≫= parse_u64.

Definition sst_number (id : string) : option N :=
  if str_contains id "/sst/" then
    last (split_on (Ascii.ascii_of_nat 47) id) ≫= λ name, strip_suffix ".sst" name ≫= parse_u64
  else None.

Section builder.
Context {W C : Type} `{StorageBackend W} `{Clock W} `{Json Manifest} `{Json SstFooter}
  `{Json OwnershipRecord} `{Digests} `{Json BlobPointer} `{Cache C string SstFile}
  `{Ch : Channel}.

(** [build_with_cache] with a configured storage and session; the store and
    its epoch.  Replay runs on the storage, the manifest cache and the
    table. *)
Definition build_with_cache (prefix : ObjectPath) (session : string)
    (skip_probe assume_single_writer : bool) (cache : C) :
    Op W (N * OxKvStore W C) := λ w,
  ((if skip_probe then op_ret () else probe_store prefix) ;;
   let! rec := acquire_ownership prefix session in
   λ w,
     let mc := set_skip_revalidation assume_single_writer cache_new in
     let replay : Op ((W * ManifestCache) * MemMap) Manifest :=
       let! loaded := on_cached (load_manifest prefix (or_epoch rec) 1000) in
       replay_listed_wals prefix (or_epoch rec) (mf_wal loaded.1) ;;
       op_ret loaded.1 in
     let '(r, ((w, mc), mem)) := replay ((w, mc), ∅) in
     (res_map (λ m,
        (or_epoch rec,
         MkOx ((w, mc), cache) mem (high_water (wal_number (or_epoch rec) <$> mf_wal m)) []
           (high_water ((λ m, sst_number (sm_id m)) <$> mf_sst m)) [] hooks_default ∅ 0%N)) r,
      w)) w.
End builder.
