(* ===== verification/LsmPaths.v ===== *)
(** The object layout: where the objects of an epoch lie, that their paths
    determine their numbers, and that objects of different kinds never share
    a path. *)

From stdpp Require Import options.
From S2P Require Import Prelude OrdMap Core Codec Hooks Storage Json Ownership Manifest Blob.
From S2P Require Import LsmStore.

(** ** Paths *)

Fixpoint last_char (s : string) : option Ascii.ascii :=
  match s with
  | EmptyString => None
  | String a s => match last_char s with Some c => Some c | None => Some a end
  end.

Lemma last_char_app s t :
  last_char (s +:+ t) = match last_char t with Some c => Some c | None => last_char s end.
Proof.
  induction s as [|a s IH].
  - change ("" +:+ t) with t. by destruct (last_char t).
  - change (String a s +:+ t) with (String a (s +:+ t)). simpl. rewrite IH.
    by destruct (last_char t).
Qed.

Lemma last_char_child p s c : last_char s = Some c → last_char (child p s) = Some c.
Proof.
  intros Hs. unfold child. destruct (path_is_empty p); [done|].
  by rewrite !last_char_app, Hs.
Qed.

Lemma ownership_not_wal prefix epoch num : ownership_path prefix ≠ wal_path prefix epoch num.
Proof.
  intros Heq. apply (f_equal last_char) in Heq. unfold ownership_path, wal_path in Heq.
  rewrite (last_char_child (child (epoch_prefix prefix epoch) "wal") _ (Ascii.ascii_of_nat 103))
    in Heq by by rewrite last_char_app.
  destruct (path_is_empty prefix); [done|].
  by rewrite (last_char_child prefix _ (Ascii.ascii_of_nat 110)) in Heq.
Qed.

(** ** Keys of logs *)

Definition no_char (c : Ascii.ascii) (s : string) : Prop :=
  c ∉ String.list_ascii_of_string s.

#[export] Instance no_char_dec c s : Decision (no_char c s).
Proof. unfold no_char. apply _. Defined.

Lemma split_on_no c s : no_char c s → split_on c s = [s].
Proof.
  induction s as [|a s IH]; [done|]. unfold no_char. cbn. intros Hn.
  rewrite decide_False by (intros ->; apply Hn; by left).
  by rewrite IH by (intros ?; apply Hn; by right).
Qed.

Lemma split_on_app c s t :
  no_char c s → split_on c (s +:+ String c t) = s :: split_on c t.
Proof.
  induction s as [|a s IH]; intros Hn.
  - change ("" +:+ String c t) with (String c t). simpl. by rewrite decide_True.
  - change (String a s +:+ String c t) with (String a (s +:+ String c t)).
    unfold no_char in Hn. cbn in *. rewrite decide_False by (intros ->; apply Hn; by left).
    by rewrite IH by (intros ?; apply Hn; by right).
Qed.

Lemma split_on_ne c s : split_on c s ≠ [].
Proof.
  destruct s as [|b s]; simpl; [done|]. case_decide; [done|]. by destruct (split_on c s).
Qed.

Fixpoint rejoin (c : Ascii.ascii) (l : list string) : string :=
  match l with
  | [] => ""
  | [s] => s
  | s :: l => s +:+ String c (rejoin c l)
  end.

Lemma rejoin_split c s : rejoin c (split_on c s) = s.
Proof.
  induction s as [|a s IH]; [done|]. simpl.
  pose proof (split_on_ne c s) as Hne.
  destruct (split_on c s) as [|seg segs] eqn:Hs; [done|]. case_decide as Ha.
  - subst a. rewrite <-IH. by destruct segs.
  - rewrite <-IH. by destruct segs.
Qed.

Definition digits (s : string) : Prop := forallb is_ascii_digit (as_bytes s) = true.

Lemma digits_no_slash s : digits s → no_char (Ascii.ascii_of_nat 47) s.
Proof.
  unfold digits, no_char, as_bytes. induction s as [|a s IH]; cbn; [by intros _ ?%elem_of_nil|].
  intros [Ha Hs]%andb_true_iff [Heq|Hin]%elem_of_cons; [|by apply IH].
  subst a. by vm_compute in Ha.
Qed.

(** [e<six digits or more>/wal/<eight digits>.log]. *)
Definition log_key (s : string) : Prop :=
  ∃ e num, s = "e" +:+ e +:+ "/wal/" +:+ num +:+ ".log" ∧
    digits e ∧ 6 ≤ String.length e ∧ digits num ∧ String.length num = 8.

Lemma no_char_app c s t : no_char c s → no_char c t → no_char c (s +:+ t).
Proof.
  unfold no_char. intros Hs Ht. induction s as [|a s IH]; [done|].
  change (String a s +:+ t) with (String a (s +:+ t)). cbn in *.
  rewrite not_elem_of_cons in *. destruct Hs. auto.
Qed.

Lemma is_orphan_wal_key_spec s : is_orphan_wal_key s = true ↔ log_key s.
Proof.
  unfold is_orphan_wal_key. split.
  - destruct (split_on _ s) as [|epoch [|kind [|file [|]]]] eqn:Hs; try done.
    pose proof (rejoin_split (Ascii.ascii_of_nat 47) s) as Hj. rewrite Hs in Hj.
    case_bool_decide as Hk; [done|]. subst kind.
    destruct (strip_prefix "e" epoch) as [e|] eqn:He; [|done].
    destruct (strip_suffix ".log" file) as [num|] eqn:Hf; [|done].
    apply strip_prefix_Some in He. apply strip_suffix_Some in Hf. subst epoch file.
    rewrite !andb_true_iff, !bool_decide_eq_true. intros [[[? ?] ?] ?].
    exists e, num. split; [|done]. by rewrite <-Hj.
  - intros (e & num & -> & He & Hle & Hn & Hln).
    assert (split_on (Ascii.ascii_of_nat 47) ("e" +:+ e +:+ "/wal/" +:+ num +:+ ".log") =
      ["e" +:+ e; "wal"; num +:+ ".log"]) as ->.
    { change ("/wal/" +:+ num +:+ ".log") with
        (String (Ascii.ascii_of_nat 47) ("wal" +:+ String (Ascii.ascii_of_nat 47) (num +:+ ".log"))).
      rewrite <-(string_app_assoc "e" e), split_on_app, split_on_app, split_on_no; [done|..].
      - apply no_char_app; [by apply digits_no_slash|by apply (bool_decide_unpack _)].
      - by apply (bool_decide_unpack _).
      - apply no_char_app; [by apply (bool_decide_unpack _)|by apply digits_no_slash]. }
    rewrite bool_decide_eq_false_2 by auto.
    rewrite (proj2 (strip_prefix_Some "e" _ e)), (proj2 (strip_suffix_Some ".log" _ num)) by done.
    unfold digits in *. by rewrite He, Hn, !bool_decide_eq_true_2.
Qed.

(** ** Numbers in names *)

Lemma as_bytes_cons a s : as_bytes (String a s) = Ascii.byte_of_ascii a :: as_bytes s.
Proof. done. Qed.

Lemma as_bytes_app s t : as_bytes (s +:+ t) = as_bytes s ++ as_bytes t.
Proof.
  induction s as [|a s IH]; [done|].
  change (String a s +:+ t) with (String a (s +:+ t)). by rewrite !as_bytes_cons, IH.
Qed.

Lemma parse_digits_pretty x s :
  (x < U64)%N → parse_digits U64 (as_bytes (pretty_N_go x s)) 0 = parse_digits U64 (as_bytes s) x.
Proof.
  revert s. induction (N.lt_wf_0 x) as [x _ IH]. intros s Hx.
  destruct (decide (x = 0)%N) as [->|Hne]; [by rewrite pretty_N_go_0|].
  rewrite pretty_N_go_step by lia.
  assert (x `div` 10 < x)%N as Hlt by (apply N.div_lt; lia).
  rewrite IH by (done || lia). rewrite as_bytes_cons.
  cbn [parse_digits].
  assert (x `mod` 10 < 10)%N as Hm by (by apply N.mod_lt).
  pose proof (N.div_mod x 10) as Hd.
  assert (∀ d, (d < 10)%N →
    is_ascii_digit (Ascii.byte_of_ascii (pretty_N_char d)) = true ∧
    (Byte.to_N (Ascii.byte_of_ascii (pretty_N_char d)) - 48 = d)%N) as Hdig.
  { intros d Hd'. assert (d = 0 ∨ d = 1 ∨ d = 2 ∨ d = 3 ∨ d = 4 ∨ d = 5 ∨ d = 6 ∨ d = 7 ∨
      d = 8 ∨ d = 9)%N as Hc by lia. by destruct_or! Hc; subst d. }
  destruct (Hdig _ Hm) as [-> ->].
  replace (x `div` 10 * 10 + x `mod` 10)%N with x by lia.
  by rewrite (proj2 (N.ltb_lt x U64) Hx).
Qed.

Lemma parse_digits_zeros n l acc :
  acc = 0%N → parse_digits U64 (replicate n x30 ++ l) acc = parse_digits U64 l 0.
Proof. intros ->. induction n as [|n IH]; [done|]. by cbn [replicate app parse_digits]. Qed.

Lemma parse_digits_zero_pad w n :
  (n < U64)%N → parse_digits U64 (as_bytes (zero_pad w n)) 0 = Some n.
Proof.
  intros Hn. unfold zero_pad. rewrite as_bytes_app, as_of_bytes, parse_digits_zeros by done.
  unfold pretty, pretty_N. case_decide; [by subst|]. by rewrite parse_digits_pretty.
Qed.

Lemma zero_pad_digits w n : Forall (λ b, is_ascii_digit b = true) (as_bytes (zero_pad w n)).
Proof.
  unfold zero_pad. rewrite as_bytes_app, as_of_bytes. apply Forall_app. split.
  { by apply Forall_replicate. }
  unfold pretty, pretty_N. case_decide; [by repeat constructor|].
  assert (∀ s, Forall (λ b, is_ascii_digit b = true) (as_bytes s) →
    Forall (λ b, is_ascii_digit b = true) (as_bytes (pretty_N_go n s))) as Hgo.
  { clear. induction (N.lt_wf_0 n) as [n _ IH]. intros s Hs.
    destruct (decide (n = 0)%N) as [->|Hne]; [by rewrite pretty_N_go_0|].
    rewrite pretty_N_go_step by lia. apply IH; [apply N.div_lt; lia|]. constructor; [|done].
    unfold pretty_N_char. by repeat case_match. }
  apply Hgo. constructor.
Qed.

Lemma zero_pad_ne w n s : zero_pad w n ≠ "+" +:+ s ∧ zero_pad w n ≠ "".
Proof.
  pose proof (zero_pad_digits w n) as Hd. split.
  - intros Heq. rewrite Heq in Hd. by apply Forall_cons in Hd as [? _].
  - unfold zero_pad. intros Heq. apply (f_equal String.length) in Heq.
    rewrite string_length_app in Heq. assert (String.length (pretty n) = 0) as Hl
      by (simpl in Heq; lia). unfold pretty, pretty_N in Hl. case_decide; [done|].
    assert (∀ x s, String.length s ≤ String.length (pretty_N_go x s) ∧
      (x ≠ 0%N → String.length s < String.length (pretty_N_go x s))) as Hgo.
    { clear. intros x. induction (N.lt_wf_0 x) as [x _ IH]. intros s.
      destruct (decide (x = 0)%N) as [->|Hne]; [by rewrite pretty_N_go_0|].
      rewrite pretty_N_go_step by lia.
      destruct (IH (x `div` 10)%N ltac:(apply N.div_lt; lia)
        (String (pretty_N_char (x `mod` 10)) s)) as [Hle _]. simpl in Hle. lia. }
    destruct (Hgo n "") as [_ Hlt]. specialize (Hlt H). simpl in Hlt. lia.
Qed.

Lemma parse_zero_pad w n : (n < U64)%N → parse_u64 (zero_pad w n) = Some n.
Proof.
  intros Hn. unfold parse_u64, parse_uint.
  assert (strip_prefix "+" (zero_pad w n) = None) as ->.
  { destruct (strip_prefix "+" (zero_pad w n)) as [s|] eqn:Hs; [|done].
    apply strip_prefix_Some in Hs. by destruct (zero_pad_ne w n s). }
  cbn [default]. rewrite <-(parse_digits_zero_pad w n Hn).
  destruct (zero_pad w n) eqn:Hz; [|done]. by destruct (zero_pad_ne w n "").
Qed.

Lemma zero_pad_inj w n n' : (n < U64)%N → (n' < U64)%N → zero_pad w n = zero_pad w n' → n = n'.
Proof.
  intros Hn Hn' Heq. pose proof (parse_zero_pad w n Hn) as Hp.
  rewrite Heq, parse_zero_pad in Hp by done. congruence.
Qed.

(** ** Segments *)

Abbreviation slash := (Ascii.ascii_of_nat 47).

Lemma split_on_join c x y : split_on c (x +:+ String c y) = split_on c x ++ split_on c y.
Proof.
  induction x as [|a x IH].
  - change ("" +:+ String c y) with (String c y). simpl. by rewrite decide_True.
  - change (String a x +:+ String c y) with (String a (x +:+ String c y)). simpl.
    rewrite IH. pose proof (split_on_ne c x). case_decide; [done|]. by destruct (split_on c x).
Qed.

(** The segments of a path; the empty path has none. *)
Definition segments (p : ObjectPath) : list string :=
  if path_is_empty p then [] else split_on slash p.

Lemma segments_child p s :
  s ≠ "" ∨ p ≠ "" → segments (child p s) = segments p ++ split_on slash s.
Proof.
  intros Hne. unfold child, segments, path_is_empty. destruct (decide (p = "")) as [->|Hp].
  - destruct Hne; [|done]. rewrite (bool_decide_eq_true_2 ("" = "")) by done.
    by rewrite bool_decide_eq_false_2.
  - rewrite (bool_decide_eq_false_2 (p = "")), bool_decide_eq_false_2 by (done || by destruct p).
    change (p +:+ "/" +:+ s) with (p +:+ String slash s). apply split_on_join.
Qed.

Lemma digits_no_char l : Forall (λ b, is_ascii_digit b = true) (as_bytes l) → no_char slash l.
Proof.
  intros Hl. apply digits_no_slash. unfold digits. apply forallb_forall.
  intros b Hb. rewrite Forall_forall in Hl. apply Hl. by apply list_elem_of_In.
Qed.

Lemma zero_pad_no_slash w n : no_char slash (zero_pad w n).
Proof. apply digits_no_char, zero_pad_digits. Qed.

Lemma pretty_zero_pad (n : N) : zero_pad 0 n = pretty n.
Proof. done. Qed.

Definition epoch_segments (prefix : ObjectPath) (epoch : N) : list string :=
  segments prefix ++ [format_epoch epoch].

Lemma segments_epoch prefix epoch :
  segments (epoch_prefix prefix epoch) = epoch_segments prefix epoch.
Proof.
  unfold epoch_prefix, epoch_segments. assert (split_on slash (format_epoch epoch) =
    [format_epoch epoch]) as Hs.
  { apply split_on_no. unfold format_epoch.
    apply no_char_app; [by apply (bool_decide_unpack _)|apply zero_pad_no_slash]. }
  destruct (path_is_empty prefix) eqn:Hp.
  - unfold segments at 2. rewrite Hp. simpl. unfold segments, path_is_empty.
    by rewrite bool_decide_eq_false_2.
  - rewrite segments_child by by left. by rewrite Hs.
Qed.

Lemma child_ne p s : p ≠ "" → child p s ≠ "".
Proof. intros Hp. unfold child, path_is_empty. rewrite bool_decide_eq_false_2 by done. by destruct p. Qed.

Lemma epoch_prefix_ne prefix epoch : epoch_prefix prefix epoch ≠ "".
Proof.
  unfold epoch_prefix. destruct (path_is_empty prefix) eqn:Hp; [done|].
  apply child_ne. unfold path_is_empty in Hp. by apply bool_decide_eq_false in Hp.
Qed.

Lemma no_slash_split s : no_char slash s → split_on slash s = [s].
Proof. apply split_on_no. Qed.

Lemma segments_wal prefix epoch n :
  segments (wal_path prefix epoch n) =
    epoch_segments prefix epoch ++ ["wal"; zero_pad 8 n +:+ ".log"].
Proof.
  unfold wal_path. pose proof (epoch_prefix_ne prefix epoch) as Hne.
  rewrite !segments_child, segments_epoch by (right; by repeat apply child_ne).
  rewrite <-app_assoc. f_equal. rewrite (no_slash_split (_ +:+ _)); [done|].
  apply no_char_app; [apply zero_pad_no_slash|by apply (bool_decide_unpack _)].
Qed.

Lemma segments_sst prefix epoch l n :
  segments (sst_path prefix epoch l n) =
    epoch_segments prefix epoch ++ ["sst"; "L" +:+ pretty l; zero_pad 9 n +:+ ".sst"].
Proof.
  unfold sst_path. pose proof (epoch_prefix_ne prefix epoch) as Hne.
  rewrite !segments_child, segments_epoch by (right; by repeat apply child_ne).
  rewrite <-!app_assoc. f_equal. rewrite (no_slash_split (zero_pad 9 n +:+ _)).
  2: { apply no_char_app; [apply zero_pad_no_slash|by apply (bool_decide_unpack _)]. }
  rewrite (no_slash_split ("L" +:+ _)); [done|].
  apply no_char_app; [by apply (bool_decide_unpack _)|].
  rewrite <-pretty_zero_pad. apply zero_pad_no_slash.
Qed.

(** A character that is no lower-case hexadecimal digit. *)
Definition not_hex (c : Ascii.ascii) : Prop :=
  ∀ d, (d < 16)%N → Ascii.N_of_ascii c ≠ (if d <? 10 then 48 + d else 87 + d)%N.

Lemma not_hex_spec c :
  (Ascii.N_of_ascii c < 48)%N ∨ (102 < Ascii.N_of_ascii c)%N → not_hex c.
Proof. intros Hc d Hd. destruct (d <? 10)%N eqn:?; lia. Qed.

Lemma slash_not_hex : not_hex slash.
Proof. apply not_hex_spec. left. by vm_compute. Qed.

Lemma hex_pad_no_char c w n : not_hex c → no_char c (hex_pad w n).
Proof.
  intros Hc. revert n. induction w as [|w IH]; intros n; [by apply not_elem_of_nil|].
  rewrite hex_pad_S. apply no_char_app; [apply IH|]. unfold no_char. cbn.
  intros [Heq|?%elem_of_nil]%elem_of_cons; [|done].
  apply (f_equal Ascii.N_of_ascii) in Heq.
  rewrite hex_digit_code in Heq by by apply N.mod_lt.
  by apply (Hc (n mod 16)%N); [apply N.mod_lt|].
Qed.

Lemma hex_bytes_no_char c l : not_hex c → no_char c (hex_bytes l).
Proof.
  intros Hc. induction l as [|b l IH]; [by apply not_elem_of_nil|].
  cbn [hex_bytes foldr]. apply no_char_app; [by apply hex_pad_no_char|done].
Qed.

Lemma segments_blob prefix epoch h :
  no_char slash h →
  segments (blob_path prefix epoch h) = epoch_segments prefix epoch ++ ["blob"; h].
Proof.
  intros Hh. unfold blob_path. pose proof (epoch_prefix_ne prefix epoch) as Hne.
  rewrite !segments_child, segments_epoch by (right; by repeat apply child_ne).
  rewrite <-app_assoc. f_equal. by rewrite (no_slash_split h).
Qed.

Lemma segments_manifest prefix : segments (manifest_path prefix) = segments prefix ++ ["manifest.json"].
Proof.
  unfold manifest_path. destruct (path_is_empty prefix) eqn:Hp.
  - unfold segments at 2. by rewrite Hp.
  - by rewrite segments_child by by left.
Qed.

Lemma segments_ownership prefix :
  segments (ownership_path prefix) = segments prefix ++ ["ownership.json"].
Proof.
  unfold ownership_path. destruct (path_is_empty prefix) eqn:Hp.
  - unfold segments at 2. by rewrite Hp.
  - by rewrite segments_child by by left.
Qed.

(** ** Numbers and kinds *)

Lemma epoch_segments_inj prefix e e' :
  (e < U64)%N → (e' < U64)%N → epoch_segments prefix e = epoch_segments prefix e' → e = e'.
Proof.
  intros He He' Heq. apply app_inj_2 in Heq as [_ Heq]; [|done].
  injection Heq as Heq. by apply (zero_pad_inj 6).
Qed.

Lemma string_app_inj_r (a b c : string) : a +:+ c = b +:+ c → a = b.
Proof.
  intros Heq. apply (f_equal as_bytes) in Heq. rewrite !as_bytes_app in Heq.
  apply app_inv_tail in Heq. rewrite <-(of_as_bytes a), <-(of_as_bytes b). by rewrite Heq.
Qed.

Section kinds.
Context (prefix : ObjectPath).

Lemma wal_path_inj e e' n n' :
  (e < U64)%N → (e' < U64)%N → (n < U64)%N → (n' < U64)%N →
  wal_path prefix e n = wal_path prefix e' n' → e = e' ∧ n = n'.
Proof.
  intros He He' Hn Hn' Heq. apply (f_equal segments) in Heq. rewrite !segments_wal in Heq.
  apply app_inj_2 in Heq as [Hs Hf]; [|done]. injection Hf as Hf.
  split; [by apply epoch_segments_inj in Hs|]. apply string_app_inj_r in Hf.
  by apply zero_pad_inj in Hf.
Qed.

Lemma sst_path_inj e e' l l' n n' :
  (e < U64)%N → (e' < U64)%N → (n < U64)%N → (n' < U64)%N →
  sst_path prefix e l n = sst_path prefix e' l' n' → e = e' ∧ n = n'.
Proof.
  intros He He' Hn Hn' Heq. apply (f_equal segments) in Heq. rewrite !segments_sst in Heq.
  apply app_inj_2 in Heq as [Hs Hf]; [|done]. injection Hf as _ Hf.
  split; [by apply epoch_segments_inj in Hs|]. apply string_app_inj_r in Hf.
  by apply zero_pad_inj in Hf.
Qed.

Lemma blob_path_inj `{Digests} e e' l l' :
  (e < U64)%N → (e' < U64)%N →
  blob_path prefix e (hex_bytes l) = blob_path prefix e' (hex_bytes l') →
  e = e' ∧ hex_bytes l = hex_bytes l'.
Proof.
  intros He He' Heq. apply (f_equal segments) in Heq.
  rewrite !segments_blob in Heq by apply hex_bytes_no_char, slash_not_hex.
  apply app_inj_2 in Heq as [Hs [= Hf]]; [|done].
  split; [by apply epoch_segments_inj in Hs|done].
Qed.

(** What a path is for, read off its last segment. *)
Inductive kind := WalKind | SstKind | BlobKind | ManifestKind | OwnershipKind.

Definition of_kind (k : kind) (p : ObjectPath) : Prop :=
  match k with
  | WalKind => ∃ l f, segments p = l ++ [f +:+ ".log"]
  | SstKind => ∃ l f, segments p = l ++ [f +:+ ".sst"]
  | BlobKind => ∃ l h, segments p = l ++ [hex_bytes h]
  | ManifestKind => p = manifest_path prefix
  | OwnershipKind => p = ownership_path prefix
  end.

Lemma wal_kind e n : of_kind WalKind (wal_path prefix e n).
Proof using Type.
  exists (epoch_segments prefix e ++ ["wal"]), (zero_pad 8 n).
  rewrite segments_wal. by rewrite <-app_assoc.
Qed.

Lemma sst_kind e l n : of_kind SstKind (sst_path prefix e l n).
Proof using Type.
  exists (epoch_segments prefix e ++ ["sst"; "L" +:+ pretty l]), (zero_pad 9 n).
  rewrite segments_sst. by rewrite <-app_assoc.
Qed.

Lemma blob_kind `{Digests} e v : of_kind BlobKind (blob_path prefix e (blob_hash v)).
Proof using Type.
  exists (epoch_segments prefix e ++ ["blob"]), (sha256 v). rewrite <-app_assoc.
  apply segments_blob.
  apply hex_bytes_no_char, slash_not_hex.
Qed.

Lemma hex_no_last c l : not_hex c → last_char (hex_bytes l) ≠ Some c.
Proof using Type.
  intros Hc Hl. apply (hex_bytes_no_char c l Hc). revert Hl. generalize (hex_bytes l).
  intros s. induction s as [|a s IH]; [done|]. cbn. destruct (last_char s) as [d|] eqn:Hs.
  - intros [= ->]. right. by apply IH.
  - intros [= ->]. left.
Qed.

(** The last character of the last segment. *)
Lemma kind_last k p :
  of_kind k p → ∃ l f, segments p = l ++ [f] ∧
    match k with
    | WalKind => last_char f = Some (Ascii.ascii_of_nat 103)
    | SstKind => last_char f = Some (Ascii.ascii_of_nat 116)
    | BlobKind => ∃ h, f = hex_bytes h
    | ManifestKind => f = "manifest.json"
    | OwnershipKind => f = "ownership.json"
    end.
Proof using Type.
  destruct k; simpl.
  - intros (l & f & ->). eexists _, _. split; [done|]. by rewrite last_char_app.
  - intros (l & f & ->). eexists _, _. split; [done|]. by rewrite last_char_app.
  - intros (l & h & ->). eexists _, _. split; [done|]. by exists h.
  - intros ->. eexists _, _. by rewrite segments_manifest.
  - intros ->. eexists _, _. by rewrite segments_ownership.
Qed.

Lemma hex_last_apart h c : c ∈ Ascii.ascii_of_nat <$> [103; 116; 110] → last_char (hex_bytes h) ≠ Some c.
Proof using Type.
  intros (n & -> & Hn)%list_elem_of_fmap. apply hex_no_last, not_hex_spec. right.
  by repeat (apply elem_of_cons in Hn as [->|Hn]; [by vm_compute|]); apply elem_of_nil in Hn.
Qed.

Lemma kinds_apart k k' p p' : of_kind k p → of_kind k' p' → k ≠ k' → p ≠ p'.
Proof using Type.
  intros (l & f & Hs & Hf)%kind_last (l' & f' & Hs' & Hf')%kind_last Hk <-.
  rewrite Hs in Hs'. apply app_inj_2 in Hs' as [_ Heq]; [|done]. injection Heq as <-.
  pose proof (λ h c, hex_last_apart h c) as Hx.
  destruct k, k'; try done; try congruence;
    try (rewrite Hf in Hf'; by vm_compute in Hf'); try (subst f; by vm_compute in Hf);
    try (subst f; by vm_compute in Hf');
    match goal with He : ∃ h, f = hex_bytes h |- _ => destruct He as [h He] end;
    [apply (Hx h (Ascii.ascii_of_nat 103))|apply (Hx h (Ascii.ascii_of_nat 116))
    |apply (Hx h (Ascii.ascii_of_nat 103))|apply (Hx h (Ascii.ascii_of_nat 116))
    |apply (Hx h (Ascii.ascii_of_nat 110))..]; try (by apply (bool_decide_unpack _));
    match goal with He : f = hex_bytes _ |- _ => rewrite <-He end;
    first [assumption | match goal with He : f = _ |- _ => rewrite He; by vm_compute end].
Qed.
End kinds.

Lemma log_key_kind prefix key p :
  log_key key → p = prefix +:+ key ∨ p = prefix +:+ "/" +:+ key → of_kind prefix WalKind p.
Proof.
  intros (e & num & -> & _ & _ & Hn & _) Hp.
  assert (∃ y, p = y +:+ String slash (num +:+ ".log")) as [y ->].
  { destruct Hp as [->| ->];
      [exists (prefix +:+ "e" +:+ e +:+ "/wal")|exists (prefix +:+ "/e" +:+ e +:+ "/wal")];
      by rewrite !string_app_assoc. }
  exists (split_on slash y), num. unfold segments, path_is_empty.
  rewrite bool_decide_eq_false_2 by by destruct y.
  rewrite split_on_join, (no_slash_split (num +:+ _)); [done|].
  apply no_char_app; [by apply digits_no_slash|by apply (bool_decide_unpack _)].
Qed.

(** ** The numbers the builder recovers *)

Lemma segments_split p : p ≠ "" → segments p = split_on slash p.
Proof. intros Hp. unfold segments, path_is_empty. by rewrite bool_decide_eq_false_2. Qed.

Lemma sst_path_ne prefix e l n : sst_path prefix e l n ≠ "".
Proof. unfold sst_path. by repeat apply child_ne; apply epoch_prefix_ne. Qed.

Lemma wal_path_ne prefix e n : wal_path prefix e n ≠ "".
Proof. unfold wal_path. by repeat apply child_ne; apply epoch_prefix_ne. Qed.

Lemma sst_number_path prefix e l n : (n < U64)%N → sst_number (sst_path prefix e l n) = Some n.
Proof.
  intros Hn. unfold sst_number.
  assert (str_contains (sst_path prefix e l n) "/sst/" = true) as ->.
  { apply str_contains_spec. unfold sst_path. pose proof (epoch_prefix_ne prefix e) as Hne.
    unfold child at 1, path_is_empty.
    rewrite bool_decide_eq_false_2 by by repeat apply child_ne.
    unfold child at 1, path_is_empty. rewrite bool_decide_eq_false_2 by by apply child_ne.
    unfold child, path_is_empty. rewrite bool_decide_eq_false_2 by done.
    exists (epoch_prefix prefix e), (("L" +:+ pretty l) +:+ "/" +:+ zero_pad 9 n +:+ ".sst").
    by rewrite !string_app_assoc. }
  rewrite <-segments_split by apply sst_path_ne. rewrite segments_sst, last_app. simpl.
  rewrite (proj2 (strip_suffix_Some ".sst" _ (zero_pad 9 n))) by done. simpl.
  by apply parse_zero_pad.
Qed.

Lemma parse_u64_no_slash s n : parse_u64 s = Some n → no_char slash s.
Proof.
  unfold parse_u64, parse_uint.
  assert (∀ l acc, is_Some (parse_digits U64 l acc) → Forall (λ b, is_ascii_digit b = true) l) as Hd.
  { induction l as [|b l IH]; intros acc; [constructor|]. cbn [parse_digits].
    destruct (is_ascii_digit b) eqn:Hb; [|by intros []]. case_match; [|by intros []].
    intros Hs. constructor; [done|]. by eapply IH. }
  destruct (strip_prefix "+" s) as [r|] eqn:Hs; cbn [default].
  - apply strip_prefix_Some in Hs. subst s. intros Hr.
    apply no_char_app; [by apply (bool_decide_unpack _)|].
    destruct r as [|a r]; [by apply not_elem_of_nil|]. apply digits_no_char, (Hd _ 0%N). by exists n.
  - intros Hr. destruct s as [|a s]; [by apply not_elem_of_nil|]. apply digits_no_char, (Hd _ 0%N). by exists n.
Qed.

(** A log of an older epoch does not count, whatever the prefix. *)
Lemma wal_number_other prefix e e' n :
  (e < U64)%N → (e' < U64)%N → e ≠ e' → wal_number e' (wal_path prefix e n) = None.
Proof.
  intros He He' Hne. unfold wal_number.
  destruct (strip_prefix _ _) as [rest|] eqn:Hrest; [|done]. simpl.
  destruct (strip_suffix ".log" rest) as [num|] eqn:Hnum; [|done]. simpl.
  destruct (parse_u64 num) as [k|] eqn:Hk; [|done]. exfalso. apply Hne.
  apply strip_prefix_Some in Hrest. apply strip_suffix_Some in Hnum. subst rest.
  apply parse_u64_no_slash in Hk. apply (f_equal segments) in Hrest.
  rewrite segments_wal, segments_split in Hrest by done.
  assert (split_on slash ((format_epoch e' +:+ "/wal/") +:+ num +:+ ".log") =
    [format_epoch e'; "wal"; num +:+ ".log"]) as Hs.
  { rewrite string_app_assoc.
    change ("/wal/" +:+ num +:+ ".log") with
      (String slash ("wal" +:+ String slash (num +:+ ".log"))).
    rewrite !split_on_join, !no_slash_split; [done|..].
    - apply no_char_app; [done|by apply (bool_decide_unpack _)].
    - by apply (bool_decide_unpack _).
    - unfold format_epoch.
      apply no_char_app; [by apply (bool_decide_unpack _)|apply zero_pad_no_slash]. }
  rewrite Hs in Hrest. unfold epoch_segments in Hrest. rewrite <-app_assoc in Hrest.
  destruct (segments prefix) as [|a l].
  - injection Hrest as Hrest _. by apply (zero_pad_inj 6).
  - apply (f_equal length) in Hrest. rewrite length_app in Hrest. simpl in Hrest. lia.
Qed.

(** ** The paths a store uses *)

Class StorePaths (W : Type) `{StorageLaws W} `{Digests} (prefix : ObjectPath) : Prop := {
  accepts_ownership :: Accepts W (ownership_path prefix);
  accepts_manifest :: Accepts W (manifest_path prefix);
  accepts_wal e n :: Accepts W (wal_path prefix e n);
  accepts_sst e l n :: Accepts W (sst_path prefix e l n);
  accepts_blob e v :: Accepts W (blob_path prefix e (blob_hash v));
}.

Lemma accepts_child {W prefix} `{StorePaths W prefix} : ∃ s, st_path W (child prefix s).
Proof.
  exists "ownership.json". pose proof (accepts_ownership (W := W) (prefix := prefix)) as Ho.
  unfold Accepts, ownership_path, child in *. by destruct (path_is_empty prefix).
Qed.

#[export] Instance mem_store_paths `{Digests} prefix : StorePaths MemInner prefix.
Proof. split; intros; apply _. Qed.
