(* ===== verification/StoreNames.v ===== *)
(** The names a store gives its objects: letters, digits, dots, dashes and
    underscores between slashes, and no object below another one, whatever
    backend keeps them. *)

From stdpp Require Import options.
From S2P Require Import Prelude OrdMap Core Codec Hooks Storage Json Ownership Manifest Blob Probe LsmStore LsmPaths.

(** ** Plain names *)

Definition plain_char (c : Ascii.ascii) : bool :=
  let n := Ascii.N_of_ascii c in
  (((48 <=? n) && (n <=? 57)) || ((65 <=? n) && (n <=? 90)) || ((97 <=? n) && (n <=? 122)) ||
   (n =? 45) || (n =? 46) || (n =? 95))%N.

Definition plain_chars (s : string) : Prop := Forall (λ c, plain_char c = true) (String.list_ascii_of_string s).
Definition plain_name (s : string) : Prop := plain_chars s ∧ s ≠ "" ∧ s ≠ "." ∧ s ≠ "..".

#[export] Instance plain_chars_dec s : Decision (plain_chars s).
Proof. unfold plain_chars. apply _. Defined.
#[export] Instance plain_name_dec s : Decision (plain_name s).
Proof. unfold plain_name. apply _. Defined.

Lemma plain_chars_app s t : plain_chars s → plain_chars t → plain_chars (s +:+ t).
Proof.
  unfold plain_chars. intros Hs Ht. induction s as [|a s IH]; [done|].
  change (String a s +:+ t) with (String a (s +:+ t)). cbn in *.
  apply Forall_cons in Hs as [Ha Hs]. constructor; auto.
Qed.

Lemma plain_no_char c s : plain_char c = false → plain_chars s → no_char c s.
Proof.
  unfold plain_chars, no_char. intros Hc Hs Hin. rewrite Forall_forall in Hs. specialize (Hs c Hin). congruence.
Qed.

Lemma digit_plain a : is_ascii_digit (Ascii.byte_of_ascii a) = true → plain_char a = true.
Proof.
  assert (forallb (λ n, implb (is_ascii_digit (Ascii.byte_of_ascii (Ascii.ascii_of_nat n)))
    (plain_char (Ascii.ascii_of_nat n))) (List.seq 0 256) = true) as Hall by (vm_compute; reflexivity).
  rewrite forallb_forall in Hall. specialize (Hall (Ascii.nat_of_ascii a)).
  rewrite Ascii.ascii_nat_embedding in Hall. intros Ha. rewrite Ha in Hall. apply Hall.
  apply in_seq. pose proof (Ascii.nat_ascii_bounded a). lia.
Qed.

Lemma zero_pad_plain w n : plain_chars (zero_pad w n).
Proof.
  pose proof (zero_pad_digits w n) as Hd. revert Hd. generalize (zero_pad w n). intros s.
  unfold plain_chars, as_bytes. induction s as [|a s IH]; cbn; [constructor|].
  intros [Ha Hs]%Forall_cons. constructor; [by apply digit_plain|by apply IH].
Qed.

Lemma hex_digit_plain d : (d < 16)%N → plain_char (hex_digit d) = true.
Proof.
  intros Hd. assert (d ∈ N.of_nat <$> List.seq 0 16) as Hin.
  { apply list_elem_of_fmap. exists (N.to_nat d). split; [lia|]. apply list_elem_of_In, in_seq. lia. }
  revert d Hin Hd. apply (Forall_forall (λ d, (d < 16)%N → plain_char (hex_digit d) = true)).
  by repeat constructor.
Qed.

Lemma hex_bytes_plain l : plain_chars (hex_bytes l).
Proof.
  assert (∀ w n, plain_chars (hex_pad w n)) as Hpad.
  { intros w. induction w as [|w IH]; intros n; [constructor|]. rewrite hex_pad_S.
    apply plain_chars_app; [apply IH|]. repeat constructor. apply hex_digit_plain. by apply N.mod_lt. }
  induction l as [|b l IH]; [constructor|]. cbn [hex_bytes foldr]. by apply plain_chars_app.
Qed.

(** More than dots. *)
Lemma plain_long s : plain_chars s → 3 ≤ String.length s → plain_name s.
Proof. intros Hs Hl. split_and!; [done|intros ->; simpl in Hl; lia..]. Qed.

Lemma plain_lead a s : plain_chars (String a s) → a ≠ Ascii.ascii_of_nat 46 → plain_name (String a s).
Proof. intros Hs Ha. split_and!; [done| |intros [= ->]..]; done. Qed.

Lemma plain_numbered w n s : plain_chars s → 3 ≤ String.length s → plain_name (zero_pad w n +:+ s).
Proof.
  intros Hs Hl. apply plain_long; [apply plain_chars_app; [apply zero_pad_plain|done]|].
  rewrite string_length_app. lia.
Qed.

Lemma plain_hex l : 2 ≤ length l → plain_name (hex_bytes l).
Proof.
  intros Hl. apply plain_long; [apply hex_bytes_plain|]. destruct l as [|b [|c l]]; simpl in Hl; [lia..|].
  cbn [hex_bytes foldr]. rewrite !string_length_app, !hex_pad_length. lia.
Qed.

Lemma plain_epoch e : plain_name (format_epoch e).
Proof. apply plain_lead; [|done]. apply (plain_chars_app "e"); [by repeat constructor|apply zero_pad_plain]. Qed.

Lemma plain_level l : plain_name ("L" +:+ pretty (l : N)).
Proof.
  rewrite <-pretty_zero_pad. apply plain_lead; [|done].
  apply (plain_chars_app "L"); [by repeat constructor|apply zero_pad_plain].
Qed.

(** ** The paths of a store *)

(** SHA-256 gives 32 bytes. *)
Class Sha256Laws `{Digests} : Prop := sha256_length b : length (sha256 b) = 32.

Inductive store_path `{Digests} (prefix : ObjectPath) : ObjectPath → Prop :=
| sp_ownership : store_path prefix (ownership_path prefix)
| sp_manifest : store_path prefix (manifest_path prefix)
| sp_probe : store_path prefix (probe_path prefix)
| sp_wal e n : store_path prefix (wal_path prefix e n)
| sp_sst e l n : store_path prefix (sst_path prefix e l n)
| sp_blob e v : store_path prefix (blob_path prefix e (blob_hash v)).

(** What follows the prefix. *)
Inductive store_tail : list string → Prop :=
| tl_ownership : store_tail ["ownership.json"]
| tl_manifest : store_tail ["manifest.json"]
| tl_probe : store_tail ["probe"; "canary"]
| tl_wal e f : store_tail [format_epoch e; "wal"; f]
| tl_sst e l f : store_tail [format_epoch e; "sst"; l; f]
| tl_blob e f : store_tail [format_epoch e; "blob"; f].

Lemma store_tail_free t t' : store_tail t → store_tail t' → t `prefix_of` t' → t = t'.
Proof.
  intros Ht Ht' [k Hk]. destruct Ht, Ht'; try discriminate Hk; injection Hk; intros; subst; try done.
  all: by destruct k.
Qed.

Lemma segments_probe prefix : segments (probe_path prefix) = segments prefix ++ ["probe"; "canary"].
Proof.
  unfold probe_path. destruct (path_is_empty prefix) eqn:Hp.
  - unfold segments at 2. by rewrite Hp.
  - rewrite !segments_child by by left. by rewrite <-app_assoc.
Qed.

Lemma segs_segments p l : segments p = l → l ≠ [] → split_on slash p = l.
Proof. unfold segments. destruct (path_is_empty p); [by intros <-|by intros]. Qed.

Lemma store_path_segs `{Sha256Laws} prefix p : store_path prefix p →
  ∃ t, split_on slash p = segments prefix ++ t ∧ store_tail t ∧ Forall plain_name t.
Proof.
  assert (Hone : ∀ t, segments p = segments prefix ++ t → store_tail t → Forall plain_name t →
    ∃ t, split_on slash p = segments prefix ++ t ∧ store_tail t ∧ Forall plain_name t).
  { intros t Hs Ht Hv. exists t. split; [|done]. apply segs_segments; [done|].
    intros [_ ->]%app_eq_nil. by inversion Ht. }
  intros Hp. destruct Hp as [| | |e n|e l n|e v].
  - apply (Hone _ (segments_ownership prefix)); [constructor|by apply (bool_decide_unpack _)].
  - apply (Hone _ (segments_manifest prefix)); [constructor|by apply (bool_decide_unpack _)].
  - apply (Hone _ (segments_probe prefix)); [constructor|by apply (bool_decide_unpack _)].
  - pose proof (segments_wal prefix e n) as Hs. unfold epoch_segments in Hs. rewrite <-app_assoc in Hs.
    apply (Hone _ Hs); [constructor|].
    constructor; [apply plain_epoch|]. constructor; [by apply (bool_decide_unpack _)|].
    constructor; [|constructor]. apply plain_numbered; [by apply (bool_decide_unpack _)|simpl; lia].
  - pose proof (segments_sst prefix e l n) as Hs. unfold epoch_segments in Hs. rewrite <-app_assoc in Hs.
    apply (Hone _ Hs); [constructor|].
    constructor; [apply plain_epoch|]. constructor; [by apply (bool_decide_unpack _)|].
    constructor; [apply plain_level|]. constructor; [|constructor].
    apply plain_numbered; [by apply (bool_decide_unpack _)|simpl; lia].
  - pose proof (segments_blob prefix e (blob_hash v)) as Hs. unfold epoch_segments in Hs.
    rewrite <-app_assoc in Hs. apply (Hone _ (Hs (hex_bytes_no_char _ _ slash_not_hex))); [constructor|].
    constructor; [apply plain_epoch|]. constructor; [by apply (bool_decide_unpack _)|].
    constructor; [|constructor]. apply plain_hex. rewrite sha256_length. lia.
Qed.
