(* ===== verification/LsmSpec.v ===== *)
(** Correctness of the single-writer store: what its maintenance leaves
    alone, how a failed append and a lost ownership end, what the orphan pass
    deletes, and what the public log collection can lose. *)

From stdpp Require Import options.
From S2P Require Import Prelude OrdMap Core Codec Hooks Snapshot Storage Json Ownership Manifest.
From S2P Require Import Blob Probe Wal Merge Sst SstSpec Cache Read ReadSpec LsmStore LsmPaths.

(** ** Frames of operations *)

(** An operation leaves a part of the state as it is, whatever its outcome. *)
Definition keeps {S A T} (f : S → T) (m : Op S A) : Prop := ∀ s, f (m s).2 = f s.

Create HintDb keeps discriminated.

Section keeps.
Context {S T : Type} (f : S → T).

Lemma keeps_ret {A} (a : A) : keeps f (op_ret a).
Proof. by intros s. Qed.
Lemma keeps_throw {A} e : keeps f (op_throw (A := A) e).
Proof. by intros s. Qed.
Lemma keeps_lift {A} (r : Result A) : keeps f (op_lift r).
Proof. by intros s. Qed.
Lemma keeps_gets {A} (g : S → A) : keeps f (op_gets g).
Proof. by intros s. Qed.
Lemma keeps_modify g : (∀ s, f (g s) = f s) → keeps f (op_modify g).
Proof. intros Hg s. apply Hg. Qed.
Lemma keeps_bind {A B} (m : Op S A) (k : A → Op S B) :
  keeps f m → (∀ a, keeps f (k a)) → keeps f (op_bind m k).
Proof.
  intros Hm Hk s. unfold op_bind. specialize (Hm s).
  destruct (m s) as [[a|e] s']; simpl in *; [by rewrite Hk|done].
Qed.
Lemma keeps_try {A B} (m : Op S A) (k : Result A → Op S B) :
  keeps f m → (∀ r, keeps f (k r)) → keeps f (op_try m k).
Proof.
  intros Hm Hk s. unfold op_try. specialize (Hm s).
  destruct (m s) as [r s']; simpl in *. by rewrite Hk.
Qed.
Lemma keeps_ignore {A} (m : Op S A) : keeps f m → keeps f (op_ignore m).
Proof. intros Hm. apply keeps_try; [done|]. intros r. apply keeps_ret. Qed.
End keeps.

#[export] Hint Resolve keeps_ret keeps_throw keeps_lift keeps_gets keeps_bind keeps_try
  keeps_ignore : keeps.

(** Splits an operation into its steps and closes those the database knows. *)
Ltac keep :=
  repeat match goal with
  | |- keeps _ (op_bind _ _) => apply keeps_bind; [|intros ?]
  | |- keeps _ (op_try _ _) => apply keeps_try; [|intros ?]
  | |- keeps _ (op_ignore _) => apply keeps_ignore
  | |- keeps _ (op_modify _) => apply keeps_modify; intros ?; solve [auto]
  | |- keeps _ (let '(_, _) := ?x in _) => destruct x
  | |- keeps _ (match ?x with _ => _ end) => destruct x
  | |- keeps _ (if ?x then _ else _) => destruct x
  end; auto with keeps.

Section writer.
Context {W C : Type} `{StorageBackend W} `{Clock W} `{Json Manifest} `{Json SstFooter}
  `{Json OwnershipRecord} `{Digests} `{Json BlobPointer} `{Cache C string SstFile}
  `{Ch : Channel}.
Context (prefix : ObjectPath) (epoch : N) (session : string).
Abbreviation writer := (OxKvStore W C).

Section parts.
(** A part of the state that is neither the storage with its caches, nor the
    table, nor a counter of logs and files. *)
Context {T : Type} (f : writer → T).
Hypothesis Hio : ∀ io s, f (set_io io s) = f s.
Hypothesis Hmem : ∀ m s, f (set_mem m s) = f s.
Hypothesis Hwal : ∀ n s, f (set_wal_seq n s) = f s.
Hypothesis Hsst : ∀ n s, f (set_sst_seq n s) = f s.

Lemma keeps_io {A} (m : Op ((W * ManifestCache) * C) A) : keeps f (on_io (Ch := Ch) m).
Proof using Hio.
  intros s. unfold on_io, op_zoom. destruct (m (ox_io s)) as [r io]. apply Hio.
Qed.
#[local] Hint Resolve keeps_io : keeps.

Lemma keeps_put what path num payload :
  keeps f (put_new (Ch := Ch) (C := C) what path num payload).
Proof using Hio Hmem Hwal Hsst. unfold put_new. keep. Qed.

Lemma keeps_owner missing :
  keeps f (check_owner (Ch := Ch) (W := W) (C := C) prefix epoch session missing).
Proof using Hio Hmem Hwal Hsst. unfold check_owner. keep. Qed.

Lemma keeps_load : keeps f (load (Ch := Ch) (W := W) (C := C) prefix epoch).
Proof using Hio Hmem Hwal Hsst. apply keeps_io. Qed.
Lemma keeps_load_fresh :
  keeps f (load_fresh (Ch := Ch) (W := W) (C := C) prefix epoch).
Proof using Hio Hmem Hwal Hsst. apply keeps_io. Qed.
Lemma keeps_clear : keeps f (clear_cache (Ch := Ch) (W := W) (C := C)).
Proof using Hio Hmem Hwal Hsst. apply keeps_io. Qed.
Lemma keeps_update m etag :
  keeps f (update_cache (Ch := Ch) (W := W) (C := C) m etag).
Proof using Hio Hmem Hwal Hsst. apply keeps_io. Qed.
Lemma keeps_cas m etag :
  keeps f (cas (Ch := Ch) (W := W) (C := C) prefix m etag).
Proof using Hio Hmem Hwal Hsst. apply keeps_io. Qed.
#[local] Hint Resolve keeps_put keeps_owner keeps_load
  keeps_load_fresh keeps_clear keeps_update keeps_cas : keeps.

Lemma keeps_spill bs rows :
  keeps f (spill_rows (Ch := Ch) (W := W) (C := C) prefix epoch bs rows).
Proof using Hio Hmem Hwal Hsst. induction rows as [|[k v] rows IH]; cbn [spill_rows]; keep. Qed.

Lemma keeps_discard snapshot :
  keeps f (discard_flushed (Ch := Ch) (W := W) (C := C) snapshot).
Proof using Hio Hmem Hwal Hsst. unfold discard_flushed. keep. Qed.
#[local] Hint Resolve keeps_spill keeps_discard : keeps.

Lemma keeps_flush force :
  keeps f
    (flush_mem_to_sst_inner (Ch := Ch) (W := W) (C := C) prefix epoch session force).
Proof using Hio Hmem Hwal Hsst. unfold flush_mem_to_sst_inner, publish_l0. keep. Qed.

Lemma keeps_delete_wals ids n :
  keeps f (delete_wals (Ch := Ch) (W := W) (C := C) ids n).
Proof using Hio Hmem Hwal Hsst. revert n. induction ids as [|id ids IH]; intros n; cbn [delete_wals]; keep. Qed.
#[local] Hint Resolve keeps_delete_wals : keeps.

Lemma keeps_gc n :
  keeps f (gc_wal_loop (Ch := Ch) (W := W) (C := C) prefix epoch n).
Proof using Hio Hmem Hwal Hsst. induction n as [|n IH]; cbn [gc_wal_loop]; keep. Qed.

Lemma keeps_delete_orphans m ks n :
  keeps f (delete_orphans (Ch := Ch) (W := W) (C := C) prefix m ks n).
Proof using Hio Hmem Hwal Hsst. revert n. induction ks as [|k ks IH]; intros n; cbn [delete_orphans]; keep. Qed.
#[local] Hint Resolve keeps_delete_orphans : keeps.

Lemma keeps_orphans :
  keeps f (gc_orphans_inner (Ch := Ch) (W := W) (C := C) prefix epoch session).
Proof using Hio Hmem Hwal Hsst. unfold gc_orphans_inner. keep. Qed.

Lemma keeps_read_inputs metas :
  keeps f (read_inputs (Ch := Ch) (W := W) (C := C) metas).
Proof using Hio Hmem Hwal Hsst. induction metas as [|m metas IH]; cbn [read_inputs]; keep. Qed.
Lemma keeps_delete_inputs metas :
  keeps f (delete_inputs (Ch := Ch) (W := W) (C := C) metas).
Proof using Hio Hmem Hwal Hsst. induction metas as [|m metas IH]; cbn [delete_inputs]; keep. Qed.
Lemma keeps_retire_inputs metas :
  keeps f (retire_inputs (Ch := Ch) (W := W) (C := C) metas).
Proof using Hio Hmem Hwal Hsst. induction metas as [|m metas IH]; cbn [retire_inputs]; keep. Qed.
#[local] Hint Resolve keeps_read_inputs keeps_delete_inputs
  keeps_retire_inputs : keeps.

Lemma keeps_drop n inputs :
  keeps f (drop_inputs (Ch := Ch) (W := W) (C := C) prefix epoch n inputs).
Proof using Hio Hmem Hwal Hsst. induction n as [|n IH]; cbn [drop_inputs]; keep. Qed.
Lemma keeps_swap n inputs meta :
  keeps f (swap_inputs (Ch := Ch) (W := W) (C := C) prefix epoch n inputs meta).
Proof using Hio Hmem Hwal Hsst. induction n as [|n IH]; cbn [swap_inputs]; keep. Qed.
#[local] Hint Resolve keeps_drop keeps_swap : keeps.

Lemma keeps_compact :
  keeps f (compact_inner (Ch := Ch) (W := W) (C := C) prefix epoch session).
Proof using Hio Hmem Hwal Hsst. unfold compact_inner. keep. Qed.
#[local] Hint Resolve keeps_flush keeps_gc keeps_orphans
  keeps_compact : keeps.

Lemma keeps_maintain n :
  keeps f (maintain_after_write (Ch := Ch) (W := W) (C := C) prefix epoch session n).
Proof using Hio Hmem Hwal Hsst. unfold maintain_after_write, maintain_wal, gc_wal_inner. keep. Qed.

Lemma keeps_apply updates :
  keeps f (apply_mem (Ch := Ch) (W := W) (C := C) updates).
Proof using Hio Hmem Hwal Hsst. unfold apply_mem. keep. Qed.
#[local] Hint Resolve keeps_maintain keeps_apply : keeps.

Lemma keeps_list n attempt id updates :
  keeps f
    (list_wal (Ch := Ch) (W := W) (C := C) prefix epoch session n attempt id updates).
Proof using Hio Hmem Hwal Hsst. revert attempt. induction n as [|n IH]; intros attempt; cbn [list_wal]; keep. Qed.
#[local] Hint Resolve keeps_list : keeps.

Lemma keeps_append payload updates :
  keeps f
    (append_wal_locked (Ch := Ch) (W := W) (C := C) prefix epoch session payload updates).
Proof using Hio Hmem Hwal Hsst. unfold append_wal_locked. keep. Qed.
End parts.

(** A drain is all or nothing for the buffer: success leaves it empty, and
    whatever step fails (encoding, upload, ownership, manifest, or any part
    of the maintenance that follows), the staged operations are back in it in
    their order. *)
Theorem drain_keeps_staged (s : writer) :
  let '(r, s') := drain_staged_locked prefix epoch session s in
  ox_wal_buffer s' = match r with Ok _ => [] | Err _ => ox_wal_buffer s end.
Proof using Type.
  unfold drain_staged_locked. do 2 erewrite op_bind_ok by done.
  destruct (ox_wal_buffer s) as [|op ops] eqn:Hb; [done|].
  destruct (encode_ops (op :: ops)) as [payload|e].
  - assert (keeps ox_wal_buffer (append_wal_locked (Ch := Ch) (W := W) (C := C) prefix epoch session
      payload [])) as Hkeep by by apply keeps_append.
    pose proof (Hkeep (set_wal_buffer [] s)) as Hk.
    unfold op_try. destruct (append_wal_locked _ _ _ payload [] _) as [[[]|e] s'];
      cbn [snd] in Hk; [done|].
    erewrite op_bind_ok by done. cbn. rewrite Hk. cbn. by rewrite app_nil_r.
  - erewrite op_bind_ok by done. cbn. by rewrite app_nil_r.
Qed.
End writer.

(** ** The storage under the writer *)

Section lawful.
Context {W C : Type} `{ClockLaws W} `{JsonLaws Manifest} `{Json SstFooter}
  `{JsonLaws OwnershipRecord} `{Digests} `{Json BlobPointer} `{Cache C string SstFile}
  `{Ch : Channel}.
Context (prefix : ObjectPath) (epoch : N) (session : string).
Abbreviation writer := (OxKvStore W C).

Definition disk (s : writer) : W := (ox_io s).1.1.
Definition set_disk (w : W) (s : writer) : writer := set_io ((w, (ox_io s).1.2), (ox_io s).2) s.

Lemma on_io_disk {A} (m : Op W A) (s : writer) r w' :
  m (disk s) = (r, w') → on_io (on_disk m) s = (r, set_disk w' s).
Proof using Type.
  unfold on_io, on_disk, on_engine, on_storage, op_zoom, set_disk, disk. by intros ->.
Qed.

(** A write-once upload writes the object, finds its own bytes there, or
    refuses to overwrite other ones. *)
Lemma put_new_spec what path num payload (s : writer) `{!Accepts W path} :
  st_wf (disk s) →
  (∀ tag, tag ≠ "" → st_objects (disk s) !! path = None → st_safe W (<[path := (payload, tag)]> (st_objects (disk s)))) →
  ∃ r w', put_new what path num payload s = (r, set_disk w' s) ∧ st_wf w' ∧
    match st_objects (disk s) !! path with
    | None => r = Ok () ∧ ∃ tag, st_objects w' = <[path := (payload, tag)]> (st_objects (disk s))
    | Some (b, _) => st_objects w' = st_objects (disk s) ∧
        if decide (b = payload) then r = Ok () else ∃ msg, r = Err (Storage msg)
    end.
Proof using Type*.
  intros Hwf Hsafe. unfold put_new, op_try at 1.
  destruct (st_put_law path payload Create (disk s) Hwf (accepted path)) as (r & w1 & Hp & Hwf1 & Hr);
    [intros tag Ht Hno; by apply Hsafe, Hno|].
  rewrite (on_io_disk _ s _ _ Hp). destruct r as [out|e].
  - destruct Hr as (tag & _ & Ho & Hnone). exists (Ok ()), w1. rewrite Hnone.
    split; [done|]. split; [done|]. split; [done|]. by exists tag.
  - destruct Hr as ([msg ->] & Ho & [[b tag] Hob]). unfold op_try.
    destruct (st_get_law path w1 Hwf1 (accepted path)) as (r & w2 & Hg & Ho2 & Hwf2 & Hr).
    rewrite (on_io_disk _ (set_disk w1 s) _ _ Hg). rewrite Ho, Hob in Hr. destruct Hr as [v ->].
    cbn [go_bytes]. rewrite Hob. destruct (decide (b = payload)) as [->|Hne].
    + rewrite bool_decide_eq_false_2 by auto. exists (Ok ()), w2.
      split; [done|]. split; [done|]. split; [congruence|done].
    + rewrite bool_decide_eq_true_2 by done. eexists _, w2.
      split; [done|]. split; [done|]. split; [congruence|by eexists].
Qed.

Context `{!StorePaths W prefix}.

(** The stored record reads back. *)
Lemma read_ownership_ok rec tag (s : writer) :
  st_wf (disk s) → st_objects (disk s) !! ownership_path prefix = Some (to_vec rec, tag) →
  ∃ w', on_io (on_disk (read_ownership prefix)) s = (Ok (Some rec), set_disk w' s) ∧ st_wf w' ∧
    st_objects w' = st_objects (disk s).
Proof using Type*.
  intros Hwf Hob.
  destruct (st_get_law (ownership_path prefix) (disk s) Hwf (accepted _)) as (r & w1 & Hg & Ho & Hwf1 & Hr).
  rewrite Hob in Hr. destruct Hr as [v ->]. exists w1. split; [|done].
  apply on_io_disk. unfold read_ownership, op_try. rewrite Hg. cbn [go_bytes].
  by rewrite from_to_vec.
Qed.

(** The ownership test reads the stored record. *)
Lemma check_owner_spec missing rec tag (s : writer) :
  st_wf (disk s) → st_objects (disk s) !! ownership_path prefix = Some (to_vec rec, tag) →
  ∃ r w', check_owner prefix epoch session missing s = (r, set_disk w' s) ∧ st_wf w' ∧
    st_objects w' = st_objects (disk s) ∧
    if decide (or_epoch rec = epoch ∧ or_owner_session rec = session) then r = Ok ()
    else ∃ msg, r = Err (Fenced msg).
Proof using Type*.
  intros Hwf Hob. unfold check_owner.
  destruct (read_ownership_ok rec tag s Hwf Hob) as (w1 & Hread & Hwf1 & Ho).
  rewrite (op_bind_ok _ _ _ _ _ Hread).
  case_decide as Hd; [rewrite bool_decide_eq_true_2 by done|rewrite bool_decide_eq_false_2 by done];
    (eexists _, w1; split; [done|]; split; [done|]; split; [done|]); [done|by eexists].
Qed.


(** *** The orphan pass *)

Lemma delete_orphans_spec `{!Unguarded W} m ks n (s : writer) :
  st_wf (disk s) → Forall (st_path W) ks →
  ∃ n' w', delete_orphans prefix m ks n s = (Ok n', set_disk w' s) ∧ st_wf w' ∧
    ∀ p, st_objects w' !! p =
      if decide (p ∈ ks ∧ is_orphan prefix m p = true) then None else st_objects (disk s) !! p.
Proof using Type*.
  revert n s. induction ks as [|k ks IH]; intros n s Hwf Hks; cbn [delete_orphans].
  { exists n, (disk s). split; [by destruct s as [[[? ?] ?] ? ? ? ? ? ? ? ?]|]. split; [done|].
    intros p. rewrite decide_False; [done|]. by intros [?%elem_of_nil _]. }
  apply Forall_cons in Hks as [Hp Hks]. destruct (is_orphan prefix m k) eqn:Hk.
  - destruct (st_delete_law k (disk s) Hwf Hp (unguarded _)) as (w1 & Hd & Hwf1 & Ho1).
    unfold op_try. rewrite (on_io_disk _ s _ _ Hd).
    destruct (IH (S n) (set_disk w1 s) Hwf1 Hks) as (n' & w' & -> & Hwf' & Ho').
    exists n', w'. split; [done|]. split; [done|]. intros p. rewrite Ho'.
    change (disk (set_disk w1 s)) with w1. rewrite Ho1.
    destruct (decide (p ∈ ks ∧ _)) as [[Hin Ho]|Hno].
    + by rewrite decide_True by (split; [by right|done]).
    + destruct (decide (p = k)) as [->|Hne].
      * by rewrite lookup_delete_eq, decide_True by (split; [by left|done]).
      * rewrite lookup_delete_ne by done. rewrite decide_False; [done|].
        intros [[?|?]%elem_of_cons ?]; [done|]. by apply Hno.
  - destruct (IH n s Hwf Hks) as (n' & w' & -> & Hwf' & Ho').
    exists n', w'. split; [done|]. split; [done|]. intros p. rewrite Ho'.
    apply decide_ext. rewrite elem_of_cons. split; [naive_solver|].
    intros [[->|?] ?]; [congruence|done].
Qed.

(** What the pass may delete: an object of the log shape under the prefix,
    directly or after a slash, that the manifest does not list. *)
Definition collectable (m : Manifest) (p : ObjectPath) : Prop :=
  under_prefix p prefix = true ∧ (p ∉ mf_wal m) ∧
  ∃ key, log_key key ∧ (p = prefix +:+ key ∨ p = prefix +:+ "/" +:+ key).

Lemma is_orphan_spec m p :
  is_orphan prefix m p = true ↔
  (p ∉ mf_wal m) ∧ ∃ key, log_key key ∧ (p = prefix +:+ key ∨ p = prefix +:+ "/" +:+ key).
Proof using Type.
  assert (∀ key, log_key key → strip_prefix "/" key = None) as Hslash
    by by intros key (e & num & -> & _).
  unfold is_orphan. split.
  - destruct (strip_prefix prefix p) as [rel|] eqn:Hp; [|done].
    apply strip_prefix_Some in Hp. subst p.
    rewrite andb_true_iff, negb_true_iff, bool_decide_eq_false, is_orphan_wal_key_spec.
    intros [Hk Hn]. split; [done|]. eexists. split; [exact Hk|].
    destruct (strip_prefix "/" rel) as [r|] eqn:Hr; [right|by left].
    apply strip_prefix_Some in Hr. by subst rel.
  - intros (Hn & key & Hk & Hp).
    assert (∃ rel, strip_prefix prefix p = Some rel ∧
      default rel (strip_prefix "/" rel) = key) as (rel & -> & ->).
    { destruct Hp as [->| ->]; eexists; (split; [by apply strip_prefix_Some|]).
      - by rewrite (Hslash _ Hk).
      - by rewrite (proj2 (strip_prefix_Some "/" _ key)). }
    by rewrite (proj2 (is_orphan_wal_key_spec key) Hk), bool_decide_eq_false_2.
Qed.

#[export] Instance collectable_dec m p : Decision (collectable m p).
Proof using Type.
  refine (cast_if (decide (under_prefix p prefix = true ∧ is_orphan prefix m p = true)));
    by rewrite is_orphan_spec in *.
Defined.

(** C29: The orphan pass of the owner deletes exactly the unlisted objects of the
    log shape under its prefix, whatever the manifest cache held, and every
    other object survives; an instance that is not the owner deletes
    nothing.  The table is never touched. *)
Theorem gc_orphans_exact `{!Unguarded W} (s : writer) (m : Manifest) (etag : string)
    (rec : OwnershipRecord) (tag : string) :
  coherent prefix (ox_io s).1 → stored_manifest prefix epoch (disk s) = Ok (m, etag) →
  st_objects (disk s) !! ownership_path prefix = Some (to_vec rec, tag) →
  ∃ n s', gc_orphans prefix epoch session s = (Ok n, s') ∧ ox_mem s' = ox_mem s ∧
    ∀ p, st_objects (disk s') !! p =
      if decide ((or_epoch rec = epoch ∧ or_owner_session rec = session) ∧ collectable m p)
      then None else st_objects (disk s) !! p.
Proof using Type*.
  intros Hco Hm Hown. pose proof Hco as [Hwf _].
  unfold gc_orphans, gc_orphans_inner.
  destruct (read_ownership_ok rec tag s Hwf Hown) as (w1 & Hread & Hwf1 & Ho1).
  rewrite (op_bind_ok _ _ _ _ _ Hread).
  destruct (decide (or_epoch rec = epoch ∧ or_owner_session rec = session)) as [Hus|Hus].
  2: { rewrite bool_decide_eq_false_2 by done. exists 0, (set_disk w1 s).
       split; [done|]. split; [done|]. intros p.
       rewrite decide_False by (by intros [? _]). by rewrite <-Ho1. }
  rewrite bool_decide_eq_true_2 by done.
  assert (coherent prefix (w1, (ox_io s).1.2)) as Hco1.
  { apply (coherent_same _ _ (disk s)); [|done..]. unfold disk.
    by destruct (ox_io s) as [[? ?] ?]. }
  destruct (load_manifest_spec prefix epoch 0 w1 _ Hco1) as ([w2 c2] & Hl & Ho2 & Hco2 & _);
    [by auto|].
  assert (stored_manifest prefix epoch w1 = Ok (m, etag)) as Hm1
    by (rewrite <-Hm; unfold stored_manifest; by rewrite Ho1).
  rewrite Hm1 in Hl. set (s2 := set_io ((w2, c2), (ox_io s).2) s).
  assert (load_fresh prefix epoch (set_disk w1 s) = (Ok (m, etag), s2)) as Hload.
  { unfold load_fresh, on_io, on_engine, op_zoom. cbn [set_disk ox_io set_io fst snd].
    by rewrite Hl. }
  rewrite (op_bind_ok _ _ _ _ _ Hload). cbn [fst].
  destruct (st_list_law prefix w2 (proj1 Hco2) accepts_child) as (ks & w3 & Hlist & Hwf3 & Ho3 & Hks & Hall).
  unfold op_try. rewrite (on_io_disk _ s2 _ _ Hlist).
  destruct (delete_orphans_spec m ks 0 (set_disk w3 s2) Hwf3) as (n & w4 & -> & _ & Ho4).
  { apply Forall_forall. intros k [Hk _]%Hks. eapply st_known; [apply Hco2|done]. }
  eexists n, _. split; [done|]. split; [done|]. intros p.
  change (disk (set_disk w4 (set_disk w3 s2))) with w4. rewrite Ho4.
  change (disk (set_disk w3 s2)) with w3. cbn [fst] in Ho2. rewrite Ho3, Ho2, Ho1.
  destruct (decide (p ∈ ks ∧ _)) as [[Hin Ho]|Hno].
  - apply Hks in Hin as [_ Hu]. apply is_orphan_spec in Ho. by rewrite decide_True.
  - case_decide as Hd; [|done]. destruct Hd as [_ [Hu Ho]]. apply is_orphan_spec in Ho.
    destruct (st_objects (disk s) !! p) as [o|] eqn:Hp; [|done].
    exfalso. apply Hno. split; [|done]. apply Hall; [|done|].
    + rewrite Ho2, Ho1. cbn [fst]. by rewrite Hp.
    + apply is_orphan_spec in Ho as (_ & key & (e & num & -> & _) & Hkey). intros ->.
      destruct Hkey as [Hkey|Hkey]; apply (f_equal String.length) in Hkey;
        rewrite !string_length_app in Hkey; simpl in Hkey; lia.
Qed.
End lawful.

(** ** A whole life of a store *)

Section witnesses.
#[local] Existing Instance length_digests.
#[local] Existing Instance still_clock.
#[local] Existing Instance still_clock_laws.
#[local] Existing Instance bounded_channel.
#[local] Instance ls_manifest_json : Json Manifest := countable_json.
#[local] Instance ls_manifest_json_laws : JsonLaws Manifest := countable_json_laws.
#[local] Instance ls_footer_json : Json SstFooter := countable_json.
#[local] Instance ls_owner_json : Json OwnershipRecord := countable_json.
#[local] Instance ls_owner_json_laws : JsonLaws OwnershipRecord := countable_json_laws.
#[local] Instance ls_pointer_json : Json BlobPointer := countable_json.

Abbreviation store := (OxKvStore MemInner (LruCache string SstFile)).

Definition open_store (name : string) (w : MemInner) : Result (N * store) * MemInner :=
  build_with_cache "p" name true false (lru_new 1000 (λ _ _, 1%N)) w.

(** Opens a store on [w], runs [m] on it, and gives the storage back. *)
Definition session_of {A} (name : string) (m : N → Op store A) (w : MemInner) :
    Result A * MemInner :=
  match open_store name w with
  | (Ok (epoch, s), _) => let '(r, s') := m epoch s in (r, disk s')
  | (Err e, w) => (Err e, w)
  end.

(** Two acknowledged writes with a flush in between. *)
Definition two_writes (name : string) (epoch : N) : Op store () :=
  ox_put_bytes "p" epoch name "a" (as_bytes "1") ;;
  let! _ := flush_mem_to_sst_force "p" epoch name in
  ox_put_bytes "p" epoch name "b" (as_bytes "2").

(** A backend with an owner, a manifest that lists one log, and two logs. *)
Definition put_object (path : ObjectPath) (b : bytes) (w : MemInner) : MemInner :=
  (mem_put_opts path b Create w).2.
Definition owner : OwnershipRecord := MkOwnership 1 "w1" None None.
Definition one_log : Manifest := MkManifest 1 1 ["p/e000001/wal/00000000.log"] [].
Definition two_logs : MemInner :=
  put_object "p/e000001/wal/00000001.log" [x01]
    (put_object "p/e000001/wal/00000000.log" [x00]
      (put_object "p/manifest.json" (to_vec one_log)
        (put_object "p/ownership.json" (to_vec owner) mem_new))).
Definition holder : store :=
  MkOx ((two_logs, cache_new), lru_new 10 (λ _ _, 1%N)) ∅ 2 [] 0 [] hooks_default ∅ 0.

(** The holder's pass deletes the log the manifest forgot and keeps the other. *)
Lemma gc_orphans_exact_witness :
  ∃ n s', gc_orphans "p" 1 "w1" holder = (Ok n, s') ∧
    st_objects (disk s') !! "p/e000001/wal/00000001.log" = None ∧
    is_Some (st_objects (disk s') !! "p/e000001/wal/00000000.log").
Proof.
  assert (coherent "p" (ox_io holder).1) as Hco.
  { split; [exact I|]. split; [|by intros ? ? ?].
    intros b tag Heq. vm_compute in Heq. injection Heq as _ <-. discriminate. }
  assert (stored_manifest "p" 1 (disk holder) = Ok (one_log, "0000000000000002")) as Hm
    by (vm_compute; reflexivity).
  assert (st_objects (disk holder) !! ownership_path "p" =
    Some (to_vec owner, "0000000000000001")) as Hown by (vm_compute; reflexivity).
  destruct (gc_orphans_exact "p" 1 "w1" holder one_log _ owner _ Hco Hm Hown)
    as (n & s' & Hgc & _ & Ho).
  exists n, s'. split; [exact Hgc|]. rewrite !Ho. split.
  - apply decide_True. split; [split; reflexivity|]. split; [reflexivity|].
    split; [apply (bool_decide_unpack _); vm_compute; exact I|].
    exists "e000001/wal/00000001.log". split; [|right; reflexivity].
    exists "000001", "00000001". repeat split. apply le_n.
  - rewrite decide_False; [eexists; vm_compute; reflexivity|].
    intros [_ [_ [Hc _]]]. apply Hc. left.
Defined.


(** *** The public log collection *)

Definition read_back (k : string) (name : string) (w : MemInner) : Result (option bytes) :=
  (session_of name (λ epoch, ox_get_bytes "p" epoch k) w).1.

End witnesses.
