(* ===== verification/LsmInv.v ===== *)
(** The invariant of a store that owns its prefix: what its objects, its
    caches, its table and its counters have to do with one another and with the
    map the store stands for, and how the elementary storage operations of
    [LsmStore] keep it.  What the objects may stand for between two of these is
    a promise that the proofs carry along ([Promises]) and a backend can ask for
    ([Keeps]). *)

From stdpp Require Import options.
From S2P Require Import Prelude OrdMap Core Codec Hooks Snapshot Storage Json Ownership Manifest.
From S2P Require Import Blob Probe Wal Merge Sst SstSpec Cache Read ReadSpec LsmStore LsmPaths.
From S2P Require Import LsmSpec.

(** ** Views *)

(** A listed file: its manifest entry, the table in its bytes, and the table
    of the user values that its pointers stand for. *)
Record File := MkFile {
  f_meta : SstMeta;
  f_raw : MemMap;
  f_table : MemMap;
}.

(** What some files, newest first, hold for a key. *)
Fixpoint top (files : list File) (k : string) : option (option bytes) :=
  match files with
  | [] => None
  | f :: files => match f_table f !! k with Some v => Some v | None => top files k end
  end.

(** The live value of a key in a table over some files, oldest first. *)
Definition view (m : MemMap) (files : list File) (k : string) : option bytes :=
  match m !! k with Some v => v | None => mjoin (top (reverse files) k) end.

Lemma top_app l1 l2 k :
  top (l1 ++ l2) k = match top l1 k with Some v => Some v | None => top l2 k end.
Proof. induction l1 as [|f l1 IH]; [done|]. simpl. rewrite IH. by destruct (f_table f !! k). Qed.

Lemma top_newest l k : top l k = newest (bt_iter <$> (f_table <$> l)) k.
Proof.
  induction l as [|f l IH]; [done|]. cbn [fmap list_fmap top newest].
  by rewrite IH, assoc_bt_iter.
Qed.

Lemma view_merged m files k :
  view m files k = live (merged ([m] ++ (f_table <$> reverse files))) !! k.
Proof.
  unfold view, merged. rewrite live_join, newest_map_lookup, fmap_app, newest_app, top_newest.
  simpl. rewrite assoc_bt_iter. by destruct (m !! k).
Qed.

Lemma top_elem l k v : top l k = Some v → ∃ f, f ∈ l ∧ f_table f !! k = Some v.
Proof.
  induction l as [|f l IH]; [done|]. simpl. destruct (f_table f !! k) eqn:Hf.
  - intros [= ->]. exists f. split; [by left|done].
  - intros (g & ? & ?)%IH. exists g. split; [by right|done].
Qed.

Lemma top_None l k : top l k = None ↔ ∀ f, f ∈ l → f_table f !! k = None.
Proof.
  split.
  - induction l as [|f l IH]; [by intros _ g ?%elem_of_nil|]. simpl.
    destruct (f_table f !! k) eqn:Hf; [done|]. intros Ht g [->|]%elem_of_cons; [done|].
    by apply IH.
  - induction l as [|f l IH]; [done|]. intros Hl. simpl. rewrite (Hl f) by by left.
    apply IH. intros g ?. apply Hl. by right.
Qed.

Lemma apply_rows_lookup rows m k :
  apply_rows rows m !! k =
    match apply_rows rows ∅ !! k with Some v => Some v | None => m !! k end.
Proof.
  unfold apply_rows. induction rows as [|[k' v'] rows IH] using rev_ind; [done|].
  rewrite !foldl_app. simpl. destruct (decide (k = k')) as [->|].
  - by rewrite !lookup_insert_eq.
  - by rewrite !lookup_insert_ne.
Qed.

Lemma apply_rows_elem rows k v : apply_rows rows ∅ !! k = Some v → (k, v) ∈ rows.
Proof.
  unfold apply_rows. induction rows as [|[k' v'] rows IH] using rev_ind; [done|].
  rewrite foldl_app. simpl. intros [[-> ->]|[_ Hk]]%lookup_insert_Some; apply elem_of_app; [|by left; apply IH].
  right. by left.
Qed.

(** ** The workload *)

(** Two block sizes are in use, for the two levels. *)
Definition level_block (bs : N) : Prop := bs = DEFAULT_BLOCK_SIZE ∨ bs = L1_BLOCK_SIZE.

Section workload.
Context `{Digests} `{Json BlobPointer} `{Json SstFooter} (prefix : ObjectPath).
Context (K : string → Prop) (U : bytes → Prop).

Definition use_row (r : row) : Prop := K r.1 ∧ ∀ v, r.2 = Some v → U v.

(** What a file holds for a value: the value, or the pointer to its blob. *)
Inductive stored : bytes → Prop :=
| stored_value v : U v → stored v
| stored_spilled e k v bs :
    (e < U64)%N → K k → U v → level_block bs → is_overflow k v bs = true →
    stored (encode_blob_pointer (blob_path prefix e (blob_hash v)) (blen v) (crc32 v)).

Definition raw_row (r : row) : Prop := K r.1 ∧ ∀ v, r.2 = Some v → stored v.

(** What an application that uses the keys [K] and the values [U] has to grant:
    lengths that the formats can express, values that do not look like blob
    pointers, no digest collision among them, and files below 4 GiB. *)
Class Workload : Prop := {
  wl_row r : raw_row r → op_ok r;
  wl_plain v : U v → try_decode_blob_pointer v = None;
  wl_hash u v : U u → U v → blob_hash u = blob_hash v → u = v;
  wl_small t bs data : level_block bs → (∀ k v, t !! k = Some v → raw_row (k, v)) →
    build_sst t bs = Ok data → (blen data ≤ U32_MAX)%N;
}.

Lemma use_raw r : use_row r → raw_row r.
Proof. intros [Hk Hv]. split; [done|]. intros v Hr. by apply stored_value, Hv. Qed.

Definition use_table (m : MemMap) : Prop := ∀ k v, m !! k = Some v → use_row (k, v).
Definition raw_table (m : MemMap) : Prop := ∀ k v, m !! k = Some v → raw_row (k, v).

Lemma use_table_plain `{!Workload} m : use_table m → plain m.
Proof using Type. intros Hm k v Hk. destruct (Hm _ _ Hk) as [_ Hv]. by apply wl_plain, Hv. Qed.

Lemma use_raw_table m : use_table m → raw_table m.
Proof. intros Hm k v Hk. by apply use_raw, Hm. Qed.

Lemma use_table_rows m : use_table m ↔ Forall use_row (bt_iter m).
Proof.
  rewrite Forall_forall. split.
  - intros Hm [k v] Hin. apply Hm. by apply elem_of_bt_iter.
  - intros Hm k v Hk. apply Hm. by apply elem_of_bt_iter.
Qed.

Lemma use_apply_rows rows m : Forall use_row rows → use_table m → use_table (apply_rows rows m).
Proof.
  intros Hr Hm k v. rewrite apply_rows_lookup. destruct (apply_rows rows ∅ !! k) as [v'|] eqn:Hk.
  - intros [= ->]. rewrite Forall_forall in Hr. by apply Hr, apply_rows_elem.
  - apply Hm.
Qed.

(** Every pointer of a stored value names a blob. *)
Lemma stored_pointer `{!JsonLaws BlobPointer, !Workload} raw ptr :
  stored raw → try_decode_blob_pointer raw = Some ptr →
  ∃ e v, (e < U64)%N ∧ U v ∧ bp_blob ptr = blob_path prefix e (blob_hash v).
Proof using Type*.
  intros [v Hv|e k v bs He _ Hv _ _].
  - by rewrite wl_plain.
  - rewrite decode_encode_pointer. intros [= <-]. by exists e, v.
Qed.
End workload.

(** ** The objects *)

Section disk.
Context `{Digests} `{JsonLaws BlobPointer} `{JsonLaws SstFooter} (prefix : ObjectPath).
Context (K : string → Prop) (U : bytes → Prop) `{!Workload prefix K U}.
Abbreviation objects := (gmap string (bytes * string)).

(** A listed log holds the frames of its operations. *)
Definition log_ok (epoch : N) (objs : objects) (l : string * list row) : Prop :=
  Forall (use_row K U) l.2 ∧ (∃ tag, objs !! l.1 = Some (frames l.2, tag)) ∧
  ∃ e n, (e ≤ epoch)%N ∧ (n < U64)%N ∧ l.1 = wal_path prefix e n.

(** A listed file stands for its table. *)
Record file_ok (epoch : N) (objs : objects) (f : File) : Prop := {
  fo_stores : stores objs (λ _, True) (f_meta f) (f_raw f);
  fo_stands : table_stands objs (f_raw f) (f_table f);
  fo_raw : raw_table prefix K U (f_raw f);
  fo_use : use_table K U (f_table f);
  fo_id : ∃ e, (e ≤ epoch)%N ∧
    sm_id (f_meta f) = sst_path prefix e (sm_level (f_meta f)) (sm_seq (f_meta f));
  fo_seq : (sm_seq (f_meta f) < U64)%N;
  fo_level : sm_level (f_meta f) = 0%N ∨ sm_level (f_meta f) = 1%N;
}.

(** The list is in the order of the numbers, and level 1 comes before level 0. *)
Definition file_before (f g : File) : Prop :=
  (sm_seq (f_meta f) < sm_seq (f_meta g))%N ∧ (sm_level (f_meta g) ≤ sm_level (f_meta f))%N.

(** No key is in two files of level 1. *)
Definition level1_apart (files : list File) : Prop :=
  ∀ f g k, f ∈ files → g ∈ files → sm_level (f_meta f) = 1%N → sm_level (f_meta g) = 1%N →
    sm_seq (f_meta f) ≠ sm_seq (f_meta g) → f_table f !! k = None ∨ f_table g !! k = None.

(** The objects of an epoch whose next log and file numbers are [wn] and [sn]:
    the listed logs and files are sound, an object at the address of a value
    holds the value, and the numbers from here on are free. *)
Record disk_ok (epoch wn sn : N) (logs : list (string * list row)) (files : list File)
    (objs : objects) : Prop := {
  dk_logs : Forall (log_ok epoch objs) logs;
  dk_files : Forall (file_ok epoch objs) files;
  dk_order : StronglySorted file_before files;
  dk_apart : level1_apart files;
  dk_below : Forall (λ f, (sm_seq (f_meta f) < sn)%N) files;
  dk_blobs e v b tag : (e < U64)%N → U v →
    objs !! blob_path prefix e (blob_hash v) = Some (b, tag) → b = v;
  dk_wal_free e n : (e < U64)%N → (n < U64)%N → (epoch < e ∨ e = epoch ∧ wn ≤ n)%N →
    objs !! wal_path prefix e n = None;
  dk_sst_free e l n : (e < U64)%N → (n < U64)%N → (epoch < e ∨ e = epoch ∧ sn ≤ n)%N →
    objs !! sst_path prefix e l n = None;
  dk_once : NoDup logs.*1;
}.

Lemma log_ok_kind epoch objs l : log_ok epoch objs l → of_kind prefix WalKind l.1.
Proof. intros (_ & _ & e & n & _ & _ & ->). apply wal_kind. Qed.

Lemma file_ok_kind epoch objs f : file_ok epoch objs f → of_kind prefix SstKind (sm_id (f_meta f)).
Proof. intros [_ _ _ _ (e & _ & ->) _ _]. apply sst_kind. Qed.

(** What the listed logs and files depend on. *)
Lemma log_ok_frame epoch objs objs' l :
  objs' !! l.1 = objs !! l.1 → log_ok epoch objs l → log_ok epoch objs' l.
Proof. unfold log_ok. by intros ->. Qed.

Lemma stands_frame objs objs' t u :
  (∀ e v o, (e < U64)%N → U v → objs !! blob_path prefix e (blob_hash v) = Some o →
     objs' !! blob_path prefix e (blob_hash v) = Some o) →
  raw_table prefix K U t → table_stands objs t u → table_stands objs' t u.
Proof using All.
  intros Hb Hraw Hs k. specialize (Hs k). specialize (Hraw k).
  destruct Hs as [v v' Hv|]; constructor. destruct Hv as [raw w Hw|]; constructor.
  destruct (Hraw _ eq_refl) as [_ Hst]. specialize (Hst raw eq_refl).
  unfold stands_for in *. destruct (try_decode_blob_pointer raw) as [ptr|] eqn:Hd; [|done].
  destruct (stored_pointer prefix K U raw ptr Hst Hd) as (e & x & He & Hx & Hp).
  rewrite Hp in *. destruct Hw as ([tag Ho] & Hrest). split; [|done]. exists tag. by apply Hb.
Qed.

Lemma file_ok_frame epoch objs objs' f :
  objs' !! sm_id (f_meta f) = objs !! sm_id (f_meta f) →
  (∀ e v o, (e < U64)%N → U v → objs !! blob_path prefix e (blob_hash v) = Some o →
     objs' !! blob_path prefix e (blob_hash v) = Some o) →
  file_ok epoch objs f → file_ok epoch objs' f.
Proof using All.
  intros Ho Hb [Hst Hs Hraw Huse Hid Hseq Hlv]. split; [| |done..].
  - destruct Hst as (_ & data & tag & g & Hob & Hrest). split; [done|].
    exists data, tag, g. by rewrite Ho.
  - by eapply stands_frame.
Qed.
Lemma disk_frame epoch wn wn' sn sn' logs files objs objs' :
  disk_ok epoch wn sn logs files objs →
  (∀ l, l ∈ logs → objs' !! l.1 = objs !! l.1) →
  (∀ f, f ∈ files → objs' !! sm_id (f_meta f) = objs !! sm_id (f_meta f)) →
  (∀ e v o, (e < U64)%N → U v → objs !! blob_path prefix e (blob_hash v) = Some o →
     objs' !! blob_path prefix e (blob_hash v) = Some o) →
  (∀ e v b tag, (e < U64)%N → U v → objs !! blob_path prefix e (blob_hash v) = None →
     objs' !! blob_path prefix e (blob_hash v) = Some (b, tag) → b = v) →
  (∀ e n, (e < U64)%N → (n < U64)%N → (epoch < e ∨ e = epoch ∧ wn' ≤ n)%N →
     objs !! wal_path prefix e n = None → objs' !! wal_path prefix e n = None) →
  (∀ e l n, (e < U64)%N → (n < U64)%N → (epoch < e ∨ e = epoch ∧ sn' ≤ n)%N →
     objs !! sst_path prefix e l n = None → objs' !! sst_path prefix e l n = None) →
  (wn ≤ wn')%N → (sn ≤ sn')%N → disk_ok epoch wn' sn' logs files objs'.
Proof using All.
  intros [Hl Hf Hord Hap Hbel Hb Hw Hs Hone] Hl' Hf' Hmono Hb' Hw' Hs' Hwn Hsn.
  rewrite Forall_forall in Hl. rewrite Forall_forall in Hf. rewrite Forall_forall in Hbel. split; [..|done|done| | | | |done].
  - apply Forall_forall. intros l Hin. eapply log_ok_frame; [by apply Hl'|by apply Hl].
  - apply Forall_forall. intros f Hin. eapply file_ok_frame; [by apply Hf'|done|by apply Hf].
  - apply Forall_forall. intros f Hin. specialize (Hbel f Hin). lia.
  - intros e v b tag He Hv Ho. destruct (objs !! blob_path prefix e (blob_hash v)) as [[b0 t0]|] eqn:Ho0.
    + rewrite (Hmono _ _ _ He Hv Ho0) in Ho. injection Ho as <- <-. by eapply Hb.
    + by eapply Hb'.
  - intros e n He Hn Hen. apply Hw'; [done..|]. apply Hw; [done..|]. lia.
  - intros e l n He Hn Hen. apply Hs'; [done..|]. apply Hs; [done..|]. lia.
Qed.

Section changes.
Context (epoch wn sn : N) (logs : list (string * list row)) (files : list File).
Context (objs objs' : objects) (p : ObjectPath).
Hypothesis Hok : disk_ok epoch wn sn logs files objs.
Hypothesis Hoff : ∀ q, q ≠ p → objs' !! q = objs !! q.

Lemma listed_log l : l ∈ logs → log_ok epoch objs l.
Proof using Hok. destruct Hok as [Hl _ _ _ _ _ _ _ _]. rewrite Forall_forall in Hl. apply Hl. Qed.

Lemma listed_file f : f ∈ files → file_ok epoch objs f.
Proof using Hok. destruct Hok as [_ Hf _ _ _ _ _ _ _]. rewrite Forall_forall in Hf. apply Hf. Qed.

Lemma off_kind k k' q :
  of_kind prefix k p → of_kind prefix k' q → k ≠ k' → objs' !! q = objs !! q.
Proof using Hoff. intros Hp Hq Hk. apply Hoff. eapply kinds_apart; [done..|]. congruence. Qed.

(** What a change at a path of kind [k] leaves to show, by kind. *)
Lemma disk_change k wn' sn' :
  of_kind prefix k p →
  (k = WalKind → ∀ l, l ∈ logs → l.1 ≠ p) →
  (k = SstKind → ∀ f, f ∈ files → sm_id (f_meta f) ≠ p) →
  (k = BlobKind → ∃ e v tag, (e < U64)%N ∧ U v ∧ p = blob_path prefix e (blob_hash v) ∧
    objs' !! p = Some (v, tag) ∧ ∀ o, objs !! p = Some o → objs' !! p = Some o) →
  (k = WalKind → objs' !! p = None ∨ ∀ e n, (e < U64)%N → (n < U64)%N →
    (epoch < e ∨ e = epoch ∧ wn' ≤ n)%N → wal_path prefix e n ≠ p) →
  (k = SstKind → objs' !! p = None ∨ ∀ e l n, (e < U64)%N → (n < U64)%N →
    (epoch < e ∨ e = epoch ∧ sn' ≤ n)%N → sst_path prefix e l n ≠ p) →
  (wn ≤ wn')%N → (sn ≤ sn')%N → disk_ok epoch wn' sn' logs files objs'.
Proof using All.
  intros Hp Hl Hf Hb Hw Hs Hwn Hsn. pose proof (off_kind k) as Hq.
  eapply disk_frame; [done|..|done|done].
  - intros l Hin. destruct (decide (l.1 = p)) as [Heq|]; [|by apply Hoff].
    destruct k; try by (eapply Hq; [done|by eapply log_ok_kind, listed_log|]). by destruct (Hl eq_refl l Hin).
  - intros f Hin. destruct (decide (sm_id (f_meta f) = p)) as [Heq|]; [|by apply Hoff].
    destruct k; try by (eapply Hq; [done|by eapply file_ok_kind, listed_file|]).
    by destruct (Hf eq_refl f Hin).
  - intros e v o _ _ Ho. destruct (decide (blob_path prefix e (blob_hash v) = p)) as [Heq|];
      [|by rewrite Hoff].
    destruct k; try by (rewrite (Hq BlobKind); [done..|apply blob_kind|]).
    destruct (Hb eq_refl) as (_ & _ & _ & _ & _ & _ & _ & Hmono). rewrite Heq in *. by apply Hmono.
  - intros e v b tag He Hv Ho. destruct (decide (blob_path prefix e (blob_hash v) = p)) as [Heq|];
      [|rewrite Hoff by done; congruence].
    destruct k; try by (rewrite (Hq BlobKind); [congruence|done|apply blob_kind|]).
    destruct (Hb eq_refl) as (e' & v' & tag' & He' & Hv' & Hp' & Ho' & _). rewrite Heq, Ho'.
    intros [= <- _]. rewrite Hp' in Heq. apply blob_path_inj in Heq as [_ Heq]; [|done..].
    by eapply (wl_hash prefix K U).
  - intros e n He Hn Hen Ho. destruct (decide (wal_path prefix e n = p)) as [Heq|];
      [|by rewrite Hoff].
    destruct k; try by (rewrite (Hq WalKind); [done..|apply wal_kind|]).
    rewrite Heq. destruct (Hw eq_refl) as [|Hw']; [done|]. by destruct (Hw' e n He Hn Hen).
  - intros e l n He Hn Hen Ho. destruct (decide (sst_path prefix e l n = p)) as [Heq|];
      [|by rewrite Hoff].
    destruct k; try by (rewrite (Hq SstKind); [done..|apply sst_kind|]).
    rewrite Heq. destruct (Hs eq_refl) as [|Hs']; [done|]. by destruct (Hs' e l n He Hn Hen).
Qed.
End changes.

Section updates.
Context (epoch wn sn : N) (logs : list (string * list row)) (files : list File).
Context (objs : objects) (Hep : (epoch < U64)%N).
Hypothesis Hok : disk_ok epoch wn sn logs files objs.

Lemma insert_off p o q : q ≠ p → (<[p := o]> objs) !! q = objs !! q.
Proof using Type. intros Hq. by apply lookup_insert_ne. Qed.

Lemma listed_path_some p :
  objs !! p = None → (∀ l, l ∈ logs → l.1 ≠ p) ∧ (∀ f, f ∈ files → sm_id (f_meta f) ≠ p).
Proof using Hok.
  intros Hp. split.
  - intros l Hl <-. destruct (listed_log _ _ _ _ _ _ Hok l Hl) as (_ & [tag Ho] & _). congruence.
  - intros f Hf <-. destruct (fo_stores _ _ _ (listed_file _ _ _ _ _ _ Hok f Hf))
      as (_ & data & tag & g & Ho & _). congruence.
Qed.

Lemma disk_manifest o : disk_ok epoch wn sn logs files (<[manifest_path prefix := o]> objs).
Proof using All.
  eapply (disk_change _ _ _ _ _ _ _ _ Hok (insert_off _ _) ManifestKind); done || lia.
Qed.

Lemma disk_ownership o : disk_ok epoch wn sn logs files (<[ownership_path prefix := o]> objs).
Proof using All.
  eapply (disk_change _ _ _ _ _ _ _ _ Hok (insert_off _ _) OwnershipKind); done || lia.
Qed.

Lemma disk_log o :
  (wn + 1 < U64)%N → disk_ok epoch (wn + 1) sn logs files (<[wal_path prefix epoch wn := o]> objs).
Proof using All.
  intros Hwn. assert (objs !! wal_path prefix epoch wn = None) as Hfree
    by (apply (dk_wal_free _ _ _ _ _ _ Hok); lia).
  destruct (listed_path_some _ Hfree) as [Hl Hf].
  eapply (disk_change _ _ _ _ _ _ _ _ Hok (insert_off _ _) WalKind); try done; [apply wal_kind| |lia..].
  intros _. right. intros e n He Hn Hen Heq.
  apply wal_path_inj in Heq as [-> ->]; [lia|done || lia..].
Qed.

Lemma disk_file l o :
  (sn + 1 < U64)%N →
  disk_ok epoch wn (sn + 1) logs files (<[sst_path prefix epoch l sn := o]> objs).
Proof using All.
  intros Hsn. assert (objs !! sst_path prefix epoch l sn = None) as Hfree
    by (apply (dk_sst_free _ _ _ _ _ _ Hok); lia).
  destruct (listed_path_some _ Hfree) as [Hl Hf].
  eapply (disk_change _ _ _ _ _ _ _ _ Hok (insert_off _ _) SstKind); try done; [apply sst_kind| |lia..].
  intros _. right. intros e l' n He Hn Hen Heq.
  apply sst_path_inj in Heq as [-> ->]; [lia|done || lia..].
Qed.

Lemma disk_blob objs' v tag :
  U v → objs' !! blob_path prefix epoch (blob_hash v) = Some (v, tag) →
  (∀ q, q ≠ blob_path prefix epoch (blob_hash v) → objs' !! q = objs !! q) →
  (∀ q o, objs !! q = Some o → objs' !! q = Some o) → disk_ok epoch wn sn logs files objs'.
Proof using All.
  intros Hv Ho Hoff Hmono.
  eapply (disk_change _ _ _ _ _ _ _ _ Hok Hoff BlobKind); try done; [apply blob_kind|].
  intros _. exists epoch, v, tag. split_and!; try done. intros o. apply Hmono.
Qed.

Lemma disk_delete p :
  of_kind prefix WalKind p ∧ p ∉ logs.*1 ∨
  of_kind prefix SstKind p ∧ p ∉ (sm_id ∘ f_meta) <$> files →
  disk_ok epoch wn sn logs files (base.delete p objs).
Proof using All.
  assert (∀ q, q ≠ p → base.delete p objs !! q = objs !! q) as Hoff
    by (intros q Hq; by apply lookup_delete_ne).
  intros [[Hp Hn]|[Hp Hn]]; eapply (disk_change _ _ _ _ _ _ _ _ Hok Hoff _ _ _ Hp); try done.
  - intros _ l Hl <-. apply Hn. by apply list_elem_of_fmap_2.
  - intros _. left. apply lookup_delete_eq.
  - intros _ f Hf <-. apply Hn. apply list_elem_of_fmap. by exists f.
  - intros _. left. apply lookup_delete_eq.
Qed.

(** Listing a new log, and any change of the list of files. *)
Lemma disk_list_log l :
  log_ok epoch objs l → l.1 ∉ logs.*1 → disk_ok epoch wn sn (logs ++ [l]) files objs.
Proof using Hok.
  intros Hl Hn. destruct Hok. split; try done.
  - apply Forall_app. split; [done|by constructor].
  - rewrite fmap_app. apply NoDup_app. split; [done|]. split; [|apply NoDup_singleton].
    by intros q Hq ->%list_elem_of_singleton.
Qed.

Lemma disk_unlist_logs : disk_ok epoch wn sn [] files objs.
Proof using Hok. destruct Hok. split; try done. constructor. Qed.

Lemma disk_list_files files' :
  Forall (file_ok epoch objs) files' → StronglySorted file_before files' →
  level1_apart files' → Forall (λ f, (sm_seq (f_meta f) < sn)%N) files' →
  disk_ok epoch wn sn logs files' objs.
Proof using Hok. intros. destruct Hok. by split. Qed.
End updates.
End disk.

(** ** The listed files to a lookup *)

Section files.
Context `{Digests} `{JsonLaws BlobPointer} `{JsonLaws SstFooter} (prefix : ObjectPath) (epoch : N).
Context (K : string → Prop) (U : bytes → Prop) `{!Workload prefix K U}.

(** The ids of files whose numbers are used up. *)
Definition used_id (sn : N) (id : string) : Prop :=
  ∃ e l n, id = sst_path prefix e l n ∧ (e < U64)%N ∧ (n < U64)%N ∧
    (e < epoch ∨ e = epoch ∧ n < sn)%N.

Lemma used_id_kind sn id : used_id sn id → of_kind prefix SstKind id.
Proof. intros (e & l & n & -> & _). apply sst_kind. Qed.

Lemma used_id_mono sn sn' id : (sn ≤ sn')%N → used_id sn id → used_id sn' id.
Proof. intros Hle (e & l & n & -> & He & Hn & Hen). exists e, l, n. split_and!; try done. lia. Qed.

Lemma disk_known wn sn logs files objs f :
  disk_ok prefix K U epoch wn sn logs files objs → (epoch < U64)%N → f ∈ files →
  stores objs (used_id sn) (f_meta f) (f_raw f) ∧ table_stands objs (f_raw f) (f_table f).
Proof using Type*.
  intros Hd Hep Hf.
  destruct (listed_file _ _ _ _ _ _ _ _ _ Hd f Hf) as [[_ Hst] Hts _ _ (e & He & Hi) Hn _].
  split; [|done]. split; [|done]. exists e, (sm_level (f_meta f)), (sm_seq (f_meta f)).
  pose proof (dk_below _ _ _ _ _ _ _ _ _ Hd) as Hbel. rewrite Forall_forall in Hbel.
  specialize (Hbel f Hf). split_and!; [done|lia|done|]. lia.
Qed.

(** Newest first, as a lookup takes them. *)
Lemma disk_stored wn sn logs files objs :
  disk_ok prefix K U epoch wn sn logs files objs → (epoch < U64)%N →
  Forall2 (stores objs (used_id sn)) (reverse (f_meta <$> files)) (f_raw <$> reverse files) ∧
  Forall2 (table_stands objs) (f_raw <$> reverse files) (f_table <$> reverse files).
Proof using Type*.
  intros Hd Hep. rewrite <-fmap_reverse.
  split; apply Forall2_fmap, Forall_Forall2_diag, Forall_forall; intros f Hf;
    rewrite elem_of_reverse in Hf; by apply (disk_known _ _ _ _ _ _ Hd Hep Hf).
Qed.
End files.

(** ** What is promised of the objects *)

(** A writer can be stopped after any of its requests, and then its objects are
    what its successor finds.  [promised epoch V] says that they may stand for
    [V] then, and [spare] is the number of files that can still be numbered. *)
Class Promises := {
  promised : N → gmap string bytes → Prop;
  spare : N;
}.

Class Allowed `{Promises} (epoch : N) (V : gmap string bytes) : Prop := allowed : promised epoch V.

(** Nothing is promised. *)
#[export] Instance anything : Promises | 100 := {| promised _ _ := True; spare := 0 |}.
#[export] Instance anything_allowed epoch V : @Allowed anything epoch V := I.

Section promises.
Context `{JsonLaws Manifest} `{JsonLaws SstFooter} `{JsonLaws OwnershipRecord} `{Digests} `{JsonLaws BlobPointer}.
Context (prefix : ObjectPath) (K : string → Prop) (U : bytes → Prop).
Abbreviation objects := (gmap string (bytes * string)).

(** The epoch of the last owner; 0 before the first. *)
Definition owner_on (epoch : N) (objs : objects) : Prop :=
  match objs !! ownership_path prefix with
  | None => epoch = 0%N
  | Some (b, _) => ∃ rec, from_slice b = inr rec ∧ or_epoch rec = epoch
  end.

(** The map that listed logs stand for over listed files. *)
Definition logged (V : gmap string bytes) (logs : list (string * list row)) (files : list File) : Prop :=
  ∀ k, V !! k = view (apply_rows (mjoin logs.*2) ∅) files k.

(** The objects stand for [V]; their last owner had the epoch. *)
Record stands_at (room epoch : N) (V : gmap string bytes) (objs : objects) (wn sn : N) (m : Manifest)
    (etag : string) (logs : list (string * list row)) (files : list File) : Prop := {
  sd_disk : disk_ok prefix K U epoch wn sn logs files objs;
  sd_manifest : manifest_on prefix epoch m etag objs;
  sd_wal : mf_wal m = logs.*1;
  sd_sst : mf_sst m = f_meta <$> files;
  sd_logged : logged V logs files;
  sd_room : (sn + room < U64)%N;
  sd_owner : owner_on epoch objs;
}.

Definition stands (room epoch : N) (V : gmap string bytes) (objs : objects) : Prop :=
  ∃ wn sn m etag logs files, stands_at room epoch V objs wn sn m etag logs files.
End promises.

(** The backend is content with objects that stand for what was promised. *)
Class Keeps (W : Type) `{StorageLaws W} `{JsonLaws Manifest} `{JsonLaws SstFooter} `{JsonLaws OwnershipRecord}
    `{Digests} `{JsonLaws BlobPointer} (prefix : ObjectPath) (K : string → Prop) (U : bytes → Prop)
    `{Promises} : Prop :=
  keeps epoch V objs : promised epoch V → stands prefix K U spare epoch V objs → st_safe W objs.

#[export] Instance unguarded_keeps `{StorageLaws W} `{!Unguarded W} `{JsonLaws Manifest} `{JsonLaws SstFooter}
  `{JsonLaws OwnershipRecord} `{Digests} `{JsonLaws BlobPointer} prefix K U `{Promises} : Keeps W prefix K U.
Proof. intros epoch V objs _ _. apply unguarded. Qed.
#[export] Hint Extern 0 (Keeps _ _ _ _) => apply _ : core.
#[export] Hint Extern 0 (Allowed _ _) => apply _ : core.

(** ** The objects under their caches *)

Section io.
Context {W C : Type} `{ClockLaws W} `{JsonLaws Manifest} `{JsonLaws SstFooter}
  `{JsonLaws OwnershipRecord} `{Digests} `{JsonLaws BlobPointer}
  `{!Cache C string SstFile, !CacheLaws C string SstFile} `{Ch : Channel}.
Context (prefix : ObjectPath) (epoch : N) (session : string) `{!StorePaths W prefix}.
Context (K : string → Prop) (U : bytes → Prop) `{!Workload prefix K U} `{Pr : Promises, !Keeps W prefix K U}.
Abbreviation reading := ((W * ManifestCache) * C)%type.
Abbreviation writer := (OxKvStore W C).
Abbreviation objects := (gmap string (bytes * string)).

Definition owned (objs : objects) : Prop :=
  ∃ rec tag, objs !! ownership_path prefix = Some (to_vec rec, tag) ∧
    or_epoch rec = epoch ∧ or_owner_session rec = session.

Record io_ok (wn sn : N) (m : Manifest) (etag : string) (logs : list (string * list row))
    (files : list File) (io : reading) : Prop := {
  io_disk : disk_ok prefix K U epoch wn sn logs files (st_objects io.1.1);
  io_current : current prefix epoch m etag io.1;
  io_owner : owned (st_objects io.1.1);
  io_wal : mf_wal m = logs.*1;
  io_sst : mf_sst m = f_meta <$> files;
  io_cached : files_cached (st_objects io.1.1) (used_id prefix epoch sn) io.2;
  io_promised V : logged V logs files → promised epoch V;
  io_spare : (sn + spare < U64)%N;
}.

Lemma cached_frame sn sn' (objs objs' : objects) (c : C) :
  files_cached objs (used_id prefix epoch sn) c → (sn ≤ sn')%N →
  (∀ id o, used_id prefix epoch sn id → objs' !! id = Some o → objs !! id = Some o) →
  files_cached objs' (used_id prefix epoch sn') c.
Proof.
  intros Hc Hle Ho id f Hv. destruct (Hc id f Hv) as [Hu Hp].
  split; [by eapply used_id_mono|]. intros data tag Hob. by eapply Hp, Ho.
Qed.

(** A change that keeps what is listed leaves objects that stand for the same. *)
Lemma safe_change wn sn m etag logs files io wn' sn' objs :
  io_ok wn sn m etag logs files io → disk_ok prefix K U epoch wn' sn' logs files objs →
  (∀ q, q = manifest_path prefix ∨ q = ownership_path prefix → objs !! q = st_objects io.1.1 !! q) →
  (sn' + spare < U64)%N → st_safe W objs.
Proof using Type*.
  intros [_ (_ & Hm & _) (rec & tag & Hown & He & _) Hw Hs _ Hp _] Hd Hsame Hroom.
  set (V := live (merged ([apply_rows (mjoin logs.*2) ∅] ++ (f_table <$> reverse files)))).
  assert (logged V logs files) as HV by (intros k; by rewrite view_merged).
  apply (keeps epoch V objs); [by apply Hp|]. exists wn', sn', m, etag, logs, files. split; try done.
  - unfold manifest_is, manifest_on in *. rewrite (Hsame (manifest_path prefix)); [done|by left].
  - unfold owner_on. rewrite (Hsame (ownership_path prefix)), Hown; [|by right]. exists rec. by rewrite from_to_vec.
Qed.

Lemma off_heads kd p q :
  of_kind prefix kd p → kd = WalKind ∨ kd = SstKind ∨ kd = BlobKind →
  q = manifest_path prefix ∨ q = ownership_path prefix → p ≠ q.
Proof using Type.
  intros Hp Hk [->| ->]; [eapply (kinds_apart prefix kd ManifestKind)|eapply (kinds_apart prefix kd OwnershipKind)];
    try done; by destruct Hk as [->|[->| ->]].
Qed.

(** A change of an object that is no file, nor the manifest or the record. *)
Lemma io_change wn sn wn' m etag logs files w w' c k p kd :
  io_ok wn sn m etag logs files ((w, c), k) → st_wf w' →
  of_kind prefix kd p → kd = WalKind ∨ kd = BlobKind →
  (∀ q, q ≠ p → st_objects w' !! q = st_objects w !! q) →
  disk_ok prefix K U epoch wn' sn logs files (st_objects w') →
  io_ok wn' sn m etag logs files ((w', c), k).
Proof using Type.
  intros [Hd Hc Ho Hw Hs Hf] Hwf Hp Hk Hoff Hd'.
  assert (∀ k' q, of_kind prefix k' q → kd ≠ k' → st_objects w' !! q = st_objects w !! q) as Hq.
  { intros k' q Hq Hne. apply Hoff. eapply kinds_apart; [done..|]. congruence. }
  split; cbn [fst snd] in *; try done.
  - eapply current_same; [done..|]. by apply (Hq ManifestKind); [|destruct Hk as [->| ->]].
  - destruct Ho as (rec & tag & Ho & Hr). exists rec, tag. split; [|done].
    by rewrite (Hq OwnershipKind); [|done|destruct Hk as [->| ->]].
  - eapply cached_frame; [done..|]. intros id o Hu%used_id_kind.
    by rewrite (Hq SstKind id); [|done|destruct Hk as [->| ->]].
Qed.

Lemma io_same wn sn m etag logs files w w' c k :
  io_ok wn sn m etag logs files ((w, c), k) → st_wf w' → st_objects w' = st_objects w →
  io_ok wn sn m etag logs files ((w', c), k).
Proof using Type.
  intros [Hd Hc Ho Hw Hs Hf] Hwf Heq. split; cbn [fst snd] in *; rewrite ?Heq; try done.
  eapply current_same; [done..|by rewrite Heq].
Qed.

(** *** The operations on the objects *)

Hypothesis Hep : (epoch < U64)%N.
Context (wn sn : N) (m : Manifest) (etag : string).
Context (logs : list (string * list row)) (files : list File).
Abbreviation ok := (io_ok wn sn m etag logs files).

(** The step touches only the storage and the caches, keeps [ok], and leaves
    the objects as they are. *)
Definition reads {A} (op : Op writer A) (a : A) : Prop :=
  ∀ s, ok (ox_io s) → ∃ io, op s = (Ok a, set_io io s) ∧ ok io ∧
    st_objects io.1.1 = st_objects (disk s).

Lemma load_any ttl s :
  ok (ox_io s) → ∃ io, on_io (on_engine (load_manifest prefix epoch ttl)) s =
    (Ok (m, etag), set_io io s) ∧ ok io ∧ st_objects io.1.1 = st_objects (disk s).
Proof using Type*.
  intros [Hd Hc Ho Hw Hs Hf]. unfold disk. destruct (ox_io s) as [[w c] k] eqn:Hio.
  cbn [fst snd] in *. destruct (load_current prefix epoch ttl m etag w c Hc) as (s' & Hl & Ho' & Hc').
  exists (s', k). unfold on_io, on_engine, op_zoom. rewrite Hio. cbn [fst snd]. rewrite Hl.
  split; [done|]. split; [|done]. split; cbn [fst snd]; rewrite ?Ho'; done.
Qed.

Lemma load_reads : reads (load prefix epoch) (m, etag).
Proof using Type*. intros s. apply load_any. Qed.
Lemma load_fresh_reads : reads (load_fresh prefix epoch) (m, etag).
Proof using Type*. intros s. apply load_any. Qed.

Lemma owner_reads missing : reads (check_owner prefix epoch session missing) ().
Proof using Type*.
  intros s Hs. pose proof Hs as [_ [Hwf _] (rec & tag & Ho & Hr) _ _ _].
  destruct (check_owner_spec prefix epoch session missing rec tag s Hwf Ho)
    as (r & w' & -> & Hwf' & Ho' & Hd).
  rewrite decide_True in Hd by done. subst r. eexists. split; [done|]. split; [|done].
  destruct (ox_io s) as [[w c] k] eqn:Hio. unfold disk in *. rewrite Hio in *.
  by eapply io_same.
Qed.

(** The upload of the next log. *)
Lemma put_log_ok payload s :
  ok (ox_io s) → (wn + 1 < U64)%N →
  ∃ io tag, put_new "wal" (wal_path prefix epoch wn) wn payload s = (Ok (), set_io io s) ∧
    io_ok (wn + 1) sn m etag logs files io ∧
    st_objects io.1.1 !! wal_path prefix epoch wn = Some (payload, tag).
Proof using Type*.
  intros Hs Hwn. pose proof Hs as [Hd [Hwf _] _ Hw _ _ _ Hsp].
  destruct (put_new_spec "wal" (wal_path prefix epoch wn) wn payload s Hwf)
    as (r & w' & -> & Hwf' & Hr).
  { intros tag _ _. eapply (safe_change _ _ _ _ _ _ _ (wn + 1) sn _ Hs); [by apply disk_log| |done].
    intros q Hq. apply lookup_insert_ne. eapply off_heads; [apply wal_kind|by left|done]. }
  rewrite (dk_wal_free _ _ _ _ _ _ _ _ _ Hd) in Hr by lia. destruct Hr as (-> & tag & Ho).
  exists ((w', (ox_io s).1.2), (ox_io s).2), tag. split; [done|]. cbn [fst snd].
  rewrite Ho, lookup_insert_eq. split; [|done].
  unfold disk in *. destruct (ox_io s) as [[w c] k]. cbn [fst snd] in *.
  eapply io_change; [done..|apply wal_kind|by left| |].
  - intros q Hq. rewrite Ho. by apply lookup_insert_ne.
  - rewrite Ho. by apply disk_log.
Qed.

(** The upload of the next file. *)
Lemma put_file_ok what l payload s :
  ok (ox_io s) → (sn + 1 + spare < U64)%N →
  ∃ io tag, put_new what (sst_path prefix epoch l sn) sn payload s = (Ok (), set_io io s) ∧
    io_ok wn (sn + 1) m etag logs files io ∧
    st_objects io.1.1 = <[sst_path prefix epoch l sn := (payload, tag)]> (st_objects (disk s)).
Proof using Type*.
  intros Hs Hsn. pose proof Hs as [Hd [Hwf _] _ Hw _ _ Hpr _].
  destruct (put_new_spec what (sst_path prefix epoch l sn) sn payload s Hwf)
    as (r & w' & -> & Hwf' & Hr).
  { intros tag _ _. eapply (safe_change _ _ _ _ _ _ _ wn (sn + 1) _ Hs); [apply disk_file; done || lia| |done].
    intros q Hq. apply lookup_insert_ne. eapply off_heads; [apply sst_kind|by right; left|done]. }
  rewrite (dk_sst_free _ _ _ _ _ _ _ _ _ Hd) in Hr by lia. destruct Hr as (-> & tag & Ho).
  exists ((w', (ox_io s).1.2), (ox_io s).2), tag. split; [done|]. split; [|done]. cbn [fst snd].
  unfold disk in *. destruct (ox_io s) as [[w c] k]. cbn [fst snd] in *.
  assert (∀ k' q, of_kind prefix k' q → k' ≠ SstKind → st_objects w' !! q = st_objects w !! q) as Hq.
  { intros k' q Hq Hne. rewrite Ho. apply lookup_insert_ne. eapply kinds_apart;
      [apply sst_kind|done|congruence]. }
  destruct Hs as [_ Hc Hown _ Hss Hf]. split; cbn [fst snd] in *; try done.
  - rewrite Ho. apply disk_file; done || lia.
  - eapply current_same; [done..|]. by apply (Hq ManifestKind).
  - destruct Hown as (rec & t & Hown & Hr). exists rec, t. by rewrite (Hq OwnershipKind).
  - eapply cached_frame; [done|lia|]. intros id o (e & l' & n & -> & He & Hn & Hen).
    rewrite Ho, lookup_insert_ne; [done|]. intros Heq. apply sst_path_inj in Heq; lia.
Qed.

(** A manifest write, and the update of its cache. *)
Lemma publish_ok m' logs' files' s :
  ok (ox_io s) → mf_wal m' = logs'.*1 → mf_sst m' = f_meta <$> files' →
  disk_ok prefix K U epoch wn sn logs' files' (st_objects (disk s)) →
  (∀ V, logged V logs' files' → promised epoch V) →
  ∃ tag io1 io, cas prefix m' etag s = (Ok tag, set_io io1 s) ∧
    update_cache m' tag (set_io io1 s) = (Ok (), set_io io s) ∧
    io_ok wn sn m' tag logs' files' io ∧
    ∀ q, q ≠ manifest_path prefix → st_objects io.1.1 !! q = st_objects (disk s) !! q.
Proof using Type*.
  intros [_ Hc Hown _ _ Hf _ Hsp] Hw' Hs' Hd' Hpr.
  unfold disk in *. destruct (ox_io s) as [[w c] k] eqn:Hio. cbn [fst snd] in *.
  destruct (cas_current prefix epoch m etag m' w c Hc) as (tag & w1 & Hcas & Hwf1 & Ho1 & Hm1).
  { intros tag Ht. set (V := live (merged ([apply_rows (mjoin logs'.*2) ∅] ++ (f_table <$> reverse files')))).
    assert (logged V logs' files') as HV by (intros q; by rewrite view_merged).
    apply (keeps epoch V); [by apply Hpr|]. exists wn, sn, m', tag, logs', files'. split; try done.
    - by apply disk_manifest.
    - unfold manifest_on. rewrite lookup_insert_eq. by rewrite from_to_vec.
    - destruct Hown as (rec & t & Hown & He & _). unfold owner_on.
      rewrite lookup_insert_ne by by eapply (kinds_apart prefix ManifestKind OwnershipKind).
      rewrite Hown. exists rec. by rewrite from_to_vec. }
  destruct (current_publish prefix epoch m' tag w1 c Hwf1 Hm1) as ([w2 c2] & Hpub & Ho2 & Hc2).
  cbn [fst snd] in *. exists tag, ((w1, c), k), ((w2, c2), k). split; [|split; [|split]].
  - unfold cas. rewrite (on_io_disk _ s (Ok tag) w1); [|by unfold disk; rewrite Hio].
    unfold set_disk. by rewrite Hio.
  - unfold update_cache, on_io, on_engine, op_zoom. cbn [set_io ox_io fst snd]. by rewrite Hpub.
  - split; cbn [fst snd]; rewrite ?Ho2, ?Ho1; try done.
    + by apply disk_manifest.
    + destruct Hown as (rec & t & Hown & Hr). exists rec, t. split; [|done].
      rewrite lookup_insert_ne; [done|]. by eapply (kinds_apart prefix ManifestKind OwnershipKind).
    + eapply cached_frame; [done..|]. intros id o Hu%used_id_kind.
      rewrite lookup_insert_ne; [done|]. by eapply (kinds_apart prefix ManifestKind SstKind).
  - intros q Hq. cbn [fst]. rewrite Ho2, Ho1. by apply lookup_insert_ne.
Qed.

(** The deletion of an object that is not listed. *)
Lemma delete_ok p s :
  ok (ox_io s) → st_path W p →
  of_kind prefix WalKind p ∧ p ∉ logs.*1 ∨
    of_kind prefix SstKind p ∧ p ∉ (sm_id ∘ f_meta) <$> files →
  ∃ io, on_io (on_disk (st_delete p)) s = (Ok (), set_io io s) ∧ ok io.
Proof using Type*.
  intros Hok Hpath Hp. pose proof Hok as [Hd Hc Hown Hw Hss Hf Hpr Hsp]. pose proof Hc as [Hwf _].
  destruct (st_delete_law p (disk s) Hwf Hpath) as (w' & Hdel & Hwf' & Ho).
  { eapply (safe_change _ _ _ _ _ _ _ wn sn _ Hok); [by apply disk_delete| |done].
    intros q Hq. apply lookup_delete_ne. destruct Hp as [[Hk _]|[Hk _]]; (eapply off_heads; [exact Hk| |done]);
      [by left|by right; left]. }
  rewrite (on_io_disk _ s _ _ Hdel). eexists. split; [done|]. unfold disk in *.
  destruct (ox_io s) as [[w c] k]. cbn [fst snd] in *.
  assert (∀ k' q, of_kind prefix k' q → k' = ManifestKind ∨ k' = OwnershipKind →
    st_objects w' !! q = st_objects w !! q) as Hq.
  { intros k' q Hq Hk. rewrite Ho. apply lookup_delete_ne.
    destruct Hp as [[Hp _]|[Hp _]]; (eapply kinds_apart; [done..|]);
      by destruct Hk as [->| ->]. }
  split; cbn [fst snd]; try done.
  - rewrite Ho. by apply disk_delete.
  - eapply current_same; [done..|]. apply (Hq ManifestKind); [done|by left].
  - destruct Hown as (rec & t & Hown & Hr). exists rec, t.
    by rewrite (Hq OwnershipKind); [|done|right].
  - eapply cached_frame; [done..|]. intros id o _. rewrite Ho.
    by intros [_ Hid]%lookup_delete_Some.
Qed.

Lemma clear_reads : reads clear_cache ().
Proof using Type*.
  intros s [Hd (Hwf & Hm & _) Hown Hw Hss Hf]. unfold clear_cache, on_io, op_zoom.
  unfold disk. destruct (ox_io s) as [[w c] k]. eexists. split; [reflexivity|]. split; [|done].
  split; cbn [fst snd] in *; try done.
Qed.

Lemma cache_remove_reads id :
  reads (on_io (op_modify (λ io : reading, (io.1, cache_remove id io.2)))) ().
Proof using Type*.
  intros s [Hd Hc Hown Hw Hss Hf]. unfold on_io, op_zoom, op_modify.
  eexists. split; [reflexivity|]. unfold disk. destruct (ox_io s) as [[w c] k]. split; [|done].
  split; cbn [fst snd] in *; try done. intros id' f. rewrite cache_remove_law.
  intros [_ Hv]%lookup_delete_Some. by apply Hf.
Qed.

(** *** Large values *)

Lemma stands_mono (objs objs' : objects) raw v :
  (∀ p o, objs !! p = Some o → objs' !! p = Some o) →
  stands_for objs raw v → stands_for objs' raw v.
Proof using Type.
  intros Hmono. unfold stands_for. destruct (try_decode_blob_pointer raw); [|done].
  intros ([tag Ho] & Hrest). split; [|done]. exists tag. by apply Hmono.
Qed.

(** The rows that stand for some user rows over the objects. *)
Definition spilled_rows (objs : objects) (raw rows : list row) : Prop :=
  Forall2 (λ x y : row, x.1 = y.1 ∧ option_Forall2 (stands_for objs) x.2 y.2) raw rows ∧
  Forall (raw_row prefix K U) raw.

Lemma put_blob_ok v s :
  ok (ox_io s) → U v →
  ∃ io tag, on_io (on_disk (put_blob prefix epoch v)) s =
      (Ok (blob_path prefix epoch (blob_hash v)), set_io io s) ∧ ok io ∧
    st_objects io.1.1 !! blob_path prefix epoch (blob_hash v) = Some (v, tag) ∧
    ∀ p o, st_objects (disk s) !! p = Some o → st_objects io.1.1 !! p = Some o.
Proof using Type*.
  intros Hs Hv. pose proof Hs as [Hd [Hwf _] _ Hw _ _ _ Hsp].
  destruct (put_blob_spec prefix epoch v (disk s) Hwf) as
    (w' & Hput & Hwf' & [tag Ho] & Hoff & Hmono).
  { intros b tag Ho. by eapply (dk_blobs _ _ _ _ _ _ _ _ _ Hd epoch). }
  { intros tag _ Hnone. eapply (safe_change _ _ _ _ _ _ _ wn sn _ Hs); [eapply disk_blob; try done| |done].
    - apply lookup_insert_eq.
    - intros q Hq. by apply lookup_insert_ne.
    - intros q o Ho. rewrite lookup_insert_ne; [done|]. intros <-. unfold disk in Hnone. congruence.
    - intros q Hq. apply lookup_insert_ne. eapply off_heads; [apply blob_kind|by right; right|done]. }
  rewrite (on_io_disk _ s _ _ Hput). eexists _, tag. split; [done|]. split; [|done].
  unfold disk in *. destruct (ox_io s) as [[w c] k]. cbn [fst snd] in *.
  eapply io_change; [exact Hs|exact Hwf'|apply blob_kind|by right|done|].
  by eapply disk_blob.
Qed.

Lemma spill_ok bs rows s :
  ok (ox_io s) → level_block bs → Forall (use_row K U) rows →
  ∃ raw io, spill_rows prefix epoch bs rows s = (Ok raw, set_io io s) ∧ ok io ∧
    spilled_rows (st_objects io.1.1) raw rows ∧
    ∀ p o, st_objects (disk s) !! p = Some o → st_objects io.1.1 !! p = Some o.
Proof using Type*.
  intros Hs Hbs Hrows. revert s Hs. induction Hrows as [|[k v] rows [Hk Hv] _ IH]; intros s Hs.
  { exists [], (ox_io s). split; [by destruct s|]. split; [done|]. split; [|done]. by split. }
  cbn [spill_rows].
  assert (∃ v' io, (match v with
      | Some b => if is_overflow k b bs then
          let! path := on_io (on_disk (put_blob prefix epoch b)) in
          op_ret (Some (encode_blob_pointer path (blen b) (crc32 b)))
        else op_ret (Some b)
      | None => op_ret None end : Op writer (option bytes)) s = (Ok v', set_io io s) ∧ ok io ∧
    option_Forall2 (stands_for (st_objects io.1.1)) v' v ∧ raw_row prefix K U (k, v') ∧
    ∀ p o, st_objects (disk s) !! p = Some o → st_objects io.1.1 !! p = Some o)
    as (v' & io1 & Hm & Hs1 & Hst & Hraw & Hmono).
  { assert (∀ x : option bytes, op_ret x s = (Ok x, set_io (ox_io s) s)) as Hret by by destruct s.
    destruct v as [b|].
    - specialize (Hv b eq_refl). simpl in *. destruct (is_overflow k b bs) eqn:Hov.
      + destruct (put_blob_ok b s Hs Hv) as (io & tag & Hput & Hio & Ho & Hmono).
        rewrite (op_bind_ok _ _ _ _ _ Hput). eexists _, io. split; [done|]. split; [done|].
        split; [|split; [|done]].
        * constructor. unfold stands_for. rewrite decode_encode_pointer. simpl.
          split; [by exists tag|done].
        * split; [done|]. intros ? [= <-]. by eapply stored_spilled.
      + rewrite Hret. eexists _, _. split; [done|]. split; [done|]. split; [|split; [|done]].
        * constructor. unfold stands_for. by rewrite (wl_plain prefix K U).
        * split; [done|]. intros ? [= <-]. by apply stored_value.
    - rewrite Hret. eexists _, _. split; [done|]. split; [done|]. split; [constructor|].
      by split. }
  rewrite (op_bind_ok _ _ _ _ _ Hm).
  destruct (IH (set_io io1 s) Hs1) as (raw & io & Hr & Hio & [Hsp Hraws] & Hmono').
  rewrite (op_bind_ok _ _ _ _ _ Hr). exists ((k, v') :: raw), io. split; [done|].
  split; [done|]. change (disk (set_io io1 s)) with io1.1.1 in Hmono'. split; [|by eauto].
  split; [|by constructor]. constructor; [|done]. split; [done|]. simpl.
  destruct Hst; constructor. by eapply stands_mono.
Qed.

(** *** New files *)

Lemma spilled_table objs raw u :
  spilled_rows objs raw (bt_iter u) →
  table_stands objs (list_to_map raw) u ∧ raw_table prefix K U (list_to_map raw).
Proof using Type.
  intros [Hst Hraw].
  assert (raw.*1 = (bt_iter u).*1) as Hkeys.
  { clear Hraw. induction Hst as [|x y l l' [Hxy _] _ IH]; [done|]. rewrite !fmap_cons. by rewrite Hxy, IH. }
  assert (NoDup raw.*1) as Hnd by (rewrite Hkeys; apply bt_iter_NoDup_keys).
  split.
  - intros k. destruct (u !! k) as [v|] eqn:Hk.
    + apply elem_of_bt_iter, list_elem_of_lookup in Hk as [j Hj].
      destruct (Forall2_lookup_r _ _ _ _ _ Hst Hj) as ([k' v'] & Hj' & Heq & Hv).
      cbn [fst snd] in *. subst k'.
      rewrite (elem_of_list_to_map_1 _ _ v'); [by constructor|done|].
      by eapply list_elem_of_lookup_2.
    + rewrite not_elem_of_list_to_map_1; [constructor|]. rewrite Hkeys.
      intros ([k' v] & -> & Hin)%list_elem_of_fmap. apply elem_of_bt_iter in Hin.
      simpl in *. congruence.
  - intros k v Hk. apply elem_of_list_to_map_2 in Hk. rewrite Forall_forall in Hraw.
    by apply Hraw.
Qed.

Lemma key_span (t : MemMap) k : is_Some (t !! k) → first_key t ≤ₖ k ∧ k ≤ₖ last_key t.
Proof using Type.
  intros [v Hk%elem_of_bt_iter]. unfold first_key, last_key.
  pose proof (bt_iter_sorted t) as Hs. revert Hs Hk. generalize (bt_iter t). intros l Hs Hk. split.
  - destruct l as [|[a x] l]; [by apply elem_of_nil in Hk|]. simpl.
    apply sorted_entries_cons in Hs as [_ Hlt].
    apply elem_of_cons in Hk as [Heq|Hin]; [simplify_eq; key_order|].
    specialize (Hlt _ _ Hin). key_order.
  - destruct l as [|[a x] l _] using rev_ind; [by apply elem_of_nil in Hk|].
    rewrite last_snoc. simpl. apply sorted_entries_app in Hs as (_ & _ & Hlt).
    apply elem_of_app in Hk as [Hin|[Heq|?%elem_of_nil]%elem_of_cons]; [|simplify_eq; key_order|done].
    assert (k <ₖ a) by (eapply Hlt; [exact Hin|by left]). key_order.
Qed.

(** The bytes a spilled table is built into make a sound file of it. *)
Lemma build_file (objs : objects) (raw : list row) (u : MemMap) bs :
  level_block bs → use_table K U u → spilled_rows objs raw (bt_iter u) →
  let t : MemMap := list_to_map raw in
  ∃ data, build_sst t bs = Ok data ∧ data ≠ [] ∧
    ∀ objs' tag e l n, (∀ p o, objs !! p = Some o → objs' !! p = Some o) →
      objs' !! sst_path prefix e l n = Some (data, tag) → (e ≤ epoch)%N → (n < U64)%N →
      (l = 0 ∨ l = 1)%N →
      file_ok prefix K U epoch objs'
        (MkFile (MkSstMeta (sst_path prefix e l n) n l (first_key t) (last_key t) (blen data)) t u).
Proof using Type*.
  intros Hbs Hu Hsp t. destruct (spilled_table _ _ _ Hsp) as [Hst Hraw]. fold t in Hst, Hraw.
  destruct (build_sst_holds t bs) as (data & f & Hb & Hp & Hf).
  { apply Forall_forall. intros [k v] Hin%elem_of_bt_iter. by eapply (wl_row prefix K U), Hraw. }
  { intros data. by eapply (wl_small prefix K U). }
  exists data. split; [done|]. split.
  { intros ->. unfold parse in Hp. by vm_compute in Hp. }
  intros objs' tag e l n Hmono Ho He Hn Hl. split; cbn [f_meta f_raw f_table sm_id sm_seq sm_level];
    [| |done|done|by exists e|done|done].
  - split; [done|]. exists data, tag, f. split_and!; try done. intros k. apply key_span.
  - intros k. destruct (Hst k) as [v v' Hv|]; constructor. destruct Hv; constructor.
    by eapply stands_mono.
Qed.
End io.
