(* ===== verification/LsmDurable.v ===== *)
(** The writer keeps what it acknowledged: under the invariant [sound], the
    store stands for one map, which reads answer from, which writes update,
    which flushes, compactions and collections keep, and which a later session
    recovers from the objects alone. *)

From stdpp Require Import options.
From S2P Require Import Prelude OrdMap Core Codec Hooks Snapshot Storage Json Ownership Manifest.
From S2P Require Import Blob Probe Wal Merge Sst SstSpec Cache Read ReadSpec LsmStore LsmPaths.
From S2P Require Import LsmSpec LsmInv.

(** ** Tables and lists *)

Lemma discard_rows_lookup rows (m : MemMap) k :
  NoDup rows.*1 →
  discard_rows rows m !! k =
    match m !! k with
    | Some v => if decide ((k, v) ∈ rows) then None else Some v
    | None => None
    end.
Proof.
  unfold discard_rows. revert m. induction rows as [|[k' v'] rows IH]; intros m Hnd.
  { simpl. by destruct (m !! k). }
  rewrite fmap_cons, NoDup_cons in Hnd. destruct Hnd as [Hk' Hnd]. cbn [foldl]. rewrite IH by done.
  cbn [fst snd]. destruct (decide (k = k')) as [->|Hne].
  - assert (∀ v, (k', v) ∉ rows) as Hno.
    { intros v Hin. apply Hk'. apply list_elem_of_fmap. by exists (k', v). }
    case_bool_decide as Hm.
    + rewrite Hm, lookup_delete_eq. rewrite decide_True by by left. done.
    + destruct (m !! k') as [v|]; [|done]. rewrite !decide_False; [done| |by apply Hno].
      intros [Heq|?]%elem_of_cons; [by simplify_eq|by eapply Hno].
  - assert ((if bool_decide (m !! k' = Some v') then base.delete k' m else m) !! k = m !! k) as ->.
    { case_bool_decide; [by rewrite lookup_delete_ne|done]. }
    destruct (m !! k) as [v|]; [|done]. apply decide_ext. rewrite elem_of_cons. naive_solver.
Qed.

Lemma discard_all (m : MemMap) : discard_rows (bt_iter m) m = ∅.
Proof.
  apply map_eq. intros k. rewrite discard_rows_lookup by apply bt_iter_NoDup_keys.
  rewrite lookup_empty. destruct (m !! k) as [v|] eqn:Hk; [|done].
  by rewrite decide_True by by apply elem_of_bt_iter.
Qed.

Lemma wrapping_inc_small n : (n + 1 < U64)%N → wrapping_inc n = (n + 1)%N.
Proof. intros Hn. unfold wrapping_inc. by apply N.mod_small. Qed.

Lemma find_id_None id metas : (∀ m, m ∈ metas → sm_id m ≠ id) → find_id id metas = None.
Proof.
  intros Hno. unfold find_id.
  assert (list_find (λ m, sm_id m = id) metas = None) as ->; [|done].
  apply list_find_None. apply Forall_forall. intros m Hm. by apply Hno.
Qed.

Lemma sorted_snoc {A} (R : A → A → Prop) l x :
  StronglySorted R l → Forall (λ y, R y x) l → StronglySorted R (l ++ [x]).
Proof.
  induction 1 as [|y l Hs IH Hy]; intros Hx; simpl; [by repeat constructor|].
  apply Forall_cons in Hx as [Hyx Hx]. constructor; [by apply IH|].
  apply Forall_app. by split; [|constructor].
Qed.

(** ** Views *)

Lemma view_flush m files f k :
  f_table f = m → view ∅ (files ++ [f]) k = view m files k.
Proof.
  intros <-. unfold view. rewrite lookup_empty, reverse_snoc. simpl.
  by destruct (f_table f !! k).
Qed.

(** Entries above do not mind a flush of what is visible below them. *)
Lemma view_over m m' files f k :
  f_table f = m → view m files k = view m' files k → view m' (files ++ [f]) k = view m' files k.
Proof.
  intros <- Heq. unfold view in *. rewrite reverse_snoc. simpl.
  destruct (m' !! k) as [v|], (f_table f !! k); done.
Qed.

(** A flushed table shows through where the table above is silent. *)
Lemma view_between m files f k :
  view m (files ++ [f]) k = view m files k ∨ view m (files ++ [f]) k = view (f_table f) files k.
Proof.
  unfold view. rewrite reverse_snoc. simpl. destruct (m !! k); [by left|].
  destruct (f_table f !! k); [by right|by left].
Qed.

Lemma view_below m files files' k :
  mjoin (top (reverse files) k) = mjoin (top (reverse files') k) →
  view m files k = view m files' k.
Proof. unfold view. by destruct (m !! k). Qed.

(** Dropping operations that are covered by the files. *)
Lemma view_drop_logs old rows files k :
  view (apply_rows (old ++ rows) ∅) files k = view ∅ files k →
  view (apply_rows rows ∅) files k = view ∅ files k.
Proof.
  unfold view. rewrite lookup_empty. unfold apply_rows. rewrite foldl_app.
  fold (apply_rows old ∅). fold (apply_rows rows (apply_rows old ∅)). fold (apply_rows rows ∅).
  rewrite (apply_rows_lookup rows (apply_rows old ∅)).
  by destruct (apply_rows rows ∅ !! k).
Qed.

(** Runs a step whose outcome an equation gives. *)
Ltac step H := first [rewrite (op_bind_ok _ _ _ _ _ H) | unfold op_try at 1; rewrite H].
Ltac pure_step := erewrite op_bind_ok by reflexivity.

(** ** The invariant *)

Section durable.
Context {W C : Type} `{ClockLaws W} `{JsonLaws Manifest} `{JsonLaws SstFooter}
  `{JsonLaws OwnershipRecord} `{Digests} `{JsonLaws BlobPointer}
  `{!Cache C string SstFile, !CacheLaws C string SstFile} `{Ch : Channel}.
Context (prefix : ObjectPath) (epoch : N) (session : string) (Hep : (epoch < U64)%N).
Context `{!StorePaths W prefix}.
Context (K : string → Prop) (U : bytes → Prop) `{!Workload prefix K U} `{Pr : Promises, !Keeps W prefix K U}.
Abbreviation reading := ((W * ManifestCache) * C)%type.
Abbreviation writer := (OxKvStore W C).
Abbreviation objects := (gmap string (bytes * string)).
Abbreviation ok := (io_ok prefix epoch session K U).

(** What the maintenance leaves alone. *)
Definition rest (s : writer) :=
  (ox_wal_buffer s, ox_pending s, ox_hooks s, ox_answers s, ox_pending_ctr s).

(** The maps that a mixture of the durable and the visible values makes: what is
    staged can reach the files before the logs. *)
Definition may_leave (V : gmap string bytes) (logs : list (string * list row)) (files : list File) : Prop :=
  ∀ D, (∀ k, D !! k = view (apply_rows (mjoin logs.*2) ∅) files k ∨ D !! k = V !! k) → promised epoch D.

(** The store stands for [V]: the table over the files shows [V], and so does
    what a successor would recover, the listed logs and the staged operations
    over the files.  [room] more logs and files can be numbered. *)
Record holds_at (room : N) (V : gmap string bytes) (s : writer) (m : Manifest) (etag : string)
    (logs : list (string * list row)) (files : list File) : Prop := {
  ho_io : ok (ox_wal_seq s) (ox_sst_seq s) m etag logs files (ox_io s);
  ho_mem : use_table K U (ox_mem s);
  ho_buffer : Forall (use_row K U) (ox_wal_buffer s);
  ho_live k : V !! k = view (ox_mem s) files k;
  ho_logged k : V !! k = view (apply_rows (mjoin logs.*2 ++ ox_wal_buffer s) ∅) files k;
  ho_wal_room : (ox_wal_seq s + room < U64)%N;
  ho_sst_room : (ox_sst_seq s + room + spare < U64)%N;
  ho_leave : may_leave V logs files;
}.

Definition holds (room : N) (V : gmap string bytes) (s : writer) : Prop :=
  ∃ m etag logs files, holds_at room V s m etag logs files.

Lemma holds_less room room' V s : holds room V s → (room' ≤ room)%N → holds room' V s.
Proof using Type*.
  intros (m & etag & logs & files & []) Hle. exists m, etag, logs, files. split; try done; lia.
Qed.

(** A publication that shows, key by key, what was durable or what is visible. *)
Lemma may_leave_step V logs files logs' files' :
  may_leave V logs files →
  (∀ k, view (apply_rows (mjoin logs'.*2) ∅) files' k = view (apply_rows (mjoin logs.*2) ∅) files k ∨
    view (apply_rows (mjoin logs'.*2) ∅) files' k = V !! k) →
  may_leave V logs' files'.
Proof using Type.
  intros Hk Hstep D HD. apply Hk. intros k. destruct (HD k) as [->| ->]; [|by right]. apply Hstep.
Qed.

Lemma may_leave_logged V logs files D : may_leave V logs files → logged D logs files → promised epoch D.
Proof using Type. intros Hk HD. apply Hk. intros k. left. apply HD. Qed.

(** What is visible may be left, and so may what becomes durable at once. *)
Lemma may_leave_visible V logs files : may_leave V logs files → promised epoch V.
Proof using Type. intros Hk. apply Hk. intros k. by right. Qed.

Lemma leave_durable V logs files : promised epoch V → logged V logs files → may_leave V logs files.
Proof using Type.
  intros HV HL D HD. assert (D = V) as ->; [|done]. apply map_eq. intros k.
  destruct (HD k) as [->| ->]; [|done]. by rewrite HL.
Qed.

(** The next number is in no listed file. *)
Lemma next_id_free wn sn m etag logs files io l f :
  ok wn sn m etag logs files io → (sn < U64)%N → f ∈ files →
  sm_id (f_meta f) ≠ sst_path prefix epoch l sn.
Proof using All.
  intros [Hd _ _ _ _ _] Hsn Hf.
  refine (proj2 (listed_path_some prefix K U _ _ _ _ _ _ Hd _ _) f Hf).
  apply (dk_sst_free _ _ _ _ _ _ _ _ _ Hd); [done..|lia].
Qed.

(** A file that is listed after all others, numbered [sn]. *)
Lemma list_file wn sn logs files objs f :
  disk_ok prefix K U epoch wn (sn + 1) logs files objs → file_ok prefix K U epoch objs f →
  Forall (λ g, (sm_seq (f_meta g) < sn)%N) files → sm_seq (f_meta f) = sn →
  (sm_level (f_meta f) = 1%N → ∀ g k, g ∈ files → sm_level (f_meta g) = 1%N ∧
    (f_table f !! k = None ∨ f_table g !! k = None)) →
  disk_ok prefix K U epoch wn (sn + 1) logs (files ++ [f]) objs.
Proof using Type*.
  intros Hd Hf Hbel Hsq Hap. destruct Hd as [? Hfs Hord Hapart Hbel' ? ? ?] eqn:Hd'. clear Hd'.
  split; try done.
  - apply Forall_app. by split; [|constructor].
  - apply sorted_snoc; [done|]. apply Forall_forall. intros g Hg. split.
    + rewrite Forall_forall in Hbel. rewrite Hsq. by apply Hbel.
    + destruct (fo_level _ _ _ _ _ _ Hf) as [-> |Hl]; [lia|].
      rewrite Hl. by rewrite (proj1 (Hap Hl g "" Hg)).
  - intros g h k Hg Hh Hlg Hlh Hne.
    apply elem_of_app in Hg as [Hg|[->|?%elem_of_nil]%elem_of_cons];
      apply elem_of_app in Hh as [Hh|[->|?%elem_of_nil]%elem_of_cons]; try done.
    + by apply Hapart.
    + destruct (Hap Hlh g k Hg) as [_ ?]. tauto.
    + by destruct (Hap Hlg h k Hh) as [_ ?].
  - apply Forall_app. split; [done|]. constructor; [lia|done].
Qed.

(** The upload of a new file, up to its publication. *)
Definition new_file (l num : N) (t u : MemMap) (data : bytes) : File :=
  MkFile (MkSstMeta (sst_path prefix epoch l num) num l (first_key t) (last_key t) (blen data)) t u.

Lemma upload_ok what missing wn sn m etag logs files l bs u raw s :
  ok wn sn m etag logs files (ox_io s) → (sn + 1 + spare < U64)%N → level_block bs → (l = 0 ∨ l = 1)%N →
  use_table K U u → spilled_rows prefix K U (st_objects (disk s)) raw (bt_iter u) →
  ∃ data io, build_sst (list_to_map raw) bs = Ok data ∧ data ≠ [] ∧
    (∀ B (k : Op writer B), (put_new what (sst_path prefix epoch l sn) sn data ;;
      check_owner prefix epoch session missing ;; k) s = k (set_io io s)) ∧
    ok wn (sn + 1) m etag logs files io ∧
    file_ok prefix K U epoch (st_objects io.1.1) (new_file l sn (list_to_map raw) u data).
Proof using All.
  intros Hio Hsn Hbs Hl Hu Hst.
  destruct (build_file prefix epoch K U Hep (st_objects (disk s)) raw u bs Hbs Hu Hst)
    as (data & Hb & Hne & Hfile).
  destruct (put_file_ok prefix epoch session K U Hep _ _ _ _ _ _ what l data s Hio Hsn)
    as (io1 & tag & Hput & Hio1 & Ho1).
  destruct (owner_reads prefix epoch session K U Hep _ _ _ _ _ _ missing (set_io io1 s) Hio1)
    as (io & Hown & Hio2 & Ho2).
  exists data, io. split; [done|]. split; [done|].
  split; [intros B k; step Hput; by step Hown|]. split; [done|].
  rewrite Ho2. change (disk (set_io io1 s)) with io1.1.1. rewrite Ho1.
  apply (Hfile _ tag); [|by rewrite lookup_insert_eq|done|lia|done].
  intros p o Ho. rewrite lookup_insert_ne; [done|]. intros <-.
  destruct Hio as [Hd _ _ _ _ _]. unfold disk in Ho.
  rewrite (dk_sst_free _ _ _ _ _ _ _ _ _ Hd) in Ho by lia. done.
Qed.

(** ** Flush *)

(** The publication of an uploaded file of level 0 and the reset of the table
    that is in it. *)
Lemma publish_l0_ok wn sn m etag logs files s f :
  ok wn (sn + 1) m etag logs files (ox_io s) → (sn + 1 + spare < U64)%N →
  (∀ D, logged D logs (files ++ [f]) → promised epoch D) →
  file_ok prefix K U epoch (st_objects (disk s)) f →
  sm_level (f_meta f) = 0%N → sm_seq (f_meta f) = sn →
  Forall (λ g, (sm_seq (f_meta g) < sn)%N) files →
  (∀ g, g ∈ files → sm_id (f_meta g) ≠ sm_id (f_meta f)) →
  ∃ io m' etag', publish_l0 prefix epoch (ox_mem s) (f_meta f) s =
      (Ok (Some (f_meta f)), set_mem ∅ (set_io io s)) ∧
    ok wn (sn + 1) m' etag' logs (files ++ [f]) io.
Proof using All.
  intros Hio Hsn Hpr Hf Hl Hsq Hbel Hid. unfold publish_l0.
  destruct (load_reads prefix epoch session K U Hep _ _ _ _ _ _ s Hio) as (io1 & Hload & Hio1 & Ho1).
  step Hload. rewrite find_id_None; cycle 1.
  { intros x. rewrite (io_sst _ _ _ _ _ _ _ _ _ _ _ _ Hio).
    intros (g & -> & Hg)%list_elem_of_fmap. by apply Hid. }
  edestruct (publish_ok prefix epoch session K U Hep _ _ _ _ _ _
    (bump_version m (mf_wal m) (mf_sst m ++ [f_meta f])) logs (files ++ [f]) (set_io io1 s) Hio1)
    as (tag & io2 & io & Hcas & Hup & Hio2 & _).
  - apply Hio.
  - by rewrite fmap_app, <-(io_sst _ _ _ _ _ _ _ _ _ _ _ _ Hio).
  - change (disk (set_io io1 s)) with io1.1.1. rewrite Ho1.
    apply list_file; try done; [apply Hio|]. by rewrite Hl.
  - done.
  - step Hcas. step Hup. unfold discard_flushed. pure_step.
    exists io, (bump_version m (mf_wal m) (mf_sst m ++ [f_meta f])), tag. split; [|done].
    cbn. by rewrite discard_all.
Qed.

Lemma flush_holds room force V s :
  holds (room + 1) V s →
  ∃ r s', flush_mem_to_sst_inner prefix epoch session force s = (Ok r, s') ∧ holds room V s' ∧
    rest s' = rest s ∧ (force = true → ox_mem s' = ∅).
Proof using All.
  intros Hs. assert (holds room V s) as Hless by (eapply holds_less; [done|lia]).
  destruct Hs as (m & etag & logs & files & [Hio Hmem Hbuf Hlive Hlogged Hwr Hsr Hk]).
  unfold flush_mem_to_sst_inner. pure_step.
  case_bool_decide as Hemp; [by eauto 8|]. cbn [orb].
  destruct (negb force && _) eqn:Hf.
  { exists None, s. split_and!; try done. by intros ->. }
  assert (Hrows := proj1 (use_table_rows K U _) Hmem).
  destruct (spill_ok prefix epoch session K U Hep _ _ _ _ _ _ DEFAULT_BLOCK_SIZE
    (bt_iter (ox_mem s)) s Hio) as (raw & io1 & Hsp & Hio1 & Hst & Hmono); [by left|done|].
  step Hsp. set (s1 := set_io io1 s).
  set (s2 := set_sst_seq (wrapping_inc (ox_sst_seq s)) s1).
  destruct (upload_ok "sst" "before manifest CAS" (ox_wal_seq s) (ox_sst_seq s) m etag logs files 0
    DEFAULT_BLOCK_SIZE (ox_mem s) raw s2) as (data & io & Hb & Hne & Hup & Hio2 & Hfile);
    [done|lia|by left|by left|done|done|].
  set (f := new_file 0 (ox_sst_seq s) (list_to_map raw) (ox_mem s) data) in *.
  assert (may_leave V logs (files ++ [f])) as Hk'.
  { eapply may_leave_step; [exact Hk|]. intros k. rewrite Hlive. apply (view_between _ files f). }
  erewrite op_bind_ok by (unfold op_lift; by rewrite Hb).
  rewrite bool_decide_eq_false_2 by done. do 2 pure_step. cbv zeta. fold s2.
  change (ox_sst_seq s1) with (ox_sst_seq s). rewrite Hup.
  edestruct (publish_l0_ok (ox_wal_seq s) (ox_sst_seq s) m etag logs files (set_io io s2) f) as (io3 & m' & etag' & Hpub & Hio3);
    [done|lia| |done|done|done| | |].
  - intros D. by apply (may_leave_logged V).
  - eapply dk_below, Hio.
  - intros g Hg. by eapply (next_id_free _ _ _ _ _ _ _ 0 g Hio); [lia|].
  - eexists _, _. split; [exact Hpub|]. split_and!; [|done|done].
    exists m', etag', logs, (files ++ [f]).
    split; cbn; try done; rewrite ?wrapping_inc_small by lia; [done| | |lia|lia].
    + intros k. by rewrite (view_flush (ox_mem s)), Hlive.
    + intros k. rewrite (view_over (ox_mem s)); [by rewrite Hlogged|done|].
      by rewrite <-Hlive, <-Hlogged.
Qed.

(** ** Collections *)

Lemma delete_wals_ok wn sn m etag files ids n s :
  ok wn sn m etag [] files (ox_io s) → Forall (λ id, of_kind prefix WalKind id ∧ st_path W id) ids →
  ∃ n' io, delete_wals ids n s = (Ok n', set_io io s) ∧ ok wn sn m etag [] files io.
Proof using All.
  intros Hio Hids. revert n s Hio. induction Hids as [|id ids [Hid Hp] _ IH]; intros n s Hio.
  { exists n, (ox_io s). by destruct s. }
  cbn [delete_wals].
  destruct (delete_ok prefix epoch session K U Hep _ _ _ _ _ _ id s Hio Hp) as (io & Hdel & Hio').
  { left. split; [done|]. apply not_elem_of_nil. }
  step Hdel. destruct (IH (S n) (set_io io s) Hio') as (n' & io' & Hrest & Hio'').
  exists n', io'. by split.
Qed.

(** Once everything is in the files, the logs are not needed. *)
Lemma gc_wal_holds room V s :
  holds room V s → ox_mem s = ∅ →
  ∃ n s', gc_wal_inner prefix epoch s = (Ok n, s') ∧ holds room V s' ∧ rest s' = rest s ∧
    ox_mem s' = ∅.
Proof using All.
  intros (m & etag & logs & files & [Hio Hmem Hbuf Hlive Hlogged Hwr Hsr Hk]) Hemp.
  assert (may_leave V [] files) as Hk'.
  { eapply may_leave_step; [exact Hk|]. intros k. right. by rewrite Hlive, Hemp. }
  unfold gc_wal_inner. cbn [gc_wal_loop].
  destruct (load_reads prefix epoch session K U Hep _ _ _ _ _ _ s Hio) as (io1 & Hload & Hio1 & Ho1).
  step Hload. case_bool_decide as Hnone.
  { exists 0, (set_io io1 s). split; [done|]. split; [|done]. by exists m, etag, logs, files. }
  destruct (publish_ok prefix epoch session K U Hep _ _ _ _ _ _ (bump_version m [] (mf_sst m))
    [] files (set_io io1 s) Hio1) as (tag & io2 & io3 & Hcas & Hup & Hio3 & _).
  { done. }
  { apply Hio. }
  { eapply disk_unlist_logs, Hio1. }
  { intros D. by apply (may_leave_logged V). }
  step Hcas. step Hup.
  destruct (delete_wals_ok _ _ _ _ _ (mf_wal m) 0 (set_io io3 s) Hio3) as (n & io & Hdel & Hio4).
  { rewrite (io_wal _ _ _ _ _ _ _ _ _ _ _ _ Hio). apply Forall_fmap, Forall_forall. intros l Hl.
    assert (log_ok prefix K U epoch (st_objects (ox_io s).1.1) l) as Hlog
      by (eapply listed_log; [|done]; apply Hio).
    split; [by eapply log_ok_kind|]. destruct Hlog as (_ & _ & e & i & _ & _ & ->). apply accepts_wal. }
  exists n, (set_io io s). split; [exact Hdel|]. split; [|done].
  exists (bump_version m [] (mf_sst m)), tag, [], files. split; try done.
  intros k. specialize (Hlogged k). specialize (Hlive k). rewrite Hemp in Hlive.
  cbn [fmap list_fmap mjoin list_join app]. rewrite (view_drop_logs (mjoin logs.*2)); [done|].
  rewrite <-Hlive. symmetry. exact Hlogged.
Qed.

Lemma delete_orphans_ok wn sn m etag logs files ks n s :
  ok wn sn m etag logs files (ox_io s) → Forall (st_path W) ks →
  ∃ n' io, delete_orphans prefix m ks n s = (Ok n', set_io io s) ∧ ok wn sn m etag logs files io.
Proof using All.
  revert n s. induction ks as [|k ks IH]; intros n s Hio Hks; cbn [delete_orphans].
  { exists n, (ox_io s). by destruct s. }
  apply Forall_cons in Hks as [Hpath Hks]. destruct (is_orphan prefix m k) eqn:Hk; [|by apply IH].
  apply is_orphan_spec in Hk as (Hn & key & Hkey & Hp).
  destruct (delete_ok prefix epoch session K U Hep _ _ _ _ _ _ k s Hio Hpath) as (io & Hdel & Hio').
  { left. split; [by eapply log_key_kind|]. by rewrite <-(io_wal _ _ _ _ _ _ _ _ _ _ _ _ Hio). }
  step Hdel. destruct (IH (S n) (set_io io s) Hio' Hks) as (n' & io' & Hrest & Hio'').
  exists n', io'. by split.
Qed.

Lemma gc_orphans_holds room V s :
  holds room V s →
  ∃ n s', gc_orphans_inner prefix epoch session s = (Ok n, s') ∧ holds room V s' ∧
    rest s' = rest s ∧ ox_mem s' = ox_mem s.
Proof using All.
  intros (m & etag & logs & files & [Hio Hmem Hbuf Hlive Hlogged Hwr Hsr]).
  unfold gc_orphans_inner. pose proof Hio as [_ [Hwf _] (rec & tag & Hown & Hus) _ _ _].
  destruct (read_ownership_ok prefix rec tag s Hwf Hown) as (w1 & Hread & Hwf1 & Ho1).
  step Hread. rewrite bool_decide_eq_true_2 by done.
  assert (ok (ox_wal_seq s) (ox_sst_seq s) m etag logs files (ox_io (set_disk w1 s))) as Hio1.
  { unfold set_disk, disk in *. cbn. destruct (ox_io s) as [[w c] k]. by eapply io_same. }
  destruct (load_fresh_reads prefix epoch session K U Hep _ _ _ _ _ _ _ Hio1)
    as (io2 & Hload & Hio2 & _).
  step Hload. set (s2 := set_io io2 (set_disk w1 s)) in *. cbn [fst].
  destruct (st_list_law prefix (disk s2)) as (ks & w3 & Hlist & Hwf3 & Ho3 & Hks & _);
    [apply Hio2|apply accepts_child|].
  unfold op_try. rewrite (on_io_disk _ s2 _ _ Hlist).
  destruct (delete_orphans_ok (ox_wal_seq s) (ox_sst_seq s) m etag logs files ks 0 (set_disk w3 s2)) as (n & io & Hdel & Hio4).
  { unfold set_disk. cbn. unfold disk, s2 in *. cbn in *. destruct io2 as [[w c] k]. by eapply io_same. }
  { apply Forall_forall. intros k [Hk _]%Hks. eapply st_known; [|done]. apply Hio2. }
  exists n, (set_io io s). split; [exact Hdel|]. split; [|done].
  by exists m, etag, logs, files.
Qed.
End durable.
