(* ===== verification/LsmCompact.v ===== *)
(** Compaction keeps what the store stands for: the inputs are closed under
    the overlaps that matter, so the file that takes their place, and the files
    that stay, show what the files showed before. *)

From stdpp Require Import options.
From S2P Require Import Prelude OrdMap Core Codec Hooks Snapshot Storage Json Ownership Manifest.
From S2P Require Import Blob Probe Wal Merge Sst SstSpec Cache Read ReadSpec LsmStore LsmPaths.
From S2P Require Import LsmSpec LsmInv LsmDurable.

(** ** The pure steps *)

(** What is sorted stays as it is. *)
Lemma sort_by_seq_sorted l :
  StronglySorted (λ x y, sm_seq x < sm_seq y)%N l → sort_by_seq l = l.
Proof.
  induction 1 as [|x l Hs IH Hx]; [done|]. unfold sort_by_seq in *. cbn [sort_by foldr].
  fold (sort_by (λ y x, (sm_seq y <? sm_seq x)%N) l). rewrite IH.
  destruct l as [|y l]; [done|]. cbn [insert_by]. apply Forall_cons in Hx as [Hxy _].
  by rewrite (proj2 (N.ltb_ge _ _)) by lia.
Qed.

Lemma key_min_le a b : key_min a b ≤ₖ a ∧ key_min a b ≤ₖ b.
Proof. unfold key_min. case_decide; split; key_order. Qed.
Lemma key_max_le a b : a ≤ₖ key_max a b ∧ b ≤ₖ key_max a b.
Proof. unfold key_max. case_decide; split; key_order. Qed.

Lemma min_of_le l k : k ∈ l → min_of l ≤ₖ k.
Proof.
  destruct l as [|a l]; [by intros ?%elem_of_nil|]. cbn [min_of].
  assert (∀ l a, foldl key_min a l ≤ₖ a ∧ ∀ k, k ∈ l → foldl key_min a l ≤ₖ k) as Hf.
  { clear. induction l as [|b l IH]; intros a; [split; [simpl; key_order|by intros ? ?%elem_of_nil]|].
    cbn [foldl]. destruct (IH (key_min a b)) as [H1 H2], (key_min_le a b) as [Ha Hb].
    split; [key_order|]. intros k [->|Hk]%elem_of_cons; [key_order|by apply H2]. }
  destruct (Hf l a). intros [->|]%elem_of_cons; auto.
Qed.

Lemma max_of_le l k : k ∈ l → k ≤ₖ max_of l.
Proof.
  destruct l as [|a l]; [by intros ?%elem_of_nil|]. cbn [max_of].
  assert (∀ l a, a ≤ₖ foldl key_max a l ∧ ∀ k, k ∈ l → k ≤ₖ foldl key_max a l) as Hf.
  { clear. induction l as [|b l IH]; intros a; [split; [simpl; key_order|by intros ? ?%elem_of_nil]|].
    cbn [foldl]. destruct (IH (key_max a b)) as [H1 H2], (key_max_le a b) as [Ha Hb].
    split; [key_order|]. intros k [->|Hk]%elem_of_cons; [key_order|by apply H2]. }
  destruct (Hf l a). intros [->|]%elem_of_cons; auto.
Qed.

Lemma elem_of_at_level lv l m : m ∈ at_level lv l ↔ sm_level m = lv ∧ m ∈ l.
Proof. unfold at_level. by rewrite list_elem_of_filter. Qed.

Lemma elem_of_extend {A} (q : list A → A → bool) (l acc : list A) x :
  let l' := foldl (λ acc m, if q acc m then acc ++ [m] else acc) acc l in
  (x ∈ acc → x ∈ l') ∧ (x ∈ l' → x ∈ acc ∨ x ∈ l).
Proof.
  revert acc. induction l as [|y l IH]; intros acc; [by simpl; auto|]. cbn [foldl].
  destruct (q acc y); destruct (IH (acc ++ [y])), (IH acc);
    rewrite ?elem_of_app, ?elem_of_cons, ?elem_of_nil in *; naive_solver.
Qed.

(** The inputs of level 1 are listed there, and include every file that
    overlaps the range of the level-0 files. *)
Lemma l1_inputs_spec ssts l0 m :
  (m ∈ l1_inputs ssts l0 → m ∈ at_level 1 ssts) ∧
  (m ∈ at_level 1 ssts → m ∉ l1_inputs ssts l0 →
   sm_max_key m <ₖ min_of (sm_min_key <$> l0) ∨ max_of (sm_max_key <$> l0) <ₖ sm_min_key m).
Proof.
  set (ov := filter (λ m, ¬ (sm_max_key m <ₖ min_of (sm_min_key <$> l0) ∨
    max_of (sm_max_key <$> l0) <ₖ sm_min_key m)) (at_level 1 ssts)).
  assert (∀ l : list SstMeta, (m ∈ l → m ∈ at_level 1 ssts) → (m ∈ ov → m ∈ l) →
    (m ∈ l → m ∈ at_level 1 ssts) ∧ (m ∈ at_level 1 ssts → m ∉ l →
     sm_max_key m <ₖ min_of (sm_min_key <$> l0) ∨ max_of (sm_max_key <$> l0) <ₖ sm_min_key m))
    as Hl.
  { intros l Hsub Hov. split; [done|]. intros Hm Hn.
    destruct (decide (sm_max_key m <ₖ min_of (sm_min_key <$> l0) ∨
      max_of (sm_max_key <$> l0) <ₖ sm_min_key m)) as [|Hno]; [done|].
    exfalso. apply Hn, Hov. by apply list_elem_of_filter. }
  assert (m ∈ ov → m ∈ at_level 1 ssts) as Hin by by intros [_ ?]%list_elem_of_filter.
  unfold l1_inputs. fold ov. case_bool_decide; [|by apply Hl].
  apply Hl; unfold sort_by_seq; rewrite sort_by_perm;
    (destruct (smallest_pair _) as [[a b]|]; [|done]);
    match goal with |- context [foldl (λ acc m, if @?q acc m then _ else _) ov ?l] =>
      destruct (elem_of_extend q l ov m) end; naive_solver.
Qed.

(** ** The files *)

Lemma in_reverse {A} (x : A) l : x ∈ reverse l → x ∈ l.
Proof. by rewrite elem_of_reverse. Qed.

Definition level_files (lv : N) (files : list File) : list File :=
  filter (λ f, sm_level (f_meta f) = lv) files.

(** The files that stay. *)
Definition kept (inputs : list SstMeta) (files : list File) : list File :=
  filter (λ f, has_id inputs (f_meta f) = false) files.

Lemma elem_of_level_files lv files f :
  f ∈ level_files lv files ↔ sm_level (f_meta f) = lv ∧ f ∈ files.
Proof. unfold level_files. by rewrite list_elem_of_filter. Qed.

Lemma elem_of_kept inputs files f :
  f ∈ kept inputs files ↔ has_id inputs (f_meta f) = false ∧ f ∈ files.
Proof. unfold kept. by rewrite list_elem_of_filter. Qed.

Lemma filter_meta (P : SstMeta → Prop) `{!∀ m, Decision (P m)} (files : list File) :
  filter P (f_meta <$> files) = f_meta <$> filter (λ f, P (f_meta f)) files.
Proof.
  induction files as [|f files IH]; [done|]. rewrite fmap_cons, !filter_cons, IH.
  by case_decide.
Qed.

Lemma at_level_files lv files :
  at_level lv (f_meta <$> files) = f_meta <$> level_files lv files.
Proof. apply filter_meta. Qed.

Lemma files_of (metas : list SstMeta) (files : list File) :
  Forall (λ m, m ∈ f_meta <$> files) metas →
  ∃ fs, metas = f_meta <$> fs ∧ Forall (λ f, f ∈ files) fs.
Proof.
  induction 1 as [|m metas (f & -> & Hf)%list_elem_of_fmap _ (fs & -> & Hfs)]; [by exists []|].
  exists (f :: fs). by split; [|constructor].
Qed.

Lemma has_id_spec l m : has_id l m = true ↔ ∃ x, x ∈ l ∧ sm_id x = sm_id m.
Proof.
  unfold has_id. rewrite existsb_exists. setoid_rewrite bool_decide_eq_true.
  by setoid_rewrite list_elem_of_In.
Qed.

Lemma before_unique files f g :
  StronglySorted file_before files → f ∈ files → g ∈ files →
  sm_seq (f_meta f) = sm_seq (f_meta g) → f = g.
Proof.
  induction 1 as [|x files _ IH Hx]; [by intros ?%elem_of_nil|].
  rewrite Forall_forall in Hx. intros Hf Hg Heq.
  apply elem_of_cons in Hf as [->|Hf]; apply elem_of_cons in Hg as [->|Hg]; [done|..].
  - destruct (Hx g Hg). lia.
  - destruct (Hx f Hf). lia.
  - by apply IH.
Qed.

(** Level 1 comes before level 0. *)
Lemma files_by_level files :
  StronglySorted file_before files →
  Forall (λ f, sm_level (f_meta f) = 0 ∨ sm_level (f_meta f) = 1)%N files →
  files = level_files 1 files ++ level_files 0 files.
Proof.
  induction 1 as [|f files Hs IH Hf]; [done|]. intros [Hl Hls]%Forall_cons.
  specialize (IH Hls). unfold level_files in *. rewrite !filter_cons. destruct Hl as [Hl|Hl].
  - rewrite decide_False, decide_True by (lia || done).
    assert (filter (λ g, sm_level (f_meta g) = 1%N) files = []) as Hnone.
    { apply filter_none. intros g Hg. rewrite Forall_forall in Hf. destruct (Hf g Hg). lia. }
    rewrite Hnone in *. simpl in *. by rewrite <-IH.
  - rewrite decide_True, decide_False by (lia || done). simpl. by rewrite <-IH.
Qed.

Lemma file_before_sub (P : File → Prop) `{!∀ f, Decision (P f)} files :
  StronglySorted file_before files → StronglySorted file_before (filter P files).
Proof.
  induction 1 as [|f files Hs IH Hf]; [constructor|]. rewrite filter_cons.
  case_decide; [|done]. constructor; [done|]. rewrite Forall_forall in *.
  intros g [_ Hg]%list_elem_of_filter. by apply Hf.
Qed.

(** In files that agree on a key, the order is irrelevant. *)
Lemma top_agree l l' k :
  (∀ f g u v, f ∈ l → g ∈ l → f_table f !! k = Some u → f_table g !! k = Some v → u = v) →
  (∀ f, f ∈ l → f_table f !! k ≠ None → f ∈ l') → (∀ f, f ∈ l' → f ∈ l) → top l' k = top l k.
Proof.
  intros Hag Hin Hsub. destruct (top l k) as [v|] eqn:Hv.
  - apply top_elem in Hv as (f & Hf & Hk).
    destruct (top l' k) as [u|] eqn:Hu.
    + apply top_elem in Hu as (g & Hg & Hk'). f_equal. by eapply Hag; [by apply Hsub| |..].
    + rewrite top_None in Hu. rewrite (Hu f) in Hk; [done|]. apply Hin; [done|]. by rewrite Hk.
  - apply top_None. intros f Hf. rewrite top_None in Hv. by apply Hv, Hsub.
Qed.

(** ** The inputs *)

Section inputs.
Context `{Digests} `{JsonLaws BlobPointer} `{JsonLaws SstFooter} (prefix : ObjectPath).
Context (K : string → Prop) (U : bytes → Prop) `{!Workload prefix K U}.
Context (epoch wn sn : N) (logs : list (string * list row)) (files : list File).
Context (objs : gmap string (bytes * string)) (Hd : disk_ok prefix K U epoch wn sn logs files objs).
Context (Hep : (epoch < U64)%N).

Abbreviation metas := (f_meta <$> files).
Abbreviation l0 := (level_files 0 files).
Context (l1 : list File).
Hypothesis Hl1 : f_meta <$> l1 = l1_inputs metas (at_level 0 metas).
Hypothesis Hin1 : Forall (λ f, f ∈ files) l1.
Abbreviation inputs := ((f_meta <$> l0) ++ (f_meta <$> l1)).
Abbreviation stay := (kept inputs files).

Lemma file_keys f k : f ∈ files → is_Some (f_table f !! k) →
  sm_min_key (f_meta f) ≤ₖ k ∧ k ≤ₖ sm_max_key (f_meta f).
Proof using Type*.
  intros Hf [v Hk]. destruct (listed_file _ _ _ _ _ _ _ _ _ Hd f Hf)
    as [(_ & data & tag & g & _ & _ & _ & Hspan) Hst _ _ _ _ _].
  apply Hspan. specialize (Hst k). rewrite Hk in Hst. by inversion Hst.
Qed.

Lemma same_id f g : f ∈ files → g ∈ files → sm_id (f_meta f) = sm_id (f_meta g) → f = g.
Proof using Type*.
  intros Hf Hg Heq. eapply before_unique; [apply Hd|done..|].
  destruct (listed_file _ _ _ _ _ _ _ _ _ Hd f Hf) as [_ _ _ _ (e & He & Hi) Hn _].
  destruct (listed_file _ _ _ _ _ _ _ _ _ Hd g Hg) as [_ _ _ _ (e' & He' & Hi') Hn' _].
  rewrite Hi, Hi' in Heq. apply sst_path_inj in Heq as [_ ?]; [done|lia..].
Qed.

Lemma l1_level f : f ∈ l1 → f ∈ files ∧ sm_level (f_meta f) = 1%N.
Proof using Type*.
  intros Hf. rewrite Forall_forall in Hin1. split; [by apply Hin1|].
  assert (f_meta f ∈ l1_inputs metas (at_level 0 metas)) as Hm
    by (rewrite <-Hl1; by apply list_elem_of_fmap_2).
  by apply l1_inputs_spec, elem_of_at_level in Hm as [? _].
Qed.

Lemma is_input f : f ∈ files → has_id inputs (f_meta f) = true ↔ f ∈ l0 ++ l1.
Proof using Type*.
  intros Hf. rewrite has_id_spec, <-fmap_app. split.
  - intros (x & (g & -> & Hg)%list_elem_of_fmap & Heq).
    assert (g ∈ files) as Hg'.
    { apply elem_of_app in Hg as [[_ ?]%elem_of_level_files|?%l1_level]; naive_solver. }
    by rewrite <-(same_id _ _ Hg' Hf Heq).
  - intros Hi. exists (f_meta f). split; [by apply list_elem_of_fmap_2|done].
Qed.

Lemma stay_spec f : f ∈ stay ↔ f ∈ files ∧ f ∉ l0 ++ l1.
Proof using Type*.
  rewrite elem_of_kept. split.
  - intros [Hno Hf]. split; [done|]. intros Hi. apply (is_input f Hf) in Hi. congruence.
  - intros [Hf Hno]. split; [|done]. apply not_true_is_false. by rewrite is_input.
Qed.

Lemma stay_level f : f ∈ stay → sm_level (f_meta f) = 1%N.
Proof using Type*.
  intros [Hf Hno]%stay_spec. destruct (fo_level _ _ _ _ _ _ (listed_file _ _ _ _ _ _ _ _ _ Hd f Hf));
    [|done]. exfalso. apply Hno. apply elem_of_app. left. by apply elem_of_level_files.
Qed.

(** A key of an input is in no file that stays. *)
Lemma stay_apart f g k :
  f ∈ l0 ++ l1 → g ∈ stay → f_table f !! k = None ∨ f_table g !! k = None.
Proof using Type*.
  intros Hf Hg. pose proof (stay_level g Hg) as Hlg. apply stay_spec in Hg as [Hg Hno].
  apply elem_of_app in Hf as [Hf|Hf].
  - destruct (f_table f !! k) as [u|] eqn:Hk; [|by left].
    destruct (f_table g !! k) as [v|] eqn:Hk'; [|by right]. exfalso.
    pose proof Hf as [_ Hff]%elem_of_level_files.
    destruct (file_keys f k Hff) as [Hmn Hmx]; [by rewrite Hk|].
    destruct (file_keys g k Hg) as [Hmn' Hmx']; [by rewrite Hk'|].
    assert (f_meta f ∈ at_level 0 metas) as Hm by (rewrite at_level_files; by apply list_elem_of_fmap_2).
    pose proof (min_of_le _ _ (list_elem_of_fmap_2 sm_min_key _ _ Hm)).
    pose proof (max_of_le _ _ (list_elem_of_fmap_2 sm_max_key _ _ Hm)).
    destruct (proj2 (l1_inputs_spec metas (at_level 0 metas) (f_meta g))).
    + apply elem_of_at_level. split; [done|]. by apply list_elem_of_fmap_2.
    + rewrite <-Hl1. intros (h & Heq & Hh)%list_elem_of_fmap. apply Hno, elem_of_app. right.
      rewrite (same_id g h); [done|done|by apply l1_level|by rewrite Heq].
    + key_order.
    + key_order.
  - pose proof Hf as [Hff Hlf]%l1_level.
    apply (dk_apart _ _ _ _ _ _ _ _ _ Hd); [done..|]. intros Heq. apply Hno, elem_of_app. right.
    by rewrite <-(before_unique files f g (dk_order _ _ _ _ _ _ _ _ _ Hd) Hff Hg Heq).
Qed.

(** The rows of the inputs, newest first. *)
Abbreviation sources := (reverse l0 ++ reverse l1).

Lemma elem_of_sources f : f ∈ sources ↔ f ∈ l0 ++ l1.
Proof using Type*. by rewrite !elem_of_app, !elem_of_reverse. Qed.

(** What all the files show of an input's key, the inputs show. *)
Lemma top_sources k : top sources k ≠ None → top sources k = top (reverse files) k.
Proof using Type*.
  intros Hsome. destruct Hd as [_ Hfs Hord Hap _ _ _ _].
  rewrite (files_by_level files) at 2; [|done|].
  2: { eapply Forall_impl; [exact Hfs|]. intros f Hf. by apply (fo_level _ _ _ _ _ _ Hf). }
  rewrite reverse_app, !top_app in *. destruct (top (reverse l0) k) as [v|]; [done|].
  apply top_agree.
  - intros f g u v [Hlf Hf]%in_reverse%elem_of_level_files
      [Hlg Hg]%in_reverse%elem_of_level_files Hu Hv.
    destruct (decide (sm_seq (f_meta f) = sm_seq (f_meta g))) as [Heq|Hne].
    + rewrite (before_unique files f g) in Hu by done. congruence.
    + destruct (Hap f g k Hf Hg Hlf Hlg Hne); congruence.
  - intros f [Hlf Hf]%in_reverse%elem_of_level_files Hk. apply elem_of_reverse.
    destruct (top (reverse l1) k) as [v|] eqn:Ht; [|done].
    apply top_elem in Ht as (g & Hg & Hkg). rewrite elem_of_reverse in Hg.
    pose proof Hg as [Hgf Hlg]%l1_level.
    destruct (decide (sm_seq (f_meta f) = sm_seq (f_meta g))) as [Heq|Hne].
    + by rewrite (before_unique files f g).
    + destruct (Hap f g k Hf Hgf Hlf Hlg Hne); congruence.
  - intros f [? ?]%in_reverse%l1_level. apply elem_of_reverse. by apply elem_of_level_files.
Qed.

Lemma top_stay k : top sources k ≠ None → top (reverse stay) k = None.
Proof using Type*.
  intros Hsome. apply top_None. intros g Hg%in_reverse.
  destruct (top sources k) as [v|] eqn:Ht; [|done].
  apply top_elem in Ht as (f & Hf%elem_of_sources & Hk).
  destruct (stay_apart f g k Hf Hg); congruence.
Qed.

(** What the inputs do not have, the files that stay show as before. *)
Lemma top_others k : top sources k = None → top (reverse stay) k = top (reverse files) k.
Proof using Type*.
  intros Hnone. pose proof Hd as [_ _ Hord Hap _ _ _ _]. rewrite top_None in Hnone.
  assert (∀ f, f ∈ reverse files → f_table f !! k ≠ None → f ∈ reverse stay) as Hstay.
  { intros f Hf%in_reverse Hk. apply elem_of_reverse. apply stay_spec. split; [done|].
    intros Hi%elem_of_sources. by apply Hk, Hnone. }
  apply top_agree; [|done|].
  - intros f g u v Hf Hg Hu Hv.
    assert (f ∈ stay) as Hsf by (apply elem_of_reverse, Hstay; [done|by rewrite Hu]).
    assert (g ∈ stay) as Hsg by (apply elem_of_reverse, Hstay; [done|by rewrite Hv]).
    apply in_reverse in Hf, Hg.
    destruct (decide (sm_seq (f_meta f) = sm_seq (f_meta g))) as [Heq|Hne].
    + rewrite (before_unique files f g) in Hu by done. congruence.
    + destruct (Hap f g k Hf Hg (stay_level f Hsf) (stay_level g Hsg) Hne); congruence.
  - intros f [? _]%in_reverse%stay_spec. by apply elem_of_reverse.
Qed.

(** The live rows of the inputs. *)
Definition folded (k : string) : option (option bytes) :=
  match mjoin (top sources k) with Some v => Some (Some v) | None => None end.

Lemma compact_view m nf k :
  (∀ k, f_table nf !! k = folded k) → view m (stay ++ [nf]) k = view m files k.
Proof using Type*.
  intros Hnf. apply view_below. rewrite reverse_snoc. cbn [top]. rewrite Hnf. unfold folded.
  destruct (top sources k) as [x|] eqn:Ht.
  - rewrite top_stay, <-top_sources, Ht by by rewrite Ht. by destruct x.
  - by rewrite top_others.
Qed.

Lemma drop_view m k : (∀ k, folded k = None) → view m stay k = view m files k.
Proof using Type*.
  intros Hno. apply view_below. specialize (Hno k). unfold folded in Hno.
  destruct (top sources k) as [x|] eqn:Ht.
  - rewrite top_stay, <-top_sources, Ht by by rewrite Ht. by destruct x.
  - by rewrite top_others.
Qed.

Lemma disk_stay : disk_ok prefix K U epoch wn sn logs stay objs.
Proof using Type*.
  assert (∀ P : File → Prop, Forall P files → Forall P stay) as Hsub.
  { intros P Hf. rewrite Forall_forall in Hf. apply Forall_forall. intros f [Hin _]%stay_spec. by apply Hf. }
  pose proof Hd as [Hl Hf Hord Hap Hbel Hb Hw Hs]. split; try done.
  - by apply Hsub.
  - by apply file_before_sub.
  - intros f g k [Hf' _]%stay_spec [Hg' _]%stay_spec. by apply Hap.
  - by apply Hsub.
Qed.

Lemma folded_apart nf g k :
  (∀ k, f_table nf !! k = folded k) → g ∈ stay →
  sm_level (f_meta g) = 1%N ∧ (f_table nf !! k = None ∨ f_table g !! k = None).
Proof using Type*.
  intros Hnf Hg. split; [by apply stay_level|]. rewrite Hnf. unfold folded.
  destruct (top sources k) as [x|] eqn:Ht; [right|by left].
  assert (top sources k ≠ None) as Hs by by rewrite Ht.
  apply top_stay in Hs. rewrite top_None in Hs. by apply Hs, elem_of_reverse.
Qed.

(** The ids of the inputs are free to be deleted. *)
Lemma inputs_gone x :
  x ∈ inputs → (∃ e l n, sm_id x = sst_path prefix e l n) ∧ sm_id x ∉ (sm_id ∘ f_meta) <$> stay.
Proof using Type*.
  intros Hx. rewrite <-fmap_app in Hx. apply list_elem_of_fmap in Hx as (g & -> & Hg).
  assert (g ∈ files) as Hgf.
  { apply elem_of_app in Hg as [[_ ?]%elem_of_level_files|?%l1_level]; naive_solver. }
  assert (file_ok prefix K U epoch objs g) as [_ _ _ _ (e & _ & Hid) _ _] by (by eapply listed_file).
  split; [rewrite Hid; eauto|].
  intros (f & Heq & [Hf Hno]%stay_spec)%list_elem_of_fmap. by rewrite (same_id f g) in Hno.
Qed.

Lemma stay_sorted f :
  Forall (λ g, sm_seq (f_meta g) < sm_seq (f_meta f))%N files →
  sort_by_seq (without inputs metas ++ [f_meta f]) = f_meta <$> (stay ++ [f]).
Proof using Type*.
  intros Hbel. unfold without. rewrite filter_meta. change [f_meta f] with (f_meta <$> [f]).
  rewrite <-fmap_app. apply sort_by_seq_sorted.
  assert (StronglySorted (λ f g, sm_seq (f_meta f) < sm_seq (f_meta g))%N (stay ++ [f])) as Hs.
  { apply sorted_snoc.
    - pose proof (dk_order _ _ _ _ _ _ _ _ _ disk_stay) as Hord.
      induction Hord as [|g l _ IH Hg]; constructor; [done|]. eapply Forall_impl; [exact Hg|].
      by intros h [? _].
    - rewrite Forall_forall in Hbel. apply Forall_forall. intros g [Hg _]%stay_spec. by apply Hbel. }
  induction Hs as [|g l _ IH Hg]; constructor; [done|]. by apply Forall_fmap.
Qed.
End inputs.

(** ** Compaction *)

Section compaction.
Context {W C : Type} `{ClockLaws W} `{JsonLaws Manifest} `{JsonLaws SstFooter}
  `{JsonLaws OwnershipRecord} `{Digests} `{JsonLaws BlobPointer}
  `{!Cache C string SstFile, !CacheLaws C string SstFile} `{Ch : Channel}.
Context (prefix : ObjectPath) (epoch : N) (session : string) (Hep : (epoch < U64)%N).
Context (K : string → Prop) (U : bytes → Prop) `{!Workload prefix K U} `{Pr : Promises, !Keeps W prefix K U}.
Context `{!StorePaths W prefix}.
Abbreviation reading := ((W * ManifestCache) * C)%type.
Abbreviation writer := (OxKvStore W C).
Abbreviation ok := (io_ok prefix epoch session K U).
Abbreviation holds := (holds prefix epoch session K U).

(** A read of the engine under the writer. *)
Lemma answers_io {A} wn sn m etag logs files (op : Op reading A) a s :
  ok wn sn m etag logs files (ox_io s) →
  answers (st_objects (disk s)) (used_id prefix epoch sn) (ox_io s).1.2 op a →
  ∃ io, on_io op s = (Ok a, set_io io s) ∧ ok wn sn m etag logs files io ∧
    st_objects io.1.1 = st_objects (disk s).
Proof using Type*.
  intros [Hd Hc Ho Hw Hs Hf] Hop. unfold disk in *.
  destruct (Hop (ox_io s)) as (io & Hr & Heq & Hwf & Hmc & Hf').
  { split; [done|]. split; [apply Hc|done]. }
  exists io. unfold on_io, op_zoom. rewrite Hr. split; [done|]. split; [|done].
  destruct io as [[w c] k], (ox_io s) as [[w0 c0] k0]. cbn [fst snd] in *. subst c.
  split; cbn [fst snd]; rewrite ?Heq; try done. eapply current_same; [done..|]. by rewrite Heq.
Qed.

Lemma file_known wn sn m etag logs files io f :
  ok wn sn m etag logs files io → f ∈ files →
  stores (st_objects io.1.1) (used_id prefix epoch sn) (f_meta f) (f_raw f) ∧
  table_stands (st_objects io.1.1) (f_raw f) (f_table f).
Proof using Type*. intros [Hd _ _ _ _ _] Hf. by eapply disk_known. Qed.

Lemma read_inputs_ok wn sn m etag logs files fs s :
  ok wn sn m etag logs files (ox_io s) → Forall (λ f, f ∈ files) fs →
  ∃ io, read_inputs (f_meta <$> fs) s = (Ok (bt_iter <$> (f_table <$> fs)), set_io io s) ∧
    ok wn sn m etag logs files io ∧ st_objects io.1.1 = st_objects (disk s).
Proof using Type*.
  intros Hio Hfs. revert s Hio. induction Hfs as [|f fs Hf _ IH]; intros s Hio.
  { exists (ox_io s). split; [by destruct s|done]. }
  rewrite fmap_cons. cbn [read_inputs].
  destruct (file_known _ _ _ _ _ _ _ f Hio Hf) as [(Hkn & data & tag & sst & Hob & Hp & Hh & _) Hts].
  destruct (answers_io _ _ _ _ _ _ (fetch_sst (sm_id (f_meta f))) sst s Hio) as (io1 & Hfe & Hio1 & Ho1).
  { by eapply answers_fetch. }
  step Hfe. erewrite op_bind_ok by (unfold op_lift; by rewrite (fh_scan _ _ _ _ Hh)).
  destruct (answers_io _ _ _ _ _ _ (resolve_rows (bt_range None None (f_raw f)))
    (bt_range None None (f_table f)) (set_io io1 s) Hio1) as (io2 & Hres & Hio2 & Ho2).
  { apply resolve_rows_spec, bt_range_related. change (disk (set_io io1 s)) with io1.1.1.
    rewrite Ho1. exact Hts. }
  step Hres. destruct (IH (set_io io2 s) Hio2) as (io & Hr & Hio3 & Ho3).
  rewrite bt_range_full. change (set_io io2 (set_io io1 s)) with (set_io io2 s). step Hr.
  exists io. split; [done|]. split; [done|]. rewrite Ho3. change (disk (set_io io2 s)) with io2.1.1.
  by rewrite Ho2.
Qed.

(** The inputs go. *)
Lemma delete_input_ok wn sn m etag logs files id s :
  ok wn sn m etag logs files (ox_io s) → (∃ e l n, id = sst_path prefix e l n) →
  id ∉ (sm_id ∘ f_meta) <$> files →
  ∃ io, op_ignore (on_io (on_disk (st_delete id))) s = (Ok (), set_io io s) ∧
    ok wn sn m etag logs files io.
Proof using Type*.
  intros Hio (e & l & n & ->) Hn.
  destruct (delete_ok prefix epoch session K U Hep _ _ _ _ _ _ _ s Hio (accepts_sst e l n)) as (io & Hdel & Hio').
  { right. split; [apply sst_kind|done]. }
  exists io. split; [|done]. unfold op_ignore, op_try. by rewrite Hdel.
Qed.

Lemma delete_inputs_ok wn sn m etag logs files inputs s :
  ok wn sn m etag logs files (ox_io s) →
  Forall (λ x, (∃ e l n, sm_id x = sst_path prefix e l n) ∧
    sm_id x ∉ (sm_id ∘ f_meta) <$> files) inputs →
  ∃ io, delete_inputs inputs s = (Ok (), set_io io s) ∧ ok wn sn m etag logs files io.
Proof using Type*.
  intros Hio Hin. revert s Hio. induction Hin as [|x inputs [Hk Hn] _ IH]; intros s Hio.
  { exists (ox_io s). split; [by destruct s|done]. }
  cbn [delete_inputs].
  destruct (delete_input_ok _ _ _ _ _ _ (sm_id x) s Hio Hk Hn) as (io & Hdel & Hio').
  step Hdel. by apply (IH (set_io io s)).
Qed.

Lemma retire_inputs_ok wn sn m etag logs files inputs s :
  ok wn sn m etag logs files (ox_io s) →
  Forall (λ x, (∃ e l n, sm_id x = sst_path prefix e l n) ∧
    sm_id x ∉ (sm_id ∘ f_meta) <$> files) inputs →
  ∃ io, retire_inputs inputs s = (Ok (), set_io io s) ∧ ok wn sn m etag logs files io.
Proof using Type*.
  intros Hio Hin. revert s Hio. induction Hin as [|x inputs [Hk Hn] _ IH]; intros s Hio.
  { exists (ox_io s). split; [by destruct s|done]. }
  cbn [retire_inputs].
  destruct (cache_remove_reads prefix epoch session K U Hep _ _ _ _ _ _ (sm_id x) s Hio)
    as (io1 & Hrm & Hio1 & _).
  step Hrm.
  destruct (delete_input_ok _ _ _ _ _ _ (sm_id x) (set_io io1 s) Hio1 Hk Hn) as (io & Hdel & Hio').
  step Hdel. by apply (IH (set_io io s)).
Qed.

(** What the inputs fold to. *)
Lemma folded_lookup (fs : list File) k :
  (list_to_map ((λ kv, (key kv, Some (value kv))) <$>
     merge_sources (bt_iter <$> (f_table <$> fs))) : MemMap) !! k =
    match mjoin (top fs k) with Some v => Some (Some v) | None => None end.
Proof using Type.
  rewrite merge_sources_spec, <-list_fmap_compose.
  assert (((λ kv, (key kv, Some (value kv))) ∘ to_kv) <$> bt_iter (live (newest_map (bt_iter <$> (f_table <$> fs))))
    = bt_iter (Some <$> live (newest_map (bt_iter <$> (f_table <$> fs))))) as ->.
  { rewrite bt_iter_fmap. by apply list_fmap_ext. }
  destruct (mjoin (top fs k)) as [v|] eqn:Ht; rewrite top_newest, <-newest_map_lookup, <-live_join in Ht.
  - apply elem_of_list_to_map_1; [apply bt_iter_NoDup_keys|]. apply elem_of_bt_iter.
    by rewrite lookup_fmap, Ht.
  - apply not_elem_of_list_to_map_1. intros ([k' v] & -> & Hin)%list_elem_of_fmap.
    apply elem_of_bt_iter in Hin. rewrite lookup_fmap in Hin. simpl in *. by rewrite Ht in Hin.
Qed.

Section step.
Context (wn sn : N) (logs : list (string * list row)) (files : list File) (l1 : list File).
Hypothesis Hl1 : f_meta <$> l1 = l1_inputs (f_meta <$> files) (at_level 0 (f_meta <$> files)).
Hypothesis Hin1 : Forall (λ f, f ∈ files) l1.
Abbreviation inputs := ((f_meta <$> level_files 0 files) ++ (f_meta <$> l1)).
Abbreviation stay := (kept inputs files).

Lemma drop_ok m etag s :
  ok wn sn m etag logs files (ox_io s) → (∀ D, logged D logs stay → promised epoch D) →
  ∃ io m' etag' files', drop_inputs prefix epoch 4 inputs s = (Ok None, set_io io s) ∧
    ok wn sn m' etag' logs files' io ∧ (files' = files ∨ files' = stay).
Proof using Type*.
  intros Hio Hpr. cbn [drop_inputs].
  destruct (load_reads prefix epoch session K U Hep _ _ _ _ _ _ s Hio) as (io1 & Hload & Hio1 & Ho1).
  step Hload. case_bool_decide; [by exists io1, m, etag, files; auto|].
  pose proof (io_disk _ _ _ _ _ _ _ _ _ _ _ _ Hio1) as Hd1.
  destruct (publish_ok prefix epoch session K U Hep _ _ _ _ _ _
    (bump_version m (mf_wal m) (without inputs (mf_sst m))) logs stay (set_io io1 s) Hio1)
    as (tag & io2 & io3 & Hcas & Hup & Hio3 & _).
  { apply Hio. }
  { cbn [mf_sst bump_version]. rewrite (io_sst _ _ _ _ _ _ _ _ _ _ _ _ Hio). apply filter_meta. }
  { by apply (disk_stay _ _ _ _ _ _ _ _ _ Hd1 Hep l1). }
  { done. }
  step Hcas. step Hup.
  destruct (delete_inputs_ok _ _ _ _ _ _ inputs (set_io io3 s) Hio3) as (io & Hdel & Hio4).
  { apply Forall_forall. by apply (inputs_gone _ _ _ _ _ _ _ _ _ Hd1 Hep l1 Hl1 Hin1). }
  step Hdel. eauto 10.
Qed.

Lemma swap_ok m etag nf s :
  ok wn (sn + 1) m etag logs files (ox_io s) → file_ok prefix K U epoch (st_objects (disk s)) nf →
  sm_level (f_meta nf) = 1%N → sm_seq (f_meta nf) = sn →
  Forall (λ g, sm_seq (f_meta g) < sn)%N files →
  (∀ g, g ∈ files → sm_id (f_meta g) ≠ sm_id (f_meta nf)) →
  (∀ k, f_table nf !! k = folded files l1 k) → (∀ D, logged D logs (stay ++ [nf]) → promised epoch D) →
  ∃ io m' etag', swap_inputs prefix epoch 4 inputs (f_meta nf) s =
      (Ok (Some (f_meta nf)), set_io io s) ∧
    ok wn (sn + 1) m' etag' logs (stay ++ [nf]) io.
Proof using Type*.
  intros Hio Hf Hl Hsq Hbel Hid Hnf Hpr. cbn [swap_inputs].
  destruct (load_reads prefix epoch session K U Hep _ _ _ _ _ _ s Hio) as (io1 & Hload & Hio1 & Ho1).
  step Hload. pose proof (io_disk _ _ _ _ _ _ _ _ _ _ _ _ Hio1) as Hd1. rewrite find_id_None; cycle 1.
  { intros x. rewrite (io_sst _ _ _ _ _ _ _ _ _ _ _ _ Hio).
    intros (g & -> & Hg)%list_elem_of_fmap. by apply Hid. }
  destruct (publish_ok prefix epoch session K U Hep _ _ _ _ _ _
    (bump_version m (mf_wal m) (sort_by_seq (without inputs (mf_sst m) ++ [f_meta nf]))) logs
    (stay ++ [nf]) (set_io io1 s) Hio1) as (tag & io2 & io3 & Hcas & Hup & Hio3 & _).
  { apply Hio. }
  { cbn [mf_sst bump_version]. rewrite (io_sst _ _ _ _ _ _ _ _ _ _ _ _ Hio).
    apply (stay_sorted _ _ _ _ _ _ _ _ _ Hd1 Hep l1 Hl1 Hin1). by rewrite Hsq. }
  { change (disk (set_io io1 s)) with io1.1.1. eapply list_file; try done.
    - by apply (disk_stay _ _ _ _ _ _ _ _ _ Hd1 Hep l1).
    - by rewrite Ho1.
    - rewrite Forall_forall in Hbel. apply Forall_forall. intros g [_ Hg]%elem_of_kept. by apply Hbel.
    - intros _ g k Hg. by apply (folded_apart _ _ _ _ _ _ _ _ _ Hd1 Hep l1 Hl1 Hin1). }
  { done. }
  step Hcas. step Hup.
  destruct (retire_inputs_ok _ _ _ _ _ _ inputs (set_io io3 s) Hio3) as (io & Hdel & Hio4).
  { apply Forall_forall. intros x Hx.
    destruct (inputs_gone _ _ _ _ _ _ _ _ _ Hd1 Hep l1 Hl1 Hin1 x Hx) as [Hk Hgone].
    split; [done|]. rewrite fmap_app. intros [|Heq%list_elem_of_singleton]%elem_of_app; [done|].
    rewrite <-fmap_app in Hx. apply list_elem_of_fmap in Hx as (g & -> & Hg).
    eapply (Hid g); [|done]. rewrite Forall_forall in Hin1.
    apply elem_of_app in Hg as [[_ ?]%elem_of_level_files|?]; auto. }
  step Hdel. eauto 10.
Qed.
End step.

Lemma spilled_empty objs raw (u : MemMap) :
  spilled_rows prefix K U objs raw (bt_iter u) → (list_to_map raw : MemMap) = ∅ → u = ∅.
Proof using Type*.
  intros Hsp Hemp. destruct (spilled_table prefix K U _ _ _ Hsp) as [Hst _].
  apply map_eq. intros k. specialize (Hst k). rewrite Hemp, lookup_empty in Hst.
  rewrite lookup_empty. by inversion Hst.
Qed.

(** What the inputs fold into. *)
Definition folding (files l1 : list File) : MemMap :=
  list_to_map ((λ kv, (key kv, Some (value kv))) <$>
    merge_sources (bt_iter <$> (f_table <$> (reverse (level_files 0 files) ++ reverse l1)))).

Lemma inputs_listed files l1 f :
  Forall (λ g, g ∈ files) l1 → f ∈ reverse (level_files 0 files) ++ reverse l1 → f ∈ files.
Proof using Type.
  intros Hin1 [Hf%in_reverse%elem_of_level_files|Hf%in_reverse]%elem_of_app; [by destruct Hf|].
  rewrite Forall_forall in Hin1. by apply Hin1.
Qed.

Lemma folding_use wn sn logs files l1 objs :
  disk_ok prefix K U epoch wn sn logs files objs → Forall (λ g, g ∈ files) l1 →
  use_table K U (folding files l1).
Proof using Type*.
  intros Hd Hin1 k v Hk. unfold folding in Hk. rewrite folded_lookup in Hk.
  destruct (top (reverse (level_files 0 files) ++ reverse l1) k) as [[w|]|] eqn:Ht; [|done..].
  injection Hk as <-. apply top_elem in Ht as (f & Hf%(inputs_listed _ _ _ Hin1) & Hk).
  by apply (fo_use _ _ _ _ _ _ (listed_file _ _ _ _ _ _ _ _ _ Hd f Hf)).
Qed.

(** Files that show what the listed ones showed. *)
Lemma refiled_leaves V logs files files' :
  may_leave epoch V logs files → (∀ m k, view m files' k = view m files k) → may_leave epoch V logs files'.
Proof using Type. intros Hk Hv. eapply may_leave_step; [exact Hk|]. intros k. left. by rewrite Hv. Qed.

Lemma holds_refiled room V s m etag logs files io m' etag' files' num :
  holds_at prefix epoch session K U (room + 1) V s m etag logs files →
  (∀ m k, view m files' k = view m files k) → (num ≤ ox_sst_seq s + 1)%N →
  ok (ox_wal_seq s) num m' etag' logs files' io → holds room V (set_sst_seq num (set_io io s)).
Proof using Type*.
  intros [_ Hmem Hbuf Hlive Hlogged Hwr Hsr Hk] Hv Hnum Hio. exists m', etag', logs, files'.
  split; cbn; try done; [intros k; by rewrite Hv|intros k; by rewrite Hv|lia|lia|by eapply refiled_leaves].
Qed.

Lemma holds_refiled_same room V s m etag logs files io m' etag' files' :
  holds_at prefix epoch session K U (room + 1) V s m etag logs files →
  (∀ m k, view m files' k = view m files k) →
  ok (ox_wal_seq s) (ox_sst_seq s) m' etag' logs files' io → holds room V (set_io io s).
Proof using Type*.
  intros Hh Hv Hio. apply (holds_refiled room V s m etag logs files io m' etag' files' (ox_sst_seq s) Hh Hv); [lia|done].
Qed.

(** The new file of a compaction, from its bytes to the manifest. *)
Lemma compact_new room V s m etag logs files l1 raw io :
  holds_at prefix epoch session K U (room + 1) V s m etag logs files →
  f_meta <$> l1 = l1_inputs (f_meta <$> files) (at_level 0 (f_meta <$> files)) → Forall (λ g, g ∈ files) l1 →
  ok (ox_wal_seq s) (ox_sst_seq s) m etag logs files io →
  spilled_rows prefix K U (st_objects io.1.1) raw (bt_iter (folding files l1)) →
  ∃ data r io', build_sst (list_to_map raw) L1_BLOCK_SIZE = Ok data ∧
    let num := ox_sst_seq s in
    let id := sst_path prefix epoch 1 num in
    (put_new "L1 sst" id num data ;; check_owner prefix epoch session "before compaction CAS" ;;
     swap_inputs prefix epoch 4 ((f_meta <$> level_files 0 files) ++ (f_meta <$> l1))
       (MkSstMeta id num 1 (first_key (list_to_map raw)) (last_key (list_to_map raw)) (blen data)))
      (set_sst_seq (wrapping_inc num) (set_io io s)) =
      (Ok r, set_sst_seq (wrapping_inc num) (set_io io' s)) ∧
    holds room V (set_sst_seq (wrapping_inc num) (set_io io' s)).
Proof using Type*.
  intros Hh Hl1 Hin1 Hio1 Hst. pose proof Hh as [Hio _ _ _ _ Hwr Hsr Hleave].
  pose proof (io_disk _ _ _ _ _ _ _ _ _ _ _ _ Hio) as Hd.
  set (s2 := set_sst_seq (wrapping_inc (ox_sst_seq s)) (set_io io s)).
  destruct (upload_ok prefix epoch session Hep K U "L1 sst" "before compaction CAS" (ox_wal_seq s)
    (ox_sst_seq s) m etag logs files 1 L1_BLOCK_SIZE (folding files l1) raw s2)
    as (data & io2 & Hb & _ & Hup & Hio2 & Hfile);
    [done|lia|by right|by right|by eapply folding_use|done|].
  set (nf := new_file prefix epoch 1 (ox_sst_seq s) (list_to_map raw) (folding files l1) data) in *.
  assert (∀ m0 k, view m0 (kept ((f_meta <$> level_files 0 files) ++ (f_meta <$> l1)) files ++ [nf]) k =
    view m0 files k) as Hcv.
  { intros m0 k. apply (compact_view _ _ _ _ _ _ _ _ _ Hd Hep l1 Hl1 Hin1). intros k'. by apply folded_lookup. }
  destruct (swap_ok (ox_wal_seq s) (ox_sst_seq s) logs files l1 Hl1 Hin1 m etag nf (set_io io2 s2))
    as (io3 & m' & etag' & Hswap & Hio3); [done|done|done|done| | | |..].
  { eapply dk_below, Hio. }
  { intros g Hg. by eapply (next_id_free _ _ _ Hep _ _ _ _ _ _ _ _ _ 1 g Hio); [lia|]. }
  { intros k. by apply folded_lookup. }
  { intros D. apply (may_leave_logged epoch V). by eapply refiled_leaves. }
  exists data, (Some (f_meta nf)), io3. split; [done|]. split; [cbv zeta; fold s2; by rewrite Hup|].
  rewrite wrapping_inc_small in * by lia. eapply holds_refiled; [exact Hh|exact Hcv|lia|exact Hio3].
Qed.

Lemma compact_holds room V s :
  holds (room + 1) V s →
  ∃ r s', compact_inner prefix epoch session s = (Ok r, s') ∧ holds room V s' ∧
    rest s' = rest s ∧ ox_mem s' = ox_mem s.
Proof using Type*.
  intros (m & etag & logs & files & Hh). pose proof Hh as [Hio _ _ _ _ _ _ Hleave]. unfold compact_inner.
  destruct (load_reads prefix epoch session K U Hep _ _ _ _ _ _ s Hio) as (io1 & Hload & Hio1 & Ho1).
  step Hload. cbn [fst]. cbv zeta.
  assert (holds room V (set_io io1 s)) as Hsame by by eapply holds_refiled_same.
  destruct (bool_decide _ && _ && _); [by eauto 10|].
  rewrite (io_sst _ _ _ _ _ _ _ _ _ _ _ _ Hio).
  destruct (files_of (l1_inputs (f_meta <$> files) (at_level 0 (f_meta <$> files))) files) as (l1 & Hl1 & Hin1).
  { apply Forall_forall. intros x Hx. by apply l1_inputs_spec, elem_of_at_level in Hx as [_ ?]. }
  case_bool_decide; [by eauto 10|]. symmetry in Hl1.
  rewrite <-Hl1, at_level_files, <-!fmap_reverse, <-fmap_app.
  destruct (read_inputs_ok _ _ _ _ _ _ (reverse (level_files 0 files) ++ reverse l1) (set_io io1 s) Hio1)
    as (io2 & Hread & Hio2 & _); [apply Forall_forall; intros f; by apply inputs_listed|].
  step Hread. fold (folding files l1). pose proof (io_disk _ _ _ _ _ _ _ _ _ _ _ _ Hio) as Hd.
  destruct (spill_ok prefix epoch session K U Hep _ _ _ _ _ _ L1_BLOCK_SIZE
    (bt_iter (folding files l1)) (set_io io2 s) Hio2) as (raw & io3 & Hsp & Hio3 & Hst & _);
    [by right|apply use_table_rows; by eapply folding_use|].
  change (set_io io2 (set_io io1 s)) with (set_io io2 s). step Hsp.
  change (set_io io3 (set_io io2 s)) with (set_io io3 s). case_bool_decide as Hemp.
  - assert (∀ m0 k, view m0 (kept ((f_meta <$> level_files 0 files) ++ (f_meta <$> l1)) files) k =
      view m0 files k) as Hdv.
    { intros m0 k. apply (drop_view _ _ _ _ _ _ _ _ _ Hd Hep l1 Hl1 Hin1). intros k'.
      pose proof (folded_lookup (reverse (level_files 0 files) ++ reverse l1) k') as Hf.
      fold (folding files l1) in Hf. by rewrite (spilled_empty _ _ _ Hst Hemp) in Hf. }
    destruct (drop_ok _ _ logs files l1 Hl1 Hin1 m etag (set_io io3 s) Hio3)
      as (io & m' & etag' & files' & Hdrop & Hio4 & Hfiles).
    { intros D. apply (may_leave_logged epoch V). by eapply refiled_leaves. }
    exists None, (set_io io s). split; [exact Hdrop|]. split; [|done].
    eapply holds_refiled_same; [exact Hh| |exact Hio4]. by destruct Hfiles as [->| ->].
  - destruct (compact_new room V s m etag logs files l1 raw io3 Hh Hl1 Hin1 Hio3 Hst)
      as (data & r & io & Hb & Hrun & Hholds).
    erewrite op_bind_ok by (unfold op_lift; by rewrite Hb). do 2 pure_step.
    by eexists r, (set_sst_seq _ (set_io io s)).
Qed.
End compaction.
