(* ===== verification/LsmLife.v ===== *)
(** The operations of a writer that owns its prefix: what it acknowledges is
    what it stands for, and what a later session recovers. *)

From stdpp Require Import options.
From S2P Require Import Prelude OrdMap Core Codec Hooks Snapshot Storage Json Ownership Manifest.
From S2P Require Import Blob Probe Wal Merge Sst SstSpec Cache Read ReadSpec LsmStore LsmPaths.
From S2P Require Import BTree BTreeSpec LsmSpec LsmInv LsmDurable LsmCompact.

(** ** The map of a log *)

(** What a sequence of operations makes of a map. *)
Definition apply_live (rows : list row) (V : gmap string bytes) : gmap string bytes :=
  foldl (λ V r, match r.2 with Some v => <[r.1 := v]> V | None => base.delete r.1 V end) V rows.

Lemma view_apply rows V m files :
  (∀ k, V !! k = view m files k) → ∀ k, apply_live rows V !! k = view (apply_rows rows m) files k.
Proof.
  revert V m. induction rows as [|[k' v] rows IH]; intros V m HV; [done|].
  apply (IH (match v with Some v => <[k' := v]> V | None => base.delete k' V end) (<[k' := v]> m)).
  intros k. specialize (HV k). unfold view in *. destruct (decide (k = k')) as [->|].
  - rewrite lookup_insert_eq. destruct v; [by rewrite lookup_insert_eq|by rewrite lookup_delete_eq].
  - rewrite (lookup_insert_ne m) by done.
    destruct v; [by rewrite lookup_insert_ne|by rewrite lookup_delete_ne].
Qed.

Lemma ignore_ok {S A} (m : Op S A) s r s' : m s = (Ok r, s') → op_ignore m s = (Ok (), s').
Proof. intros Hm. unfold op_ignore, op_try. by rewrite Hm. Qed.

Section life.
Context {W C : Type} `{ClockLaws W} `{JsonLaws Manifest} `{JsonLaws SstFooter}
  `{JsonLaws OwnershipRecord} `{Digests} `{JsonLaws BlobPointer}
  `{!Cache C string SstFile, !CacheLaws C string SstFile} `{Ch : Channel}.
Context (prefix : ObjectPath) (epoch : N) (session : string) (Hep : (epoch < U64)%N).
Context (K : string → Prop) (U : bytes → Prop) `{!Workload prefix K U} `{Pr : Promises, !Keeps W prefix K U}.
Context `{!StorePaths W prefix}.
Abbreviation reading := ((W * ManifestCache) * C)%type.
Abbreviation writer := (OxKvStore W C).
Abbreviation ok := (io_ok prefix epoch session K U).
Abbreviation holds := (holds prefix epoch session K U).

Lemma use_ops_ok rows : Forall (use_row K U) rows → Forall op_ok rows.
Proof using Type*.
  intros Hr. eapply Forall_impl; [exact Hr|]. intros r Hu. by eapply (wl_row prefix K U), use_raw.
Qed.

(** The queue and the hooks do not matter. *)
Lemma holds_calls room V s s' :
  holds room V s → ox_io s' = ox_io s → ox_mem s' = ox_mem s → ox_wal_seq s' = ox_wal_seq s →
  ox_sst_seq s' = ox_sst_seq s → ox_wal_buffer s' = ox_wal_buffer s → holds room V s'.
Proof using Type.
  intros (m & etag & logs & files & []) Hi Hm Hw Hs Hb. exists m, etag, logs, files.
  split; by rewrite ?Hi, ?Hm, ?Hw, ?Hs, ?Hb.
Qed.

(** What it stands for may be left. *)
Lemma holds_allowed room V s : holds room V s → promised epoch V.
Proof using Type. intros (m & etag & logs & files & []). by eapply may_leave_visible. Qed.

(** ** Maintenance *)

Lemma maintain_holds room V n s :
  holds (room + 3) V s →
  ∃ s', maintain_after_write prefix epoch session n s = (Ok (), s') ∧ holds room V s' ∧
    rest s' = rest s.
Proof using Type*.
  intros Hs. unfold maintain_after_write.
  replace (room + 3)%N with (room + 2 + 1)%N in Hs by lia.
  destruct (flush_holds prefix epoch session Hep K U (room + 2) false V s Hs)
    as (r1 & s1 & Hf & Hs1 & Hr1 & _).
  step (ignore_ok _ _ _ _ Hf). replace (room + 2)%N with (room + 1 + 1)%N in Hs1 by lia.
  destruct (compact_holds prefix epoch session Hep K U (room + 1) V s1 Hs1)
    as (r2 & s2 & Hc & Hs2 & Hr2 & _).
  step (ignore_ok _ _ _ _ Hc). unfold maintain_wal. case_bool_decide.
  { exists s2. split; [done|]. split; [eapply holds_less; [done..|lia]|congruence]. }
  destruct (flush_holds prefix epoch session Hep K U room true V s2 Hs2)
    as (r3 & s3 & Hf3 & Hs3 & Hr3 & Hemp).
  step Hf3.
  destruct (gc_wal_holds prefix epoch session Hep K U room V s3 Hs3 (Hemp eq_refl))
    as (n4 & s4 & Hg & Hs4 & Hr4 & _).
  step (ignore_ok _ _ _ _ Hg).
  destruct (gc_orphans_holds prefix epoch session Hep K U room V s4 Hs4)
    as (n5 & s5 & Ho & Hs5 & Hr5 & _).
  exists s5. split; [by eapply ignore_ok|]. split; [done|congruence].
Qed.

(** ** The durable append *)

(** The log of [ops] is uploaded and listed, the updates reach the table, and
    the maintenance runs. *)
Lemma append_holds room V ops updates s m etag logs files :
  ok (ox_wal_seq s) (ox_sst_seq s) m etag logs files (ox_io s) →
  use_table K U (ox_mem s) → ox_wal_buffer s = [] → promised epoch V →
  Forall (use_row K U) ops → Forall (use_row K U) updates →
  (∀ k, V !! k = view (apply_rows updates (ox_mem s)) files k) →
  (∀ k, V !! k = view (apply_rows (mjoin logs.*2 ++ ops) ∅) files k) →
  (ox_wal_seq s + (room + 4) < U64)%N → (ox_sst_seq s + (room + 3) + spare < U64)%N →
  ∃ s', append_wal_locked prefix epoch session (frames ops) updates s = (Ok (), s') ∧
    holds room V s' ∧ rest s' = rest s.
Proof using Type*.
  intros Hio Hmem Hbuf Hpr Hops Hup Hlive Hlogged Hwr Hsr. unfold append_wal_locked.
  do 2 pure_step. cbv zeta. set (s1 := set_wal_seq _ s). set (path := wal_path prefix epoch (ox_wal_seq s)).
  assert (logged V (logs ++ [(path, ops)]) files) as HV.
  { intros k. rewrite fmap_app, join_app. cbn. by rewrite app_nil_r. }
  assert (may_leave epoch V (logs ++ [(path, ops)]) files) as Hleave by by apply leave_durable.
  destruct (put_log_ok prefix epoch session K U Hep (ox_wal_seq s) (ox_sst_seq s) m etag logs files
    (frames ops) s1 Hio) as (io1 & tag & Hput & Hio1 & Ho1); [lia|].
  step Hput.
  destruct (owner_reads prefix epoch session K U Hep _ _ _ _ _ _ "after wal put" (set_io io1 s1) Hio1)
    as (io2 & Hown & Hio2 & Ho2).
  step Hown. cbn [list_wal].
  destruct (load_reads prefix epoch session K U Hep _ _ _ _ _ _ (set_io io2 s1) Hio2)
    as (io3 & Hload & Hio3 & Ho3).
  change (set_io io2 (set_io io1 s1)) with (set_io io2 s1). step Hload.
  assert (path ∉ logs.*1) as Hnew.
  { intros (l & Heq & Hl)%list_elem_of_fmap. destruct (listed_path_some prefix K U _ _ _ _ _ _
      (io_disk _ _ _ _ _ _ _ _ _ _ _ _ Hio) path) as [Hno _]; [|by apply (Hno l Hl)].
    apply (dk_wal_free _ _ _ _ _ _ _ _ _ (io_disk _ _ _ _ _ _ _ _ _ _ _ _ Hio)); lia. }
  rewrite bool_decide_eq_false_2 by by rewrite (io_wal _ _ _ _ _ _ _ _ _ _ _ _ Hio).
  destruct (publish_ok prefix epoch session K U Hep _ _ _ _ _ _
    (bump_version m (mf_wal m ++ [path]) (mf_sst m)) (logs ++ [(path, ops)]) files
    (set_io io3 s1) Hio3) as (tag' & io4 & io5 & Hcas & Hupd & Hio5 & _).
  { rewrite fmap_app. cbn [bump_version mf_wal fmap list_fmap fst].
    by rewrite (io_wal _ _ _ _ _ _ _ _ _ _ _ _ Hio). }
  { apply Hio. }
  { apply disk_list_log; [apply Hio3| |exact Hnew]. split; [done|]. split.
    - exists tag. change (disk (set_io io3 s1)) with io3.1.1. rewrite Ho3.
      change (disk (set_io io2 s1)) with io2.1.1. rewrite Ho2. exact Ho1.
    - exists epoch, (ox_wal_seq s). split_and!; [lia|lia|done]. }
  { intros D. by apply (may_leave_logged epoch V). }
  change (set_io io3 (set_io io2 s1)) with (set_io io3 s1). step Hcas. step Hupd.
  unfold apply_mem. pure_step.
  match goal with |- context [maintain_after_write _ _ _ ?n ?s'] => set (s6 := s') end.
  destruct (maintain_holds room V (length (mf_wal (bump_version m (mf_wal m ++ [path]) (mf_sst m)))) s6)
    as (s' & Hm & Hs' & Hr); [|by exists s'].
  exists (bump_version m (mf_wal m ++ [path]) (mf_sst m)), tag', (logs ++ [(path, ops)]), files.
  split; cbn; rewrite ?wrapping_inc_small by lia; try done; [| | |lia].
  - by apply use_apply_rows.
  - by rewrite Hbuf.
  - rewrite Hbuf, app_nil_r. exact HV.
Qed.

(** ** Staged operations *)

(** What a drain leaves alone. *)
Definition calls (s : writer) := (ox_pending s, ox_hooks s, ox_answers s, ox_pending_ctr s).

Lemma rest_calls s s' : rest s' = rest s → calls s' = calls s ∧ ox_wal_buffer s' = ox_wal_buffer s.
Proof using Type. unfold rest, calls. intros [= -> -> -> -> ->]. done. Qed.

Lemma drain_holds room V s :
  holds (room + 4) V s →
  ∃ s', drain_staged_locked prefix epoch session s = (Ok (), s') ∧ holds room V s' ∧
    ox_wal_buffer s' = [] ∧ calls s' = calls s.
Proof using Type*.
  intros (m & etag & logs & files & [Hio Hmem Hbuf Hlive Hlogged Hwr Hsr Hleave]).
  unfold drain_staged_locked. do 2 pure_step.
  destruct (ox_wal_buffer s) as [|op ops] eqn:Hb.
  { exists (set_wal_buffer [] s). split; [done|]. split; [|done].
    exists m, etag, logs, files. split; try done; cbn; lia. }
  rewrite <-Hb in *. unfold encode_ops. rewrite encode_ops_from_ok by by apply use_ops_ok.
  destruct (append_holds room V (ox_wal_buffer s) [] (set_wal_buffer [] s) m etag logs files)
    as (s' & Ha & Hs' & Hr); try done; try (cbn; lia).
  { by eapply may_leave_visible. }
  apply rest_calls in Hr as [Hr Hb'].
  unfold op_try. cbn [app]. rewrite Ha. by exists s'.
Qed.

Lemma stage_holds room V k v s :
  holds room V s → use_row K U (k, v) → (∀ D, promised epoch D) →
  holds room (apply_live [(k, v)] V)
    (set_wal_buffer (ox_wal_buffer s ++ [(k, v)]) (set_mem (<[k := v]> (ox_mem s)) s)).
Proof using Type*.
  intros (m & etag & logs & files & [Hio Hmem Hbuf Hlive Hlogged Hwr Hsr]) Hu Hall.
  exists m, etag, logs, files. split; cbn [set_wal_buffer set_mem ox_mem ox_wal_buffer ox_io
    ox_wal_seq ox_sst_seq]; try done.
  - apply (use_apply_rows K U [(k, v)]); [by constructor|done].
  - apply Forall_app. by split; [|constructor].
  - by apply (view_apply [(k, v)]).
  - rewrite app_assoc, apply_rows_app. by apply view_apply.
  - intros D _. apply Hall.
Qed.

(** ** Group commit *)

Definition write_row (w : PendingWrite) : row := (pw_key w, Some (pw_value w)).

(** A queued write is encoded as its row. *)
Definition queued (w : PendingWrite) : Prop :=
  use_row K U (write_row w) ∧ pw_encoded w = frame (write_row w).

Lemma persist_holds room V batch s `{!Allowed epoch (apply_live (write_row <$> batch) V)} :
  holds (room + 8) V s → batch ≠ [] → Forall queued batch →
  ∃ s', persist_batch prefix epoch session batch s = (Ok (), s') ∧
    holds room (apply_live (write_row <$> batch) V) s' ∧ ox_wal_buffer s' = [] ∧ calls s' = calls s.
Proof using Type*.
  intros Hs Hne Hq. unfold persist_batch. destruct batch as [|w0 batch0] eqn:Hb; [done|].
  rewrite <-Hb in *. clear Hne.
  replace (room + 8)%N with (room + 4 + 4)%N in Hs by lia.
  destruct (drain_holds (room + 4) V s Hs) as (s1 & Hd & Hs1 & Hb1 & Hc1).
  step Hd. destruct Hs1 as (m & etag & logs & files & [Hio Hmem Hbuf Hlive Hlogged Hwr Hsr]).
  assert (mjoin (pw_encoded <$> batch) = frames (write_row <$> batch)) as ->.
  { unfold frames. f_equal. rewrite <-list_fmap_compose. clear Hb Hlogged Allowed0.
    induction Hq as [|w l [_ Hw] _ IH]; [done|]. rewrite !fmap_cons, IH. by rewrite Hw. }
  assert (Forall (use_row K U) (write_row <$> batch)) as Hrows.
  { apply Forall_fmap. eapply Forall_impl; [exact Hq|]. by intros w [? _]. }
  destruct (append_holds room (apply_live (write_row <$> batch) V) (write_row <$> batch)
    (write_row <$> batch) s1 m etag logs files) as (s' & Ha & Hs' & Hr); try done; try lia.
  - by apply view_apply.
  - rewrite Hb1, app_nil_r in *. rewrite apply_rows_app. by apply view_apply.
  - apply rest_calls in Hr as [Hr Hb']. exists s'. split; [exact Ha|]. split; [done|].
    split; congruence.
Qed.

Lemma answered_lookup (batch : list PendingWrite) (r : Result ()) a i :
  foldl (λ a e, <[pw_id e := r]> a) a batch !! i =
    if decide (i ∈ pw_id <$> batch) then Some r else (a : gmap N (Result ())) !! i.
Proof using Type.
  revert a. induction batch as [|e batch IH]; intros a; [done|]. cbn [foldl]. rewrite IH.
  rewrite fmap_cons. destruct (decide (i ∈ pw_id <$> batch)) as [Hin|Hout].
  - by rewrite decide_True by by right.
  - destruct (decide (i = pw_id e)) as [->|Hne].
    + rewrite lookup_insert_eq, decide_True; [done|]. by left.
    + rewrite lookup_insert_ne, decide_False; [done| |done].
      by intros [?|?]%elem_of_cons.
Qed.

(** The first [n] queued writes are durable and answered. *)
Record served (room : N) (V : gmap string bytes) (n : nat) (s s' : writer) : Prop := {
  sv_holds : holds room (apply_live (write_row <$> take n (ox_pending s)) V) s';
  sv_pending : ox_pending s' = drop n (ox_pending s);
  sv_buffer : ox_wal_buffer s' = [];
  sv_hooks : ox_hooks s' = ox_hooks s;
  sv_ctr : ox_pending_ctr s' = ox_pending_ctr s;
  sv_answers i : ox_answers s' !! i =
    if decide (i ∈ pw_id <$> take n (ox_pending s)) then Some (Ok ()) else ox_answers s !! i;
}.

Lemma served_then room V n s s1 n' s' :
  served room (apply_live (write_row <$> take n (ox_pending s)) V) n' s1 s' →
  ox_pending s1 = drop n (ox_pending s) → ox_hooks s1 = ox_hooks s →
  ox_pending_ctr s1 = ox_pending_ctr s →
  (∀ i, ox_answers s1 !! i =
    if decide (i ∈ pw_id <$> take n (ox_pending s)) then Some (Ok ()) else ox_answers s !! i) →
  served room V (n + n') s s'.
Proof using Type*.
  intros [Hs Hp Hb Hh Hc Ha] Hp1 Hh1 Hc1 Ha1. rewrite Hp1 in *.
  assert (take (n + n') (ox_pending s) = take n (ox_pending s) ++ take n' (drop n (ox_pending s)))
    as Htake by by rewrite take_take_drop.
  split; try congruence; rewrite ?Htake, ?fmap_app.
  - unfold apply_live in *. by rewrite foldl_app.
  - by rewrite Hp, drop_drop.
  - intros i. rewrite Ha, Ha1. repeat case_decide; try done; set_solver.
Qed.

(** The holder of the gate leads batches of the queue until its own write was in
    one; every write of these batches is answered. *)
Lemma lead_holds fuel room V id s :
  (∀ n, Allowed epoch (apply_live (write_row <$> take n (ox_pending s)) V)) → holds (room + 8 * N.of_nat fuel) V s → length (ox_pending s) < fuel →
  ox_answers s !! id = None → id ∈ pw_id <$> ox_pending s → Forall queued (ox_pending s) →
  ∃ n s', put_lead prefix epoch session fuel id s = (Ok (), s') ∧
    id ∈ pw_id <$> take n (ox_pending s) ∧ served room V n s s'.
Proof using Type*.
  revert V s. induction fuel as [|fuel IH]; intros V s Hal Hs Hlen Hfree Hid Hq; [lia|].
  cbn [put_lead]. pure_step. rewrite Hfree. do 2 pure_step.
  set (batch := take MAX_GROUP_WRITES (ox_pending s)).
  set (s1 := set_pending (drop MAX_GROUP_WRITES (ox_pending s)) s).
  destruct batch as [|w0 batch0] eqn:Hbatch.
  { exfalso. unfold batch in Hbatch. destruct (ox_pending s); [by apply elem_of_nil in Hid|done]. }
  rewrite <-Hbatch in *. assert (batch ≠ []) as Hne by by rewrite Hbatch. clear Hbatch w0 batch0.
  pose proof (Hal MAX_GROUP_WRITES : Allowed epoch (apply_live (write_row <$> batch) V)) as Hal1.
  destruct (persist_holds (room + 8 * N.of_nat fuel) V batch s1) as (s2 & Hp & Hs2 & Hb2 & Hc2);
    [|done|by apply Forall_take|].
  { apply (holds_calls _ _ s); [|done..]. eapply holds_less; [done..|lia]. }
  unfold calls in Hc2. cbn in Hc2. injection Hc2 as Hpe Hh Han Hct.
  unfold op_try. rewrite Hp. pure_step.
  set (s3 := set_answers (foldl (λ a e, <[pw_id e := Ok ()]> a) (ox_answers s2) batch) s2).
  assert (holds (room + 8 * N.of_nat fuel) (apply_live (write_row <$> batch) V) s3) as Hs3
    by by apply (holds_calls _ _ s2).
  assert (∀ i, ox_answers s3 !! i =
    if decide (i ∈ pw_id <$> batch) then Some (Ok ()) else ox_answers s !! i) as Ha3.
  { intros i. unfold s3. cbn. by rewrite answered_lookup, Han. }
  case_bool_decide as Hin.
  - exists MAX_GROUP_WRITES, s3. split; [done|]. split; [done|]. split; try done.
    eapply holds_less; [done..|lia].
  - destruct (IH (apply_live (write_row <$> batch) V) s3) as (n & s' & Hlead & Hidn & Hsv).
    + intros n. unfold s3. cbn. rewrite Hpe. specialize (Hal (MAX_GROUP_WRITES + n)).
      rewrite <-take_take_drop, fmap_app in Hal. unfold apply_live in *. by rewrite foldl_app in Hal.
    + exact Hs3.
    + unfold s3. cbn. rewrite Hpe, length_drop.
      assert (ox_pending s ≠ []) by (intros Hnil; rewrite Hnil in Hid; by apply elem_of_nil in Hid).
      destruct (ox_pending s); [done|]. simpl in *. unfold MAX_GROUP_WRITES. lia.
    + by rewrite Ha3, decide_False.
    + unfold s3. cbn. rewrite Hpe. rewrite <-(take_drop MAX_GROUP_WRITES (ox_pending s)) in Hid.
      rewrite fmap_app, elem_of_app in Hid. by destruct Hid.
    + unfold s3. cbn. rewrite Hpe. by apply Forall_drop.
    + exists (MAX_GROUP_WRITES + n), s'. split; [done|]. split.
      * rewrite <-take_take_drop, fmap_app, elem_of_app. right.
        unfold s3 in Hidn. cbn in Hidn. by rewrite Hpe in Hidn.
      * by eapply served_then.
Qed.

(** ** Reads *)

Lemma on_io_bind {A B} (m : Op reading A) (k : A → Op reading B) (s : writer) :
  on_io (op_bind m k) s = op_bind (on_io m) (λ a, on_io (k a)) s.
Proof using Type.
  unfold on_io, op_zoom, op_bind. destruct (m (ox_io s)) as [[a|e] io]; [|done].
  cbn [set_io ox_io]. by destruct (k a io).
Qed.

Lemma retry_ok {S A} (clear : Op S ()) (op : Op S A) s a s' :
  op s = (Ok a, s') → retry_once_not_found clear op s = (Ok a, s').
Proof using Type. intros Hop. unfold retry_once_not_found, op_try. by rewrite Hop. Qed.

(** The tables a lookup sees. *)
Lemma files_stored room V s m etag logs files :
  holds_at prefix epoch session K U room V s m etag logs files →
  let objs := st_objects (disk s) in
  Forall2 (stores objs (used_id prefix epoch (ox_sst_seq s))) (reverse (mf_sst m))
    (f_raw <$> reverse files) ∧
  Forall2 (table_stands objs) (f_raw <$> reverse files) (f_table <$> reverse files) ∧
  V = live (merged ([ox_mem s] ++ (f_table <$> reverse files))).
Proof using Type*.
  intros [Hio Hmem _ Hlive _ _ _] objs.
  destruct (disk_stored prefix epoch K U _ _ _ _ _ (io_disk _ _ _ _ _ _ _ _ _ _ _ _ Hio) Hep) as [Hst Hts].
  rewrite (io_sst _ _ _ _ _ _ _ _ _ _ _ _ Hio). split; [done|]. split; [done|].
  apply map_eq. intros k. by rewrite Hlive, view_merged.
Qed.

Lemma holds_io room V s m etag logs files io :
  holds_at prefix epoch session K U room V s m etag logs files →
  ok (ox_wal_seq s) (ox_sst_seq s) m etag logs files io → holds room V (set_io io s).
Proof using Type. intros [] Hio. by exists m, etag, logs, files. Qed.

(** The lookup engine on the table and the files, before any retry. *)
Lemma lookup_holds room V k s :
  holds room V s →
  ∃ io, on_io (point_lookup prefix epoch (ox_mem s !! k) k) s = (Ok (V !! k), set_io io s) ∧
    holds room V (set_io io s).
Proof using Type*.
  intros (m & etag & logs & files & Hat). pose proof Hat as [Hio Hmem _ Hlive _ _ _].
  destruct (files_stored _ _ _ _ _ _ _ Hat) as (Hst & Hts & HV).
  assert (plain (ox_mem s)) as Hplain by by eapply use_table_plain.
  assert (newest (bt_iter <$> [ox_mem s]) k = ox_mem s !! k) as Hn.
  { cbn [fmap list_fmap newest]. rewrite assoc_bt_iter. by destruct (ox_mem s !! k). }
  destruct (ox_mem s !! k) as [v|] eqn:Hk.
  - destruct (answers_io prefix epoch session Hep K U _ _ _ _ _ _
      (point_lookup prefix epoch (Some v) k) (mjoin (Some v)) s Hio) as (io & Hp & Hio' & _).
    { rewrite <-Hn. apply point_staged; [by constructor|]. by rewrite Hn. }
    exists io. split; [|by eapply holds_io]. rewrite Hp. rewrite Hlive. unfold view. by rewrite Hk.
  - cbn [point_lookup]. rewrite on_io_bind.
    destruct (load_reads prefix epoch session K U Hep _ _ _ _ _ _ s Hio) as (io1 & Hload & Hio1 & Ho1).
    change (on_io (on_engine (load_manifest prefix epoch 1000))) with (load (Ch := Ch) (W := W) (C := C) prefix epoch).
    step Hload. cbn [fst].
    destruct (answers_io prefix epoch session Hep K U _ _ _ _ _ _
      (search_files (reverse (mf_sst m)) k) (V !! k) (set_io io1 s) Hio1) as (io & Hp & Hio' & _).
    { change (disk (set_io io1 s)) with io1.1.1. rewrite Ho1, HV.
      by apply (point_files _ _ _ m (f_raw <$> reverse files)). }
    exists io. split; [done|by eapply holds_io].
Qed.

(** Scans see the layers [ls] over the store. *)
Lemma scan_at room V ls limit dir c s m etag logs files :
  holds_at prefix epoch session K U room V s m etag logs files → Forall plain ls →
  ∃ db io, on_io (range_lookup prefix epoch ((λ l, filter_rows l dir c) <$> (ls ++ [ox_mem s])) limit dir c) s =
      (Ok (scan_spec limit dir c db), set_io io s) ∧
    ok (ox_wal_seq s) (ox_sst_seq s) m etag logs files io ∧
    ∀ k, db !! k = match newest (bt_iter <$> ls) k with Some v => v | None => V !! k end.
Proof using Type*.
  intros Hat Hls. pose proof Hat as [Hio Hmem _ Hlive _ _ _].
  destruct (files_stored _ _ _ _ _ _ _ Hat) as (Hst & Hts & HV).
  assert (plain (ox_mem s)) as Hplain by by eapply use_table_plain.
  destruct (load_reads prefix epoch session K U Hep _ _ _ _ _ _ s Hio) as (io1 & Hload & Hio1 & Ho1).
  exists (live (merged ((ls ++ [ox_mem s]) ++ (f_table <$> reverse files)))).
  destruct (answers_io prefix epoch session Hep K U _ _ _ _ _ _
    (scan_manifest m ((λ l, filter_rows l dir c) <$> (ls ++ [ox_mem s])) limit dir c)
    (scan_spec limit dir c (live (merged ((ls ++ [ox_mem s]) ++ (f_table <$> reverse files)))))
    (set_io io1 s) Hio1) as (io & Hp & Hio' & _).
  { change (disk (set_io io1 s)) with io1.1.1. rewrite Ho1.
    apply (range_files _ _ _ m (f_raw <$> reverse files)); [done..|].
    apply Forall_app. split; [done|by constructor]. }
  exists io. split; [|split; [done|]].
  - unfold range_lookup. rewrite on_io_bind.
    change (on_io (on_engine (load_manifest prefix epoch 1000))) with (load (Ch := Ch) (W := W) (C := C) prefix epoch).
    by step Hload.
  - intros k. rewrite live_join. unfold merged.
    rewrite newest_map_lookup, <-app_assoc, fmap_app, newest_app.
    destruct (newest (bt_iter <$> ls) k) as [v|]; [done|].
    rewrite HV, live_join. unfold merged. by rewrite newest_map_lookup.
Qed.

Lemma scan_holds room V ls limit dir c s :
  holds room V s → Forall plain ls →
  ∃ db io, on_io (range_lookup prefix epoch ((λ l, filter_rows l dir c) <$> (ls ++ [ox_mem s])) limit dir c) s =
      (Ok (scan_spec limit dir c db), set_io io s) ∧ holds room V (set_io io s) ∧
    ∀ k, db !! k = match newest (bt_iter <$> ls) k with Some v => v | None => V !! k end.
Proof using Type*.
  intros (m & etag & logs & files & Hat) Hls.
  destruct (scan_at room V ls limit dir c s _ _ _ _ Hat Hls) as (db & io & Hp & Hio & Hdb).
  exists db, io. split; [done|]. split; [by eapply holds_io|done].
Qed.

Lemma get_holds room V k s :
  holds room V s →
  ∃ io, ox_get_bytes prefix epoch k s = (Ok (V !! k), set_io io s) ∧ holds room V (set_io io s).
Proof using Type*.
  intros Hs. destruct (lookup_holds room V k s Hs) as (io & Hp & Hs').
  exists io. split; [|done]. apply retry_ok. by pure_step.
Qed.

Lemma has_holds room V k s :
  holds room V s →
  ∃ io, ox_has prefix epoch k s = (Ok (bool_decide (is_Some (V !! k))), set_io io s) ∧
    holds room V (set_io io s).
Proof using Type*.
  intros Hs. destruct (get_holds room V k s Hs) as (io & Hg & Hs'). exists io. split; [|done].
  unfold ox_has. by step Hg.
Qed.

Lemma gets_at room V limit dir c s m etag logs files :
  holds_at prefix epoch session K U room V s m etag logs files →
  ∃ io, ox_gets_bytes prefix epoch limit dir c s = (Ok (scan_spec limit dir c V), set_io io s) ∧
    ok (ox_wal_seq s) (ox_sst_seq s) m etag logs files io.
Proof using Type*.
  intros Hat. destruct (scan_at room V [] limit dir c s _ _ _ _ Hat) as (db & io & Hp & Hio & Hdb); [done|].
  assert (db = V) as -> by (apply map_eq; intros k; by rewrite Hdb).
  exists io. split; [|done]. apply retry_ok. by pure_step.
Qed.

Lemma gets_holds room V limit dir c s :
  holds room V s →
  ∃ io, ox_gets_bytes prefix epoch limit dir c s = (Ok (scan_spec limit dir c V), set_io io s) ∧
    holds room V (set_io io s).
Proof using Type*.
  intros (m & etag & logs & files & Hat). destruct (gets_at room V limit dir c s _ _ _ _ Hat) as (io & Hg & Hio).
  exists io. split; [done|by eapply holds_io].
Qed.

(** What a read leaves behind. *)
Definition after_reads (room : N) (V : gmap string bytes) (s0 s : writer) : Prop :=
  holds room V s ∧ ∃ io, s = set_io io s0.

Lemma ox_view_sim room V s0 :
  view_sim (after_reads room V s0) (ox_view prefix epoch) btree_view
    (MkBTree bounded_channel V hooks_default []).
Proof using Type*.
  split.
  - intros k s [Hs [io ->]]. destruct (get_holds room V k _ Hs) as (io' & Hr & Hs').
    eexists _, _. split; [exact Hr|]. split; [|done]. split; [done|by exists io'].
  - intros k s [Hs [io ->]]. destruct (has_holds room V k _ Hs) as (io' & Hr & Hs').
    eexists _, _. split; [exact Hr|]. split; [|done]. split; [done|by exists io'].
  - intros l d c s [Hs [io ->]]. destruct (gets_holds room V l d c _ Hs) as (io' & Hr & Hs').
    eexists _, _. split; [exact Hr|]. split; [split; [done|by exists io']|].
    apply btree_gets_bytes_spec.
Qed.

(** Validators get the answers of the map. *)
Lemma validate_holds room V vs k v s :
  holds room V s →
  ∃ io, validate_key vs (ox_view prefix epoch) k v s = (accepts vs V k v, set_io io s) ∧
    holds room V (set_io io s).
Proof using Type*.
  intros Hs. destruct (validate_key_sim _ _ _ _ (ox_view_sim room V s) vs k v s)
    as (r & s' & Hv & [Hs' [io ->]] & Ht).
  { split; [done|]. exists (ox_io s). by destruct s. }
  exists io. unfold accepts. by rewrite Ht.
Qed.

(** ** The public operations *)

(** A store between two calls. *)
Record sound (room : N) (V : gmap string bytes) (s : writer) : Prop := {
  so_holds : holds room V s;
  so_pending : ox_pending s = [];
  so_answers n : (ox_pending_ctr s ≤ n)%N → ox_answers s !! n = None;
  so_ctr : (ox_pending_ctr s + room < U64)%N;
}.

Lemma sound_calls room room' V V' s s' :
  sound room V s → holds room' V' s' → calls s' = calls s → (room' ≤ room)%N → sound room' V' s'.
Proof using Type*.
  intros [_ Hp Ha Hc] Hs. unfold calls. intros [= Hp' _ Ha' Hc'] Hle.
  split; rewrite ?Hp', ?Ha', ?Hc'; try done. lia.
Qed.

Lemma sound_io room V s io : sound room V s → holds room V (set_io io s) → sound room V (set_io io s).
Proof using Type*. intros Hs Hh. by eapply sound_calls. Qed.

Lemma sound_less room room' V s : sound room V s → (room' ≤ room)%N → sound room' V s.
Proof using Type*.
  intros Hs Hle. eapply sound_calls; [exact Hs| |done|done]. eapply holds_less; [done..|apply Hs|done].
Qed.

Lemma sound_notify room V s ev :
  sound room V s → sound room V (set_hooks (hooks_notify ev (ox_hooks s)).2 s).
Proof using Type*. intros [Hs Hp Ha Hc]. split; try done. by apply (holds_calls _ _ s). Qed.

Lemma put_sound room V k v s `{!Allowed epoch (<[k := v]> V)} :
  sound (room + 16) V s → use_row K U (k, Some v) →
  ∃ s', ox_put_bytes prefix epoch session k v s = (Ok (), s') ∧ sound room (<[k := v]> V) s' ∧
    ox_hooks s' = ox_hooks s ∧ ox_wal_buffer s' = [].
Proof using Type*.
  intros [Hs Hp Ha Hc] Hu. unfold ox_put_bytes, put_enqueue.
  assert (map_err (λ e, Storage ("encode wal: " +:+ Core.to_string e)) (encode_record [] k v)
    = Ok (frame (k, Some v))) as Henc.
  { change (encode_op [] (k, Some v) = Ok ([] ++ frame (k, Some v))). apply encode_op_ok.
    assert (Forall op_ok [(k, Some v)]) as Hok by (apply use_ops_ok; by constructor).
    by apply Forall_cons in Hok as [? _]. }
  rewrite Henc. unfold op_bind, op_lift, op_gets, op_modify, op_ret.
  change (ox_pending (set_pending_ctr (wrapping_inc (ox_pending_ctr s)) s)) with (ox_pending s).
  rewrite Hp. cbn [app]. set (w := MkPending _ _ _ _). set (s1 := set_pending [w] _).
  destruct (lead_holds 2 room V (ox_pending_ctr s) s1) as (n & s' & Hlead & Hid & Hsv).
  { intros [|n]; [by eapply holds_allowed|]. change (ox_pending s1) with [w]. cbn. by rewrite take_nil. }
  { apply (holds_calls _ _ s); done. }
  { cbn. lia. }
  { by apply Ha. }
  { by left. }
  { by apply Forall_singleton. }
  exists s'. split; [exact Hlead|]. destruct Hsv as [Hs' Hp' Hb' Hh' Hc' Ha'].
  assert (take n (ox_pending s1) = [w]) as Htake.
  { destruct n as [|n]; [by apply elem_of_nil in Hid|]. cbn. by rewrite take_nil. }
  rewrite Htake in *. split; [|done]. split; [exact Hs'| | |].
  - rewrite Hp'. destruct n; [done|]. cbn. by rewrite drop_nil.
  - intros i Hi. rewrite Hc' in Hi. unfold s1 in Hi. cbn in Hi.
    assert (ox_pending_ctr s + 1 < U64)%N by lia. rewrite wrapping_inc_small in Hi by done.
    rewrite Ha', decide_False; [apply Ha; lia|].
    cbn. rewrite list_elem_of_singleton. lia.
  - rewrite Hc'. cbn. rewrite wrapping_inc_small; lia.
Qed.

Lemma set_sound room V k v s `{!Allowed epoch (<[k := v]> V)} :
  sound (room + 16) V s → use_row K U (k, Some v) →
  ∃ s', ox_set_bytes prefix epoch session k v s =
      (match accepts (validators (ox_hooks s)) V k v with
       | Ok _ => Ok (V !! k)
       | Err e => Err e
       end, s') ∧
    match accepts (validators (ox_hooks s)) V k v with
    | Ok _ => sound room (<[k := v]> V) s' ∧ ox_wal_buffer s' = [] ∧
        ox_hooks s' = (hooks_notify (Event k Kind_Set (V !! k) (Some v) 0) (ox_hooks s)).2
    | Err _ => sound room V s' ∧ ox_wal_buffer s' = ox_wal_buffer s ∧ ox_hooks s' = ox_hooks s
    end.
Proof using Type*.
  intros Hs Hu. unfold ox_set_bytes. pure_step. pose proof Hs as [Hh _ _ _].
  destruct (validate_holds _ V (validators (ox_hooks s)) k v s Hh) as (io & Hv & Hh1).
  destruct (accepts _ _ _ _) as [[]|e].
  2: { rewrite (op_bind_err _ _ _ _ _ Hv). exists (set_io io s). split; [done|]. split; [|done].
       eapply sound_calls; [exact Hs| |done|lia]. eapply holds_less; [done..|lia]. }
  step Hv. destruct (get_holds _ V k _ Hh1) as (io1 & Hg & Hh2). step Hg.
  destruct (put_sound room V k v (set_io io1 (set_io io s))) as (s' & Hp & Hs' & Hhk & Hb'); [|done|].
  { by eapply sound_calls. }
  step Hp. unfold ox_notify. pure_step.
  exists (set_hooks (hooks_notify (Event k Kind_Set (V !! k) (Some v) 0) (ox_hooks s')).2 s').
  split; [done|]. split; [by apply sound_notify|]. split; [done|]. cbn. by rewrite Hhk.
Qed.

Lemma delete_sound room V k s `{!Allowed epoch (base.delete k V)} :
  sound (room + 16) V s → K k →
  ∃ s', ox_delete prefix epoch session k s = (Ok (bool_decide (is_Some (V !! k))), s') ∧
    sound room (base.delete k V) s' ∧ ox_wal_buffer s' = [] ∧
    ox_hooks s' = match V !! k with
                  | Some old => (hooks_notify (Event k Kind_Delete (Some old) None 0) (ox_hooks s)).2
                  | None => ox_hooks s
                  end.
Proof using Type*.
  intros Hs Hk. pose proof Hs as [Hh _ _ _]. unfold ox_delete.
  replace (room + 16)%N with (room + 12 + 4)%N in Hh by lia.
  destruct (drain_holds (room + 12) V s Hh) as (s1 & Hd & Hh1 & Hb1 & Hc1). step Hd.
  destruct (get_holds _ V k s1 Hh1) as (io & Hg & Hh2). step Hg.
  assert (ox_hooks s1 = ox_hooks s) as Hhk by by unfold calls in Hc1; simplify_eq.
  case_bool_decide as Hsome.
  - assert (Forall (use_row K U) [(k, None)]) as Hu by by repeat constructor.
    unfold encode_ops. rewrite encode_ops_from_ok by by apply use_ops_ok.
    cbn [app]. pure_step.
    destruct Hh2 as (m & etag & logs & files & [Hio Hmem Hbuf Hlive Hlogged Hwr Hsr]).
    destruct (append_holds room (base.delete k V) [(k, None)] [(k, None)] (set_io io s1) m etag logs files)
      as (s2 & Happ & Hh3 & Hr3); try done; try lia.
    { by apply (view_apply [(k, None)]). }
    { cbn [set_io ox_wal_buffer] in *. rewrite Hb1, app_nil_r in *. rewrite apply_rows_app.
      by apply (view_apply [(k, None)]). }
    step Happ. destruct Hsome as [old Hold]. rewrite Hold.
    apply rest_calls in Hr3 as [Hc3 Hb3].
    unfold ox_notify. pure_step. eexists. split; [done|]. split; [|split].
    + apply sound_notify. eapply sound_calls; [exact Hs|done|by etrans|lia].
    + cbn. by rewrite Hb3.
    + cbn. unfold calls in Hc3. injection Hc3 as _ Hh' _ _. by rewrite Hh', Hhk.
  - exists (set_io io s1). split; [done|].
    destruct (V !! k) as [old|] eqn:Hold; [by destruct Hsome|]. split; [|done].
    rewrite delete_id by done. eapply sound_calls; [exact Hs| |done|lia].
    eapply holds_less; [done..|lia].
Qed.

(** A writer does not notice that its storage was read. *)
Lemma sound_read room V s w :
  sound room V s → st_wf w → st_objects w = st_objects (disk s) → sound room V (set_disk w s).
Proof using Type*.
  intros Hs Hwf Ho. apply sound_io; [done..|].
  destruct (so_holds _ _ _ Hs) as (m & etag & logs & files & Hat). eapply holds_io; [exact Hat|].
  destruct Hat as [Hio _ _ _ _ _ _]. unfold disk in *. destruct (ox_io s) as [[w0 c] k].
  by eapply io_same.
Qed.
End life.
