(* ===== verification/LsmRecover.v ===== *)
(** Sessions of the writer over one storage: opening recovers what the last
    session acknowledged, calls behave as one map does, and what they leave
    behind can be opened again. *)

From stdpp Require Import options.
From S2P Require Import Prelude OrdMap Core Codec Hooks Snapshot Storage Json Ownership Manifest.
From S2P Require Import Blob Probe Wal Merge Sst SstSpec Cache Read ReadSpec LsmStore LsmPaths.
From S2P Require Import BTree BTreeSpec LsmSpec LsmInv LsmDurable LsmCompact LsmLife.

(** ** High-water marks *)

Lemma high_water_none l : Forall (λ n, n = None) l → high_water l = 0%N.
Proof. unfold high_water. induction 1 as [|n l -> _ IH]; [done|]. apply IH. Qed.

Lemma high_water_above l n : Some n ∈ l → (n < high_water l)%N.
Proof.
  unfold high_water.
  assert (∀ (l : list (option N)) hi, let f := foldl (λ hi n,
    match n with Some n => N.max hi (n + 1) | None => hi end)%N in
    (hi ≤ f hi l)%N ∧ (Some n ∈ l → (n < f hi l)%N)) as Hf.
  { clear. induction l as [|x l IH]; intros hi f; [split; [simpl; lia|by intros ?%elem_of_nil]|].
    cbn [foldl]. destruct (IH (match x with Some n => N.max hi (n + 1) | None => hi end)%N) as [H1 H2].
    split.
    - unfold f. cbn [foldl]. destruct x; lia.
    - unfold f. cbn [foldl]. intros [<-|Hn]%elem_of_cons; [lia|by apply H2]. }
  by intros; apply Hf.
Qed.

Lemma high_water_below l b : (∀ n, Some n ∈ l → (n < b)%N) → (high_water l ≤ b)%N.
Proof.
  unfold high_water.
  assert (∀ (l : list (option N)) hi, (hi ≤ b)%N → (∀ n, Some n ∈ l → (n < b)%N) →
    (foldl (λ hi n, match n with Some n => N.max hi (n + 1) | None => hi end) hi l ≤ b)%N) as Hf.
  { clear. induction l as [|x l IH]; intros hi Hhi Hl; [done|]. cbn [foldl]. apply IH.
    - destruct x as [n|]; [|done]. pose proof (Hl n (list_elem_of_here _ _)). lia.
    - intros n Hn. apply Hl. by right. }
  intros Hl. apply Hf; [lia|done].
Qed.

Section recovery.
Context {W C : Type} `{ClockLaws W} `{JsonLaws Manifest} `{JsonLaws SstFooter}
  `{JsonLaws OwnershipRecord} `{Digests} `{JsonLaws BlobPointer}
  `{!Cache C string SstFile, !CacheLaws C string SstFile} `{Ch : Channel}.
Context (prefix : ObjectPath) (K : string → Prop) (U : bytes → Prop) `{!Workload prefix K U}.
Context `{!StorePaths W prefix}.
Abbreviation reading := ((W * ManifestCache) * C)%type.
Abbreviation writer := (OxKvStore W C).

(** ** The takeover *)

Definition last_epoch (epoch : N) (w : W) : Prop := owner_on prefix epoch (st_objects w).

Lemma acquire_ok session epoch w :
  st_wf w → last_epoch epoch w → (epoch + 1 < U64)%N →
  let rec := MkOwnership (epoch + 1) session None None in
  (∀ tag, tag ≠ "" → st_safe W (<[ownership_path prefix := (to_vec rec, tag)]> (st_objects w))) →
  ∃ w' tag, acquire_ownership prefix session w = (Ok rec, w') ∧ st_wf w' ∧
    st_objects w' = <[ownership_path prefix := (to_vec rec, tag)]> (st_objects w).
Proof using Type*.
  intros Hwf Hlast Hep rec Hsafe. unfold acquire_ownership, acquire_read.
  destruct (st_get_law (ownership_path prefix) w Hwf (accepted _)) as (r & w1 & Hg & Ho1 & Hwf1 & Hr).
  unfold last_epoch, owner_on in Hlast.
  destruct (st_objects w !! ownership_path prefix) as [[b tag0]|] eqn:Hob.
  - destruct Hr as [v ->], Hlast as (old & Hb & He).
    unfold op_bind, op_try at 1. rewrite Hg. cbn [go_bytes]. rewrite Hb. cbn [op_ret go_e_tag go_version].
    unfold acquire_put. cbn [new_record].
    assert (new_record (Some (old, MkVersion (Some tag0) v)) session = rec) as ->.
    { unfold new_record, saturating_add_1. rewrite He, N.min_l by lia. done. }
    destruct (st_update_law _ (to_vec rec) _ _ _ Hwf (accepted _) Hg) as (out & w2 & Hput).
    destruct (st_put_law (ownership_path prefix) (to_vec rec) (Update (MkVersion (Some tag0) v)) w1 Hwf1 (accepted _))
      as (r & w2' & Hput' & Hwf2 & Hr); [rewrite Ho1; auto|].
    cbn [go_e_tag go_version] in Hput. rewrite Hput in Hput'. injection Hput' as <- <-.
    destruct Hr as (tag & _ & Ho2 & _). unfold op_try. rewrite Hput.
    exists w2, tag. by rewrite Ho2, Ho1.
  - destruct Hr as (msg & -> & Hnf). subst epoch.
    unfold op_bind, op_try at 1. rewrite Hg, Hnf. cbn [op_ret]. unfold acquire_put.
    change (new_record None session) with rec.
    destruct (st_put_law (ownership_path prefix) (to_vec rec) Create w1 Hwf1 (accepted _))
      as (r & w2 & Hput & Hwf2 & Hr); [rewrite Ho1; auto|].
    unfold op_try. rewrite Hput. destruct r as [out|e].
    + destruct Hr as (tag & _ & Ho2 & _). exists w2, tag. by rewrite Ho2, Ho1.
    + destruct Hr as (_ & _ & Hr). rewrite Ho1, Hob in Hr. by destruct Hr.
Qed.

(** ** What a storage holds between sessions *)

Record recoverable_at (room epoch : N) (V : gmap string bytes) (w : W) (wn sn : N) (m : Manifest)
    (etag : string) (logs : list (string * list row)) (files : list File) : Prop := {
  rc_wf : st_wf w;
  rc_disk : disk_ok prefix K U epoch wn sn logs files (st_objects w);
  rc_manifest : manifest_is prefix epoch m etag w;
  rc_wal : mf_wal m = logs.*1;
  rc_sst : mf_sst m = f_meta <$> files;
  rc_logged k : V !! k = view (apply_rows (mjoin logs.*2) ∅) files k;
  rc_room : (sn + room < U64)%N;
  rc_owner : last_epoch epoch w;
}.

(** The storage stands for [V]; its last owner had the epoch. *)
Definition recoverable (room epoch : N) (V : gmap string bytes) (w : W) : Prop :=
  ∃ wn sn m etag logs files, recoverable_at room epoch V w wn sn m etag logs files.

Lemma recoverable_stands room epoch V w :
  recoverable room epoch V w ↔ st_wf w ∧ stands prefix K U room epoch V (st_objects w).
Proof using Type.
  split.
  - intros (wn & sn & m & etag & logs & files & []). split; [done|]. exists wn, sn, m, etag, logs, files. by split.
  - intros (Hwf & wn & sn & m & etag & logs & files & []). exists wn, sn, m, etag, logs, files. by split.
Qed.

(** An empty storage stands for the empty map. *)
Lemma empty_recoverable room w : st_wf w → st_objects w = ∅ → (room < U64)%N → recoverable room 0 ∅ w.
Proof using Type*.
  intros Hwf Ho Hroom. exists 0%N, 0%N, (manifest_empty 0), "", [], []. split; try done.
  - split; try (by constructor); rewrite ?Ho; try done.
    by intros f g k ?%elem_of_nil.
  - unfold manifest_is, manifest_on. by rewrite Ho.
  - unfold last_epoch, owner_on. by rewrite Ho.
Qed.

(** A store with nothing staged leaves its map behind. *)
Lemma sound_stands `{Pr : Promises} epoch session room V (s : writer) :
  sound prefix epoch session K U room V s → ox_wal_buffer s = [] →
  stands prefix K U (room + spare) epoch V (st_objects (disk s)).
Proof using Type*.
  intros [(m & etag & logs & files & [Hio Hmem Hbuf Hlive Hlogged Hwr Hsr]) _ _ _] Hb.
  exists (ox_wal_seq s), (ox_sst_seq s), m, etag, logs, files.
  pose proof Hio as [Hd [Hwf [Hm Hc]] (rec & tag & Ho & He & _) Hw Hs _]. split; try done.
  - intros k. by rewrite Hlogged, Hb, app_nil_r.
  - lia.
  - unfold owner_on. unfold disk. rewrite Ho. exists rec. by rewrite from_to_vec.
Qed.

Lemma stands_less room room' epoch V objs :
  stands prefix K U room epoch V objs → (room' ≤ room)%N → stands prefix K U room' epoch V objs.
Proof using Type.
  intros (wn & sn & m & etag & logs & files & []) Hle. exists wn, sn, m, etag, logs, files. split; try done. lia.
Qed.

Lemma sound_recoverable `{Pr : Promises} epoch session room V (s : writer) :
  sound prefix epoch session K U room V s → ox_wal_buffer s = [] →
  recoverable room epoch V (disk s).
Proof using Type*.
  intros Hs Hb. apply recoverable_stands. split.
  - by destruct (so_holds _ _ _ _ _ _ _ _ Hs) as (m & etag & logs & files & [[_ [Hwf _] _ _ _ _] _ _ _ _ _ _]).
  - eapply stands_less; [by eapply sound_stands|]. lia.
Qed.

(** ** Opening *)

Lemma manifest_reopen epoch epoch' m etag (objs objs' : gmap string (bytes * string)) :
  manifest_on prefix epoch m etag objs →
  objs' !! manifest_path prefix = objs !! manifest_path prefix →
  ∃ m', manifest_on prefix epoch' m' etag objs' ∧ mf_wal m' = mf_wal m ∧ mf_sst m' = mf_sst m.
Proof using Type*.
  unfold manifest_on. intros Hm ->. destruct (objs !! manifest_path prefix) as [[b tag]|].
  - by exists m.
  - destruct Hm as [-> ->]. by exists (manifest_empty epoch').
Qed.

(** The objects under a new owner. *)
Lemma disk_reopen epoch wn sn logs files objs o :
  disk_ok prefix K U epoch wn sn logs files objs → (epoch + 1 < U64)%N → (sn < U64)%N →
  disk_ok prefix K U (epoch + 1) (high_water (wal_number (epoch + 1) <$> logs.*1))
    (high_water ((λ m, sst_number (sm_id m)) <$> (f_meta <$> files))) logs files
    (<[ownership_path prefix := o]> objs) ∧
  high_water (wal_number (epoch + 1) <$> logs.*1) = 0%N ∧
  (high_water ((λ m, sst_number (sm_id m)) <$> (f_meta <$> files)) ≤ sn)%N.
Proof using Type*.
  intros Hd Hep Hsn.
  assert (disk_ok prefix K U epoch wn sn logs files (<[ownership_path prefix := o]> objs)) as Hd'
    by (apply disk_ownership; [exact _|lia|exact Hd]).
  clear Hd. pose proof Hd' as [Hl Hf Hord Hap Hbel Hb Hw Hs].
  rewrite Forall_forall in Hl. rewrite Forall_forall in Hf. rewrite Forall_forall in Hbel.
  assert (∀ f, f ∈ files → sst_number (sm_id (f_meta f)) = Some (sm_seq (f_meta f))) as Hnum.
  { intros f Hin. destruct (Hf f Hin) as [_ _ _ _ (e & _ & ->) Hn _]. by apply sst_number_path. }
  split_and!.
  - split; try done.
    + apply Forall_forall. intros l Hin. destruct (Hl l Hin) as (Hr & Ho & e & n & He & Hn & Hp).
      split; [done|]. split; [done|]. exists e, n. split_and!; [lia|done..].
    + apply Forall_forall. intros f Hin. destruct (Hf f Hin) as [? ? ? ? (e & He & Hp) ? ?].
      split; try done. exists e. split; [lia|done].
    + apply Forall_forall. intros f Hin. apply high_water_above. rewrite <-(Hnum f Hin), <-list_fmap_compose.
      by apply (list_elem_of_fmap_2 ((λ m, sst_number (sm_id m)) ∘ f_meta)).
    + intros e n He Hn Hen. apply Hw; [done..|lia].
    + intros e l n He Hn Hen. apply Hs; [done..|lia].
  - apply high_water_none, Forall_fmap, Forall_fmap, Forall_forall. intros l Hin. simpl.
    destruct (Hl l Hin) as (_ & _ & e & n & He & Hn & ->). apply wal_number_other; lia.
  - apply high_water_below. intros n Hn. rewrite <-list_fmap_compose in Hn.
    apply list_elem_of_fmap in Hn as (f & Heq & Hin). simpl in Heq. rewrite (Hnum f Hin) in Heq.
    injection Heq as ->. by apply Hbel.
Qed.

(** The record of a new owner leaves the map as it is. *)
Lemma stands_taken room epoch V objs rec tag :
  stands prefix K U room epoch V objs → or_epoch rec = (epoch + 1)%N → (epoch + 1 < U64)%N →
  stands prefix K U room (epoch + 1) V (<[ownership_path prefix := (to_vec rec, tag)]> objs).
Proof using Type*.
  intros (wn & sn & m & etag & logs & files & [Hd Hm Hwal Hsst Hlog Hroom Hown]) He Hep.
  destruct (disk_reopen epoch wn sn logs files _ (to_vec rec, tag) Hd Hep) as (Hd1 & _ & Hsn); [lia|].
  destruct (manifest_reopen epoch (epoch + 1) m etag _ (<[ownership_path prefix := (to_vec rec, tag)]> objs) Hm)
    as (m' & Hm' & Hwal' & Hsst').
  { apply lookup_insert_ne. by eapply (kinds_apart prefix OwnershipKind ManifestKind). }
  eexists _, _, m', etag, logs, files. split; [done|done|congruence..|done|lia|].
  unfold owner_on. rewrite lookup_insert_eq. exists rec. by rewrite from_to_vec.
Qed.

Context `{Pr : Promises, !Keeps W prefix K U}.

(** A new session on a storage that stands for [V] stands for [V]. *)
Lemma reopen_sound room epoch V session single (cache : C) w `{!Allowed (epoch + 1) V} :
  recoverable (room + spare) epoch V w → (epoch + 1 < U64)%N → (room < U64)%N → cache_view cache = ∅ →
  ∃ s w', build_with_cache prefix session true single cache w = (Ok (epoch + 1, s)%N, w') ∧
    sound prefix (epoch + 1) session K U room V s ∧ ox_wal_buffer s = [] ∧
    ox_hooks s = hooks_default ∧ ox_answers s = ∅.
Proof using Type*.
  intros (wn & sn & m & etag & logs & files & [Hwf Hd Hm Hwal Hsst Hlog Hroom Hown]) Hep Hr Hcache.
  set (rec := MkOwnership (epoch + 1) session None None) in *.
  destruct (acquire_ok session epoch w Hwf Hown Hep) as (w1 & tag & Hacq & Hwf1 & Ho1).
  { intros tag _. apply (keeps (epoch + 1) V); [done|]. apply stands_taken; [|done..].
    exists wn, sn, m, etag, logs, files. split; try done. lia. }
  fold rec in Hacq, Ho1.
  destruct (disk_reopen epoch wn sn logs files _ (to_vec rec, tag) Hd Hep) as (Hd1 & Hwn & Hsn); [lia|].
  rewrite <-Ho1 in Hd1.
  destruct (manifest_reopen epoch (epoch + 1) m etag _ (st_objects w1) Hm) as (m' & Hm' & Hwal' & Hsst').
  { rewrite Ho1. apply lookup_insert_ne. by eapply (kinds_apart prefix OwnershipKind ManifestKind). }
  set (mc := set_skip_revalidation single cache_new).
  destruct (load_current prefix (epoch + 1) 1000 m' etag w1 mc) as ([w2 c2] & Hload & Ho2 & Hc2);
    [by split|].
  destruct (replay_pass_spec logs w2 c2 ∅) as (w3 & Hrep & Hwf3 & Ho3).
  { apply Hc2. }
  { apply Forall_forall. intros l Hin. destruct (listed_log _ _ _ _ _ _ _ _ _ Hd1 l Hin) as (Hu & [t Ho] & _).
    split; [|exists t; cbn in Ho2; by rewrite Ho2].
    eapply Forall_impl; [exact Hu|]. intros r Hru. by eapply (wl_row prefix K U), use_raw. }
  assert (replay_listed_wals prefix (epoch + 1) (mf_wal m') ((w2, c2), ∅) =
    (Ok (), ((w3, c2), apply_rows (mjoin logs.*2) ∅))) as Hreplay.
  { unfold replay_listed_wals. rewrite Hwal', Hwal. by rewrite (op_bind_ok _ _ _ _ _ Hrep). }
  eexists _, _. split.
  { unfold build_with_cache. cbn [op_bind op_ret]. unfold op_bind at 1.
    rewrite Hacq. fold mc. cbv zeta. unfold op_bind at 1, on_cached at 1, op_zoom at 1.
    cbn [fst snd or_epoch rec]. rewrite Hload. cbn [fst].
    rewrite (op_bind_ok _ _ _ _ _ Hreplay). cbn [op_ret res_map]. reflexivity. }
  rewrite Hwal', Hsst', Hwal, Hsst. split; [|done]. cbn [fst] in Ho2.
  split; cbn [ox_pending ox_pending_ctr ox_answers]; [|done|done|lia].
  exists m', etag, logs, files. split; cbn [ox_io ox_wal_seq ox_sst_seq ox_mem ox_wal_buffer];
    [|..|lia|lia|by apply leave_durable].
  - split; cbn [fst snd]; rewrite ?Ho3, ?Ho2; try done; [..|by rewrite Hwal'|by rewrite Hsst'| | |lia].
    + eapply current_same; [done..|]. by rewrite Ho3.
    + exists rec, tag. split; [|done]. rewrite Ho1. apply lookup_insert_eq.
    + intros id f. by rewrite Hcache, lookup_empty.
    + intros D HD. assert (D = V) as ->; [|done]. apply map_eq. intros k. by rewrite HD, Hlog.
  - apply use_apply_rows; [|by intros k v; rewrite lookup_empty].
    apply Forall_forall. intros r (rows & Hin & Hrs)%list_elem_of_join.
    apply list_elem_of_fmap in Hrs as (l & -> & Hl).
    destruct (listed_log _ _ _ _ _ _ _ _ _ Hd1 l Hl) as (Hu & _). rewrite Forall_forall in Hu. auto.
  - constructor.
  - done.
  - intros k. by rewrite app_nil_r.
Qed.
End recovery.

(** Where nothing is promised. *)
Lemma open_sound {W C : Type} `{ClockLaws W} `{!Unguarded W} `{JsonLaws Manifest} `{JsonLaws SstFooter}
    `{JsonLaws OwnershipRecord} `{Digests} `{JsonLaws BlobPointer}
    `{!Cache C string SstFile, !CacheLaws C string SstFile} `{Ch : Channel}
    (prefix : ObjectPath) (K : string → Prop) (U : bytes → Prop) `{!Workload prefix K U} `{!StorePaths W prefix}
    room epoch V session single (cache : C) w :
  recoverable prefix K U room epoch V w → (epoch + 1 < U64)%N → (room < U64)%N → cache_view cache = ∅ →
  ∃ s w', build_with_cache prefix session true single cache w = (Ok (epoch + 1, s)%N, w') ∧
    sound prefix (epoch + 1) session K U room V s ∧ ox_wal_buffer s = [] ∧
    ox_hooks s = hooks_default ∧ ox_answers s = ∅.
Proof.
  intros Hr Hep Hroom Hc. refine (reopen_sound prefix K U room epoch V session single cache w _ Hep Hroom Hc).
  cbn [spare anything]. by rewrite N.add_0_r.
Qed.
