(* ===== verification/LsmTx.v ===== *)
(** Transactions of the single-writer store: [src/src/store/lsm/tx.rs], and
    [begin_tx] of [src/src/store/lsm/store.rs].

    A transaction shares the writer state of its store and keeps an overlay of
    its own; an operation runs on both. *)

From stdpp Require Import options.
From S2P Require Import Prelude OrdMap Core Codec Hooks Snapshot Storage Json Ownership Manifest.
From S2P Require Import Blob Probe Wal Merge Sst Cache Read LsmStore.

(** What [OxKvTx] keeps besides the shared state. *)
Record OxKvTx := MkOxTx {
  ot_validators : list Validator;
  ot_staged : list ChangeEvent;
  ot_overlay : MemMap;
}.

(** [stage]: one event per key, keeping the first old value. *)
Fixpoint ot_stage_in (ev : ChangeEvent) (l : list ChangeEvent) : list ChangeEvent :=
  match l with
  | [] => [ev]
  | existing :: l =>
      if decide (ev_key existing = ev_key ev)
      then Event (ev_key ev) (ev_kind ev) (ev_old existing) (ev_new ev) (ev_seq ev) :: l
      else existing :: ot_stage_in ev l
  end.

Section tx.
Context {W C : Type} `{StorageBackend W} `{Clock W} `{Json Manifest} `{Json SstFooter}
  `{Json OwnershipRecord} `{Digests} `{Json BlobPointer} `{Cache C string SstFile}
  `{Ch : Channel}.
Context (prefix : ObjectPath) (epoch : N) (session : string).

Abbreviation writer := (OxKvStore W C).
Abbreviation world := (OxKvStore W C * OxKvTx)%type.

Definition on_store {A} : Op writer A → Op world A := op_zoom fst (λ s w, (s, w.2)).

Definition ot_insert (k : string) (v : option bytes) (w : world) : world :=
  (w.1, MkOxTx (ot_validators w.2) (ot_staged w.2) (<[k := v]> (ot_overlay w.2))).

Definition ot_stage (ev : ChangeEvent) (w : world) : world :=
  (w.1, MkOxTx (ot_validators w.2) (ot_stage_in ev (ot_staged w.2)) (ot_overlay w.2)).

Definition ox_begin_tx (s : writer) : world :=
  (s, MkOxTx (validators (ox_hooks s)) [] ∅).

Definition ot_get_bytes (k : string) : Op world (option bytes) :=
  let! staged := op_gets (λ w : world, ot_overlay w.2 !! k) in
  match staged with
  | Some (Some raw) =>
      let! v := on_store (on_io (on_disk (resolve_value raw))) in op_ret (Some v)
  | Some None => op_ret None
  | None =>
      retry_once_not_found (on_store clear_cache)
        (let! staged := op_gets (λ w : world, ox_mem w.1 !! k) in
         on_store (on_io (point_lookup prefix epoch staged k)))
  end.

Definition ot_has (k : string) : Op world bool :=
  let! v := ot_get_bytes k in op_ret (bool_decide (is_Some v)).

Definition ot_delete (k : string) : Op world bool :=
  let! old_value := ot_get_bytes k in
  if bool_decide (is_Some old_value) then
    op_modify (ot_insert k None) ;;
    op_modify (ot_stage (Event k Kind_Delete old_value None 0)) ;;
    op_ret true
  else op_ret false.

(** The layers are the transaction overlay over the table. *)
Definition snapshot_layers (dir : Direction) (c : cursor) (w : world) : list (list row) :=
  [filter_rows (ot_overlay w.2) dir c; filter_rows (ox_mem w.1) dir c].

Definition ot_gets_bytes (limit : option N) (dir : Direction) (c : cursor) :
    Op world (list KeyValue) :=
  retry_once_not_found (on_store clear_cache)
    (let! layers := op_gets (snapshot_layers dir c) in
     on_store (on_io (range_lookup prefix epoch layers limit dir c))).

Definition ot_view : StoreView world := View ot_get_bytes ot_has ot_gets_bytes.

Definition ot_set_bytes (k : string) (v : bytes) : Op world (option bytes) :=
  let! vs := op_gets (λ w : world, ot_validators w.2) in
  validate_key vs ot_view k v ;;
  let! prev := ot_get_bytes k in
  op_modify (ot_insert k (Some v)) ;;
  op_modify (ot_stage (Event k Kind_Set prev (Some v) 0)) ;;
  op_ret prev.

Definition ot_put_bytes (k : string) (v : bytes) : Op world () :=
  let! vs := op_gets (λ w : world, ot_validators w.2) in
  validate_key vs ot_view k v ;;
  let! prev := ot_get_bytes k in
  op_modify (ot_insert k (Some v)) ;;
  op_modify (ot_stage (Event k Kind_Set prev (Some v) 0)).

(** The re-validation pass of [commit]. *)
Fixpoint ot_revalidate (evs : list ChangeEvent) : Op world () :=
  match evs with
  | [] => op_ret ()
  | ev :: evs =>
      match ev_kind ev, ev_new ev with
      | Kind_Set, Some v =>
          let! vs := op_gets (λ w : world, ot_validators w.2) in
          validate_key vs (RevalidateView ot_view (ev_key ev) (ev_old ev)) (ev_key ev) v
      | _, _ => op_ret ()
      end ;;
      ot_revalidate evs
  end.

Definition ot_take_overlay (w : world) : world :=
  (w.1, MkOxTx (ot_validators w.2) (ot_staged w.2) ∅).

(** The loop of [commit] that publishes the staged events. *)
Fixpoint ox_publish (evs : list ChangeEvent) : Op writer () :=
  match evs with
  | [] => op_ret ()
  | ev :: evs => ox_notify ev ;; ox_publish evs
  end.

Definition ot_commit : Op world () :=
  let! staged_events := op_gets (λ w : world, ot_staged w.2) in
  ot_revalidate staged_events ;;
  let! o := op_gets (λ w : world, ot_overlay w.2) in
  op_modify ot_take_overlay ;;
  if bool_decide (o = ∅) then op_ret ()
  else
    let updates := bt_iter o in
    let! payload := op_lift (encode_ops updates) in
    on_store (drain_staged_locked prefix epoch session) ;;
    on_store (append_wal_locked prefix epoch session payload updates) ;;
    on_store (ox_publish staged_events).

Definition ot_rollback : Op world () := op_ret ().

#[export] Instance OxKvTx_GetSet : GetSet world := {|
  get_bytes := ot_get_bytes;
  has := ot_has;
  delete := ot_delete;
  set_bytes := ot_set_bytes;
  put_bytes := ot_put_bytes;
  gets_bytes := ot_gets_bytes;
|}.

Definition OxKvStore_Store : @Store writer world (ox_GetSet prefix epoch session) OxKvTx_GetSet := {|
  begin_tx s := Ok (ox_begin_tx s);
  commit := ot_commit;
  rollback := ot_rollback;
  tx_store := fst;
|}.
End tx.
