(* ===== verification/LsmSessions.v ===== *)
(** The single-writer store as a whole: over any run of calls it is one map,
    and over any run of sessions on one storage it stays that map. *)

From stdpp Require Import options.
From S2P Require Import Prelude OrdMap Core Codec Hooks Snapshot Storage Json Ownership Manifest.
From S2P Require Import Blob Probe Wal Merge Sst SstSpec Cache Read ReadSpec LsmStore LsmPaths.
From S2P Require Import BTree BTreeSpec LsmSpec LsmInv LsmDurable LsmCompact LsmLife LsmRecover.

(** ** Calls *)

(** The calls of [GetSet], the staging, and the maintenance a user can ask for. *)
Inductive LsmCall :=
| Gs (call : GsCall)
| StageSet (k : string) (v : bytes)
| StageDelete (k : string)
| Flush
| FlushSst (force : bool)
| Compact
| GcOrphans.

(** The call on one map: the reply, the new map and the published changes. *)
Definition lsm_call (accept : gmap string bytes → string → bytes → Result ()) (call : LsmCall)
    (V : gmap string bytes) : Result GsReply * gmap string bytes * list ChangeEvent :=
  match call with
  | Gs (CPut k v) => (Ok RUnit, <[k := v]> V, [])
  | Gs call => spec_call accept call V
  | StageSet k v => (Ok RUnit, <[k := v]> V, [])
  | StageDelete k => (Ok RUnit, base.delete k V, [])
  | Flush | FlushSst _ | Compact | GcOrphans => (Ok RUnit, V, [])
  end.

Fixpoint lsm_calls (accept : gmap string bytes → string → bytes → Result ()) (calls : list LsmCall)
    (V : gmap string bytes) : list (Result GsReply) * gmap string bytes * list ChangeEvent :=
  match calls with
  | [] => ([], V, [])
  | call :: calls =>
      let '(r, V1, ev1) := lsm_call accept call V in
      let '(rs, V2, ev2) := lsm_calls accept calls V1 in (r :: rs, V2, ev1 ++ ev2)
  end.

(** Whether nothing is left staged after the calls, if nothing was before. *)
Definition drained_after (before : bool) (call : LsmCall) : bool :=
  match call with
  | StageSet _ _ | StageDelete _ => false
  | Flush | Gs (CDelete _) | Gs (CPut _ _) => true
  | _ => before
  end.

Definition drained (calls : list LsmCall) : bool := foldl drained_after true calls.

Section calls.
Context {W C : Type} `{ClockLaws W} `{JsonLaws Manifest} `{JsonLaws SstFooter}
  `{JsonLaws OwnershipRecord} `{Digests} `{JsonLaws BlobPointer}
  `{!Cache C string SstFile, !CacheLaws C string SstFile} `{Ch : Channel}.
Context (prefix : ObjectPath) (K : string → Prop) (U : bytes → Prop) `{!Workload prefix K U}.
Context `{!StorePaths W prefix} `{Pr : Promises, !Keeps W prefix K U}.
Abbreviation writer := (OxKvStore W C).

(** What a call may write. *)
Definition use_call (call : LsmCall) : Prop :=
  match call with
  | Gs (CSet k v) | Gs (CPut k v) | StageSet k v => use_row K U (k, Some v)
  | Gs (CDelete k) | StageDelete k => K k
  | _ => True
  end.

Section session.
Context (epoch : N) (session : string) (Hep : (epoch < U64)%N).
Abbreviation sound := (sound prefix epoch session K U).

Definition run_lsm (call : LsmCall) : Op writer GsReply :=
  match call with
  | Gs call => run_call (H := ox_GetSet prefix epoch session) call
  | StageSet k v => stage_set k v ;; op_ret RUnit
  | StageDelete k => stage_delete k ;; op_ret RUnit
  | Flush => flush prefix epoch session ;; op_ret RUnit
  | FlushSst true => let! _ := flush_mem_to_sst_force prefix epoch session in op_ret RUnit
  | FlushSst false => let! _ := flush_mem_to_sst prefix epoch session in op_ret RUnit
  | Compact => let! _ := LsmStore.compact prefix epoch session in op_ret RUnit
  | GcOrphans => let! _ := gc_orphans prefix epoch session in op_ret RUnit
  end.

Fixpoint run_lsms (calls : list LsmCall) (s : writer) : list (Result GsReply) * writer :=
  match calls with
  | [] => ([], s)
  | call :: calls =>
      let '(r, s1) := run_lsm call s in
      let '(rs, s2) := run_lsms calls s1 in (r :: rs, s2)
  end.

(** What a call leaves behind. *)
Record call_ok (room : N) (call : LsmCall) (s : writer) (V : gmap string bytes)
    (s' : writer) (V' : gmap string bytes) (evs : list ChangeEvent) : Prop := {
  co_sound : sound room V' s';
  co_validators : validators (ox_hooks s') = validators (ox_hooks s);
  co_events : subscribers (ox_hooks s') = notify_all evs (subscribers (ox_hooks s));
  co_drained b : (b = true → ox_wal_buffer s = []) →
    drained_after b call = true → ox_wal_buffer s' = [];
}.

(** A call that changes neither the map, nor the hooks, nor what is staged. *)
Lemma quiet_ok room call V s s' :
  sound room V s' → ox_hooks s' = ox_hooks s → ox_wal_buffer s' = ox_wal_buffer s →
  (∀ b, drained_after b call = true → b = true) → call_ok room call s V s' V [].
Proof using Type.
  intros Hs Hh Hb Hd. split; [done|by rewrite Hh..|].
  intros b Hbuf Ha. rewrite Hb. by apply Hbuf, Hd.
Qed.

Lemma sound_after room room1 V V' s s' :
  sound (room + 16) V s → holds prefix epoch session K U room1 V' s' → (room ≤ room1)%N →
  calls s' = calls s → sound room V' s'.
Proof using Type*.
  intros Hs Hh Hle Hc. eapply (sound_calls prefix epoch session Hep K U); [exact Hs| |done|lia]. by eapply holds_less.
Qed.

Lemma quiet_rest room room1 call V s s' :
  sound (room + 16) V s → holds prefix epoch session K U room1 V s' → (room ≤ room1)%N →
  rest s' = rest s → (∀ b, drained_after b call = true → b = true) → call_ok room call s V s' V [].
Proof using Type*.
  intros Hs Hh Hle Hr Hd. apply rest_calls in Hr as [Hc Hb]. pose proof Hc as [= _ Hhk _ _].
  apply quiet_ok; [|done..]. by eapply sound_after.
Qed.

Lemma quiet_io room call V s io :
  sound (room + 16) V s → holds prefix epoch session K U (room + 16) V (set_io io s) →
  (∀ b, drained_after b call = true → b = true) → call_ok room call s V (set_io io s) V [].
Proof using Type*.
  intros Hs Hh Hd. eapply quiet_rest; [done..| |done|done]. lia.
Qed.

(** The maps a call may leave, if it is stopped, besides those there were: staging
    leaves none, but what is staged can be left by a later call, in parts. *)
Definition call_allowed (call : LsmCall) (V : gmap string bytes) : Prop :=
  match call with
  | Gs (CSet k v) | Gs (CPut k v) => Allowed epoch (<[k := v]> V)
  | Gs (CDelete k) => Allowed epoch (base.delete k V)
  | StageSet _ _ | StageDelete _ => ∀ D, promised epoch D
  | _ => True
  end.

Lemma call_step room call V s :
  sound (room + 16) V s → use_call call → call_allowed call V →
  let '(r, V', evs) := lsm_call (accepts (validators (ox_hooks s))) call V in
  ∃ s', run_lsm call s = (r, s') ∧ call_ok room call s V s' V' evs.
Proof using Type*.
  intros Hs Hu Hal. pose proof Hs as [Hh _ _ _].
  destruct call as [[k|k|k|k v|k v|limit dir c]|k v|k| |force| |]; cbn [run_lsm lsm_call spec_call
    run_call get_bytes has delete set_bytes put_bytes gets_bytes ox_GetSet call_allowed] in *.
  - destruct (get_holds prefix epoch session Hep K U _ V k s Hh) as (io & Hg & Hh').
    step Hg. exists (set_io io s). split; [done|]. by apply quiet_io.
  - destruct (has_holds prefix epoch session Hep K U _ V k s Hh) as (io & Hg & Hh').
    step Hg. exists (set_io io s). split; [done|]. by apply quiet_io.
  - destruct (delete_sound prefix epoch session Hep K U room V k s Hs Hu) as (s' & Hd & Hs' & Hb & Hhk).
    step Hd. exists s'. split; [done|]. split; [done| | |done].
    + rewrite Hhk. by destruct (V !! k).
    + rewrite Hhk. by destruct (V !! k).
  - destruct (set_sound prefix epoch session Hep K U room V k v s Hs Hu) as (s' & Hd & Hs').
    unfold spec_set. destruct (accepts _ _ _ _) as [[]|e].
    + step Hd. exists s'. split; [done|]. destruct Hs' as (Hs' & Hb & Hhk).
      split; [done|by rewrite Hhk..|done].
    + rewrite (op_bind_err _ _ _ _ _ Hd). exists s'. split; [done|].
      destruct Hs' as (Hs' & Hb & Hhk). by apply quiet_ok.
  - destruct (put_sound prefix epoch session Hep K U room V k v s Hs Hu) as (s' & Hp & Hs' & Hhk & Hb).
    step Hp. exists s'. split; [done|]. split; [done|by rewrite Hhk..|done].
  - destruct (gets_holds prefix epoch session Hep K U _ V limit dir c s Hh) as (io & Hg & Hh').
    step Hg. exists (set_io io s). split; [done|]. by apply quiet_io.
  - unfold stage_set. eexists. split; [done|]. split; [|done..].
    eapply sound_after; [done|by apply (stage_holds prefix epoch session Hep K U _ V k (Some v) s Hh)|lia|done].
  - unfold stage_delete. eexists. split; [done|]. split; [|done..].
    eapply sound_after; [done|by apply (stage_holds prefix epoch session Hep K U _ V k None s Hh)|lia|done].
  - unfold flush. replace (room + 16)%N with (room + 12 + 4)%N in Hh by lia.
    destruct (drain_holds prefix epoch session Hep K U _ V s Hh) as (s' & Hd & Hh' & Hb & Hc).
    step Hd. exists s'. split; [done|]. pose proof Hc as [= _ Hhk _ _].
    split; [|by rewrite Hhk..|done]. eapply sound_after; [done..|lia|done].
  - destruct (flush_holds prefix epoch session Hep K U (room + 15) force V s) as (r & s' & Hf & Hh' & Hr & _).
    { eapply holds_less; [done..|lia]. }
    assert ((if force then let! _ := flush_mem_to_sst_force prefix epoch session in op_ret RUnit
      else let! _ := flush_mem_to_sst prefix epoch session in op_ret RUnit) s = (Ok RUnit, s')) as Hrun.
    { unfold flush_mem_to_sst_force, flush_mem_to_sst. destruct force; by step Hf. }
    exists s'. split; [exact Hrun|]. eapply quiet_rest; [done..|lia|done|done].
  - destruct (compact_holds prefix epoch session Hep K U (room + 15) V s) as (r & s' & Hf & Hh' & Hr & _).
    { eapply holds_less; [done..|lia]. }
    unfold LsmStore.compact. step Hf. exists s'. split; [done|]. eapply quiet_rest; [done..|lia|done|done].
  - destruct (gc_orphans_holds prefix epoch session Hep K U (room + 16) V s Hh) as (r & s' & Hf & Hh' & Hr & _).
    unfold gc_orphans. step Hf. exists s'. split; [done|]. eapply quiet_rest; [done..|lia|done|done].
Qed.

End session.
End calls.

Section runs.
Context {W C : Type} `{ClockLaws W} `{!Unguarded W} `{JsonLaws Manifest} `{JsonLaws SstFooter}
  `{JsonLaws OwnershipRecord} `{Digests} `{JsonLaws BlobPointer}
  `{!Cache C string SstFile, !CacheLaws C string SstFile} `{Ch : Channel}.
Context (prefix : ObjectPath) (K : string → Prop) (U : bytes → Prop) `{!Workload prefix K U}.
Context `{!StorePaths W prefix}.
Abbreviation writer := (OxKvStore W C).
Abbreviation use_call := (use_call K U).
Abbreviation run_lsms := (run_lsms prefix).

Lemma anything_allows epoch call V : call_allowed (Pr := anything) epoch call V.
Proof using Type. by destruct call as [[]| | | | | |]. Qed.

Section session.
Context (epoch : N) (session : string) (Hep : (epoch < U64)%N).
Abbreviation sound := (sound prefix epoch session K U).

Lemma calls_ok calls room V s :
  sound (room + 16 * N.of_nat (length calls)) V s → Forall use_call calls →
  let '(rs, V', evs) := lsm_calls (accepts (validators (ox_hooks s))) calls V in
  ∃ s', run_lsms epoch session calls s = (rs, s') ∧ sound room V' s' ∧
    validators (ox_hooks s') = validators (ox_hooks s) ∧
    subscribers (ox_hooks s') = notify_all evs (subscribers (ox_hooks s)) ∧
    ∀ b, (b = true → ox_wal_buffer s = []) → foldl drained_after b calls = true →
      ox_wal_buffer s' = [].
Proof using Type*.
  revert V s. induction calls as [|call calls IH]; intros V s Hs Hu.
  { rewrite N.add_0_r in Hs. exists s. split_and!; done || auto. }
  apply Forall_cons in Hu as [Hu Hus]. cbn [lsm_calls run_lsms foldl].
  pose proof (call_step prefix K U epoch session Hep (room + 16 * N.of_nat (length calls)) call V s) as Hstep.
  destruct (lsm_call _ call V) as [[r V1] ev1].
  destruct Hstep as (s1 & Hrun & [Hs1 Hv1 He1 Hd1]); [|done|by apply anything_allows|].
  { by replace (room + 16 * N.of_nat (length calls) + 16)%N
      with (room + 16 * N.of_nat (length (call :: calls)))%N by (cbn [length]; lia). }
  specialize (IH V1 s1 Hs1 Hus). rewrite Hv1 in IH. rewrite Hrun.
  destruct (lsm_calls _ calls V1) as [[rs V2] ev2].
  destruct IH as (s2 & Hrun2 & Hs2 & Hv2 & He2 & Hd2). rewrite Hrun2. exists s2.
  split_and!; try done.
  - by rewrite He2, He1, notify_all_app.
  - intros b Hb Hd. apply (Hd2 (drained_after b call)); [|done]. by apply Hd1.
Qed.
End session.

(** ** Sessions *)

Record Session := MkSession {
  se_name : string;
  se_single_writer : bool;
  se_cache : C;
  se_calls : list LsmCall;
}.

(** Opens a store on the storage, runs the calls, and drops it. *)
Definition run_session (x : Session) (w : W) : list (Result GsReply) * W :=
  match build_with_cache prefix (se_name x) true (se_single_writer x) (se_cache x) w with
  | (Ok (epoch, s), _) => let '(rs, s') := run_lsms epoch (se_name x) (se_calls x) s in (rs, disk s')
  | (Err e, w) => ([Err e], w)
  end.

Fixpoint run_sessions (xs : list Session) (w : W) : list (Result GsReply) * W :=
  match xs with
  | [] => ([], w)
  | x :: xs =>
      let '(rs, w1) := run_session x w in
      let '(rs', w2) := run_sessions xs w1 in (rs ++ rs', w2)
  end.

Definition all_calls (xs : list Session) : list LsmCall := mjoin (se_calls <$> xs).

(** A session that starts with an empty file cache, writes what the workload
    allows, and leaves nothing staged. *)
Definition session_ok (x : Session) : Prop :=
  cache_view (se_cache x) = ∅ ∧ Forall use_call (se_calls x) ∧ drained (se_calls x) = true.

Lemma lsm_calls_app accept l1 l2 V :
  lsm_calls accept (l1 ++ l2) V =
    let '(rs1, V1, ev1) := lsm_calls accept l1 V in
    let '(rs2, V2, ev2) := lsm_calls accept l2 V1 in (rs1 ++ rs2, V2, ev1 ++ ev2).
Proof using Type.
  revert V. induction l1 as [|call l1 IH]; intros V; cbn [lsm_calls app].
  { by destruct (lsm_calls accept l2 V) as [[? ?] ?]. }
  destruct (lsm_call accept call V) as [[r V1] ev]. rewrite IH.
  destruct (lsm_calls accept l1 V1) as [[rs1 V2] ev1].
  destruct (lsm_calls accept l2 V2) as [[rs2 V3] ev2]. by rewrite app_assoc.
Qed.

Lemma sessions_ok xs room epoch V w :
  recoverable prefix K U (room + 16 * N.of_nat (length (all_calls xs))) epoch V w →
  (epoch + N.of_nat (length xs) < U64)%N → (room + 16 * N.of_nat (length (all_calls xs)) < U64)%N →
  Forall session_ok xs →
  ∃ w', run_sessions xs w = ((lsm_calls (accepts []) (all_calls xs) V).1.1, w') ∧
    recoverable prefix K U room (epoch + N.of_nat (length xs))
      (lsm_calls (accepts []) (all_calls xs) V).1.2 w'.
Proof using Type*.
  revert epoch V w. induction xs as [|x xs IH]; intros epoch V w Hr He Hroom Hx.
  { rewrite !N.add_0_r in *. by exists w. }
  apply Forall_cons in Hx as [(Hcache & Huse & Hdr) Hx].
  change (all_calls (x :: xs)) with (se_calls x ++ all_calls xs) in *.
  rewrite length_app in *. cbn [run_sessions length] in *. unfold run_session.
  set (room1 := (room + 16 * N.of_nat (length (all_calls xs)))%N).
  assert ((room + 16 * N.of_nat (length (se_calls x) + length (all_calls xs)))%N =
    (room1 + 16 * N.of_nat (length (se_calls x)))%N) as Hsum by (unfold room1; lia).
  rewrite Hsum in *.
  destruct (open_sound prefix K U _ epoch V (se_name x) (se_single_writer x) (se_cache x) w Hr)
    as (s & w1 & Hopen & Hs & Hb & Hhk & _); [lia|done|done|]. rewrite Hopen.
  assert (epoch + 1 < U64)%N as Hep by lia.
  pose proof (calls_ok (epoch + 1) (se_name x) Hep (se_calls x) room1 V s Hs Huse) as Hcalls.
  rewrite Hhk in Hcalls. change (validators hooks_default) with ([] : list Validator) in Hcalls.
  rewrite lsm_calls_app. destruct (lsm_calls (accepts []) (se_calls x) V) as [[rs V1] ev1].
  destruct Hcalls as (s1 & Hrun & Hs1 & _ & _ & Hdr1). rewrite Hrun.
  destruct (IH (epoch + 1)%N V1 (disk s1)) as (w' & Hruns & Hrec); [|lia|unfold room1 in *; lia|done|].
  { eapply (sound_recoverable prefix K U); [exact Hs1|]. apply (Hdr1 true); [done|exact Hdr]. }
  rewrite Hruns. exists w'.
  destruct (lsm_calls (accepts []) (all_calls xs) V1) as [[rs2 V2] ev2]. split; [done|].
  by replace (epoch + N.of_nat (S (length xs)))%N with (epoch + 1 + N.of_nat (length xs))%N by lia.
Qed.


(** C2: Durability across sessions.  On a storage that stands for a map, such as
    an empty one, any number of sessions, each of which opens the store with
    a takeover and a replay, makes calls, and is dropped without any closing
    step, answer as one map does: what one session acknowledged is what the
    next one reads, and every opening succeeds. *)
Theorem lsm_sessions (xs : list Session) (room epoch : N) (V : gmap string bytes) (w : W) :
  recoverable prefix K U (room + 16 * N.of_nat (length (all_calls xs))) epoch V w →
  (epoch + N.of_nat (length xs) < U64)%N → (room + 16 * N.of_nat (length (all_calls xs)) < U64)%N →
  Forall session_ok xs →
  let '(rs, w') := run_sessions xs w in
  let '(rs', V', _) := lsm_calls (accepts []) (all_calls xs) V in
  rs = rs' ∧ recoverable prefix K U room (epoch + N.of_nat (length xs)) V' w'.
Proof using Type*.
  intros Hr He Hroom Hx. destruct (sessions_ok xs room epoch V w Hr He Hroom Hx) as (w' & -> & Hrec).
  by destruct (lsm_calls _ _ V) as [[rs' V'] evs].
Qed.

(** C23: Group commit: the caller that holds the gate answers.  With its own
    write in a queue of any length, its loop ends within one round more than
    the queue has entries, with its write durable; what it took off the queue
    is a prefix, in order, every write of which is durable, visible and
    answered, and the waiters behind it are left as they were. *)
Theorem group_commit (epoch : N) (session : string) (room : N) (V : gmap string bytes)
    (id : N) (s : writer) :
  (epoch < U64)%N →
  holds prefix epoch session K U (room + 8 * N.of_nat (S (length (ox_pending s)))) V s →
  id ∈ pw_id <$> ox_pending s → ox_answers s !! id = None → Forall (queued K U) (ox_pending s) →
  ∃ n s', put_lead prefix epoch session (S (length (ox_pending s))) id s = (Ok (), s') ∧
    id ∈ pw_id <$> take n (ox_pending s) ∧ served prefix epoch session K U room V n s s'.
Proof using Type*. intros Hep Hs Hid Hfree Hq. apply lead_holds; try done; lia. Qed.

(** After a forced flush the public log collection loses nothing: reads see
    the same map, and so does the next session. *)
Theorem flush_then_gc (epoch : N) (session : string) (room : N) (V : gmap string bytes)
    (s : writer) :
  (epoch < U64)%N → sound prefix epoch session K U (room + 1) V s → ox_wal_buffer s = [] →
  ∃ n s', (let! _ := flush_mem_to_sst_force prefix epoch session in gc_wal prefix epoch) s =
      (Ok n, s') ∧ sound prefix epoch session K U room V s' ∧ recoverable prefix K U room epoch V (disk s').
Proof using Type*.
  intros Hep Hs Hb. pose proof Hs as [Hh _ _ _].
  destruct (flush_holds prefix epoch session Hep K U room true V s Hh) as (r & s1 & Hf & Hh1 & Hr1 & Hemp).
  destruct (gc_wal_holds prefix epoch session Hep K U room V s1 Hh1 (Hemp eq_refl))
    as (n & s2 & Hg & Hh2 & Hr2 & _).
  assert (rest s2 = rest s) as Hr by congruence. apply rest_calls in Hr as [Hc Hb2].
  assert (sound prefix epoch session K U room V s2) as Hs2.
  { eapply (sound_calls prefix epoch session Hep K U); [exact Hs|exact Hh2|exact Hc|lia]. }
  exists n, s2. unfold flush_mem_to_sst_force, gc_wal. step Hf. split; [exact Hg|].
  split; [done|]. eapply (sound_recoverable prefix K U); [exact Hs2|congruence].
Qed.
End runs.

(** ** Two sessions *)

(** Calls on the keys and values of [row_ok]. *)
Ltac use_calls row_ok :=
  repeat apply Forall_cons_2; try apply Forall_nil_2; try exact I;
  try (apply row_ok; [first [by left|by right]|first [by left|by right]]); first [by left|by right].

Section witnesses.
#[local] Existing Instance length_digests.
#[local] Existing Instance still_clock.
#[local] Existing Instance still_clock_laws.
#[local] Existing Instance bounded_channel.
#[local] Instance se_manifest_json : Json Manifest := countable_json.
#[local] Instance se_manifest_json_laws : JsonLaws Manifest := countable_json_laws.
#[local] Instance se_footer_json : Json SstFooter := countable_json.
#[local] Instance se_footer_json_laws : JsonLaws SstFooter := countable_json_laws.
#[local] Instance se_owner_json : Json OwnershipRecord := countable_json.
#[local] Instance se_owner_json_laws : JsonLaws OwnershipRecord := countable_json_laws.
#[local] Instance se_pointer_json : Json BlobPointer := countable_json.
#[local] Instance se_pointer_json_laws : JsonLaws BlobPointer := countable_json_laws.

(** Two keys and two values, which no format has trouble with. *)
Definition two_keys (k : string) : Prop := k = "a" ∨ k = "b".
Definition two_values (v : bytes) : Prop := v = as_bytes "1" ∨ v = as_bytes "22".

Definition table_of (x y : option (option bytes)) : MemMap :=
  partial_alter (λ _, x) "a" (partial_alter (λ _, y) "b" ∅).

Definition cells : list (option (option bytes)) :=
  [None; Some None; Some (Some (as_bytes "1")); Some (Some (as_bytes "22"))].

Lemma never_spilled k v bs : two_keys k → two_values v → level_block bs → is_overflow k v bs = false.
Proof. intros [->| ->] [->| ->] [->| ->]; vm_compute; reflexivity. Qed.

Lemma two_stored v : stored "p" two_keys two_values v → two_values v.
Proof. intros [v' Hv|e k v' bs _ Hk Hv Hbs Ho]; [done|]. by rewrite never_spilled in Ho. Qed.

Lemma two_tables t :
  (∀ k v, t !! k = Some v → raw_row "p" two_keys two_values (k, v)) →
  ∃ x y, t = table_of x y ∧ x ∈ cells ∧ y ∈ cells.
Proof.
  intros Ht. exists (t !! "a"), (t !! "b"). split_and!.
  - apply map_eq. intros k. unfold table_of. destruct (decide (k = "a")) as [->|Ha].
    { by rewrite lookup_partial_alter_eq. }
    rewrite lookup_partial_alter_ne by done. destruct (decide (k = "b")) as [->|Hb].
    { by rewrite lookup_partial_alter_eq. }
    rewrite lookup_partial_alter_ne by done. rewrite lookup_empty.
    destruct (t !! k) as [v|] eqn:Hk; [|done]. by destruct (Ht _ _ Hk) as [[?|?] _].
  - destruct (t !! "a") as [[v|]|] eqn:Hk; [|by do 1 right; left|by left].
    destruct (Ht _ _ Hk) as [_ Hv]. destruct (two_stored v (Hv v eq_refl)) as [->| ->]; set_solver.
  - destruct (t !! "b") as [[v|]|] eqn:Hk; [|by do 1 right; left|by left].
    destruct (Ht _ _ Hk) as [_ Hv]. destruct (two_stored v (Hv v eq_refl)) as [->| ->]; set_solver.
Qed.

#[local] Instance two_workload : Workload "p" two_keys two_values.
Proof.
  split.
  - intros [k v] [Hk Hv]. cbn [fst snd] in *.
    destruct v as [v|]; [destruct (two_stored v (Hv v eq_refl)) as [->| ->]|];
      destruct Hk as [->| ->]; apply (bool_decide_unpack _); vm_compute; exact I.
  - intros v [->| ->]; vm_compute; reflexivity.
  - intros u v [->| ->] [->| ->]; vm_compute; congruence.
  - intros t bs data Hbs Ht Hb. apply N.leb_le.
    destruct (two_tables t Ht) as (x & y & -> & Hx & Hy).
    assert (forallb (λ x, forallb (λ y, forallb (λ bs, match build_sst (table_of x y) bs with
      | Ok d => (blen d <=? U32_MAX)%N | Err _ => true end) [DEFAULT_BLOCK_SIZE; L1_BLOCK_SIZE]) cells)
      cells = true) as Hall by (vm_compute; reflexivity).
    rewrite forallb_forall in Hall. specialize (Hall x (proj1 (list_elem_of_In _ _) Hx)).
    rewrite forallb_forall in Hall. specialize (Hall y (proj1 (list_elem_of_In _ _) Hy)).
    rewrite forallb_forall in Hall. specialize (Hall bs). rewrite Hb in Hall. apply Hall.
    destruct Hbs as [->| ->]; [by left|by right; left].
Qed.

Lemma two_row k v : two_keys k → two_values v → use_row two_keys two_values (k, Some v).
Proof. intros Hk Hv. split; [exact Hk|]. by intros ? [= <-]. Qed.

Abbreviation lru := (LruCache string SstFile).
Definition empty_lru : lru := lru_new 1000 (λ _ _, 1%N).

(** The second session reads what the first one wrote, staged, flushed and
    compacted away, and the third what is left of it. *)
Definition three_sessions : list (Session (C := lru)) := [
  MkSession "w1" false empty_lru
    [Gs (CPut "a" (as_bytes "1")); FlushSst true; StageSet "b" (as_bytes "22"); Flush];
  MkSession "w2" true empty_lru
    [Gs (CGet "a"); Gs (CSet "a" (as_bytes "22")); Gs (CDelete "b"); FlushSst true; Compact];
  MkSession "w3" false empty_lru
    [Gs (CHas "b"); GcOrphans; Gs (CGets None Next (None, None))]].

Lemma lsm_sessions_witness :
  (run_sessions "p" three_sessions mem_new).1 =
    [Ok RUnit; Ok RUnit; Ok RUnit; Ok RUnit;
     Ok (RBytes (Some (as_bytes "1"))); Ok (RBytes (Some (as_bytes "1"))); Ok (RBool true);
     Ok RUnit; Ok RUnit;
     Ok (RBool false); Ok RUnit; Ok (REntries [KV "a" (as_bytes "22")])].
Proof.
  assert (recoverable "p" two_keys two_values 192 0 ∅ mem_new) as Hr.
  { apply empty_recoverable; [exact _|exact _|exact I|reflexivity|reflexivity]. }
  pose proof (lsm_sessions "p" two_keys two_values three_sessions 0 0 ∅ mem_new Hr) as Hs.
  assert (lsm_calls (accepts []) (all_calls three_sessions) ∅ =
    ([Ok RUnit; Ok RUnit; Ok RUnit; Ok RUnit;
      Ok (RBytes (Some (as_bytes "1"))); Ok (RBytes (Some (as_bytes "1"))); Ok (RBool true);
      Ok RUnit; Ok RUnit;
      Ok (RBool false); Ok RUnit; Ok (REntries [KV "a" (as_bytes "22")])],
     (lsm_calls (accepts []) (all_calls three_sessions) ∅).1.2,
     (lsm_calls (accepts []) (all_calls three_sessions) ∅).2)) as Hspec by (vm_compute; reflexivity).
  rewrite Hspec in Hs. destruct (run_sessions "p" three_sessions mem_new) as [rs w'].
  apply Hs; [reflexivity|reflexivity|].
  repeat apply Forall_cons_2; [..|apply Forall_nil_2];
    (split; [reflexivity|]; split; [|reflexivity]); use_calls two_row.
Defined.

(** A store that was just opened on an empty storage. *)
Lemma fresh_store room single :
  (room < U64)%N →
  ∃ s w', build_with_cache "p" "w" true single empty_lru mem_new = (Ok (1%N, s), w') ∧
    sound "p" 1 "w" two_keys two_values room ∅ s ∧ ox_wal_buffer s = [] ∧
    ox_hooks s = hooks_default ∧ ox_answers s = ∅.
Proof.
  intros Hroom. apply (open_sound "p" two_keys two_values room 0 ∅ "w" single empty_lru mem_new);
    [|reflexivity|done|reflexivity].
  apply empty_recoverable; [exact _|exact _|exact I|reflexivity|exact Hroom].
Qed.

Definition some_calls : list LsmCall :=
  [Gs (CSet "a" (as_bytes "1")); StageDelete "a"; FlushSst true; Gs (CPut "b" (as_bytes "22"));
   Compact; Gs (CGet "a"); Gs (CGet "b")].

Lemma some_calls_ok : Forall (use_call two_keys two_values) some_calls.
Proof.
  use_calls two_row.
Qed.


(** Three callers queued behind the gate; the second one gets it. *)
Definition waiting : list PendingWrite :=
  [MkPending 0 "a" (as_bytes "1") (frame ("a", Some (as_bytes "1")));
   MkPending 1 "b" (as_bytes "22") (frame ("b", Some (as_bytes "22")));
   MkPending 2 "a" (as_bytes "22") (frame ("a", Some (as_bytes "22")))].

Lemma group_commit_witness :
  match build_with_cache (C := lru) "p" "w" true false empty_lru mem_new with
  | (Ok (epoch, s), _) =>
      ∃ n s', put_lead "p" epoch "w" 4 1 (set_pending waiting s) = (Ok (), s') ∧
        1%N ∈ pw_id <$> take n waiting
  | _ => False
  end.
Proof.
  destruct (fresh_store 32 false) as (s & w' & -> & [Hs _ _ _] & _ & _ & Ha); [reflexivity|].
  destruct (group_commit "p" two_keys two_values 1 "w" 0 ∅ 1 (set_pending waiting s))
    as (n & s' & Hlead & Hin & _).
  - reflexivity.
  - exact (holds_calls "p" 1 "w" two_keys two_values 32 ∅ s (set_pending waiting s) Hs eq_refl eq_refl
      eq_refl eq_refl eq_refl).
  - right. by left.
  - cbn. by rewrite Ha.
  - repeat apply Forall_cons_2; [..|apply Forall_nil_2];
      (split; [split; [first [by left|by right]|intros ? [= <-]; first [by left|by right]]|reflexivity]).
  - exists n, s'. split; [exact Hlead|exact Hin].
Defined.

Lemma flush_then_gc_witness :
  match build_with_cache (C := lru) "p" "w" true false empty_lru mem_new with
  | (Ok (epoch, s), _) =>
      ∃ n s', (let! _ := flush_mem_to_sst_force "p" epoch "w" in gc_wal "p" epoch) s = (Ok n, s')
  | _ => False
  end.
Proof.
  destruct (fresh_store 32 false) as (s & w' & -> & Hs & Hb & _); [reflexivity|].
  destruct (flush_then_gc "p" two_keys two_values 1 "w" 31 ∅ s eq_refl Hs Hb) as (n & s' & Hr & _).
  exists n, s'. exact Hr.
Defined.
End witnesses.

(** What the concrete runs of the other files are on. *)
Module Concrete.
#[export] Existing Instances length_digests still_clock still_clock_laws bounded_channel
  se_manifest_json se_manifest_json_laws se_footer_json se_footer_json_laws
  se_owner_json se_owner_json_laws se_pointer_json se_pointer_json_laws two_workload.
End Concrete.
