(* ===== verification/LsmTxSpec.v ===== *)
(** Transactions of the single-writer store against those of the in-memory
    store: on a sound store a transaction is the in-memory transaction on the
    map the store stands for. *)

From stdpp Require Import options.
From S2P Require Import Prelude OrdMap Core Codec Hooks Snapshot Storage Json Ownership Manifest.
From S2P Require Import Blob Probe Wal Merge Sst SstSpec Cache Read ReadSpec LsmStore LsmPaths.
From S2P Require Import BTree BTreeSpec LsmSpec LsmInv LsmDurable LsmCompact LsmLife LsmRecover.
From S2P Require Import LsmTx LsmSessions.

Lemma ot_stage_in_eq ev l : ot_stage_in ev l = stage ev l.
Proof. induction l as [|e l IH]; [done|]. cbn [ot_stage_in stage]. by rewrite IH. Qed.

Section tx.
Context {W C : Type} `{ClockLaws W} `{JsonLaws Manifest} `{JsonLaws SstFooter}
  `{JsonLaws OwnershipRecord} `{Digests} `{JsonLaws BlobPointer}
  `{!Cache C string SstFile, !CacheLaws C string SstFile} `{Ch : Channel}.
Context (prefix : ObjectPath) (epoch : N) (session : string) (Hep : (epoch < U64)%N).
Context (K : string → Prop) (U : bytes → Prop) `{!Workload prefix K U}.
Context `{!StorePaths W prefix} `{Pr : Promises, !Keeps W prefix K U}.
Abbreviation writer := (OxKvStore W C).
Abbreviation world := (OxKvStore W C * OxKvTx)%type.
Abbreviation mem_world := (BTreeStore * BTreeTx)%type.
Abbreviation holds := (holds prefix epoch session K U).
Abbreviation sound := (sound prefix epoch session K U).

(** The transaction [w] and the in-memory transaction [t]; [buf] is what the
    store had staged. *)
Record tx_sim (room : N) (buf : list row) (w : world) (t : mem_world) : Prop := {
  ts_sound : sound room (map t.1) w.1;
  ts_buffer : ox_wal_buffer w.1 = buf;
  ts_hooks : ox_hooks w.1 = hooks t.1;
  ts_overlay : ot_overlay w.2 = overlay t.2;
  ts_validators : ot_validators w.2 = tx_validators t.2;
  ts_staged : ot_staged w.2 = staged t.2;
  ts_use : use_table K U (overlay t.2);
}.

(** The in-memory store that stands for the same map. *)
Definition twin (V : gmap string bytes) (s : writer) : BTreeStore := MkBTree Ch V (ox_hooks s) [].

Lemma begin_sim room V s :
  sound room V s → tx_sim room (ox_wal_buffer s) (ox_begin_tx s) (btree_begin_tx (twin V s)).
Proof using Type*. intros Hs. by split. Qed.

(** ** Reads *)

Lemma tx_sim_io room buf s x t io :
  tx_sim room buf (s, x) t → holds room (map t.1) (set_io io s) → tx_sim room buf (set_io io s, x) t.
Proof using Type*. intros [] Hh. split; try done. by apply sound_io. Qed.

Lemma on_store_eq {A} (m : Op writer A) (s s' : writer) (x : OxKvTx) r :
  m s = (r, s') → on_store m (s, x) = (r, (s', x)).
Proof using Type. unfold on_store, op_zoom. simpl. by intros ->. Qed.

Lemma ot_get_sim room buf k w t :
  tx_sim room buf w t →
  ∃ w', ot_get_bytes prefix epoch k w = (Ok (tx_map t !! k), w') ∧ tx_sim room buf w' t.
Proof using Type*.
  intros Hsim. pose proof Hsim as [[Hh _ _ _] _ _ Ho _ _ Hu]. unfold ot_get_bytes. pure_step.
  rewrite Ho. unfold tx_map. rewrite apply_overlay_lookup. unfold overlay_lookup.
  destruct w as [s x]. cbn [fst snd] in *.
  destruct (overlay t.2 !! k) as [[raw|]|] eqn:Hk.
  - destruct Hh as (m & etag & logs & files & Hat). pose proof Hat as [Hio _ _ _ _ _ _].
    destruct (answers_io prefix epoch session Hep K U _ _ _ _ _ _ (on_disk (resolve_value raw)) raw s Hio)
      as (io & Hr & Hio' & _).
    { apply answers_resolve. unfold stands_for.
      destruct (Hu _ _ Hk) as [_ Hraw]. by rewrite (wl_plain prefix K U) by by apply Hraw. }
    step (on_store_eq _ _ _ x _ Hr). exists (set_io io s, x). split; [done|].
    apply tx_sim_io; [done|]. by eapply holds_io.
  - by exists (s, x).
  - destruct (lookup_holds prefix epoch session Hep K U room (map t.1) k s Hh) as (io & Hg & Hh').
    exists (set_io io s, x). split; [|by apply tx_sim_io].
    apply retry_ok. pure_step. exact (on_store_eq _ _ _ x _ Hg).
Qed.

Lemma ot_has_sim room buf k w t :
  tx_sim room buf w t →
  ∃ w', ot_has prefix epoch k w = (Ok (bool_decide (is_Some (tx_map t !! k))), w') ∧
    tx_sim room buf w' t.
Proof using Type*.
  intros Hsim. destruct (ot_get_sim _ _ k _ _ Hsim) as (w' & Hg & Hsim'). exists w'.
  split; [|done]. unfold ot_has. by step Hg.
Qed.

Lemma ot_gets_sim room buf limit dir c w t :
  tx_sim room buf w t →
  ∃ w', ot_gets_bytes prefix epoch limit dir c w = (Ok (scan_spec limit dir c (tx_map t)), w') ∧
    tx_sim room buf w' t.
Proof using Type*.
  intros Hsim. pose proof Hsim as [[Hh _ _ _] _ _ Ho _ _ Hu]. destruct w as [s x]. cbn [fst snd] in *.
  destruct (scan_holds prefix epoch session Hep K U room (map t.1) [overlay t.2] limit dir c s Hh)
    as (db & io & Hp & Hh' & Hdb).
  { constructor; [|done]. by eapply use_table_plain. }
  assert (db = tx_map t) as ->.
  { apply map_eq. intros k. rewrite Hdb. unfold tx_map. rewrite apply_overlay_lookup.
    unfold overlay_lookup. cbn [fmap list_fmap newest]. rewrite assoc_bt_iter.
    by destruct (overlay t.2 !! k). }
  exists (set_io io s, x). split; [|by apply tx_sim_io].
  apply retry_ok. pure_step. unfold snapshot_layers. cbn [fst snd]. rewrite Ho.
  exact (on_store_eq _ _ _ x _ Hp).
Qed.

Lemma ot_view_sim room buf t :
  view_sim (λ w, tx_sim room buf w t) (ot_view prefix epoch) tx_view t.
Proof using Type*.
  split.
  - intros k w Hw. destruct (ot_get_sim _ _ k _ _ Hw) as (w' & Hr & Hw').
    eexists _, w'. split; [exact Hr|]. split; [done|apply tx_get_bytes_spec].
  - intros k w Hw. destruct (ot_has_sim _ _ k _ _ Hw) as (w' & Hr & Hw').
    eexists _, w'. split; [exact Hr|]. split; [done|apply tx_has_spec].
  - intros l d c w Hw. destruct (ot_gets_sim _ _ l d c _ _ Hw) as (w' & Hr & Hw').
    eexists _, w'. split; [exact Hr|]. split; [done|apply tx_gets_bytes_spec].
Qed.

(** ** Writes *)

Lemma write_sim room buf k st ev w t :
  tx_sim room buf w t → use_row K U (k, st) →
  tx_sim room buf (ot_stage ev (ot_insert k st w)) (tx_stage ev (tx_insert k st t)).
Proof using Type*.
  intros [Hs Hb Hh Ho Hv Hst Hu] Hr. split; cbn; try done.
  - by rewrite Ho.
  - by rewrite Hst, ot_stage_in_eq.
  - intros k' st'. destruct (decide (k = k')) as [<-|Hne].
    + rewrite lookup_insert_eq. by intros [= <-].
    + rewrite lookup_insert_ne by done. apply Hu.
Qed.

(** A write that the validators accept is staged; one that they refuse is not. *)
Lemma ot_write_sim room buf k v w t :
  tx_sim room buf w t → use_row K U (k, Some v) →
  let t' := tx_stage (Event k Kind_Set (tx_map t !! k) (Some v) 0) (tx_insert k (Some v) t) in
  ∃ w', tx_sim room buf w' (match tx_verdict t k v with Ok _ => t' | Err _ => t end) ∧
    ot_set_bytes prefix epoch k v w =
      (match tx_verdict t k v with Ok _ => Ok (tx_map t !! k) | Err e => Err e end, w') ∧
    ot_put_bytes prefix epoch k v w =
      (match tx_verdict t k v with Ok _ => Ok () | Err e => Err e end, w').
Proof using Type*.
  intros Hsim Hu. pose proof Hsim as [_ _ _ _ Hv _ _]. unfold tx_verdict.
  destruct (validate_key_sim _ _ _ _ (ot_view_sim room buf t) (tx_validators t.2) k v w Hsim)
    as (a & w1 & Hval & Hsim1 & ->). cbn [fst].
  unfold ot_set_bytes, ot_put_bytes.
  rewrite <-Hv in Hval. destruct a as [[]|e].
  - destruct (ot_get_sim _ _ k _ _ Hsim1) as (w2 & Hg & Hsim2).
    eexists. split; [by apply write_sim|]. split; (pure_step; step Hval; step Hg; done).
  - exists w1. split; [done|]. split; (pure_step; by rewrite (op_bind_err _ _ _ _ _ Hval)).
Qed.

(** A delete stages a tombstone over a live key. *)
Lemma ot_delete_sim room buf k w t :
  tx_sim room buf w t → K k →
  ∃ b w' t', ot_delete prefix epoch k w = (Ok b, w') ∧ tx_delete k t = (Ok b, t') ∧ tx_sim room buf w' t' ∧
    overlay t'.2 = if b : bool then <[k := None]> (overlay t.2) else overlay t.2.
Proof using Type*.
  intros Hsim Hk. destruct (ot_get_sim _ _ k _ _ Hsim) as (w' & Hg & Hsim').
  unfold ot_delete, op_bind. rewrite Hg, tx_delete_eq.
  destruct (tx_map t !! k) as [old|].
  - eexists _, _, _. split; [reflexivity|]. split; [reflexivity|]. split; [|done]. by apply write_sim.
  - by eexists _, _, _.
Qed.

Lemma tx_step room buf call w t :
  tx_sim room buf w t → use_call K U (Gs call) →
  ∃ r w' t', run_call (H := OxKvTx_GetSet prefix epoch) call w = (r, w') ∧ run_call call t = (r, t') ∧
    tx_sim room buf w' t'.
Proof using Type*.
  intros Hsim Hu.
  destruct call as [k|k|k|k v|k v|limit dir c]; cbn [run_call get_bytes has delete set_bytes put_bytes
    gets_bytes OxKvTx_GetSet BTreeTx_GetSet].
  - destruct (ot_get_sim _ _ k _ _ Hsim) as (w' & Hg & Hsim').
    eexists _, w', t. split; [by step Hg|]. split; [|done]. by step (tx_get_bytes_spec k t).
  - destruct (ot_has_sim _ _ k _ _ Hsim) as (w' & Hg & Hsim').
    eexists _, w', t. split; [by step Hg|]. split; [|done]. by step (tx_has_spec k t).
  - destruct (ot_delete_sim _ _ k _ _ Hsim Hu) as (b & w' & t' & Hw & Ht & Hsim' & _).
    eexists _, w', t'. split; [by step Hw|]. split; [by step Ht|done].
  - destruct (ot_write_sim _ _ k v _ _ Hsim Hu) as (w' & Hsim' & Hr & _).
    unfold op_bind. rewrite Hr, tx_set_bytes_eq.
    destruct (tx_verdict t k v); by eexists _, _, _.
  - destruct (ot_write_sim _ _ k v _ _ Hsim Hu) as (w' & Hsim' & _ & Hr).
    unfold put_bytes_default, op_bind. rewrite Hr, tx_set_bytes_eq.
    destruct (tx_verdict t k v) as [[]|]; by eexists _, _, _.
  - destruct (ot_gets_sim _ _ limit dir c _ _ Hsim) as (w' & Hg & Hsim').
    eexists _, w', t. split; [by step Hg|]. split; [|done]. by step (tx_gets_bytes_spec limit dir c t).
Qed.

Lemma tx_steps room buf calls w t :
  tx_sim room buf w t → Forall (λ call, use_call K U (Gs call)) calls →
  ∃ rs w' t', run_calls (H := OxKvTx_GetSet prefix epoch) calls w = (rs, w') ∧
    run_calls calls t = (rs, t') ∧ tx_sim room buf w' t'.
Proof using Type*.
  intros Hsim Hu. revert w t Hsim. induction Hu as [|call calls Hc _ IH]; intros w t Hsim.
  { by exists [], w, t. }
  destruct (tx_step _ _ _ _ _ Hsim Hc) as (r & w1 & t1 & Hw & Ht & Hsim1).
  destruct (IH _ _ Hsim1) as (rs & w' & t' & Hws & Hts & Hsim').
  exists (r :: rs), w', t'. cbn [run_calls]. by rewrite Hw, Hws, Ht, Hts.
Qed.

(** ** Commit *)

Lemma ot_revalidate_sim room buf evs w t :
  tx_sim room buf w t →
  ∃ r w', ot_revalidate prefix epoch evs w = (r, w') ∧ revalidate evs t = (r, t) ∧ tx_sim room buf w' t.
Proof using Type*.
  revert w. induction evs as [|ev evs IH]; intros w Hsim; [by eexists (Ok ()), w|].
  cbn [ot_revalidate revalidate].
  assert (∃ r w1, (match ev_kind ev, ev_new ev with
      | Kind_Set, Some v =>
          let! vs := op_gets (λ w : world, ot_validators w.2) in
          validate_key vs (RevalidateView (ot_view prefix epoch) (ev_key ev) (ev_old ev)) (ev_key ev) v
      | _, _ => op_ret () end) w = (r, w1) ∧ tx_sim room buf w1 t ∧
    (match ev_kind ev, ev_new ev with
      | Kind_Set, Some v =>
          let! vs := op_gets (λ w, tx_validators w.2) in
          validate_key vs (RevalidateView tx_view (ev_key ev) (ev_old ev)) (ev_key ev) v
      | _, _ => op_ret () end) t = (r, t)) as (r & w1 & Hw & Hsim1 & Ht).
  { destruct (ev_kind ev), (ev_new ev) as [v|]; try by eexists (Ok ()), w.
    unfold op_bind, op_gets. rewrite (ts_validators _ _ _ _ Hsim).
    apply validate_key_sim; [|done]. apply revalidate_view_sim, ot_view_sim. }
  destruct r as [[]|e].
  - destruct (IH _ Hsim1) as (r & w' & Hw' & Ht' & Hsim'). exists r, w'. step Hw. by step Ht.
  - exists (Err e), w1. by rewrite (op_bind_err _ _ _ _ _ Hw), (op_bind_err _ _ _ _ _ Ht).
Qed.

Lemma ox_publish_sound room V evs s (b : BTreeStore) :
  sound room V s → ox_hooks s = hooks b →
  ∃ s', ox_publish evs s = (Ok (), s') ∧ sound room V s' ∧ ox_hooks s' = hooks (publish evs b) ∧
    ox_wal_buffer s' = ox_wal_buffer s ∧ disk s' = disk s.
Proof using Type*.
  revert s b. induction evs as [|ev evs IH]; intros s b Hs Hh; [by exists s|].
  cbn [ox_publish]. unfold ox_notify at 1. pure_step.
  destruct (IH (set_hooks (hooks_notify ev (ox_hooks s)).2 s) (btree_notify ev b)) as (s' & Hp & Hs' & Hh' & Hb').
  { by apply sound_notify. }
  { cbn. unfold btree_notify. rewrite Hh. by destruct (hooks_notify ev (hooks b)). }
  by exists s'.
Qed.

(** The changes of an overlay, logged and applied. *)
Lemma overlay_sound room V o s `{!Allowed epoch (apply_overlay o V)} :
  sound (room + 16) V s → use_table K U o →
  ∃ payload s1 s', encode_ops (bt_iter o) = Ok payload ∧
    drain_staged_locked prefix epoch session s = (Ok (), s1) ∧
    append_wal_locked prefix epoch session payload (bt_iter o) s1 = (Ok (), s') ∧
    sound room (apply_overlay o V) s' ∧ ox_hooks s' = ox_hooks s ∧ ox_wal_buffer s' = [].
Proof using Type*.
  intros Hs Hu%use_table_rows. pose proof Hs as [Hh _ _ _].
  unfold encode_ops. rewrite encode_ops_from_ok by by apply (use_ops_ok prefix K U).
  replace (room + 16)%N with (room + 12 + 4)%N in Hh by lia.
  destruct (drain_holds prefix epoch session Hep K U (room + 12) V s Hh) as (s1 & Hd & Hh1 & Hb1 & Hc1).
  destruct Hh1 as (m & etag & logs & files & [Hio Hmem Hbuf Hlive Hlogged Hwr Hsr]).
  destruct (append_holds prefix epoch session Hep K U room (apply_overlay o V) (bt_iter o) (bt_iter o)
    s1 m etag logs files) as (s' & Happ & Hh2 & Hr); try done; try lia.
  { by apply (view_apply (bt_iter o)). }
  { rewrite Hb1, app_nil_r in *. rewrite apply_rows_app. by apply (view_apply (bt_iter o)). }
  apply rest_calls in Hr as [Hc2 Hb2].
  eexists _, s1, s'. split_and!; [done|done|exact Happ| | |].
  - eapply (sound_calls prefix epoch session Hep K U); [exact Hs|exact Hh2|by etrans|lia].
  - unfold calls in *. congruence.
  - congruence.
Qed.

Lemma staged_empty (t : BTreeTx) : staged_wf t → overlay t = ∅ → staged t = [].
Proof using Type.
  intros [_ Ho _] He. destruct (staged t) as [|ev l]; [done|].
  assert (overlay t !! ev_key ev = Some (ev_new ev)) as Hk by (apply Ho; exists ev; by split; [left|]).
  by rewrite He, lookup_empty in Hk.
Qed.

Lemma commit_sim room buf w t `{!Allowed epoch (apply_overlay (overlay t.2) (map t.1))} :
  tx_sim (room + 16) buf w t → staged_wf t.2 →
  ∃ r w' t' buf', ot_commit prefix epoch session w = (r, w') ∧ tx_commit t = (r, t') ∧
    tx_sim room buf' w' t' ∧ (buf' = buf ∨ buf' = []).
Proof using Type*.
  intros Hsim Hok. unfold ot_commit, tx_commit. pure_step. rewrite (ts_staged _ _ _ _ Hsim).
  destruct (ot_revalidate_sim _ _ (staged t.2) _ _ Hsim) as (r & [s x] & Hw & Ht & Hsim1).
  pose proof Hsim1 as [Hs Hb Hh Ho Hv Hst Hu]. cbn [fst snd] in *.
  destruct r as [[]|e].
  2: { exists (Err e), (s, x), t, buf. rewrite (op_bind_err _ _ _ _ _ Hw).
       unfold op_bind at 1. unfold op_gets at 1. rewrite (op_bind_err _ _ _ _ _ Ht).
       split_and!; [done..| |by left]. split; try done. cbn. eapply sound_less; [done..|exact Hs|lia]. }
  step Hw. pure_step. pure_step. cbn [fst snd]. rewrite Ho. case_bool_decide as Hempty.
  - exists (Ok ()), (ot_take_overlay (s, x)). eexists _, buf. split; [done|].
    unfold op_bind at 1. unfold op_gets at 1. step Ht. split; [reflexivity|]. split; [|by left].
    rewrite Hempty, (staged_empty _ Hok Hempty). cbn. split; cbn; try done.
    rewrite apply_overlay_empty. eapply sound_less; [done..|exact Hs|lia].
  - destruct (overlay_sound room (map t.1) (overlay t.2) s Hs Hu)
      as (payload & s1 & s2 & Henc & Hd & Ha & Hs2 & Hh2 & Hb2).
    destruct (ox_publish_sound room (apply_overlay (overlay t.2) (map t.1)) (staged t.2) s2
      (with_map (apply_overlay (overlay t.2)) t.1) Hs2) as (s' & Hp & Hs' & Hh' & Hb').
    { by rewrite Hh2, Hh. }
    rewrite Henc. pure_step. unfold ot_take_overlay. cbn [fst snd].
    step (on_store_eq _ _ _ (MkOxTx (ot_validators x) (ot_staged x) ∅) _ Hd).
    step (on_store_eq _ _ _ (MkOxTx (ot_validators x) (ot_staged x) ∅) _ Ha).
    eexists _, _, _, []. split; [exact (on_store_eq _ _ _ _ _ Hp)|].
    unfold op_bind at 1. unfold op_gets at 1. step Ht. split; [reflexivity|]. split; [|by right].
    split; cbn; try done.
    + by destruct (publish_spec (staged t.2) (with_map (apply_overlay (overlay t.2)) t.1)) as (-> & _).
    + by destruct Hb' as [-> _].
Qed.

End tx.

Section refines.
Context {W C : Type} `{ClockLaws W} `{!Unguarded W} `{JsonLaws Manifest} `{JsonLaws SstFooter}
  `{JsonLaws OwnershipRecord} `{Digests} `{JsonLaws BlobPointer}
  `{!Cache C string SstFile, !CacheLaws C string SstFile} `{Ch : Channel}.
Context (prefix : ObjectPath) (epoch : N) (session : string) (Hep : (epoch < U64)%N).
Context (K : string → Prop) (U : bytes → Prop) `{!Workload prefix K U}.
Context `{!StorePaths W prefix}.
Abbreviation writer := (OxKvStore W C).
Abbreviation sound := (sound prefix epoch session K U).

(** C11: A transaction of the store is the in-memory transaction.  On a sound
    store that stands for the map [V], any calls get the replies that a
    [BTreeTx] over [V] gives, scans over the overlay, the table and the files
    included, and until the commit the store and its storage stand for [V].
    The commit succeeds or is refused as the in-memory one, leaves the store
    sound for the in-memory store's map, and publishes the same events; the
    next session recovers all of it, or none. *)
Theorem ox_tx_refines (calls : list GsCall) (room : N) (V : gmap string bytes) (s : writer) :
  sound (room + 16) V s → Forall (λ call, use_call K U (Gs call)) calls →
  let '(rs, t) := run_calls calls (btree_begin_tx (twin V s)) in
  let '(r, t') := tx_commit t in
  ∃ w w', run_calls (H := OxKvTx_GetSet prefix epoch) calls (ox_begin_tx s) = (rs, w) ∧
    sound (room + 16) V w.1 ∧
    ot_commit prefix epoch session w = (r, w') ∧
    sound room (map t'.1) w'.1 ∧ ox_hooks w'.1 = hooks t'.1 ∧
    (ox_wal_buffer s = [] →
      recoverable prefix K U (room + 16) epoch V (disk w.1) ∧
      recoverable prefix K U room epoch (map t'.1) (disk w'.1)).
Proof using Type*.
  intros Hs Hu.
  destruct (tx_steps prefix epoch session Hep K U _ _ _ _ _ (begin_sim prefix epoch session Hep K U _ _ _ Hs) Hu) as (rs & w & t & Hw & Ht & Hsim).
  pose proof (staged_ok_calls calls (btree_begin_tx (twin V s)) (staged_ok_begin (twin V s))) as Hok.
  pose proof (tx_calls_spec calls (btree_begin_tx (twin V s))) as Hc.
  rewrite Ht in *. destruct (spec_calls _ _ _) as [[? ?] ?]. destruct Hc as (_ & _ & Hfst & _).
  cbn [fst snd] in *. change (map (btree_begin_tx (twin V s)).1) with V in Hok.
  assert (map t.1 = V) as HV by by rewrite Hfst. rewrite <-HV in Hok.
  destruct (commit_sim prefix epoch session Hep K U _ _ _ _ Hsim (so_wf _ _ Hok)) as (r & w' & t' & buf & Hcw & Hct & Hsim' & Hbuf).
  rewrite Hct. exists w, w'. pose proof Hsim as [Hs1 Hb1 _ _ _ _ _]. rewrite HV in Hs1.
  pose proof Hsim' as [Hs2 Hb2 Hh2 _ _ _ _]. do 5 (split; [done|]).
  intros Hb. rewrite Hb in *. split; eapply sound_recoverable; try done.
  by destruct Hbuf as [->| ->].
Qed.
End refines.

Section witness.
Import Concrete.

Definition tx_of_calls : list GsCall :=
  [CSet "a" (as_bytes "1"); CGet "a"; CPut "b" (as_bytes "22"); CDelete "a"; CGets None Prev (Some "z", None)].

Lemma ox_tx_refines_witness :
  match build_with_cache (C := LruCache string SstFile) "p" "w" true false empty_lru mem_new with
  | (Ok (epoch, s), _) =>
      ∃ w w', run_calls (H := OxKvTx_GetSet "p" epoch) tx_of_calls (ox_begin_tx s) =
        ([Ok (RBytes None); Ok (RBytes (Some (as_bytes "1"))); Ok RUnit; Ok (RBool true);
          Ok (REntries [KV "b" (as_bytes "22")])], w) ∧
        ot_commit "p" epoch "w" w = (Ok (), w')
  | _ => False
  end.
Proof.
  destruct (fresh_store 16 false) as (s & w' & -> & Hs & _ & Hh & _); [reflexivity|].
  pose proof (ox_tx_refines "p" 1 "w" eq_refl two_keys two_values tx_of_calls 0 ∅ s Hs) as Hr.
  unfold twin in Hr. rewrite Hh in Hr.
  assert ((run_calls tx_of_calls (btree_begin_tx (MkBTree bounded_channel ∅ hooks_default []))).1 =
    [Ok (RBytes None); Ok (RBytes (Some (as_bytes "1"))); Ok RUnit; Ok (RBool true);
          Ok (REntries [KV "b" (as_bytes "22")])]) as Hrs by (vm_compute; reflexivity).
  assert ((tx_commit (run_calls tx_of_calls
    (btree_begin_tx (MkBTree bounded_channel ∅ hooks_default []))).2).1 = Ok ()) as Hc
    by (vm_compute; reflexivity).
  destruct (run_calls tx_of_calls _) as [rs t]. cbn [fst snd] in Hrs, Hc. subst rs.
  destruct (tx_commit t) as [r t']. cbn [fst] in Hc. subst r.
  destruct Hr as (w & w1 & Hw & _ & Hcw & _).
  - use_calls two_row.
  - exists w, w1. split; [exact Hw|exact Hcw].
Defined.
End witness.
