(* ===== verification/Traced.v ===== *)
(** A storage that remembers every state it has been in.

    A process can stop between any two of its requests, and what it leaves is
    the storage as it was then.  [Traced W] is the storage [W] with the worlds
    that the successful writes and deletions produced, oldest first; a refused
    request changes nothing and reads change nothing.  Its contract is that of
    [W], under the guard [safe]: a client that keeps the guard has left objects
    that satisfy it after every request since [base]. *)

From stdpp Require Import options.
From S2P Require Import Prelude Core Storage Json Ownership Manifest Blob LsmPaths.

Record Traced (W : Type) := MkTraced { tr_world : W; tr_disks : list W }.
Arguments MkTraced {W} _ _.
Arguments tr_world {W} _.
Arguments tr_disks {W} _.

Section traced.
Context {W : Type} `{StorageBackend W}.

(** A request that changes nothing. *)
Definition looked {A} (op : Op W A) : Op (Traced W) A := λ t,
  let '(r, w) := op (tr_world t) in (r, MkTraced w (tr_disks t)).

(** A request that changes the objects when it succeeds. *)
Definition recorded {A} (op : Op W A) : Op (Traced W) A := λ t,
  let '(r, w) := op (tr_world t) in
  (r, MkTraced w (match r with Ok _ => tr_disks t ++ [w] | Err _ => tr_disks t end)).

#[export] Instance traced_backend : StorageBackend (Traced W) := {|
  st_get p := looked (st_get p);
  st_get_opts p opts := looked (st_get_opts p opts);
  st_put_opts p b mode := recorded (st_put_opts p b mode);
  st_delete p := recorded (st_delete p);
  st_list prefix := looked (st_list prefix);
|}.

#[export] Instance traced_clock `{Clock W} : Clock (Traced W) := {| now_millis := looked now_millis |}.

(** Stopped when [n] requests in all have gone through, [t'] being reached from
    [t]. *)
Definition stop_at (n : nat) (t t' : Traced W) : W :=
  match (n - length (tr_disks t))%nat with
  | O => tr_world t
  | S i => default (tr_world t') (tr_disks t' !! (length (tr_disks t) + i)%nat)
  end.
End traced.

Section laws.
Context {W : Type} `{StorageLaws W} `{!Unguarded W}.
Abbreviation objects := (gmap string (bytes * string)).
Context (safe : objects → Prop) (base : list W).

(** The worlds recorded since [base]. *)
Definition traces (t : Traced W) : Prop :=
  st_wf (tr_world t) ∧ ∃ new, tr_disks t = base ++ new ∧ Forall (λ w, st_wf w ∧ safe (st_objects w)) new.

Lemma traces_world w t : traces t → st_wf w → traces (MkTraced w (tr_disks t)).
Proof using Type. by intros [_ Hd] Hw. Qed.

Lemma traces_record w t : traces t → st_wf w → safe (st_objects w) → traces (MkTraced w (tr_disks t ++ [w])).
Proof using Type.
  intros [_ (new & Hd & Hall)] Hw Hs. split; [done|]. exists (new ++ [w]). cbn. rewrite Hd, app_assoc.
  split; [done|]. apply Forall_app. by repeat constructor.
Qed.

Program Definition traced_laws : StorageLaws (Traced W) := {|
  st_objects t := st_objects (tr_world t);
  st_wf := traces;
  st_path := st_path W;
  st_safe := safe;
|}.
Next Obligation. intros p t [Hwf _]. by apply st_known. Qed.
Next Obligation.
  intros p t Ht Hp. destruct (st_get_law p (tr_world t) (proj1 Ht) Hp) as (r & w & Hg & Ho & Hwf & Hr).
  exists r, (MkTraced w (tr_disks t)). cbn. unfold looked. rewrite Hg. split_and!; try done. by apply traces_world.
Qed.
Next Obligation.
  intros p opts t Ht Hp. destruct (st_get_opts_law p opts (tr_world t) (proj1 Ht) Hp) as (r & w & Hg & Ho & Hwf & Hr).
  exists r, (MkTraced w (tr_disks t)). cbn. unfold looked. rewrite Hg. split_and!; try done. by apply traces_world.
Qed.
Next Obligation.
  intros p b mode t Ht Hp Hsafe.
  destruct (st_put_law p b mode (tr_world t) (proj1 Ht) Hp (λ _ _ _, unguarded _)) as (r & w & Hput & Hwf & Hr).
  eexists r, _. split; [cbn; unfold recorded; by rewrite Hput|]. destruct r as [out|e]; (split; [|exact Hr]).
  - destruct Hr as (tag & Htag & Ho & Hm). apply traces_record; [done..|]. rewrite Ho. apply Hsafe.
    + intros ->. by apply (st_put_tag_law _ _ _ _ _ _ (proj1 Ht) Hp Hput).
    + intros ->. exact Hm.
  - by apply traces_world.
Qed.
Next Obligation.
  intros p b mode t out t' Ht Hp. cbn. unfold recorded.
  destruct (st_put_opts p b mode (tr_world t)) as [r w] eqn:Hput. intros [= -> _].
  by apply (st_put_tag_law _ _ _ _ _ _ (proj1 Ht) Hp Hput).
Qed.
Next Obligation.
  intros p b t t1 out Ht Hp. cbn. unfold looked, recorded.
  destruct (st_get p (tr_world t)) as [r w] eqn:Hg. intros [= -> <-].
  destruct (st_update_law p b _ _ _ (proj1 Ht) Hp Hg) as (r & w' & Hput). cbn. rewrite Hput. by eexists _, _.
Qed.
Next Obligation.
  intros p t Ht Hp Hsafe. destruct (st_delete_law p (tr_world t) (proj1 Ht) Hp (unguarded _)) as (w & Hd & Hwf & Ho).
  eexists. split; [cbn; unfold recorded; by rewrite Hd|]. split; [|done]. apply traces_record; [done..|].
  by rewrite Ho.
Qed.
Next Obligation.
  intros prefix t Ht Hp. destruct (st_list_law prefix (tr_world t) (proj1 Ht) Hp) as (l & w & Hl & Hwf & Ho & Hrest).
  exists l, (MkTraced w (tr_disks t)). cbn. unfold looked. rewrite Hl. split; [done|].
  split; [by apply traces_world|]. by split.
Qed.

Definition traced_clock_laws `{!Clock W, !ClockLaws W} : @ClockLaws (Traced W) _ traced_laws _.
Proof using Type.
  split. intros t Ht. destruct (now_millis_law (tr_world t) (proj1 Ht)) as (n & w & Hn & Ho & Hwf).
  exists n, (MkTraced w (tr_disks t)). cbn. unfold looked. rewrite Hn. split_and!; try done. by apply traces_world.
Qed.

Definition traced_paths `{Digests} prefix `{!StorePaths W prefix} : @StorePaths (Traced W) _ traced_laws _ prefix.
Proof using Type.
  destruct StorePaths0 as [Ho Hm Hw Hs Hb].
  split; [exact Ho|exact Hm|exact Hw|exact Hs|exact Hb].
Qed.
End laws.
