(* ===== verification/LsmCrash.v ===== *)
(** A process that stops anywhere: between any two requests of an owner, in the
    middle of a takeover, a write, a commit, a flush or a compaction, the
    objects stand for the map before the job in progress or for the map after
    it, so that every acknowledged job is there for the next session and the
    one in progress is there in full or not at all. *)

From stdpp Require Import options.
From S2P Require Import Prelude OrdMap Core Codec Hooks Snapshot Storage Json Ownership Manifest.
From S2P Require Import Blob Probe Wal Merge Sst SstSpec Cache Read ReadSpec LsmStore LsmPaths.
From S2P Require Import BTree BTreeSpec LsmSpec LsmInv LsmDurable LsmCompact LsmLife LsmRecover.
From S2P Require Import LsmTx LsmSessions LsmTxSpec Traced.

(** ** Jobs *)

(** What a client waits for: a call, or a transaction from its start to the
    commit. *)
Inductive Job :=
| Do (call : LsmCall)
| Transact (calls : list GsCall).

Inductive JobReply :=
| Did (r : Result GsReply)
| Transacted (rs : list (Result GsReply)) (r : Result ()).

(** The job on one map. *)
Definition job_spec (job : Job) (V : gmap string bytes) : JobReply * gmap string bytes :=
  match job with
  | Do call => let '(r, V', _) := lsm_call (accepts []) call V in (Did r, V')
  | Transact calls => let '(rs, V', _) := spec_calls (accepts []) calls V in (Transacted rs (Ok ()), V')
  end.

Fixpoint spec_jobs (jobs : list Job) (V : gmap string bytes) : list JobReply * gmap string bytes :=
  match jobs with
  | [] => ([], V)
  | job :: jobs =>
      let '(r, V1) := job_spec job V in
      let '(rs, V2) := spec_jobs jobs V1 in (r :: rs, V2)
  end.

Section jobs.
Context {W C : Type} `{ClockLaws W} `{JsonLaws Manifest} `{JsonLaws SstFooter}
  `{JsonLaws OwnershipRecord} `{Digests} `{JsonLaws BlobPointer}
  `{!Cache C string SstFile, !CacheLaws C string SstFile} `{Ch : Channel}.
Context (prefix : ObjectPath) (epoch : N) (session : string) (Hep : (epoch < U64)%N).
Context (K : string → Prop) (U : bytes → Prop) `{!Workload prefix K U}.
Context `{!StorePaths W prefix} `{Pr : Promises, !Keeps W prefix K U}.
Abbreviation writer := (OxKvStore W C).
Abbreviation sound := (sound prefix epoch session K U).

Definition run_job (job : Job) (s : writer) : JobReply * writer :=
  match job with
  | Do call => let '(r, s') := run_lsm prefix epoch session call s in (Did r, s')
  | Transact calls =>
      let '(rs, w) := run_calls (H := OxKvTx_GetSet prefix epoch) calls (ox_begin_tx s) in
      let '(r, w') := ot_commit prefix epoch session w in (Transacted rs r, w'.1)
  end.

(** What a job may write; the staging alone promises nothing. *)
Definition use_job (job : Job) : Prop :=
  match job with
  | Do call => use_call K U call ∧ drained_after true call = true
  | Transact calls => Forall (λ call, use_call K U (Gs call)) calls
  end.

(** Between two jobs. *)
Record idle (room : N) (V : gmap string bytes) (s : writer) : Prop := {
  id_sound : sound room V s;
  id_buffer : ox_wal_buffer s = [];
  id_validators : validators (ox_hooks s) = [];
}.

Lemma durable_allowed call V :
  drained_after true call = true → promised epoch (lsm_call (accepts []) call V).1.2 →
  call_allowed epoch call V.
Proof using Type. by destruct call as [[]| | | | | |]. Qed.

Lemma job_step room job V s :
  idle (room + 16) V s → use_job job → promised epoch (job_spec job V).2 →
  ∃ s', run_job job s = ((job_spec job V).1, s') ∧ idle room (job_spec job V).2 s'.
Proof using Type*.
  intros [Hs Hb Hv] Hu Hpr. destruct job as [call|calls]; cbn [run_job job_spec use_job] in *.
  - destruct Hu as [Hu Hd]. pose proof (call_step prefix K U epoch session Hep room call V s Hs Hu) as Hstep.
    rewrite Hv in Hstep. pose proof (durable_allowed call V Hd) as Hal.
    destruct (lsm_call (accepts []) call V) as [[r V'] evs]. cbn [fst snd] in *.
    destruct (Hstep (Hal Hpr)) as (s' & -> & [Hs' Hv' _ Hd']).
    exists s'. split; [done|]. split; [done|by apply (Hd' true)|congruence].
  - pose proof (begin_sim prefix epoch session Hep K U _ _ _ Hs) as Hsim.
    destruct (tx_steps prefix epoch session Hep K U _ _ _ _ _ Hsim Hu) as (rs & w & t & -> & Ht & Hsim').
    pose proof (staged_ok_calls calls (btree_begin_tx (twin V s)) (staged_ok_begin (twin V s))) as Hok.
    pose proof (tx_calls_spec calls (btree_begin_tx (twin V s))) as Hc.
    assert (tx_map (btree_begin_tx (twin V s)) = V) as HV by apply apply_overlay_empty.
    rewrite Ht, HV in *. cbn [btree_begin_tx tx_validators fst snd twin hooks] in *.
    rewrite Hv in *. destruct (spec_calls _ calls V) as [[rs' V'] evs]. cbn [fst snd] in *.
    destruct Hc as (<- & Hmap & Hfst & Hval).
    pose proof (tx_commit_eq t (so_wf _ _ Hok)) as Heq.
    assert (Allowed epoch (apply_overlay (overlay t.2) (map t.1))) as Hal by by rewrite <-Hmap in Hpr.
    destruct (commit_sim prefix epoch session Hep K U room _ w t Hsim' (so_wf _ _ Hok))
      as (r & w' & t' & buf & -> & Hct & Hsim'' & Hbuf).
    rewrite Hct in Heq. destruct r as [[]|e].
    + destruct Heq as (_ & Hm & _ & Hval'). exists w'.1. split; [done|].
      destruct Hsim'' as [Hs' Hb' Hh' _ _ _ _]. split.
      * by rewrite <-Hmap, <-Hm.
      * rewrite Hb'. by destruct Hbuf as [->| ->].
      * rewrite Hh', Hval', Hfst. exact Hv.
    + destruct Heq as [[] _]. apply Forall_forall. intros ev _. by apply recheck_no_validators.
Qed.
End jobs.

(** ** What is left of a list of jobs *)

(** From the map [V], a process that was given the jobs acknowledged some, with
    the replies, and left [V'] behind. *)
Inductive survived : gmap string bytes → list Job → list JobReply → gmap string bytes → Prop :=
| stopped_before V jobs : survived V jobs [] V
| stopped_after V job jobs : survived V (job :: jobs) [] (job_spec job V).2
| acknowledged V job jobs rs V' :
    survived (job_spec job V).2 jobs rs V' → survived V (job :: jobs) ((job_spec job V).1 :: rs) V'.

(** One process after the other. *)
Inductive outlived : gmap string bytes → list (list Job) → list (list JobReply) → gmap string bytes → Prop :=
| outlived_nil V : outlived V [] [] V
| outlived_cons V V1 V' jobs jobss rs rss :
    survived V jobs rs V1 → outlived V1 jobss rss V' → outlived V (jobs :: jobss) (rs :: rss) V'.

Section crash.
Context {W C : Type} `{ClockLaws W} `{!Unguarded W} `{JsonLaws Manifest} `{JsonLaws SstFooter}
  `{JsonLaws OwnershipRecord} `{Digests} `{JsonLaws BlobPointer}
  `{!Cache C string SstFile, !CacheLaws C string SstFile} `{Ch : Channel}.
Context (prefix : ObjectPath) (K : string → Prop) (U : bytes → Prop) `{!Workload prefix K U}.
Context `{!StorePaths W prefix}.
Abbreviation objects := (gmap string (bytes * string)).
Abbreviation writer := (OxKvStore (Traced W) C).
Abbreviation stands := (stands prefix K U).
Abbreviation recoverable := (recoverable prefix K U).

(** ** Lives *)

(** The jobs of a process that stops when [n] of its requests have gone through:
    the replies it gave, and the storage it leaves. *)
Fixpoint run_until (epoch : N) (session : string) (n : nat) (jobs : list Job) (s : writer) : list JobReply * W :=
  match jobs with
  | [] => ([], tr_world (disk s))
  | job :: jobs =>
      let '(r, s1) := run_job prefix epoch session job s in
      if (length (tr_disks (disk s1)) <=? n)%nat then
        let '(rs, w) := run_until epoch session n jobs s1 in (r :: rs, w)
      else ([], stop_at n (disk s) (disk s1))
  end.

Record Life := MkLife {
  lf_name : string;
  lf_single_writer : bool;
  lf_cache : C;
  lf_jobs : list Job;
  lf_stop : nat;
}.

(** A process from its opening of the store to its stop, which can come before
    the opening is done. *)
Definition live (x : Life) (w : W) : list JobReply * W :=
  let t := MkTraced w [] in
  match build_with_cache prefix (lf_name x) true (lf_single_writer x) (lf_cache x) t with
  | (Ok (epoch, s), _) =>
      if (length (tr_disks (disk s)) <=? lf_stop x)%nat then
        run_until epoch (lf_name x) (lf_stop x) (lf_jobs x) s
      else ([], stop_at (lf_stop x) t (disk s))
  | (Err _, t') => ([], stop_at (lf_stop x) t t')
  end.

Fixpoint lives (xs : list Life) (w : W) : list (list JobReply) * W :=
  match xs with
  | [] => ([], w)
  | x :: xs =>
      let '(rs, w1) := live x w in
      let '(rss, w2) := lives xs w1 in (rs :: rss, w2)
  end.

(** ** Under a promise *)

(** Between two jobs, where the worlds recorded since [base] are [safe], and [Pr]
    is promised of them. *)
Definition idle_on (Pr : Promises) (safe : objects → Prop) (base : list W) (epoch : N) (session : string)
    (room : N) (V : gmap string bytes) (s : writer) : Prop :=
  idle (H0 := traced_laws safe base) (Pr := Pr) prefix epoch session K U room V s.

(** Between two jobs one promise can take over from another. *)
Lemma idle_move Pr1 safe1 base1 Pr2 safe2 base2 epoch session room V s :
  idle_on Pr1 safe1 base1 epoch session room V s → spare (Promises := Pr2) = spare (Promises := Pr1) →
  promised (Promises := Pr2) epoch V → traces safe2 base2 (disk s) →
  idle_on Pr2 safe2 base2 epoch session room V s.
Proof using Type.
  intros [[(m & etag & logs & files & [Hio Hmem Hbuf Hlive Hlogged Hwr Hsr Hk]) Hp Ha Hc] Hb Hv] Hsp Hpr Ht.
  assert (logged V logs files) as HV by (intros k; by rewrite Hlogged, Hb, app_nil_r).
  split; [|done..]. split; [|done..]. exists m, etag, logs, files.
  split; try done; [|by rewrite Hsp|by apply leave_durable].
  destruct Hio as [Hd [_ Hcur] Hown Hw Hs Hca _ Hroom]. split; try done; [|by rewrite Hsp].
  intros D HD. assert (D = V) as ->; [|done]. apply map_eq. intros k. by rewrite HD, HV.
Qed.

(** No promise, but room for [f] files. *)
Definition sparing (f : N) : Promises := {| promised _ _ := True; spare := f |}.
Definition resting (f : N) := idle_on (sparing f) (λ _, True) [].

(** The owner of an epoch leaves one of two maps. *)
Definition one_of (f epoch : N) (V V' : gmap string bytes) : Promises :=
  {| promised e D := e = epoch ∧ (D = V ∨ D = V'); spare := f |}.
Definition either (f epoch : N) (V V' : gmap string bytes) (objs : objects) : Prop :=
  stands f epoch V objs ∨ stands f epoch V' objs.

Lemma one_of_keeps f epoch V V' base :
  Keeps (Traced W) (H0 := traced_laws (either f epoch V V') base) prefix K U (H10 := one_of f epoch V V').
Proof using Type. intros e D objs [-> [->| ->]]; [by left|by right]. Qed.

Lemma traces_start safe t : st_wf (tr_world t) → traces safe (tr_disks t) t.
Proof using Type. split; [done|]. exists []. by rewrite app_nil_r. Qed.

#[local] Existing Instances traced_clock_laws traced_paths one_of_keeps.

(** What came after, without its guard. *)
Lemma traces_after safe base safe' t t' :
  traces safe base t → traces safe' (tr_disks t) t' → traces (λ _, True) base t'.
Proof using Type.
  intros [_ (new & Ht & Hall)] [Hwf (new' & Ht' & Hall')]. split; [done|]. exists (new ++ new').
  rewrite Ht', Ht, app_assoc. split; [done|].
  apply Forall_app. split; (eapply Forall_impl; [done|by intros w [? _]]).
Qed.

(** What was recorded under a guard. *)
Lemma traces_recorded safe base t : traces safe base t →
  ∃ new, tr_disks t = base ++ new ∧ Forall (λ w, st_wf w ∧ safe (st_objects w)) new.
Proof using Type. by intros [_ ?]. Qed.

Lemma idle_wf Pr safe base epoch session room V s :
  idle_on Pr safe base epoch session room V s → traces safe base (disk s).
Proof using Type.
  by intros [[(m & etag & logs & files & [[_ [Hw _] _ _ _ _] _ _ _ _ _ _]) _ _ _] _ _].
Qed.

Lemma job_crash f epoch session room job V s :
  (epoch < U64)%N → resting f epoch session (room + 16) V s → use_job K U job →
  ∃ s' new, run_job prefix epoch session job s = ((job_spec job V).1, s') ∧
    resting f epoch session room (job_spec job V).2 s' ∧
    tr_disks (disk s') = tr_disks (disk s) ++ new ∧
    Forall (λ w, recoverable f epoch V w ∨ recoverable f epoch (job_spec job V).2 w) new.
Proof using Type*.
  intros Hep Hi Hu. set (V' := (job_spec job V).2). set (base := tr_disks (disk s)).
  pose (L := traced_laws (either f epoch V V') base).
  assert (st_wf (tr_world (disk s))) as Hwf.
  { apply (idle_wf _ _ _ _ _ _ _ _ Hi). }
  assert (idle_on (one_of f epoch V V') (either f epoch V V') base epoch session (room + 16) V s) as Hi1.
  { apply (idle_move (sparing f) (λ _, True) []); [exact Hi|done|by split; [|left]|]. by apply traces_start. }
  destruct (job_step (H0 := L) prefix epoch session Hep K U (Pr := one_of f epoch V V') room job V s Hi1 Hu)
    as (s' & Hrun & Hi'); [by split; [|right]|]. fold V' in Hi', Hrun.
  destruct (traces_recorded (either f epoch V V') base (disk s')) as (new & Hnew & Hall).
  { by apply idle_wf in Hi'. }
  exists s', new. split; [exact Hrun|]. split; [|split; [exact Hnew|]].
  - apply (idle_move (one_of f epoch V V') (either f epoch V V') base); [exact Hi'|done..|].
    eapply traces_after; [by apply idle_wf in Hi|by apply idle_wf in Hi'].
  - eapply Forall_impl; [exact Hall|]. intros w [Hw [Hst|Hst]]; [left|right]; by apply recoverable_stands.
Qed.

(** A stop among the requests of a step. *)
Lemma stop_at_ok (P : W → Prop) n t t' new :
  tr_disks t' = tr_disks t ++ new → (n < length (tr_disks t'))%nat → P (tr_world t) → Forall P new →
  P (stop_at n t t').
Proof using Type.
  intros Hd Hn Ht Hnew. unfold stop_at. destruct (n - length (tr_disks t)) as [|i] eqn:Hi; [done|].
  rewrite Hd in *. rewrite length_app in Hn. rewrite lookup_app_r by lia.
  replace (length (tr_disks t) + i - length (tr_disks t)) with i by lia.
  destruct (lookup_lt_is_Some_2 new i) as [w Hw]; [lia|]. rewrite Hw.
  rewrite Forall_forall in Hnew. by eapply Hnew, list_elem_of_lookup_2.
Qed.

Lemma resting_recoverable f epoch session room V s :
  resting f epoch session room V s → recoverable f epoch V (tr_world (disk s)).
Proof using Type*.
  intros Hi. pose proof Hi as [Hs Hb _]. apply recoverable_stands. split; [apply (idle_wf _ _ _ _ _ _ _ _ Hi)|].
  eapply stands_less.
  - apply (sound_stands (H0 := traced_laws (λ _, True) []) prefix K U (Pr := sparing f) epoch session room V s Hs Hb).
  - cbn. lia.
Qed.

Lemma recoverable_less f f' epoch V w : recoverable f epoch V w → (f' ≤ f)%N → recoverable f' epoch V w.
Proof using Type.
  intros [Hwf Hst]%recoverable_stands Hle. apply recoverable_stands. split; [done|]. by eapply stands_less.
Qed.

Lemma until_ok f epoch session n jobs V s :
  (epoch < U64)%N → resting f epoch session (16 * N.of_nat (length jobs)) V s → Forall (use_job K U) jobs →
  let '(rs, w) := run_until epoch session n jobs s in
  ∃ V', survived V jobs rs V' ∧ recoverable f epoch V' w.
Proof using Type*.
  intros Hep. revert V s. induction jobs as [|job jobs IH]; intros V s Hi Hu; cbn [run_until].
  { exists V. split; [constructor|]. by eapply resting_recoverable. }
  apply Forall_cons in Hu as [Hu Hus].
  replace (16 * N.of_nat (length (job :: jobs)))%N with (16 * N.of_nat (length jobs) + 16)%N in Hi
    by (cbn [length]; lia).
  destruct (job_crash f epoch session _ job V s Hep Hi Hu) as (s1 & new & -> & Hi1 & Hd & Hnew).
  destruct (_ <=? _)%nat eqn:Hle.
  - specialize (IH _ s1 Hi1 Hus). destruct (run_until epoch session n jobs s1) as [rs w].
    destruct IH as (V' & Hs & Hr). exists V'. split; [by constructor|done].
  - apply Nat.leb_gt in Hle. pose proof (resting_recoverable _ _ _ _ _ _ Hi) as Hr.
    destruct (stop_at_ok (λ w, recoverable f epoch V w ∨ recoverable f epoch (job_spec job V).2 w)
      n _ _ _ Hd Hle (or_introl Hr) Hnew) as [Hw|Hw].
    + exists V. split; [constructor|done].
    + exists (job_spec job V).2. split; [constructor|done].
Qed.

(** A life that starts with an empty file cache, and whose jobs write what the
    workload allows. *)
Definition life_ok (x : Life) : Prop := cache_view (lf_cache x) = ∅ ∧ Forall (use_job K U) (lf_jobs x).

Lemma open_crash x f room epoch V w :
  recoverable (room + f) epoch V w → (epoch + 1 < U64)%N → (room < U64)%N → life_ok x →
  ∃ s t, build_with_cache prefix (lf_name x) true (lf_single_writer x) (lf_cache x) (MkTraced w []) =
      (Ok (epoch + 1, s)%N, t) ∧
    resting f (epoch + 1) (lf_name x) room V s ∧
    Forall (λ w, recoverable f (epoch + 1) V w) (tr_disks (disk s)).
Proof using Type*.
  intros Hr Hep Hroom [Hc _]. apply recoverable_stands in Hr as [Hwf Hst].
  set (Pr := one_of f (epoch + 1) V V). set (safe := either f (epoch + 1) V V).
  assert (Allowed (H := Pr) (epoch + 1) V) as Hal by by split; [|left].
  destruct (reopen_sound (H0 := traced_laws safe []) prefix K U (Pr := Pr) room epoch V (lf_name x)
    (lf_single_writer x) (lf_cache x) (MkTraced w [])) as (s & t & Hopen & Hs & Hb & Hh & _); [|done..|].
  { apply recoverable_stands. split; [by apply traces_start|exact Hst]. }
  exists s, t. split; [exact Hopen|].
  assert (idle_on Pr safe [] (epoch + 1) (lf_name x) room V s) as Hi by (split; [done|done|by rewrite Hh]).
  pose proof (idle_wf _ _ _ _ _ _ _ _ Hi) as Ht. split.
  - apply (idle_move Pr safe []); [exact Hi|done..|].
    eapply (traces_after safe [] safe (MkTraced w [])); [by apply traces_start|exact Ht].
  - destruct Ht as (_ & new & -> & Hall). eapply Forall_impl; [exact Hall|].
    intros w' [Hw' [Hs'|Hs']]; by apply recoverable_stands.
Qed.

Lemma live_ok x f epoch V w :
  recoverable (16 * N.of_nat (length (lf_jobs x)) + f) epoch V w → (epoch + 1 < U64)%N →
  (16 * N.of_nat (length (lf_jobs x)) < U64)%N → life_ok x →
  let '(rs, w') := live x w in
  ∃ V' epoch', survived V (lf_jobs x) rs V' ∧ (epoch ≤ epoch' ≤ epoch + 1)%N ∧ recoverable f epoch' V' w'.
Proof using Type*.
  intros Hr Hep Hroom Hx. unfold live.
  destruct (open_crash x f _ epoch V w Hr Hep Hroom Hx) as (s & t & -> & Hi & Hall).
  destruct (_ <=? _)%nat eqn:Hle.
  - pose proof (until_ok f (epoch + 1) (lf_name x) (lf_stop x) (lf_jobs x) V s Hep Hi (proj2 Hx)) as Hu.
    destruct (run_until _ _ _ _ s) as [rs w']. destruct Hu as (V' & Hs & Hr').
    exists V', (epoch + 1)%N. split; [done|]. split; [lia|done].
  - apply Nat.leb_gt in Hle. exists V.
    destruct (stop_at_ok (λ w, recoverable f epoch V w ∨ recoverable f (epoch + 1) V w)
      (lf_stop x) (MkTraced w []) (disk s) (tr_disks (disk s))) as [Hw|Hw]; [done|done| | | |].
    + left. eapply recoverable_less; [done|lia].
    + eapply Forall_impl; [exact Hall|by right].
    + exists epoch. split; [constructor|]. split; [lia|done].
    + exists (epoch + 1)%N. split; [constructor|]. split; [lia|done].
Qed.

(** The jobs that a list of lives was given. *)
Definition given (xs : list Life) : list Job := mjoin (lf_jobs <$> xs).

(** C1: No stop loses anything.  Any number of processes open the store one
    after the other, each with a takeover and a replay, and each stops after
    some number of requests to the storage, wherever that is: while it takes
    over, in the middle of a write, a commit, a flush, a compaction or a
    collection, or after its last job.  What every process acknowledged it
    answered as one map does, and the next process finds the map after
    exactly those jobs, or after one more, the one that was in progress,
    which is there in full or not at all; a transaction is one such job. *)
Theorem crash_safe (xs : list Life) (f epoch : N) (V : gmap string bytes) (w : W) :
  recoverable (16 * N.of_nat (length (given xs)) + f) epoch V w →
  (epoch + N.of_nat (length xs) < U64)%N → (16 * N.of_nat (length (given xs)) + f < U64)%N →
  Forall life_ok xs →
  let '(rss, w') := lives xs w in
  ∃ V' epoch', outlived V (lf_jobs <$> xs) rss V' ∧ (epoch ≤ epoch' ≤ epoch + N.of_nat (length xs))%N ∧
    recoverable f epoch' V' w'.
Proof using Type*.
  revert epoch V w. induction xs as [|x xs IH]; intros epoch V w Hr He Hroom Hx.
  { exists V, epoch. split; [constructor|]. split; [lia|]. by rewrite N.mul_0_r, N.add_0_l in Hr. }
  apply Forall_cons in Hx as [Hx Hxs]. cbn [lives fmap list_fmap length].
  change (given (x :: xs)) with (lf_jobs x ++ given xs) in *. rewrite length_app in *. cbn [length] in He.
  pose proof (live_ok x (16 * N.of_nat (length (given xs)) + f) epoch V w) as Hl.
  destruct (live x w) as [rs w1].
  destruct Hl as (V1 & epoch1 & Hs & Hep & Hr1); [|lia|lia|done|].
  { eapply recoverable_less; [exact Hr|lia]. }
  specialize (IH epoch1 V1 w1 Hr1). destruct (lives xs w1) as [rss w'].
  destruct IH as (V' & epoch' & Ho & Hep' & Hr'); [lia|lia|done|].
  exists V', epoch'. split; [by econstructor|]. split; [lia|done].
Qed.
End crash.

Section witness.
Import Concrete.

(** The first process stops after the fourth request, which uploads the log of
    its transaction, and before the one that lists it; the second one stops
    before it has taken over; the third one stops in a compaction, when the new
    file is listed and one of its four inputs is deleted. *)
Definition four_lives : list (Life (C := LruCache string SstFile)) := [
  MkLife "w1" false empty_lru
    [Do (Gs (CPut "a" (as_bytes "1"))); Transact [CPut "a" (as_bytes "22"); CPut "b" (as_bytes "22")]] 4;
  MkLife "w2" true empty_lru [Do (Gs (CDelete "a"))] 0;
  MkLife "w3" false empty_lru
    [Do (Gs (CGet "a")); Transact [CHas "b"; CPut "b" (as_bytes "22"); CDelete "a"];
     Do (FlushSst true);
     Do (Gs (CPut "b" (as_bytes "1"))); Do (FlushSst true); Do (Gs (CPut "b" (as_bytes "22"))); Do (FlushSst true);
     Do (Gs (CPut "b" (as_bytes "1"))); Do (FlushSst true); Do Compact] 20;
  MkLife "w4" false empty_lru [Do (Gs (CGets None Next (None, None)))] 9].

Lemma crash_safe_witness :
  let '(rss, w') := lives "p" four_lives mem_new in
  rss = [[Did (Ok RUnit)]; [];
    [Did (Ok (RBytes (Some (as_bytes "1")))); Transacted [Ok (RBool false); Ok RUnit; Ok (RBool true)] (Ok ());
     Did (Ok RUnit); Did (Ok RUnit); Did (Ok RUnit); Did (Ok RUnit); Did (Ok RUnit); Did (Ok RUnit);
     Did (Ok RUnit)];
    [Did (Ok (REntries [KV "b" (as_bytes "1")]))]] ∧
  ∃ V' epoch', outlived ∅ (lf_jobs <$> four_lives) rss V' ∧ (epoch' ≤ 4)%N ∧
    recoverable "p" two_keys two_values 0 epoch' V' w'.
Proof.
  assert (recoverable "p" two_keys two_values 224 0 ∅ mem_new) as Hr.
  { apply empty_recoverable; [exact _|exact _|exact I|reflexivity|reflexivity]. }
  pose proof (crash_safe "p" two_keys two_values four_lives 0 0 ∅ mem_new Hr eq_refl eq_refl) as Hs.
  assert ((lives "p" four_lives mem_new).1 = [[Did (Ok RUnit)]; [];
    [Did (Ok (RBytes (Some (as_bytes "1")))); Transacted [Ok (RBool false); Ok RUnit; Ok (RBool true)] (Ok ());
     Did (Ok RUnit); Did (Ok RUnit); Did (Ok RUnit); Did (Ok RUnit); Did (Ok RUnit); Did (Ok RUnit);
     Did (Ok RUnit)];
    [Did (Ok (REntries [KV "b" (as_bytes "1")]))]]) as Hrss by (vm_compute; reflexivity).
  destruct (lives "p" four_lives mem_new) as [rss w']. split; [exact Hrss|].
  destruct Hs as (V' & epoch' & Ho & [_ He] & Hrec); [|by exists V', epoch'].
  repeat apply Forall_cons_2; try apply Forall_nil_2; (split; [reflexivity|]);
    repeat apply Forall_cons_2; try apply Forall_nil_2; cbn [use_job];
    try (split; [|reflexivity]); use_calls two_row.
Defined.
End witness.
