(* ===== verification/Late.v ===== *)
(** A writer that is superseded in the middle of an append.  The append checks
    the ownership between the upload of its log and the listing of it; the
    takeover does not touch the manifest, and a listing that lost a race tries
    again without a second check. *)

From stdpp Require Import options.
From S2P Require Import Prelude OrdMap Core Codec Hooks Snapshot Storage Json Ownership Manifest.
From S2P Require Import Blob Probe Wal Merge Sst SstSpec Cache Read ReadSpec LsmStore LsmPaths.
From S2P Require Import LsmSpec LsmInv LsmDurable LsmCompact LsmLife LsmRecover LsmSessions.

Section late.
Context {W C : Type} `{ClockLaws W} `{!Unguarded W} `{JsonLaws Manifest} `{JsonLaws SstFooter}
  `{JsonLaws OwnershipRecord} `{Digests} `{JsonLaws BlobPointer}
  `{!Cache C string SstFile, !CacheLaws C string SstFile} `{Ch : Channel}.
Context (prefix : ObjectPath) (K : string → Prop) (U : bytes → Prop) `{!Workload prefix K U}.
Context `{!StorePaths W prefix}.
Abbreviation writer := (OxKvStore W C).
Abbreviation recoverable := (recoverable prefix K U).

(** ** The two halves of an append *)

(** Up to and with the check. *)
Definition append_begin (epoch : N) (session : string) (payload : bytes) : Op writer ObjectPath :=
  let! num := op_gets ox_wal_seq in
  op_modify (λ s, set_wal_seq (wrapping_inc (ox_wal_seq s)) s) ;;
  put_new "wal" (wal_path prefix epoch num) num payload ;;
  check_owner prefix epoch session "after wal put" ;;
  op_ret (wal_path prefix epoch num).

Lemma append_halves epoch session payload updates s :
  append_wal_locked prefix epoch session payload updates s =
    (let! path := append_begin epoch session payload in
     list_wal prefix epoch session 4 0 path updates) s.
Proof using Type.
  unfold append_wal_locked, append_begin, op_bind, op_gets, op_modify, op_ret. cbn [fst snd].
  destruct (put_new _ _ _ _ _) as [[]]; [|done]. by destruct (check_owner _ _ _ _ _) as [[]].
Qed.

(** The owner's log is there, and listed nowhere: the map is what it was. *)
Lemma begin_recoverable epoch session room V rows (s : writer) :
  (epoch < U64)%N → sound prefix epoch session K U (room + 1) V s → ox_wal_buffer s = [] →
  ∃ s', append_begin epoch session (frames rows) s = (Ok (wal_path prefix epoch (ox_wal_seq s)), s') ∧
    recoverable room epoch V (disk s') ∧ ox_mem s' = ox_mem s ∧
    ∃ tag, st_objects (disk s') !! wal_path prefix epoch (ox_wal_seq s) = Some (frames rows, tag).
Proof using Type*.
  intros Hep [(m & etag & logs & files & [Hio Hmem Hbuf Hlive Hlogged Hwr Hsr Hk]) _ _ _] Hb.
  unfold append_begin. do 2 pure_step. cbv zeta.
  set (s1 := set_wal_seq _ s).
  destruct (put_log_ok prefix epoch session K U Hep _ _ m etag logs files (frames rows) s1 Hio)
    as (io1 & tag & Hput & Hio1 & Ho1); [lia|].
  step Hput.
  destruct (owner_reads prefix epoch session K U Hep _ _ _ _ _ _ "after wal put" (set_io io1 s1) Hio1)
    as (io2 & Hown & [Hd [Hwf [Hm Hc]] (rec & t & Ho & He & _) Hw Hs _] & Ho2).
  step Hown. eexists. split; [done|]. split; [|split; [done|]].
  - eexists _, _, m, etag, logs, files. split; try done.
    + intros k. by rewrite Hlogged, Hb, app_nil_r.
    + lia.
    + unfold last_epoch, owner_on. change (disk (set_io io2 (set_io io1 s1))) with io2.1.1. rewrite Ho.
      exists rec. by rewrite from_to_vec.
  - exists tag. change (disk (set_io io2 (set_io io1 s1))) with io2.1.1. rewrite Ho2. exact Ho1.
Qed.

(** ** A listing after the takeover *)

(** The maintenance after the listing of a log has nothing to do. *)
Record calm (m : Manifest) (mem : MemMap) : Prop := {
  ca_logs : length (mf_wal m) + 1 < WAL_MAINTENANCE_COUNT;
  ca_l0 : length (at_level 0 (mf_sst m)) < 4;
  ca_l0_bytes : (sum_sizes (at_level 0 (mf_sst m)) ≤ L0_COMPACT_BYTES)%N;
  ca_l1 : length (at_level 1 (mf_sst m)) < L1_MERGE_COUNT;
  ca_mem : (mem_estimate mem < FLUSH_THRESHOLD)%N;
}.

(** A load of whatever writer, with a cache that does not lie. *)
Lemma load_anyone e0 m etag (s : writer) :
  current prefix e0 m etag (ox_io s).1 →
  ∃ io, load prefix e0 s = (Ok (m, etag), set_io io s) ∧ current prefix e0 m etag io.1 ∧
    st_objects io.1.1 = st_objects (disk s).
Proof using Type*.
  unfold disk. destruct (ox_io s) as [[w c] k] eqn:Hio. intros Hc.
  destruct (load_current prefix e0 1000 m etag w c Hc) as (s' & Hl & Ho & Hc').
  exists (s', k). unfold load, on_io, on_engine, op_zoom. rewrite Hio. cbn [fst snd]. by rewrite Hl.
Qed.

Lemma maintain_calm e0 n0 n m etag (s : writer) :
  current prefix e0 m etag (ox_io s).1 → n < WAL_MAINTENANCE_COUNT →
  length (at_level 0 (mf_sst m)) < 4 → (sum_sizes (at_level 0 (mf_sst m)) ≤ L0_COMPACT_BYTES)%N →
  length (at_level 1 (mf_sst m)) < L1_MERGE_COUNT → (mem_estimate (ox_mem s) < FLUSH_THRESHOLD)%N →
  ∃ io, maintain_after_write prefix e0 n0 n s = (Ok (), set_io io s) ∧
    st_wf io.1.1 ∧ st_objects io.1.1 = st_objects (disk s).
Proof using Type*.
  intros Hc Hn Hl0 Hb Hl1 Hmem. unfold maintain_after_write.
  assert (flush_mem_to_sst_inner prefix e0 n0 false s = (Ok None, s)) as Hf.
  { unfold flush_mem_to_sst_inner. pure_step. apply N.ltb_lt in Hmem. by rewrite Hmem, orb_true_r. }
  step (ignore_ok _ _ _ _ Hf).
  destruct (load_anyone e0 m etag s Hc) as (io & Hload & [Hwf _] & Ho).
  assert (compact_inner prefix e0 n0 s = (Ok None, set_io io s)) as Hcomp.
  { unfold compact_inner. step Hload. cbn [fst]. apply N.leb_le in Hb. by rewrite !bool_decide_eq_true_2, Hb by done. }
  step (ignore_ok _ _ _ _ Hcomp). exists io. split; [|done].
  unfold maintain_wal. by rewrite bool_decide_eq_true_2.
Qed.

(** C39: A listing does not ask who owns the prefix.  Let the storage stand for
    [V] under whatever owner, hold an uploaded log of [rows] that is not
    listed, and let a writer of any epoch and session retry the listing of
    that log, with its manifest cache cleared and nothing due for its
    maintenance.  The listing succeeds, the write is acknowledged, and the
    storage stands for [V] with [rows] on top: what the owner has acknowledged
    since for the same keys is gone, although the storage stays sound.  So
    the check between upload and listing fences every append but the one that
    has just passed it. *)
Theorem late_listing (e0 epoch room : N) (n0 : string) (V : gmap string bytes) (path : ObjectPath)
    (rows : list row) (attempts i : nat) (s : writer) :
  (epoch < U64)%N → recoverable room epoch V (disk s) → mc_entry (ox_io s).1.2 = None →
  log_ok prefix K U epoch (st_objects (disk s)) (path, rows) →
  (∀ m etag, manifest_is prefix epoch m etag (disk s) →
    (path ∉ mf_wal m) ∧ calm m (apply_rows rows (ox_mem s))) →
  ∃ s', list_wal prefix e0 n0 (S attempts) i path rows s = (Ok (), s') ∧
    recoverable room epoch (apply_live rows V) (disk s') ∧
    ∀ p, p ≠ manifest_path prefix → st_objects (disk s') !! p = st_objects (disk s) !! p.
Proof using Type*.
  intros Hep (wn & sn & m & etag & logs & files & [Hwf Hd Hm Hwal Hsst Hlog Hroom Hown]) Hnone Hok Hcalm.
  destruct (Hcalm m etag Hm) as [Hnew [Hn Hl0 Hb Hl1 Hmem]].
  destruct (manifest_reopen (W := W) prefix K U epoch e0 m etag _ _ Hm eq_refl) as (m0 & Hm0 & Hw0 & Hs0).
  assert (current prefix e0 m0 etag (ox_io s).1) as Hcur.
  { split; [exact Hwf|]. split; [exact Hm0|]. by rewrite Hnone. }
  cbn [list_wal]. destruct (load_anyone e0 m0 etag s Hcur) as ([[w1 c1] k1] & Hload & Hcur1 & Ho1).
  step Hload. rewrite bool_decide_eq_false_2 by by rewrite Hw0.
  set (m1 := bump_version m0 (mf_wal m0 ++ [path]) (mf_sst m0)). cbn [fst snd] in *.
  destruct (cas_current prefix e0 m0 etag m1 w1 c1 Hcur1) as (tag & w2 & Hcas & Hwf2 & Ho2 & Hm2);
    [intros; apply unguarded|].
  destruct (current_publish prefix e0 m1 tag w2 c1 Hwf2 Hm2) as ([w3 c3] & Hpub & Ho3 & Hcur3).
  cbn [fst snd] in *.
  assert (cas prefix m1 etag (set_io ((w1, c1), k1) s) = (Ok tag, set_io ((w2, c1), k1) s)) as Hc.
  { unfold cas. rewrite (on_io_disk _ (set_io ((w1, c1), k1) s) (Ok tag) w2); [done|exact Hcas]. }
  step Hc.
  assert (update_cache m1 tag (set_io ((w2, c1), k1) s) = (Ok (), set_io ((w3, c3), k1) s)) as Hu.
  { unfold update_cache, on_io, on_engine, op_zoom. cbn [set_io ox_io fst snd]. by rewrite Hpub. }
  step Hu. unfold apply_mem. pure_step.
  match goal with |- context [maintain_after_write _ _ _ _ ?t] => set (s4 := t) end.
  destruct (maintain_calm e0 n0 (length (mf_wal m1)) m1 tag s4) as (io & Hmt & Hwf5 & Ho5);
    [exact Hcur3|by cbn; rewrite length_app, Hw0|by cbn; rewrite Hs0..|exact Hmem|].
  exists (set_io io s4). split; [exact Hmt|]. change (disk (set_io io s4)) with io.1.1.
  change (disk s4) with w3 in Ho5.
  assert (st_objects io.1.1 = <[manifest_path prefix := (to_vec m1, tag)]> (st_objects (disk s))) as Ho
    by by rewrite Ho5, Ho3, Ho2, Ho1.
  rewrite Ho. split; [|by intros p Hp; apply lookup_insert_ne].
  eexists wn, sn, m1, tag, (logs ++ [(path, rows)]), files. split; try done.
  - rewrite Ho. apply disk_manifest; [exact _|exact Hep|].
    apply disk_list_log; [exact Hd|exact Hok|by rewrite <-Hwal].
  - unfold manifest_is, manifest_on. rewrite Ho, lookup_insert_eq.
    unfold manifest_is, manifest_on in Hm2. rewrite Ho2, lookup_insert_eq in Hm2. exact Hm2.
  - cbn. by rewrite Hw0, Hwal, fmap_app.
  - cbn. by rewrite Hs0.
  - intros k. rewrite fmap_app, join_app. cbn. rewrite app_nil_r, apply_rows_app. by apply view_apply.
  - unfold last_epoch, owner_on in *. rewrite Ho, lookup_insert_ne; [exact Hown|].
    by eapply (kinds_apart prefix ManifestKind OwnershipKind).
Qed.
End late.

Section witness.
Import Concrete.
Abbreviation store := (OxKvStore MemInner (LruCache string SstFile)).

(** The old owner, before and after the first half of its append. *)
Definition old_owner : store :=
  match build_with_cache "p" "w" true false empty_lru mem_new with
  | (Ok (_, s), _) => s
  | (Err _, w) => MkOx ((w, cache_new), empty_lru) ∅ 0 [] 0 [] hooks_default ∅ 0
  end.
Definition late_rows : list row := [("a", Some (as_bytes "1"))].
Definition late_log : ObjectPath := wal_path "p" 1 0.
Definition uploaded : store := (append_begin "p" 1 "w" (frames late_rows) old_owner).2.

(** The new owner makes calls on the storage; then the old one goes on. *)
Definition successor (calls : list LsmCall) : Session (C := LruCache string SstFile) :=
  MkSession "x" false empty_lru calls.
Definition taken_over (calls : list LsmCall) : list (Result GsReply) * MemInner :=
  run_sessions "p" [successor calls] (disk uploaded).
Definition resumed (calls : list LsmCall) : Result () * store :=
  list_wal "p" 1 "w" 4 0 late_log late_rows (set_disk (taken_over calls).2 uploaded).

(** The whole of it, from the upload on: the old owner acknowledges its write
    under the new one, and the next session reads it instead of what the new
    owner had acknowledged; if the new owner has collected the orphaned logs
    in between, the manifest lists a log that is gone, and the next session
    cannot open the store. *)
Lemma superseded_append_lands :
  (taken_over [Gs (CPut "a" (as_bytes "22")); Gs (CGet "a")]).1 = [Ok RUnit; Ok (RBytes (Some (as_bytes "22")))] ∧
  (let '(r, s) := resumed [Gs (CPut "a" (as_bytes "22")); Gs (CGet "a")] in
   r = Ok () ∧ (run_session "p" (successor [Gs (CGet "a")]) (disk s)).1 = [Ok (RBytes (Some (as_bytes "1")))]) ∧
  let '(r, s) := resumed [Gs (CPut "a" (as_bytes "22")); GcOrphans] in
  r = Ok () ∧ (run_session "p" (successor [Gs (CGet "a")]) (disk s)).1 =
    [Err (Storage "wal listed in manifest but absent from storage: p/e000001/wal/00000000.log")].
Proof. vm_compute. by repeat split. Qed.

(** The storage that the old owner finds when it goes on, its listing cleared of
    the stale manifest. *)
Definition found : store :=
  set_io (((taken_over [Gs (CPut "a" (as_bytes "22"))]).2, cache_new), empty_lru) uploaded.

Lemma found_recoverable :
  recoverable "p" two_keys two_values 0 2 (<["a" := as_bytes "22"]> ∅) (disk found) ∧ ox_mem uploaded = ∅.
Proof.
  destruct (fresh_store 17 false) as (s & w & Hopen & Hs & Hb & _); [reflexivity|].
  assert (old_owner = s) as Hold by (unfold old_owner; by rewrite Hopen).
  assert (ox_mem old_owner = ∅ ∧ ox_wal_seq old_owner = 0%N) as [Hmem Hseq] by (split; vm_compute; reflexivity).
  rewrite Hold in *.
  destruct (begin_recoverable "p" two_keys two_values 1 "w" 16 ∅ late_rows s) as (s1 & Hbegin & Hr & Hm & _);
    [reflexivity|exact Hs|exact Hb|].
  assert (uploaded = s1) as Hup by (unfold uploaded; by rewrite Hold, Hbegin).
  rewrite Hup. split; [|congruence].
  destruct (sessions_ok "p" two_keys two_values [successor [Gs (CPut "a" (as_bytes "22"))]] 0 1 ∅ (disk s1))
    as (w' & Hrun & Hr'); [exact Hr|reflexivity|reflexivity| |].
  { apply Forall_cons_2; [|apply Forall_nil_2]. split; [reflexivity|]. split; [|reflexivity]. use_calls two_row. }
  assert (disk found = w') as ->; [|exact Hr'].
  unfold found, taken_over. rewrite Hup. change (disk (set_io ?io _)) with io.1.1. cbn [fst]. by rewrite Hrun.
Qed.

Definition new_manifest : Manifest := MkManifest 1 2 ["p/e000002/wal/00000000.log"] [].

Lemma found_manifest :
  match st_objects (disk found) !! manifest_path "p" with
  | Some (b, _) => match from_slice b with inr m => bool_decide (m = new_manifest) | _ => false end
  | None => false
  end = true.
Proof. vm_compute. reflexivity. Qed.

Lemma late_listing_witness :
  ∃ s', list_wal "p" 1 "w" 3 1 late_log late_rows found = (Ok (), s') ∧
    recoverable "p" two_keys two_values 0 2 (<["a" := as_bytes "1"]> (<["a" := as_bytes "22"]> ∅)) (disk s').
Proof.
  destruct found_recoverable as [Hr Hmem].
  destruct (late_listing "p" two_keys two_values 1 2 0 "w" (<["a" := as_bytes "22"]> ∅) late_log late_rows
    2 1 found) as (s' & Hlist & Hr' & _).
  - reflexivity.
  - exact Hr.
  - reflexivity.
  - split; [|split].
    + apply Forall_cons_2; [|apply Forall_nil_2]. apply two_row; by left.
    + exists "0000000000000002". apply (bool_decide_unpack _). vm_compute. exact I.
    + exists 1%N, 0%N. split_and!; vm_compute; [discriminate|reflexivity|reflexivity].
  - intros m etag Hm. pose proof found_manifest as Hf. unfold manifest_is, manifest_on in Hm.
    destruct (st_objects (disk found) !! manifest_path "p") as [[b tag]|]; [|discriminate Hf].
    destruct Hm as (_ & _ & Hm). rewrite Hm in Hf. apply bool_decide_eq_true in Hf. subst m. split.
    + apply (bool_decide_unpack _). vm_compute. exact I.
    + split; apply (bool_decide_unpack _); vm_compute; exact I.
  - exists s'. split; [exact Hlist|exact Hr'].
Defined.
End witness.
