(* ===== verification/Reader.v ===== *)
(** The read-only view: [src/src/store/lsm/reader.rs].

    A reader keeps the storage and the two caches of its lookups, the overlay
    that it replayed from the listed logs, and the ids of those logs.  A
    read-only transaction shares the state of its reader, so it runs on it. *)

From stdpp Require Import options.
From S2P Require Import Prelude OrdMap Core Codec Hooks Snapshot Storage Json Ownership Manifest.
From S2P Require Import Blob Wal Merge Sst Cache Read.

Record OxKvReader (W C : Type) := MkReader {
  rd_epoch : N;
  rd_io : (W * ManifestCache) * C;
  rd_overlay : MemMap;
  rd_replayed : gset string;
}.
Arguments MkReader {W C} _ _ _ _.
Arguments rd_epoch {W C} _.
Arguments rd_io {W C} _.
Arguments rd_overlay {W C} _.
Arguments rd_replayed {W C} _.

Definition read_only_err : StoreError := Other "read-only store: writes are rejected".

Section reader.
Context {W C : Type} `{StorageBackend W} `{Clock W} `{Json Manifest} `{Json SstFooter}
  `{Json OwnershipRecord} `{Digests} `{Json BlobPointer} `{Cache C string SstFile}.
Context (prefix : ObjectPath).
Abbreviation reader := (OxKvReader W C).

Definition set_rd_io (io : (W * ManifestCache) * C) (r : reader) : reader :=
  MkReader (rd_epoch r) io (rd_overlay r) (rd_replayed r).
Definition set_overlay (m : MemMap) (r : reader) : reader :=
  MkReader (rd_epoch r) (rd_io r) m (rd_replayed r).
Definition set_replayed (ids : gset string) (r : reader) : reader :=
  MkReader (rd_epoch r) (rd_io r) (rd_overlay r) ids.

Definition on_lookup {A} : Op ((W * ManifestCache) * C) A → Op reader A := op_zoom rd_io set_rd_io.

(** Replay runs on the storage, the manifest cache and the overlay. *)
Definition on_replay {A} : Op ((W * ManifestCache) * MemMap) A → Op reader A :=
  op_zoom (λ r, ((rd_io r).1, rd_overlay r))
    (λ s r, set_overlay s.2 (set_rd_io (s.1, (rd_io r).2) r)).

Definition rd_load : Op reader (Manifest * string) :=
  let! epoch := op_gets rd_epoch in on_lookup (on_engine (load_manifest prefix epoch 1000)).

Definition rd_manifest_version : Op reader N :=
  let! loaded := rd_load in op_ret (mf_version loaded.1).

Definition replay_wal : Op reader () :=
  let! loaded := rd_load in
  let! epoch := op_gets rd_epoch in
  on_replay (replay_listed_wals prefix epoch (mf_wal loaded.1)) ;;
  op_modify (λ r, set_replayed (rd_replayed r ∪ list_to_set (mf_wal loaded.1)) r).

(** The loop of [ensure_replayed] over the missing logs. *)
Fixpoint replay_missing (missing : list string) : Op reader () :=
  match missing with
  | [] => op_ret ()
  | wal_id :: missing =>
      try! got := on_lookup (on_disk (st_get wal_id)) in
      match got with
      | Ok out =>
          let! replayed := op_gets rd_replayed in
          (if bool_decide (wal_id ∈ replayed) then op_ret ()
           else
             op_modify (λ r, set_replayed ({[wal_id]} ∪ rd_replayed r)
               (set_overlay (apply_rows (decode_wal_records (go_bytes out)) (rd_overlay r)) r))) ;;
          replay_missing missing
      | Err e =>
          if is_not_found e then
            op_modify (λ r, set_replayed ({[wal_id]} ∪ rd_replayed r) r) ;;
            replay_missing missing
          else op_throw (Storage ("read wal " +:+ wal_id +:+ " failed: " +:+ Core.to_string e))
      end
  end.

Definition ensure_replayed : Op reader () :=
  let! loaded := rd_load in
  match mf_wal loaded.1 with
  | [] => op_modify (λ r, set_overlay ∅ (set_replayed ∅ r))
  | ids =>
      let! replayed := op_gets rd_replayed in
      replay_missing (filter (λ id, id ∉ replayed) ids)
  end.

Definition rd_clear_cache : Op reader () := on_lookup clear_manifest_cache.

Definition rd_get_bytes (k : string) : Op reader (option bytes) :=
  retry_once_not_found rd_clear_cache
    (ensure_replayed ;;
     let! r := op_get in
     on_lookup (point_lookup prefix (rd_epoch r) (rd_overlay r !! k) k)).

Definition rd_has (k : string) : Op reader bool :=
  let! v := rd_get_bytes k in op_ret (bool_decide (is_Some v)).

Definition rd_gets_bytes (limit : option N) (dir : Direction) (c : cursor) :
    Op reader (list KeyValue) :=
  retry_once_not_found rd_clear_cache
    (ensure_replayed ;;
     let! r := op_get in
     on_lookup (range_lookup prefix (rd_epoch r) [filter_rows (rd_overlay r) dir c] limit dir c)).

(** Of the reader and of its transactions. *)
#[export] Instance OxKvReader_GetSet : GetSet reader := {|
  get_bytes := rd_get_bytes;
  has := rd_has;
  delete _ := op_throw read_only_err;
  set_bytes _ _ := op_throw read_only_err;
  put_bytes _ _ := op_throw read_only_err;
  gets_bytes := rd_gets_bytes;
|}.

#[export] Instance OxKvReader_Store : Store reader reader := {|
  begin_tx r := Ok r;
  commit := op_ret ();
  rollback := op_ret ();
  tx_store r := r;
|}.

(** [Hooks]: nothing is ever published. *)
Definition rd_current_seq (r : reader) : N := 0.
Definition rd_events_since (seq : N) (r : reader) : option (list ChangeEvent) := Some [].

#[export] Instance OxKvReader_Hooks : Hooks reader := {|
  hk_add_validator _ r := r;
  hk_add_observer _ _ r := r;
  hk_watch_scope _ r := r;
  hk_current_seq := rd_current_seq;
  hk_events_since := rd_events_since;
|}.

(** [open_with_cache]; the reader, on the storage it was given. *)
Definition rd_open (cache : C) : Op W reader := λ w,
  (let! rec := read_ownership prefix in
   λ w,
     let '(r, s) := replay_wal
       (MkReader (match rec with Some rec => or_epoch rec | None => 0%N end) ((w, cache_new), cache) ∅ ∅) in
     (res_map (λ _, s) r, (rd_io s).1.1)) w.
End reader.
