(* ===== verification/ReaderSpec.v ===== *)
(** The read-only view against the map that the storage stands for: opening and
    reading, while the listed logs extend those it replayed, answer as the map
    does and change no object. *)

From stdpp Require Import options.
From S2P Require Import Prelude OrdMap Core Codec Hooks Snapshot Storage Json Ownership Manifest.
From S2P Require Import Blob Probe Wal Merge Sst SstSpec Cache Read ReadSpec LsmStore LsmPaths.
From S2P Require Import BTree BTreeSpec LsmSpec LsmInv LsmDurable LsmCompact LsmLife LsmRecover.
From S2P Require Import LsmSessions Reader.

(** Of a list without duplicates, what is left after its first part. *)
Lemma filter_unseen (l1 l2 : list string) :
  NoDup (l1 ++ l2) → filter (λ id, id ∉ (list_to_set l1 : gset string)) (l1 ++ l2) = l2.
Proof.
  intros (_ & Hd & _)%NoDup_app. rewrite filter_app, filter_none by set_solver.
  assert (∀ x, x ∈ l2 → x ∉ (list_to_set l1 : gset string)) as Hx by set_solver.
  clear Hd. induction l2 as [|x l2 IH]; [done|]. cbn [app] in *.
  rewrite filter_cons_True by (apply Hx; by left). f_equal. apply IH. intros y Hy. apply Hx. by right.
Qed.

Section reader.
Context {W C : Type} `{ClockLaws W} `{JsonLaws Manifest} `{JsonLaws SstFooter}
  `{JsonLaws OwnershipRecord} `{Digests} `{JsonLaws BlobPointer}
  `{!Cache C string SstFile, !CacheLaws C string SstFile}.
Context (prefix : ObjectPath) (K : string → Prop) (U : bytes → Prop) `{!Workload prefix K U}.
Context `{!StorePaths W prefix, !Unguarded W}.
Abbreviation reader := (OxKvReader W C).
Abbreviation storage r := (rd_io r).1.1.

(** The storage that the reader sees stands for [V], and its caches are sound. *)
Record sees (epoch wn sn : N) (m : Manifest) (etag : string) (logs : list (string * list row))
    (files : list File) (V : gmap string bytes) (io : (W * ManifestCache) * C) (re : N) : Prop := {
  se_epoch : (epoch < U64)%N;
  se_coherent : coherent prefix io.1;
  se_skip : mc_skip_revalidation io.1.2 = false;
  se_disk : disk_ok prefix K U epoch wn sn logs files (st_objects io.1.1);
  se_manifest : stored_manifest prefix re io.1.1 = Ok (m, etag);
  se_wal : mf_wal m = logs.*1;
  se_sst : mf_sst m = f_meta <$> files;
  se_logged k : V !! k = view (apply_rows (mjoin logs.*2) ∅) files k;
  se_cached : files_cached (st_objects io.1.1) (used_id prefix epoch sn) io.2;
}.

(** The reader replayed the first of the listed logs, or none is listed. *)
Definition replayed_some (logs : list (string * list row)) (r : reader) : Prop :=
  logs = [] ∨ ∃ logs0 logs1, logs = logs0 ++ logs1 ∧
    rd_replayed r = list_to_set logs0.*1 ∧ rd_overlay r = apply_rows (mjoin logs0.*2) ∅.

Definition replayed_all (logs : list (string * list row)) (r : reader) : Prop :=
  rd_replayed r = list_to_set logs.*1 ∧ rd_overlay r = apply_rows (mjoin logs.*2) ∅.

Lemma all_some logs r : replayed_all logs r → replayed_some logs r.
Proof using Type. intros []. right. exists logs, []. by rewrite app_nil_r. Qed.

Lemma sees_read epoch wn sn m etag logs files V io io' re :
  sees epoch wn sn m etag logs files V io re →
  read_from prefix (st_objects io.1.1) (used_id prefix epoch sn) io io' →
  sees epoch wn sn m etag logs files V io' re.
Proof using Type.
  intros [Hep Hco Hsk Hd Hm Hw Hs Hl Hf] [Ho Hco' Hf' Hsk']. split; try done; rewrite ?Ho; try done.
  - congruence.
  - unfold stored_manifest in *. by rewrite Ho.
Qed.

(** ** Replay *)

Section replay.
Context (epoch wn sn : N) (m : Manifest) (etag : string) (logs : list (string * list row)).
Context (files : list File) (V : gmap string bytes).
Abbreviation seen := (sees epoch wn sn m etag logs files V).

Lemma sees_log io re l :
  seen io re → l ∈ logs → Forall op_ok l.2 ∧ ∃ tag, st_objects io.1.1 !! l.1 = Some (frames l.2, tag).
Proof using All.
  intros [_ _ _ Hd _ _ _ _ _] Hl. destruct (listed_log _ _ _ _ _ _ _ _ _ Hd l Hl) as (Hu & Ho & _).
  split; [|done]. by apply (use_ops_ok prefix K U).
Qed.

Lemma rd_load_sees (r : reader) :
  seen (rd_io r) (rd_epoch r) →
  ∃ io, rd_load prefix r = (Ok (m, etag), set_rd_io io r) ∧ seen io (rd_epoch r) ∧
    st_objects io.1.1 = st_objects (storage r).
Proof using All.
  intros Hs. pose proof Hs as [_ Hco Hsk Hd Hm Hw Hss Hl Hf].
  destruct (load_step prefix (rd_epoch r) _ _ (rd_io r) m etag eq_refl Hco Hf (or_introl Hsk) Hm)
    as (io & Hload & _ & Hr).
  exists io. unfold rd_load. pure_step. unfold on_lookup, op_zoom. rewrite Hload.
  split; [done|]. split; [by eapply sees_read|apply Hr].
Qed.

Lemma replay_missing_sees todo (r : reader) :
  seen (rd_io r) (rd_epoch r) → NoDup todo.*1 → (∀ l, l ∈ todo → l ∈ logs) →
  (∀ l, l ∈ todo → l.1 ∉ rd_replayed r) →
  ∃ io, seen io (rd_epoch r) ∧ st_objects io.1.1 = st_objects (storage r) ∧
    replay_missing todo.*1 r = (Ok (),
      MkReader (rd_epoch r) io (apply_rows (mjoin todo.*2) (rd_overlay r))
        (rd_replayed r ∪ list_to_set todo.*1)).
Proof using All.
  revert r. induction todo as [|l todo IH]; intros r Hs Hnd Hin Hnew.
  { exists (rd_io r). split; [done|]. split; [done|]. cbn. rewrite (right_id_L ∅ (∪)). by destruct r. }
  rewrite fmap_cons in Hnd. apply NoDup_cons in Hnd as [Hl Hnd].
  destruct (sees_log _ _ l Hs) as (Hok & tag & Ho); [by apply Hin; left|].
  cbn [fmap list_fmap replay_missing]. unfold op_try, on_lookup at 1, on_disk, on_engine, on_storage, op_zoom.
  destruct (st_get_law l.1 (storage r)) as (got & w1 & Hg & Ho1 & Hwf1 & Hr);
    [apply Hs|eapply st_known; [apply Hs|by eexists]|].
  rewrite Ho in Hr. destruct Hr as [v ->]. rewrite Hg. cbn [go_bytes]. pure_step.
  rewrite bool_decide_eq_false_2 by (apply Hnew; by left). pure_step.
  rewrite decode_wal_frames by done.
  match goal with |- context [replay_missing _ ?r1] => set (r' := r1) end.
  assert (seen (rd_io r') (rd_epoch r')) as Hs'.
  { eapply sees_read; [exact Hs|]. pose proof Hs as [_ Hco _ _ _ _ _ _ Hf].
    split; [done| |done|done]. apply (coherent_same prefix _ (storage r)); [|done..].
    destruct (rd_io r) as [[? ?] ?]. exact Hco. }
  destruct (IH r' Hs' Hnd) as (io & Hseen & Hobj & Hrest).
  - intros l' Hl'. apply Hin. by right.
  - intros l' Hl'. unfold r'. cbn. intros [Heq%elem_of_singleton|Hx]%elem_of_union.
    + apply Hl. rewrite <-Heq. by apply list_elem_of_fmap_2.
    + by apply (Hnew l'); [right|].
  - exists io. split; [exact Hseen|]. split; [by rewrite Hobj|]. rewrite Hrest. unfold r'. cbn.
    rewrite foldl_app. do 2 f_equal. set_solver.
Qed.

(** After [ensure_replayed] the overlay is the replay of what is listed. *)
Lemma ensure_replayed_sees (r : reader) :
  seen (rd_io r) (rd_epoch r) → replayed_some logs r →
  ∃ r', ensure_replayed prefix r = (Ok (), r') ∧ seen (rd_io r') (rd_epoch r') ∧
    st_objects (storage r') = st_objects (storage r) ∧ replayed_all logs r'.
Proof using All.
  intros Hs Hrep. unfold ensure_replayed. destruct (rd_load_sees r Hs) as (io & Hload & Hs1 & Ho1).
  step Hload. cbn [fst]. pose proof Hs as [_ _ _ Hd _ Hw _ _ _]. rewrite Hw.
  destruct logs as [|l0 logs'] eqn:Hlogs.
  { eexists. split; [reflexivity|]. split; [done|]. split; [done|]. by split. }
  destruct Hrep as [?|(logs0 & logs1 & Heq & Hr & Hov)]; [done|].
  pose proof (dk_once _ _ _ _ _ _ _ _ _ Hd) as Hnd. cbn [fmap list_fmap]. rewrite <-Hlogs in *.
  assert (l0.1 :: logs'.*1 = logs0.*1 ++ logs1.*1) as -> by by rewrite <-fmap_app, <-Heq, Hlogs.
  rewrite Heq, fmap_app in Hnd. pure_step. cbn [set_rd_io rd_replayed]. rewrite Hr.
  rewrite filter_unseen by done. apply NoDup_app in Hnd as (_ & Hdis & Hnd1).
  destruct (replay_missing_sees logs1 (set_rd_io io r)) as (io' & Hs' & Ho' & Hm'); [done|done|..].
  - intros l Hl. rewrite Heq. apply elem_of_app. by right.
  - intros l Hl. cbn. rewrite Hr, elem_of_list_to_set. intros Hx. apply (Hdis _ Hx).
    by apply list_elem_of_fmap_2.
  - eexists. split; [exact Hm'|]. split; [exact Hs'|]. split; [by etrans|].
    split; cbn; rewrite ?Hr, ?Hov, ?Heq, ?fmap_app, ?list_to_set_app_L; [done|].
    by rewrite join_app, apply_rows_app.
Qed.
End replay.

(** ** Reads *)

(** The storage that the reader sees stands for [V], and what it replayed is the
    start of what is listed. *)
Definition in_step (V : gmap string bytes) (r : reader) : Prop :=
  ∃ epoch wn sn m etag logs files,
    sees epoch wn sn m etag logs files V (rd_io r) (rd_epoch r) ∧ replayed_some logs r.

Section lookups.
Context (V : gmap string bytes) (r : reader) (Hr : in_step V r).

(** The replay before a lookup, and what the lookup finds. *)
Lemma ready :
  ∃ r1 epoch wn sn m etag logs files ts us,
    ensure_replayed prefix r = (Ok (), r1) ∧
    sees epoch wn sn m etag logs files V (rd_io r1) (rd_epoch r1) ∧ replayed_all logs r1 ∧
    st_objects (storage r1) = st_objects (storage r) ∧
    Forall2 (stores (st_objects (storage r1)) (used_id prefix epoch sn)) (reverse (mf_sst m)) ts ∧
    Forall2 (table_stands (st_objects (storage r1))) ts us ∧
    Forall plain [rd_overlay r1] ∧ V = live (merged ([rd_overlay r1] ++ us)).
Proof using All.
  destruct Hr as (epoch & wn & sn & m & etag & logs & files & Hs & Hrep).
  destruct (ensure_replayed_sees _ _ _ _ _ _ _ _ r Hs Hrep) as (r1 & He & Hs1 & Ho1 & Hall).
  pose proof Hs1 as [Hep _ _ Hd _ _ Hss Hl _]. pose proof Hall as [_ Hov].
  destruct (disk_stored prefix epoch K U _ _ _ _ _ Hd Hep) as [Hst Hts].
  exists r1, epoch, wn, sn, m, etag, logs, files, (f_raw <$> reverse files), (f_table <$> reverse files).
  do 4 (split; [done|]). rewrite Hss. do 2 (split; [done|]). split.
  - constructor; [|done]. apply (use_table_plain prefix K U). rewrite Hov. apply use_apply_rows.
    + apply Forall_forall. intros x (rows & Hx & Hin)%list_elem_of_join.
      apply list_elem_of_fmap in Hin as (l & -> & Hin).
      destruct (listed_log _ _ _ _ _ _ _ _ _ Hd l Hin) as (Hu & _). rewrite Forall_forall in Hu. auto.
    + intros k v. by rewrite lookup_empty.
  - apply map_eq. intros k. by rewrite Hl, view_merged, Hov.
Qed.

(** After the lookup the reader is in step, and the objects are as they were. *)
Lemma looked_up r1 epoch wn sn m etag logs files io :
  sees epoch wn sn m etag logs files V (rd_io r1) (rd_epoch r1) → replayed_all logs r1 →
  st_objects (storage r1) = st_objects (storage r) →
  read_from prefix (st_objects (storage r1)) (used_id prefix epoch sn) (rd_io r1) io →
  in_step V (set_rd_io io r1) ∧ st_objects (storage (set_rd_io io r1)) = st_objects (storage r).
Proof using Type*.
  intros Hs Hall Ho Hio. split; [|cbn; by rewrite (rf_objects _ _ _ _ _ Hio)].
  exists epoch, wn, sn, m, etag, logs, files. split; [by eapply sees_read|].
  by apply (all_some logs (set_rd_io io r1)).
Qed.

Lemma on_lookup_eq {A} (op : Op ((W * ManifestCache) * C) A) (r0 : reader) a io :
  op (rd_io r0) = (a, io) → on_lookup op r0 = (a, set_rd_io io r0).
Proof using Type. intros Ho. unfold on_lookup, op_zoom. by rewrite Ho. Qed.

Lemma rd_get_sees k :
  ∃ r', rd_get_bytes prefix k r = (Ok (V !! k), r') ∧ in_step V r' ∧
    st_objects (storage r') = st_objects (storage r).
Proof using All.
  destruct ready as (r1 & epoch & wn & sn & m & etag & logs & files & ts & us & He & Hs & Hall & Ho & Hst
    & Hts & Hp & HV).
  pose proof Hs as [_ Hco Hsk _ Hm _ _ _ Hf].
  destruct (engine_point prefix (rd_epoch r1) _ _ [rd_overlay r1] ts us m etag (rd_io r1) eq_refl Hco Hf
    (or_introl Hsk) Hm Hst Hts Hp k) as (io & Hl & Hio).
  rewrite <-HV in Hl. cbn [fmap list_fmap newest] in Hl. rewrite assoc_bt_iter in Hl.
  assert (match rd_overlay r1 !! k with Some v => Some v | None => None end = rd_overlay r1 !! k) as Hk
    by by destruct (rd_overlay r1 !! k).
  rewrite Hk in Hl. exists (set_rd_io io r1). split; [|by eapply looked_up].
  apply retry_ok. step He. pure_step. by apply on_lookup_eq.
Qed.

Lemma rd_gets_sees limit dir c :
  ∃ r', rd_gets_bytes prefix limit dir c r = (Ok (scan_spec limit dir c V), r') ∧ in_step V r' ∧
    st_objects (storage r') = st_objects (storage r).
Proof using All.
  destruct ready as (r1 & epoch & wn & sn & m & etag & logs & files & ts & us & He & Hs & Hall & Ho & Hst
    & Hts & Hp & HV).
  pose proof Hs as [_ Hco Hsk _ Hm _ _ _ Hf].
  destruct (engine_range prefix (rd_epoch r1) _ _ [rd_overlay r1] ts us m etag (rd_io r1) eq_refl Hco Hf
    (or_introl Hsk) Hm Hst Hts Hp limit dir c) as (io & Hl & Hio).
  rewrite <-HV in Hl. exists (set_rd_io io r1). split; [|by eapply looked_up].
  apply retry_ok. step He. pure_step. by apply on_lookup_eq.
Qed.
End lookups.

(** ** Calls *)

(** A read answers as the map does; a write is refused. *)
Definition reader_call (call : GsCall) (V : gmap string bytes) : Result GsReply :=
  match call with
  | CGet _ | CHas _ | CGets _ _ _ => (spec_call (λ _ _ _, Ok ()) call V).1.1
  | CDelete _ | CSet _ _ | CPut _ _ => Err read_only_err
  end.

Lemma reader_step call V r :
  in_step V r →
  ∃ r', run_call (H := OxKvReader_GetSet prefix) call r = (reader_call call V, r') ∧ in_step V r' ∧
    st_objects (storage r') = st_objects (storage r).
Proof using All.
  intros Hr. destruct call as [k|k|k|k v|k v|limit dir c];
    cbn [run_call get_bytes has delete set_bytes put_bytes gets_bytes OxKvReader_GetSet reader_call spec_call
      fst]; [..|]; try by exists r.
  - destruct (rd_get_sees V r Hr k) as (r' & Hg & Hr'). exists r'. split; [by step Hg|done].
  - destruct (rd_get_sees V r Hr k) as (r' & Hg & Hr'). exists r'. split; [|done].
    assert (rd_has prefix k r = (Ok (bool_decide (is_Some (V !! k))), r')) as Hh
      by (unfold rd_has; by step Hg).
    by step Hh.
  - destruct (rd_gets_sees V r Hr limit dir c) as (r' & Hg & Hr'). exists r'. split; [by step Hg|done].
Qed.

Lemma reader_steps calls V r :
  in_step V r →
  ∃ r', run_calls (H := OxKvReader_GetSet prefix) calls r = ((λ call, reader_call call V) <$> calls, r') ∧
    in_step V r' ∧ st_objects (storage r') = st_objects (storage r).
Proof using All.
  revert r. induction calls as [|call calls IH]; intros r Hr; [by exists r|].
  destruct (reader_step call V r Hr) as (r1 & Hc & Hr1 & Ho1).
  destruct (IH r1 Hr1) as (r' & Hcs & Hr' & Ho'). exists r'. cbn [run_calls]. rewrite Hc, Hcs.
  split; [done|]. split; [done|]. by etrans.
Qed.

(** ** Opening *)

Lemma read_epoch epoch w :
  st_wf w → last_epoch prefix epoch w →
  ∃ rec w', read_ownership prefix w = (Ok rec, w') ∧ st_wf w' ∧ st_objects w' = st_objects w ∧
    match rec with Some rec => or_epoch rec | None => 0%N end = epoch.
Proof using Type*.
  intros Hwf Hl. unfold read_ownership, last_epoch, owner_on, op_try in *.
  destruct (st_get_law (ownership_path prefix) w Hwf (accepted _)) as (got & w1 & -> & Ho & Hwf1 & Hr).
  destruct (st_objects w !! ownership_path prefix) as [[b tag]|].
  - destruct Hr as [v ->], Hl as (rec & Hb & He). cbn [go_bytes]. rewrite Hb. by exists (Some rec), w1.
  - destruct Hr as (msg & -> & ->). by exists None, w1.
Qed.

Lemma stored_is epoch m etag (w : W) :
  manifest_is prefix epoch m etag w → stored_manifest prefix epoch w = Ok (m, etag).
Proof using Type.
  unfold manifest_is, manifest_on, stored_manifest. destruct (st_objects w !! manifest_path prefix) as [[b tag]|].
  - by intros (-> & _ & ->).
  - by intros [-> ->].
Qed.

(** A manifest cache that holds nothing, or what was stored under another tag. *)
Lemma recoverable_sees room epoch V w wn sn m etag logs files c (cache : C) :
  recoverable_at prefix K U room epoch V w wn sn m etag logs files → (epoch < U64)%N →
  mc_skip_revalidation c = false → (∀ e, mc_entry c = Some e → ce_etag e ≠ etag) →
  cache_view cache = ∅ → sees epoch wn sn m etag logs files V ((w, c), cache) epoch.
Proof using Type*.
  intros [Hwf Hd Hm Hw Hs Hl _ _] Hep Hskip Hst Hc. unfold manifest_is, manifest_on in Hm.
  split; cbn [fst snd]; try done.
  - split; [done|]. split; cbn [fst snd].
    + intros b tag Ho. rewrite Ho in Hm. by destruct Hm as (-> & ? & _).
    + intros e b He Ho. rewrite Ho in Hm. destruct Hm as (Ht & _). by destruct (Hst e He).
  - by apply stored_is.
  - intros id f. by rewrite Hc, lookup_empty.
Qed.

Lemma recoverable_same room epoch V w w' wn sn m etag logs files :
  recoverable_at prefix K U room epoch V w wn sn m etag logs files → st_wf w' →
  st_objects w' = st_objects w → recoverable_at prefix K U room epoch V w' wn sn m etag logs files.
Proof using Type.
  intros [Hwf Hd Hm Hw Hs Hl Hr Ho] Hwf' Heq.
  split; unfold manifest_is, manifest_on, last_epoch, owner_on in *; rewrite ?Heq; done.
Qed.

Lemma replay_wal_sees epoch wn sn m etag logs files V (r : reader) :
  sees epoch wn sn m etag logs files V (rd_io r) (rd_epoch r) → rd_overlay r = ∅ → rd_replayed r = ∅ →
  ∃ r', replay_wal prefix r = (Ok (), r') ∧ in_step V r' ∧ rd_epoch r' = rd_epoch r ∧
    st_objects (storage r') = st_objects (storage r).
Proof using All.
  intros Hs Hov Hrep. unfold replay_wal.
  destruct (rd_load_sees _ _ _ _ _ _ _ _ r Hs) as (io & Hload & Hs1 & Ho1). step Hload. pure_step.
  cbn [fst set_rd_io rd_epoch]. pose proof Hs1 as [_ Hco _ _ _ Hw _ _ Hf]. destruct io as [[w c] k].
  destruct (replay_pass_spec logs w c ∅) as (w2 & Hp & Hwf2 & Ho2); [apply Hco| |].
  { apply Forall_forall. intros l Hl. by eapply (sees_log _ _ _ _ _ _ _ _ ((w, c), k)). }
  assert (replay_listed_wals prefix (rd_epoch r) (mf_wal m) ((w, c), ∅) =
    (Ok (), ((w2, c), apply_rows (mjoin logs.*2) ∅))) as Hreplay.
  { unfold replay_listed_wals. rewrite Hw. by rewrite (op_bind_ok _ _ _ _ _ Hp). }
  assert (on_replay (replay_listed_wals prefix (rd_epoch r) (mf_wal m)) (set_rd_io ((w, c), k) r) =
    (Ok (), MkReader (rd_epoch r) ((w2, c), k) (apply_rows (mjoin logs.*2) ∅) (rd_replayed r))) as Hon.
  { unfold on_replay, op_zoom. cbn [set_rd_io rd_io rd_overlay fst snd]. by rewrite Hov, Hreplay. }
  step Hon. eexists. split; [reflexivity|]. split; [|split; [done|cbn; by rewrite Ho2]].
  exists epoch, wn, sn, m, etag, logs, files. split.
  - eapply sees_read; [exact Hs1|]. split; cbn [fst snd]; try done. by apply (coherent_same prefix w2 w).
  - apply all_some. split; cbn; [|done]. by rewrite Hrep, Hw, (left_id_L ∅ (∪)).
Qed.

Lemma open_in_step room epoch V w (cache : C) :
  recoverable prefix K U room epoch V w → (epoch < U64)%N → cache_view cache = ∅ →
  ∃ r, rd_open prefix cache w = (Ok r, storage r) ∧ in_step V r ∧ rd_epoch r = epoch ∧
    st_objects (storage r) = st_objects w.
Proof using All.
  intros (wn & sn & m & etag & logs & files & Hr) Hep Hc. pose proof Hr as [Hwf _ _ _ _ _ _ Hlast].
  destruct (read_epoch epoch w Hwf Hlast) as (rec & w1 & Hown & Hwf1 & Ho1 & He).
  apply (recoverable_same _ _ _ _ w1) in Hr; [|done..].
  destruct (replay_wal_sees epoch wn sn m etag logs files V (MkReader epoch ((w1, cache_new), cache) ∅ ∅))
    as (r & Hrep & Hs & Hre & Ho); [by eapply recoverable_sees|done..|].
  exists r. split; [|split; [done|split; [done|by etrans]]].
  unfold rd_open. step Hown. rewrite He, Hrep. done.
Qed.

(** ** Theorems *)

(** C13: A reader follows the writer.  As long as the listed logs extend those that
    it replayed, or none is listed, every read of a reader is one of the map
    that the storage stands for at that moment, whatever manifest and files it
    had cached; every write is refused, and no object changes. *)
Theorem reader_follows (calls : list GsCall) (V : gmap string bytes) (r : reader) :
  in_step V r →
  ∃ r', run_calls (H := OxKvReader_GetSet prefix) calls r = ((λ call, reader_call call V) <$> calls, r') ∧
    in_step V r' ∧ st_objects (storage r') = st_objects (storage r).
Proof using All. apply reader_steps. Qed.

(** C12: A reader beside a live writer.  Opened on the storage of a sound store
    with nothing staged, it observes the writer's epoch, answers every call as
    the writer's map does, and the writer goes on unfenced on the very storage
    that the reader leaves. *)
Theorem reader_beside_writer `{Ch : Channel} (epoch : N) (session : string) (room : N) (V : gmap string bytes)
    (s : OxKvStore W C) (cache : C) (calls : list GsCall) :
  (epoch < U64)%N → sound prefix epoch session K U room V s → ox_wal_buffer s = [] →
  cache_view cache = ∅ →
  ∃ r r', rd_open prefix cache (disk s) = (Ok r, storage r) ∧ rd_epoch r = epoch ∧
    run_calls (H := OxKvReader_GetSet prefix) calls r = ((λ call, reader_call call V) <$> calls, r') ∧
    sound prefix epoch session K U room V (set_disk (storage r') s).
Proof using All.
  intros Hep Hs Hb Hc.
  pose proof (sound_recoverable prefix K U epoch session room V s Hs Hb) as Hrec.
  destruct (open_in_step room epoch V (disk s) cache Hrec Hep Hc) as (r & Hopen & Hst & Hre & Ho).
  destruct (reader_steps calls V r Hst) as (r' & Hrun & Hst' & Ho').
  exists r, r'. do 3 (split; [done|]). apply (sound_read prefix epoch session Hep K U); [done| |by etrans].
  destruct Hst' as (? & ? & ? & ? & ? & ? & ? & [_ [Hwf _] _ _ _ _ _ _ _] & _). exact Hwf.
Qed.
End reader.

Section witness.
Import Concrete.

Definition some_reads : list GsCall :=
  [CGet "a"; CPut "a" (as_bytes "1"); CHas "b"; CGets None Next (None, None)].

(** A writer beside whom a reader is opened, after some calls of its own. *)
Lemma reader_beside_writer_witness :
  match build_with_cache (C := LruCache string SstFile) "p" "w" true false empty_lru mem_new with
  | (Ok (epoch, s), _) =>
      let s := (run_lsms "p" epoch "w" some_calls s).2 in
      ∃ r r', rd_open "p" empty_lru (disk s) = (Ok r, (rd_io r).1.1) ∧
        run_calls (H := OxKvReader_GetSet "p") some_reads r =
          ([Ok (RBytes None); Err read_only_err; Ok (RBool true); Ok (REntries [KV "b" (as_bytes "22")])], r')
  | _ => False
  end.
Proof.
  destruct (fresh_store 112 false) as (s & w' & -> & Hs & Hb & Hh & _); [reflexivity|]. cbv zeta.
  pose proof (calls_ok "p" two_keys two_values 1 "w" eq_refl some_calls 0 ∅ s Hs some_calls_ok) as Hr.
  rewrite Hh in Hr. change (validators hooks_default) with ([] : list Validator) in Hr.
  assert ((lsm_calls (accepts []) some_calls ∅).1.2 = {["b" := as_bytes "22"]}) as HV by (vm_compute; reflexivity).
  destruct (lsm_calls (accepts []) some_calls ∅) as [[rs V] evs]. cbn [fst snd] in HV. subst V.
  destruct Hr as (s' & Hrun & Hs' & _ & _ & Hdr). rewrite Hrun. cbn [snd].
  destruct (reader_beside_writer "p" two_keys two_values 1 "w" 0 {["b" := as_bytes "22"]} s' empty_lru
    some_reads) as (r & r' & Hopen & _ & Hcalls & _).
  - reflexivity.
  - exact Hs'.
  - apply (Hdr true); [intros _; exact Hb|reflexivity].
  - reflexivity.
  - exists r, r'. split; [exact Hopen|]. rewrite Hcalls. f_equal; vm_compute; reflexivity.
Defined.

(** A reader that was opened after one write and is read after the next one. *)
Definition one_put (k v : string) : list LsmCall := [Gs (CPut k (as_bytes v))].

Definition follow_run :
    option (OxKvReader MemInner (LruCache string SstFile) * OxKvReader MemInner (LruCache string SstFile)) :=
  match build_with_cache (C := LruCache string SstFile) "p" "w" true false empty_lru mem_new with
  | (Ok (epoch, s), _) =>
      let s := (run_lsms "p" epoch "w" (one_put "a" "1") s).2 in
      match rd_open "p" empty_lru (disk s) with
      | (Ok r, w) =>
          let s := (run_lsms "p" epoch "w" (one_put "b" "22") (set_disk w s)).2 in
          Some (r, set_rd_io ((disk s, (rd_io r).1.2), (rd_io r).2) r)
      | _ => None
      end
  | _ => None
  end.

Definition both : gmap string bytes := {["a" := as_bytes "1"; "b" := as_bytes "22"]}.

(** The storage of the second write stands for both. *)
Lemma follow_recoverable :
  ∃ r r', follow_run = Some (r, r') ∧ recoverable "p" two_keys two_values 32 1 both (rd_io r').1.1.
Proof.
  unfold follow_run.
  destruct (fresh_store 64 false) as (s & w' & -> & Hs & Hb & Hh & _); [reflexivity|]. cbv zeta.
  assert (∀ k v, two_keys k → two_values (as_bytes v) →
    Forall (use_call two_keys two_values) (one_put k v)) as Hu.
  { intros k v Hk Hv. constructor; [|done]. split; [exact Hk|]. by intros ? [= <-]. }
  pose proof (calls_ok "p" two_keys two_values 1 "w" eq_refl (one_put "a" "1") 48 ∅ s Hs) as H1.
  cbn [lsm_calls lsm_call one_put] in H1.
  destruct H1 as (s1 & Hrun1 & Hs1 & _ & _ & Hb1); [apply Hu; by left|]. rewrite Hrun1. cbn [snd].
  assert (ox_wal_buffer s1 = []) as Hbuf1 by by apply (Hb1 true).
  destruct (open_in_step "p" two_keys two_values 48 1 _ (disk s1) empty_lru
    (sound_recoverable "p" two_keys two_values 1 "w" 48 _ s1 Hs1 Hbuf1)) as (r & Hopen & Hst & _ & Ho);
    [done|done|].
  rewrite Hopen. destruct Hst as (? & ? & ? & ? & ? & ? & ? & [_ [Hwf _] _ _ _ _ _ _ _] & _).
  pose proof (sound_read "p" 1 "w" eq_refl two_keys two_values 48 _ s1 _ Hs1 Hwf Ho) as Hs1'.
  pose proof (calls_ok "p" two_keys two_values 1 "w" eq_refl (one_put "b" "22") 32 _ _ Hs1') as H2.
  cbn [lsm_calls lsm_call one_put] in H2.
  destruct H2 as (s2 & Hrun2 & Hs2 & _ & _ & Hb2); [apply Hu; by right|]. rewrite Hrun2. cbn [snd].
  eexists r, _. split; [reflexivity|]. cbn [rd_io set_rd_io fst].
  replace both with (<["b" := as_bytes "22"]> (<["a" := as_bytes "1"]> (∅ : gmap string bytes)))
    by (vm_compute; reflexivity).
  apply (sound_recoverable "p" two_keys two_values 1 "w"); [exact Hs2|]. by apply (Hb2 true).
Qed.

(** It is in step: its overlay and its manifest are those of the first write. *)
Lemma follow_in_step :
  match follow_run with Some (_, r) => in_step "p" two_keys two_values both r | None => False end.
Proof.
  destruct follow_recoverable as (r0 & r & Hrun & wn & sn & m & etag & logs & files & Hrec).
  assert ((λ '(_, r), (rd_epoch r, mc_skip_revalidation (rd_io r).1.2, ce_etag <$> mc_entry (rd_io r).1.2,
      bool_decide (rd_replayed r = {["p/e000001/wal/00000000.log"]}),
      bool_decide (rd_overlay r = {["a" := Some (as_bytes "1")]}), map_to_list (cache_view (rd_io r).2))) <$> follow_run =
    Some (1%N, false, Some "0000000000000003", true, true, [])) as Hmine by (vm_compute; reflexivity).
  assert ((λ '(_, r), match stored_manifest "p" 1 (rd_io r).1.1 with
      | Ok (m, t) => (mf_wal m, t) | Err _ => ([], "") end) <$> follow_run =
    Some (["p/e000001/wal/00000000.log"; "p/e000001/wal/00000001.log"], "0000000000000005"))
    as Htheirs by (vm_compute; reflexivity).
  assert ((λ '(_, r), fst <$> st_objects (rd_io r).1.1 !! "p/e000001/wal/00000000.log") <$> follow_run =
    Some (Some (frames [("a", Some (as_bytes "1"))]))) as Hlog by (vm_compute; reflexivity).
  rewrite Hrun in *. cbn [fmap option_fmap option_map] in *.
  destruct r as [re [[w c] k] ov ids]. cbn [rd_epoch rd_io rd_replayed rd_overlay fst snd] in *.
  injection Hmine as -> Hskip Htag Hids%bool_decide_eq_true Hov%bool_decide_eq_true Hcv.
  apply map_to_list_empty_iff in Hcv.
  pose proof Hrec as [_ Hd Hm Hw _ _ _ _]. apply stored_is in Hm. rewrite Hm in Htheirs.
  injection Htheirs as Hwal ->. exists 1%N, wn, sn, m, "0000000000000005", logs, files. split.
  { eapply recoverable_sees; [exact _|exact _|exact _|exact Hrec|reflexivity|done| |done]. intros e He. rewrite He in Htag.
    injection Htag as ->. done. }
  rewrite Hw in Hwal. destruct logs as [|l0 [|l1 [|]]]; try discriminate Hwal. injection Hwal as Hp0 Hp1.
  right. exists [l0], [l1]. split; [done|]. cbn. rewrite Hp0, Hids, Hov, app_nil_r. split; [set_solver|].
  destruct (listed_log _ _ _ _ _ _ _ _ _ Hd l0) as (Hu & (tag & Ho) & _); [by left|].
  rewrite Hp0 in Ho. rewrite Ho in Hlog. injection Hlog as Hf.
  apply (f_equal decode_wal_records) in Hf. rewrite decode_wal_frames in Hf by by apply (use_ops_ok "p" _ _ _ Hu).
  rewrite Hf. by vm_compute.
Qed.

Lemma reader_follows_witness :
  match follow_run with
  | Some (_, r) => ∃ r', run_calls (H := OxKvReader_GetSet "p") [CGet "a"; CGet "b"; CDelete "a"] r =
      ([Ok (RBytes (Some (as_bytes "1"))); Ok (RBytes (Some (as_bytes "22"))); Err read_only_err], r')
  | None => False
  end.
Proof.
  pose proof follow_in_step as Hs. destruct follow_run as [[r0 r]|]; [|exact Hs].
  destruct (reader_follows "p" two_keys two_values [CGet "a"; CGet "b"; CDelete "a"] both r Hs)
    as (r' & Hr & _).
  exists r'. rewrite Hr. reflexivity.
Defined.

(** Once the logs that a reader replayed were collected and others are listed,
    what it replayed shadows the files: a reader opened before the second write
    to a key goes on to answer with the first. *)
Definition stale_run : option (Result (option bytes) * Result (option bytes)) :=
  match build_with_cache (C := LruCache string SstFile) "p" "w" true false empty_lru mem_new with
  | (Ok (epoch, s), _) =>
      let s := (run_lsms "p" epoch "w" [Gs (CPut "a" (as_bytes "1"))] s).2 in
      match rd_open "p" empty_lru (disk s) with
      | (Ok r, w) =>
          let s := (run_lsms "p" epoch "w" [Gs (CPut "a" (as_bytes "22")); FlushSst true]
            (set_disk w s)).2 in
          let s := (gc_wal "p" epoch s).2 in
          let s := (run_lsms "p" epoch "w" [Gs (CPut "b" (as_bytes "1"))] s).2 in
          let r := set_rd_io ((disk s, (rd_io r).1.2), (rd_io r).2) r in
          Some ((ox_get_bytes "p" epoch "a" s).1, (rd_get_bytes "p" "a" r).1)
      | _ => None
      end
  | _ => None
  end.

Lemma reader_stale : stale_run = Some (Ok (Some (as_bytes "22")), Ok (Some (as_bytes "1"))).
Proof. vm_compute. reflexivity. Qed.
End witness.
