(* ===== verification/Cached.v ===== *)
(** The write-through RAM mirror: [src/src/store/lsm/cached.rs].

    A mirror pairs the single-writer store, its core, with an in-memory store
    that holds resolved keys, and tracks which generation of the manifest the
    latter reflects.  A transaction shares both with its store. *)

From stdpp Require Import options.
From S2P Require Import Prelude OrdMap Core Codec Hooks BTree Snapshot Storage Json Ownership Manifest.
From S2P Require Import Blob Probe Wal Merge Sst Cache Read LsmStore LsmTx.

Definition SCAN_BATCH : N := 256.
(** In milliseconds. *)
Definition DEFAULT_STALE_TTL : N := 1000.
Definition CACHE_PEEK_TTL : N := 3600000.

Inductive WarmMode := Eager | Background | Lazy.

#[export] Instance WarmMode_eq_dec : EqDecision WarmMode.
Proof. solve_decision. Defined.

Record CachedState := MkState {
  cs_epoch : N;
  cs_version : N;
  cs_sst_ids : gset string;
  cs_replayed : gset string;
  cs_last_check_ms : N;
  cs_poisoned : option string;
  cs_warmed : bool;
  cs_warm_cursor : option string;
  cs_scanned_keys : gset string;
}.

Definition set_epoch (e : N) (s : CachedState) : CachedState :=
  MkState e (cs_version s) (cs_sst_ids s) (cs_replayed s) (cs_last_check_ms s) (cs_poisoned s)
    (cs_warmed s) (cs_warm_cursor s) (cs_scanned_keys s).
Definition set_last_check (t : N) (s : CachedState) : CachedState :=
  MkState (cs_epoch s) (cs_version s) (cs_sst_ids s) (cs_replayed s) t (cs_poisoned s)
    (cs_warmed s) (cs_warm_cursor s) (cs_scanned_keys s).
Definition set_poisoned (p : option string) (s : CachedState) : CachedState :=
  MkState (cs_epoch s) (cs_version s) (cs_sst_ids s) (cs_replayed s) (cs_last_check_ms s) p
    (cs_warmed s) (cs_warm_cursor s) (cs_scanned_keys s).
Definition set_warm (warmed : bool) (cursor : option string) (keys : gset string)
    (s : CachedState) : CachedState :=
  MkState (cs_epoch s) (cs_version s) (cs_sst_ids s) (cs_replayed s) (cs_last_check_ms s)
    (cs_poisoned s) warmed cursor keys.
Definition set_scanned (keys : gset string) (s : CachedState) : CachedState :=
  set_warm (cs_warmed s) (cs_warm_cursor s) keys s.

Definition sst_ids (m : Manifest) : gset string := list_to_set (sm_id <$> mf_sst m).

(** [observe_manifest] at the time [now]. *)
Definition observe_manifest (now : N) (m : Manifest) (s : CachedState) : CachedState :=
  MkState (cs_epoch s) (mf_version m) (sst_ids m) (cs_replayed s ∪ list_to_set (mf_wal m)) now None
    (cs_warmed s) (cs_warm_cursor s) (cs_scanned_keys s).

(** [ttl_expired] at the time [now]. *)
Definition ttl_expired (now last_check_ms ttl_ms : N) : bool :=
  (ttl_ms <=? wrapping_sub now last_check_ms)%N.

Definition in_window (k : string) (dir : Direction) (c : cursor) : bool :=
  match dir, c.1 with
  | Prev, None => false
  | _, _ =>
      let '(lower, upper) := match dir with Next => (c.1, c.2) | Prev => (c.2, c.1) end in
      match lower with Some lo => negb (bool_decide (k <ₖ lo)) | None => true end &&
      match upper with Some hi => negb (bool_decide (hi <ₖ k)) | None => true end
  end.

(** [sort_by] on the keys. *)
Definition sort_rows (dir : Direction) : list KeyValue → list KeyValue :=
  sort_by (λ y x, match dir with
                  | Next => bool_decide (key y <ₖ key x)
                  | Prev => bool_decide (key x <ₖ key y)
                  end).

(** The loop of [merge_staged]: a staged record takes the place of the row. *)
Definition stage_row (dir : Direction) (c : cursor) (rows : list KeyValue) (r : row) :
    list KeyValue :=
  if in_window r.1 dir c then
    filter (λ kv, key kv ≠ r.1) rows ++
    match r.2 with Some raw => [KV r.1 raw] | None => [] end
  else rows.

Definition merge_staged (rows : list KeyValue) (staged : MemMap) (dir : Direction) (c : cursor)
    (limit : option N) : list KeyValue :=
  take_limit (limit_of limit)
    (sort_rows dir (foldl (stage_row dir c) rows (bt_iter staged))).

(** Runs [step] until it answers, at most [n] times, which need not be small. *)
Fixpoint repeat_upto {S X R} (step : X → Op S (X + R)) (n : positive) (x : X) : Op S (X + R) :=
  let go (n : positive) (r : X + R) : Op S (X + R) :=
    match r with inl x => repeat_upto step n x | inr d => op_ret (inr d) end in
  match n with
  | xH => step x
  | xO n => let! r := repeat_upto step n x in go n r
  | xI n => let! r := step x in let! r := go n r in go n r
  end.

Record CachedOxKvStore `{Channel} (W C : Type) := MkCached {
  ca_inner : OxKvStore W C;
  ca_mirror : BTreeStore;
  ca_state : CachedState;
  ca_ttl_ms : N;
  ca_mode : WarmMode;
}.
Arguments MkCached {_ W C} _ _ _ _ _.
Arguments ca_inner {_ W C} _.
Arguments ca_mirror {_ W C} _.
Arguments ca_state {_ W C} _.
Arguments ca_ttl_ms {_ W C} _.
Arguments ca_mode {_ W C} _.

Section cached.
Context {W C : Type} `{StorageBackend W} `{Clock W} `{Json Manifest} `{Json SstFooter}
  `{Json OwnershipRecord} `{Digests} `{Json BlobPointer} `{Cache C string SstFile}
  `{Ch : Channel}.
Context (prefix : ObjectPath) (epoch : N) (session : string).
Abbreviation writer := (OxKvStore W C).
Abbreviation cached := (CachedOxKvStore W C).

Definition set_inner (i : writer) (c : cached) : cached :=
  MkCached i (ca_mirror c) (ca_state c) (ca_ttl_ms c) (ca_mode c).
Definition set_mirror (m : BTreeStore) (c : cached) : cached :=
  MkCached (ca_inner c) m (ca_state c) (ca_ttl_ms c) (ca_mode c).
Definition set_state (s : CachedState) (c : cached) : cached :=
  MkCached (ca_inner c) (ca_mirror c) s (ca_ttl_ms c) (ca_mode c).

Definition on_inner {A} : Op writer A → Op cached A := op_zoom ca_inner set_inner.
Definition on_mirror {A} : Op BTreeStore A → Op cached A := op_zoom ca_mirror set_mirror.
Definition on_state (f : CachedState → CachedState) : Op cached () :=
  op_modify (λ c, set_state (f (ca_state c)) c).
Definition from_state {A} (f : CachedState → A) : Op cached A := op_gets (λ c, f (ca_state c)).
Definition ca_on_hooks (f : HookState → HookState) (c : cached) : cached :=
  set_inner (set_hooks (f (ox_hooks (ca_inner c))) (ca_inner c)) c.

Definition ca_add_validator (v : Validator) : cached → cached := ca_on_hooks (add_validator v).
Definition ca_add_observer (scope : Scope) (o : ObserverId) : cached → cached :=
  ca_on_hooks (add_observer scope o).
Definition ca_watch_scope (scope : Scope) : cached → cached := ca_on_hooks (watch_scope scope).
Definition ca_current_seq (c : cached) : N := current_seq (subscribers (ox_hooks (ca_inner c))).
Definition ca_events_since (seq : N) (c : cached) : option (list ChangeEvent) :=
  events_since seq (subscribers (ox_hooks (ca_inner c))).

#[export] Instance CachedOxKvStore_Hooks : Hooks cached := {|
  hk_add_validator := ca_add_validator;
  hk_add_observer := ca_add_observer;
  hk_watch_scope := ca_watch_scope;
  hk_current_seq := ca_current_seq;
  hk_events_since := ca_events_since;
|}.

Definition with_stale_ttl (ttl_ms : N) (c : cached) : cached :=
  MkCached (ca_inner c) (ca_mirror c) (ca_state c) (N.min ttl_ms (U64 - 1)) (ca_mode c).
Definition cached_epoch (c : cached) : N := cs_epoch (ca_state c).
Definition cached_version (c : cached) : N := cs_version (ca_state c).
Definition is_poisoned (c : cached) : bool := bool_decide (is_Some (cs_poisoned (ca_state c))).
Definition is_warmed (c : cached) : bool := cs_warmed (ca_state c).

Definition ca_now : Op cached N := on_inner (on_io (on_disk now_millis)).
Definition mirror_put (k : string) (v : bytes) : Op cached () := on_mirror (put_bytes k v).
Definition mirror_delete (k : string) : Op cached bool := on_mirror (delete k).
Definition observe (m : Manifest) : Op cached () :=
  let! now := ca_now in on_state (observe_manifest now m).
Definition touch_check : Op cached () := let! now := ca_now in on_state (set_last_check now).

Definition reject_if_poisoned : Op cached () :=
  let! p := from_state cs_poisoned in
  match p with Some reason => op_throw (Fenced reason) | None => op_ret () end.

Definition note_fenced (e : StoreError) : Op cached () :=
  match e with Fenced reason => on_state (set_poisoned (Some reason)) | _ => op_ret () end.

Definition sync_after_write : Op cached () :=
  let! now := ca_now in
  let! snapshot := op_gets (λ c, get_cached now CACHE_PEEK_TTL (ox_io (ca_inner c)).1.2) in
  match snapshot with Some (m, _) => observe m | None => op_ret () end.

(** ** Warming *)

(** A listed log; [None] when it is collected. *)
Definition get_wal (id : string) : Op cached (option (list row)) :=
  try! r := on_inner (on_io (on_disk (st_get id))) in
  match r with
  | Ok out => op_ret (Some (decode_wal_records (go_bytes out)))
  | Err e => if str_contains (Core.to_string e) "not found" then op_ret None else op_throw e
  end.

Definition scan_key (k : string) : Op cached () :=
  on_state (λ s, set_scanned ({[k]} ∪ cs_scanned_keys s) s).

(** The records of a log on the scan, in [finish_warm]. *)
Fixpoint overlay_rows (rows : list row) : Op cached () :=
  match rows with
  | [] => op_ret ()
  | (k, Some raw) :: rows => mirror_put k raw ;; scan_key k ;; overlay_rows rows
  | (k, None) :: rows =>
      let! _ := mirror_delete k in
      on_state (λ s, set_scanned (cs_scanned_keys s ∖ {[k]}) s) ;; overlay_rows rows
  end.

Fixpoint overlay_wals (ids : list string) : Op cached () :=
  match ids with
  | [] => op_ret ()
  | id :: ids =>
      let! rows := get_wal id in
      match rows with Some rows => overlay_rows rows | None => op_ret () end ;;
      overlay_wals ids
  end.

(** What the scan did not see goes. *)
Fixpoint drop_unscanned (scanned : gset string) (current : list KeyValue) : Op cached () :=
  match current with
  | [] => op_ret ()
  | kv :: current =>
      (if bool_decide (key kv ∈ scanned) then op_ret ()
       else let! _ := mirror_delete (key kv) in op_ret ()) ;;
      drop_unscanned scanned current
  end.

Definition finish_warm (m : Manifest) : Op cached () :=
  overlay_wals (mf_wal m) ;;
  let! scanned := from_state cs_scanned_keys in
  on_state (set_scanned ∅) ;;
  let! current := on_mirror (gets_bytes None Next (None, None)) in
  drop_unscanned scanned current ;;
  observe m ;;
  on_state (λ s, set_warm true None (cs_scanned_keys s) s).

(** The rows of one page; the first is that of the cursor. *)
Fixpoint fill_page (cursor : option string) (batch : list KeyValue) (applied : N) : Op cached N :=
  match batch with
  | [] => op_ret applied
  | kv :: batch =>
      if bool_decide (cursor = Some (key kv)) then fill_page cursor batch applied
      else scan_key (key kv) ;; mirror_put (key kv) (value kv) ;; fill_page cursor batch (applied + 1)%N
  end.

(** One page of [warm_pages]: more to come, or the whole store is read. *)
Definition warm_page (m : Manifest) (applied : N) : Op cached (N + bool * N) :=
  let! cursor := from_state cs_warm_cursor in
  let! batch := on_inner (ox_gets_bytes prefix epoch (Some SCAN_BATCH) Next (cursor, None)) in
  match last batch with
  | None => finish_warm m ;; op_ret (inr (true, applied))
  | Some kv =>
      let! applied := fill_page cursor batch applied in
      on_state (λ s, set_warm (cs_warmed s) (Some (key kv)) (cs_scanned_keys s) s) ;;
      if (N.of_nat (length batch) <? SCAN_BATCH)%N
      then finish_warm m ;; op_ret (inr (true, applied))
      else op_ret (inl applied)
  end.

Definition warm_pages (max_pages : positive) : Op cached (bool * N) :=
  let! warmed := from_state cs_warmed in
  if warmed : bool then op_ret (true, 0%N)
  else
    let! loaded := on_inner (load_fresh prefix epoch) in
    let! r := repeat_upto (warm_page loaded.1) max_pages 0%N in
    op_ret (match r with inl applied => (false, applied) | inr r => r end).

(** The loop of [warm]; a round reads [u32::MAX] pages. *)
Fixpoint warm_rounds (fuel : nat) (applied : N) : Op cached N :=
  match fuel with
  | O => op_ret applied
  | S fuel =>
      let! r := warm_pages 4294967295 in
      if r.1 : bool then op_ret (applied + r.2)%N else warm_rounds fuel (applied + r.2)%N
  end.

(** Two rounds: more than 2^40 keys. *)
Definition warm : Op cached N :=
  on_state (set_warm false None ∅) ;; warm_rounds 2 0.

Definition warm_step (pages : N) : Op cached bool :=
  let! r := warm_pages (N.succ_pos (pages - 1)) in op_ret r.1.

(** ** Opening and refreshing *)

Definition ca_new (inner : writer) (mode : WarmMode) : cached :=
  MkCached inner btree_default (MkState epoch 0 ∅ ∅ 0 None false None ∅) DEFAULT_STALE_TTL mode.

Definition open_with_mode (mode : WarmMode) : Op writer cached := λ inner,
  let '(r, c) := (if bool_decide (mode = Eager) then let! _ := warm in op_ret () else op_ret ())
                   (ca_new inner mode) in
  (res_map (λ _, c) r, ca_inner c).

(** [CachedOxKvStore::open]. *)
Definition ca_open : Op writer cached := open_with_mode Eager.

Definition check_stale : Op cached bool :=
  let! p := from_state cs_poisoned in
  match p with
  | Some _ => op_ret true
  | None =>
      let! loaded := on_inner (load_fresh prefix epoch) in
      let! stale := from_state (λ s,
        negb (mf_version loaded.1 =? cs_version s)%N ||
        negb (bool_decide (sst_ids loaded.1 = cs_sst_ids s))) in
      (if stale : bool then op_ret () else touch_check) ;;
      op_ret stale
  end.

(** A replayed log on the mirror: the number of its records. *)
Fixpoint mirror_rows (rows : list row) (applied : N) : Op cached N :=
  match rows with
  | [] => op_ret applied
  | (k, Some raw) :: rows => mirror_put k raw ;; mirror_rows rows (applied + 1)%N
  | (k, None) :: rows => let! _ := mirror_delete k in mirror_rows rows (applied + 1)%N
  end.

Fixpoint apply_wal_ids (ids : list string) (applied : N) : Op cached N :=
  match ids with
  | [] => op_ret applied
  | id :: ids =>
      let! rows := get_wal id in
      let! applied := match rows with Some rows => mirror_rows rows applied | None => op_ret applied end in
      apply_wal_ids ids applied
  end.

Definition refresh : Op cached N :=
  let! known := from_state (λ s, s) in
  let! loaded := on_inner (load_fresh prefix epoch) in
  let m := loaded.1 in
  if bool_decide (mf_version m = cs_version known ∧ sst_ids m = cs_sst_ids known)
  then touch_check ;; op_ret 0%N
  else
    let! owner := on_inner (on_io (on_disk (read_ownership prefix))) in
    let owner_epoch := match owner with Some rec => or_epoch rec | None => cs_epoch known end in
    if bool_decide (owner_epoch ≠ cs_epoch known ∨ sst_ids m ≠ cs_sst_ids known) then
      let! applied := warm in
      on_state (set_epoch owner_epoch) ;; observe m ;; op_ret applied
    else
      let! applied := apply_wal_ids (filter (λ id, id ∉ cs_replayed known) (mf_wal m)) 0 in
      let! now := ca_now in
      on_state (λ s, MkState (cs_epoch s) (mf_version m) (cs_sst_ids s)
        (cs_replayed s ∪ list_to_set (mf_wal m)) now None (cs_warmed s) (cs_warm_cursor s)
        (cs_scanned_keys s)) ;;
      op_ret applied.

Definition maybe_refresh : Op cached () :=
  let! ttl_ms := op_gets ca_ttl_ms in
  let! poisoned := from_state cs_poisoned in
  let! expired :=
    match poisoned with
    | Some _ => op_ret true
    | None => let! now := ca_now in from_state (λ s, ttl_expired now (cs_last_check_ms s) ttl_ms)
    end in
  if expired : bool then let! _ := refresh in op_ret () else op_ret ().

(** ** Calls *)

Definition ca_get_bytes (k : string) : Op cached (option bytes) :=
  reject_if_poisoned ;;
  let! hit := on_mirror (get_bytes k) in
  match hit with
  | Some v => op_ret (Some v)
  | None =>
      let! warmed := from_state cs_warmed in
      if warmed : bool then op_ret None
      else
        let! v := on_inner (ox_get_bytes prefix epoch k) in
        match v with Some raw => mirror_put k raw | None => op_ret () end ;;
        op_ret v
  end.

Definition ca_has (k : string) : Op cached bool :=
  reject_if_poisoned ;;
  let! hit := on_mirror (has k) in
  if hit : bool then op_ret true
  else
    let! warmed := from_state cs_warmed in
    if warmed : bool then op_ret false else on_inner (ox_has prefix epoch k).

Definition ca_delete (k : string) : Op cached bool :=
  reject_if_poisoned ;;
  try! r := on_inner (ox_delete prefix epoch session k) in
  match r with
  | Err e => note_fenced e ;; op_throw e
  | Ok existed =>
      (if existed : bool then let! _ := mirror_delete k in op_ret () else op_ret ()) ;;
      sync_after_write ;; op_ret existed
  end.

Definition ca_set_bytes (k : string) (v : bytes) : Op cached (option bytes) :=
  reject_if_poisoned ;;
  let! prev := on_mirror (get_bytes k) in
  try! r := on_inner (ox_set_bytes prefix epoch session k v) in
  match r with
  | Err e => note_fenced e ;; op_throw e
  | Ok _ => mirror_put k v ;; sync_after_write ;; op_ret prev
  end.

Definition ca_put_bytes (k : string) (v : bytes) : Op cached () :=
  reject_if_poisoned ;;
  try! r := on_inner (ox_put_bytes prefix epoch session k v) in
  match r with
  | Err e => note_fenced e ;; op_throw e
  | Ok _ => mirror_put k v ;; sync_after_write
  end.

Definition ca_gets_bytes (limit : option N) (dir : Direction) (c : cursor) :
    Op cached (list KeyValue) :=
  reject_if_poisoned ;;
  let! warmed := from_state cs_warmed in
  if warmed : bool then on_mirror (gets_bytes limit dir c)
  else on_inner (ox_gets_bytes prefix epoch limit dir c).

#[export] Instance CachedOxKvStore_GetSet : GetSet cached := {|
  get_bytes := ca_get_bytes;
  has := ca_has;
  delete := ca_delete;
  set_bytes := ca_set_bytes;
  put_bytes := ca_put_bytes;
  gets_bytes := ca_gets_bytes;
|}.

Definition get_bytes_checked (k : string) : Op cached (option bytes) :=
  maybe_refresh ;; ca_get_bytes k.
Definition has_checked (k : string) : Op cached bool := maybe_refresh ;; ca_has k.
Definition gets_bytes_checked (limit : option N) (dir : Direction) (c : cursor) :
    Op cached (list KeyValue) := maybe_refresh ;; ca_gets_bytes limit dir c.
End cached.

(** ** Transactions *)

(** What [CachedTx] keeps besides the shared state. *)
Record CachedTx := MkCachedTx {
  ct_tx : OxKvTx;
  ct_staged : MemMap;
}.

Section tx.
Context {W C : Type} `{StorageBackend W} `{Clock W} `{Json Manifest} `{Json SstFooter}
  `{Json OwnershipRecord} `{Digests} `{Json BlobPointer} `{Cache C string SstFile}
  `{Ch : Channel}.
Context (prefix : ObjectPath) (epoch : N) (session : string).
Abbreviation cached := (CachedOxKvStore W C).
Abbreviation world := (CachedOxKvStore W C * CachedTx)%type.

Definition on_cache {A} : Op cached A → Op world A := op_zoom fst (λ c w, (c, w.2)).

(** The durable transaction runs on the core and its own state. *)
Definition on_tx {A} : Op (OxKvStore W C * OxKvTx) A → Op world A :=
  op_zoom (λ w, (ca_inner w.1, ct_tx w.2))
    (λ s w, (set_inner s.1 w.1, MkCachedTx s.2 (ct_staged w.2))).

Definition ct_stage (k : string) (v : option bytes) : Op world () :=
  op_modify (λ w, (w.1, MkCachedTx (ct_tx w.2) (<[k := v]> (ct_staged w.2)))).

Definition ca_begin_tx (c : cached) : world :=
  (c, MkCachedTx (ox_begin_tx (ca_inner c)).2 ∅).

Definition ct_get_bytes (k : string) : Op world (option bytes) :=
  let! staged := op_gets (λ w : world, ct_staged w.2 !! k) in
  match staged with
  | Some staged => op_ret staged
  | None =>
      let! hit := on_cache (on_mirror (get_bytes k)) in
      match hit with
      | Some v => op_ret (Some v)
      | None =>
          let! warmed := on_cache (from_state cs_warmed) in
          if warmed : bool then op_ret None else on_tx (ot_get_bytes prefix epoch k)
      end
  end.

Definition ct_has (k : string) : Op world bool :=
  let! staged := op_gets (λ w : world, ct_staged w.2 !! k) in
  match staged with
  | Some staged => op_ret (bool_decide (is_Some staged))
  | None =>
      let! hit := on_cache (on_mirror (has k)) in
      if hit : bool then op_ret true
      else
        let! warmed := on_cache (from_state cs_warmed) in
        if warmed : bool then op_ret false else on_tx (ot_has prefix epoch k)
  end.

Definition ct_delete (k : string) : Op world bool :=
  let! staged := op_gets (λ w : world, ct_staged w.2 !! k) in
  match staged with
  | Some None => op_ret false
  | _ =>
      let! existed := on_tx (ot_delete prefix epoch k) in
      (if existed : bool then ct_stage k None else op_ret ()) ;; op_ret existed
  end.

Definition ct_set_bytes (k : string) (v : bytes) : Op world (option bytes) :=
  let! prev := ct_get_bytes k in
  on_tx (ot_put_bytes prefix epoch k v) ;;
  ct_stage k (Some v) ;; op_ret prev.

Definition ct_put_bytes (k : string) (v : bytes) : Op world () :=
  on_tx (ot_put_bytes prefix epoch k v) ;; ct_stage k (Some v).

Definition ct_gets_bytes (limit : option N) (dir : Direction) (c : cursor) :
    Op world (list KeyValue) :=
  let! staged := op_gets (λ w : world, ct_staged w.2) in
  let! warmed := on_cache (from_state cs_warmed) in
  let! rows := (if warmed : bool then on_cache (on_mirror (gets_bytes None dir c))
                else on_tx (ot_gets_bytes prefix epoch None dir c)) in
  op_ret (merge_staged rows staged dir c limit).

(** The committed records on the mirror. *)
Fixpoint mirror_staged (l : list row) : Op cached () :=
  match l with
  | [] => op_ret ()
  | (k, Some raw) :: l => mirror_put k raw ;; mirror_staged l
  | (k, None) :: l => let! _ := mirror_delete k in mirror_staged l
  end.

Definition ct_commit : Op world () :=
  let! staged := op_gets (λ w : world, ct_staged w.2) in
  try! r := on_tx (ot_commit prefix epoch session) in
  match r with
  | Err e => on_cache (note_fenced e) ;; op_throw e
  | Ok _ => on_cache (mirror_staged (bt_iter staged) ;; sync_after_write)
  end.

Definition ct_rollback : Op world () := on_tx ot_rollback.

#[export] Instance CachedTx_GetSet : GetSet world := {|
  get_bytes := ct_get_bytes;
  has := ct_has;
  delete := ct_delete;
  set_bytes := ct_set_bytes;
  put_bytes := ct_put_bytes;
  gets_bytes := ct_gets_bytes;
|}.

Definition CachedOxKvStore_Store :
    @Store cached world (CachedOxKvStore_GetSet prefix epoch session) CachedTx_GetSet := {|
  begin_tx c := Ok (ca_begin_tx c);
  commit := ct_commit;
  rollback := ct_rollback;
  tx_store := fst;
|}.
End tx.
