(* ===== verification/Builder.v ===== *)
(** The builder of the stores: [OxKvStoreBuilder] of [src/src/store/lsm/store.rs],
    over a storage and the counter of the generated session names; and what an
    opening with its probe comes to, when it is let finish and when it is
    stopped in the probe. *)

From stdpp Require Import options.
From S2P Require Import Prelude OrdMap Core Codec Hooks Snapshot Storage Json Ownership Manifest.
From S2P Require Import Blob Probe Wal Merge Sst SstSpec Cache Read LsmStore LsmPaths LsmSpec LsmInv.
From S2P Require Import LsmDurable LsmCompact LsmLife LsmRecover LsmSessions Reader Cached Traced.

(** ** The configuration *)

(** [inner] is whether a storage was set; the operations below run on it. *)
Record OxKvStoreBuilder := MkBuilder {
  ob_inner : bool;
  ob_prefix : ObjectPath;
  ob_skip_probe : bool;
  ob_session : option string;
  ob_assume_single_writer : bool;
}.

(** [OxKvStore::builder]. *)
Definition ox_builder : OxKvStoreBuilder := MkBuilder false "" false None false.

(** Also [with_object_store]: either way the storage is the one the operations run on. *)
Definition with_store (b : OxKvStoreBuilder) : OxKvStoreBuilder :=
  MkBuilder true (ob_prefix b) (ob_skip_probe b) (ob_session b) (ob_assume_single_writer b).
Definition with_prefix (prefix : ObjectPath) (b : OxKvStoreBuilder) : OxKvStoreBuilder :=
  MkBuilder (ob_inner b) prefix (ob_skip_probe b) (ob_session b) (ob_assume_single_writer b).
Definition with_session (session : string) (b : OxKvStoreBuilder) : OxKvStoreBuilder :=
  MkBuilder (ob_inner b) (ob_prefix b) (ob_skip_probe b) (Some session) (ob_assume_single_writer b).
Definition skip_probe (skip : bool) (b : OxKvStoreBuilder) : OxKvStoreBuilder :=
  MkBuilder (ob_inner b) (ob_prefix b) skip (ob_session b) (ob_assume_single_writer b).
Definition is_skip_probe (b : OxKvStoreBuilder) : bool := ob_skip_probe b.
Definition assume_single_writer (assume : bool) (b : OxKvStoreBuilder) : OxKvStoreBuilder :=
  MkBuilder (ob_inner b) (ob_prefix b) (ob_skip_probe b) (ob_session b) assume.

(** The cache of 256 MB, each file weighed by its bytes. *)
Definition default_sst_cache : LruCache string SstFile :=
  lru_new (256 * 1024 * 1024) (λ _ f, N.min (sst_size f) U32_MAX).

(** ** Building *)

Section build.
Context {W C : Type} `{StorageBackend W} `{Clock W} `{Json Manifest} `{Json SstFooter}
  `{Json OwnershipRecord} `{Digests} `{Json BlobPointer} `{Cache C string SstFile} `{Ch : Channel}.

(** The storage and [SESSION_CTR]. *)
Abbreviation process := (W * N)%type.

Definition in_storage {A} (m : Op W A) : Op process A := op_zoom fst (λ w s, (w, s.2)) m.

(** A store with the fields that the model's operations take as arguments. *)
Record Opened := MkOpened {
  op_epoch : N;
  op_session : string;
  op_store : OxKvStore W C;
}.

Definition require_store (b : OxKvStoreBuilder) : Op process () :=
  if ob_inner b then op_ret () else op_throw (Storage "OxKvStore requires a Storage via with_store()").

Definition session_name (b : OxKvStoreBuilder) : Op process string :=
  match ob_session b with
  | Some session => op_ret session
  | None =>
      let! n := op_gets snd in
      op_modify (λ s : process, (s.1, wrapping_inc n)) ;;
      op_ret ("sess-" +:+ pretty n)
  end.

(** [build_with_cache] with its first checks; the rest of it is the function of
    that name in the file of the store. *)
Definition builder_build_with_cache (b : OxKvStoreBuilder) (cache : C) : Op process Opened :=
  require_store b ;;
  (if is_skip_probe b then op_ret () else in_storage (probe_store (ob_prefix b))) ;;
  let! session := session_name b in
  let! opened := in_storage
    (build_with_cache (ob_prefix b) session true (ob_assume_single_writer b) cache) in
  op_ret (MkOpened opened.1 session opened.2).

(** Opens no epoch and runs no probe. *)
Definition build_reader_with_cache (b : OxKvStoreBuilder) (cache : C) : Op process (OxKvReader W C) :=
  require_store b ;; in_storage (rd_open (ob_prefix b) cache).

(** The mirror over the store, warmed before it is returned. *)
Definition build_cached_with_cache (b : OxKvStoreBuilder) (cache : C) :
    Op process (N * CachedOxKvStore W C) :=
  let! opened := builder_build_with_cache b cache in
  in_storage (λ _ : W,
    let '(r, s) := ca_open (ob_prefix b) (op_epoch opened) (op_store opened) in
    (res_map (pair (op_epoch opened)) r, (ox_io s).1.1)).
End build.
Arguments Opened W C {_}.

(** With the default cache. *)
Section defaults.
Context {W : Type} `{StorageBackend W} `{Clock W} `{Json Manifest} `{Json SstFooter}
  `{Json OwnershipRecord} `{Digests} `{Json BlobPointer} `{Ch : Channel}.

Definition build (b : OxKvStoreBuilder) : Op (W * N) (Opened W (LruCache string SstFile)) :=
  builder_build_with_cache b default_sst_cache.
Definition build_reader (b : OxKvStoreBuilder) : Op (W * N) (OxKvReader W (LruCache string SstFile)) :=
  build_reader_with_cache b default_sst_cache.
Definition build_cached (b : OxKvStoreBuilder) :
    Op (W * N) (N * CachedOxKvStore W (LruCache string SstFile)) :=
  build_cached_with_cache b default_sst_cache.
End defaults.

(** ** What an opening comes to *)

Section spec.
Context {W C : Type} `{ClockLaws W} `{!Unguarded W} `{JsonLaws Manifest} `{JsonLaws SstFooter}
  `{JsonLaws OwnershipRecord} `{Digests} `{JsonLaws BlobPointer}
  `{!Cache C string SstFile, !CacheLaws C string SstFile} `{Ch : Channel}.
Context (prefix : ObjectPath) (K : string → Prop) (U : bytes → Prop) `{!Workload prefix K U}.
Context `{!StorePaths W prefix, !Accepts W (probe_path prefix)}.

Lemma in_storage_eq {X A} (m : Op X A) x n r x' : m x = (r, x') → in_storage m (x, n) = (r, (x', n)).
Proof using Type. unfold in_storage, op_zoom. cbn [fst snd]. by intros ->. Qed.

(** The session that the builder opens, and the counter after it. *)
Definition named (b : OxKvStoreBuilder) (n : N) : string := default ("sess-" +:+ pretty n) (ob_session b).
Definition counted (b : OxKvStoreBuilder) (n : N) : N :=
  match ob_session b with Some _ => n | None => wrapping_inc n end.

Lemma session_name_eq {X} b (x : X) n : session_name b (x, n) = (Ok (named b n), (x, counted b n)).
Proof using Type. unfold session_name, named, counted. by destruct (ob_session b). Qed.

(** A storage that was set, and no canary where the probe is asked for: the
    store opens, or the backend has failed the probe. *)
Lemma build_opens b (cache : C) room epoch V w n :
  ob_inner b = true → ob_prefix b = prefix → recoverable prefix K U room epoch V w →
  (epoch + 1 < U64)%N → (room < U64)%N → cache_view cache = ∅ →
  let '(r, (w', n')) := builder_build_with_cache b cache (w, n) in
  match r with
  | Ok o => op_epoch o = (epoch + 1)%N ∧ op_session o = named b n ∧ n' = counted b n ∧
      sound prefix (epoch + 1) (named b n) K U room V (op_store o) ∧ ox_wal_buffer (op_store o) = []
  | Err _ => ob_skip_probe b = false ∧ n' = n ∧ off_canary prefix w w'
  end.
Proof using Type*.
  intros Hin Hp Hr Hep Hroom Hc. unfold builder_build_with_cache, require_store, is_skip_probe.
  rewrite Hin, Hp. pure_step.
  assert (∀ w', st_wf w' → st_objects w' = st_objects w →
    match (let! session := session_name b in
      let! opened := in_storage (build_with_cache prefix session true (ob_assume_single_writer b) cache) in
      op_ret (MkOpened opened.1 session opened.2)) (w', n) with
    | (Ok o, (_, n')) => op_epoch o = (epoch + 1)%N ∧ op_session o = named b n ∧ n' = counted b n ∧
        sound prefix (epoch + 1) (named b n) K U room V (op_store o) ∧ ox_wal_buffer (op_store o) = []
    | (Err _, _) => False
    end) as Hopen.
  { intros w' Hwf Ho. step (session_name_eq b w' n).
    destruct (open_sound prefix K U room epoch V (named b n) (ob_assume_single_writer b) cache w')
      as (s & w1 & Hopen & Hs & Hb & _); [|done..|].
    { apply recoverable_stands in Hr as [_ Hst]. apply recoverable_stands. by rewrite Ho. }
    by step (in_storage_eq _ _ (counted b n) _ _ Hopen). }
  apply recoverable_stands in Hr as [Hwf _]. destruct (ob_skip_probe b).
  - pure_step. specialize (Hopen w Hwf eq_refl). destruct (op_bind _ _ _) as [[o|e] [w' n']]; [exact Hopen|done].
  - destruct (probe_outcome prefix w Hwf) as (r & w1 & Hprobe & Hoff & Hsame & _).
    destruct r as [[]|e].
    + step (in_storage_eq _ _ n _ _ Hprobe). specialize (Hopen w1 (proj1 Hoff) (Hsame eq_refl)).
      destruct (op_bind _ _ _) as [[o|e] [w' n']]; [exact Hopen|done].
    + by rewrite (op_bind_err _ _ _ _ _ (in_storage_eq _ _ n _ _ Hprobe)).
Qed.

(** A canary stops every opening that probes. *)
Lemma canary_blocks b (cache : C) w n :
  ob_inner b = true → ob_prefix b = prefix → ob_skip_probe b = false → st_wf w →
  is_Some (st_objects w !! probe_path prefix) →
  ∃ msg w', builder_build_with_cache b cache (w, n) =
      (Err (Storage ("probe create failed: CAS conflict: " +:+ msg)), (w', n)) ∧
    st_wf w' ∧ st_objects w' = st_objects w.
Proof using Type*.
  intros Hin Hp Hs Hwf Hc. destruct (probe_outcome prefix w Hwf) as (r & w' & Hprobe & Hoff & _ & Hblock).
  destruct (Hblock Hc) as [Ho [msg ->]]. exists msg, w'. split; [|by split; [apply Hoff|]].
  unfold builder_build_with_cache, require_store, is_skip_probe. rewrite Hin, Hp, Hs. pure_step.
  by rewrite (op_bind_err _ _ _ _ _ (in_storage_eq _ _ n _ _ Hprobe)).
Qed.

(** Openings one after the other, on one storage. *)
Fixpoint run_builds (bs : list (OxKvStoreBuilder * C)) (s : W * N) : list (Result (Opened W C)) * (W * N) :=
  match bs with
  | [] => ([], s)
  | b :: bs =>
      let '(r, s1) := builder_build_with_cache b.1 b.2 s in
      let '(rs, s2) := run_builds bs s1 in (r :: rs, s2)
  end.

(** The probe of an opening, stopped when its first request has gone through. *)
Definition stopped_in_probe (w : W) : W :=
  let t := MkTraced w [] in stop_at 1 t (probe_store prefix t).2.

Lemma stopped_has_canary w :
  st_wf w → st_objects w !! probe_path prefix = None →
  let w1 := stopped_in_probe w in
  off_canary prefix w w1 ∧ is_Some (st_objects w1 !! probe_path prefix).
Proof using Type*.
  intros Hwf Hnone. destruct (canary_put prefix (as_bytes "probe") Create w Hwf) as (r & w1 & Hput & Hoff & Hr).
  destruct r as [out|e]; [|by destruct Hr as (_ & _ & [x Hx]); rewrite Hnone in Hx].
  destruct Hr as [Hc _]. set (L := traced_laws (λ _, True) [w1]).
  assert (Unguarded (H0 := L) (Traced W)) as HU by done.
  assert (Accepts (H0 := L) (Traced W) (probe_path prefix)) as HA by exact Accepts0.
  destruct (checks_outcome (H0 := L) prefix out (MkTraced w1 [w1])) as (r & t & Hrun & [(_ & new & Hd & _) _] & _).
  { split; [apply Hoff|]. by exists []. }
  { exact Hc. }
  assert (stopped_in_probe w = w1) as ->; [|by split].
  unfold stopped_in_probe, probe_store, op_bind, probe_step at 1, op_try at 1.
  cbn [st_put_opts traced_backend]. unfold recorded at 1. cbn [tr_world tr_disks]. rewrite Hput. cbn [op_ret app].
  rewrite Hrun. unfold stop_at. cbn [snd tr_disks]. by rewrite Hd.
Qed.

(** C38: An opening with its probe, which is the default, is a takeover of the map
    or nothing: on a storage that stands for [V] and has no canary, either the
    store opens under the next epoch and the given or generated session and
    stands for [V], or the backend has failed the probe, and then only the
    canary can be left behind.  But the probe does not clean up after one that
    was stopped: when a process stops after the first request of its probe,
    every later opening with a probe fails at its first request, in whatever
    number and order, and nothing ever changes again. *)
Theorem probed_open (b : OxKvStoreBuilder) (cache : C) (later : list (OxKvStoreBuilder * C))
    (room epoch n : N) (V : gmap string bytes) (w : W) :
  let probed b := ob_inner b = true ∧ ob_prefix b = prefix ∧ ob_skip_probe b = false in
  probed b → Forall (λ x, probed x.1) later → recoverable prefix K U room epoch V w →
  st_objects w !! probe_path prefix = None →
  (epoch + 1 < U64)%N → (room < U64)%N → cache_view cache = ∅ →
  (let '(r, (w', n')) := builder_build_with_cache b cache (w, n) in
   match r with
   | Ok o => op_epoch o = (epoch + 1)%N ∧ op_session o = named b n ∧ n' = counted b n ∧
       sound prefix (epoch + 1) (named b n) K U room V (op_store o)
   | Err _ => n' = n ∧ off_canary prefix w w'
   end) ∧
  let '(rs, (w', n')) := run_builds later (stopped_in_probe w, n) in
  Forall (λ r, ∃ msg, r = Err (Storage ("probe create failed: CAS conflict: " +:+ msg))) rs ∧
  length rs = length later ∧ n' = n ∧ st_objects w' = st_objects (stopped_in_probe w).
Proof using Type*.
  intros probed (Hin & Hp & Hs) Hl Hr Hnone Hep Hroom Hc. split.
  { pose proof (build_opens b cache room epoch V w n Hin Hp Hr Hep Hroom Hc) as Hb.
    destruct (builder_build_with_cache b cache (w, n)) as [[o|e] [w' n']]; [|by destruct Hb as (_ & ? & ?)].
    by destruct Hb as (? & ? & ? & ? & _). }
  apply recoverable_stands in Hr as [Hwf _].
  destruct (stopped_has_canary w Hwf Hnone) as [[Hwf1 _] Hc1]. revert Hwf1 Hc1.
  generalize (stopped_in_probe w). induction Hl as [|[b' cache'] later (Hin' & Hp' & Hs') _ IH];
    intros w1 Hwf1 Hc1; cbn [run_builds fst snd]; [done|].
  destruct (canary_blocks b' cache' w1 n Hin' Hp' Hs' Hwf1 Hc1) as (msg & w2 & -> & Hwf2 & Ho2).
  specialize (IH w2 Hwf2). rewrite Ho2 in IH. specialize (IH Hc1).
  destruct (run_builds later (w2, n)) as [rs [w' n']]. destruct IH as (Hrs & Hlen & Hn & Ho).
  split_and!; [constructor; [by exists msg|done]|cbn; by rewrite Hlen|done|by rewrite Ho].
Qed.
End spec.

Section witness.
Import Concrete.

Definition plain_builder : OxKvStoreBuilder := with_prefix "p" (with_store ox_builder).

Lemma probed_open_witness :
  (match builder_build_with_cache plain_builder empty_lru (mem_new, 7%N) with
   | (Ok o, (_, n')) => op_session o = "sess-7" ∧ n' = 8%N
   | _ => False
   end) ∧
  let '(rs, _) := run_builds [(plain_builder, empty_lru); (with_session "w" plain_builder, empty_lru)]
    (stopped_in_probe "p" mem_new, 7%N) in
  length rs = 2 ∧ Forall (λ r, ∃ msg, r = Err (Storage ("probe create failed: CAS conflict: " +:+ msg))) rs.
Proof.
  assert (recoverable "p" two_keys two_values 16 0 ∅ mem_new) as Hr.
  { apply empty_recoverable; [exact _|exact _|exact I|reflexivity|reflexivity]. }
  destruct (probed_open "p" two_keys two_values plain_builder empty_lru
    [(plain_builder, empty_lru); (with_session "w" plain_builder, empty_lru)] 16 0 7 ∅ mem_new)
    as [Hopen Hlater].
  - split_and!; reflexivity.
  - repeat apply Forall_cons_2; [..|apply Forall_nil_2]; split_and!; reflexivity.
  - exact Hr.
  - reflexivity.
  - reflexivity.
  - reflexivity.
  - reflexivity.
  - split.
    + assert (∃ o s, builder_build_with_cache plain_builder empty_lru (mem_new, 7%N) = (Ok o, s)) as (o & s & Heq)
        by (eexists _, _; vm_compute; reflexivity).
      rewrite Heq in *. destruct s as [w' n']. destruct Hopen as (_ & -> & -> & _). split; reflexivity.
    + destruct (run_builds _ _) as [rs [w' n']]. destruct Hlater as (Hrs & Hlen & _). split; [exact Hlen|exact Hrs].
Defined.
End witness.
