(* ===== verification/CachedSpec.v ===== *)
(** The RAM mirror over a sound core: warming makes it the map that the core
    stands for, every call keeps it so, and its reads are those of that map
    without touching the core. *)

From stdpp Require Import options.
From S2P Require Import Prelude OrdMap Core Codec Hooks Snapshot Storage Json Ownership Manifest.
From S2P Require Import Blob Probe Wal Merge Sst SstSpec Cache Read ReadSpec LsmStore LsmPaths.
From S2P Require Import BTree BTreeSpec SnapshotSpec LsmSpec LsmInv LsmDurable LsmCompact LsmLife LsmRecover.
From S2P Require Import LsmTx LsmSessions LsmTxSpec Cached.

(** A loop that gets closer to its end ends. *)
Lemma repeat_upto_ends {S X R} (step : X → Op S (X + R)) (I : nat → X → S → Prop) (Q : R → S → Prop) n x s i :
  (∀ i x s, I i x s →
    (∃ i' x' s', step x s = (Ok (inl x'), s') ∧ i' < i ∧ I i' x' s') ∨
    (∃ r s', step x s = (Ok (inr r), s') ∧ Q r s')) →
  I i x s →
  (∃ i' x' s', repeat_upto step n x s = (Ok (inl x'), s') ∧ i' + Pos.to_nat n ≤ i ∧ I i' x' s') ∨
  (∃ r s', repeat_upto step n x s = (Ok (inr r), s') ∧ Q r s').
Proof.
  intros Hstep. revert i x s. induction n as [n IH|n IH|]; intros i x s Hi; cbn [repeat_upto].
  - destruct (Hstep i x s Hi) as [(i1 & x1 & s1 & H1 & Hlt & Hi1)|(r & s' & H1 & Hq)];
      rewrite (op_bind_ok _ _ _ _ _ H1); [|right; exists r, s'; by split].
    destruct (IH i1 x1 s1 Hi1) as [(i2 & x2 & s2 & H2 & Hle & Hi2)|(r & s' & H2 & Hq)];
      rewrite (op_bind_ok _ _ _ _ _ H2); [|right; exists r, s'; by split].
    destruct (IH i2 x2 s2 Hi2) as [(i3 & x3 & s3 & H3 & Hle3 & Hi3)|Hr]; [left|by right].
    exists i3, x3, s3. split; [done|]. split; [lia|done].
  - destruct (IH i x s Hi) as [(i2 & x2 & s2 & H2 & Hle & Hi2)|(r & s' & H2 & Hq)];
      rewrite (op_bind_ok _ _ _ _ _ H2); [|right; exists r, s'; by split].
    destruct (IH i2 x2 s2 Hi2) as [(i3 & x3 & s3 & H3 & Hle3 & Hi3)|Hr]; [left|by right].
    exists i3, x3, s3. split; [done|]. split; [lia|done].
  - destruct (Hstep i x s Hi) as [(i1 & x1 & s1 & H1 & Hlt & Hi1)|Hr]; [left|by right].
    exists i1, x1, s1. split; [done|]. split; [lia|done].
Qed.

(** ** Pages *)

(** The scan has read the first [i] entries: what it reads next. *)
Section pages.
Context (V : gmap string bytes).
Abbreviation L := (bt_iter V).

Definition fresh (i : nat) : list (string * bytes) := take (match i with O => 256 | _ => 255 end) (drop i L).
Definition page (i : nat) : list (string * bytes) :=
  match i with O => [] | S j => take 1 (drop j L) end ++ fresh i.
Definition cursor_of (i : nat) : option string := fst <$> match i with O => None | S j => L !! j end.

Lemma page_scan i :
  i ≤ length L → scan_spec (Some SCAN_BATCH) Next (cursor_of i, None) V = to_kv <$> page i.
Proof using Type.
  intros Hi. unfold scan_spec, page, fresh, cursor_of. destruct i as [|j].
  - cbn [fmap option_fmap option_map]. by rewrite bt_range_full.
  - destruct (lookup_lt_is_Some_2 L j) as [[k v] Hj]; [lia|]. rewrite Hj. cbn [fmap option_fmap option_map fst].
    cbn [fst snd]. rewrite (bt_range_from V j k v Hj). cbn [take_limit limit_of fmap option_fmap option_map].
    change (N.to_nat SCAN_BATCH) with (1 + 255). by rewrite <-take_take_drop, drop_drop, Nat.add_1_r.
Qed.

Lemma page_length i : i ≤ length L → length (page i) = Nat.min 256 (length L - pred i).
Proof using Type.
  intros Hi. unfold page, fresh. rewrite length_app, length_take, length_drop.
  destruct i as [|j]; cbn [length pred]; [lia|]. rewrite length_take, length_drop. lia.
Qed.

Lemma fresh_rows_length i : i ≤ length L → i + length (fresh i) = pred i + length (page i).
Proof using Type.
  intros Hi. unfold page. rewrite length_app. destruct i as [|j]; [done|].
  rewrite length_take, length_drop. cbn [pred]. lia.
Qed.

Lemma take_fresh i : i ≤ length L → take (i + length (fresh i)) L = take i L ++ fresh i.
Proof using Type.
  intros Hi. rewrite <-take_take_drop. f_equal. unfold fresh.
  by rewrite length_take, <-take_take, firstn_all.
Qed.

Lemma page_end i :
  i ≤ length L → page i ≠ [] → fst <$> last (page i) = cursor_of (i + length (fresh i)).
Proof using Type.
  intros Hi Hne.
  assert (take (i + length (fresh i)) L = take (pred i) L ++ page i) as Ht.
  { rewrite take_fresh by done. unfold page. destruct i as [|j]; [done|].
    rewrite app_assoc. f_equal. cbn [pred]. by rewrite take_take_drop, Nat.add_1_r. }
  assert (0 < i + length (fresh i) ≤ length L) as Hpos.
  { pose proof (fresh_rows_length i Hi) as Hf. pose proof (page_length i Hi) as Hl.
    assert (length (page i) ≠ 0) by by destruct (page i). lia. }
  assert (last (page i) = last (take (i + length (fresh i)) L)) as ->.
  { rewrite Ht. destruct (page i) as [|x l] eqn:Hp using rev_ind; [done|].
    by rewrite app_assoc, !last_snoc. }
  rewrite last_lookup, length_take. unfold cursor_of.
  destruct (i + length (fresh i)) as [|n]; [lia|]. rewrite Nat.min_l by lia. cbn [pred].
  by rewrite lookup_take_lt by lia.
Qed.

Lemma page_full i : i ≤ length L → length (page i) < 256 → i + length (fresh i) = length L.
Proof using Type.
  intros Hi Hp. rewrite fresh_rows_length by done. rewrite page_length in * by done. lia.
Qed.

Lemma page_more i :
  i ≤ length L → 256 ≤ length (page i) → i < i + length (fresh i) ≤ length L.
Proof using Type.
  intros Hi Hp. rewrite fresh_rows_length by done. rewrite page_length in * by done. lia.
Qed.

Lemma page_empty i : i ≤ length L → page i = [] → i = length L.
Proof using Type. intros Hi Hp. pose proof (page_length i Hi) as Hl. rewrite Hp in Hl. cbn [length] in Hl. lia. Qed.

(** Only the first row of a page was read before. *)
Lemma fresh_new i kv : i ≤ length L → kv ∈ fresh i → cursor_of i ≠ Some kv.1.
Proof using Type.
  intros Hi Hin. unfold cursor_of. destruct i as [|j]; [done|].
  destruct (lookup_lt_is_Some_2 L j) as [[k v] Hj]; [lia|]. rewrite Hj. cbn. intros [= ->].
  unfold fresh in Hin. apply elem_of_take in Hin as (n & Hn & _). rewrite lookup_drop in Hn.
  pose proof (bt_iter_NoDup_keys V) as Hnd.
  assert (j = S j + n); [|lia]. eapply (NoDup_lookup L.*1); [done|..]; rewrite list_lookup_fmap.
  - by rewrite Hj.
  - by rewrite Hn.
Qed.
End pages.

Section cached.
Context {W C : Type} `{ClockLaws W} `{JsonLaws Manifest} `{JsonLaws SstFooter}
  `{JsonLaws OwnershipRecord} `{Digests} `{JsonLaws BlobPointer}
  `{!Cache C string SstFile, !CacheLaws C string SstFile} `{Ch : Channel}.
Context (prefix : ObjectPath) (epoch : N) (session : string) (Hep : (epoch < U64)%N).
Context `{!StorePaths W prefix, !Unguarded W}.
Context (K : string → Prop) (U : bytes → Prop) `{!Workload prefix K U}.
Abbreviation writer := (OxKvStore W C).
Abbreviation cached := (CachedOxKvStore W C).
Abbreviation sound := (sound prefix epoch session K U).

(** ** The two halves *)

Definition quiet (m : BTreeStore) : Prop := validators (hooks m) = [].

Lemma on_inner_eq {A} (op : Op writer A) (c : cached) r i :
  op (ca_inner c) = (r, i) → on_inner op c = (r, set_inner i c).
Proof using Type. unfold on_inner, op_zoom. by intros ->. Qed.

Lemma on_mirror_eq {A} (op : Op BTreeStore A) (c : cached) r m :
  op (ca_mirror c) = (r, m) → on_mirror op c = (r, set_mirror m c).
Proof using Type. unfold on_mirror, op_zoom. by intros ->. Qed.

Lemma mirror_put_ok k v (c : cached) :
  quiet (ca_mirror c) →
  ∃ m, mirror_put k v c = (Ok (), set_mirror m c) ∧ map m = <[k := v]> (map (ca_mirror c)) ∧ quiet m.
Proof using Type.
  intros Hq. unfold quiet in *. eexists. split.
  - apply on_mirror_eq. cbn [put_bytes BTreeStore_GetSet put_bytes_default]. unfold put_bytes_default.
    unfold op_bind. rewrite btree_set_bytes_eq. unfold verdict. rewrite Hq. reflexivity.
  - done.
Qed.

Lemma mirror_delete_ok k (c : cached) :
  quiet (ca_mirror c) →
  ∃ b m, mirror_delete k c = (Ok b, set_mirror m c) ∧ map m = base.delete k (map (ca_mirror c)) ∧ quiet m.
Proof using Type.
  intros Hq. unfold quiet in *. pose proof (btree_delete_eq (ca_mirror c) k) as Hd.
  assert (∃ b m, btree_delete k (ca_mirror c) = (Ok b, m) ∧ map m = base.delete k (map (ca_mirror c)) ∧
    validators (hooks m) = []) as (b & m & Heq & Hm).
  { rewrite Hd. by destruct (map (ca_mirror c) !! k); eexists _, _. }
  exists b, m. split; [by apply on_mirror_eq|done].
Qed.

Lemma mirror_get_ok k (c : cached) :
  on_mirror (get_bytes k) c = (Ok (map (ca_mirror c) !! k), c).
Proof using Type. destruct c. done. Qed.

Lemma mirror_has_ok k (c : cached) :
  on_mirror (has k) c = (Ok (bool_decide (is_Some (map (ca_mirror c) !! k))), c).
Proof using Type. destruct c. done. Qed.

Lemma mirror_gets_ok limit dir cur (c : cached) :
  on_mirror (gets_bytes limit dir cur) c = (Ok (scan_spec limit dir cur (map (ca_mirror c))), c).
Proof using Type.
  etrans; [exact (on_mirror_eq _ _ _ _ (btree_gets_bytes_spec limit dir cur (ca_mirror c)))|]. by destruct c.
Qed.

(** Two cores with the same objects. *)
Definition same_disk (i i' : writer) : Prop :=
  ∃ w, i' = set_disk w i ∧ st_wf w ∧ st_objects w = st_objects (disk i).

Lemma set_disk_twice w w' (i : writer) : set_disk w' (set_disk w i) = set_disk w' i.
Proof using Type. done. Qed.

Lemma same_disk_trans i i' i'' : same_disk i i' → same_disk i' i'' → same_disk i i''.
Proof using Type.
  intros (w & -> & Hw & Ho) (w' & -> & Hw' & Ho'). exists w'. rewrite set_disk_twice.
  split; [done|]. split; [done|]. by rewrite Ho'.
Qed.

Lemma same_disk_refl i : st_wf (disk i) → same_disk i i.
Proof using Type.
  intros Hwf. exists (disk i). split; [|done]. unfold set_disk, disk. by destruct i as [[[? ?] ?]].
Qed.

Lemma ca_now_ok (c : cached) :
  st_wf (disk (ca_inner c)) →
  ∃ t i, ca_now c = (Ok t, set_inner i c) ∧ same_disk (ca_inner c) i ∧ st_wf (disk i).
Proof using Type*.
  intros Hwf. destruct (now_millis_law (disk (ca_inner c)) Hwf) as (t & w & Hnow & Ho & Hwf').
  exists t, (set_disk w (ca_inner c)). split; [|split; [by exists w|done]].
  apply on_inner_eq. by apply on_io_disk.
Qed.

Lemma observe_ok m (c : cached) :
  st_wf (disk (ca_inner c)) →
  ∃ t i, observe m c = (Ok (), set_state (observe_manifest t m (ca_state c)) (set_inner i c)) ∧
    same_disk (ca_inner c) i ∧ st_wf (disk i).
Proof using Type*.
  intros Hwf. destruct (ca_now_ok c Hwf) as (t & i & Hnow & Hs). exists t, i. split; [|done].
  unfold observe. by step Hnow.
Qed.

(** A post-write sync changes what the state records, and nothing else. *)
Lemma sync_ok (c : cached) :
  st_wf (disk (ca_inner c)) →
  ∃ s i, sync_after_write c = (Ok (), set_state s (set_inner i c)) ∧ same_disk (ca_inner c) i ∧
    cs_warmed s = cs_warmed (ca_state c) ∧
    (cs_poisoned (ca_state c) = None → cs_poisoned s = None).
Proof using Type*.
  intros Hwf. unfold sync_after_write. destruct (ca_now_ok c Hwf) as (t & i & Hnow & Hs & Hwf').
  step Hnow. pure_step. destruct (get_cached _ _ _) as [[m tag]|].
  - destruct (observe_ok m (set_inner i c) Hwf') as (t' & i' & Ho & Hs' & _).
    eexists _, i'. split; [exact Ho|]. split; [by eapply same_disk_trans|done].
  - exists (ca_state c), i. by split.
Qed.

(** ** Warming *)

Section warm.
Context (room : N) (V : gmap string bytes) (m : Manifest) (etag : string).
Context (logs : list (string * list row)) (files : list File) (h : HookState).
Abbreviation L := (bt_iter V).

(** The core while the mirror warms: reads leave the objects as they are. *)
Record core (i : writer) : Prop := {
  co_sound : sound room V i;
  co_at : holds_at prefix epoch session K U room V i m etag logs files;
  co_buffer : ox_wal_buffer i = [];
  co_hooks : ox_hooks i = h;
}.

Lemma core_io i io :
  core i → io_ok prefix epoch session K U (ox_wal_seq i) (ox_sst_seq i) m etag logs files io →
  core (set_io io i).
Proof using All.
  intros [Hs Hat Hb Hh] Hio. split; [|by destruct Hat|done..].
  apply sound_io; [done..|]. by eapply holds_io.
Qed.

Lemma core_disk i i' : core i → same_disk i i' → core i'.
Proof using All.
  intros Hc (w & -> & Hwf & Ho). apply core_io; [done|]. pose proof Hc as [_ [Hio _ _ _ _ _ _] _ _].
  unfold disk in *. destruct (ox_io i) as [[w0 c] k]. by eapply io_same.
Qed.

Lemma core_wf i : core i → st_wf (disk i).
Proof using All. intros [_ [[_ [Hwf _] _ _ _ _] _ _ _ _ _ _] _ _]. exact Hwf. Qed.

(** *** Filling *)

Lemma fill_rows cursor l applied (c : cached) :
  quiet (ca_mirror c) → (∀ kv, kv ∈ l → cursor ≠ Some kv.1) →
  ∃ m', fill_page cursor (to_kv <$> l) applied c = (Ok (applied + N.of_nat (length l))%N,
      set_mirror m' (set_state (set_scanned (cs_scanned_keys (ca_state c) ∪ list_to_set l.*1) (ca_state c)) c)) ∧
    map m' = insert_all l (map (ca_mirror c)) ∧ quiet m'.
Proof using All.
  revert applied c. induction l as [|[k v] l IH]; intros applied c Hq Hl.
  { exists (ca_mirror c). split; [|done]. cbn. rewrite (right_id_L ∅ (∪)), N.add_0_r.
    by destruct c as [? ? []]. }
  cbn [fmap list_fmap fill_page to_kv key value fst snd].
  rewrite bool_decide_eq_false_2 by (apply (Hl (k, v)); by left).
  unfold scan_key, on_state. pure_step.
  set (c1 := set_state _ c).
  destruct (mirror_put_ok k v c1 Hq) as (m1 & Hp & Hm1 & Hq1). step Hp.
  destruct (IH (applied + 1)%N (set_mirror m1 c1) Hq1) as (m' & Hf & Hm' & Hq').
  { intros kv Hkv. apply Hl. by right. }
  exists m'. rewrite Hf. split; [|split; [|done]].
  - f_equal; [f_equal; cbn [length]; lia|]. unfold c1. cbn. unfold set_mirror, set_state, set_scanned, set_warm.
    cbn. do 2 f_equal. set_solver.
  - rewrite Hm'. cbn [set_mirror ca_mirror]. by rewrite Hm1.
Qed.
(** *** The logs over the scan *)

(** What the mirror and the scan know of a map. *)
Definition knows (M : gmap string bytes) (c : cached) : Prop :=
  quiet (ca_mirror c) ∧ cs_scanned_keys (ca_state c) = dom M ∧ M ⊆ map (ca_mirror c).

(** A step on the mirror and on what the scan saw; [c'] has the core of [c]. *)
Definition beside (c c' : cached) : Prop :=
  ca_inner c' = ca_inner c ∧ cs_warmed (ca_state c') = cs_warmed (ca_state c) ∧
  cs_warm_cursor (ca_state c') = cs_warm_cursor (ca_state c) ∧
  cs_poisoned (ca_state c') = cs_poisoned (ca_state c).

Lemma overlay_rows_ok rows M (c : cached) :
  knows M c →
  ∃ c', overlay_rows rows c = (Ok (), c') ∧ knows (apply_live rows M) c' ∧ beside c c'.
Proof using All.
  revert M c. induction rows as [|[k [v|]] rows IH]; intros M c (Hq & Hs & Hsub); [by exists c|..];
    cbn [overlay_rows].
  - destruct (mirror_put_ok k v c Hq) as (m1 & Hp & Hm1 & Hq1). step Hp.
    unfold scan_key, on_state. pure_step. set (c1 := set_state _ _).
    destruct (IH (<[k := v]> M) c1) as (c' & Ho & Hk & Hb); [|by exists c'].
    split; [done|]. unfold c1. cbn. rewrite Hs, dom_insert_L. split; [done|]. rewrite Hm1.
    by apply insert_mono.
  - destruct (mirror_delete_ok k c Hq) as (b & m1 & Hp & Hm1 & Hq1). step Hp.
    unfold on_state. pure_step. set (c1 := set_state _ _).
    destruct (IH (base.delete k M) c1) as (c' & Ho & Hk & Hb); [|by exists c'].
    split; [done|]. unfold c1. cbn. rewrite Hs, dom_delete_L. split; [done|]. rewrite Hm1.
    by apply delete_mono.
Qed.

Lemma get_wal_ok l (c : cached) :
  core (ca_inner c) → l ∈ logs →
  ∃ i, get_wal l.1 c = (Ok (Some l.2), set_inner i c) ∧ core i.
Proof using All.
  intros Hc Hl. pose proof Hc as [_ [Hio _ _ _ _ _ _] _ _]. pose proof Hio as [Hd [Hwf _] _ _ _ _].
  destruct (listed_log _ _ _ _ _ _ _ _ _ Hd l Hl) as (Hu & (tag & Ho) & _).
  destruct (st_get_law l.1 (disk (ca_inner c)) Hwf (st_known _ _ Hwf (mk_is_Some _ _ Ho))) as (r & w & Hg & Ho' & Hwf' & Hr).
  unfold disk in Hr. rewrite Ho in Hr. destruct Hr as [ver ->].
  exists (set_disk w (ca_inner c)). split; [|eapply core_disk; [done|by exists w]].
  unfold get_wal, op_try. rewrite (on_inner_eq _ _ _ _ (on_io_disk _ _ _ _ Hg)). cbn [go_bytes].
  rewrite decode_wal_frames by by apply (use_ops_ok prefix K U). done.
Qed.

Lemma overlay_wals_ok ls M (c : cached) :
  core (ca_inner c) → (∀ l, l ∈ ls → l ∈ logs) → knows M c →
  ∃ c', overlay_wals ls.*1 c = (Ok (), c') ∧ knows (apply_live (mjoin ls.*2) M) c' ∧
    core (ca_inner c') ∧ cs_warmed (ca_state c') = cs_warmed (ca_state c).
Proof using All.
  revert M c. induction ls as [|l ls IH]; intros M c Hc Hin Hk; [by exists c|].
  cbn [fmap list_fmap overlay_wals]. destruct (get_wal_ok l c Hc) as (i & Hg & Hi); [apply Hin; by left|].
  step Hg. destruct (overlay_rows_ok l.2 M (set_inner i c) Hk) as (c1 & Ho & Hk1 & Hb1).
  step Ho. destruct Hb1 as (Hi1 & Hw1 & _).
  destruct (IH (apply_live l.2 M) c1) as (c' & Ho' & Hk' & Hc' & Hw').
  - by rewrite Hi1.
  - intros l' Hl'. apply Hin. by right.
  - done.
  - exists c'. split; [done|]. split; [|split; [done|by rewrite Hw', Hw1]].
    cbn [mjoin list_join]. unfold apply_live in *. by rewrite foldl_app.
Qed.

(** The logs say nothing new. *)
Lemma logs_covered : (∃ i, core i) → apply_live (mjoin logs.*2) V = V.
Proof using All.
  intros (i & [_ [_ _ _ _ Hlogged _ _] Hb _]). rewrite Hb in Hlogged. apply map_eq. intros k.
  rewrite (view_apply (mjoin logs.*2) V (apply_rows (mjoin logs.*2) ∅) files).
  - rewrite Hlogged, app_nil_r. unfold view. rewrite apply_rows_lookup.
    by destruct (apply_rows (mjoin logs.*2) ∅ !! k).
  - intros k'. by rewrite Hlogged, app_nil_r.
Qed.
(** *** Ending *)

Lemma drop_unscanned_ok scanned current (c : cached) :
  quiet (ca_mirror c) →
  ∃ m', drop_unscanned scanned current c = (Ok (), set_mirror m' c) ∧ quiet m' ∧
    ∀ k, map m' !! k =
      if decide (k ∈ key <$> current ∧ k ∉ scanned) then None else map (ca_mirror c) !! k.
Proof using All.
  revert c. induction current as [|kv current IH]; intros c Hq.
  { exists (ca_mirror c). split; [by destruct c|]. split; [done|]. intros k.
    rewrite decide_False; [done|]. by intros [Hk%elem_of_nil _]. }
  cbn [drop_unscanned]. case_bool_decide as Hin.
  - pure_step. destruct (IH c Hq) as (m' & Hd & Hq' & Hm'). exists m'. split; [done|]. split; [done|].
    intros k. rewrite Hm'. do 2 case_decide; try done; exfalso; set_solver.
  - destruct (mirror_delete_ok (key kv) c Hq) as (b & m1 & Hp & Hm1 & Hq1).
    assert ((let! _ := mirror_delete (key kv) in op_ret ()) c = (Ok (), set_mirror m1 c)) as Hp'
      by by step Hp.
    step Hp'.
    destruct (IH (set_mirror m1 c) Hq1) as (m' & Hd & Hq' & Hm'). exists m'. split; [done|].
    split; [done|]. intros k. rewrite Hm'. cbn [set_mirror ca_mirror]. rewrite Hm1.
    destruct (decide (k = key kv)) as [->|Hne].
    + rewrite lookup_delete_eq. do 2 case_decide; try done; exfalso; set_solver.
    + rewrite lookup_delete_ne by done. do 2 case_decide; try done; exfalso; set_solver.
Qed.

Definition warmed_up (c : cached) : Prop :=
  core (ca_inner c) ∧ quiet (ca_mirror c) ∧ map (ca_mirror c) = V ∧
  cs_warmed (ca_state c) = true ∧ cs_poisoned (ca_state c) = None.

Lemma finish_ok (c : cached) :
  core (ca_inner c) → knows V c → ∃ c', finish_warm m c = (Ok (), c') ∧ warmed_up c'.
Proof using All.
  intros Hc Hk. unfold finish_warm. pose proof Hc as [_ [Hio _ _ _ _ _ _] _ _].
  rewrite (io_wal _ _ _ _ _ _ _ _ _ _ _ _ Hio).
  destruct (overlay_wals_ok logs V c Hc) as (c1 & Ho & (Hq1 & Hs1 & Hsub1) & Hc1 & _); [done..|].
  rewrite logs_covered in Hs1, Hsub1 by by exists (ca_inner c).
  step Ho. pure_step. unfold on_state at 1. pure_step. set (c2 := set_state _ c1).
  step (mirror_gets_ok None Next (None, None) c2). rewrite Hs1.
  destruct (drop_unscanned_ok (dom V) (scan_spec None Next (None, None) (map (ca_mirror c2))) c2 Hq1)
    as (m3 & Hd & Hq3 & Hm3).
  step Hd. set (c3 := set_mirror m3 c2).
  destruct (observe_ok m c3) as (t & i & Hobs & Hsame & _); [by apply (core_wf (ca_inner c1))|].
  step Hobs. eexists. split; [reflexivity|].
  split; [by apply (core_disk (ca_inner c1))|]. split; [exact Hq3|]. split; [|done].
  cbn. apply map_eq. intros k. rewrite Hm3. unfold scan_spec. cbn [take_limit limit_of fmap option_fmap option_map fst snd].
  rewrite bt_range_full. case_decide as Hx.
  - destruct Hx as [_ Hx]. symmetry. by apply not_elem_of_dom.
  - destruct (V !! k) as [v|] eqn:HV.
    + by apply (lookup_weaken _ _ _ _ HV).
    + destruct (map (ca_mirror c2) !! k) as [v|] eqn:Hmk; [|done]. exfalso. apply Hx. split.
      * apply list_elem_of_fmap. exists (KV k v). split; [done|].
        apply (list_elem_of_fmap_2 to_kv _ (k, v)). by apply elem_of_bt_iter.
      * by apply not_elem_of_dom.
Qed.

(** *** The scan *)

Record scanning (i : nat) (c : cached) : Prop := {
  sc_core : core (ca_inner c);
  sc_quiet : quiet (ca_mirror c);
  sc_warmed : cs_warmed (ca_state c) = false;
  sc_cursor : cs_warm_cursor (ca_state c) = cursor_of V i;
  sc_scanned : cs_scanned_keys (ca_state c) = list_to_set (take i L).*1;
  sc_mirror k v : (k, v) ∈ take i L → map (ca_mirror c) !! k = Some v;
  sc_bound : i ≤ length L;
}.

Lemma scanned_all c : scanning (length L) c → knows V c.
Proof using All.
  intros [_ Hq _ _ Hs Hm _]. rewrite firstn_all in *. split; [done|]. split.
  - rewrite Hs. apply set_eq. intros k. rewrite elem_of_list_to_set, elem_of_dom. split.
    + intros ([k' v] & -> & Hin)%list_elem_of_fmap. apply elem_of_bt_iter in Hin. by exists v.
    + intros [v Hv]. apply (list_elem_of_fmap_2 fst L (k, v)). by apply elem_of_bt_iter.
  - apply map_subseteq_spec. intros k v Hv. apply Hm. by apply elem_of_bt_iter.
Qed.

(** The row of the cursor is skipped. *)
Lemma fill_fresh i applied (c : cached) :
  i ≤ length L →
  fill_page (cursor_of V i) (to_kv <$> page V i) applied c =
    fill_page (cursor_of V i) (to_kv <$> fresh V i) applied c.
Proof using All.
  intros Hi. unfold page. destruct i as [|j]; [done|].
  destruct (lookup_lt_is_Some_2 L j) as [kv Hj]; [lia|].
  rewrite (drop_S _ _ _ Hj). cbn [take app fmap list_fmap fill_page to_kv key].
  rewrite bool_decide_eq_true_2; [done|]. unfold cursor_of. by rewrite Hj.
Qed.

(** The state once a page is in. *)
Lemma scanning_next i (c : cached) m' :
  scanning i c → page V i ≠ [] → quiet m' → map m' = insert_all (fresh V i) (map (ca_mirror c)) →
  let c' := set_mirror m' (set_state (set_scanned
    (cs_scanned_keys (ca_state c) ∪ list_to_set (fresh V i).*1) (ca_state c)) c) in
  scanning (i + length (fresh V i))
    (set_state (set_warm (cs_warmed (ca_state c')) (fst <$> last (page V i)) (cs_scanned_keys (ca_state c'))
      (ca_state c')) c').
Proof using All.
  intros [Hc Hq Hw Hcur Hs Hm Hi] Hne Hq' Hm' c'. split; try done; cbn.
  - by apply page_end.
  - by rewrite take_fresh, fmap_app, list_to_set_app_L, Hs by done.
  - intros k v. rewrite take_fresh by done. rewrite Hm'. intros Hin.
    assert (NoDup (take i L ++ fresh V i).*1) as Hnd.
    { pose proof (bt_iter_NoDup_keys V) as Hall.
      rewrite <-(take_drop (i + length (fresh V i)) L), fmap_app in Hall.
      apply NoDup_app in Hall as [Hall _]. by rewrite take_fresh in Hall. }
    rewrite fmap_app in Hnd. apply NoDup_app in Hnd as (_ & Hd & Hnd).
    apply elem_of_app in Hin as [Hin|Hin]; [|by apply insert_all_in].
    rewrite insert_all_notin; [by apply Hm|]. apply Hd. by apply (list_elem_of_fmap_2 fst _ (k, v)).
  - pose proof (fresh_rows_length V i Hi) as Hf. pose proof (page_length V i Hi) as Hp. lia.
Qed.

Lemma warm_page_ok i applied (c : cached) :
  scanning i c →
  (∃ i' applied' c', warm_page prefix epoch m applied c = (Ok (inl applied'), c') ∧
    i < i' ∧ scanning i' c') ∨
  (∃ r c', warm_page prefix epoch m applied c = (Ok (inr r), c') ∧ r.1 = true ∧ warmed_up c').
Proof using All.
  intros Hsc. pose proof Hsc as [Hc Hq Hw Hcur Hs Hm Hi]. unfold warm_page. pure_step. rewrite Hcur.
  destruct (gets_at prefix epoch session Hep K U room V (Some SCAN_BATCH) Next (cursor_of V i, None)
    (ca_inner c) m etag logs files (co_at _ Hc)) as (io & Hg & Hio).
  apply (on_inner_eq _ c) in Hg. step Hg. rewrite page_scan, fmap_last by done.
  set (c1 := set_inner (set_io io (ca_inner c)) c).
  assert (scanning i c1) as Hsc1 by (split; try done; by apply core_io).
  destruct (last (page V i)) as [kv|] eqn:Hlast; cbn [fmap option_fmap option_map].
  2: { right. apply last_None in Hlast. rewrite (page_empty V i Hi Hlast) in Hsc1.
    destruct (finish_ok c1 (sc_core _ _ Hsc1) (scanned_all _ Hsc1)) as (c' & Hf & Hw').
    exists (true, applied), c'. by step Hf. }
  assert (page V i ≠ []) as Hne by (intros Hp; by rewrite Hp in Hlast).
  destruct (fill_rows (cursor_of V i) (fresh V i) applied c1 Hq) as (m' & Hf & Hm' & Hq').
  { intros kv' Hkv'. by apply fresh_new. }
  rewrite <-fill_fresh in Hf by done. step Hf. unfold on_state. pure_step.
  pose proof (scanning_next i c1 m' Hsc1 Hne Hq' Hm') as Hsc2. cbv zeta in Hsc2.
  rewrite Hlast in Hsc2. cbn [fmap option_fmap option_map fst] in Hsc2.
  change (key (to_kv kv)) with kv.1. rewrite length_fmap.
  match goal with |- context [set_state _ ?c2] => set (c3 := c2) in * end.
  destruct (N.ltb_spec (N.of_nat (length (page V i))) SCAN_BATCH) as [Hlt|Hge]; unfold SCAN_BATCH in *.
  - right. rewrite (page_full V i) in Hsc2 by (done || lia).
    destruct (finish_ok _ (sc_core _ _ Hsc2) (scanned_all _ Hsc2)) as (c' & Hfin & Hw').
    eexists _, c'. step Hfin. by split.
  - left. destruct (page_more V i Hi) as [Hlt _]; [lia|].
    eexists _, _, _. split; [reflexivity|]. by split.
Qed.

(** A scan from the start ends: every full page gets further. *)
Lemma warm_pages_ok n (c : cached) :
  scanning 0 c → length L < Pos.to_nat n →
  ∃ k c', warm_pages prefix epoch n c = (Ok (true, k), c') ∧ warmed_up c'.
Proof using All.
  intros Hsc Hn. pose proof Hsc as [Hc Hq Hw Hcur Hs Hm Hi]. unfold warm_pages. pure_step. rewrite Hw.
  pose proof (co_at _ Hc) as [Hio _ _ _ _ _ _].
  destruct (load_fresh_reads prefix epoch session K U Hep _ _ _ _ _ _ (ca_inner c) Hio)
    as (io & Hload & Hio' & _).
  step (on_inner_eq _ c _ _ Hload). cbn [fst]. set (c1 := set_inner _ c).
  assert (scanning 0 c1) as Hsc1 by (split; try done; by apply core_io).
  destruct (repeat_upto_ends (warm_page prefix epoch m)
    (λ i _ c, ∃ p, scanning p c ∧ i = length L - p) (λ r c', r.1 = true ∧ warmed_up c') n 0%N c1 (length L))
    as [(i & x & c' & _ & Hle & _)|([b k] & c' & Hr & Hb & Hw')].
  - intros i x c2 (p & Hp & ->).
    destruct (warm_page_ok p x c2 Hp) as [(p' & x' & c3 & Hst & Hlt & Hp')|Hend]; [left|by right].
    pose proof (sc_bound _ _ Hp') as Hb. exists (length L - p'), x', c3. split; [done|].
    split; [lia|by exists p'].
  - exists 0. split; [done|lia].
  - lia.
  - step Hr. cbn in Hb. subst b. by exists k, c'.
Qed.

Lemma warm_ok (c : cached) :
  core (ca_inner c) → quiet (ca_mirror c) → (N.of_nat (size V) < U32_MAX)%N →
  ∃ k c', warm prefix epoch c = (Ok k, c') ∧ warmed_up c'.
Proof using All.
  intros Hc Hq Hsize. unfold warm, on_state. pure_step. set (c0 := set_state _ c).
  assert (scanning 0 c0) as Hsc.
  { split; try done; [|lia]. by intros k v ?%elem_of_nil. }
  destruct (warm_pages_ok 4294967295 c0 Hsc) as (k & c' & Hw & Hup).
  { assert (length L = size V) as ->; [|unfold U32_MAX in Hsize; lia].
    unfold bt_iter. by rewrite merge_sort_Permutation, length_map_to_list. }
  cbn [warm_rounds]. step Hw. cbn [fst snd]. by exists (0 + k)%N, c'.
Qed.
End warm.

(** ** Calls *)

(** The mirror holds nothing but what the core stands for, and once it is warmed
    all of it; nothing is staged, and no write was fenced. *)
Record mirrors (room : N) (V : gmap string bytes) (c : cached) : Prop := {
  mi_core : sound room V (ca_inner c);
  mi_buffer : ox_wal_buffer (ca_inner c) = [];
  mi_quiet : quiet (ca_mirror c);
  mi_below : map (ca_mirror c) ⊆ V;
  mi_full : cs_warmed (ca_state c) = true → map (ca_mirror c) = V;
  mi_clean : cs_poisoned (ca_state c) = None;
}.

Lemma sound_wf room V i : sound room V i → st_wf (disk i).
Proof using Type. intros [(m & etag & logs & files & [[_ [Hwf _] _ _ _ _] _ _ _ _ _ _]) _ _ _]. exact Hwf. Qed.

Lemma sound_same room V i i' : sound room V i → same_disk i i' → sound room V i'.
Proof using Type*. intros Hs (w & -> & Hwf & Ho). by apply sound_read. Qed.

(** The end of a write: the mirror follows, and the state is synced. *)
Lemma synced room V (c : cached) :
  mirrors room V c →
  ∃ c', sync_after_write c = (Ok (), c') ∧ mirrors room V c' ∧ ox_hooks (ca_inner c') = ox_hooks (ca_inner c) ∧
    cs_warmed (ca_state c') = cs_warmed (ca_state c).
Proof using Type*.
  intros [Hs Hb Hq Hsub Hfull Hp].
  destruct (sync_ok c (sound_wf _ _ _ Hs)) as (s & i & Hsync & Hsame & Hw & Hpo).
  eexists. split; [exact Hsync|]. pose proof (sound_same _ _ _ _ Hs Hsame) as Hs'.
  destruct Hsame as (w & -> & _ & _). split; [|done].
  split; cbn; try done; [by rewrite Hw|by apply Hpo].
Qed.

(** Lowering the room, and the core after a read. *)
Lemma mirrors_read room room' V (c : cached) io :
  mirrors room V c → holds prefix epoch session K U room V (set_io io (ca_inner c)) → (room' ≤ room)%N →
  mirrors room' V (set_inner (set_io io (ca_inner c)) c).
Proof using Type*.
  intros [Hs Hb Hq Hsub Hfull Hp] Hh Hle. split; try done.
  eapply sound_less; [done..|by apply sound_io|done].
Qed.

Lemma mirrors_less room room' V (c : cached) :
  mirrors room V c → (room' ≤ room)%N → mirrors room' V c.
Proof using Type*. intros [Hs ? ? ? ? ?] Hle. split; try done. by eapply sound_less. Qed.

(** Accepted writes, on both halves. *)
Lemma mirror_written room V V' k v (c : cached) i :
  mirrors (room + 16) V c → sound room V' i → ox_wal_buffer i = [] →
  V' = match v with Some v => <[k := v]> V | None => base.delete k V end →
  let c1 := set_inner i c in
  ∃ c', ((match v with Some v => mirror_put k v | None => let! _ := mirror_delete k in op_ret () end) ;;
      sync_after_write) c1 = (Ok (), c') ∧
    mirrors room V' c' ∧ ox_hooks (ca_inner c') = ox_hooks i ∧
    cs_warmed (ca_state c') = cs_warmed (ca_state c).
Proof using Type*.
  intros [_ _ Hq Hsub Hfull Hp] Hs Hb HV c1.
  assert (∃ m', (match v with Some v => mirror_put k v | None => let! _ := mirror_delete k in op_ret () end) c1 =
      (Ok (), set_mirror m' c1) ∧ quiet m' ∧
    map m' = match v with Some v => <[k := v]> (map (ca_mirror c)) | None => base.delete k (map (ca_mirror c)) end)
    as (m' & Hm & Hq' & Hmap).
  { destruct v as [v|].
    - destruct (mirror_put_ok k v c1 Hq) as (m' & ? & ? & ?). by exists m'.
    - destruct (mirror_delete_ok k c1 Hq) as (b & m' & Hd & ? & ?). exists m'. by step Hd. }
  step Hm. destruct (synced room V' (set_mirror m' c1)) as (c' & Hsync & Hmi & Hh & Hw); [|by exists c'].
  subst V'. split; try done; cbn; rewrite Hmap.
  - destruct v; [by apply insert_mono|by apply delete_mono].
  - intros Hwarm. by rewrite (Hfull Hwarm).
Qed.

(** How the reply of a call may differ from that of the map: before the mirror is
    warmed, an accepted [set] knows the previous value only if the mirror does. *)
Definition replies (warmed : bool) (call : GsCall) (r r' : Result GsReply) : Prop :=
  r' = r ∨ warmed = false ∧ ∃ k v, call = CSet k v ∧ is_ok r = true ∧ r' = Ok (RBytes None).

Lemma reject_clean (c : cached) : cs_poisoned (ca_state c) = None → reject_if_poisoned c = (Ok (), c).
Proof using Type. intros Hp. unfold reject_if_poisoned. pure_step. by rewrite Hp. Qed.

(** What a call leaves. *)
Record cached_ok (room : N) (V : gmap string bytes) (evs : list ChangeEvent) (c c' : cached) : Prop := {
  ck_mirrors : mirrors room V c';
  ck_validators : validators (ox_hooks (ca_inner c')) = validators (ox_hooks (ca_inner c));
  ck_events : subscribers (ox_hooks (ca_inner c')) = notify_all evs (subscribers (ox_hooks (ca_inner c)));
  ck_warmed : cs_warmed (ca_state c') = cs_warmed (ca_state c);
}.

(** Reads take no room. *)
Lemma get_step room V k (c : cached) :
  mirrors room V c →
  ∃ c', ca_get_bytes prefix epoch k c = (Ok (V !! k), c') ∧ cached_ok room V [] c c'.
Proof using Type*.
  intros Hmi. pose proof Hmi as [Hs Hb Hq Hsub Hfull Hp]. unfold ca_get_bytes.
  step (reject_clean c Hp). step (mirror_get_ok k c).
  destruct (map (ca_mirror c) !! k) as [v|] eqn:Hk.
  { exists c. split; [|done]. by rewrite (lookup_weaken _ _ _ _ Hk Hsub). }
  pure_step. destruct (cs_warmed (ca_state c)) eqn:Hw.
  { exists c. split; [|done]. by rewrite <-(Hfull eq_refl), Hk. }
  destruct (get_holds prefix epoch session Hep K U _ V k (ca_inner c) (so_holds _ _ _ _ _ _ _ _ Hs))
    as (io & Hg & Hh').
  step (on_inner_eq _ c _ _ Hg). pose proof (mirrors_read _ room V c io Hmi Hh') as Hmi'.
  set (c1 := set_inner _ c) in *. destruct (V !! k) as [v|] eqn:HV.
  - destruct (mirror_put_ok k v c1 Hq) as (m' & Hput & Hm' & Hq'). step Hput.
    eexists. split; [reflexivity|]. destruct Hmi' as [? ? ? ? ? ?]; [done|].
    split; [|done..]. split; try done.
    + cbn. rewrite Hm'. by apply insert_subseteq_l.
    + intros Hw'. cbn in Hw'. congruence.
  - exists c1. split; [done|]. split; [|done..]. by apply Hmi'.
Qed.

Lemma has_step room V k (c : cached) :
  mirrors room V c →
  ∃ c', ca_has prefix epoch k c = (Ok (bool_decide (is_Some (V !! k))), c') ∧ cached_ok room V [] c c'.
Proof using Type*.
  intros Hmi. pose proof Hmi as [Hs Hb Hq Hsub Hfull Hp]. unfold ca_has.
  step (reject_clean c Hp). step (mirror_has_ok k c).
  case_bool_decide as Hk.
  { exists c. split; [|done]. destruct Hk as [v Hk].
    by rewrite (lookup_weaken _ _ _ _ Hk Hsub), bool_decide_eq_true_2. }
  pure_step. destruct (cs_warmed (ca_state c)) eqn:Hw.
  { exists c. split; [|done]. rewrite <-(Hfull eq_refl). by rewrite bool_decide_eq_false_2. }
  destruct (has_holds prefix epoch session Hep K U _ V k (ca_inner c) (so_holds _ _ _ _ _ _ _ _ Hs))
    as (io & Hg & Hh').
  rewrite (on_inner_eq _ c _ _ Hg). eexists. split; [reflexivity|].
  split; [|done..]. by eapply mirrors_read.
Qed.

Lemma gets_step room V limit dir cur (c : cached) :
  mirrors room V c →
  ∃ c', ca_gets_bytes prefix epoch limit dir cur c = (Ok (scan_spec limit dir cur V), c') ∧
    cached_ok room V [] c c'.
Proof using Type*.
  intros Hmi. pose proof Hmi as [Hs Hb Hq Hsub Hfull Hp]. unfold ca_gets_bytes.
  step (reject_clean c Hp). pure_step. destruct (cs_warmed (ca_state c)) eqn:Hw.
  { exists c. rewrite mirror_gets_ok, (Hfull eq_refl). split; [done|].
    done. }
  destruct (gets_holds prefix epoch session Hep K U _ V limit dir cur (ca_inner c) (so_holds _ _ _ _ _ _ _ _ Hs))
    as (io & Hg & Hh').
  rewrite (on_inner_eq _ c _ _ Hg). eexists. split; [reflexivity|].
  split; [|done..]. by eapply mirrors_read.
Qed.

Lemma delete_step room V k (c : cached) :
  mirrors (room + 16) V c → K k →
  ∃ c', ca_delete prefix epoch session k c = (Ok (bool_decide (is_Some (V !! k))), c') ∧
    cached_ok room (base.delete k V)
      (match V !! k with Some old => [Event k Kind_Delete (Some old) None 0] | None => [] end) c c'.
Proof using Type*.
  intros Hmi Hk. pose proof Hmi as [Hs Hb Hq Hsub Hfull Hp]. unfold ca_delete. step (reject_clean c Hp).
  destruct (delete_sound prefix epoch session Hep K U room V k (ca_inner c) Hs Hk)
    as (i & Hd & Hs' & Hb' & Hh). unfold op_try. rewrite (on_inner_eq _ c _ _ Hd).
  assert (∃ c', ((if bool_decide (is_Some (V !! k)) then let! _ := mirror_delete k in op_ret () else op_ret ()) ;;
      sync_after_write) (set_inner i c) = (Ok (), c') ∧
    mirrors room (base.delete k V) c' ∧ ox_hooks (ca_inner c') = ox_hooks i ∧
    cs_warmed (ca_state c') = cs_warmed (ca_state c)) as (c' & Hw & Hmi' & Hh' & Hw').
  { case_bool_decide as Hsome.
    - by apply (mirror_written room V (base.delete k V) k None).
    - assert (base.delete k V = V) as Hid by (apply delete_id; by destruct (V !! k); [destruct Hsome|]).
      rewrite Hid in *. pure_step. by apply (synced room V (set_inner i c)). }
  exists c'. split.
  - unfold op_bind in *. destruct (bool_decide _); cbn in *.
    + destruct (mirror_delete k (set_inner i c)) as [[b|e] c2]; [|done]. cbn in *. by rewrite Hw.
    + by rewrite Hw.
  - split; [done|..|done]; rewrite Hh', Hh; by destruct (V !! k).
Qed.

Lemma put_step room V k v (c : cached) :
  mirrors (room + 16) V c → use_row K U (k, Some v) →
  ∃ c', ca_put_bytes prefix epoch session k v c = (Ok (), c') ∧ cached_ok room (<[k := v]> V) [] c c'.
Proof using Type*.
  intros Hmi Hu. pose proof Hmi as [Hs Hb Hq Hsub Hfull Hp]. unfold ca_put_bytes. step (reject_clean c Hp).
  destruct (put_sound prefix epoch session Hep K U room V k v (ca_inner c) Hs Hu)
    as (i & Hd & Hs' & Hh & Hb'). unfold op_try. rewrite (on_inner_eq _ c _ _ Hd).
  destruct (mirror_written room V _ k (Some v) c i Hmi Hs' Hb' eq_refl) as (c' & Hw & Hmi' & Hh' & Hw').
  exists c'. split; [exact Hw|]. split; [done|..|done]; by rewrite Hh', Hh.
Qed.

(** No validator passes itself off as a lost prefix. *)
Definition unfenced (vs : list Validator) : Prop :=
  ∀ V k v reason, accepts vs V k v ≠ Err (Fenced reason).

Lemma set_step room V k v (c : cached) :
  mirrors (room + 16) V c → use_row K U (k, Some v) → unfenced (validators (ox_hooks (ca_inner c))) →
  let '(r, V', evs) := spec_set (accepts (validators (ox_hooks (ca_inner c)))) k v RBytes V in
  ∃ r' c', ca_set_bytes prefix epoch session k v c = (r', c') ∧ cached_ok room V' evs c c' ∧
    replies (cs_warmed (ca_state c)) (CSet k v) r (res_map RBytes r').
Proof using Type*.
  intros Hmi Hu Hun. pose proof Hmi as [Hs Hb Hq Hsub Hfull Hp]. unfold ca_set_bytes, spec_set.
  destruct (set_sound prefix epoch session Hep K U room V k v (ca_inner c) Hs Hu) as (i & Hd & Hs').
  specialize (Hun V k v). destruct (accepts _ V k v) as [[]|e].
  - destruct Hs' as (Hs' & Hb' & Hh).
    destruct (mirror_written room V _ k (Some v) c i Hmi Hs' Hb' eq_refl) as (c' & Hw & Hmi' & Hh' & Hw').
    exists (Ok (map (ca_mirror c) !! k)), c'. split; [|split].
    + step (reject_clean c Hp). step (mirror_get_ok k c). unfold op_try.
      rewrite (on_inner_eq _ c _ _ Hd). unfold op_bind in *.
      destruct (mirror_put k v (set_inner i c)) as [[b|e] c2]; [|done]. by rewrite Hw.
    + split; [done|..|done]; by rewrite Hh', Hh.
    + unfold replies. cbn [res_map]. destruct (map (ca_mirror c) !! k) as [x|] eqn:Hk.
      * left. by rewrite (lookup_weaken _ _ _ _ Hk Hsub).
      * destruct (cs_warmed (ca_state c)) eqn:Hwm; [left; by rewrite <-(Hfull eq_refl), Hk|].
        right. split; [done|]. by exists k, v.
  - destruct Hs' as (Hs' & Hb' & Hh). exists (Err e), (set_inner i c). split; [|split; [|by left]].
    + step (reject_clean c Hp). step (mirror_get_ok k c). unfold op_try.
      rewrite (on_inner_eq _ c _ _ Hd). destruct e; try done. exfalso. by eapply Hun.
    + split; [|by cbn; rewrite Hh..|done]. split; try done. cbn. by rewrite Hb'.
Qed.

Lemma cached_step room V call (c : cached) :
  mirrors (room + 16) V c → use_call K U (Gs call) → unfenced (validators (ox_hooks (ca_inner c))) →
  let '(r, V', evs) := lsm_call (accepts (validators (ox_hooks (ca_inner c)))) (Gs call) V in
  ∃ r' c', run_call (H := CachedOxKvStore_GetSet prefix epoch session) call c = (r', c') ∧
    cached_ok room V' evs c c' ∧ replies (cs_warmed (ca_state c)) call r r'.
Proof using Type*.
  intros Hmi Hu Hun.
  assert (mirrors room V c) as Hlow by (eapply mirrors_less; [done|lia]).
  destruct call as [k|k|k|k v|k v|limit dir cur]; cbn [run_call lsm_call spec_call get_bytes has delete
    set_bytes put_bytes gets_bytes CachedOxKvStore_GetSet].
  - destruct (get_step room V k c Hlow) as (c' & Hr & Hc'). eexists _, c'. by step Hr; split; [|split; [|left]].
  - destruct (has_step room V k c Hlow) as (c' & Hr & Hc'). eexists _, c'. by step Hr; split; [|split; [|left]].
  - destruct (delete_step room V k c Hmi Hu) as (c' & Hr & Hc'). eexists _, c'.
    by step Hr; split; [|split; [|left]].
  - pose proof (set_step room V k v c Hmi Hu Hun) as Hset. destruct (spec_set _ k v RBytes V) as [[r V'] evs].
    destruct Hset as (r' & c' & Hr & Hc' & Hrep). exists (res_map RBytes r'), c'. split; [|done].
    unfold op_bind. rewrite Hr. by destruct r'.
  - destruct (put_step room V k v c Hmi Hu) as (c' & Hr & Hc'). eexists _, c'.
    by step Hr; split; [|split; [|left]].
  - destruct (gets_step room V limit dir cur c Hlow) as (c' & Hr & Hc'). eexists _, c'.
    by step Hr; split; [|split; [|left]].
Qed.

(** Runs of calls, reply by reply. *)
Lemma cached_steps calls room V (c : cached) :
  mirrors (room + 16 * N.of_nat (length calls)) V c → Forall (λ call, use_call K U (Gs call)) calls →
  unfenced (validators (ox_hooks (ca_inner c))) →
  let '(rs, V', evs) := lsm_calls (accepts (validators (ox_hooks (ca_inner c)))) (Gs <$> calls) V in
  ∃ rs' c', run_calls (H := CachedOxKvStore_GetSet prefix epoch session) calls c = (rs', c') ∧
    cached_ok room V' evs c c' ∧ Forall3 (replies (cs_warmed (ca_state c))) calls rs rs'.
Proof using Type*.
  revert V c. induction calls as [|call calls IH]; intros V c Hmi Hu Hun.
  { exists [], c. split; [done|]. split; [|constructor]. rewrite N.add_0_r in Hmi. by split. }
  apply Forall_cons in Hu as [Hu Hus]. cbn [fmap list_fmap lsm_calls run_calls].
  pose proof (cached_step (room + 16 * N.of_nat (length calls)) V call c) as Hstep.
  destruct (lsm_call _ (Gs call) V) as [[r V1] ev1].
  destruct Hstep as (r' & c1 & Hr & [Hmi1 Hv1 He1 Hw1] & Hrep); [|done..|].
  { eapply mirrors_less; [done|]. cbn [length]. lia. }
  pose proof (IH V1 c1 Hmi1 Hus) as Hrest. rewrite Hv1 in Hrest.
  change (list_fmap _ _ Gs calls) with (Gs <$> calls).
  destruct (lsm_calls _ (Gs <$> calls) V1) as [[rs V2] ev2].
  destruct Hrest as (rs' & c2 & Hrs & [Hmi2 Hv2 He2 Hw2] & Hreps); [done|].
  exists (r' :: rs'), c2. rewrite Hr, Hrs. split; [done|]. split.
  - split; [done|congruence| |congruence]. by rewrite He2, He1, notify_all_app.
  - constructor; [done|]. by rewrite <-Hw1.
Qed.

(** ** Opening *)

Lemma ca_new_ok room V s mode :
  sound room V s → ox_wal_buffer s = [] → mirrors room V (ca_new epoch s mode).
Proof using Type*. intros Hs Hb. split; try done. apply map_empty_subseteq. Qed.

Lemma open_mirrors room V s mode :
  sound room V s → ox_wal_buffer s = [] → (N.of_nat (size V) < U32_MAX)%N →
  ∃ c, open_with_mode prefix epoch mode s = (Ok c, ca_inner c) ∧ mirrors room V c ∧
    cs_warmed (ca_state c) = bool_decide (mode = Eager) ∧ ox_hooks (ca_inner c) = ox_hooks s.
Proof using Type*.
  intros Hs Hb Hsize. unfold open_with_mode. case_bool_decide as Hm; [|by eexists; split; [reflexivity|]; split; [by apply ca_new_ok|]].
  destruct (so_holds _ _ _ _ _ _ _ _ Hs) as (m & etag & logs & files & Hat).
  destruct (warm_ok room V m etag logs files (ox_hooks s) (ca_new epoch s mode))
    as (n & c & Hw & [Hs' _ Hb' Hh'] & Hq & Hmap & Hwm & Hp); [done..|].
  exists c. rewrite (op_bind_ok _ _ _ _ _ Hw). split; [done|]. split; [|done].
  split; try done. by rewrite Hmap.
Qed.

(** C14: The mirror is the store.  Opened eagerly over a sound core with nothing
    staged, whatever its table, files and logs, the mirror answers any calls as
    one map does, previous values included; at every moment it holds exactly
    the map that the core stands for, each change is durable in the core and
    published once. *)
Theorem mirror_refines_map (calls : list GsCall) (room : N) (V : gmap string bytes) (s : writer) :
  sound (room + 16 * N.of_nat (length calls)) V s → ox_wal_buffer s = [] →
  (N.of_nat (size V) < U32_MAX)%N → unfenced (validators (ox_hooks s)) →
  Forall (λ call, use_call K U (Gs call)) calls →
  ∃ c, open_with_mode prefix epoch Eager s = (Ok c, ca_inner c) ∧
    let '(rs, c') := run_calls (H := CachedOxKvStore_GetSet prefix epoch session) calls c in
    let '(rs', V', evs) := lsm_calls (accepts (validators (ox_hooks s))) (Gs <$> calls) V in
    rs = rs' ∧ map (ca_mirror c') = V' ∧ sound room V' (ca_inner c') ∧
    subscribers (ox_hooks (ca_inner c')) = notify_all evs (subscribers (ox_hooks s)).
Proof using Type*.
  intros Hs Hb Hsize Hun Hu. destruct (open_mirrors _ V s Eager Hs Hb Hsize) as (c & Hopen & Hmi & Hw & Hh).
  exists c. split; [done|]. pose proof (cached_steps calls room V c Hmi Hu) as Hc. rewrite Hh, Hw in Hc.
  destruct (lsm_calls _ (Gs <$> calls) V) as [[rs V'] evs].
  destruct Hc as (rs' & c' & -> & [Hmi' Hv He Hw'] & Hreps); [done|]. destruct Hmi' as [Hs' _ _ _ Hfull _].
  split; [|split; [apply Hfull; by rewrite Hw', Hw|split; [done|by rewrite He, Hh]]].
  clear -Hreps. induction Hreps as [|? ? ? ? ? ? [->|[? _]] _ IH]; [done| |done]. by rewrite IH.
Qed.

(** C15: A mirror that is not warmed still answers as the map.  Opened in any
    mode, every reply is that of the map, but for the previous value of a
    [set], which may be missing before the mirror is warmed; and a [warm] at
    any point ends, with the whole map mirrored. *)
Theorem mirror_converges (mode : WarmMode) (calls : list GsCall) (room : N) (V : gmap string bytes) (s : writer) :
  sound (room + 16 * N.of_nat (length calls)) V s → ox_wal_buffer s = [] →
  (N.of_nat (size V) < U32_MAX)%N → unfenced (validators (ox_hooks s)) →
  Forall (λ call, use_call K U (Gs call)) calls →
  ∃ c, open_with_mode prefix epoch mode s = (Ok c, ca_inner c) ∧
    let '(rs, c') := run_calls (H := CachedOxKvStore_GetSet prefix epoch session) calls c in
    let '(rs', V', _) := lsm_calls (accepts (validators (ox_hooks s))) (Gs <$> calls) V in
    Forall3 (replies (bool_decide (mode = Eager))) calls rs' rs ∧ map (ca_mirror c') ⊆ V' ∧
    ((N.of_nat (size V') < U32_MAX)%N → ∃ n c'', warm prefix epoch c' = (Ok n, c'') ∧
      cs_warmed (ca_state c'') = true ∧ map (ca_mirror c'') = V' ∧ mirrors room V' c'').
Proof using Type*.
  intros Hs Hb Hsize Hun Hu. destruct (open_mirrors _ V s mode Hs Hb Hsize) as (c & Hopen & Hmi & Hw & Hh).
  exists c. split; [done|]. pose proof (cached_steps calls room V c Hmi Hu) as Hc. rewrite Hh, Hw in Hc.
  destruct (lsm_calls _ (Gs <$> calls) V) as [[rs V'] evs].
  destruct Hc as (rs' & c' & -> & [Hmi' Hv He Hw'] & Hreps); [done|].
  destruct Hmi' as [Hs' Hb' Hq' Hsub' _ _]. split; [done|]. split; [done|]. intros Hsize'.
  destruct (so_holds _ _ _ _ _ _ _ _ Hs') as (m & etag & logs & files & Hat).
  destruct (warm_ok room V' m etag logs files (ox_hooks (ca_inner c')) c')
    as (n & c'' & Hwm & [Hs2 _ Hb2 _] & Hq2 & Hmap & Hwm2 & Hp2); [done..|].
  exists n, c''. do 3 (split; [done|]). split; try done. by rewrite Hmap.
Qed.

(** ** Reads without the core, and after a lost prefix *)

Definition is_read (call : GsCall) : Prop :=
  match call with CGet _ | CHas _ | CGets _ _ _ => True | _ => False end.

(** A read of a warmed mirror is a read of memory: it answers from the mirror
    and changes nothing, neither the core nor its storage. *)
Theorem mirror_reads_memory (calls : list GsCall) (c : cached) :
  cs_warmed (ca_state c) = true → cs_poisoned (ca_state c) = None → Forall is_read calls →
  run_calls (H := CachedOxKvStore_GetSet prefix epoch session) calls c =
    ((λ call, (spec_call (λ _ _ _, Ok ()) call (map (ca_mirror c))).1.1) <$> calls, c).
Proof using Type.
  intros Hw Hp Hr. induction Hr as [|call calls Hc _ IH]; [done|]. cbn [run_calls].
  assert (run_call (H := CachedOxKvStore_GetSet prefix epoch session) call c =
    ((spec_call (λ _ _ _, Ok ()) call (map (ca_mirror c))).1.1, c)) as ->; [|by rewrite IH].
  destruct call as [k|k|k|k v|k v|limit dir cur]; try done; cbn [run_call get_bytes has gets_bytes
    CachedOxKvStore_GetSet spec_call fst]; unfold ca_get_bytes, ca_has, ca_gets_bytes, op_bind;
    rewrite reject_clean by done.
  - rewrite mirror_get_ok. destruct (_ !! k); [done|]. unfold from_state, op_gets. by rewrite Hw.
  - rewrite mirror_has_ok. case_bool_decide; [done|]. unfold from_state, op_gets. by rewrite Hw.
  - unfold from_state, op_gets. rewrite Hw, mirror_gets_ok. done.
Qed.

(** C17: A lost prefix is not hidden.  When the core refuses a write as fenced, the
    call fails with its error, and so does every later call, without touching
    anything, until a refresh. *)
Theorem fenced_poisons (call : GsCall) (calls : list GsCall) (reason : string) (c : cached) :
  cs_poisoned (ca_state c) = None → ¬ is_read call →
  (run_call (H := ox_GetSet prefix epoch session) call (ca_inner c)).1 = Err (Fenced reason) →
  ∃ c', run_call (H := CachedOxKvStore_GetSet prefix epoch session) call c = (Err (Fenced reason), c') ∧
    map (ca_mirror c') = map (ca_mirror c) ∧
    run_calls (H := CachedOxKvStore_GetSet prefix epoch session) calls c' =
      ((λ _, Err (Fenced reason)) <$> calls, c').
Proof using Type.
  intros Hp Hw Hf.
  assert (∀ c' : cached, cs_poisoned (ca_state c') = Some reason →
    run_calls (H := CachedOxKvStore_GetSet prefix epoch session) calls c' =
      ((λ _, Err (Fenced reason)) <$> calls, c')) as Hlater.
  { intros c' Hp'. assert (reject_if_poisoned c' = (Err (Fenced reason), c')) as Hrej.
    { unfold reject_if_poisoned, op_bind, from_state, op_gets. by rewrite Hp'. }
    clear Hf. induction calls as [|call' calls' IH]; [done|]. cbn [run_calls].
    assert (run_call (H := CachedOxKvStore_GetSet prefix epoch session) call' c' =
      (Err (Fenced reason), c')) as ->; [|by rewrite IH].
    destruct call'; cbn [run_call get_bytes has delete set_bytes put_bytes gets_bytes
      CachedOxKvStore_GetSet]; unfold ca_get_bytes, ca_has, ca_delete, ca_set_bytes, ca_put_bytes,
      ca_gets_bytes, op_bind; by rewrite Hrej. }
  pose proof (reject_clean c Hp) as Hrej.
  destruct call as [k|k|k|k v|k v|limit dir cur]; try (destruct Hw; exact I);
    cbn [run_call get_bytes has delete set_bytes put_bytes CachedOxKvStore_GetSet ox_GetSet] in *;
    unfold ca_delete, ca_set_bytes, ca_put_bytes, op_try, op_bind in *; rewrite Hrej;
    unfold on_inner, op_zoom.
  - destruct (ox_delete prefix epoch session k (ca_inner c)) as [[a|e] i]; [done|].
    cbn in Hf. injection Hf as ->. eexists. split; [reflexivity|]. split; [done|]. by apply Hlater.
  - rewrite mirror_get_ok. destruct (ox_set_bytes prefix epoch session k v (ca_inner c)) as [[a|e] i]; [done|].
    cbn in Hf. injection Hf as ->. eexists. split; [reflexivity|]. split; [done|]. by apply Hlater.
  - destruct (ox_put_bytes prefix epoch session k v (ca_inner c)) as [[a|e] i]; [done|].
    cbn in Hf. injection Hf as ->. eexists. split; [reflexivity|]. split; [done|]. by apply Hlater.
Qed.
End cached.

(** ** Concrete runs *)

Section witness.
Import Concrete.
Abbreviation lru := (LruCache string SstFile).

Definition mirror_calls : list GsCall :=
  [CSet "a" (as_bytes "1"); CSet "a" (as_bytes "22"); CPut "b" (as_bytes "1");
   CGets None Prev (Some "z", None); CDelete "a"; CGet "a"].

Lemma mirror_calls_ok : Forall (λ call, use_call two_keys two_values (Gs call)) mirror_calls.
Proof.
  use_calls two_row.
Qed.

Lemma mirror_calls_map :
  let '(rs, V, _) := lsm_calls (accepts (validators hooks_default)) (Gs <$> mirror_calls) ∅ in
  rs = [Ok (RBytes None); Ok (RBytes (Some (as_bytes "1"))); Ok RUnit;
        Ok (REntries [KV "b" (as_bytes "1"); KV "a" (as_bytes "22")]); Ok (RBool true);
        Ok (RBytes None)] ∧ V = {["b" := as_bytes "1"]}.
Proof. vm_compute. by split. Qed.

Lemma no_validators_unfenced : unfenced (validators hooks_default).
Proof. intros V k v reason. discriminate. Qed.

Lemma mirror_refines_map_witness :
  match build_with_cache (C := lru) "p" "w" true false empty_lru mem_new with
  | (Ok (epoch, s), _) =>
      ∃ c, open_with_mode "p" epoch Eager s = (Ok c, ca_inner c) ∧
        let '(rs, c') := run_calls (H := CachedOxKvStore_GetSet "p" epoch "w") mirror_calls c in
        rs = [Ok (RBytes None); Ok (RBytes (Some (as_bytes "1"))); Ok RUnit;
              Ok (REntries [KV "b" (as_bytes "1"); KV "a" (as_bytes "22")]); Ok (RBool true);
              Ok (RBytes None)] ∧
        map (ca_mirror c') = {["b" := as_bytes "1"]}
  | _ => False
  end.
Proof.
  destruct (fresh_store 96 false) as (s & w' & -> & Hs & Hb & Hh & _); [reflexivity|].
  destruct (mirror_refines_map "p" 1 "w" eq_refl two_keys two_values mirror_calls 0 ∅ s Hs Hb)
    as (c & Hopen & Hr); [reflexivity|rewrite Hh; exact no_validators_unfenced|exact mirror_calls_ok|].
  exists c. split; [exact Hopen|]. rewrite Hh in Hr.
  pose proof mirror_calls_map as Hl. destruct (run_calls _ c) as [rs c'].
  destruct (lsm_calls _ _ ∅) as [[rs' V'] evs]. destruct Hl as [-> ->], Hr as (-> & -> & _).
  split; reflexivity.
Defined.

(** Opened lazily: the second [set] finds no previous value, and the scan that
    follows brings the whole map. *)
Lemma mirror_converges_witness :
  match build_with_cache (C := lru) "p" "w" true false empty_lru mem_new with
  | (Ok (epoch, s), _) =>
      ∃ c, open_with_mode "p" epoch Lazy s = (Ok c, ca_inner c) ∧
        let c' := (run_calls (H := CachedOxKvStore_GetSet "p" epoch "w") mirror_calls c).2 in
        ∃ n c'', warm "p" epoch c' = (Ok n, c'') ∧ map (ca_mirror c'') = {["b" := as_bytes "1"]}
  | _ => False
  end.
Proof.
  destruct (fresh_store 96 false) as (s & w' & -> & Hs & Hb & Hh & _); [reflexivity|].
  destruct (mirror_converges "p" 1 "w" eq_refl two_keys two_values Lazy mirror_calls 0 ∅ s Hs Hb)
    as (c & Hopen & Hr); [reflexivity|rewrite Hh; exact no_validators_unfenced|exact mirror_calls_ok|].
  exists c. split; [exact Hopen|]. rewrite Hh in Hr. cbv zeta.
  pose proof mirror_calls_map as Hl. destruct (run_calls _ c) as [rs c']. cbn [snd].
  destruct (lsm_calls _ _ ∅) as [[rs' V'] evs]. destruct Hl as [_ ->], Hr as (_ & _ & Hw).
  destruct Hw as (n & c'' & Hw & _ & Hm & _); [reflexivity|]. exists n, c''. split; [exact Hw|exact Hm].
Defined.

(** A warmed mirror over a store that keeps [a]. *)
Definition warmed_run : option (CachedOxKvStore MemInner lru) :=
  match build_with_cache (C := lru) "p" "w" true false empty_lru mem_new with
  | (Ok (epoch, s), _) =>
      match open_with_mode "p" epoch Eager (ox_put_bytes "p" epoch "w" "a" (as_bytes "1") s).2 with
      | (Ok c, _) => Some c
      | _ => None
      end
  | _ => None
  end.

Lemma mirror_reads_memory_witness :
  match warmed_run with
  | Some c => run_calls (H := CachedOxKvStore_GetSet "p" 1 "w") [CGet "a"; CHas "b"] c =
      ([Ok (RBytes (Some (as_bytes "1"))); Ok (RBool false)], c)
  | None => False
  end.
Proof.
  assert ((λ c, (cs_warmed (ca_state c), cs_poisoned (ca_state c), map_to_list (map (ca_mirror c)))) <$> warmed_run =
    Some (true, None, [("a", as_bytes "1")])) as Hc by (vm_compute; reflexivity).
  destruct warmed_run as [c|]; [|discriminate]. cbn [fmap option_fmap option_map] in Hc.
  injection Hc as Hw Hp Hm.
  rewrite (mirror_reads_memory "p" 1 "w" [CGet "a"; CHas "b"] c Hw Hp) by (repeat constructor).
  apply (f_equal (list_to_map (M := gmap string bytes))) in Hm. rewrite list_to_map_to_list in Hm.
  rewrite Hm. reflexivity.
Defined.

(** A mirror of a writer whose prefix a second writer has taken. *)
Definition lost_run : option (CachedOxKvStore MemInner lru) :=
  match build_with_cache (C := lru) "p" "w" true false empty_lru mem_new with
  | (Ok (epoch, s), _) =>
      match build_with_cache (C := lru) "p" "x" true false empty_lru (disk s) with
      | (Ok _, w) => Some (ca_new epoch (set_disk w s) Lazy)
      | _ => None
      end
  | _ => None
  end.

Definition lost_reason : string := "fenced: epoch 1 session w superseded by epoch 2 session x".

Lemma fenced_poisons_witness :
  match lost_run with
  | Some c => ∃ c', run_call (H := CachedOxKvStore_GetSet "p" 1 "w") (CPut "a" (as_bytes "1")) c =
        (Err (Fenced lost_reason), c') ∧
      run_calls (H := CachedOxKvStore_GetSet "p" 1 "w") [CGet "a"; CDelete "a"] c' =
        ([Err (Fenced lost_reason); Err (Fenced lost_reason)], c')
  | None => False
  end.
Proof.
  assert ((λ c, (cs_poisoned (ca_state c),
      (run_call (H := ox_GetSet "p" 1 "w") (CPut "a" (as_bytes "1")) (ca_inner c)).1)) <$> lost_run =
    Some (None, Err (Fenced lost_reason))) as Hc by (vm_compute; reflexivity).
  destruct lost_run as [c|]; [|discriminate]. cbn [fmap option_fmap option_map] in Hc.
  injection Hc as Hp Hf.
  destruct (fenced_poisons "p" 1 "w" (CPut "a" (as_bytes "1")) [CGet "a"; CDelete "a"] lost_reason c Hp)
    as (c' & H1 & _ & H2); [exact (λ x, x)|exact Hf|].
  exists c'. split; [exact H1|exact H2].
Defined.

(** A [set] on a mirror that is not warmed: the store knows the previous value,
    the mirror does not look. *)
Definition lazy_run : option (Result (option bytes) * Result (option bytes)) :=
  match build_with_cache (C := lru) "p" "w" true false empty_lru mem_new with
  | (Ok (epoch, s), _) =>
      let s := (ox_put_bytes "p" epoch "w" "a" (as_bytes "1") s).2 in
      match open_with_mode "p" epoch Lazy s with
      | (Ok c, _) => Some ((ox_set_bytes "p" epoch "w" "a" (as_bytes "22") s).1,
                           (ca_set_bytes "p" epoch "w" "a" (as_bytes "22") c).1)
      | _ => None
      end
  | _ => None
  end.

Lemma lazy_set_forgets : lazy_run = Some (Ok (Some (as_bytes "1")), Ok None).
Proof. vm_compute. reflexivity. Qed.

(** A mirror whose prefix a second writer has taken, which changed [a], flushed
    and collected its logs: the refresh scans through the table of the lost
    writer, which shadows the new owner's file.  The last reads are those of the
    new owner and of the refreshed mirror. *)
Definition takeover_run : option (Result (option bytes) * Result N * Result (option bytes)) :=
  match build_with_cache (C := lru) "p" "w" true false empty_lru mem_new with
  | (Ok (epoch, s), _) =>
      match open_with_mode "p" epoch Eager (ox_put_bytes "p" epoch "w" "a" (as_bytes "1") s).2 with
      | (Ok c, s) =>
          match build_with_cache (C := lru) "p" "x" true false empty_lru (disk s) with
          | (Ok (epoch', s'), _) =>
              let s' := (run_lsms "p" epoch' "x" [Gs (CPut "a" (as_bytes "22")); FlushSst true] s').2 in
              let s' := (gc_wal "p" epoch' s').2 in
              let '(r, c) := refresh "p" epoch (set_inner (set_disk (disk s') (ca_inner c)) c) in
              Some ((ox_get_bytes "p" epoch' "a" s').1, r, (ca_get_bytes "p" epoch "a" c).1)
          | _ => None
          end
      | _ => None
      end
  | _ => None
  end.

Lemma refresh_keeps_stale :
  takeover_run = Some (Ok (Some (as_bytes "22")), Ok 1%N, Ok (Some (as_bytes "1"))).
Proof. vm_compute. reflexivity. Qed.
End witness.
