(* ===== verification/CachedTxSpec.v ===== *)
(** Transactions over the RAM mirror: they are the in-memory transactions on the
    map of the mirror, and a commit brings the mirror along. *)

From stdpp Require Import options.
From S2P Require Import Prelude OrdMap Core Codec Hooks Snapshot Storage Json Ownership Manifest.
From S2P Require Import Blob Probe Wal Merge Sst SstSpec Cache Read ReadSpec LsmStore LsmPaths.
From S2P Require Import BTree BTreeSpec LsmSpec LsmInv LsmDurable LsmCompact LsmLife LsmRecover.
From S2P Require Import LsmTx LsmSessions LsmTxSpec Cached CachedSpec.

(** ** Merging the staged records *)

Definition of_kv (kv : KeyValue) : string * bytes := (key kv, value kv).
Definition is_next (dir : Direction) : bool := match dir with Next => true | Prev => false end.

Lemma of_to_kv (l : list (string * bytes)) : of_kv <$> (to_kv <$> l) = l.
Proof. rewrite <-list_fmap_compose. rewrite (list_fmap_ext _ id); [apply list_fmap_id|]. by intros ? [] _. Qed.
Lemma to_of_kv (l : list KeyValue) : to_kv <$> (of_kv <$> l) = l.
Proof. rewrite <-list_fmap_compose. rewrite (list_fmap_ext _ id); [apply list_fmap_id|]. by intros ? [] _. Qed.

Lemma in_window_bounds k dir c :
  in_window k dir c = true ↔
    match scan_bounds (is_next dir) c with Some b => in_bounds b.1 b.2 k | None => False end.
Proof.
  unfold in_window, scan_bounds, in_bounds.
  destruct dir, c as [[s|] [e|]]; cbn; rewrite ?andb_true_iff, ?negb_true_iff, ?bool_decide_eq_false;
    intuition (try key_order; try done).
Qed.

(** The rows of a window over a map. *)
Definition rows_of (dir : Direction) (c : cursor) (M : gmap string bytes) (rows : list KeyValue) : Prop :=
  NoDup (key <$> rows) ∧
  ∀ k v, KV k v ∈ rows ↔ in_window k dir c = true ∧ M !! k = Some v.

Lemma stage_row_rows dir c M rows (r : row) :
  rows_of dir c M rows → rows_of dir c (apply_entry M r) (stage_row dir c rows r).
Proof.
  intros [Hnd Hin]. destruct r as [k ov]. unfold stage_row, apply_entry. cbn [fst snd].
  destruct (in_window k dir c) eqn:Hk.
  - split.
    + rewrite fmap_app. apply NoDup_app. split; [|split].
      * clear -Hnd. induction rows as [|kv rows IH]; [done|]. rewrite fmap_cons in Hnd.
        apply NoDup_cons in Hnd as [Hkv Hnd]. specialize (IH Hnd).
        destruct (decide (key kv ≠ k)); [rewrite filter_cons_True by done|by rewrite filter_cons_False].
        rewrite fmap_cons. constructor; [|done]. intros (kv' & Heq & [_ Hf]%list_elem_of_filter)%list_elem_of_fmap.
        apply Hkv, list_elem_of_fmap. by exists kv'.
      * intros x (kv & -> & [Hne _]%list_elem_of_filter)%list_elem_of_fmap.
        destruct ov; cbn; [|by intros ?%elem_of_nil]. by intros ?%list_elem_of_singleton.
      * destruct ov; cbn; [apply NoDup_singleton|constructor].
    + intros k' v'. rewrite elem_of_app, list_elem_of_filter, Hin. cbn [key].
      destruct (decide (k' = k)) as [->|Hne].
      * destruct ov as [v|]; cbn; rewrite ?lookup_insert_eq, ?lookup_delete_eq, ?list_elem_of_singleton.
        -- naive_solver.
        -- rewrite elem_of_nil. naive_solver.
      * destruct ov as [v|]; cbn; rewrite ?lookup_insert_ne, ?lookup_delete_ne, ?list_elem_of_singleton by done.
        -- naive_solver.
        -- rewrite elem_of_nil. naive_solver.
  - split; [done|]. intros k' v'. rewrite Hin. destruct (decide (k' = k)) as [->|Hne].
    + rewrite Hk. naive_solver.
    + destruct ov; by rewrite ?lookup_insert_ne, ?lookup_delete_ne by done.
Qed.

Lemma scan_rows dir c M : rows_of dir c M (scan_spec None dir c M).
Proof.
  assert (dir = dir_of (is_next dir)) as Hd by by destruct dir. rewrite Hd at 2.
  rewrite scan_spec_dir. unfold rows_of. setoid_rewrite in_window_bounds.
  destruct (scan_bounds (is_next dir) c) as [b|].
  2: { split; [constructor|]. intros k v. rewrite elem_of_nil. naive_solver. }
  cbn [take_limit limit_of fmap option_fmap option_map]. split.
  - rewrite <-list_fmap_compose. change (key ∘ to_kv) with (@fst string bytes). rewrite directed_keys.
    apply sorted_entries_NoDup, bt_range_sorted.
  - intros k v. rewrite <-elem_of_bt_range, <-(elem_of_directed (is_next dir) (k, v)).
    split; [|intros Hin; by apply (list_elem_of_fmap_2 to_kv _ (k, v))].
    intros ([k' v'] & Heq & Hin)%list_elem_of_fmap. cbn in Heq. by injection Heq as -> ->.
Qed.

(** Sorted and cut, they are the scan. *)
Lemma sort_rows_directed dir (rows : list KeyValue) :
  NoDup (key <$> rows) → sorted_entries (directed (is_next dir) (of_kv <$> sort_rows dir rows)).
Proof.
  intros Hnd. assert ((of_kv <$> sort_rows dir rows).*1 ≡ₚ key <$> rows) as Hk.
  { rewrite <-list_fmap_compose. change (fst ∘ of_kv) with key. apply fmap_Permutation, sort_by_perm. }
  apply sorted_entries_weaken.
  { destruct dir; cbn; [|rewrite fmap_reverse, reverse_Permutation]; by rewrite Hk. }
  assert (Sorted (entry_ordered (is_next dir)) (of_kv <$> sort_rows dir rows)) as Hs.
  { apply (Sorted_fmap of_kv (λ a b, entry_ordered (is_next dir) (of_kv a) (of_kv b))); [done|].
    unfold sort_rows, entry_ordered, ordered. apply sort_by_sorted; intros x y; destruct dir;
      rewrite ?bool_decide_eq_true, ?bool_decide_eq_false; cbn; key_order. }
  apply Sorted_StronglySorted; [apply _|]. destruct dir; cbn in *; [exact Hs|].
  by apply Sorted_reverse in Hs.
Qed.

Lemma sorted_rows dir c M rows limit :
  rows_of dir c M rows →
  take_limit (limit_of limit) (sort_rows dir rows) = scan_spec limit dir c M.
Proof.
  intros [Hnd Hin]. assert (dir = dir_of (is_next dir)) as Hd by by destruct dir. rewrite Hd at 2.
  rewrite scan_spec_dir. pose proof (sort_rows_directed dir rows Hnd) as Hs.
  setoid_rewrite in_window_bounds in Hin.
  assert (∀ k v, (k, v) ∈ directed (is_next dir) (of_kv <$> sort_rows dir rows) ↔ KV k v ∈ rows) as Hmem.
  { intros k v. rewrite elem_of_directed, list_elem_of_fmap. unfold sort_rows. setoid_rewrite sort_by_perm.
    split; [intros ([k' v'] & [= -> ->] & ?); done|intros ?; by exists (KV k v)]. }
  destruct (scan_bounds (is_next dir) c) as [b|].
  - rewrite <-take_limit_fmap. f_equal.
    assert (directed (is_next dir) (of_kv <$> sort_rows dir rows) = bt_range b.1 b.2 M) as <-.
    { apply sorted_entries_eq_range; [done|]. intros k v. rewrite Hmem. apply Hin. }
    destruct dir; cbn [is_next directed]; [|rewrite reverse_involutive]; by rewrite to_of_kv.
  - destruct rows as [|[k v] rows]; [by destruct limit; cbn; rewrite ?take_nil|].
    exfalso. eapply (Hin k v). by left.
Qed.

Lemma stage_rows dir c M rows (l : list row) :
  rows_of dir c M rows → rows_of dir c (foldl apply_entry M l) (foldl (stage_row dir c) rows l).
Proof. revert M rows. induction l as [|r l IH]; intros M rows Hr; [done|]. cbn. by apply IH, stage_row_rows. Qed.

(** [merge_staged] over a scan of [M] is the scan of [M] under the staged
    records; it may run again on what they made. *)
Lemma merge_staged_spec dir c limit M (o : MemMap) :
  merge_staged (scan_spec None dir c M) o dir c limit = scan_spec limit dir c (apply_overlay o M).
Proof. apply sorted_rows, stage_rows, scan_rows. Qed.

Lemma apply_overlay_twice o M : apply_overlay o (apply_overlay o M) = apply_overlay o M.
Proof.
  apply map_eq. intros k. rewrite !apply_overlay_lookup. unfold overlay_lookup.
  destruct (o !! k) eqn:Ho; [done|]. rewrite apply_overlay_lookup. unfold overlay_lookup. by rewrite Ho.
Qed.

(** ** A transaction beside the in-memory one *)

Section tx.
Context {W C : Type} `{ClockLaws W} `{JsonLaws Manifest} `{JsonLaws SstFooter}
  `{JsonLaws OwnershipRecord} `{Digests} `{JsonLaws BlobPointer}
  `{!Cache C string SstFile, !CacheLaws C string SstFile} `{Ch : Channel}.
Context (prefix : ObjectPath) (epoch : N) (session : string) (Hep : (epoch < U64)%N).
Context (K : string → Prop) (U : bytes → Prop) `{!Workload prefix K U}.
Context `{!StorePaths W prefix, !Unguarded W}.
Abbreviation writer := (OxKvStore W C).
Abbreviation cached := (CachedOxKvStore W C).
Abbreviation world := (CachedOxKvStore W C * CachedTx)%type.
Abbreviation mem_world := (BTreeStore * BTreeTx)%type.
Abbreviation mirrors := (mirrors prefix epoch session K U).
Abbreviation tx_sim := (tx_sim prefix epoch session K U).

(** The durable transaction on the core is that of [t], the staged records are
    its overlay, and the mirror mirrors its store. *)
Record ctx_sim (room : N) (w : world) (t : mem_world) : Prop := {
  cx_tx : tx_sim room [] (ca_inner w.1, ct_tx w.2) t;
  cx_staged : ct_staged w.2 = overlay t.2;
  cx_mirrors : mirrors room (map t.1) w.1;
}.

Lemma ca_begin_sim room V c :
  mirrors room V c → ctx_sim room (ca_begin_tx c) (btree_begin_tx (twin V (ca_inner c))).
Proof using Type*.
  intros Hmi. pose proof Hmi as [Hs Hb _ _ _ _]. split; [|done..].
  rewrite <-Hb. by apply begin_sim.
Qed.

(** A step of the durable transaction. *)
Lemma on_tx_sim {A} (op : Op (writer * OxKvTx) A) room w t r w' t' :
  ctx_sim room w t → op (ca_inner w.1, ct_tx w.2) = (r, w') → tx_sim room [] w' t' → t'.1 = t.1 →
  ∃ w1, on_tx op w = (r, w1) ∧ ct_staged w1.2 = overlay t.2 ∧
    (∀ o, o = overlay t'.2 → ctx_sim room (w1.1, MkCachedTx (ct_tx w1.2) o) t').
Proof using Type*.
  intros [_ Hst [_ _ Hq Hsub Hfull Hp]] Hop Hsim Ht. destruct w' as [i x].
  eexists. split; [unfold on_tx, op_zoom; by rewrite Hop|]. split; [done|]. intros o ->.
  pose proof Hsim as [Hs Hb _ _ _ _ _]. cbn in *. split; [done..|].
  rewrite Ht in *. by split.
Qed.

(** A read of it. *)
Lemma on_tx_read {A} (op : Op (writer * OxKvTx) A) room w t r w' :
  ctx_sim room w t → op (ca_inner w.1, ct_tx w.2) = (r, w') → tx_sim room [] w' t →
  ∃ w1, on_tx op w = (r, w1) ∧ ctx_sim room w1 t.
Proof using Type*.
  intros Hsim Hop Hw. destruct (on_tx_sim op _ _ _ _ _ _ Hsim Hop Hw eq_refl) as (w1 & Hr & Ho & Hw1).
  exists w1. split; [done|]. specialize (Hw1 _ Ho). by destruct w1 as [? []].
Qed.

Lemma on_cache_eq {A} (op : Op cached A) (w : world) r : 
  op w.1 = (r, w.1) → on_cache op w = (r, w).
Proof using Type. unfold on_cache, op_zoom. intros ->. by destruct w. Qed.

(** ** Reads *)

Lemma tx_map_lookup (t : mem_world) k :
  tx_map t !! k = match overlay t.2 !! k with Some st => st | None => map t.1 !! k end.
Proof using Type. unfold tx_map. by rewrite apply_overlay_lookup. Qed.

Lemma ct_get_sim room k w t :
  ctx_sim room w t →
  ∃ w', ct_get_bytes prefix epoch k w = (Ok (tx_map t !! k), w') ∧ ctx_sim room w' t.
Proof using Type*.
  intros Hsim. pose proof Hsim as [Hx Hst [Hs Hb Hq Hsub Hfull Hp]]. unfold ct_get_bytes. pure_step.
  rewrite Hst. destruct (ot_get_sim prefix epoch session Hep K U _ _ k _ _ Hx) as (w' & Hg & Hw').
  rewrite tx_map_lookup in *. destruct (overlay t.2 !! k) as [st|]; [by exists w|].
  step (on_cache_eq _ _ _ (mirror_get_ok k w.1)).
  destruct (map (ca_mirror w.1) !! k) as [v|] eqn:Hk.
  { exists w. by rewrite (lookup_weaken _ _ _ _ Hk Hsub). }
  step (on_cache_eq (from_state cs_warmed) w _ eq_refl). destruct (cs_warmed (ca_state w.1)).
  - exists w. by rewrite <-(Hfull eq_refl), Hk.
  - by apply (on_tx_read _ _ _ _ _ w').
Qed.

Lemma ct_has_sim room k w t :
  ctx_sim room w t →
  ∃ w', ct_has prefix epoch k w = (Ok (bool_decide (is_Some (tx_map t !! k))), w') ∧ ctx_sim room w' t.
Proof using Type*.
  intros Hsim. pose proof Hsim as [Hx Hst [Hs Hb Hq Hsub Hfull Hp]]. unfold ct_has. pure_step.
  rewrite Hst. destruct (ot_has_sim prefix epoch session Hep K U _ _ k _ _ Hx) as (w' & Hg & Hw').
  rewrite tx_map_lookup in *. destruct (overlay t.2 !! k) as [st|]; [by exists w|].
  step (on_cache_eq _ _ _ (mirror_has_ok k w.1)).
  destruct (bool_decide_reflect (is_Some (map (ca_mirror w.1) !! k))) as [Hk|Hk].
  { exists w. destruct Hk as [v Hk]. by rewrite (lookup_weaken _ _ _ _ Hk Hsub), bool_decide_eq_true_2. }
  step (on_cache_eq (from_state cs_warmed) w _ eq_refl). destruct (cs_warmed (ca_state w.1)).
  - exists w. rewrite <-(Hfull eq_refl). by rewrite bool_decide_eq_false_2.
  - by apply (on_tx_read _ _ _ _ _ w').
Qed.

Lemma ct_gets_sim room limit dir c w t :
  ctx_sim room w t →
  ∃ w', ct_gets_bytes prefix epoch limit dir c w = (Ok (scan_spec limit dir c (tx_map t)), w') ∧
    ctx_sim room w' t.
Proof using Type*.
  intros Hsim. pose proof Hsim as [Hx Hst [Hs Hb Hq Hsub Hfull Hp]]. unfold ct_gets_bytes. pure_step.
  step (on_cache_eq (from_state cs_warmed) w _ eq_refl). rewrite Hst.
  destruct (cs_warmed (ca_state w.1)) eqn:Hw.
  - step (on_cache_eq _ _ _ (mirror_gets_ok None dir c w.1)). exists w. split; [|done].
    unfold op_ret. by rewrite merge_staged_spec, (Hfull eq_refl).
  - destruct (ot_gets_sim prefix epoch session Hep K U _ _ None dir c _ _ Hx) as (w' & Hg & Hw').
    destruct (on_tx_read _ _ _ _ _ _ Hsim Hg Hw') as (w1 & Hr & Hw1). step Hr.
    exists w1. split; [|done]. unfold op_ret. rewrite merge_staged_spec. unfold tx_map.
    by rewrite apply_overlay_twice.
Qed.

(** ** Writes *)

Lemma on_stage room t o k st (w : world) :
  ct_staged w.2 = o → overlay t.2 = <[k := st]> o →
  (∀ o, o = overlay t.2 → ctx_sim room (w.1, MkCachedTx (ct_tx w.2) o) t) →
  ∃ w', ct_stage k st w = (Ok (), w') ∧ ctx_sim room w' t.
Proof using Type.
  intros Hst Ho Hw. eexists. split; [reflexivity|]. rewrite Hst. by apply Hw.
Qed.

Lemma ct_delete_sim room k w t :
  ctx_sim room w t → K k →
  ∃ b w' t', ct_delete prefix epoch k w = (Ok b, w') ∧ tx_delete k t = (Ok b, t') ∧ ctx_sim room w' t'.
Proof using Type*.
  intros Hsim Hk. pose proof Hsim as [Hx Hst _]. unfold ct_delete. pure_step. rewrite Hst.
  destruct (overlay t.2 !! k) as [[v|]|] eqn:Hok.
  2: { exists false, w, t. split; [done|]. split; [|done]. rewrite tx_delete_eq, tx_map_lookup. by rewrite Hok. }
  all: destruct (ot_delete_sim prefix epoch session Hep K U _ _ k _ _ Hx Hk) as (b & w' & t' & Hd & Ht & Hw' & Ho);
    assert (t'.1 = t.1) as Hfst by (rewrite tx_delete_eq in Ht; by destruct (tx_map t !! k); injection Ht as <- <-);
    destruct (on_tx_sim _ _ _ _ _ _ _ Hsim Hd Hw' Hfst) as (w1 & Hr & Hs1 & Hw1); step Hr;
    exists b; destruct b;
    [destruct (on_stage _ _ _ k None _ Hs1 Ho Hw1) as (w2 & Hs2 & Hw2); step Hs2; by exists w2, t'
    |exists w1, t'; split; [done|]; split; [done|]; specialize (Hw1 (ct_staged w1.2)); destruct w1 as [? []];
     apply Hw1; congruence].
Qed.

(** An accepted write; the previous value is known. *)
Lemma ct_write_sim room k v w t :
  ctx_sim room w t → use_row K U (k, Some v) →
  let t' := tx_stage (Event k Kind_Set (tx_map t !! k) (Some v) 0) (tx_insert k (Some v) t) in
  ∃ w', (on_tx (ot_put_bytes prefix epoch k v) ;; ct_stage k (Some v)) w =
      (match tx_verdict t k v with Ok _ => Ok () | Err e => Err e end, w') ∧
    ctx_sim room w' (match tx_verdict t k v with Ok _ => t' | Err _ => t end).
Proof using Type*.
  intros Hsim Hu t'. pose proof Hsim as [Hx Hst _].
  destruct (ot_write_sim prefix epoch session Hep K U _ _ k v _ _ Hx Hu) as (w' & Hw' & _ & Hput).
  destruct (tx_verdict t k v) as [[]|e].
  - destruct (on_tx_sim _ _ _ _ _ _ _ Hsim Hput Hw' eq_refl) as (w1 & Hr & Hs1 & Hw1). step Hr.
    by apply (on_stage _ _ _ k (Some v) _ Hs1).
  - destruct (on_tx_read _ _ _ _ _ _ Hsim Hput Hw') as (w1 & Hr & Hw1). exists w1.
    by rewrite (op_bind_err _ _ _ _ _ Hr).
Qed.

Lemma ct_step room call w t :
  ctx_sim room w t → use_call K U (Gs call) →
  ∃ r w' t', run_call (H := CachedTx_GetSet prefix epoch) call w = (r, w') ∧ run_call call t = (r, t') ∧
    ctx_sim room w' t'.
Proof using Type*.
  intros Hsim Hu.
  destruct call as [k|k|k|k v|k v|limit dir c]; cbn [run_call get_bytes has delete set_bytes put_bytes
    gets_bytes CachedTx_GetSet BTreeTx_GetSet].
  - destruct (ct_get_sim _ k _ _ Hsim) as (w' & Hg & Hsim').
    eexists _, w', t. split; [by step Hg|]. split; [|done]. by step (tx_get_bytes_spec k t).
  - destruct (ct_has_sim _ k _ _ Hsim) as (w' & Hg & Hsim').
    eexists _, w', t. split; [by step Hg|]. split; [|done]. by step (tx_has_spec k t).
  - destruct (ct_delete_sim _ k _ _ Hsim Hu) as (b & w' & t' & Hw & Ht & Hsim').
    eexists _, w', t'. split; [by step Hw|]. split; [by step Ht|done].
  - destruct (ct_get_sim _ k _ _ Hsim) as (w1 & Hg & Hsim1).
    destruct (ct_write_sim _ k v _ _ Hsim1 Hu) as (w' & Hw & Hsim').
    unfold ct_set_bytes, op_bind in *. rewrite Hg, tx_set_bytes_eq.
    destruct (tx_verdict t k v) as [[]|e]; destruct (on_tx _ w1) as [[?|?] ?]; try done.
    + rewrite Hw. eexists _, w', _. split; [reflexivity|]. by split.
    + injection Hw as <- <-. eexists _, _, _. split; [reflexivity|]. by split.
  - destruct (ct_write_sim _ k v _ _ Hsim Hu) as (w' & Hw & Hsim').
    change (ct_put_bytes prefix epoch k v w = (match tx_verdict t k v with Ok _ => Ok () | Err e => Err e end, w')) in Hw.
    unfold put_bytes_default, op_bind. rewrite Hw, tx_set_bytes_eq.
    destruct (tx_verdict t k v) as [[]|e]; by eexists _, w', _.
  - destruct (ct_gets_sim _ limit dir c _ _ Hsim) as (w' & Hg & Hsim').
    eexists _, w', t. split; [by step Hg|]. split; [|done]. by step (tx_gets_bytes_spec limit dir c t).
Qed.

Lemma ct_steps room calls w t :
  ctx_sim room w t → Forall (λ call, use_call K U (Gs call)) calls →
  ∃ rs w' t', run_calls (H := CachedTx_GetSet prefix epoch) calls w = (rs, w') ∧
    run_calls calls t = (rs, t') ∧ ctx_sim room w' t'.
Proof using Type*.
  intros Hsim Hu. revert w t Hsim. induction Hu as [|call calls Hc _ IH]; intros w t Hsim.
  { by exists [], w, t. }
  destruct (ct_step _ _ _ _ Hsim Hc) as (r & w1 & t1 & Hw & Ht & Hsim1).
  destruct (IH _ _ Hsim1) as (rs & w' & t' & Hws & Hts & Hsim').
  exists (r :: rs), w', t'. cbn [run_calls]. by rewrite Hw, Hws, Ht, Hts.
Qed.

(** ** Commit *)

Lemma mirror_staged_ok l (c : cached) :
  quiet (ca_mirror c) →
  ∃ m, mirror_staged l c = (Ok (), set_mirror m c) ∧ map m = foldl apply_entry (map (ca_mirror c)) l ∧ quiet m.
Proof using Type.
  revert c. induction l as [|[k [v|]] l IH]; intros c Hq; [exists (ca_mirror c); by destruct c|..];
    cbn [mirror_staged].
  - destruct (mirror_put_ok k v c Hq) as (m & Hp & Hm & Hq'). step Hp.
    destruct (IH (set_mirror m c) Hq') as (m' & Hl & Hm' & ?). exists m'. split; [done|].
    split; [|done]. cbn in *. by rewrite Hm', Hm.
  - destruct (mirror_delete_ok k c Hq) as (b & m & Hp & Hm & Hq'). step Hp.
    destruct (IH (set_mirror m c) Hq') as (m' & Hl & Hm' & ?). exists m'. split; [done|].
    split; [|done]. cbn in *. by rewrite Hm', Hm.
Qed.

Lemma apply_overlay_mono o (M V : gmap string bytes) :
  M ⊆ V → apply_overlay o M ⊆ apply_overlay o V.
Proof using Type.
  intros Hsub. apply map_subseteq_spec. intros k v. rewrite !apply_overlay_lookup. unfold overlay_lookup.
  destruct (o !! k); [done|]. intros Hk. exact (lookup_weaken _ _ _ _ Hk Hsub).
Qed.

(** A committed or refused transaction: the core and the mirror. *)
Record settled (room : N) (c : cached) (s : BTreeStore) : Prop := {
  se_core : sound prefix epoch session K U room (map s) (ca_inner c);
  se_hooks : ox_hooks (ca_inner c) = hooks s;
  se_below : map (ca_mirror c) ⊆ map s;
  se_full : cs_warmed (ca_state c) = true → map (ca_mirror c) = map s;
}.

Lemma ct_commit_sim room w t :
  ctx_sim (room + 16) w t → staged_wf t.2 →
  ∃ r w' t', ct_commit prefix epoch session w = (r, w') ∧ tx_commit t = (r, t') ∧
    settled room w'.1 t'.1 ∧ cs_warmed (ca_state w'.1) = cs_warmed (ca_state w.1) ∧
    (r = Ok () → mirrors room (map t'.1) w'.1).
Proof using Type*.
  intros Hsim Hok. pose proof Hsim as [Hx Hst [Hs Hb Hq Hsub Hfull Hp]]. unfold ct_commit. pure_step. rewrite Hst.
  destruct (commit_sim prefix epoch session Hep K U room [] _ t Hx Hok)
    as (r & [i x] & t' & buf & Hc & Ht & [Hs' Hb' Hh' _ _ _ _] & Hbuf).
  pose proof (tx_commit_eq t Hok) as Hmap. rewrite Ht in Hmap. cbn [fst snd] in *.
  exists r. unfold op_try, on_tx, op_zoom. rewrite Hc. cbn [fst snd].
  destruct r as [[]|e].
  - destruct Hmap as (_ & Hmap & _). unfold on_cache, op_zoom. cbn [fst snd].
    destruct (mirror_staged_ok (bt_iter (overlay t.2)) (set_inner i w.1) Hq) as (m & Hm & Hmm & Hqm).
    fold (apply_overlay (overlay t.2) (map (ca_mirror (set_inner i w.1)))) in Hmm. cbn [ca_mirror set_inner] in Hmm.
    step Hm. destruct (synced prefix epoch session Hep K U room (map t'.1) (set_mirror m (set_inner i w.1)))
      as (c' & Hsy & Hmi & Hh & Hw).
    { split; cbn; try done.
      - by destruct Hbuf as [->| ->].
      - rewrite Hmm, Hmap. by apply apply_overlay_mono.
      - intros Hw. by rewrite Hmm, Hmap, (Hfull Hw). }
    rewrite Hsy. eexists _, t'. split; [reflexivity|]. split; [done|]. split; [|by split].
    pose proof Hmi as [? ? ? ? ? ?]. split; [done| |done|done]. cbn [fst]. by rewrite Hh.
  - destruct Hmap as [_ ->]. cbn [fst] in *.
    destruct e; eexists _, t; (split; [reflexivity|]; split; [done|]; split; [by split|by split]).
Qed.

(** C16: A transaction over the mirror is the in-memory transaction.  However much
    of the map is mirrored, any calls get the replies of a [BTreeTx] over the
    map that the core stands for, and leave store and storage standing for it;
    the commit succeeds or is refused alike, publishes the same events, and
    leaves core and mirror with the in-memory store's map: the mirror holds
    none but its entries, and if it was warmed all of them. *)
Theorem cached_tx_refines (calls : list GsCall) (room : N) (V : gmap string bytes) (c : cached) :
  mirrors (room + 16) V c → Forall (λ call, use_call K U (Gs call)) calls →
  let '(rs, t) := run_calls calls (btree_begin_tx (twin V (ca_inner c))) in
  let '(r, t') := tx_commit t in
  ∃ w w', run_calls (H := CachedTx_GetSet prefix epoch) calls (ca_begin_tx c) = (rs, w) ∧
    mirrors (room + 16) V w.1 ∧
    ct_commit prefix epoch session w = (r, w') ∧ settled room w'.1 t'.1 ∧
    (r = Ok () → mirrors room (map t'.1) w'.1).
Proof using Type*.
  intros Hmi Hu.
  destruct (ct_steps _ _ _ _ (ca_begin_sim _ _ _ Hmi) Hu) as (rs & w & t & Hw & Ht & Hsim).
  pose proof (staged_ok_calls calls (btree_begin_tx (twin V (ca_inner c))) (staged_ok_begin _)) as Hok.
  pose proof (tx_calls_spec calls (btree_begin_tx (twin V (ca_inner c)))) as Hc.
  rewrite Ht in *. destruct (spec_calls _ _ _) as [[? ?] ?]. destruct Hc as (_ & _ & Hfst & _).
  cbn [fst snd] in *. change (map (btree_begin_tx (twin V (ca_inner c))).1) with V in Hok.
  assert (map t.1 = V) as HV by by rewrite Hfst. rewrite <-HV in Hok.
  destruct (ct_commit_sim _ _ _ Hsim (so_wf _ _ Hok)) as (r & w' & t' & Hcw & Hct & Hset & _ & Hmi').
  rewrite Hct. exists w, w'. pose proof Hsim as [_ _ Hmw]. rewrite HV in Hmw. done.
Qed.
End tx.

Section witness.
Import Concrete.

Lemma cached_tx_refines_witness :
  match build_with_cache (C := LruCache string SstFile) "p" "w" true false empty_lru mem_new with
  | (Ok (epoch, s), _) =>
      ∃ c w w', open_with_mode "p" epoch Lazy s = (Ok c, ca_inner c) ∧
        run_calls (H := CachedTx_GetSet "p" epoch) tx_of_calls (ca_begin_tx c) =
          ([Ok (RBytes None); Ok (RBytes (Some (as_bytes "1"))); Ok RUnit; Ok (RBool true);
            Ok (REntries [KV "b" (as_bytes "22")])], w) ∧
        ct_commit "p" epoch "w" w = (Ok (), w') ∧ map (ca_mirror w'.1) ⊆ {["b" := as_bytes "22"]}
  | _ => False
  end.
Proof.
  destruct (fresh_store 16 false) as (s & w' & -> & Hs & Hb & Hh & _); [reflexivity|].
  destruct (open_mirrors "p" 1 "w" eq_refl two_keys two_values 16 ∅ s Lazy Hs Hb)
    as (c & Hopen & Hmi & _ & Hhc); [reflexivity|].
  pose proof (cached_tx_refines "p" 1 "w" eq_refl two_keys two_values tx_of_calls 0 ∅ c Hmi) as Hr.
  unfold twin in Hr. rewrite Hhc, Hh in Hr.
  assert ((run_calls tx_of_calls (btree_begin_tx (MkBTree bounded_channel ∅ hooks_default []))).1 =
    [Ok (RBytes None); Ok (RBytes (Some (as_bytes "1"))); Ok RUnit; Ok (RBool true);
          Ok (REntries [KV "b" (as_bytes "22")])]) as Hrs by (vm_compute; reflexivity).
  assert ((λ '(r, t), (r, map_to_list (map t.1))) (tx_commit (run_calls tx_of_calls
    (btree_begin_tx (MkBTree bounded_channel ∅ hooks_default []))).2) = (Ok (), [("b", as_bytes "22")])) as Hc
    by (vm_compute; reflexivity).
  destruct (run_calls tx_of_calls _) as [rs t]. cbn [fst snd] in Hrs, Hc. subst rs.
  destruct (tx_commit t) as [r t']. injection Hc as -> Hm.
  apply (f_equal (list_to_map (M := gmap string bytes))) in Hm. rewrite list_to_map_to_list in Hm.
  destruct Hr as (w & w1 & Hw & _ & Hcw & [_ _ Hsub _] & _).
  - use_calls two_row.
  - exists c, w, w1. split; [exact Hopen|]. split; [exact Hw|]. split; [exact Hcw|].
    rewrite Hm in Hsub. exact Hsub.
Defined.
End witness.
