(* ===== verification/Contracts.v ===== *)
(** The contracts of [Core] kept by the parts of the LSM store: the writer, the
    read-only reader, the mirror and the transactions of the writer and of the
    mirror stand for their map behind [GetSetReads], and writer and mirror take
    transactions behind [StoreWrites].  What is proved against the contracts
    (the snapshots of [SnapshotSpec], the queries of [Gets]) so holds for each
    of them, and between any two. *)

From stdpp Require Import options.
From S2P Require Import Prelude OrdMap Core Codec Hooks BTree BTreeSpec Snapshot SnapshotSpec.
From S2P Require Import Storage Json Ownership Manifest Blob Wal Merge Sst SstSpec Cache Read ReadSpec.
From S2P Require Import LsmStore LsmPaths LsmSpec LsmInv LsmDurable LsmCompact LsmLife LsmRecover.
From S2P Require Import LsmTx LsmSessions LsmTxSpec Reader ReaderSpec Cached CachedSpec CachedTxSpec.

Section contracts.
Context {W C : Type} `{ClockLaws W} `{JsonLaws Manifest} `{JsonLaws SstFooter}
  `{JsonLaws OwnershipRecord} `{Digests} `{JsonLaws BlobPointer}
  `{!Cache C string SstFile, !CacheLaws C string SstFile} `{Ch : Channel}.
Context (prefix : ObjectPath) (epoch : N) (session : string) (Hep : (epoch < U64)%N).
Context (K : string → Prop) (U : bytes → Prop) `{!Workload prefix K U}.
Context `{!StorePaths W prefix, !Unguarded W}.
Abbreviation writer := (OxKvStore W C).
Abbreviation cached := (CachedOxKvStore W C).
Abbreviation mem_world := (BTreeStore * BTreeTx)%type.
Abbreviation sound := (sound prefix epoch session K U).
Abbreviation mirrors := (mirrors prefix epoch session K U).
Abbreviation tx_sim := (tx_sim prefix epoch session K U).
Abbreviation ctx_sim := (ctx_sim prefix epoch session K U).

(** ** Reads *)

(** An operation of the writer that leaves it sound. *)
Lemma sound_reply {A} room V (op : Op writer A) (a : A) s :
  sound room V s →
  (∃ io, op s = (Ok a, set_io io s) ∧ holds prefix epoch session K U room V (set_io io s)) →
  ∃ s', op s = (Ok a, s') ∧ ∃ room, sound room V s'.
Proof using Type*.
  intros Hs (io & Hop & Hh). exists (set_io io s). split; [done|]. exists room. by apply sound_io.
Qed.

#[export] Program Instance writer_reads :
    @GetSetReads writer (ox_GetSet prefix epoch session) :=
  Build_GetSetReads writer (ox_GetSet prefix epoch session) (λ V s, ∃ room, sound room V s) _ _ _.
Next Obligation.
  intros V k s [room Hs]. eapply sound_reply; [done|]. eapply get_holds, so_holds; done.
Qed.
Next Obligation.
  intros V k s [room Hs]. eapply sound_reply; [done|]. eapply has_holds, so_holds; done.
Qed.
Next Obligation.
  intros V limit dir c s [room Hs]. eapply sound_reply; [done|]. eapply gets_holds, so_holds; done.
Qed.
#[export] Program Instance mirror_reads :
    @GetSetReads cached (CachedOxKvStore_GetSet prefix epoch session) :=
  Build_GetSetReads cached (CachedOxKvStore_GetSet prefix epoch session)
    (λ V c, ∃ room, mirrors room V c) _ _ _.
Next Obligation.
  intros V k c [room Hc]. destruct (get_step prefix epoch session Hep K U room V k c Hc) as (c' & Hr & [Hc' _ _ _]).
  exists c'. split; [exact Hr|by exists room].
Qed.
Next Obligation.
  intros V k c [room Hc]. destruct (has_step prefix epoch session Hep K U room V k c Hc) as (c' & Hr & [Hc' _ _ _]).
  exists c'. split; [exact Hr|by exists room].
Qed.
Next Obligation.
  intros V limit dir cur c [room Hc].
  destruct (gets_step prefix epoch session Hep K U room V limit dir cur c Hc) as (c' & Hr & [Hc' _ _ _]).
  exists c'. split; [exact Hr|by exists room].
Qed.

(** The transaction of the writer, and that of the mirror. *)
#[export] Program Instance writer_tx_reads :
    @GetSetReads (writer * OxKvTx) (OxKvTx_GetSet prefix epoch) :=
  Build_GetSetReads (writer * OxKvTx) (OxKvTx_GetSet prefix epoch)
    (λ m w, ∃ room buf t, tx_sim room buf w t ∧ tx_map t = m) _ _ _.
Next Obligation.
  intros m k w (room & buf & t & Hw & <-).
  destruct (ot_get_sim prefix epoch session Hep K U room buf k w t Hw) as (w' & Hr & Hw').
  exists w'. split; [exact Hr|by exists room, buf, t].
Qed.
Next Obligation.
  intros m k w (room & buf & t & Hw & <-).
  destruct (ot_has_sim prefix epoch session Hep K U room buf k w t Hw) as (w' & Hr & Hw').
  exists w'. split; [exact Hr|by exists room, buf, t].
Qed.
Next Obligation.
  intros m limit dir c w (room & buf & t & Hw & <-).
  destruct (ot_gets_sim prefix epoch session Hep K U room buf limit dir c w t Hw) as (w' & Hr & Hw').
  exists w'. split; [exact Hr|by exists room, buf, t].
Qed.

#[export] Program Instance mirror_tx_reads :
    @GetSetReads (cached * CachedTx) (CachedTx_GetSet prefix epoch) :=
  Build_GetSetReads (cached * CachedTx) (CachedTx_GetSet prefix epoch)
    (λ m w, ∃ room t, ctx_sim room w t ∧ tx_map t = m) _ _ _.
Next Obligation.
  intros m k w (room & t & Hw & <-).
  destruct (ct_get_sim prefix epoch session Hep K U room k w t Hw) as (w' & Hr & Hw').
  exists w'. split; [exact Hr|by exists room, t].
Qed.
Next Obligation.
  intros m k w (room & t & Hw & <-).
  destruct (ct_has_sim prefix epoch session Hep K U room k w t Hw) as (w' & Hr & Hw').
  exists w'. split; [exact Hr|by exists room, t].
Qed.
Next Obligation.
  intros m limit dir c w (room & t & Hw & <-).
  destruct (ct_gets_sim prefix epoch session Hep K U room limit dir c w t Hw) as (w' & Hr & Hw').
  exists w'. split; [exact Hr|by exists room, t].
Qed.

(** ** Writes *)

(** An in-memory transaction without validators, over [base] and reading [m]. *)
Record open_tx (base m : gmap string bytes) (t : mem_world) : Prop := {
  op_base : map t.1 = base;
  op_reads : tx_map t = m;
  op_store : validators (hooks t.1) = [];
  op_own : tx_validators t.2 = [];
  op_staged : staged_ok (map t.1) t.2;
}.

Lemma open_begin V (s : writer) : validators (ox_hooks s) = [] → open_tx V V (btree_begin_tx (twin V s)).
Proof using Type.
  intros Hv. split; [done|apply apply_overlay_empty|done|done|apply staged_ok_begin].
Qed.

Lemma open_verdict base m k v t : open_tx base m t → tx_verdict t k v = Ok ().
Proof using Type. intros [_ _ _ Hv _]. unfold tx_verdict. by rewrite Hv. Qed.

Lemma open_set base m k v t :
  open_tx base m t →
  open_tx base (<[k := v]> m) (tx_stage (Event k Kind_Set (tx_map t !! k) (Some v) 0) (tx_insert k (Some v) t)).
Proof using Type.
  intros [Hb <- Hh Hv Hok]. split; [done| |done|done|exact (stage_insert_ok t k (Some v) Hok)].
  by rewrite tx_map_stage, tx_map_insert.
Qed.

Lemma open_commit base m t r t' :
  open_tx base m t → tx_commit t = (r, t') → r = Ok () ∧ map t'.1 = m.
Proof using Type.
  intros [_ <- Hh Hv Hok] Ht. pose proof (tx_commit_eq t (so_wf _ _ Hok)) as Hc. rewrite Ht in Hc.
  destruct r as [[]|e]; [by destruct Hc as (_ & Hm & _)|].
  destruct Hc as [[] _]. apply Forall_forall. intros ev _. by apply recheck_no_validators.
Qed.

#[export] Program Instance writer_writes :
    @StoreWrites writer (writer * OxKvTx) (ox_GetSet prefix epoch session) (OxKvTx_GetSet prefix epoch)
      (OxKvStore_Store prefix epoch session) writer_reads writer_tx_reads :=
  Build_StoreWrites writer (writer * OxKvTx) _ _ (OxKvStore_Store prefix epoch session) _ _
    (λ k v, use_row K U (k, Some v))
    (λ V s, (∃ room, sound (room + 16) V s) ∧ validators (ox_hooks s) = [])
    (λ base m w, ∃ room buf t, tx_sim (room + 16) buf w t ∧ open_tx base m t) _ _ _ _ _ _.
Next Obligation. intros V s [[room Hs] _]. by exists (room + 16)%N. Qed.
Next Obligation. intros base m w (room & buf & t & Hw & Ht). exists (room + 16)%N, buf, t. by split; [|apply Ht]. Qed.
Next Obligation.
  intros V s [[room Hs] Hv]. eexists. split; [reflexivity|].
  eexists room, _, _. split; [by apply begin_sim|by apply open_begin].
Qed.
Next Obligation.
  intros base m k v w Hu (room & buf & t & Hw & Ht).
  destruct (ot_write_sim prefix epoch session Hep K U _ buf k v w t Hw Hu) as (w' & Hw' & Hr & _).
  rewrite (open_verdict _ _ k v _ Ht) in *. exists w'. split.
  - etrans; [exact Hr|]. by rewrite (op_reads _ _ _ Ht).
  - exists room, buf. eexists. split; [exact Hw'|by apply open_set].
Qed.
Next Obligation.
  intros base m w (room & buf & t & Hw & Ht).
  destruct (commit_sim prefix epoch session Hep K U room buf w t Hw (so_wf _ _ (op_staged _ _ _ Ht)))
    as (r & w' & t' & buf' & Hc & Hct & [Hs _ _ _ _ _ _] & _).
  destruct (open_commit _ _ _ _ _ Ht Hct) as [-> Hm]. exists w'. split; [exact Hc|].
  exists room. by rewrite <-Hm.
Qed.
Next Obligation.
  intros base m w (room & buf & t & [Hs _ Hh _ _ _ _] & [<- _ Hv _ _]). split; [by exists room|].
  cbn. by rewrite Hh.
Qed.

#[export] Program Instance mirror_writes :
    @StoreWrites cached (cached * CachedTx) (CachedOxKvStore_GetSet prefix epoch session)
      (CachedTx_GetSet prefix epoch) (CachedOxKvStore_Store prefix epoch session) mirror_reads mirror_tx_reads :=
  Build_StoreWrites cached (cached * CachedTx) _ _ (CachedOxKvStore_Store prefix epoch session) _ _
    (λ k v, use_row K U (k, Some v))
    (λ V c, (∃ room, mirrors (room + 16) V c) ∧ validators (ox_hooks (ca_inner c)) = [])
    (λ base m w, ∃ room t, ctx_sim (room + 16) w t ∧ open_tx base m t) _ _ _ _ _ _.
Next Obligation. intros V c [[room Hc] _]. by exists (room + 16)%N. Qed.
Next Obligation. intros base m w (room & t & Hw & Ht). exists (room + 16)%N, t. by split; [|apply Ht]. Qed.
Next Obligation.
  intros V c [[room Hc] Hv]. eexists. split; [reflexivity|].
  eexists room, _. split; [by apply ca_begin_sim|by apply open_begin].
Qed.
Next Obligation.
  intros base m k v w Hu (room & t & Hw & Ht).
  destruct (ct_get_sim prefix epoch session Hep K U _ k w t Hw) as (w1 & Hg & Hw1).
  destruct (ct_write_sim prefix epoch session Hep K U _ k v w1 t Hw1 Hu) as (w' & Hr & Hw').
  rewrite (open_verdict _ _ k v _ Ht) in *. exists w'. split.
  - cbn [set_bytes CachedTx_GetSet]. unfold ct_set_bytes. step Hg. rewrite <-(op_reads _ _ _ Ht).
    unfold op_bind in *. destruct (on_tx _ w1) as [[?|?] ?]; [|done]. by rewrite Hr.
  - exists room. eexists. split; [exact Hw'|by apply open_set].
Qed.
Next Obligation.
  intros base m w (room & t & Hw & Ht).
  destruct (ct_commit_sim prefix epoch session Hep K U room w t Hw (so_wf _ _ (op_staged _ _ _ Ht)))
    as (r & w' & t' & Hc & Hct & _ & _ & Hm).
  destruct (open_commit _ _ _ _ _ Ht Hct) as [-> <-]. exists w'. split; [exact Hc|].
  exists room. by apply Hm.
Qed.
Next Obligation.
  intros base m w (room & t & [[_ _ Hh _ _ _ _] _ Hm] & [<- _ Hv _ _]). split; [by exists room|].
  cbn in *. by rewrite Hh.
Qed.
End contracts.

(** ** The reader *)

Section reader.
Context {W C : Type} `{ClockLaws W} `{JsonLaws Manifest} `{JsonLaws SstFooter}
  `{JsonLaws OwnershipRecord} `{Digests} `{JsonLaws BlobPointer}
  `{!Cache C string SstFile, !CacheLaws C string SstFile}.
Context (prefix : ObjectPath) (K : string → Prop) (U : bytes → Prop) `{!Workload prefix K U}.
Context `{!StorePaths W prefix, !Unguarded W}.
Abbreviation reader := (OxKvReader W C).

#[export] Program Instance reader_reads : @GetSetReads reader (OxKvReader_GetSet prefix) :=
  Build_GetSetReads reader (OxKvReader_GetSet prefix) (in_step prefix K U) _ _ _.
Next Obligation. intros V k r Hr. destruct (rd_get_sees prefix K U V r Hr k) as (r' & Hg & Hr' & _). by exists r'. Qed.
Next Obligation.
  intros V k r Hr. destruct (rd_get_sees prefix K U V r Hr k) as (r' & Hg & Hr' & _). exists r'. split; [|done].
  cbn [has OxKvReader_GetSet]. unfold rd_has. by step Hg.
Qed.
Next Obligation.
  intros V limit dir c r Hr. destruct (rd_gets_sees prefix K U V r Hr limit dir c) as (r' & Hg & Hr' & _).
  by exists r'.
Qed.
End reader.

(** ** A backup *)

Section backup.
Context {W C : Type} `{ClockLaws W} `{JsonLaws Manifest} `{JsonLaws SstFooter}
  `{JsonLaws OwnershipRecord} `{Digests} `{JsonLaws BlobPointer}
  `{!Cache C string SstFile, !CacheLaws C string SstFile} `{Ch : Channel}.
Context (from : ObjectPath) (K1 : string → Prop) (U1 : bytes → Prop) `{!Workload from K1 U1}.
Context `{!StorePaths W from}.
Context (to : ObjectPath) (epoch : N) (session : string) (Hep : (epoch < U64)%N).
Context (K : string → Prop) (U : bytes → Prop) `{!Workload to K U}.
Context `{!StorePaths W to, !Unguarded W}.
Abbreviation reader := (OxKvReader W C).
Abbreviation cached := (CachedOxKvStore W C).
Abbreviation mirrors := (mirrors to epoch session K U).

(** Loading into a mirror, in one transaction of its store. *)
Abbreviation restore := (load_stream (H1 := CachedOxKvStore_Store to epoch session)).

(** The mirror stands for the map, and so does what its next session recovers. *)
Definition restored (room : N) (V : gmap string bytes) (c : cached) : Prop :=
  mirrors room V c ∧ recoverable to K U room epoch V (disk (ca_inner c)).

Lemma mirrors_restored room V c : mirrors room V c → restored room V c.
Proof using Type*. intros Hc. split; [done|]. destruct Hc as [Hs Hb _ _ _ _]. by apply (sound_recoverable to K U epoch session). Qed.

Lemma holds_restored V (c : cached) :
  gs_holds (GetSetReads := mirror_reads to epoch session Hep K U) V c → restored 0 V c.
Proof using Type*. intros [room Hc]. apply mirrors_restored. eapply mirrors_less; [done..|lia]. Qed.

(** C36: A backup moves the data.  The snapshot that a reader in step takes beside
    its writer is taken within the given number of rounds; cut into chunks
    anywhere, it loads into the mirror of any other sound store in one
    transaction, which leaves mirror, core and storage with the saved entries
    over the store's own.  A load of a part of it either ends after a whole
    record, and adds the records up to there, or fails and leaves the mirror
    and its storage standing for the map they had. *)
Theorem backup_restores (fuel : nat) (room : N) (V1 V2 : gmap string bytes) (r : reader) (c : cached) :
  in_step from K1 U1 V1 r →
  (∀ k v, V1 !! k = Some v → record_ok (k, v) ∧ use_row K U (k, Some v)) →
  2 * length (bt_iter V1) + 1 + length (snapshot (bt_iter V1)) < fuel →
  mirrors (room + 16) V2 c → validators (ox_hooks (ca_inner c)) = [] →
  ∃ data r', save (H := OxKvReader_GetSet from) fuel r = Some (Ok data, r') ∧ in_step from K1 U1 V1 r' ∧
    (∀ cs, mjoin cs = data →
      ∃ c', restore (Ok <$> cs) c = (Ok (N.of_nat (size V1)), c') ∧ restored 0 (V1 ∪ V2) c') ∧
    (∀ cs, mjoin cs `prefix_of` data →
      match restore (Ok <$> cs) c with
      | (Ok n, c') => ∃ ds, ds `prefix_of` bt_iter V1 ∧ n = blen ds ∧ restored 0 (insert_all ds V2) c'
      | (Err _, c') => restored 16 V2 c'
      end).
Proof using Type*.
  intros Hr Hrows Hf Hc Hv.
  assert (Forall record_ok (bt_iter V1)) as Hok.
  { apply Forall_forall. intros [k v] Hin%elem_of_bt_iter. by apply Hrows. }
  destruct (save_enough_fuel (H0 := reader_reads from K1 U1) V1 fuel r Hr Hok Hf) as (r' & Hs & Hr').
  exists (snapshot (bt_iter V1)), r'. split; [exact Hs|]. split; [exact Hr'|].
  assert (sw_ready (StoreWrites := mirror_writes to epoch session Hep K U) V2 c) as Hc' by by split; [exists room|].
  assert (Forall (loadable (H2 := mirror_writes to epoch session Hep K U)) (bt_iter V1)) as Hl.
  { apply Forall_forall. intros [k v] Hin%elem_of_bt_iter. by apply Hrows. }
  split; intros cs Hcs.
  - destruct (load_whole (bt_iter V1) cs V2 c Hc' Hl Hcs) as (c' & Hload & Hh). exists c'.
    rewrite insert_all_iter in Hh. split; [|by apply holds_restored]. etrans; [exact Hload|].
    unfold blen. by rewrite (Permutation_length (bt_iter_perm _)), length_map_to_list.
  - pose proof (load_prefix_holds (bt_iter V1) cs V2 c Hc' Hl Hcs) as Hload.
    destruct (load_stream _ c) as [[n|e] c'].
    + destruct Hload as (ds & Hds & _ & Hn & Hh). exists ds. split_and!; [done..|by apply holds_restored].
    + destruct Hload as [[[room' Hh] _] _]. apply mirrors_restored. eapply mirrors_less; [done..|lia].
Qed.
End backup.

(** ** Witness *)

Section witness.
Import Concrete.

(** The reader of [follow_run], saved and loaded into a store on another storage. *)
Lemma backup_restores_witness :
  match follow_run, build_with_cache (C := LruCache string SstFile) "p" "w" true false empty_lru mem_new with
  | Some (_, r), (Ok (epoch, s), _) =>
      ∃ c data r', open_with_mode "p" epoch Lazy s = (Ok c, ca_inner c) ∧
        save (H := OxKvReader_GetSet "p") 100 r = Some (Ok data, r') ∧
        ∃ c', load_stream (H1 := CachedOxKvStore_Store "p" epoch "w") [Ok data] c = (Ok 2%N, c') ∧
          recoverable "p" two_keys two_values 0 epoch both (disk (ca_inner c'))
  | _, _ => False
  end.
Proof.
  pose proof follow_in_step as Hr. destruct follow_run as [[r0 r]|]; [|exact Hr].
  destruct (fresh_store 16 false) as (s & w' & -> & Hs & Hb & Hh & _); [reflexivity|].
  destruct (open_mirrors "p" 1 "w" eq_refl two_keys two_values 16 ∅ s Lazy Hs Hb) as (c & Hopen & Hc & _ & Hv);
    [reflexivity|].
  destruct (backup_restores "p" two_keys two_values "p" 1 "w" eq_refl two_keys two_values 100 0 both ∅ r c)
    as (data & r' & Hsave & _ & Hload & _).
  - exact Hr.
  - intros k v Hk. assert (k = "a" ∧ v = as_bytes "1" ∨ k = "b" ∧ v = as_bytes "22") as Hkv.
    { unfold both in Hk. rewrite lookup_insert_Some, lookup_singleton_Some in Hk. naive_solver. }
    destruct Hkv as [[-> ->]|[-> ->]];
      (split; [apply (bool_decide_unpack _); vm_compute; exact I|apply two_row; by (left + right)]).
  - apply (bool_decide_unpack _). vm_compute. exact I.
  - exact Hc.
  - rewrite Hv, Hh. reflexivity.
  - exists c, data, r'. split; [exact Hopen|]. split; [exact Hsave|].
    destruct (Hload [data]) as (c' & Hl & _ & Hrec); [apply app_nil_r|].
    exists c'. split; [exact Hl|]. rewrite map_union_empty in Hrec. exact Hrec.
Defined.
End witness.
