(* ===== verification/Otel.v ===== *)
(** The telemetry decorator: [src/src/store/otel.rs].

    [OtelStore] wraps a backend and [OtelTx] its transactions; the calls of the
    opentelemetry crate are the methods of the class [OpenTelemetry] on the
    state of the process that the crate keeps, and what the source holds of it
    are its two lazy globals, [TRACER] and [TELEMETRY].  Handles are values:
    what is recorded on a span or an instrument is in the crate's state.  A
    world is a store or a transaction next to that state, since all of them
    share it. *)

From stdpp Require Import options.
From S2P Require Import Prelude Core Hooks.

(** The attribute values that the source records. *)
Inductive OtelValue :=
| OStr (s : string)
| OBool (b : bool)
| OInt (i : Z).

#[export] Instance OtelValue_eq_dec : EqDecision OtelValue.
Proof. solve_decision. Defined.

Abbreviation OtelKv := (string * OtelValue)%type.

(** The opentelemetry API, and the monotonic clock of the standard library. *)
Class OpenTelemetry (T : Type) := {
  BoxedTracer : Type;
  BoxedSpan : Type;
  SpanContext : Type;
  Context : Type;
  Meter : Type;
  Counter : Type;
  Histogram : Type;
  Instant : Type;
  Seconds : Type;
  global_tracer : string → T → BoxedTracer * T;
  global_meter : string → T → Meter * T;
  u64_counter : Meter → string → string → T → Counter * T;
  f64_histogram : Meter → string → string → string → T → Histogram * T;
  context_current : T → Context;
  context_with_span : SpanContext → T → Context;
  build_with_context : BoxedTracer → string → Context → T → BoxedSpan * T;
  set_attribute : BoxedSpan → OtelKv → T → T;
  record_error : BoxedSpan → StoreError → T → T;
  set_status_error : BoxedSpan → string → T → T;
  span_context : BoxedSpan → T → SpanContext;
  span_end : BoxedSpan → T → T;
  counter_add : Counter → N → list OtelKv → T → T;
  histogram_record : Histogram → Seconds → list OtelKv → T → T;
  instant_now : T → Instant * T;
  elapsed : Instant → T → Seconds * T;
}.

Definition DB_SYSTEM : string := "oxkv".
Definition ATTR_KEY : string := "oxkv.key".
Definition ATTR_OUTCOME : string := "oxkv.outcome".
Definition OUTCOME_OK : string := "ok".
Definition OUTCOME_ERROR : string := "error".
Definition ATTR_EXISTED : string := "oxkv.existed".
Definition ATTR_ITEMS : string := "oxkv.items".

Module ops.
Definition GET : string := "get".
Definition HAS : string := "has".
Definition SET : string := "set".
Definition DELETE : string := "delete".
Definition GETS : string := "gets".
Definition BEGIN_TX : string := "begin_tx".
Definition COMMIT : string := "commit".
Definition ROLLBACK : string := "rollback".
End ops.

(** [env!("CARGO_PKG_NAME")]. *)
Definition CARGO_PKG_NAME : string := "oxkv".

Definition I64_MAX : Z := 9223372036854775807.

Section otel.
Context {T : Type} `{OpenTelemetry T}.

Record Telemetry := MkTelemetry {
  operations : Counter;
  duration : Histogram;
}.

(** The two lazy globals and the state of the crate. *)
Record Otel := MkOtel {
  og_tracer : option BoxedTracer;
  og_telemetry : option Telemetry;
  og_api : T;
}.

(** An effect on it, which cannot fail. *)
Abbreviation Tel A := (Otel → A * Otel).

Definition on_api {A} (f : T → A * T) : Tel A := λ o,
  let '(a, t) := f (og_api o) in (a, MkOtel (og_tracer o) (og_telemetry o) t).

Definition do_api (f : T → T) (o : Otel) : Otel :=
  MkOtel (og_tracer o) (og_telemetry o) (f (og_api o)).

(** [*TRACER]: the provider installed at the first use counts. *)
Definition TRACER : Tel BoxedTracer := λ o,
  match og_tracer o with
  | Some tracer => (tracer, o)
  | None =>
      let '(tracer, o) := on_api (global_tracer CARGO_PKG_NAME) o in
      (tracer, MkOtel (Some tracer) (og_telemetry o) (og_api o))
  end.

Definition telemetry_new : Tel Telemetry := λ o,
  let '(meter, o) := on_api (global_meter CARGO_PKG_NAME) o in
  let '(ops, o) := on_api (u64_counter meter "oxkv.store.operations"
    "Number of key-value store operations.") o in
  let '(dur, o) := on_api (f64_histogram meter "oxkv.store.operation.duration" "s"
    "Wall-clock duration of key-value store operations.") o in
  (MkTelemetry ops dur, o).

Definition TELEMETRY : Tel Telemetry := λ o,
  match og_telemetry o with
  | Some telemetry => (telemetry, o)
  | None =>
      let '(telemetry, o) := telemetry_new o in
      (telemetry, MkOtel (og_tracer o) (Some telemetry) (og_api o))
  end.

(** *** [ParentSpan], a span that records nothing *)

Record ParentSpan := MkParent { parent_context : SpanContext }.

Definition parent_is_recording (p : ParentSpan) : bool := false.
Definition parent_set_attribute (attribute : OtelKv) (p : ParentSpan) : ParentSpan := p.

(** *** Spans *)

Fixpoint set_attributes (span : BoxedSpan) (l : list OtelKv) (o : Otel) : Otel :=
  match l with
  | [] => o
  | kv :: l => set_attributes span l (do_api (set_attribute span kv) o)
  end.

Definition start_span (operation : string) (parent : option SpanContext) : Tel BoxedSpan := λ o,
  let '(tracer, o) := TRACER o in
  let '(span, o) :=
    match parent with
    | None => on_api (λ t, build_with_context tracer operation (context_current t) t) o
    | Some parent =>
        on_api (λ t, build_with_context tracer operation
          (context_with_span (parent_context (MkParent parent)) t) t) o
    end in
  (span, set_attributes span [("db.system", OStr DB_SYSTEM); ("db.operation.name", OStr operation)] o).

Definition finish {A} (span : BoxedSpan) (outcome : Result A) (operation : string) (started : Instant)
    (o : Otel) : Otel :=
  let '(elapsed, o) := on_api (elapsed started) o in
  let '(outcome_value, o) :=
    match outcome with
    | Ok _ => (OUTCOME_OK, o)
    | Err err =>
        let o := do_api (record_error span err) o in
        let o := do_api (set_status_error span (Core.to_string err)) o in
        (OUTCOME_ERROR, o)
    end in
  let '(telemetry, o) := TELEMETRY o in
  let o := do_api (counter_add (operations telemetry) 1
    [("db.operation.name", OStr operation); (ATTR_OUTCOME, OStr outcome_value)]) o in
  let '(telemetry, o) := TELEMETRY o in
  do_api (histogram_record (duration telemetry) elapsed [("db.operation.name", OStr operation)]) o.

(** The span ends when the wrapper returns. *)
Definition instrumented {S A} (operation : string) (key : option string) (parent : option SpanContext)
    (fut : Op S A) (annotate : BoxedSpan → A → Otel → Otel) : Op (S * Otel) A := λ '(s, o),
  let '(span, o) := start_span operation parent o in
  let o := match key with
           | Some key => do_api (set_attribute span (ATTR_KEY, OStr key)) o
           | None => o
           end in
  let '(started, o) := on_api instant_now o in
  let '(outcome, s) := fut s in
  let o := match outcome with Ok value => annotate span value o | Err _ => o end in
  let o := finish span outcome operation started o in
  (outcome, (s, do_api (span_end span) o)).

Definition no_annotation {A} (span : BoxedSpan) (a : A) (o : Otel) : Otel := o.

Definition note_existed {A} (existed : A → bool) (span : BoxedSpan) (a : A) : Otel → Otel :=
  do_api (set_attribute span (ATTR_EXISTED, OBool (existed a))).

(** [i64::try_from(entries.len()).unwrap_or(i64::MAX)]. *)
Definition item_count (entries : list KeyValue) : Z :=
  let n := Z.of_nat (length entries) in if (n <=? I64_MAX)%Z then n else I64_MAX.

Definition note_items (span : BoxedSpan) (entries : list KeyValue) : Otel → Otel :=
  do_api (set_attribute span (ATTR_ITEMS, OInt (item_count entries))).
End otel.
Arguments Otel T {_}.

(** ** The decorated store *)

Record OtelStore (S : Type) := MkOtelStore { os_inner : S }.
Arguments MkOtelStore {S} _.
Arguments os_inner {S} _.

Definition into_inner {S} (s : OtelStore S) : S := os_inner s.

Record OtelTx `{OpenTelemetry T} (Tx : Type) := MkOtelTx {
  otx_inner : Tx;
  otx_context : option SpanContext;
}.
Arguments OtelTx T {_} Tx.
Arguments MkOtelTx {T _ Tx} _ _.
Arguments otx_inner {T _ Tx} _.
Arguments otx_context {T _ Tx} _.

Section calls.
Context {T : Type} `{OpenTelemetry T} {W S : Type} `{GetSet S}.
(** The field [inner] of the decorator. *)
Context (inner : W → S) (set_inner : S → W → W).
Abbreviation world := (W * Otel T)%type.

Definition on_inner {A} : Op (S * Otel T) A → Op world A :=
  op_zoom (λ w, (inner w.1, w.2)) (λ p w, (set_inner p.1 w.1, p.2)).

Definition otel_get_bytes (k : string) : Op world (option bytes) :=
  on_inner (instrumented ops.GET (Some k) None (get_bytes k) no_annotation).

Definition otel_has (k : string) : Op world bool :=
  on_inner (instrumented ops.HAS (Some k) None (has k) (note_existed id)).

Definition otel_delete (k : string) : Op world bool :=
  on_inner (instrumented ops.DELETE (Some k) None (delete k) (note_existed id)).

Definition otel_set_bytes (k : string) (v : bytes) : Op world (option bytes) :=
  on_inner (instrumented ops.SET (Some k) None (set_bytes k v)
    (note_existed (λ prev, bool_decide (is_Some prev)))).

Definition otel_gets_bytes (limit : option N) (dir : Direction) (c : cursor) : Op world (list KeyValue) :=
  on_inner (instrumented ops.GETS None None (gets_bytes limit dir c) note_items).

(** [put_bytes] is the trait's default. *)
Definition otel_GetSet : GetSet world := {|
  get_bytes := otel_get_bytes;
  has := otel_has;
  delete := otel_delete;
  set_bytes := otel_set_bytes;
  put_bytes := put_bytes_default otel_set_bytes;
  gets_bytes := otel_gets_bytes;
|}.
End calls.

Section store.
Context {T : Type} `{OpenTelemetry T} {S Tx : Type} `{Store S Tx}.
Abbreviation store := (OtelStore S * Otel T)%type.
Abbreviation tx := (OtelTx T Tx * Otel T)%type.

#[export] Instance OtelStore_GetSet : GetSet store := otel_GetSet os_inner (λ s _, MkOtelStore s).

#[export] Instance OtelTx_GetSet : GetSet tx :=
  otel_GetSet otx_inner (λ x w, MkOtelTx x (otx_context w)).

(** [begin_tx], and what it leaves of the telemetry when it fails, too. *)
Definition otel_begin_tx (s : store) : Result (OtelTx T Tx) * Otel T :=
  let '(s, o) := s in
  let '(span, o) := start_span ops.BEGIN_TX None o in
  let '(started, o) := on_api instant_now o in
  let outcome := begin_tx (os_inner s) in
  let o := match outcome with
           | Ok _ => o
           | Err err =>
               let o := do_api (record_error span err) o in
               do_api (set_status_error span (Core.to_string err)) o
           end in
  let o := finish span outcome ops.BEGIN_TX started o in
  (res_map (λ tx, MkOtelTx tx (Some (span_context span (og_api o)))) outcome, do_api (span_end span) o).

(** [self.tx_context.take()], then the operation of the wrapped transaction. *)
Definition otel_end_tx (operation : string) (fut : Op Tx ()) : Op tx () := λ w,
  let parent := otx_context w.1 in
  on_inner otx_inner (λ x _, MkOtelTx x None) (instrumented operation None parent fut no_annotation) w.

Definition otel_commit : Op tx () := otel_end_tx ops.COMMIT commit.
Definition otel_rollback : Op tx () := otel_end_tx ops.ROLLBACK rollback.

#[export] Instance OtelStore_Store : Store store tx := {|
  begin_tx s :=
    match otel_begin_tx s with
    | (Ok x, o) => Ok (x, o)
    | (Err e, _) => Err e
    end;
  commit := otel_commit;
  rollback := otel_rollback;
  tx_store w := (MkOtelStore (tx_store (otx_inner w.1)), w.2);
|}.

Definition otel_on_hooks (f : S → S) (s : store) : store := (MkOtelStore (f (os_inner s.1)), s.2).

#[export] Instance OtelStore_Hooks `{Channel} `{!Hooks S} : Hooks store := {|
  hk_add_validator v := otel_on_hooks (hk_add_validator v);
  hk_add_observer scope o := otel_on_hooks (hk_add_observer scope o);
  hk_watch_scope scope := otel_on_hooks (hk_watch_scope scope);
  hk_current_seq s := hk_current_seq (os_inner s.1);
  hk_events_since n s := hk_events_since n (os_inner s.1);
|}.
End store.
