(* ===== verification/OtelSpec.v ===== *)
(** The telemetry decorator against its promises: it is transparent, except that
    it turns a put into a set; it keeps the contracts of [Core]; and what it
    records, seen by a recorder that stands for the opentelemetry crate. *)

From stdpp Require Import options.
From S2P Require Import Prelude OrdMap Core Hooks BTree BTreeSpec Otel.
From S2P Require Import Json Ownership Storage Manifest Blob Cache Sst LsmStore LsmSessions.

(** ** Transparency *)

(** What the decorator asks of the backend for a call. *)
Definition as_set (call : GsCall) : GsCall :=
  match call with CPut k v => CSet k v | _ => call end.

Definition reply_of (call : GsCall) (r : GsReply) : GsReply :=
  match call with CPut _ _ => RUnit | _ => r end.

(** The calls on the backend itself, with sets for puts. *)
Fixpoint run_forwarded {S} `{GetSet S} (calls : list GsCall) (s : S) : list (Result GsReply) * S :=
  match calls with
  | [] => ([], s)
  | call :: calls =>
      let '(r, s1) := run_call (as_set call) s in
      let '(rs, s2) := run_forwarded calls s1 in (res_map (reply_of call) r :: rs, s2)
  end.

Section transparent.
Context {T : Type} `{OpenTelemetry T}.

Lemma instrumented_eq {S A} op key parent (fut : Op S A) annotate s o :
  ∃ o', instrumented op key parent fut annotate (s, o) = ((fut s).1, ((fut s).2, o')).
Proof.
  unfold instrumented. destruct (start_span op parent o) as [span o1]. destruct (on_api _ _) as [started o2].
  destruct (fut s) as [r s']. by eexists.
Qed.

Section calls.
Context {W S : Type} `{GetSet S} (inner : W → S) (set_inner : S → W → W).
Context (Hlens : ∀ s w, inner (set_inner s w) = s).
#[local] Instance decorated : GetSet (W * Otel T) := otel_GetSet inner set_inner.

Lemma inner_call_eq {A} op key parent (fut : Op S A) annotate (w : W) o :
  ∃ w' o', on_inner (T := T) inner set_inner (instrumented op key parent fut annotate) (w, o) =
    ((fut (inner w)).1, (w', o')) ∧ w' = set_inner (fut (inner w)).2 w.
Proof using Type.
  unfold on_inner, op_zoom. cbn [fst snd].
  destruct (instrumented_eq op key parent fut annotate (inner w) o) as (o' & ->). by eexists _, o'.
Qed.

Lemma decorated_call call (w : W) o :
  ∃ o', run_call call (w, o) =
    (res_map (reply_of call) (run_call (as_set call) (inner w)).1,
     (set_inner (run_call (as_set call) (inner w)).2 w, o')).
Proof using Type.
  destruct call as [k|k|k|k v|k v|limit dir c];
    cbn [run_call get_bytes has delete set_bytes put_bytes gets_bytes decorated otel_GetSet as_set];
    unfold put_bytes_default, otel_get_bytes, otel_has, otel_delete, otel_set_bytes, otel_gets_bytes;
    match goal with |- context [instrumented ?op ?key None ?fut ?ann] =>
      destruct (inner_call_eq op key None fut ann w o) as (w' & o' & Heq & ->);
      exists o'; unfold op_bind; rewrite Heq; by destruct (fut (inner w)) as [[a|e] s'] end.
Qed.

(** The lens makes runs of calls compose. *)
Context (Htwice : ∀ s s' w, set_inner s (set_inner s' w) = set_inner s w).
Context (Hself : ∀ w, set_inner (inner w) w = w).

Lemma decorated_calls calls (w : W) o :
  ∃ o', run_calls calls (w, o) =
    ((run_forwarded calls (inner w)).1, (set_inner (run_forwarded calls (inner w)).2 w, o')).
Proof using Type*.
  revert w o. induction calls as [|call calls IH]; intros w o; cbn [run_calls run_forwarded fst snd].
  { exists o. by rewrite Hself. }
  destruct (decorated_call call w o) as (o1 & ->).
  destruct (run_call (as_set call) (inner w)) as [r s1]. cbn [fst snd].
  destruct (IH (set_inner s1 w) o1) as (o2 & ->). rewrite Hlens, Htwice.
  exists o2. by destruct (run_forwarded calls s1).
Qed.
End calls.

Section store.
Context {S Tx : Type} `{Store S Tx}.
Abbreviation otel_store := (OtelStore S * Otel T)%type.
Abbreviation otel_tx := (OtelTx T Tx * Otel T)%type.

Lemma store_calls calls (s : S) o :
  ∃ o', run_calls calls (MkOtelStore s, o) =
    ((run_forwarded calls s).1, (MkOtelStore (run_forwarded calls s).2, o')).
Proof. by apply (decorated_calls os_inner (λ s _, MkOtelStore s)); try intros []. Qed.

Lemma tx_calls calls (x : OtelTx T Tx) o :
  ∃ o', run_calls calls (x, o) =
    ((run_forwarded calls (otx_inner x)).1,
     (MkOtelTx (run_forwarded calls (otx_inner x)).2 (otx_context x), o')).
Proof. by apply (decorated_calls otx_inner (λ x w, MkOtelTx x (otx_context w))); try intros []. Qed.

Lemma begin_eq (s : S) o :
  match begin_tx (Tx := Tx) s with
  | Ok w => ∃ c o', otel_begin_tx (MkOtelStore s, o) = (Ok (MkOtelTx w (Some c)), o')
  | Err e => ∃ o', otel_begin_tx (Tx := Tx) (MkOtelStore s, o) = (Err e, o')
  end.
Proof.
  unfold otel_begin_tx. destruct (start_span _ None o) as [span o1]. destruct (on_api _ _) as [started o2].
  cbn [os_inner]. destruct (begin_tx s) as [w|e]; [by eexists _, _|by eexists].
Qed.

Lemma end_eq op (fut : Op Tx ()) (x : OtelTx T Tx) o :
  ∃ o', otel_end_tx op fut (x, o) =
    ((fut (otx_inner x)).1, (MkOtelTx (fut (otx_inner x)).2 None, o')).
Proof.
  unfold otel_end_tx. destruct (inner_call_eq otx_inner (λ x _, MkOtelTx x None) op None (otx_context x) fut
    no_annotation x o) as (w' & o' & Heq & ->). by exists o'.
Qed.

(** C35: The decorator is transparent.  Whatever the telemetry crate does, any
    calls on the decorated store, any calls in a transaction of it, and the
    commit or the rollback answer as the calls on the wrapped store do and
    leave it as they do, with sets in the place of puts; a transaction that
    cannot start fails with the store's own error. *)
Theorem otel_transparent (calls1 calls2 : list GsCall) (aborts : bool) (s : S) (o : Otel T) :
  let '(rs1, s1) := run_forwarded calls1 s in
  ∃ o1, run_calls calls1 (MkOtelStore s, o) = (rs1, (MkOtelStore s1, o1)) ∧
    match begin_tx (Tx := Tx) s1 with
    | Err e => begin_tx (Tx := otel_tx) (MkOtelStore s1, o1) = Err e
    | Ok w =>
        let '(rs2, w2) := run_forwarded calls2 w in
        let '(r, w3) := (if aborts then rollback (S := S) else commit (S := S)) w2 in
        ∃ (t t2 t3 : otel_tx), begin_tx (MkOtelStore s1, o1) = Ok t ∧
          tx_store (S := otel_store) t = (MkOtelStore (tx_store w), t.2) ∧
          run_calls calls2 t = (rs2, t2) ∧
          (if aborts then rollback (S := otel_store) else commit (S := otel_store)) t2 = (r, t3) ∧
          tx_store (S := otel_store) t3 = (MkOtelStore (tx_store w3), t3.2)
    end.
Proof.
  destruct (store_calls calls1 s o) as (o1 & Hc1). destruct (run_forwarded calls1 s) as [rs1 s1].
  exists o1. split; [exact Hc1|]. cbn [begin_tx OtelStore_Store]. pose proof (begin_eq s1 o1) as Hb.
  destruct (begin_tx s1) as [w|e]; [|by destruct Hb as (o' & ->)].
  destruct Hb as (c & o2 & ->). destruct (tx_calls calls2 (MkOtelTx w (Some c)) o2) as (o3 & Hc2).
  cbn [otx_inner otx_context] in Hc2. destruct (run_forwarded calls2 w) as [rs2 w2]. cbn [fst snd] in Hc2.
  destruct aborts; cbn [rollback commit OtelStore_Store]; unfold otel_rollback, otel_commit.
  - destruct (end_eq ops.ROLLBACK (rollback (S := S)) (MkOtelTx w2 (Some c)) o3) as (o4 & He). cbn [otx_inner] in He.
    destruct (rollback (S := S) w2) as [r w3]. eexists _, _, _. split; [reflexivity|]. by rewrite Hc2.
  - destruct (end_eq ops.COMMIT (commit (S := S)) (MkOtelTx w2 (Some c)) o3) as (o4 & He). cbn [otx_inner] in He.
    destruct (commit (S := S) w2) as [r w3]. eexists _, _, _. split; [reflexivity|]. by rewrite Hc2.
Qed.
End store.
End transparent.

(** ** The contracts *)

Section contracts.
Context {T : Type} `{OpenTelemetry T}.

(** A read of the wrapped backend that keeps what it holds. *)
Lemma kept_read {W S A} (inner : W → S) (set_inner : S → W → W) (P : S → Prop) op key (fut : Op S A) ann
    (a : A) (w : W) (o : Otel T) :
  (∀ s w, inner (set_inner s w) = s) →
  (∃ s', fut (inner w) = (Ok a, s') ∧ P s') →
  ∃ w', on_inner inner set_inner (instrumented op key None fut ann) (w, o) = (Ok a, w') ∧ P (inner w'.1).
Proof.
  intros Hlens (s' & Hr & Hs'). destruct (inner_call_eq inner set_inner op key None fut ann w o) as (w' & o' & Heq & ->).
  rewrite Hr in Heq. eexists. split; [exact Heq|]. cbn [fst snd]. by rewrite Hlens.
Qed.

#[export] Program Instance decorated_reads {W S} `{GetSetReads S} (inner : W → S) (set_inner : S → W → W)
    (Hlens : ∀ s w, inner (set_inner s w) = s) : @GetSetReads (W * Otel T) (otel_GetSet inner set_inner) :=
  Build_GetSetReads (W * Otel T) (otel_GetSet inner set_inner) (λ m w, gs_holds m (inner w.1)) _ _ _.
Next Obligation.
  intros W S ? ? inner set_inner Hlens m k [w o] Hw. eapply (kept_read inner set_inner (gs_holds m)); [done|].
  by apply gs_get.
Qed.
Next Obligation.
  intros W S ? ? inner set_inner Hlens m k [w o] Hw. eapply (kept_read inner set_inner (gs_holds m)); [done|].
  by apply gs_has.
Qed.
Next Obligation.
  intros W S ? ? inner set_inner Hlens m limit dir c [w o] Hw.
  eapply (kept_read inner set_inner (gs_holds m)); [done|]. by apply gs_gets.
Qed.

Section store.
Context {S Tx : Type} `{StoreWrites S Tx}.
Abbreviation otel_store := (OtelStore S * Otel T)%type.
Abbreviation otel_tx := (OtelTx T Tx * Otel T)%type.

#[export] Instance OtelStore_reads : GetSetReads otel_store :=
  decorated_reads os_inner (λ s _, MkOtelStore s) (λ s w, eq_refl).

#[export] Instance OtelTx_reads : GetSetReads otel_tx :=
  decorated_reads otx_inner (λ x w, MkOtelTx x (otx_context w)) (λ x w, eq_refl).

(** A decorated store takes the transactions of the wrapped one: snapshots load
    into it, and typed values and queries go through it. *)
#[export] Program Instance OtelStore_writes : StoreWrites otel_store otel_tx := {|
  sw_row := sw_row S Tx;
  sw_ready m s := sw_ready (Tx := Tx) m (os_inner s.1);
  sw_tx_ready base m x := sw_tx_ready (S := S) base m (otx_inner x.1);
|}.
Next Obligation. intros m s Hs. exact (sw_holds (Tx := Tx) m (os_inner s.1) Hs). Qed.
Next Obligation. intros base m x Hx. exact (sw_tx_holds (S := S) base m (otx_inner x.1) Hx). Qed.
Next Obligation.
  intros m [[s] o] Hs. destruct (sw_begin (Tx := Tx) m s Hs) as (w & Hb & Hw).
  pose proof (begin_eq (Tx := Tx) s o) as He. cbn [begin_tx OtelStore_Store].
  rewrite Hb in He. destruct He as (c & o' & ->). by eexists.
Qed.
Next Obligation.
  intros base m k v [x o] Hrow Hx.
  eapply (kept_read _ _ (sw_tx_ready (S := S) base (<[k := v]> m))); [done|].
  exact (sw_set (S := S) base m k v (otx_inner x) Hrow Hx).
Qed.
Next Obligation.
  intros base m [x o] Hx. destruct (sw_commit (S := S) base m (otx_inner x) Hx) as (w & Hc & Hw).
  cbn [commit OtelStore_Store]. unfold otel_commit.
  destruct (end_eq ops.COMMIT (commit (S := S)) x o) as (o' & He). rewrite Hc in He. by eexists.
Qed.
Next Obligation. intros base m [x o] Hx. exact (sw_drop (S := S) base m (otx_inner x) Hx). Qed.
End store.
End contracts.

(** ** What is recorded *)

(** A call of the API; a span is the number of those built before it, a tracer
    the provider it was resolved from, and an instrument its name. *)
Inductive ApiCall :=
| ABuild (tracer : nat) (span : nat) (name : string) (parent : option nat)
| AAttr (span : nat) (kv : OtelKv)
| AError (span : nat) (err : StoreError)
| AStatus (span : nat) (message : string)
| AEnd (span : nat)
| ACount (counter : string) (n : N) (attrs : list OtelKv)
| ATime (histogram : string) (attrs : list OtelKv).

(** The crate as a log of the calls it gets, with the provider that is installed
    and the span that is current; the clock stands still. *)
Record Recorder := MkRecorder {
  rc_log : list ApiCall;
  rc_spans : nat;
  rc_provider : nat;
  rc_current : option nat;
}.

Definition rc_add (c : ApiCall) (r : Recorder) : Recorder :=
  MkRecorder (rc_log r ++ [c]) (rc_spans r) (rc_provider r) (rc_current r).

Definition rc_build (tracer : nat) (name : string) (parent : option nat) (r : Recorder) : nat * Recorder :=
  (rc_spans r, MkRecorder (rc_log r ++ [ABuild tracer (rc_spans r) name parent]) (S (rc_spans r))
     (rc_provider r) (rc_current r)).

#[export] Instance recorder_api : OpenTelemetry Recorder := {|
  BoxedTracer := nat; BoxedSpan := nat; SpanContext := nat; Context := option nat;
  Meter := (); Counter := string; Histogram := string; Instant := (); Seconds := ();
  global_tracer _ r := (rc_provider r, r);
  global_meter _ r := ((), r);
  u64_counter _ name _ r := (name, r);
  f64_histogram _ name _ _ r := (name, r);
  context_current r := rc_current r;
  context_with_span c _ := Some c;
  build_with_context := rc_build;
  set_attribute span kv := rc_add (AAttr span kv);
  record_error span err := rc_add (AError span err);
  set_status_error span msg := rc_add (AStatus span msg);
  span_context span _ := span;
  span_end span := rc_add (AEnd span);
  counter_add c n attrs := rc_add (ACount c n attrs);
  histogram_record h _ attrs := rc_add (ATime h attrs);
  instant_now r := ((), r);
  elapsed _ r := ((), r);
|}.

Abbreviation recording := (Otel Recorder).

(** The tracer that a call uses: the one resolved, or the provider's. *)
Definition tracer_of (o : recording) : nat := default (rc_provider (og_api o)) (og_tracer o).

(** The instruments, once resolved, are the two of the documentation. *)
Definition instruments_ok (o : recording) : Prop :=
  ∀ t, og_telemetry o = Some t →
    t = MkTelemetry (T := Recorder) "oxkv.store.operations" "oxkv.store.operation.duration".

(** [n] spans and the calls [l] were added, with one tracer throughout. *)
Record recorded (o o' : recording) (n : nat) (l : list ApiCall) : Prop := {
  rd_tracer : tracer_of o' = tracer_of o;
  rd_resolved : n ≠ 0 ∨ og_tracer o ≠ None → og_tracer o' = Some (tracer_of o);
  rd_instruments : instruments_ok o → instruments_ok o';
  rd_log : rc_log (og_api o') = rc_log (og_api o) ++ l;
  rd_spans : rc_spans (og_api o') = rc_spans (og_api o) + n;
  rd_current : rc_current (og_api o') = rc_current (og_api o);
}.

Definition error_of {A} (r : Result A) : option StoreError :=
  match r with Ok _ => None | Err e => Some e end.

Definition failure (span : nat) (err : StoreError) : list ApiCall :=
  [AError span err; AStatus span (Core.to_string err)].

(** The calls of one operation. *)
Definition span_log (tracer span : nat) (op : string) (parent : option nat) (notes : list OtelKv)
    (err : list ApiCall) (outcome : string) : list ApiCall :=
  [ABuild tracer span op parent; AAttr span ("db.system", OStr "oxkv"); AAttr span ("db.operation.name", OStr op)] ++
  (AAttr span <$> notes) ++ err ++
  [ACount "oxkv.store.operations" 1 [("db.operation.name", OStr op); ("oxkv.outcome", OStr outcome)];
   ATime "oxkv.store.operation.duration" [("db.operation.name", OStr op)]; AEnd span].

Definition outcome_of (err : option StoreError) : string :=
  match err with Some _ => "error" | None => "ok" end.

Definition outcome_log (tracer span : nat) (op : string) (parent : option nat) (notes : list OtelKv)
    (err : option StoreError) : list ApiCall :=
  span_log tracer span op parent notes (match err with Some e => failure span e | None => [] end)
    (outcome_of err).

(** Its name, key and what it notes of its reply. *)
Definition op_name (call : GsCall) : string :=
  match call with
  | CGet _ => "get" | CHas _ => "has" | CDelete _ => "delete" | CSet _ _ | CPut _ _ => "set"
  | CGets _ _ _ => "gets"
  end.

Definition op_notes (call : GsCall) (r : Result GsReply) : list OtelKv :=
  match call with
  | CGet k | CHas k | CDelete k | CSet k _ | CPut k _ => [("oxkv.key", OStr k)]
  | CGets _ _ _ => []
  end ++
  match call, r with
  | CGet _, _ => []
  | _, Ok (RBool b) => [("oxkv.existed", OBool b)]
  | _, Ok (RBytes prev) => [("oxkv.existed", OBool (bool_decide (is_Some prev)))]
  | _, Ok (REntries l) => [("oxkv.items", OInt (Z.min (Z.of_nat (length l)) I64_MAX))]
  | _, _ => []
  end.

Fixpoint calls_log {S} `{GetSet S} (tracer span : nat) (parent : option nat) (calls : list GsCall) (s : S) :
    list ApiCall :=
  match calls with
  | [] => []
  | call :: calls =>
      let '(r, s1) := run_call (as_set call) s in
      outcome_log tracer span (op_name call) parent (op_notes call r) (error_of r) ++
      calls_log tracer (Datatypes.S span) parent calls s1
  end.

Lemma recorded_trans o o1 o2 n1 n2 l1 l2 :
  recorded o o1 n1 l1 → recorded o1 o2 n2 l2 → recorded o o2 (n1 + n2) (l1 ++ l2).
Proof.
  intros [Ht1 Hs1 Hi1 Hl1 Hn1 Hc1] [Ht2 Hs2 Hi2 Hl2 Hn2 Hc2]. split; [congruence| |auto|..|congruence].
  - intros Hor. rewrite <-Ht1. apply Hs2. destruct (decide (n2 = 0)) as [->|]; [right|by left].
    by rewrite Hs1 by (destruct Hor; [left; lia|by right]).
  - by rewrite Hl2, Hl1, app_assoc.
  - rewrite Hn2, Hn1. lia.
Qed.

Lemma recorded_refl o : recorded o o 0 [].
Proof.
  split; try done.
  - intros [|Ht]; [done|]. unfold tracer_of. by destruct (og_tracer o).
  - by rewrite app_nil_r.
Qed.

(** Notes only add to the log. *)
Definition log_added (l : list ApiCall) (o : recording) : recording :=
  MkOtel (og_tracer o) (og_telemetry o)
    (MkRecorder (rc_log (og_api o) ++ l) (rc_spans (og_api o)) (rc_provider (og_api o)) (rc_current (og_api o))).

Lemma set_attributes_log span l (o : recording) : set_attributes span l o = log_added (AAttr span <$> l) o.
Proof.
  revert o. induction l as [|kv l IH]; intros o; cbn [set_attributes].
  - unfold log_added. cbn. rewrite app_nil_r. by destruct o as [? ? []].
  - rewrite IH. unfold log_added. cbn. by rewrite <-app_assoc.
Qed.

Definition parent_of (o : recording) (parent : option nat) : option nat :=
  match parent with Some c => Some c | None => rc_current (og_api o) end.

Lemma start_log op parent (o : recording) :
  ∃ o', start_span op parent o = (rc_spans (og_api o), o') ∧
    recorded o o' 1 [ABuild (tracer_of o) (rc_spans (og_api o)) op (parent_of o parent);
      AAttr (rc_spans (og_api o)) ("db.system", OStr "oxkv");
      AAttr (rc_spans (og_api o)) ("db.operation.name", OStr op)].
Proof.
  destruct o as [tr tel [log n p cur]]. unfold tracer_of, start_span, TRACER, parent_of. cbn [og_tracer og_api].
  destruct tr as [tr|], parent as [c|]; cbn; (eexists; split; [reflexivity|]; split; cbn; try done;
    [by rewrite <-!app_assoc|lia]).
Qed.

(** The metrics of an operation. *)
Definition metrics_log (op outcome : string) : list ApiCall :=
  [ACount "oxkv.store.operations" 1 [("db.operation.name", OStr op); ("oxkv.outcome", OStr outcome)];
   ATime "oxkv.store.operation.duration" [("db.operation.name", OStr op)]].

Lemma added_recorded l o : recorded o (log_added l o) 0 l.
Proof.
  split; try done. intros [|Ht]; [done|]. unfold tracer_of. cbn. by destruct (og_tracer o).
Qed.

Lemma finish_log {A} span (r : Result A) op started (o : recording) :
  instruments_ok o →
  recorded o (finish span r op started o) 0
    (match error_of r with Some e => failure span e | None => [] end ++
     metrics_log op (outcome_of (error_of r))).
Proof.
  intros Hi. destruct o as [tr tel [log n p cur]]. unfold instruments_ok in Hi. cbn in Hi.
  assert (tel = None ∨ tel = Some (MkTelemetry (T := Recorder) "oxkv.store.operations"
    "oxkv.store.operation.duration")) as [->| ->] by (destruct tel as [t|]; [right; by rewrite (Hi t)|by left]);
  destruct r as [a|e]; cbn; (split; cbn; [by destruct tr|intros [|Ht]; [done|by destruct tr]|
    by unfold instruments_ok; cbn; intros _ t [= <-]|by rewrite <-?app_assoc|lia|done]).
Qed.

Lemma instrumented_log {S A} op key parent (fut : Op S A) ann (notes : A → list OtelKv) s (o : recording) :
  instruments_ok o → (∀ span v o, ann span v o = set_attributes span (notes v) o) →
  ∃ o', instrumented op key parent fut ann (s, o) = ((fut s).1, ((fut s).2, o')) ∧
    recorded o o' 1 (outcome_log (tracer_of o) (rc_spans (og_api o)) op (parent_of o parent)
      (match key with Some k => [("oxkv.key", OStr k)] | None => [] end ++
       match (fut s).1 with Ok v => notes v | Err _ => [] end) (error_of (fut s).1)).
Proof.
  intros Hi Hann. unfold instrumented. destruct (start_log op parent o) as (o1 & -> & H1).
  set (span := rc_spans (og_api o)) in *.
  assert (∀ key' o1, (match key' with Some key => do_api (set_attribute span (ATTR_KEY, OStr key)) o1 | None => o1 end) =
    log_added (AAttr span <$> match key' with Some k => [("oxkv.key", OStr k)] | None => [] end) o1) as Hkey.
  { intros [k|] [? ? []]; [done|]. unfold log_added. cbn. by rewrite app_nil_r. }
  rewrite Hkey. clear Hkey.
  set (kl := match key with Some k => [("oxkv.key", OStr k)] | None => [] end) in *.
  set (o2 := log_added _ o1). assert (on_api instant_now o2 = ((), o2)) as -> by by destruct o2 as [? ? []].
  destruct (fut s) as [r s']. cbn [fst snd].
  set (nl := match r with Ok v => notes v | Err _ => [] end).
  assert ((match r with Ok v => ann span v o2 | Err _ => o2 end) = log_added (AAttr span <$> nl) o2) as ->.
  { unfold nl. destruct r as [v|e]; [by rewrite Hann, set_attributes_log|].
    unfold log_added, o2. cbn. by rewrite app_nil_r. }
  eexists. split; [reflexivity|].
  pose proof (added_recorded (AAttr span <$> kl) o1) as H2. fold o2 in H2.
  pose proof (added_recorded (AAttr span <$> nl) o2) as H3. set (o3 := log_added _ o2) in *.
  assert (instruments_ok o3) as Hi3 by (apply H3, H2, H1, Hi).
  pose proof (finish_log span r op () o3 Hi3) as H4. set (o4 := finish _ _ _ _ o3) in *.
  pose proof (added_recorded [AEnd span] o4) as H5.
  pose proof (recorded_trans _ _ _ _ _ _ _ H1 (recorded_trans _ _ _ _ _ _ _ H2
    (recorded_trans _ _ _ _ _ _ _ H3 (recorded_trans _ _ _ _ _ _ _ H4 H5)))) as Hall.
  replace (outcome_log _ _ _ _ _ _) with ([ABuild (tracer_of o) span op (parent_of o parent);
      AAttr span ("db.system", OStr "oxkv"); AAttr span ("db.operation.name", OStr op)] ++
    (AAttr span <$> kl) ++ (AAttr span <$> nl) ++
    (match error_of r with Some e => failure span e | None => [] end ++
     metrics_log op (outcome_of (error_of r))) ++ [AEnd span]); [exact Hall|].
  unfold outcome_log, span_log, metrics_log. rewrite fmap_app, <-!app_assoc. by destruct (error_of r).
Qed.

Section recorded_calls.
Context {W S : Type} `{GetSet S} (inner : W → S) (set_inner : S → W → W).
Context (Hlens : ∀ s w, inner (set_inner s w) = s).
#[local] Instance recorded_decorated : GetSet (W * recording) := otel_GetSet inner set_inner.

Lemma on_inner_log {A} op key parent (fut : Op S A) ann (notes : A → list OtelKv) (w : W) (o : recording) :
  instruments_ok o → (∀ span v o, ann span v o = set_attributes span (notes v) o) →
  ∃ o', on_inner inner set_inner (instrumented op key parent fut ann) (w, o) =
      ((fut (inner w)).1, (set_inner (fut (inner w)).2 w, o')) ∧
    recorded o o' 1 (outcome_log (tracer_of o) (rc_spans (og_api o)) op (parent_of o parent)
      (match key with Some k => [("oxkv.key", OStr k)] | None => [] end ++
       match (fut (inner w)).1 with Ok v => notes v | Err _ => [] end) (error_of (fut (inner w)).1)).
Proof using Type.
  intros Hi Hann. destruct (instrumented_log op key parent fut ann notes (inner w) o Hi Hann) as (o' & Heq & Hr).
  exists o'. split; [|exact Hr]. unfold on_inner, op_zoom. cbn [fst snd]. by rewrite Heq.
Qed.

Lemma item_count_min l : item_count l = Z.min (Z.of_nat (length l)) I64_MAX.
Proof using Type. unfold item_count. destruct (Z.leb_spec (Z.of_nat (length l)) I64_MAX); lia. Qed.

Definition existed_note {A} (f : A → bool) (a : A) : list OtelKv := [("oxkv.existed", OBool (f a))].
Definition items_note (l : list KeyValue) : list OtelKv :=
  [("oxkv.items", OInt (Z.min (Z.of_nat (length l)) I64_MAX))].

Lemma recorded_call call (w : W) (o : recording) :
  instruments_ok o →
  let '(r, s') := run_call (as_set call) (inner w) in
  ∃ o', run_call call (w, o) = (res_map (reply_of call) r, (set_inner s' w, o')) ∧
    recorded o o' 1 (outcome_log (tracer_of o) (rc_spans (og_api o)) (op_name call)
      (rc_current (og_api o)) (op_notes call r) (error_of r)).
Proof using Type.
  intros Hi. destruct call as [k|k|k|k v|k v|limit dir c];
    cbn [run_call get_bytes has delete set_bytes put_bytes gets_bytes recorded_decorated otel_GetSet as_set];
    unfold put_bytes_default, otel_get_bytes, otel_has, otel_delete, otel_set_bytes, otel_gets_bytes;
    [destruct (on_inner_log ops.GET (Some k) None (get_bytes k) no_annotation (λ _, []) w o Hi) as (o' & Heq & Hr)
    |destruct (on_inner_log ops.HAS (Some k) None (has k) (note_existed id) (existed_note id) w o Hi)
       as (o' & Heq & Hr)
    |destruct (on_inner_log ops.DELETE (Some k) None (delete k) (note_existed id) (existed_note id) w o Hi)
       as (o' & Heq & Hr)
    |destruct (on_inner_log ops.SET (Some k) None (set_bytes k v)
       (note_existed (λ prev, bool_decide (is_Some prev))) (existed_note (λ prev, bool_decide (is_Some prev))) w o Hi)
       as (o' & Heq & Hr)
    |destruct (on_inner_log ops.SET (Some k) None (set_bytes k v)
       (note_existed (λ prev, bool_decide (is_Some prev))) (existed_note (λ prev, bool_decide (is_Some prev))) w o Hi)
       as (o' & Heq & Hr)
    |destruct (on_inner_log ops.GETS None None (gets_bytes limit dir c) note_items items_note w o Hi)
       as (o' & Heq & Hr)]; try done;
    try (by intros span l o'; unfold note_items, items_note; rewrite item_count_min);
    unfold op_bind; rewrite Heq;
    match goal with Hr : recorded _ _ _ (outcome_log _ _ _ _ (_ ++ match (?m (inner w)).1 with _ => _ end) _) |- _ =>
      destruct (m (inner w)) as [[a|e] s'] end; by exists o'.
Qed.

Lemma recorded_calls calls (w : W) (o : recording) :
  instruments_ok o →
  recorded o (run_calls calls (w, o)).2.2 (length calls)
    (calls_log (tracer_of o) (rc_spans (og_api o)) (rc_current (og_api o)) calls (inner w)).
Proof using Type*.
  revert w o. induction calls as [|call calls IH]; intros w o Hi; cbn [run_calls calls_log length snd].
  { apply recorded_refl. }
  pose proof (recorded_call call w o Hi) as Hc. destruct (run_call (as_set call) (inner w)) as [r s1].
  destruct Hc as (o1 & -> & Hr). specialize (IH (set_inner s1 w) o1 (rd_instruments _ _ _ _ Hr Hi)).
  destruct (run_calls calls (set_inner s1 w, o1)) as [rs w2]. cbn [snd] in *.
  rewrite Hlens, (rd_tracer _ _ _ _ Hr), (rd_spans _ _ _ _ Hr), (rd_current _ _ _ _ Hr), Nat.add_1_r in IH.
  exact (recorded_trans _ _ _ _ _ _ _ Hr IH).
Qed.
End recorded_calls.

(** ** Transactions *)

Section recorded_tx.
Context {S Tx : Type} `{Store S Tx}.
Abbreviation otel_store := (OtelStore S * recording)%type.
Abbreviation otel_tx := (OtelTx Recorder Tx * recording)%type.

(** A transaction that cannot start is recorded as failed twice over. *)
Lemma begin_log (s : S) (o : recording) :
  instruments_ok o →
  let r := begin_tx (Tx := Tx) s in
  let span := rc_spans (og_api o) in
  ∃ o', otel_begin_tx (MkOtelStore s, o) = (res_map (λ w, MkOtelTx w (Some span)) r, o') ∧
    recorded o o' 1 (span_log (tracer_of o) span "begin_tx" (rc_current (og_api o)) []
      (match error_of r with Some e => failure span e ++ failure span e | None => [] end)
      (outcome_of (error_of r))).
Proof.
  intros Hi r span. unfold otel_begin_tx. cbn [os_inner].
  destruct (start_log ops.BEGIN_TX None o) as (o1 & -> & R1). fold span in R1 |- *.
  assert (on_api instant_now o1 = ((), o1)) as -> by by destruct o1 as [? ? []]. fold r.
  set (first := match error_of r with Some e => failure span e | None => [] end).
  assert ((match r with Ok _ => o1 | Err err =>
      do_api (set_status_error span (Core.to_string err)) (do_api (record_error span err) o1) end) =
    log_added first o1) as ->.
  { unfold first. destruct o1 as [? ? []], r; unfold log_added, do_api, rc_add; cbn; [by rewrite app_nil_r|unfold rc_add; cbn; by rewrite <-app_assoc]. }
  pose proof (added_recorded first o1) as R2. set (o2 := log_added first o1) in *.
  pose proof (finish_log span r ops.BEGIN_TX () o2 (rd_instruments _ _ _ _ R2 (rd_instruments _ _ _ _ R1 Hi))) as R3.
  set (o3 := finish _ _ _ _ o2) in *. pose proof (added_recorded [AEnd span] o3) as R4.
  eexists. split; [reflexivity|].
  pose proof (recorded_trans _ _ _ _ _ _ _ R1 (recorded_trans _ _ _ _ _ _ _ R2
    (recorded_trans _ _ _ _ _ _ _ R3 R4))) as Hall.
  unfold span_log. unfold first, metrics_log in Hall. cbn [fmap list_fmap app] in *. rewrite <-?app_assoc in Hall.
  by destruct (error_of r).
Qed.

Lemma end_log op (fut : Op Tx ()) (x : OtelTx Recorder Tx) (o : recording) :
  instruments_ok o →
  ∃ o', otel_end_tx op fut (x, o) = ((fut (otx_inner x)).1, (MkOtelTx (fut (otx_inner x)).2 None, o')) ∧
    recorded o o' 1 (outcome_log (tracer_of o) (rc_spans (og_api o)) op (parent_of o (otx_context x)) []
      (error_of (fut (otx_inner x)).1)).
Proof.
  intros Hi. unfold otel_end_tx. destruct (on_inner_log otx_inner (λ x _, MkOtelTx x None) op None (otx_context x)
    fut no_annotation (λ _, []) x o Hi) as (o' & Heq & Hr); [done|]. exists o'. split; [exact Heq|].
  by destruct (fut (otx_inner x)).1.
Qed.

Lemma store_recorded calls (s : S) (o o' : recording) rs s' :
  instruments_ok o → run_calls calls (MkOtelStore s, o) = (rs, (MkOtelStore s', o')) →
  recorded o o' (length calls) (calls_log (tracer_of o) (rc_spans (og_api o)) (rc_current (og_api o)) calls s).
Proof.
  intros Hi Hc. pose proof (recorded_calls os_inner (λ s _, MkOtelStore s) (λ _ _, eq_refl) calls
    (MkOtelStore s) o Hi) as Hr. unfold recorded_decorated in Hr. unfold OtelStore_GetSet in Hc. by rewrite Hc in Hr.
Qed.

Lemma tx_recorded calls (x x' : OtelTx Recorder Tx) (o o' : recording) rs :
  instruments_ok o → run_calls calls (x, o) = (rs, (x', o')) →
  recorded o o' (length calls)
    (calls_log (tracer_of o) (rc_spans (og_api o)) (rc_current (og_api o)) calls (otx_inner x)).
Proof.
  intros Hi Hc. pose proof (recorded_calls otx_inner (λ y u, MkOtelTx y (otx_context u)) (λ _ _, eq_refl) calls
    x o Hi) as Hr. unfold recorded_decorated in Hr. unfold OtelTx_GetSet in Hc. by rewrite Hc in Hr.
Qed.

(** C31: What a session records.  Calls on a decorated store, a transaction with
    calls of its own, and its commit or rollback make one span each, numbered
    in this order, built by one tracer and under the span that is current,
    except that the commit or the rollback is a child of the span of the
    begin.  A span has the name of its operation, notes the key, and of a reply
    the previous existence or the number of entries; a failed one has one
    exception and the status of its message; each is ended, counted once with
    its outcome, and timed once. *)
Theorem otel_records (calls1 calls2 : list GsCall) (aborts : bool) (s : S) (w : Tx) (o : recording) :
  instruments_ok o → begin_tx (run_forwarded calls1 s).2 = Ok w →
  let t1 := (run_calls calls1 (MkOtelStore s, o)).2 in
  ∃ t2 : otel_tx, begin_tx t1 = Ok t2 ∧
    let t3 := (run_calls calls2 t2).2 in
    let '(r, t4) := (if aborts then rollback (S := otel_store) else commit (S := otel_store)) t3 in
    let tracer := tracer_of o in
    let current := rc_current (og_api o) in
    let first := rc_spans (og_api o) in
    let begin := first + length calls1 in
    recorded o t4.2 (length calls1 + (1 + (length calls2 + 1)))
      (calls_log tracer first current calls1 s ++
       outcome_log tracer begin "begin_tx" current [] None ++
       calls_log tracer (begin + 1) current calls2 w ++
       outcome_log tracer (begin + 1 + length calls2) (if aborts then "rollback" else "commit") (Some begin) []
         (error_of r)).
Proof.
  intros Hi Hb. cbv zeta. destruct (store_calls calls1 s o) as (o1 & Hc1).
  pose proof (store_recorded _ _ _ _ _ _ Hi Hc1) as R1. rewrite Hc1. cbn [snd].
  pose proof (rd_instruments _ _ _ _ R1 Hi) as Hi1.
  destruct (begin_log (run_forwarded calls1 s).2 o1 Hi1) as (o2 & Hbeg & R2). rewrite Hb in Hbeg, R2.
  cbn [begin_tx OtelStore_Store]. rewrite Hbeg. cbn [res_map error_of outcome_of] in *.
  set (x := @MkOtelTx Recorder recorder_api Tx w (Some (rc_spans (og_api o1)))). exists (x, o2). split; [reflexivity|].
  pose proof (rd_instruments _ _ _ _ R2 Hi1) as Hi2.
  destruct (tx_calls calls2 x o2) as (o3 & Hc2).
  pose proof (tx_recorded _ _ _ _ _ _ Hi2 Hc2) as R3. rewrite Hc2. cbn [snd]. cbn [otx_inner otx_context x] in *.
  set (x3 := MkOtelTx _ _). pose proof (rd_instruments _ _ _ _ R3 Hi2) as Hi3.
  assert (∀ op (fut : Op Tx ()), ∃ t4 r, otel_end_tx op fut (x3, o3) = (r, t4) ∧
    recorded o t4.2 (length calls1 + (1 + (length calls2 + 1)))
      (calls_log (tracer_of o) (rc_spans (og_api o)) (rc_current (og_api o)) calls1 s ++
       outcome_log (tracer_of o) (rc_spans (og_api o) + length calls1) "begin_tx" (rc_current (og_api o)) [] None ++
       calls_log (tracer_of o) (rc_spans (og_api o) + length calls1 + 1) (rc_current (og_api o)) calls2 w ++
       outcome_log (tracer_of o) (rc_spans (og_api o) + length calls1 + 1 + length calls2) op
         (Some (rc_spans (og_api o) + length calls1)) [] (error_of r))) as Hend.
  { intros op fut. destruct (end_log op fut x3 o3 Hi3) as (o4 & He & R4). eexists _, _. split; [exact He|].
    cbn [snd].
    pose proof (recorded_trans _ _ _ _ _ _ _ R1 (recorded_trans _ _ _ _ _ _ _ R2
      (recorded_trans _ _ _ _ _ _ _ R3 R4))) as Hall.
    rewrite (rd_tracer _ _ _ _ R3), (rd_tracer _ _ _ _ R2), (rd_tracer _ _ _ _ R1),
      (rd_spans _ _ _ _ R3), (rd_spans _ _ _ _ R2), (rd_spans _ _ _ _ R1),
      (rd_current _ _ _ _ R2), (rd_current _ _ _ _ R1) in Hall.
    unfold parent_of, x3, x in Hall. cbn [otx_context] in Hall. rewrite (rd_spans _ _ _ _ R1) in Hall. exact Hall. }
  destruct aborts; cbn [rollback commit OtelStore_Store]; unfold otel_rollback, otel_commit.
  - destruct (Hend ops.ROLLBACK (rollback (S := S))) as (t4 & r & -> & Hr). exact Hr.
  - destruct (Hend ops.COMMIT (commit (S := S))) as (t4 & r & -> & Hr). exact Hr.
Qed.
End recorded_tx.

(** ** Witnesses *)

Section witnesses.
Import Concrete.

Definition refuses_locked : Validator :=
  MkValidator (Exact "locked") (λ k _, VRet (Err (Rejected k "locked"))).

Definition plain_store : @BTreeStore bounded_channel := with_validator refuses_locked btree_default.

(** Provider 7 is installed and span 2 is current; two spans were built before. *)
Definition fresh_recording : recording := MkOtel None None (MkRecorder [] 2 7 (Some 1)).

Definition some_span (span : nat) (op : string) (parent : nat) (notes : list OtelKv) : list ApiCall :=
  outcome_log 7 span op (Some parent) notes None.

Definition calls_before : list GsCall := [CSet "locked" (as_bytes "1"); CPut "a" (as_bytes "1")].
Definition calls_within : list GsCall := [CSet "a" (as_bytes "22"); CGets None Next (None, None)].

Abbreviation plain_tx := (OtelTx Recorder (BTreeStore * BTreeTx) * recording)%type.

(** A refused write, a put over nothing, and a transaction with a write and a
    scan. *)
Lemma otel_records_witness :
  ∃ t2 t4 : plain_tx,
    begin_tx (run_calls calls_before (MkOtelStore plain_store, fresh_recording)).2 = Ok t2 ∧
    commit (S := OtelStore BTreeStore * recording) (run_calls calls_within t2).2 = (Ok (), t4) ∧
    recorded fresh_recording t4.2 6
      (outcome_log 7 2 "set" (Some 1) [("oxkv.key", OStr "locked")] (Some (Rejected "locked" "locked")) ++
       some_span 3 "set" 1 [("oxkv.key", OStr "a"); ("oxkv.existed", OBool false)] ++
       some_span 4 "begin_tx" 1 [] ++
       some_span 5 "set" 1 [("oxkv.key", OStr "a"); ("oxkv.existed", OBool true)] ++
       some_span 6 "gets" 1 [("oxkv.items", OInt 1)] ++
       some_span 7 "commit" 4 []).
Proof.
  destruct (otel_records (S := @BTreeStore bounded_channel) (Tx := @BTreeStore bounded_channel * BTreeTx)
    calls_before calls_within false plain_store (btree_begin_tx (run_forwarded calls_before plain_store).2)
    fresh_recording) as (t2 & Hb & Hr); [discriminate|reflexivity|].
  vm_compute in Hb. injection Hb as <-. eexists _, _. split; [vm_compute; reflexivity|].
  split; [vm_compute; reflexivity|exact Hr].
Defined.

(** A writer of the LSM store takes a put without asking its validators; behind
    the decorator the same put is a set, and is refused. *)
Section lsm.

Lemma put_through_decorator :
  match build_with_cache (C := LruCache string SstFile) "p" "w" true false empty_lru mem_new with
  | (Ok (epoch, s), _) =>
      let s := with_validator refuses_locked s in
      let put := CPut "locked" (as_bytes "1") in
      (run_call (H := ox_GetSet "p" epoch "w") put s).1 = Ok RUnit ∧
      (run_call (H := @OtelStore_GetSet Recorder recorder_api _ (ox_GetSet "p" epoch "w")) put
        (MkOtelStore s, fresh_recording)).1 = Err (Rejected "locked" "locked")
  | _ => False
  end.
Proof. vm_compute. by split. Qed.
End lsm.
End witnesses.
