(* ===== verification/Cloud.v ===== *)
(** The store on a cloud service: the paths of a store are left as they are by
    the crate, so that the theorems about the store hold on the adapter of
    [ObjectStore]; a service in memory; and what an error of the service whose
    text has the words of a missing object does. *)

From stdpp Require Import options.
From S2P Require Import Prelude OrdMap Core Codec Hooks BTree BTreeSpec Snapshot Storage Json Ownership.
From S2P Require Import Manifest ObjectStore Blob Probe Wal Merge Sst SstSpec Cache Read LsmStore LsmPaths.
From S2P Require Import StoreNames LsmSpec LsmInv LsmRecover LsmSessions.

(** Segments of letters, digits, dots, dashes and underscores are not encoded. *)
Class PlainPaths (W : Type) `{ObjectStoreApi W} : Prop :=
  os_plain p : Forall plain_name (split_on slash p) → canonical p.

Section cloud.
Context {W C : Type} `{OA : ObjectStoreApi W} `{!ObjectStoreLaws W} `{!PlainPaths W}.
#[local] Existing Instance object_backend.
#[local] Existing Instance object_laws.
Context `{!Clock W} `{!ClockLaws W} `{JsonLaws Manifest} `{JsonLaws SstFooter} `{JsonLaws OwnershipRecord}
  `{Digests} `{!Sha256Laws} `{JsonLaws BlobPointer} `{!Cache C string SstFile, !CacheLaws C string SstFile}
  `{Ch : Channel}.
Context (prefix : ObjectPath) (Hprefix : Forall plain_name (segments prefix)).
Context (K : string → Prop) (U : bytes → Prop) `{!Workload prefix K U}.

Lemma store_path_canonical p : store_path prefix p → canonical p.
Proof using Type*.
  intros Hp. destruct (store_path_segs prefix p Hp) as (t & Hs & _ & Ht). apply os_plain.
  rewrite Hs. by apply Forall_app.
Qed.

#[local] Instance cloud_paths : StorePaths W prefix.
Proof using Type*. split; intros; apply store_path_canonical; constructor. Qed.

(** Sessions on the service answer as one map does. *)
Lemma cloud_sessions xs room epoch V (w : W) :
  recoverable prefix K U (room + 16 * N.of_nat (length (all_calls xs))) epoch V w →
  (epoch + N.of_nat (length xs) < U64)%N → (room + 16 * N.of_nat (length (all_calls xs)) < U64)%N →
  Forall (session_ok K U) xs →
  ∃ w', run_sessions (C := C) prefix xs w = ((lsm_calls (BTreeSpec.accepts []) (all_calls xs) V).1.1, w') ∧
    recoverable prefix K U room (epoch + N.of_nat (length xs))
      (lsm_calls (BTreeSpec.accepts []) (all_calls xs) V).1.2 w'.
Proof using Type*. apply sessions_ok; apply _. Qed.
End cloud.

(** ** A service in memory *)

(** [down p] is the text of the error that a read of [p] fails with. *)
Section service.
Context (down : string → option string).

Definition service_read (p : string) (w : MemInner) : (OsErrorKind * string + MemObject) :=
  match down p with
  | Some text => inl (OsOther, text)
  | None => match objects w !! p with
            | Some o => inr o
            | None => inl (OsNotFound, "no such object")
            end
  end.

Definition service_read_opts (p : string) (none_match : option string) (w : MemInner) :
    (OsErrorKind * string + MemObject) :=
  match service_read p w with
  | inr o => if decide (none_match = Some (mo_etag o)) then inl (OsNotModified, "not modified") else inr o
  | e => e
  end.

Definition service_put (p : string) (b : bytes) (mode : OsPutMode) (w : MemInner) :
    (OsErrorKind * string + (option string * option string)) * MemInner :=
  let mode' := match mode with OsCreate => Create | OsUpdate t v => Update (MkVersion t v) end in
  match mem_put_opts p b mode' w with
  | (Ok out, w') => (inr (po_e_tag out, po_version out), w')
  | (Err _, w') =>
      (inl (match mode with OsCreate => OsAlreadyExists | _ => OsPrecondition end, "precondition"), w')
  end.

Definition mem_service : ObjectStoreApi MemInner := {|
  OsError := OsErrorKind * string;
  os_kind := fst;
  os_display := snd;
  OsPath := string;
  os_path_from p := p;
  os_path_str p := p;
  GetResult := MemObject;
  gr_e_tag o := Some (mo_etag o);
  gr_version o := Some (pretty (mo_version o));
  gr_bytes o w := (inr (mo_bytes o), w);
  os_get p w := (service_read p w, w);
  os_get_opts p m w := (service_read_opts p m w, w);
  os_put_opts := service_put;
  os_delete p w := (inr (), MkMemInner (base.delete p (objects w)) (mem_seq w));
  os_list p w := (inr <$> filter (λ k, under_prefix k (default "" p) = true) (bt_iter (objects w)).*1, w);
|}.
End service.

(** A service whose reads arrive. *)
Definition up_service : ObjectStoreApi MemInner := mem_service (λ _, None).

Section up.
#[local] Existing Instance up_service.

#[local] Instance up_plain : PlainPaths MemInner.
Proof. done. Qed.

Program Definition up_laws : ObjectStoreLaws MemInner := {|
  os_objects := mem_objects;
  os_reached _ := True;
|}.
Next Obligation. done. Qed.
Next Obligation. done. Qed.
Next Obligation.
  refine (λ (p : string) w _, _). eexists _, w. split; [done|]. split; [done|]. split; [done|]. cbn.
  unfold mem_objects, service_read. rewrite lookup_fmap. destruct (objects w !! p) as [o|]; cbn.
  - by eexists _, w.
  - by eexists.
Qed.
Next Obligation.
  refine (λ (p : string) m w _, _). eexists _, w. split; [done|]. split; [done|]. split; [done|]. cbn.
  unfold mem_objects, service_read_opts, service_read. rewrite lookup_fmap.
  destruct (objects w !! p) as [o|]; cbn; [case_decide|]; by repeat eexists.
Qed.
Next Obligation.
  refine (λ (p : string) b mode w _, _). cbn. unfold service_put.
  set (mode' := match mode with OsCreate => Create | OsUpdate t v => Update (MkVersion t v) end).
  destruct (@st_put_law MemInner _ MemStorage_Laws p b mode' w I I (λ _ _ _, I)) as (r & w' & Hput & _ & Hr).
  change (st_put_opts p b mode') with (mem_put_opts p b mode') in Hput. rewrite Hput.
  destruct r as [out|e]; (eexists _, w'; split; [done|]; split; [done|]); cbn.
  - destruct Hr as (tag & Ht & Ho & Hr). exists tag. split; [done|]. split.
    + intros ->. by apply (@st_put_tag_law MemInner _ MemStorage_Laws p b mode' w out w' I I).
    + split; [done|]. by destruct mode.
  - destruct Hr as (_ & Ho & Hr). split; [done|]. by destruct mode.
Qed.
Next Obligation.
  refine (λ (p : string) b w (res : MemObject) w1 _, _). cbn. unfold service_read. destruct (objects w !! p) as [o|] eqn:Ho; [|done].
  intros [= <- <-] b0 w2 [= <- <-]. unfold service_put, mem_put_opts, mem_precondition.
  cbn [ov_e_tag ov_version]. rewrite Ho, !decide_True by done. by eexists _, _.
Qed.
Next Obligation.
  refine (λ (p : string) w _, _). eexists _, _. split; [done|]. split; [done|]. split; [|done]. cbn.
  unfold mem_objects. cbn. by rewrite fmap_delete.
Qed.
Next Obligation.
  refine (λ (p : string) w _, _). eexists _, w. split; [done|]. split; [done|]. split; [done|]. cbn.
  assert (∀ k, k ∈ filter (λ k, under_prefix k p = true) (bt_iter (objects w)).*1 ↔
    is_Some (mem_objects w !! k) ∧ under_prefix k p = true) as Hl.
  { intros k. rewrite list_elem_of_filter, list_elem_of_fmap. unfold mem_objects.
    rewrite lookup_fmap, fmap_is_Some. split.
    - intros (Hu & [k' o] & -> & Hin). apply elem_of_bt_iter in Hin. simpl. by rewrite Hin.
    - intros ([o Ho] & Hu). split; [done|]. exists (k, o). split; [done|]. by apply elem_of_bt_iter. }
  split; [by intros e (k & ? & _)%list_elem_of_fmap|]. split.
  - intros k (k' & [= ->] & Hin)%list_elem_of_fmap. by apply Hl.
  - intros k Hk Hu _. exists k. split; [|done]. apply list_elem_of_fmap. exists k. split; [done|]. by apply Hl.
Qed.
End up.

(** ** An outage that reads as an absence *)

(** A read of the manifest that fails with an error whose text has the words
    "not found", such as that of a host name, is a store without a manifest. *)
Lemma outage_is_absence {W} `{ObjectStoreApi W} `{Json Manifest} prefix (w w' : W) e :
  os_get (os_path_from (manifest_path prefix)) w = (inl e, w') → os_kind e = OsOther →
  str_contains (os_display e) "not found" = true →
  read_manifest (H := object_backend) prefix w = (Ok None, w').
Proof.
  intros Hg Hk Ht. unfold read_manifest, op_try. cbn [st_get object_backend].
  unfold object_get, os_await, op_bind. rewrite Hg. unfold map_get_error. rewrite Hk.
  assert (is_not_found_msg (Storage ("get " +:+ manifest_path prefix +:+ " failed: " +:+ os_display e)) = true) as ->;
    [|done].
  apply str_contains_spec in Ht as (a & b & Ht). apply str_contains_spec. rewrite Ht.
  exists ("storage error: get " +:+ manifest_path prefix +:+ " failed: " +:+ a), b.
  change (Core.to_string (Storage ?m)) with ("storage error: " +:+ m).
  by rewrite !string_app_assoc.
Qed.

Section outage.
#[local] Existing Instance length_digests.
#[local] Existing Instance still_clock.
#[local] Existing Instance se_manifest_json.
#[local] Existing Instance se_footer_json.
#[local] Existing Instance se_owner_json.
#[local] Existing Instance se_pointer_json.

(** The host of the service is not resolved for a while. *)
Definition no_host (p : string) : option string :=
  if bool_decide (p = "p/manifest.json") then Some "dns error: host not found" else None.

(** An outage reads as an absence.  On a service that fails to deliver the
    manifest, with an error whose text has the words of a missing object, the
    owner's collection succeeds and deletes the log that the stored manifest
    lists. *)
Theorem outage_collects_logs :
  let backend := @object_backend MemInner (mem_service no_host) in
  ∃ n s', gc_orphans (H := backend) "p" 1 "w1" holder = (Ok n, s') ∧
    mf_wal one_log = ["p/e000001/wal/00000000.log"] ∧
    is_Some (objects (disk holder) !! "p/e000001/wal/00000000.log") ∧
    objects (disk s') !! "p/e000001/wal/00000000.log" = None.
Proof. eexists _, _. split; [vm_compute; reflexivity|]. split; [done|]. split; [by eexists|]. by vm_compute. Qed.
End outage.
