(* ===== verification/Opfs.v ===== *)
(** The browser backend: [OpfsStorage] of [src/src/store/storage.rs] and the
    Web Lock of [src/src/store/storage/opfs_lock.rs].

    What the source calls of the browser, through web-sys, js-sys and the
    bindings it declares itself, are the methods of the class [OpfsApi] on the
    state of the origin; a promise is awaited by running its effect.  A call of
    a method holds its lock from the grant to the settlement, and the tasks
    that carry its value across are not modelled.  How the calls of several
    tabs interleave is the subject of [OpfsRace]; [OpfsSpec] shows that one
    tab's calls keep the contract of [Storage]. *)

From stdpp Require Import options.
From S2P Require Import Prelude OrdMap Core Codec Hooks Storage Json Blob LsmStore LsmPaths.

(** The effect of a promise: it rejects with a value or resolves. *)
Class OpfsApi (W : Type) := {
  JsValue : Type;
  DirectoryHandle : Type;
  FileHandle : Type;
  JsFile : Type;
  WritableStream : Type;
  Entries : Type;
  LockManager : Type;
  (* values *)
  dom_exception : JsValue → option (string * string);
  js_debug : JsValue → string;
  js_from_str : string → JsValue;
  dyn_directory : JsValue → option DirectoryHandle;
  dyn_file_handle : JsValue → option FileHandle;
  dyn_file : JsValue → option JsFile;
  dyn_writable : JsValue → option WritableStream;
  uint8_array : JsValue → bytes;
  reflect_get : JsValue → string → JsValue + JsValue;
  js_as_bool : JsValue → option bool;
  js_as_string : JsValue → option string;
  js_array_get : JsValue → nat → JsValue;
  (* the global scope is a window *)
  has_window : bool;
  (* the file system *)
  get_directory : W → (JsValue + JsValue) * W;
  get_directory_handle : DirectoryHandle → string → bool → W → (JsValue + JsValue) * W;
  get_file_handle : DirectoryHandle → string → bool → W → (JsValue + JsValue) * W;
  get_file : FileHandle → W → (JsValue + JsValue) * W;
  array_buffer : JsFile → W → (JsValue + JsValue) * W;
  create_writable : FileHandle → W → (JsValue + JsValue) * W;
  write_with_u8_array : WritableStream → bytes → W → (JsValue + ()) * W;
  stream_close : WritableStream → W → (JsValue + ()) * W;
  remove_entry : DirectoryHandle → string → W → (JsValue + ()) * W;
  dir_entries : DirectoryHandle → W → Entries * W;
  entries_next : Entries → W → (JsValue + JsValue) * W;
  (* the locks *)
  navigator_locks : W → option LockManager;
  lock_request : LockManager → string → W → (JsValue + bool) * W;
  lock_settle : string → W → W;
}.

Definition content_etag `{Digests} (b : bytes) : string := hex_bytes (sha256 b).

Section opfs.
Context {W : Type} `{OpfsApi W} `{Digests}.

(** *** JS values *)

Definition opfs_is_not_found (err : JsValue) : bool :=
  match dom_exception err with
  | Some (name, _) => bool_decide (name = "NotFoundError")
  | None => false
  end.

Definition js_err (context : string) (err : JsValue) : StoreError :=
  let detail := match dom_exception err with
                | Some (name, message) => name +:+ ": " +:+ message
                | None => js_debug err
                end in
  Storage (context +:+ ": " +:+ detail).

(** The world of a call: the counter of unlocked operations and the origin. *)
Record Origin := MkOrigin {
  unlocked_operations : N;
  origin : W;
}.

(** [js_await(..).await.map_err(|e| js_err(context, e))?]. *)
Definition js_await {A} (context : string) (promise : W → (JsValue + A) * W) : Op Origin A := λ o,
  let '(r, w) := promise (origin o) in
  (match r with inr v => Ok v | inl e => Err (js_err context e) end,
   MkOrigin (unlocked_operations o) w).

(** The same, with the absence of an entry as a value. *)
Definition js_lookup {A} (context : string) (promise : W → (JsValue + A) * W) : Op Origin (option A) := λ o,
  let '(r, w) := promise (origin o) in
  (match r with
   | inr v => Ok (Some v)
   | inl e => if opfs_is_not_found e then Ok None else Err (js_err context e)
   end, MkOrigin (unlocked_operations o) w).

(** [dyn_into().map_err(|e| js_err(context, e))?]. *)
Definition dyn_into {A} (cast : JsValue → option A) (context : string) (v : JsValue) : Op Origin A :=
  match cast v with Some a => op_ret a | None => op_throw (js_err context v) end.

(** *** The store *)

Record OpfsStorage := MkOpfs { op_root : DirectoryHandle }.

Definition opfs_open : Op Origin OpfsStorage :=
  if negb has_window then op_throw (Storage "OPFS requires a window context")
  else
    let! origin_js := js_await "OPFS getDirectory failed" get_directory in
    let! origin := dyn_into dyn_directory "OPFS root is not a directory" origin_js in
    let! root_js := js_await "OPFS create oxkv root failed" (get_directory_handle origin "oxkv" true) in
    let! root := dyn_into dyn_directory "OPFS oxkv root is not a directory" root_js in
    op_ret (MkOpfs root).

(** [OpfsStorage::split]. *)
Definition opfs_split (path : ObjectPath) : Result (list string * string) :=
  if path_is_empty path then Err (Storage "empty object path")
  else
    let segments := split_on slash path in
    let name := default "" (last segments) in
    let segments := removelast segments in
    if bool_decide (name = "") then Err (Storage ("invalid object path: " +:+ path))
    else Ok (segments, name).

Fixpoint parent_from (dir : DirectoryHandle) (segments : list string) (create : bool) :
    Op Origin (option DirectoryHandle) :=
  match segments with
  | [] => op_ret (Some dir)
  | segment :: segments =>
      let! next := (if create then
          let! next := js_await "OPFS create directory failed" (get_directory_handle dir segment true) in
          op_ret (Some next)
        else js_lookup "OPFS open directory failed" (get_directory_handle dir segment false)) in
      match next with
      | None => op_ret None
      | Some next =>
          let! dir := dyn_into dyn_directory "OPFS entry is not a directory" next in
          parent_from dir segments create
      end
  end.

Section store.
Context (self : OpfsStorage).

Definition parent (segments : list string) (create : bool) : Op Origin (option DirectoryHandle) :=
  parent_from (op_root self) segments create.

Definition read_existing (path : ObjectPath) : Op Origin (option (bytes * string)) :=
  let! (segments, name) := op_lift (opfs_split path) in
  let! dir := parent segments false in
  match dir with
  | None => op_ret None
  | Some dir =>
      let! handle := js_lookup "OPFS open file failed" (get_file_handle dir name false) in
      match handle with
      | None => op_ret None
      | Some handle =>
          let! handle := dyn_into dyn_file_handle "OPFS entry is not a file" handle in
          let! file := js_await "OPFS read file failed" (get_file handle) in
          let! file := dyn_into dyn_file "OPFS entry is not a file" file in
          let! buffer := js_await "OPFS read bytes failed" (array_buffer file) in
          let bytes := uint8_array buffer in
          op_ret (Some (bytes, content_etag bytes))
      end
  end.

Definition write_new (path : ObjectPath) (payload : bytes) : Op Origin string :=
  let! (segments, name) := op_lift (opfs_split path) in
  let! dir := parent segments true in
  match dir with
  | None => op_throw (Storage ("OPFS missing parent for " +:+ path))
  | Some dir =>
      let! handle := js_await "OPFS create file failed" (get_file_handle dir name true) in
      let! handle := dyn_into dyn_file_handle "OPFS entry is not a file" handle in
      let! stream := js_await "OPFS open writer failed" (create_writable handle) in
      let! stream := dyn_into dyn_writable "OPFS writer is not writable" stream in
      js_await "OPFS write failed" (write_with_u8_array stream payload) ;;
      js_await "OPFS close failed" (stream_close stream) ;;
      op_ret (content_etag payload)
  end.

(** The precondition of a put: the match of [put_guarded]. *)
Definition put_check (path : ObjectPath) (mode : PutMode) : Op Origin () :=
  match mode with
  | Create =>
      let! existing := read_existing path in
      if bool_decide (is_Some existing) then op_throw (CasConflict (path +:+ ": already exists"))
      else op_ret ()
  | Update expected =>
      let! existing := read_existing path in
      match existing with
      | None => op_throw (CasConflict (path +:+ ": missing for update"))
      | Some (_, etag) =>
          if bool_decide (ov_e_tag expected ≠ Some etag) then op_throw (CasConflict (path +:+ ": etag mismatch"))
          else
            match ov_version expected with
            | Some version =>
                if bool_decide (version ≠ etag) then op_throw (CasConflict (path +:+ ": version mismatch"))
                else op_ret ()
            | None => op_ret ()
            end
      end
  end.

Definition put_write (path : ObjectPath) (payload : bytes) : Op Origin PutOutcome :=
  let! etag := write_new path payload in
  op_ret (MkPutOutcome (Some etag) (Some etag)).

Definition put_guarded (path : ObjectPath) (payload : bytes) (mode : PutMode) : Op Origin PutOutcome :=
  put_check path mode ;; put_write path payload.

Definition delete_guarded (path : ObjectPath) : Op Origin () :=
  let! (segments, name) := op_lift (opfs_split path) in
  let! dir := parent segments false in
  match dir with
  | None => op_ret ()
  | Some dir =>
      let! _ := js_lookup "OPFS delete failed" (remove_entry dir name) in op_ret ()
  end.

(** *** The listing *)

(** A step of the iterator: an entry's name and handle, or the end. *)
Definition next_entry (entries : Entries) : Op Origin (option (string * JsValue)) :=
  let! step := js_await "OPFS list failed" (entries_next entries) in
  let done := match reflect_get step "done" with inr v => default false (js_as_bool v) | inl _ => false end in
  if done : bool then op_ret None
  else
    match reflect_get step "value" with
    | inl e => op_throw (js_err "OPFS list failed" e)
    | inr entry => op_ret (Some (default "" (js_as_string (js_array_get entry 0)), js_array_get entry 1))
    end.

Abbreviation walk := (list ObjectPath * list (DirectoryHandle * string))%type.

(** The body of the inner loop, on the keys and the stack of directories. *)
Definition list_entry (prefix : ObjectPath) (base name : string) (handle : JsValue) (st : walk) : Op Origin walk :=
  let key := if bool_decide (base = "") then name else base +:+ "/" +:+ name in
  match dyn_directory handle with
  | Some child =>
      op_ret (if under_prefix key prefix || str_starts_with prefix key
              then (st.1, (child, key) :: st.2) else st)
  | None =>
      match dyn_file_handle handle with
      | None => op_throw (Storage ("OPFS entry is neither a file nor a directory: " +:+ key))
      | Some _ => op_ret (if under_prefix key prefix then (st.1 ++ [key], st.2) else st)
      end
  end.

Fixpoint list_dir (fuel : nat) (prefix : ObjectPath) (base : string) (entries : Entries) (st : walk) :
    Op Origin walk :=
  match fuel with
  | O => op_throw (Other "fuel")
  | S fuel =>
      let! step := next_entry entries in
      match step with
      | None => op_ret st
      | Some (name, handle) =>
          let! st := list_entry prefix base name handle st in
          list_dir fuel prefix base entries st
      end
  end.

(** The outer loop; the head of the stack is its last element. *)
Fixpoint list_walk (fuel : nat) (prefix : ObjectPath) (st : walk) : Op Origin (list ObjectPath) :=
  match fuel with
  | O => op_throw (Other "fuel")
  | S fuel =>
      match st.2 with
      | [] => op_ret st.1
      | (dir, base) :: stack =>
          let! entries := (λ o, let '(it, w) := dir_entries dir (origin o) in
                                (Ok it, MkOrigin (unlocked_operations o) w)) in
          let! st := list_dir fuel prefix base entries (st.1, stack) in
          list_walk fuel prefix st
      end
  end.

Definition list_all (fuel : nat) (prefix : ObjectPath) : Op Origin (list ObjectPath) :=
  list_walk fuel prefix ([], [(op_root self, "")]).
End store.

(** *** The lock *)

Definition LOCK_NAMESPACE : string := "oxkv/opfs/".
Definition lock_name (path : ObjectPath) : string := LOCK_NAMESPACE +:+ path.

Definition lock_manager (o : Origin) : option LockManager := navigator_locks (origin o).
Definition locks_available (o : Origin) : bool := bool_decide (is_Some (lock_manager o)).
Definition unlocked_operation_count (o : Origin) : N := unlocked_operations o.
Definition cross_tab_cas_is_atomic (o : Origin) : bool := locks_available o.

(** The guarded section runs while the lock is held; its promise is settled
    however it ends.  A request that is granted without running it, or that is
    refused, is an error. *)
Definition with_object_lock {A} (path : ObjectPath) (guarded : Op Origin A) : Op Origin A := λ o,
  match lock_manager o with
  | None => guarded (MkOrigin ((unlocked_operations o + 1) mod U64)%N (origin o))
  | Some manager =>
      let '(requested, w) := lock_request manager (lock_name path) (origin o) in
      let o := MkOrigin (unlocked_operations o) w in
      match requested with
      | inr true =>
          let '(result, o) := guarded o in
          (result, MkOrigin (unlocked_operations o) (lock_settle (lock_name path) (origin o)))
      | inr false =>
          (Err (js_err "OPFS Web Lock callback did not run" (js_from_str "request resolved without a result")), o)
      | inl e => (Err (js_err "OPFS Web Lock request failed" e), o)
      end
  end.

(** *** [Storage] *)

Section storage.
Context (self : OpfsStorage).

Definition opfs_get (path : ObjectPath) : Op Origin GetOutput :=
  let! existing := read_existing self path in
  match existing with
  | Some (bytes, etag) => op_ret (MkGetOutput bytes (Some etag) (Some etag))
  | None => op_throw (Storage ("not found: " +:+ path))
  end.

Definition opfs_get_opts (path : ObjectPath) (options : GetOptions) : Op Origin GetOutput :=
  let! out := opfs_get path in
  if bool_decide (if_none_match options = go_e_tag out ∧ is_Some (go_e_tag out))
  then op_throw NotModified else op_ret out.

Definition opfs_put_opts (path : ObjectPath) (payload : bytes) (mode : PutMode) : Op Origin PutOutcome :=
  with_object_lock path (put_guarded self path payload mode).

Definition opfs_delete (path : ObjectPath) : Op Origin () :=
  with_object_lock path (delete_guarded self path).
End storage.
End opfs.
Arguments Origin W : clear implicits.
