(* ===== verification/OpfsSpec.v ===== *)
(** The browser backend keeps the contract of [Storage] on any set of paths
    whose segments are names and of which none is a directory of another. *)

From stdpp Require Import options.
From S2P Require Import Prelude OrdMap Core Codec Hooks Storage Json Blob LsmStore LsmPaths StoreNames Opfs.

(** ** The file system *)

(** A name as the standard has it; a backslash is a separator on some
    platforms. *)
Definition backslash : Ascii.ascii := Ascii.ascii_of_nat 92.
Definition valid_name (n : string) : bool :=
  bool_decide (n ≠ "" ∧ n ≠ "." ∧ n ≠ ".." ∧ no_char slash n ∧ no_char backslash n).

Lemma valid_name_law n : valid_name n = true → n ≠ "" ∧ no_char slash n.
Proof. intros (? & _ & _ & ? & _)%bool_decide_eq_true. done. Qed.

(** What the File System standard says of the calls, on an origin whose private
    files are [fs]: a path of names leads to a file or to a directory.  A
    handle is a path, an iterator goes through the names of its directory, and
    a lock that nobody holds is granted. *)
Class OpfsLaws (W : Type) `{OpfsApi W} := {
  fs : W → gmap (list string) (option bytes);
  fs_wf : W → Prop;
  dir_at : DirectoryHandle → list string;
  file_at : FileHandle → list string;
  iterates : W → Entries → list string → list string → Prop;
  fs_root w : fs_wf w → fs w !! [] = Some None;
  fs_tree w l n x : fs_wf w → fs w !! (l ++ [n]) = Some x → fs w !! l = Some None ∧ valid_name n = true;
  root_law w : fs_wf w → has_window = true →
    ∃ v d w', get_directory w = (inr v, w') ∧ dyn_directory v = Some d ∧ dir_at d = [] ∧
      fs w' = fs w ∧ fs_wf w';
  directory_law d name create w : fs_wf w → fs w !! dir_at d = Some None → valid_name name = true →
    ∃ r w', get_directory_handle d name create w = (r, w') ∧ fs_wf w' ∧
      let p := dir_at d ++ [name] in
      let found := ∃ v d', r = inr v ∧ dyn_directory v = Some d' ∧ dir_at d' = p in
      match fs w !! p with
      | Some None => found ∧ fs w' = fs w
      | Some (Some _) => fs w' = fs w
      | None =>
          if create then found ∧ fs w' = <[p := None]> (fs w)
          else (∃ e, r = inl e ∧ opfs_is_not_found e = true) ∧ fs w' = fs w
      end;
  file_law d name create w : fs_wf w → fs w !! dir_at d = Some None → valid_name name = true →
    ∃ r w', get_file_handle d name create w = (r, w') ∧ fs_wf w' ∧
      let p := dir_at d ++ [name] in
      let found := ∃ v f, r = inr v ∧ dyn_file_handle v = Some f ∧ file_at f = p in
      match fs w !! p with
      | Some (Some _) => found ∧ fs w' = fs w
      | Some None => fs w' = fs w
      | None =>
          if create then found ∧ fs w' = <[p := Some []]> (fs w)
          else (∃ e, r = inl e ∧ opfs_is_not_found e = true) ∧ fs w' = fs w
      end;
  read_law f b w : fs_wf w → fs w !! file_at f = Some (Some b) →
    ∃ v file w1 u w2, get_file f w = (inr v, w1) ∧ dyn_file v = Some file ∧
      array_buffer file w1 = (inr u, w2) ∧ uint8_array u = b ∧ fs w2 = fs w ∧ fs_wf w2;
  write_law f b0 b w : fs_wf w → fs w !! file_at f = Some (Some b0) →
    ∃ v stream w1 w2 w3, create_writable f w = (inr v, w1) ∧ dyn_writable v = Some stream ∧
      write_with_u8_array stream b w1 = (inr (), w2) ∧ stream_close stream w2 = (inr (), w3) ∧
      fs w3 = <[file_at f := Some b]> (fs w) ∧ fs_wf w3;
  remove_law d name w : fs_wf w → fs w !! dir_at d = Some None → valid_name name = true →
    ∃ r w', remove_entry d name w = (r, w') ∧ fs_wf w' ∧
      let p := dir_at d ++ [name] in
      match fs w !! p with
      | Some (Some _) => r = inr () ∧ fs w' = base.delete p (fs w)
      | Some None => True
      | None => (∃ e, r = inl e ∧ opfs_is_not_found e = true) ∧ fs w' = fs w
      end;
  entries_law d w : fs_wf w → fs w !! dir_at d = Some None →
    ∃ it w' names, dir_entries d w = (it, w') ∧ fs w' = fs w ∧ fs_wf w' ∧
      iterates w' it (dir_at d) names ∧ NoDup names ∧ length names ≤ size (fs w) ∧
      ∀ n, n ∈ names ↔ is_Some (fs w !! (dir_at d ++ [n]));
  next_law it l names w : fs_wf w → iterates w it l names →
    ∃ step w', entries_next it w = (inr step, w') ∧ fs w' = fs w ∧ fs_wf w' ∧
      match names with
      | [] => ∃ v, reflect_get step "done" = inr v ∧ js_as_bool v = Some true
      | n :: names => ∃ v entry,
          reflect_get step "done" = inr v ∧ js_as_bool v = Some false ∧
          reflect_get step "value" = inr entry ∧ js_as_string (js_array_get entry 0) = Some n ∧
          iterates w' it l names ∧
          match fs w !! (l ++ [n]) with
          | Some None => ∃ d, dyn_directory (js_array_get entry 1) = Some d ∧ dir_at d = l ++ [n]
          | _ => dyn_directory (js_array_get entry 1) = None ∧
              is_Some (dyn_file_handle (js_array_get entry 1))
          end
      end;
  locks_law w m name : fs_wf w → navigator_locks w = Some m →
    ∃ w', lock_request m name w = (inr true, w') ∧ fs w' = fs w ∧ fs_wf w';
  settle_law name w : fs_wf w → fs (lock_settle name w) = fs w ∧ fs_wf (lock_settle name w);
}.

(** A set of object paths: names between slashes, and none of them a directory
    on the way to another. *)
Record prefix_free (P : ObjectPath → Prop) : Prop := {
  pf_names p : P p → Forall (λ n, valid_name n = true) (split_on slash p);
  pf_free p q : P p → P q → split_on slash p `prefix_of` split_on slash q → p = q;
}.

Abbreviation segs := (split_on slash).

Lemma split_rejoin l : l ≠ [] → Forall (no_char slash) l → segs (rejoin slash l) = l.
Proof.
  induction l as [|n l IH]; [done|]. intros _ [Hn Hl]%Forall_cons. destruct l as [|n' l].
  - by apply split_on_no.
  - change (rejoin slash (n :: n' :: l)) with (n +:+ String slash (rejoin slash (n' :: l))).
    by rewrite split_on_app, IH.
Qed.

Lemma segs_inj p q : segs p = segs q → p = q.
Proof. intros Heq. by rewrite <-(rejoin_split slash p), Heq, rejoin_split. Qed.

(** The directory and the name of a path. *)
Lemma segs_snoc p : ∃ l n, segs p = l ++ [n].
Proof.
  destruct (segs p) as [|s l] eqn:Hs; [by destruct (split_on_ne slash p)|].
  destruct (exists_last (l := s :: l)) as (l' & n & ->); [done|]. by exists l', n.
Qed.

(** A path splits into its directory and its name. *)
Lemma split_spec p l n : segs p = l ++ [n] → n ≠ "" → opfs_split p = Ok (l, n).
Proof.
  intros Hs Hn. unfold opfs_split, path_is_empty. case_bool_decide as Hp.
  - subst p. change (([] : list string) ++ [""] = l ++ [n]) in Hs.
    by apply app_inj_tail in Hs as [_ ?].
  - rewrite Hs, last_snoc, removelast_last. simpl. by rewrite bool_decide_eq_false_2.
Qed.

(** The key of an entry, and whether the walk descends into it. *)
Definition entry_key (base name : string) : string :=
  if bool_decide (base = "") then name else base +:+ "/" +:+ name.
Definition descends (key prefix : string) : bool :=
  under_prefix key prefix || str_starts_with prefix key.

Lemma rejoin_app t u : t ≠ [] → u ≠ [] →
  rejoin slash (t ++ u) = rejoin slash t +:+ String slash (rejoin slash u).
Proof.
  intros Ht Hu. induction t as [|n t IH]; [done|]. destruct t as [|n' t].
  - destruct u; [done|]. done.
  - change (rejoin slash ((n :: n' :: t) ++ u)) with (n +:+ String slash (rejoin slash ((n' :: t) ++ u))).
    rewrite IH by done.
    change (rejoin slash (n :: n' :: t)) with (n +:+ String slash (rejoin slash (n' :: t))).
    by rewrite string_app_assoc.
Qed.

Lemma entry_key_rejoin t n : Forall (λ n, n ≠ "") t →
  entry_key (rejoin slash t) n = rejoin slash (t ++ [n]).
Proof.
  intros Ht. unfold entry_key. destruct t as [|m t]; [done|]. rewrite bool_decide_eq_false_2.
  - by rewrite rejoin_app.
  - apply Forall_cons in Ht as [Hm _]. destruct m; [done|]. by destruct t.
Qed.

Lemma str_starts_with_app s t : str_starts_with (s +:+ t) s = true.
Proof.
  unfold str_starts_with. induction s as [|a s IH]; [by destruct t|].
  change (String a s +:+ t) with (String a (s +:+ t)). simpl. by destruct (Ascii.ascii_dec a a).
Qed.

(** Two prefixes of one string are comparable. *)
Lemma app_compare (a b c d : string) : a +:+ b = c +:+ d →
  (∃ e, c = a +:+ e ∧ b = e +:+ d) ∨ ∃ e, a = c +:+ e ∧ d = e +:+ b.
Proof.
  revert c. induction a as [|x a IH]; intros c Heq.
  - left. by exists c.
  - destruct c as [|y c].
    + right. by exists (String x a).
    + change (String x (a +:+ b) = String y (c +:+ d)) in Heq. injection Heq as -> Heq.
      destruct (IH _ Heq) as [(e & -> & ->)|(e & -> & ->)]; [left|right]; by exists e.
Qed.

(** The directories above a listed object are walked. *)
Lemma descends_above key rest prefix :
  under_prefix (key +:+ String slash rest) prefix = true → descends key prefix = true.
Proof.
  unfold descends, under_prefix. case_bool_decide as Hp; [done|].
  destruct (strip_prefix prefix (key +:+ String slash rest)) as [r|] eqn:Hr; [|done].
  apply strip_prefix_Some in Hr. intros Hu.
  destruct (app_compare _ _ _ _ Hr) as [(e & -> & _)|(e & -> & He)].
  - by rewrite str_starts_with_app, orb_true_r.
  - rewrite (proj2 (strip_prefix_Some prefix _ e)) by done. apply orb_true_iff. left.
    subst r. destruct e as [|a e]; [done|].
    apply orb_true_iff in Hu as [Hu|Hu]; [by apply bool_decide_eq_true in Hu|].
    apply orb_true_iff. right. unfold str_starts_with in *.
    change (String a e +:+ String slash rest) with (String a (e +:+ String slash rest)) in Hu.
    cbn in *. case_match; [by destruct e|done].
Qed.

(** The paths under the directories that are still to be visited. *)
Definition below (m : gmap (list string) (option bytes)) (dirs : list (list string)) : gset (list string) :=
  filter (λ x, Exists (λ d, d `prefix_of` x) dirs) (dom m).

Definition antichain (dirs : list (list string)) : Prop :=
  NoDup dirs ∧ ∀ x y, x ∈ dirs → y ∈ dirs → x `prefix_of` y → x = y.

Lemma prefix_snoc_inv {A} (x l : list A) n : x `prefix_of` l ++ [n] → x `prefix_of` l ∨ x = l ++ [n].
Proof.
  intros [k Hk]. destruct k as [|m k _] using rev_ind.
  - right. by rewrite app_nil_r in Hk.
  - left. rewrite app_assoc in Hk. apply app_inj_tail in Hk as [-> _]. by exists k.
Qed.

Lemma snoc_not_prefix {A} (l : list A) n : ¬ (l ++ [n] `prefix_of` l).
Proof. intros Hp%prefix_length. rewrite length_app in Hp. simpl in Hp. lia. Qed.

(** A visited directory is replaced by some of its own. *)
Lemma antichain_visit l new dirs :
  antichain (l :: dirs) → NoDup new → (∀ x, x ∈ new → ∃ n, x = l ++ [n]) →
  antichain (new ++ dirs) ∧ l ∉ dirs ∧ ∀ e, e ∈ dirs → ¬ (e `prefix_of` l).
Proof.
  intros [Hnd Hanti] Hnew Hin. apply NoDup_cons in Hnd as [Hl Hnd].
  assert (Hfresh : ∀ e, e ∈ dirs → ¬ (e `prefix_of` l)).
  { intros e He Hp. apply Hl. by rewrite <-(Hanti e l) by (try done; (by right) || by left). }
  assert (Hup : ∀ e n, e ∈ dirs → ¬ (l ++ [n] `prefix_of` e)).
  { intros e n He Hp. apply (snoc_not_prefix l n).
    rewrite (Hanti l e) at 2; [done|by left|by right|]. etrans; [|done]. by exists [n]. }
  split; [|done]. split.
  - apply NoDup_app. split; [done|]. split; [|done]. intros x Hx He.
    destruct (Hin x Hx) as [n ->]. by apply (Hup _ n He).
  - intros x y [Hx|Hx]%elem_of_app [Hy|Hy]%elem_of_app Hp.
    + destruct (Hin _ Hx) as [n ->], (Hin _ Hy) as [n' ->].
      destruct (prefix_snoc_inv _ _ _ Hp) as [Hp'|Hp']; [|done]. by apply snoc_not_prefix in Hp'.
    + destruct (Hin _ Hx) as [n ->]. by apply Hup in Hp.
    + destruct (Hin _ Hy) as [n ->]. destruct (prefix_snoc_inv _ _ _ Hp) as [Hp'|Hp']; [|done].
      by apply Hfresh in Hp'.
    + apply Hanti; [by right|by right|done].
Qed.

Lemma below_visit m l new dirs :
  antichain (l :: dirs) → NoDup new → (∀ x, x ∈ new → ∃ n, x = l ++ [n]) → m !! l = Some None →
  size (below m (new ++ dirs)) < size (below m (l :: dirs)).
Proof.
  intros Hanti Hnd Hin Hl. destruct (antichain_visit l new dirs) as (_ & Hni & Hfresh); [done..|].
  apply subset_size. split.
  - intros x. unfold below. rewrite !elem_of_filter, !Exists_exists.
    intros [(d & [Hd|Hd]%elem_of_app & Hp) Hx]; (split; [|done]).
    + exists l. split; [by left|]. destruct (Hin _ Hd) as [n ->]. etrans; [|done]. by exists [n].
    + exists d. split; [by right|done].
  - intros Hsub. assert (l ∈ below m (new ++ dirs)) as Hbad.
    { apply Hsub, elem_of_filter. split; [apply Exists_cons; by left|].
      by apply elem_of_dom; eexists. }
    apply elem_of_filter in Hbad as [Hex _]. apply Exists_exists in Hex as (d & Hd & Hp).
    apply elem_of_app in Hd as [Hd|Hd]; [|by apply (Hfresh d)].
    destruct (Hin _ Hd) as [n ->]. by apply snoc_not_prefix in Hp.
Qed.

Section spec.
Context {W : Type} `{OpfsLaws W} `{Digests}.
Context (self : OpfsStorage) (P : ObjectPath → Prop) (HP : prefix_free P).

(** ** The objects *)

Abbreviation root := (dir_at (op_root self)).
Abbreviation files o := (fs (origin o)).

Definition opfs_at (o : Origin W) (p : ObjectPath) : option (bytes * string) :=
  match files o !! (root ++ segs p) with
  | Some (Some b) => Some (b, content_etag b)
  | _ => None
  end.

(** The store's own files are at the paths of [P], and its directories lead to
    such a path. *)
Record disciplined (o : Origin W) : Prop := {
  ds_wf : fs_wf (origin o);
  ds_root : files o !! root = Some None;
  ds_file l b : l ≠ [] → files o !! (root ++ l) = Some (Some b) → ∃ p, P p ∧ segs p = l;
  ds_dir l : l ≠ [] → files o !! (root ++ l) = Some None →
    ∃ p k, P p ∧ k ≠ [] ∧ segs p = l ++ k;
}.

Lemma path_names p l k : P p → segs p = l ++ k → Forall (λ n, valid_name n = true) l.
Proof using Type*.
  intros Hp Hs. pose proof (pf_names _ HP p Hp) as Hall. rewrite Hs in Hall.
  by apply Forall_app in Hall as [? _].
Qed.

Lemma path_snoc p : P p → ∃ l n, segs p = l ++ [n] ∧ opfs_split p = Ok (l, n) ∧
  valid_name n = true.
Proof using Type*.
  intros Hp. destruct (segs_snoc p) as (l & n & Hs). exists l, n.
  pose proof (pf_names _ HP p Hp) as Hall. rewrite Hs in Hall.
  apply Forall_app in Hall as [_ [Hn _]%Forall_cons].
  split; [done|]. split; [|done]. apply split_spec; [done|]. by apply valid_name_law.
Qed.

(** No directory lies where an object may, and no file where a directory
    leads to one. *)
Lemma not_dir o p : disciplined o → P p → files o !! (root ++ segs p) ≠ Some None.
Proof using Type*.
  intros Ho Hp Hd. destruct (ds_dir _ Ho _ (split_on_ne _ _) Hd) as (q & k & Hq & Hk & Hs).
  assert (p = q) as <-. { apply (pf_free _ HP); [done..|]. rewrite Hs. by exists k. }
  destruct k; [done|]. apply (f_equal length) in Hs. rewrite length_app in Hs. simpl in Hs. lia.
Qed.

Lemma not_file o p l k b : disciplined o → P p → segs p = l ++ k → k ≠ [] →
  files o !! (root ++ l) ≠ Some (Some b).
Proof using Type*.
  intros Ho Hp Hs Hk Hf. destruct (decide (l = [])) as [->|Hl].
  - rewrite app_nil_r, (ds_root _ Ho) in Hf. done.
  - destruct (ds_file _ Ho _ _ Hl Hf) as (q & Hq & Hsq).
    assert (q = p) as ->. { apply (pf_free _ HP); [done..|]. rewrite Hs, Hsq. by exists k. }
    rewrite Hs in Hsq. destruct k; [done|]. apply (f_equal length) in Hsq.
    rewrite length_app in Hsq. simpl in Hsq. lia.
Qed.

(** Nothing lies under a directory that does not exist. *)
Lemma absent_below w l k : fs_wf w → fs w !! l = None → fs w !! (l ++ k) = None.
Proof using Type.
  intros Hw Hl. destruct k as [|n k _] using rev_ind; [by rewrite app_nil_r|].
  destruct (fs w !! (l ++ k ++ [n])) as [x|] eqn:Hx; [|done]. exfalso.
  revert n x Hx. induction k as [|m k IH] using rev_ind; intros n x Hx;
    rewrite app_assoc in Hx; apply fs_tree in Hx as [Hx _]; [|done| |done].
  - rewrite app_nil_r, Hl in Hx. done.
  - by apply IH in Hx.
Qed.

(** ** Directories *)

(** The two ways to the parent of a path.  [fills w w' p] says that only
    directories were made, all of them above [p]. *)
Definition fills (a l : list string) (m m' : gmap (list string) (option bytes)) : Prop :=
  m' !! (a ++ l) = Some None ∧
  ∀ x, m' !! x = m !! x ∨
    (m !! x = None ∧ m' !! x = Some None ∧ ∃ k, k `prefix_of` l ∧ k ≠ [] ∧ x = a ++ k).

Lemma parent_open segments (d : DirectoryHandle) o :
  fs_wf (origin o) → files o !! dir_at d = Some None →
  Forall (λ n, valid_name n = true) segments →
  (∀ l k b, segments = l ++ k → files o !! (dir_at d ++ l) ≠ Some (Some b)) →
  ∃ r o', parent_from d segments false o = (Ok r, o') ∧ files o' = files o ∧ fs_wf (origin o') ∧
    unlocked_operations o' = unlocked_operations o ∧
    match r with
    | Some d' => dir_at d' = dir_at d ++ segments ∧ files o !! dir_at d' = Some None
    | None => files o !! (dir_at d ++ segments) = None
    end.
Proof using Type.
  revert d o. induction segments as [|n segments IH]; intros d o Hwf Hd Hv Hnf.
  - exists (Some d), o. rewrite app_nil_r. done.
  - apply Forall_cons in Hv as [Hn Hv].
    destruct (directory_law d n false _ Hwf Hd Hn) as (r & w1 & Hr & Hwf1 & Hcase).
    cbv zeta in Hcase. cbn [parent_from]. unfold js_lookup, op_bind at 1. rewrite Hr.
    destruct (fs (origin o) !! (dir_at d ++ [n])) as [[b|]|] eqn:Hx.
    + by destruct (Hnf [n] segments b).
    + destruct Hcase as ((v & d' & -> & Hdyn & Hd') & Hf). cbn. unfold dyn_into, op_bind. rewrite Hdyn.
      destruct (IH d' (MkOrigin (unlocked_operations o) w1)) as (r & o' & Heq & Hf' & Hwf' & Hu & Hc);
        cbn [origin unlocked_operations] in *.
      * done.
      * by rewrite Hd', Hf.
      * done.
      * intros l k b ->. rewrite Hd', Hf, <-app_assoc. by apply (Hnf (n :: l) k).
      * exists r, o'. cbn. rewrite Heq, Hf', Hf in *.
        rewrite Hd', <-app_assoc in Hc. done.
    + destruct Hcase as ((e & -> & He) & Hf). rewrite He. eexists None, _. split; [done|].
      split; [done|]. split; [done|]. split; [done|].
      rewrite (app_assoc _ [n] segments : dir_at d ++ n :: segments = _).
      by apply absent_below.
Qed.

Lemma fills_cons a n l m m1 m' :
  (m !! (a ++ [n]) = Some None ∧ m1 = m) ∨ (m !! (a ++ [n]) = None ∧ m1 = <[a ++ [n] := None]> m) →
  fills (a ++ [n]) l m1 m' → fills a (n :: l) m m'.
Proof using Type.
  intros Hm [Hend Hx]. split; [by rewrite <-app_assoc in Hend|]. intros x.
  destruct (Hx x) as [Heq|(Hn & Hs & k & Hk & Hne & ->)].
  - destruct Hm as [[_ ->]|[Hno ->]]; [by left|].
    destruct (decide (x = a ++ [n])) as [->|Hne]; [|left; by rewrite Heq, lookup_insert_ne].
    right. rewrite lookup_insert_eq in Heq. split; [done|]. split; [done|].
    exists [n]. split; [by exists l|done].
  - right. rewrite <-app_assoc in *. split; [|split; [done|exists (n :: k)]].
    + destruct Hm as [[_ ->]|[_ ->]]; [done|]. rewrite lookup_insert_ne in Hn; [done|].
      intros Heq. apply app_inv_head in Heq. destruct k; [done|by inversion Heq].
    + split; [|done]. by apply prefix_cons.
Qed.

Lemma fills_file a l m m' x b : fills a l m m' → m' !! x = Some (Some b) ↔ m !! x = Some (Some b).
Proof using Type. intros [_ Hx]. destruct (Hx x) as [->|(-> & -> & _)]; done. Qed.

Lemma parent_create segments (d : DirectoryHandle) o :
  fs_wf (origin o) → files o !! dir_at d = Some None →
  Forall (λ n, valid_name n = true) segments →
  (∀ l k b, segments = l ++ k → files o !! (dir_at d ++ l) ≠ Some (Some b)) →
  ∃ d' o', parent_from d segments true o = (Ok (Some d'), o') ∧ fs_wf (origin o') ∧
    unlocked_operations o' = unlocked_operations o ∧
    dir_at d' = dir_at d ++ segments ∧ fills (dir_at d) segments (files o) (files o').
Proof using Type.
  revert d o. induction segments as [|n segments IH]; intros d o Hwf Hd Hv Hnf.
  - exists d, o. unfold fills. rewrite app_nil_r. split; [done|]. split; [done|]. split; [done|].
    split; [done|]. split; [done|]. by left.
  - apply Forall_cons in Hv as [Hn Hv].
    destruct (directory_law d n true _ Hwf Hd Hn) as (r & w1 & Hr & Hwf1 & Hcase).
    cbv zeta in Hcase. cbn [parent_from].
    assert ((∃ v d', r = inr v ∧ dyn_directory v = Some d' ∧ dir_at d' = dir_at d ++ [n]) ∧
      ((files o !! (dir_at d ++ [n]) = Some None ∧ fs w1 = files o) ∨
       (files o !! (dir_at d ++ [n]) = None ∧ fs w1 = <[dir_at d ++ [n] := None]> (files o))))
      as ((v & d1 & -> & Hdyn & Hd1) & Hf).
    { destruct (fs (origin o) !! (dir_at d ++ [n])) as [[b|]|] eqn:Hx.
      - by destruct (Hnf [n] segments b).
      - destruct Hcase. by auto.
      - destruct Hcase. by auto. }
    unfold js_await, op_bind. rewrite Hr. cbn. unfold dyn_into. rewrite Hdyn. cbn.
    destruct (IH d1 (MkOrigin (unlocked_operations o) w1)) as (d' & o' & Heq & Hwf' & Hu & Hd' & Hfill);
      cbn [origin unlocked_operations] in *.
    + done.
    + rewrite Hd1. destruct Hf as [[? ->]|[_ ->]]; [done|by rewrite lookup_insert_eq].
    + done.
    + intros l k b ->. rewrite Hd1, <-app_assoc. specialize (Hnf (n :: l) k b eq_refl).
      destruct Hf as [[? ->]|[_ ->]]; [done|]. rewrite lookup_insert_Some. naive_solver.
    + exists d', o'. rewrite Heq. split; [done|]. split; [done|]. split; [done|].
      rewrite Hd1 in Hd', Hfill. split; [by rewrite Hd', <-app_assoc|].
      by eapply fills_cons.
Qed.

(** ** Objects *)

(** The parent of a path of [P] is reached, or the object is not there. *)
Lemma above_ok o p l n : disciplined o → P p → segs p = l ++ [n] →
  ∀ l' k b, l = l' ++ k → files o !! (root ++ l') ≠ Some (Some b).
Proof using Type*.
  intros Ho Hp Hs l' k b ->. apply (not_file o p l' (k ++ [n])); [done..| |by destruct k].
  by rewrite Hs, app_assoc.
Qed.

Lemma read_existing_spec o p : disciplined o → P p →
  ∃ o', read_existing self p o = (Ok (opfs_at o p), o') ∧ files o' = files o ∧ fs_wf (origin o') ∧
    unlocked_operations o' = unlocked_operations o.
Proof using Type*.
  intros Ho Hp. destruct (path_snoc p Hp) as (l & n & Hs & Hsplit & Hn).
  unfold read_existing, opfs_at. rewrite Hsplit, Hs.
  destruct (parent_open l (op_root self) o) as (r & o1 & Hpar & Hf1 & Hwf1 & Hu1 & Hr).
  { apply Ho. } { apply Ho. } { by eapply path_names. } { by eapply above_ok. }
  unfold op_lift, op_bind at 1. cbn. unfold op_bind at 1, parent. rewrite Hpar.
  destruct r as [d|].
  2: { rewrite app_assoc, absent_below by (try done; apply Ho). by exists o1. }
  destruct Hr as [Hd Hdir]. rewrite app_assoc, <-Hd.
  destruct (file_law d n false (origin o1)) as (r & w2 & Hg & Hwf2 & Hcase);
    [done|by rewrite Hf1|done|]. cbv zeta in Hcase. rewrite Hf1 in Hcase.
  unfold js_lookup, op_bind at 1. rewrite Hg.
  destruct (files o !! (dir_at d ++ [n])) as [[b|]|] eqn:Hx.
  - destruct Hcase as ((v & f & -> & Hdyn & Hfa) & Hf2). cbn. unfold dyn_into.
    rewrite Hdyn. destruct (read_law f b w2) as (v3 & file & w3 & u & w4 & Hgf & Hdf & Hab & Hub & Hf4 & Hwf4);
      [done|by rewrite Hfa, Hf2|]. unfold op_bind, op_ret, js_await. cbn.
    rewrite Hgf, Hdf. cbn. rewrite Hab. cbn. rewrite Hub. eexists. split; [done|]. cbn.
    by rewrite Hf4, Hf2.
  - exfalso. apply (not_dir o p Ho Hp). by rewrite Hs, app_assoc, <-Hd.
  - destruct Hcase as ((e & -> & He) & Hf2). rewrite He. eexists. split; [done|]. cbn.
    by rewrite Hf2.
Qed.

Lemma opfs_at_file o p b : (∃ t, opfs_at o p = Some (b, t)) ↔ files o !! (root ++ segs p) = Some (Some b).
Proof using Type.
  unfold opfs_at. destruct (fs (origin o) !! _) as [[b'|]|]; split; try (by intros [? ?]); try done.
  - by intros [t [= -> _]].
  - intros [= ->]. by eexists.
Qed.

Lemma opfs_at_ext o o' p q :
  (∀ b, files o' !! (root ++ segs p) = Some (Some b) ↔ files o !! (root ++ segs q) = Some (Some b)) →
  opfs_at o' p = opfs_at o q.
Proof using Type.
  intros Heq. unfold opfs_at.
  destruct (files o' !! _) as [[b'|]|] eqn:H', (files o !! _) as [[b|]|] eqn:Ho; try done.
  all: try by (specialize (Heq b); naive_solver).
  all: try by (specialize (Heq b'); naive_solver).
Qed.

Lemma write_new_spec o p b : disciplined o → P p →
  ∃ o', write_new self p b o = (Ok (content_etag b), o') ∧ disciplined o' ∧
    unlocked_operations o' = unlocked_operations o ∧
    ∀ q, opfs_at o' q = if decide (q = p) then Some (b, content_etag b) else opfs_at o q.
Proof using Type*.
  intros Ho Hp. destruct (path_snoc p Hp) as (l & n & Hs & Hsplit & Hn).
  destruct (parent_create l (op_root self) o) as (d & o1 & Hpar & Hwf1 & Hu1 & Hd & Hfill).
  { apply Ho. } { apply Ho. } { by eapply path_names. } { by eapply above_ok. }
  destruct (file_law d n true (origin o1)) as (r & w2 & Hg & Hwf2 & Hcase);
    [done|rewrite Hd; apply Hfill|done|]. cbv zeta in Hcase.
  rewrite Hd, <-app_assoc, <-Hs in Hcase.
  assert (Hfile : ∃ v f b0, r = inr v ∧ dyn_file_handle v = Some f ∧ file_at f = root ++ segs p ∧
    fs w2 !! file_at f = Some (Some b0) ∧
    <[file_at f := Some b]> (fs w2) = <[root ++ segs p := Some b]> (fs (origin o1))).
  { destruct (fs (origin o1) !! (root ++ segs p)) as [[b0|]|] eqn:Hx.
    - destruct Hcase as ((v & f & -> & Hdyn & Hfa) & Hf2). exists v, f, b0. by rewrite Hfa, Hf2.
    - exfalso. apply (not_dir o p Ho Hp). destruct (proj2 Hfill (root ++ segs p)) as [<-|(_ & _ & Hk)]; [done|].
      destruct Hk as (k & Hk & _ & Heq). apply app_inv_head in Heq. rewrite Hs in Heq. subst k.
      apply prefix_length in Hk. rewrite length_app in Hk. simpl in Hk. lia.
    - destruct Hcase as ((v & f & -> & Hdyn & Hfa) & Hf2). exists v, f, [].
      rewrite Hfa, Hf2, lookup_insert_eq, insert_insert_eq. done. }
  destruct Hfile as (v & f & b0 & -> & Hdyn & Hfa & Hf0 & Hins).
  destruct (write_law f b0 b w2) as (v3 & stream & w3 & w4 & w5 & Hcw & Hdw & Hww & Hcl & Hf5 & Hwf5);
    [done..|]. rewrite Hins in Hf5.
  eexists (MkOrigin (unlocked_operations o) w5). split; [|split; [split|split; [done|]]]; cbn.
  - unfold write_new, parent. rewrite Hsplit. unfold op_lift, op_bind at 1. cbn.
    unfold op_bind, js_await at 1. rewrite Hpar. unfold js_await at 1. rewrite Hg. unfold dyn_into.
    rewrite Hdyn. cbn. unfold js_await at 1. cbn. rewrite Hcw. cbn. rewrite Hdw. cbn.
    unfold js_await at 1. cbn. rewrite Hww. cbn. unfold js_await. cbn. rewrite Hcl. cbn.
    by rewrite Hu1.
  - done.
  - rewrite Hf5, lookup_insert_ne; [|intros Heq; apply (f_equal length) in Heq;
      rewrite Hs, !length_app in Heq; simpl in Heq; lia].
    destruct (proj2 Hfill root) as [->|(_ & -> & _)]; [apply Ho|done].
  - intros l' b'. intros Hl'. rewrite Hf5, lookup_insert_Some.
    intros [[Heq _]|[_ Hx]]; [apply app_inv_head in Heq; eauto|].
    rewrite (fills_file _ _ _ _ _ _ Hfill) in Hx. by apply (ds_file _ Ho _ b').
  - intros l' Hl'. rewrite Hf5, lookup_insert_Some. intros [[_ Heq]|[_ Hx]]; [done|].
    destruct (proj2 Hfill (root ++ l')) as [Heq|(_ & _ & k & [k' ->] & Hk & Heq)].
    + apply (ds_dir _ Ho); [done|congruence].
    + apply app_inv_head in Heq as ->. exists p, (k' ++ [n]).
      rewrite Hs, <-app_assoc. split; [done|]. split; [by destruct k'|done].
  - intros q. case_decide as Hq.
    + subst q. unfold opfs_at. cbn. by rewrite Hf5, lookup_insert_eq.
    + apply opfs_at_ext. intros b'. cbn. rewrite Hf5, lookup_insert_ne.
      * by apply (fills_file root l).
      * intros Heq. apply app_inv_head, segs_inj in Heq. done.
Qed.

Lemma delete_guarded_spec o p : disciplined o → P p →
  ∃ o', delete_guarded self p o = (Ok (), o') ∧ disciplined o' ∧
    unlocked_operations o' = unlocked_operations o ∧
    ∀ q, opfs_at o' q = if decide (q = p) then None else opfs_at o q.
Proof using Type*.
  intros Ho Hp. destruct (path_snoc p Hp) as (l & n & Hs & Hsplit & Hn).
  assert (∃ o', delete_guarded self p o = (Ok (), o') ∧ fs_wf (origin o') ∧
    unlocked_operations o' = unlocked_operations o ∧
    files o' = base.delete (root ++ segs p) (files o)) as (o' & Hrun & Hwf' & Hu' & Hf').
  { unfold delete_guarded. rewrite Hsplit, Hs.
    destruct (parent_open l (op_root self) o) as (r & o1 & Hpar & Hf1 & Hwf1 & Hu1 & Hr).
    { apply Ho. } { apply Ho. } { by eapply path_names. } { by eapply above_ok. }
    unfold op_lift, op_bind at 1. cbn. unfold op_bind at 1, parent. rewrite Hpar.
    destruct r as [d|].
    2: { exists o1. rewrite delete_id; [done|]. rewrite app_assoc. apply absent_below; [apply Ho|done]. }
    destruct Hr as [Hd Hdir]. rewrite app_assoc, <-Hd.
    destruct (remove_law d n (origin o1)) as (r & w2 & Hg & Hwf2 & Hcase);
      [done|by rewrite Hf1|done|]. cbv zeta in Hcase. rewrite Hf1 in Hcase.
    unfold js_lookup, op_bind. rewrite Hg.
    destruct (files o !! (dir_at d ++ [n])) as [[b|]|] eqn:Hx.
    - destruct Hcase as [-> Hf2]. eexists. split; [done|]. cbn. done.
    - exfalso. apply (not_dir o p Ho Hp). by rewrite Hs, app_assoc, <-Hd.
    - destruct Hcase as ((e & -> & He) & Hf2). rewrite He. eexists. split; [done|]. cbn.
      rewrite Hf2, delete_id by done. done. }
  exists o'. split; [done|]. split; [split|split; [done|]].
  - done.
  - rewrite Hf', lookup_delete_ne; [apply Ho|]. intros Heq. apply (f_equal length) in Heq.
    rewrite Hs, !length_app in Heq. simpl in Heq. lia.
  - intros l' b'. rewrite Hf', lookup_delete_Some. intros Hl' [_ Hx]. by apply (ds_file _ Ho _ b').
  - intros l'. rewrite Hf', lookup_delete_Some. intros Hl' [_ Hx]. by apply (ds_dir _ Ho).
  - intros q. case_decide as Hq.
    + subst q. unfold opfs_at. by rewrite Hf', lookup_delete_eq.
    + apply opfs_at_ext. intros b'. rewrite Hf', lookup_delete_ne; [done|].
      intros Heq. apply app_inv_head, segs_inj in Heq. done.
Qed.

(** ** Listing *)

Lemma names_valid w a u x : fs_wf w → fs w !! (a ++ u) = Some x →
  Forall (λ n, valid_name n = true) u.
Proof using Type.
  intros Hw. revert x. induction u as [|n u IH] using rev_ind; intros x Hx; [done|].
  rewrite app_assoc in Hx. apply fs_tree in Hx as [Hx Hn]; [|done].
  apply Forall_app. split; [by eapply IH|]. by apply Forall_cons.
Qed.

Lemma dir_above w l k x : fs_wf w → k ≠ [] → fs w !! (l ++ k) = Some x → fs w !! l = Some None.
Proof using Type.
  intros Hw. revert x. induction k as [|n k IH] using rev_ind; intros x Hne Hx; [done|].
  rewrite app_assoc in Hx. apply fs_tree in Hx as [Hx _]; [|done].
  destruct (decide (k = [])) as [->|Hk]; [by rewrite app_nil_r in Hx|by eapply IH].
Qed.

Lemma segs_rejoin u : u ≠ [] → Forall (λ n, valid_name n = true) u → segs (rejoin slash u) = u.
Proof using Type.
  intros Hu Hall. apply split_rejoin; [done|]. eapply Forall_impl; [done|].
  intros n Hn. by apply valid_name_law.
Qed.

Abbreviation walk := (list ObjectPath * list (DirectoryHandle * string))%type.

(** A directory's entries are sorted into keys and directories to visit. *)
Definition split_entries (m : gmap (list string) (option bytes)) (l : list string) (prefix : string)
    (base : string) (names : list string) (st st' : walk) : Prop :=
  (∀ k, k ∈ st'.1 ↔ k ∈ st.1 ∨ ∃ n b, n ∈ names ∧ m !! (l ++ [n]) = Some (Some b) ∧
    k = entry_key base n ∧ under_prefix k prefix = true) ∧
  ∃ new : list (DirectoryHandle * string), st'.2 = new ++ st.2 ∧
    (∀ d k, (d, k) ∈ new → ∃ n, n ∈ names ∧ m !! (l ++ [n]) = Some None ∧
      dir_at d = l ++ [n] ∧ k = entry_key base n) ∧
    (∀ n, n ∈ names → m !! (l ++ [n]) = Some None → descends (entry_key base n) prefix = true →
      ∃ d, (d, entry_key base n) ∈ new ∧ dir_at d = l ++ [n]) ∧
    (NoDup names → NoDup ((λ x, dir_at x.1) <$> new)).

Lemma list_entry_spec prefix base l n handle st o :
  (∃ b, files o !! (l ++ [n]) = Some (Some b) ∧ dyn_directory handle = None ∧
    is_Some (dyn_file_handle handle)) ∨
  (∃ d, files o !! (l ++ [n]) = Some None ∧ dyn_directory handle = Some d ∧ dir_at d = l ++ [n]) →
  ∃ st1, list_entry prefix base n handle st o = (Ok st1, o) ∧
    split_entries (files o) l prefix base [n] st st1.
Proof using Type*.
  intros Hkind. unfold list_entry. fold (entry_key base n).
  destruct Hkind as [(b & Hx & -> & [f ->])|(d & Hx & -> & Hd)]; (eexists; split; [done|]).
  - split.
    + intros k. destruct (under_prefix (entry_key base n) prefix) eqn:Hu; simpl.
      * rewrite elem_of_app, list_elem_of_singleton. split; [intros [Hk|Hk]; [by left|right]|].
        -- subst k. exists n, b. by rewrite list_elem_of_singleton.
        -- intros [Hk|(m & b' & Hm & _ & Hk & _)]; [by left|].
           apply list_elem_of_singleton in Hm as ->. by right.
      * split; [by left|]. intros [Hk|(m & b' & Hm & _ & Hk & Hu')]; [done|].
        apply list_elem_of_singleton in Hm as ->. congruence.
    + exists []. split; [by destruct (under_prefix _ _)|]. split; [by intros ? ? ?%elem_of_nil|].
      split; [|intros _; apply NoDup_nil_2].
      intros m Hm. apply list_elem_of_singleton in Hm as ->. by rewrite Hx.
  - change (under_prefix (entry_key base n) prefix || str_starts_with prefix (entry_key base n))
      with (descends (entry_key base n) prefix). split.
    + intros k. split; [by left; destruct (descends _ _)|].
      intros [Hk|(m & b' & Hm & Hb & _)]; [by destruct (descends _ _)|].
      apply list_elem_of_singleton in Hm as ->. congruence.
    + destruct (descends (entry_key base n) prefix) eqn:Hdes.
      * exists [(d, entry_key base n)]. split; [done|]. split; [|split].
        -- intros d' k Hdk. apply list_elem_of_singleton in Hdk as [= -> ->]. exists n.
           by rewrite list_elem_of_singleton.
        -- intros m Hm _ _. apply list_elem_of_singleton in Hm as ->. exists d. by rewrite list_elem_of_singleton.
        -- intros _. apply NoDup_singleton.
      * exists []. split; [done|]. split; [by intros ? ? ?%elem_of_nil|].
        split; [|intros _; apply NoDup_nil_2].
        intros m Hm. apply list_elem_of_singleton in Hm as ->. by rewrite Hdes.
Qed.

Lemma split_entries_cons m l prefix base n names st st1 st' :
  split_entries m l prefix base [n] st st1 → split_entries m l prefix base names st1 st' →
  split_entries m l prefix base (n :: names) st st'.
Proof using Type*.
  intros (Hk1 & new1 & Hs1 & Hn1 & Hc1 & Hd1) (Hk2 & new2 & Hs2 & Hn2 & Hc2 & Hd2). split.
  - intros k. rewrite Hk2, Hk1. split.
    + intros [[Hk|(n' & b & Hn & Hk)]|(n' & b & Hn & Hk)]; [by left|right..].
      * apply list_elem_of_singleton in Hn as ->. exists n, b. split; [by left|done].
      * exists n', b. split; [by right|done].
    + intros [Hk|(n' & b & Hn & Hk)]; [by left; left|].
      apply elem_of_cons in Hn as [->|Hn]; [left; right|right].
      * exists n, b. by rewrite list_elem_of_singleton.
      * by exists n', b.
  - exists (new2 ++ new1). split; [by rewrite Hs2, Hs1, app_assoc|]. split; [|split].
    + intros d k Hin. apply elem_of_app in Hin as [Hin|Hin]; [apply Hn2 in Hin|apply Hn1 in Hin];
        destruct Hin as (n' & Hin & ?); exists n'; (split; [|done]); [by right|].
      apply list_elem_of_singleton in Hin as ->. by left.
    + intros n' Hin Hx Hdes. apply elem_of_cons in Hin as [->|Hin]; [destruct (Hc1 n) as (d & ? & ?)|
        destruct (Hc2 n') as (d & ? & ?)]; try done; try (by apply list_elem_of_singleton);
        exists d; rewrite elem_of_app; auto.
    + intros [Hnin Hnd]%NoDup_cons. rewrite fmap_app. apply NoDup_app.
      split; [by apply Hd2|]. split; [|apply Hd1, NoDup_singleton].
      intros x Hx2 Hx1. apply list_elem_of_fmap in Hx2 as ([d2 k2] & -> & Hi2).
      apply list_elem_of_fmap in Hx1 as ([d1 k1] & Heq & Hi1).
      simpl in *. apply Hn2 in Hi2 as (n2 & ? & _ & Hd2' & _).
      apply Hn1 in Hi1 as (n1 & Hi1 & _ & Hd1' & _).
      apply list_elem_of_singleton in Hi1 as ->.
      rewrite Hd2', Hd1' in Heq. apply app_inj_tail in Heq as [_ ->]. done.
Qed.

Lemma list_dir_spec prefix base l names fuel it st o :
  fs_wf (origin o) → iterates (origin o) it l names → length names < fuel →
  (∀ n, n ∈ names → is_Some (files o !! (l ++ [n]))) →
  ∃ st' o', list_dir fuel prefix base it st o = (Ok st', o') ∧ fs_wf (origin o') ∧
    files o' = files o ∧ unlocked_operations o' = unlocked_operations o ∧
    split_entries (files o) l prefix base names st st'.
Proof using Type*.
  revert names it st o. induction fuel as [|fuel IH]; intros names it st o Hwf Hit Hfuel Hin; [lia|].
  destruct (next_law it l names _ Hwf Hit) as (step & w1 & Hn & Hf1 & Hwf1 & Hcase).
  cbn [list_dir]. unfold next_entry, js_await, op_bind. rewrite Hn.
  destruct names as [|n names].
  { destruct Hcase as (v & Hd & Hb). rewrite Hd. cbn. rewrite Hb. cbn.
    eexists st, (MkOrigin _ w1). split; [done|]. split; [done|]. split; [done|]. split; [done|].
    split; [intros k; split; [by left|intros [?|(? & ? & ?%elem_of_nil & _)]; done]|].
    exists []. split; [done|]. split; [by intros ? ? ?%elem_of_nil|].
    split; [by intros ? ?%elem_of_nil|intros _; apply NoDup_nil_2]. }
  destruct Hcase as (v & entry & Hd & Hb & Hv & Hname & Hit1 & Hkind). rewrite Hd. cbn. rewrite Hb. cbn.
  rewrite Hv. cbn. rewrite Hname. cbn. set (o1 := MkOrigin _ w1).
  assert (∃ st1, list_entry prefix base n (js_array_get entry 1) st o1 = (Ok st1, o1) ∧
    split_entries (files o) l prefix base [n] st st1) as (st1 & Hst1 & Hsort1).
  { rewrite <-Hf1. apply list_entry_spec. cbn. rewrite Hf1.
    destruct (Hin n (list_elem_of_here _ _)) as [[b|] Hx]; rewrite Hx in Hkind.
    - left. by exists b.
    - right. destruct Hkind as (d & ? & ?). by exists d. }
  rewrite Hst1.
  destruct (IH names it st1 o1) as (st' & o' & Hrun & Hwf' & Hf' & Hu' & Hsort).
  { done. } { done. } { simpl in Hfuel. lia. }
  { intros m Hm. cbn. rewrite Hf1. apply Hin. by right. }
  exists st', o'. rewrite Hrun. split; [done|]. split; [done|]. split; [by rewrite Hf', <-Hf1|].
  split; [done|]. cbn in Hsort. rewrite Hf1 in Hsort. by eapply split_entries_cons.
Qed.

(** A directory to visit, with the key prefix it stands for. *)
Definition visit_ok (o : Origin W) (v : DirectoryHandle * string) : Prop :=
  files o !! dir_at v.1 = Some None ∧ ∃ t, dir_at v.1 = root ++ t ∧ v.2 = rejoin slash t.

Definition listed (o : Origin W) (prefix : string) (dirs : list (list string)) (k : string) : Prop :=
  ∃ b d, files o !! (root ++ segs k) = Some (Some b) ∧ under_prefix k prefix = true ∧
    d ∈ dirs ∧ d `prefix_of` root ++ segs k.

Lemma key_segs o t n x base : fs_wf (origin o) → files o !! (root ++ t ++ [n]) = Some x →
  base = rejoin slash t →
  entry_key base n = rejoin slash (t ++ [n]) ∧ segs (entry_key base n) = t ++ [n].
Proof using Type*.
  intros Hwf Hx ->. pose proof (names_valid _ _ _ _ Hwf Hx) as Hv.
  assert (entry_key (rejoin slash t) n = rejoin slash (t ++ [n])) as ->.
  { apply entry_key_rejoin. apply Forall_app in Hv as [Hv _]. eapply Forall_impl; [done|].
    intros m Hm. by apply valid_name_law. }
  split; [done|]. apply segs_rejoin; [by destruct t|done].
Qed.

(** Visiting a directory keeps what will be listed. *)
Lemma visit_listed o prefix d base names st st' rest :
  fs_wf (origin o) → visit_ok o (d, base) → st.2 = rest →
  (∀ n, n ∈ names ↔ is_Some (files o !! (dir_at d ++ [n]))) →
  split_entries (files o) (dir_at d) prefix base names st st' →
  ∀ k, (k ∈ st'.1 ∨ listed o prefix ((λ v, dir_at v.1) <$> st'.2) k) ↔
    (k ∈ st.1 ∨ listed o prefix (dir_at d :: ((λ v, dir_at v.1) <$> rest)) k).
Proof using Type*.
  intros Hwf [Hdir (t & Ht & Hb)] Hrest Hnames (Hk & new & Hst' & Hnew & Hcomplete & _) k.
  cbn in *. rewrite Hst', fmap_app, Hrest. split.
  - intros [Hin|(b & e & Hx & Hu & Hin & Hp)].
    + apply Hk in Hin as [Hin|(n & b & Hn & Hx & -> & Hu)]; [by left|right].
      rewrite Ht, <-app_assoc in Hx. destruct (key_segs _ _ _ _ _ Hwf Hx Hb) as [_ Hs].
      exists b, (dir_at d). rewrite Hs. split; [done|]. split; [done|]. split; [by left|].
      rewrite Ht, app_assoc. by exists [n].
    + right. apply elem_of_app in Hin as [Hin|Hin]; [|exists b, e; repeat split; try done; by right].
      apply list_elem_of_fmap in Hin as ([d' k'] & -> & Hin).
      destruct (Hnew _ _ Hin) as (n & _ & _ & Hd' & _). exists b, (dir_at d).
      repeat split; try done; [by left|]. etrans; [|done]. cbn. rewrite Hd'. by exists [n].
  - intros [Hin|(b & e & Hx & Hu & Hin & Hp)]; [left; apply Hk; by left|].
    apply elem_of_cons in Hin as [->|Hin].
    2: { right. exists b, e. repeat split; try done. apply elem_of_app. by right. }
    destruct Hp as [y Hy]. rewrite Ht, <-app_assoc in Hy. apply app_inv_head in Hy.
    destruct y as [|n y]; [rewrite app_nil_r in Hy; congruence|].
    destruct (decide (y = [])) as [->|Hne].
    + rewrite Hy in Hx. destruct (key_segs _ _ _ _ _ Hwf Hx Hb) as [Hkey _].
      left. apply Hk. right. exists n, b. rewrite Ht, <-app_assoc.
      split; [apply Hnames; rewrite Ht, <-app_assoc; by eexists|]. split; [done|].
      split; [|done]. by rewrite Hkey, <-Hy, rejoin_split.
    + assert (files o !! (dir_at d ++ [n]) = Some None) as Hn.
      { apply (dir_above _ _ y (Some b)); [done..|].
        rewrite Ht, <-!app_assoc. change ([n] ++ y) with (n :: y). by rewrite <-Hy. }
      rewrite Ht, <-app_assoc in Hn. destruct (key_segs _ _ _ _ _ Hwf Hn Hb) as [Hkey _].
      rewrite app_assoc, <-Ht in Hn.
      destruct (Hcomplete n) as (d' & Hin & Hd'); [apply Hnames; by eexists|done|..].
      * rewrite Hkey. apply (descends_above _ (rejoin slash y)). rewrite <-rejoin_app by (done || by destruct t).
        rewrite <-app_assoc. change ([n] ++ y) with (n :: y). by rewrite <-Hy, rejoin_split.
      * right. exists b, (dir_at d'). repeat split; try done.
        -- apply elem_of_app. left. apply list_elem_of_fmap. by eexists (_, _).
        -- exists y. by rewrite Hd', Ht, Hy, <-!app_assoc.
Qed.

Lemma list_walk_spec prefix fuel : ∀ st o,
  fs_wf (origin o) → Forall (visit_ok o) st.2 →
  antichain ((λ v, dir_at v.1) <$> st.2) →
  size (below (files o) ((λ v, dir_at v.1) <$> st.2)) + size (files o) + 1 < fuel →
  ∃ keys o', list_walk fuel prefix st o = (Ok keys, o') ∧ fs_wf (origin o') ∧
    files o' = files o ∧ unlocked_operations o' = unlocked_operations o ∧
    ∀ k, k ∈ keys ↔ k ∈ st.1 ∨ listed o prefix ((λ v, dir_at v.1) <$> st.2) k.
Proof using Type*.
  induction fuel as [|fuel IH]; intros st o Hwf Hok Hanti Hfuel; [lia|].
  destruct st as [keys [|[d base] rest]]; cbn [list_walk fst snd].
  { exists keys, o. repeat split; try done; [by left|]. intros [?|(b & e & _ & _ & ?%elem_of_nil & _)]; done. }
  cbn [fst snd] in *. rewrite fmap_cons in Hanti, Hfuel. cbn [fst] in *.
  apply Forall_cons in Hok as [Hv Hok].
  destruct (entries_law d (origin o) Hwf (proj1 Hv)) as (it & w1 & names & Hent & Hf1 & Hwf1 & Hit & Hnd & Hlen & Hnames).
  unfold op_bind at 1. rewrite Hent. unfold op_bind.
  destruct (list_dir_spec prefix base (dir_at d) names fuel it (keys, rest)
    (MkOrigin (unlocked_operations o) w1)) as (st' & o2 & Hrun & Hwf2 & Hf2 & Hu2 & Hsort);
    [done|done|lia| |].
  { intros n Hn. cbn. rewrite Hf1. by apply Hnames. }
  rewrite Hrun. cbn in Hf2, Hu2, Hsort. rewrite Hf1 in Hf2, Hsort.
  pose proof (visit_listed o prefix d base names (keys, rest) st' rest Hwf Hv eq_refl Hnames Hsort) as Hlisted.
  destruct Hsort as (_ & new & Hst' & Hnew & _ & Hndnew). cbn in Hst'.
  assert (Hin : ∀ x, x ∈ ((λ v : DirectoryHandle * string, dir_at v.1) <$> new) → ∃ n, x = dir_at d ++ [n]).
  { intros x Hx. apply list_elem_of_fmap in Hx as ([d' k'] & -> & Hx).
    destruct (Hnew _ _ Hx) as (n & _ & _ & ? & _). by exists n. }
  destruct (IH st' o2) as (keys' & o' & Hrun' & Hwf' & Hf' & Hu' & Hkeys').
  - done.
  - rewrite Hst'. apply Forall_app. split.
    + apply Forall_forall. intros [d' k'] Hx. destruct (Hnew _ _ Hx) as (n & Hn & Hdn & Hd' & ->).
      destruct Hv as [_ (t & Ht & Hb)]. cbn in Ht, Hb. split; cbn; rewrite Hd', ?Hf2; [done|].
      exists (t ++ [n]). rewrite Ht, <-app_assoc in Hdn |- *. split; [done|].
      by apply (key_segs o t n None base).
    + eapply Forall_impl; [done|]. intros v [? ?]. split; [by rewrite Hf2|done].
  - rewrite Hst', fmap_app. by apply (antichain_visit (dir_at d)); auto.
  - rewrite Hst', fmap_app, Hf2.
    pose proof (below_visit (files o) (dir_at d) _ _ Hanti (Hndnew Hnd) Hin (proj1 Hv)). lia.
  - exists keys', o'. split; [done|]. split; [done|]. split; [by rewrite Hf', Hf2|].
    split; [by rewrite Hu', Hu2|]. intros k. rewrite Hkeys'. cbn. rewrite <-Hlisted.
    unfold listed. by rewrite Hf2.
Qed.

(** ** The contract *)

Definition opfs_objects (o : Origin W) : gmap string (bytes * string) :=
  map_imap (λ p _, opfs_at o p)
    (gset_to_gmap () (set_map (λ l, rejoin slash (drop (length root) l)) (dom (files o)) : gset string)).

Lemma opfs_objects_lookup o p : opfs_objects o !! p = opfs_at o p.
Proof using Type.
  unfold opfs_objects. rewrite map_lookup_imap, lookup_gset_to_gmap.
  destruct (opfs_at o p) as [x|] eqn:Hp.
  - rewrite option_guard_True; [done|]. apply elem_of_map. exists (root ++ segs p).
    rewrite drop_app_length, rejoin_split. split; [done|]. apply elem_of_dom.
    unfold opfs_at in Hp. by destruct (fs (origin o) !! _).
  - by destruct (guard _).
Qed.

(** Two origins with the same files. *)
Definition same_files (o o' : Origin W) : Prop := files o' = files o ∧ fs_wf (origin o').

Lemma same_disciplined (o o' : Origin W) : disciplined o → same_files o o' → disciplined o'.
Proof using Type.
  intros Ho [Hf Hwf]. split; [done|rewrite Hf; apply Ho|..]; intros l; rewrite Hf; apply Ho.
Qed.

Lemma same_at (o o' : Origin W) p : same_files o o' → opfs_at o' p = opfs_at o p.
Proof using Type. intros [Hf _]. unfold opfs_at. by rewrite Hf. Qed.

Lemma objects_eq (o' : Origin W) f : (∀ q, opfs_at o' q = f q) → ∀ m, (∀ q, m !! q = f q) → opfs_objects o' = m.
Proof using Type. intros Hat m Hm. apply map_eq. intros q. by rewrite opfs_objects_lookup, Hat, Hm. Qed.

(** The guarded section runs on the same files, and what it leaves stays. *)
Lemma with_lock {A} p (g : Op (Origin W) A) (o : Origin W) : fs_wf (origin o) →
  ∃ o1, same_files o o1 ∧ ∀ r o2, g o1 = (r, o2) → fs_wf (origin o2) →
    ∃ o3, with_object_lock p g o = (r, o3) ∧ same_files o2 o3.
Proof using Type.
  intros Hwf. unfold with_object_lock, lock_manager.
  destruct (navigator_locks (origin o)) as [m|] eqn:Hm.
  - destruct (locks_law _ m (lock_name p) Hwf Hm) as (w & Hreq & Hf & Hwf1). rewrite Hreq.
    exists (MkOrigin (unlocked_operations o) w). split; [by split|].
    intros r o2 Hg Hwf2. rewrite Hg. eexists. split; [done|].
    apply (settle_law _ _ Hwf2).
  - exists (MkOrigin ((unlocked_operations o + 1) mod U64)%N (origin o)). split; [by split|].
    intros r o2 Hg Hwf2. exists o2. by split.
Qed.

(** What a put finds. *)
Definition put_allowed (cur : option (bytes * string)) (mode : PutMode) : Prop :=
  match mode with
  | Create => cur = None
  | Update v => ∃ b t, cur = Some (b, t) ∧ ov_e_tag v = Some t ∧ default t (ov_version v) = t
  end.

Lemma put_check_spec o p mode : disciplined o → P p →
  ∃ r o', put_check self p mode o = (r, o') ∧ same_files o o' ∧
    match r with
    | Ok _ => put_allowed (opfs_at o p) mode
    | Err e => (∃ msg, e = CasConflict msg) ∧ ¬ put_allowed (opfs_at o p) mode
    end.
Proof using Type*.
  intros Ho Hp. destruct (read_existing_spec o p Ho Hp) as (o' & Hr & Hf & Hwf & _).
  unfold put_check. destruct mode as [|v]; rewrite (op_bind_ok _ _ _ _ _ Hr).
  - case_bool_decide as He; eexists _, o'; (split; [done|]); (split; [done|]); simpl.
    + split; [by eexists|]. destruct He as [? ->]. done.
    + by destruct (opfs_at o p); [destruct He|].
  - simpl. destruct (opfs_at o p) as [[b t]|] eqn:Hat.
    2: { eexists _, o'. split; [done|]. split; [done|]. split; [by eexists|naive_solver]. }
    case_bool_decide as Ht.
    { eexists _, o'. split; [done|]. split; [done|]. split; [by eexists|naive_solver]. }
    assert (ov_e_tag v = Some t) as Ht' by (destruct (decide (ov_e_tag v = Some t)); tauto).
    destruct (ov_version v) as [ver|] eqn:Hv; [case_bool_decide as Hver|];
      (eexists _, o'; split; [done|]; split; [done|]).
    + split; [by eexists|]. simpl. naive_solver.
    + simpl. exists b, t. split; [done|]. split; [done|]. destruct (decide (ver = t)); tauto.
    + by exists b, t.
Qed.

(** One conditional write under its lock. *)
Lemma put_opts_spec o p b mode : disciplined o → P p →
  ∃ r o', opfs_put_opts self p b mode o = (r, o') ∧ disciplined o' ∧
    match r with
    | Ok out => out = MkPutOutcome (Some (content_etag b)) (Some (content_etag b)) ∧
        put_allowed (opfs_at o p) mode ∧
        opfs_objects o' = <[p := (b, content_etag b)]> (opfs_objects o)
    | Err e => (∃ msg, e = CasConflict msg) ∧ ¬ put_allowed (opfs_at o p) mode ∧
        opfs_objects o' = opfs_objects o
    end.
Proof using Type*.
  intros Ho Hp. unfold opfs_put_opts.
  destruct (with_lock p (put_guarded self p b mode) o (ds_wf _ Ho)) as (o1 & Hs1 & Hlock).
  pose proof (same_disciplined _ _ Ho Hs1) as Ho1.
  destruct (put_check_spec o1 p mode Ho1 Hp) as (r & o2 & Hcheck & Hs2 & Hr).
  pose proof (same_disciplined _ _ Ho1 Hs2) as Ho2. rewrite (same_at _ _ p Hs1) in Hr.
  destruct r as [[]|e].
  - destruct (write_new_spec o2 p b Ho2 Hp) as (o3 & Hw & Ho3 & _ & Hat).
    destruct (Hlock (Ok (MkPutOutcome (Some (content_etag b)) (Some (content_etag b)))) o3)
      as (o4 & -> & Hs4); [|apply Ho3|].
    { unfold put_guarded. rewrite (op_bind_ok _ _ _ _ _ Hcheck). unfold put_write.
      by rewrite (op_bind_ok _ _ _ _ _ Hw). }
    eexists _, o4. split; [done|]. split; [by eapply same_disciplined|]. split; [done|]. split; [done|].
    eapply objects_eq; [intros q; by rewrite (same_at _ _ q Hs4), Hat|]. intros q. simpl.
    rewrite lookup_insert, opfs_objects_lookup, (same_at _ _ q Hs2), (same_at _ _ q Hs1).
    by repeat case_decide; subst.
  - destruct (Hlock (Err e) o2) as (o4 & -> & Hs4); [|apply Ho2|].
    { unfold put_guarded, op_bind. by rewrite Hcheck. }
    eexists _, o4. split; [done|]. split; [by eapply same_disciplined|]. destruct Hr as [He Hno].
    split; [done|]. split; [done|]. eapply objects_eq; [intros q; reflexivity|]. intros q.
    by rewrite opfs_objects_lookup, (same_at _ _ q Hs4), (same_at _ _ q Hs2), (same_at _ _ q Hs1).
Qed.

Lemma opfs_get_spec o p : disciplined o → P p →
  ∃ o', same_files o o' ∧ opfs_get self p o =
    (match opfs_at o p with
     | Some (b, t) => Ok (MkGetOutput b (Some t) (Some t))
     | None => Err (Storage ("not found: " +:+ p))
     end, o').
Proof using Type*.
  intros Ho Hp. destruct (read_existing_spec o p Ho Hp) as (o' & Hr & Hf & Hwf & _).
  exists o'. split; [done|]. unfold opfs_get. rewrite (op_bind_ok _ _ _ _ _ Hr).
  by destruct (opfs_at o p) as [[b t]|].
Qed.

Lemma opfs_delete_spec o p : disciplined o → P p →
  ∃ o', opfs_delete self p o = (Ok (), o') ∧ disciplined o' ∧
    opfs_objects o' = base.delete p (opfs_objects o).
Proof using Type*.
  intros Ho Hp. unfold opfs_delete.
  destruct (with_lock p (delete_guarded self p) o (ds_wf _ Ho)) as (o1 & Hs1 & Hlock).
  pose proof (same_disciplined _ _ Ho Hs1) as Ho1.
  destruct (delete_guarded_spec o1 p Ho1 Hp) as (o2 & Hd & Ho2 & _ & Hat).
  destruct (Hlock _ _ Hd (ds_wf _ Ho2)) as (o3 & Hrun & Hs3).
  exists o3. split; [done|]. split; [by eapply same_disciplined|].
  eapply objects_eq; [intros q; by rewrite (same_at _ _ q Hs3), Hat|]. intros q. simpl.
  rewrite lookup_delete, opfs_objects_lookup, (same_at _ _ q Hs1).
  by repeat case_decide; subst.
Qed.

(** The walk ends within a number of steps that the files bound. *)
Definition list_fuel (o : Origin W) : nat := 2 * size (files o) + 2.

Lemma below_size m dirs : size (below m dirs) ≤ size m.
Proof using Type.
  rewrite <-size_dom. apply subseteq_size. intros x [_ Hx]%elem_of_filter. exact Hx.
Qed.

Lemma list_all_spec o prefix fuel : disciplined o → list_fuel o ≤ fuel →
  ∃ keys o', list_all self fuel prefix o = (Ok keys, o') ∧ same_files o o' ∧
    ∀ k, k ∈ keys ↔ is_Some (opfs_at o k) ∧ under_prefix k prefix = true.
Proof using Type*.
  intros Ho Hfuel. unfold list_all, list_fuel in *.
  destruct (list_walk_spec prefix fuel ([], [(op_root self, "")]) o) as (keys & o' & Hrun & Hwf' & Hf' & _ & Hkeys).
  - apply Ho.
  - apply Forall_singleton. split; [apply Ho|]. exists []. by rewrite app_nil_r.
  - split; [apply NoDup_singleton|]. cbn. intros x y. rewrite !list_elem_of_singleton. by intros -> ->.
  - pose proof (below_size (files o) [root]) as Hle. cbn in Hle |- *. lia.
  - exists keys, o'. split; [done|]. split; [done|]. intros k. rewrite Hkeys. split.
    + intros [?%elem_of_nil|(b & d & Hx & Hu & _ & _)]; [done|]. split; [|done].
      unfold opfs_at. rewrite Hx. by eexists.
    + intros [[[b t] Hat] Hu]. right.
      pose proof (proj1 (opfs_at_file o k b) (ex_intro _ t Hat)) as Hx.
      exists b, root. split; [done|]. split; [done|]. split; [by left|]. by exists (segs k).
Qed.
End spec.

(** *** Opening *)

Section opening.
Context {W : Type} `{OpfsLaws W} `{Digests}.

(** Where no file has the store's name, opening succeeds, and only makes the
    store's directory. *)
Lemma opfs_open_spec (o : Origin W) :
  fs_wf (origin o) → has_window = true →
  (∀ b, fs (origin o) !! ["oxkv"] ≠ Some (Some b)) →
  ∃ self o', opfs_open o = (Ok self, o') ∧ dir_at (op_root self) = ["oxkv"] ∧ fs_wf (origin o') ∧
    fs (origin o') = <[["oxkv"] := None]> (fs (origin o)).
Proof using Type*.
  intros Hwf Hwin Hno. destruct (root_law _ Hwf Hwin) as (v & d & w1 & Hdir & Hdyn & Hd & Hf1 & Hwf1).
  destruct (directory_law d "oxkv" true w1) as (r & w2 & Hget & Hwf2 & Hcase);
    [done|by rewrite Hd, fs_root|by vm_compute|]. cbv zeta in Hcase. rewrite Hd, Hf1 in Hcase.
  change ([] ++ ["oxkv"]) with ["oxkv"] in Hcase.
  assert ((∃ v d', r = inr v ∧ dyn_directory v = Some d' ∧ dir_at d' = ["oxkv"]) ∧
    fs w2 = <[["oxkv"] := None]> (fs (origin o))) as [(v' & d' & -> & Hdyn' & Hd') Hf2].
  { destruct (fs (origin o) !! ["oxkv"]) as [[b|]|] eqn:Hx; [by destruct (Hno b)| |done].
    destruct Hcase as [? Heq]. split; [done|]. by rewrite insert_id. }
  exists (MkOpfs d'), (MkOrigin (unlocked_operations o) w2). split; [|done].
  unfold opfs_open. rewrite Hwin. cbn.
  unfold op_bind, js_await. rewrite Hdir. cbn. unfold dyn_into. rewrite Hdyn. cbn.
  rewrite Hget. cbn. by rewrite Hdyn'.
Qed.

(** A new directory stands for the empty store. *)
Lemma opened_empty self P (o : Origin W) m :
  fs_wf (origin o) → dir_at (op_root self) = ["oxkv"] → fs (origin o) = <[["oxkv"] := None]> m →
  (∀ l, m !! ("oxkv" :: l) = None) → disciplined self P o ∧ opfs_objects self o = ∅.
Proof using Type*.
  intros Hwf Hroot Hf Hnew. assert (Hsub : ∀ l, l ≠ [] → fs (origin o) !! (["oxkv"] ++ l) = None).
  { intros l Hl. rewrite Hf, lookup_insert_ne; [apply Hnew|]. by destruct l. }
  split.
  - split; [done|..]; rewrite Hroot.
    + by rewrite Hf, lookup_insert_eq.
    + intros l b Hl Hx. by rewrite Hsub in Hx.
    + intros l Hl Hx. by rewrite Hsub in Hx.
  - apply map_eq. intros p. rewrite opfs_objects_lookup, lookup_empty. unfold opfs_at.
    rewrite Hroot, Hsub; [done|apply split_on_ne].
Qed.
End opening.

(** ** An origin is a backend *)

Section backend.
Context {W : Type} `{OpfsLaws W} `{Sha256Laws}.
Context (self : OpfsStorage).

Definition opfs_backend : StorageBackend (Origin W) := {|
  st_get := opfs_get self;
  st_get_opts := opfs_get_opts self;
  st_put_opts := opfs_put_opts self;
  st_delete := opfs_delete self;
  st_list prefix := λ o, list_all self (list_fuel o) prefix o;
|}.
#[local] Existing Instance opfs_backend.

Lemma content_etag_ne b : content_etag b ≠ "".
Proof using Type*.
  unfold content_etag. pose proof (sha256_length b) as Hl. destruct (sha256 b) as [|x l]; [done|].
  cbn [hex_bytes foldr]. by destruct (hex_pad _ _) eqn:Hh.
Qed.

Context (P : ObjectPath → Prop) (HP : prefix_free P).

Program Definition opfs_laws : StorageLaws (Origin W) := {|
  st_objects := opfs_objects self;
  st_wf := disciplined self P;
  st_path := P;
  st_safe _ := True;
|}.
Next Obligation.
  intros p o Ho [x Hx]. rewrite opfs_objects_lookup in Hx. unfold opfs_at in Hx.
  destruct (fs (origin o) !! _) as [[b|]|] eqn:Hf; [|done..].
  destruct (ds_file _ _ _ Ho _ _ (split_on_ne _ _) Hf) as (q & Hq & Hs).
  by apply segs_inj in Hs as ->.
Qed.
Next Obligation.
  intros p o Ho Hp. destruct (opfs_get_spec self P HP o p Ho Hp) as (o' & Hs & Hrun).
  eexists _, o'. split; [exact Hrun|]. pose proof (same_disciplined _ _ _ _ Ho Hs) as Ho'. split; [|split; [done|]].
  - apply map_eq. intros q. by rewrite !opfs_objects_lookup, (same_at _ _ _ q Hs).
  - rewrite opfs_objects_lookup. destruct (opfs_at self o p) as [[b t]|]; [by eexists|].
    eexists. split; [done|]. apply not_found_msg.
Qed.
Next Obligation.
  intros p opts o Ho Hp. destruct (opfs_get_spec self P HP o p Ho Hp) as (o' & Hs & Hrun).
  pose proof (same_disciplined _ _ _ _ Ho Hs) as Ho'.
  assert (opfs_objects self o' = opfs_objects self o) as Hobj.
  { apply map_eq. intros q. by rewrite !opfs_objects_lookup, (same_at _ _ _ q Hs). }
  rewrite opfs_objects_lookup. cbn [st_get_opts opfs_backend]. unfold opfs_get_opts, op_bind.
  rewrite Hrun. destruct (opfs_at self o p) as [[b t]|].
  - cbn. case_bool_decide as Hb; (eexists _, o'; split; [done|]; split; [done|]; split; [done|]).
    + destruct Hb as [-> _]. by rewrite decide_True.
    + rewrite decide_False by (intros Heq; apply Hb; by split). by eexists.
  - eexists _, o'. split; [done|]. split; [done|]. split; [done|]. eexists. split; [done|].
    apply not_found_msg.
Qed.
Next Obligation.
  intros p b mode o Ho Hp _. destruct (put_opts_spec self P HP o p b mode Ho Hp) as (r & o' & Hrun & Ho' & Hr).
  exists r, o'. split; [exact Hrun|]. split; [done|]. rewrite opfs_objects_lookup. destruct r as [out|e].
  - destruct Hr as (-> & Hok & Hobj). eexists. split; [done|]. split; [done|].
    destruct mode as [|v]; [done|]. destruct Hok as (b0 & t0 & -> & ? & _). by eexists _, _.
  - destruct Hr as (He & Hno & Hobj). split; [done|]. split; [done|].
    destruct mode as [|v]; simpl in Hno.
    + destruct (opfs_at self o p); [by eexists|done].
    + intros b0 t0 Hat Hv. destruct (ov_version v) eqn:Hver; [by eexists|]. destruct Hno.
      by exists b0, t0.
Qed.
Next Obligation.
  intros p b mode o out o' Ho Hp Hrun.
  destruct (put_opts_spec self P HP o p b mode Ho Hp) as (r & o1 & Hrun' & _ & Hr).
  cbn [st_put_opts opfs_backend] in Hrun. rewrite Hrun in Hrun'. injection Hrun' as <- <-.
  destruct Hr as (-> & _). intros [= Hne]. by apply (content_etag_ne b).
Qed.
Next Obligation.
  intros p b o o1 out Ho Hp Hget. destruct (opfs_get_spec self P HP o p Ho Hp) as (o' & Hs & Hrun).
  cbn [st_get opfs_backend] in Hget. rewrite Hrun in Hget.
  destruct (opfs_at self o p) as [[b0 t]|] eqn:Hat; [|done]. injection Hget as <- <-.
  destruct (put_opts_spec self P HP o' p b (Update (MkVersion (Some t) (Some t)))
    (same_disciplined _ _ _ _ Ho Hs) Hp) as (r & o2 & Hput & _ & Hr).
  destruct r as [out|e]; [by eexists _, o2|]. destruct Hr as (_ & Hno & _). destruct Hno.
  exists b0, t. by rewrite (same_at _ _ _ p Hs).
Qed.
Next Obligation.
  intros p o Ho Hp _. destruct (opfs_delete_spec self P HP o p Ho Hp) as (o' & Hrun & Ho' & Hobj).
  by exists o'.
Qed.
Next Obligation.
  intros prefix o Ho _.
  destruct (list_all_spec self P HP o prefix (list_fuel o) Ho) as (keys & o' & Hrun & Hs & Hkeys); [done|].
  exists keys, o'. split; [exact Hrun|]. split; [by eapply same_disciplined|]. split.
  - apply map_eq. intros q. by rewrite !opfs_objects_lookup, (same_at _ _ _ q Hs).
  - split; intros q; rewrite opfs_objects_lookup; [by rewrite Hkeys|]. intros Hq Hu _. by apply Hkeys.
Qed.

#[export] Instance opfs_unguarded : @Unguarded (Origin W) _ opfs_laws.
Proof. by intros objs. Qed.
End backend.
