(* ===== verification/OpfsMem.v ===== *)
(** An origin in memory: a file system, the positions of its iterators and the
    streams that are open, with the behaviour [OpfsLaws] asks for. *)

From stdpp Require Import options.
From S2P Require Import Prelude OrdMap Core Storage LsmPaths Opfs OpfsSpec.

Inductive MemValue :=
| MDir (l : list string)
| MFile (l : list string)
| MContent (b : bytes)
| MDone
| MStep (name : string) (handle : MemValue)
| MPair (name : string) (handle : MemValue)
| MText (s : string)
| MBool (b : bool)
| MException (name message : string).

Record MemOrigin := MkMemOrigin {
  mo_files : gmap (list string) (option bytes);
  mo_iters : list (list string * list string);
  mo_streams : gmap (list string) bytes;
  mo_locks : bool;
}.

Definition mem_origin (locks : bool) : MemOrigin := MkMemOrigin {[ [] := None ]} [] ∅ locks.

Definition with_files (m : gmap (list string) (option bytes)) (w : MemOrigin) : MemOrigin :=
  MkMemOrigin m (mo_iters w) (mo_streams w) (mo_locks w).

Definition not_found_exception : MemValue := MException "NotFoundError" "no such entry".

(** An entry is looked up, and made when it is missing and may be made. *)
Definition mem_entry (dir : list string) (name : string) (create : bool) (new : option bytes) (w : MemOrigin) :
    option (option bytes) * MemOrigin :=
  match mo_files w !! (dir ++ [name]) with
  | Some x => (Some x, w)
  | None => if create then (Some new, with_files (<[dir ++ [name] := new]> (mo_files w)) w) else (None, w)
  end.

Definition mem_directory (dir : list string) (name : string) (create : bool) (w : MemOrigin) :
    (MemValue + MemValue) * MemOrigin :=
  let '(x, w) := mem_entry dir name create None w in
  (match x with
   | Some None => inr (MDir (dir ++ [name]))
   | Some (Some _) => inl (MException "TypeMismatchError" "not a directory")
   | None => inl not_found_exception
   end, w).

Definition mem_file (dir : list string) (name : string) (create : bool) (w : MemOrigin) :
    (MemValue + MemValue) * MemOrigin :=
  let '(x, w) := mem_entry dir name create (Some []) w in
  (match x with
   | Some (Some _) => inr (MFile (dir ++ [name]))
   | Some None => inl (MException "TypeMismatchError" "not a file")
   | None => inl not_found_exception
   end, w).

Definition mem_remove (dir : list string) (name : string) (w : MemOrigin) : (MemValue + ()) * MemOrigin :=
  match mo_files w !! (dir ++ [name]) with
  | Some (Some _) => (inr (), with_files (base.delete (dir ++ [name]) (mo_files w)) w)
  | Some None => (inl (MException "InvalidModificationError" "not empty"), w)
  | None => (inl not_found_exception, w)
  end.

(** The names of a directory's entries. *)
Definition mem_names (m : gmap (list string) (option bytes)) (dir : list string) : list string :=
  omap (λ x, match last x.1 with
             | Some n => if decide (x.1 = dir ++ [n]) then Some n else None
             | None => None
             end) (map_to_list m).

Definition mem_entries (dir : list string) (w : MemOrigin) : nat * MemOrigin :=
  (length (mo_iters w),
   MkMemOrigin (mo_files w) (mo_iters w ++ [(dir, mem_names (mo_files w) dir)]) (mo_streams w) (mo_locks w)).

Definition mem_next (it : nat) (w : MemOrigin) : (MemValue + MemValue) * MemOrigin :=
  match mo_iters w !! it with
  | Some (dir, n :: names) =>
      let handle := match mo_files w !! (dir ++ [n]) with
                    | Some None => MDir (dir ++ [n])
                    | _ => MFile (dir ++ [n])
                    end in
      (inr (MStep n handle),
       MkMemOrigin (mo_files w) (<[it := (dir, names)]> (mo_iters w)) (mo_streams w) (mo_locks w))
  | _ => (inr MDone, w)
  end.

Definition mem_step_get (v : MemValue) (field : string) : MemValue + MemValue :=
  match v with
  | MDone => if bool_decide (field = "done") then inr (MBool true) else inl (MText "undefined")
  | MStep n h =>
      if bool_decide (field = "done") then inr (MBool false)
      else if bool_decide (field = "value") then inr (MPair n h) else inl (MText "undefined")
  | _ => inl (MText "undefined")
  end.

#[export] Instance mem_opfs : OpfsApi MemOrigin := {|
  JsValue := MemValue; DirectoryHandle := list string; FileHandle := list string; JsFile := bytes;
  WritableStream := list string; Entries := nat; LockManager := ();
  dom_exception v := match v with MException n m => Some (n, m) | _ => None end;
  js_debug _ := "JsValue";
  js_from_str := MText;
  dyn_directory v := match v with MDir l => Some l | _ => None end;
  dyn_file_handle v := match v with MFile l => Some l | _ => None end;
  dyn_file v := match v with MContent b => Some b | _ => None end;
  dyn_writable v := match v with MFile l => Some l | _ => None end;
  uint8_array v := match v with MContent b => b | _ => [] end;
  reflect_get := mem_step_get;
  js_as_bool v := match v with MBool b => Some b | _ => None end;
  js_as_string v := match v with MText s => Some s | _ => None end;
  js_array_get v i := match v, i with MPair n _, 0 => MText n | MPair _ h, 1 => h | _, _ => MText "undefined" end;
  has_window := true;
  get_directory w := (inr (MDir []), w);
  get_directory_handle := mem_directory;
  get_file_handle := mem_file;
  get_file l w := (match mo_files w !! l with Some (Some b) => inr (MContent b) | _ => inl not_found_exception end, w);
  array_buffer b w := (inr (MContent b), w);
  create_writable l w := (inr (MFile l), MkMemOrigin (mo_files w) (mo_iters w) (<[l := []]> (mo_streams w)) (mo_locks w));
  write_with_u8_array l b w :=
    (inr (), MkMemOrigin (mo_files w) (mo_iters w) (<[l := default [] (mo_streams w !! l) ++ b]> (mo_streams w)) (mo_locks w));
  stream_close l w :=
    (inr (), MkMemOrigin (<[l := Some (default [] (mo_streams w !! l))]> (mo_files w)) (mo_iters w)
      (base.delete l (mo_streams w)) (mo_locks w));
  remove_entry := mem_remove;
  dir_entries := mem_entries;
  entries_next := mem_next;
  navigator_locks w := if mo_locks w then Some () else None;
  lock_request _ _ w := (inr true, w);
  lock_settle _ w := w;
|}.

(** The files are a tree whose entries have valid names. *)
Definition mem_tree (m : gmap (list string) (option bytes)) : Prop :=
  m !! [] = Some None ∧ ∀ l n x, m !! (l ++ [n]) = Some x → m !! l = Some None ∧ valid_name n = true.

Lemma mem_tree_add m l n x :
  mem_tree m → m !! l = Some None → valid_name n = true → m !! (l ++ [n]) ≠ Some None → mem_tree (<[l ++ [n] := x]> m).
Proof.
  intros [Hr Ht] Hl Hn Hno. split.
  - rewrite lookup_insert_ne; [done|by destruct l].
  - intros l' n' x' [[Heq _]|[Hne Hx]]%lookup_insert_Some.
    + apply app_inj_tail in Heq as [-> ->]. split; [|done]. rewrite lookup_insert_ne; [done|].
      intros Heq%(f_equal length). rewrite length_app in Heq. simpl in Heq. lia.
    + destruct (Ht _ _ _ Hx) as [Hl' Hn']. split; [|done].
      rewrite lookup_insert_ne; [done|]. intros Heq. by rewrite Heq in Hno.
Qed.

Lemma mem_tree_delete m p b : mem_tree m → m !! p = Some (Some b) → mem_tree (base.delete p m).
Proof.
  intros [Hr Ht] Hp. split.
  - rewrite lookup_delete_ne; [done|]. intros ->. congruence.
  - intros l n x [_ Hx]%lookup_delete_Some. destruct (Ht _ _ _ Hx) as [Hl Hn]. split; [|done].
    rewrite lookup_delete_ne; [done|]. intros ->. congruence.
Qed.

Lemma elem_of_mem_names m dir n : n ∈ mem_names m dir ↔ is_Some (m !! (dir ++ [n])).
Proof.
  unfold mem_names. rewrite list_elem_of_omap. split.
  - intros ([l x] & Hin & Hn). apply elem_of_map_to_list in Hin. simpl in Hn.
    destruct (last l) as [n'|]; [|done]. case_decide as Hl; [|done]. injection Hn as ->. subst l. by eexists.
  - intros [x Hx]. exists (dir ++ [n], x). rewrite elem_of_map_to_list. split; [done|].
    simpl. by rewrite last_snoc, decide_True.
Qed.

Lemma NoDup_mem_names m dir : NoDup (mem_names m dir).
Proof.
  unfold mem_names. pose proof (NoDup_fst_map_to_list m) as Hnd. revert Hnd.
  generalize (map_to_list m). intros l. induction l as [|[p x] l IH]; intros Hnd; [apply NoDup_nil_2|].
  rewrite fmap_cons in Hnd. apply NoDup_cons in Hnd as [Hp Hnd]. simpl.
  destruct (last p) as [n|] eqn:Hl; [|by apply IH]. case_decide as Hd; [|by apply IH]. simpl in Hd. subst p.
  apply NoDup_cons. split; [|by apply IH]. intros Hin. apply Hp.
  apply list_elem_of_omap in Hin as ([p' x'] & Hin & Hn'). simpl in Hn'.
  destruct (last p') as [n'|]; [|done]. case_decide as Hd; [|done]. injection Hn' as ->. subst p'.
  apply list_elem_of_fmap. by exists (dir ++ [n], x').
Qed.

Lemma mem_names_length m dir : length (mem_names m dir) ≤ size m.
Proof.
  unfold mem_names. rewrite <-length_map_to_list. generalize (map_to_list m). intros l.
  unfold omap. induction l as [|x l IH]; simpl; [lia|]. destruct (last _); [case_decide|]; simpl; lia.
Qed.

#[export] Program Instance mem_opfs_laws : OpfsLaws MemOrigin := {|
  fs := mo_files;
  fs_wf w := mem_tree (mo_files w);
  dir_at l := l;
  file_at l := l;
  iterates w it l names := mo_iters w !! it = Some (l, names);
|}.
Next Obligation. by intros w [Hr _]. Qed.
Next Obligation. intros w l n x [_ Ht]. apply Ht. Qed.
Next Obligation. intros w Ht _. by exists (MDir []), [], w. Qed.
Next Obligation.
  intros d name create w Ht Hd Hn. cbn. unfold mem_directory, mem_entry.
  destruct (mo_files w !! (d ++ [name])) as [[b|]|] eqn:Hx.
  - by eexists _, w.
  - eexists _, w. split; [done|]. split; [done|]. split; [|done]. by eexists _, _.
  - destruct create; (eexists _, _; split; [done|]); cbn.
    + split; [apply mem_tree_add; [done..|congruence]|]. split; [|done]. by eexists _, _.
    + split; [done|]. split; [|done]. by eexists.
Qed.
Next Obligation.
  intros d name create w Ht Hd Hn. cbn. unfold mem_file, mem_entry.
  destruct (mo_files w !! (d ++ [name])) as [[b|]|] eqn:Hx.
  - eexists _, w. split; [done|]. split; [done|]. split; [|done]. by eexists _, _.
  - by eexists _, w.
  - destruct create; (eexists _, _; split; [done|]); cbn.
    + split; [apply mem_tree_add; [done..|congruence]|]. split; [|done]. by eexists _, _.
    + split; [done|]. split; [|done]. by eexists.
Qed.
Next Obligation.
  intros f b w Ht Hf. cbn in *. rewrite Hf. by eexists _, b, w, _, w.
Qed.
Next Obligation.
  intros f b0 b w Ht Hf. cbn in *. eexists _, f, _, _, _. split; [done|]. split; [done|].
  split; [done|]. split; [done|]. cbn. rewrite !lookup_insert_eq. cbn. split; [done|].
  destruct f as [|n f _] using rev_ind; [destruct Ht as [Hr _]; congruence|].
  destruct (proj2 Ht _ _ _ Hf). by apply mem_tree_add; [..|congruence].
Qed.
Next Obligation.
  intros d name w Ht Hd Hn. cbn. unfold mem_remove.
  destruct (mo_files w !! (d ++ [name])) as [[b|]|] eqn:Hx.
  - eexists _, _. split; [done|]. cbn. split; [by eapply mem_tree_delete|done].
  - by eexists _, w.
  - eexists _, w. split; [done|]. split; [done|]. split; [|done]. by eexists.
Qed.
Next Obligation.
  intros d w Ht Hd. cbn in *. eexists _, _, (mem_names (mo_files w) d). split; [done|]. cbn.
  split; [done|]. split; [done|]. split; [by rewrite lookup_app_r, Nat.sub_diag by done|].
  split; [apply NoDup_mem_names|]. split; [apply mem_names_length|]. apply elem_of_mem_names.
Qed.
Next Obligation.
  intros it l names w Ht Hit. cbn in *. unfold mem_next. rewrite Hit. destruct names as [|n names].
  - eexists _, w. split; [done|]. split; [done|]. split; [done|]. by eexists.
  - eexists _, _. split; [done|]. split; [done|]. split; [done|]. eexists _, _. cbn.
    split; [done|]. split; [done|]. split; [done|]. split; [done|]. split.
    + rewrite list_lookup_insert_eq; [done|]. by apply lookup_lt_is_Some_1.
    + destruct (mo_files w !! (l ++ [n])) as [[b|]|]; cbn; [by split; eauto|by eexists|by split; eauto].
Qed.
Next Obligation. intros w m name Ht _. by exists w. Qed.
Next Obligation. done. Qed.
