(* ===== verification/OpfsLsm.v ===== *)
(** The store in a browser: the paths of a log-structured store are names the
    origin's file system accepts, none of them a directory of another, so that
    the theorems about the store hold on an [OpfsStorage]. *)

From stdpp Require Import options.
From S2P Require Import Prelude OrdMap Core Codec Hooks BTree BTreeSpec Snapshot Storage Json Ownership.
From S2P Require Import Manifest Blob Probe Wal Merge Sst SstSpec Cache Read LsmStore LsmPaths StoreNames LsmSpec LsmInv LsmRecover LsmSessions.
From S2P Require Import Opfs OpfsSpec OpfsMem.

(** ** Names *)

Lemma plain_valid n : plain_name n → valid_name n = true.
Proof.
  intros (Hc & He & Hd & Hdd). apply bool_decide_eq_true. split_and!; try done.
  - by eapply plain_no_char.
  - by eapply plain_no_char.
Qed.

Section paths.
Context `{Sha256Laws} (prefix : ObjectPath).
Context (Hprefix : Forall (λ n, valid_name n = true) (segments prefix)).

Lemma store_prefix_free : prefix_free (store_path prefix).
Proof using H0 Hprefix.
  split.
  - intros p Hp. destruct (store_path_segs prefix p Hp) as (t & -> & _ & Ht). apply Forall_app.
    split; [done|]. eapply Forall_impl; [done|]. apply plain_valid.
  - intros p q Hp Hq Hpre. destruct (store_path_segs prefix p Hp) as (t & Hs & Ht & _).
    destruct (store_path_segs prefix q Hq) as (t' & Hs' & Ht' & _). apply segs_inj.
    rewrite Hs, Hs' in *. f_equal. apply store_tail_free; [done..|].
    by apply prefix_app_inv in Hpre.
Qed.
End paths.

(** ** Pages *)

(** What a storage stands for is read off its objects. *)
Lemma recoverable_move {W} (B1 B2 : StorageBackend W) (L1 : @StorageLaws W B1) (L2 : @StorageLaws W B2)
    `{Json Manifest, Json SstFooter, Json OwnershipRecord, Digests, Json BlobPointer}
    prefix K U room epoch V w w' :
  @st_objects W B2 L2 w' = @st_objects W B1 L1 w → @st_wf W B2 L2 w' →
  @recoverable W B1 L1 _ _ _ _ _ prefix K U room epoch V w →
  @recoverable W B2 L2 _ _ _ _ _ prefix K U room epoch V w'.
Proof.
  intros Ho Hwf (wn & sn & m & etag & logs & files & [_ Hd Hm Hwal Hsst Hlog Hroom Hown]).
  exists wn, sn, m, etag, logs, files. split; try done.
  - by rewrite Ho.
  - unfold manifest_is, manifest_on in *. by rewrite Ho.
  - unfold last_epoch, owner_on in *. by rewrite Ho.
Qed.

(** The page's clock. *)
Class OriginClock (W : Type) `{OpfsLaws W} `{Clock (Origin W)} : Prop :=
  origin_clock (o : Origin W) : fs_wf (origin o) → ∃ t o', now_millis o = (Ok t, o') ∧ same_files o o'.

Section pages.
Context {W C : Type} `{OpfsApi W} `{Clock (Origin W)} `{Json Manifest} `{Json SstFooter}
  `{Json OwnershipRecord} `{Digests} `{Json BlobPointer} `{!Cache C string SstFile} `{Ch : Channel}.
Context `{!OpfsLaws W} (prefix : ObjectPath).

(** A page opens the origin's storage and then the store on it, makes its
    calls, and is left without any closing step. *)
Definition run_page (x : Session (C := C)) : Origin W → list (Result GsReply) * Origin W := λ o,
  match opfs_open o with
  | (Ok self, o) => let _ := opfs_backend self in run_session prefix x o
  | (Err e, o) => ([Err e], o)
  end.

Fixpoint run_pages (xs : list Session) (o : Origin W) : list (Result GsReply) * Origin W :=
  match xs with
  | [] => ([], o)
  | x :: xs =>
      let '(rs, o1) := run_page x o in
      let '(rs', o2) := run_pages xs o1 in (rs ++ rs', o2)
  end.
End pages.

Section browser.
Context {W C : Type} `{OpfsApi W} `{!OpfsLaws W} `{Clock (Origin W)} `{!OriginClock W}
  `{JsonLaws Manifest} `{JsonLaws SstFooter} `{JsonLaws OwnershipRecord} `{Digests} `{!Sha256Laws}
  `{JsonLaws BlobPointer} `{!Cache C string SstFile, !CacheLaws C string SstFile} `{Ch : Channel}.
Context (prefix : ObjectPath) (Hprefix : Forall (λ n, valid_name n = true) (segments prefix)).
Context (K : string → Prop) (U : bytes → Prop) `{!Workload prefix K U}.

Section opened.
Context (self : OpfsStorage).
#[local] Instance browser_backend : StorageBackend (Origin W) := opfs_backend self.
#[local] Instance browser_laws : StorageLaws (Origin W) :=
  opfs_laws self (store_path prefix) (store_prefix_free prefix Hprefix).

#[local] Instance browser_clock : ClockLaws (Origin W).
Proof using Type*.
  split. intros o Ho. destruct (origin_clock o (ds_wf _ _ _ Ho)) as (t & o' & Hrun & Hs).
  exists t, o'. split; [done|]. split; [|by eapply same_disciplined].
  apply map_eq. intros q. cbn. by rewrite !opfs_objects_lookup, (same_at _ _ _ q Hs).
Qed.

#[local] Instance browser_paths : StorePaths (Origin W) prefix.
Proof using Type. split; intros; constructor. Qed.

Definition stands_on (room epoch : N) (V : gmap string bytes) (o : Origin W) : Prop :=
  recoverable prefix K U room epoch V o.

Lemma page_ok x room epoch V o :
  stands_on (room + 16 * N.of_nat (length (se_calls x))) epoch V o →
  (epoch + 1 < U64)%N → (room + 16 * N.of_nat (length (se_calls x)) < U64)%N →
  session_ok K U x →
  ∃ o', run_session (C := C) prefix x o = ((lsm_calls (BTreeSpec.accepts []) (se_calls x) V).1.1, o') ∧
    stands_on room (epoch + 1) (lsm_calls (BTreeSpec.accepts []) (se_calls x) V).1.2 o'.
Proof using Type*.
  intros Hr He Hroom Hx.
  destruct (sessions_ok prefix K U [x] room epoch V o) as (o' & Hrun & Hrec).
  all: unfold all_calls in *; cbn [fmap list_fmap mjoin list_join] in *; rewrite ?app_nil_r in *; try done.
  { by constructor. }
  cbn [run_sessions] in Hrun. destruct (run_session prefix x o) as [rs o1].
  rewrite app_nil_r in Hrun. by exists o'.
Qed.

Lemma fresh_stands room o m :
  fs_wf (origin o) → dir_at (op_root self) = ["oxkv"] → fs (origin o) = <[["oxkv"] := None]> m →
  (∀ l, m !! ("oxkv" :: l) = None) → (room < U64)%N → stands_on room 0 ∅ o.
Proof using Type*.
  intros Hwf Hroot Hf Hnew Hroom.
  destruct (opened_empty self (store_path prefix) o m Hwf Hroot Hf Hnew) as [Hd Hobj].
  by apply (empty_recoverable prefix K U).
Qed.
End opened.

(** Between two pages the origin stands for a map: whatever handle the next one
    gets of the store's directory, its objects do. *)
Record stands (room epoch : N) (V : gmap string bytes) (o : Origin W) : Prop := {
  sd_wf : fs_wf (origin o);
  sd_dir b : fs (origin o) !! ["oxkv"] ≠ Some (Some b);
  sd_store self o' : dir_at (op_root self) = ["oxkv"] → fs_wf (origin o') →
    fs (origin o') = <[["oxkv"] := None]> (fs (origin o)) → stands_on self room epoch V o';
}.

(** An origin where no page has opened a store. *)
Lemma unopened_stands room o :
  fs_wf (origin o) → (∀ l, fs (origin o) !! ("oxkv" :: l) = None) → (room < U64)%N → stands room 0 ∅ o.
Proof using Type*.
  intros Hwf Hnew Hroom. split; [done|by rewrite Hnew|]. intros self o' Hroot Hwf' Hf.
  by apply (fresh_stands self room o' (fs (origin o))).
Qed.

Lemma stands_later self room epoch V o :
  dir_at (op_root self) = ["oxkv"] → stands_on self room epoch V o → stands room epoch V o.
Proof using Type*.
  intros Hroot Hon. pose proof Hon as (wn & sn & m & etag & logs & files & [Hd _ _ _ _ _ _ _]).
  change (disciplined self (store_path prefix) o) in Hd. pose proof (ds_root _ _ _ Hd) as Hr. rewrite Hroot in Hr.
  split; [apply Hd|by rewrite Hr|]. intros self' o' Hroot' Hwf' Hf. rewrite insert_id in Hf by done.
  apply (recoverable_move (opfs_backend self) (opfs_backend self') (browser_laws self) (browser_laws self')
    prefix K U room epoch V o o'); [| |exact Hon].
  - apply map_eq. intros q. cbn. rewrite !opfs_objects_lookup. unfold opfs_at.
    by rewrite Hroot, Hroot', Hf.
  - cbn. destruct Hd as [_ Hdir Hfile Hsub]. rewrite Hroot in *.
    split; [done|..]; rewrite Hroot', Hf; done.
Qed.

(** C18: The store in a browser.  However many pages open it in turn, each opening
    the origin's storage and the store on it, making any calls and going
    away, their replies are those of one map, which the origin's files stand
    for at the end. *)
Theorem browser_pages (xs : list Session) (room epoch : N) (V : gmap string bytes) (o : Origin W) :
  has_window = true →
  stands (room + 16 * N.of_nat (length (all_calls xs))) epoch V o →
  (epoch + N.of_nat (length xs) < U64)%N → (room + 16 * N.of_nat (length (all_calls xs)) < U64)%N →
  Forall (session_ok K U) xs →
  let '(rs, o') := run_pages (C := C) prefix xs o in
  let '(rs', V', _) := lsm_calls (BTreeSpec.accepts []) (all_calls xs) V in
  rs = rs' ∧ stands room (epoch + N.of_nat (length xs)) V' o'.
Proof using Type*.
  intros Hwin. revert epoch V o. induction xs as [|x xs IH]; intros epoch V o Ho He Hroom Hx.
  { cbn in *. rewrite !N.add_0_r in *. done. }
  apply Forall_cons in Hx as [Hx Hxs].
  change (all_calls (x :: xs)) with (se_calls x ++ all_calls xs) in *.
  rewrite length_app, Nat2N.inj_add in *. cbn [run_pages length] in *. unfold run_page.
  destruct Ho as [Hwf Hdir Hstore].
  destruct (opfs_open_spec o Hwf Hwin Hdir) as (self & o1 & -> & Hroot & Hwf1 & Hf1).
  pose proof (Hstore self o1 Hroot Hwf1 Hf1) as Hon.
  destruct (page_ok self x (room + 16 * N.of_nat (length (all_calls xs))) epoch V o1) as (o2 & Hrun & Hon2);
    [|lia|lia|done|].
  { by replace (room + 16 * N.of_nat (length (all_calls xs)) + 16 * N.of_nat (length (se_calls x)))%N
      with (room + 16 * (N.of_nat (length (se_calls x)) + N.of_nat (length (all_calls xs))))%N by lia. }
  unfold browser_backend in Hrun. cbv zeta. rewrite Hrun, lsm_calls_app.
  destruct (lsm_calls _ (se_calls x) V) as [[rs V1] ev1]. cbn [fst snd] in *.
  specialize (IH (epoch + 1)%N V1 o2 (stands_later _ _ _ _ _ Hroot Hon2)).
  destruct (run_pages prefix xs o2) as [rs2 o3]. destruct (lsm_calls _ (all_calls xs) V1) as [[rs' V2] ev2].
  destruct IH as [-> Hend]; [lia|lia|done|]. split; [done|].
  by replace (epoch + N.of_nat (S (length xs)))%N with (epoch + 1 + N.of_nat (length xs))%N by lia.
Qed.
End browser.

(** ** A browser with two pages *)

Section witness.
#[local] Existing Instance length_digests.
#[local] Existing Instance bounded_channel.
#[local] Existing Instance se_manifest_json.
#[local] Existing Instance se_manifest_json_laws.
#[local] Existing Instance se_footer_json.
#[local] Existing Instance se_footer_json_laws.
#[local] Existing Instance se_owner_json.
#[local] Existing Instance se_owner_json_laws.
#[local] Existing Instance se_pointer_json.
#[local] Existing Instance se_pointer_json_laws.
#[local] Existing Instance two_workload.

#[local] Instance length_sha : Sha256Laws.
Proof. intros b. apply to_le_bytes_length. Qed.
#[local] Instance page_clock : Clock (Origin MemOrigin) := {| now_millis := op_ret 0%N |}.
#[local] Instance page_clock_laws : OriginClock MemOrigin.
Proof. intros o Ho. by exists 0%N, o. Qed.

Definition two_pages : list (Session (C := LruCache string SstFile)) := [
  MkSession "w1" false empty_lru
    [Gs (CPut "a" (as_bytes "1")); FlushSst true; Gs (CSet "b" (as_bytes "22"))];
  MkSession "w2" true empty_lru [Gs (CGet "a"); Gs (CDelete "b"); Compact; Gs (CHas "b")]].

Lemma browser_pages_witness :
  (run_pages "p" two_pages (MkOrigin 0 (mem_origin true))).1 =
    [Ok RUnit; Ok RUnit; Ok (RBytes None); Ok (RBytes (Some (as_bytes "1"))); Ok (RBool true); Ok RUnit;
     Ok (RBool false)].
Proof.
  assert (Forall (λ n, valid_name n = true) (segments "p")) as Hp by (apply (bool_decide_unpack _); vm_compute; exact I).
  assert (stands "p" Hp two_keys two_values 112 0 ∅ (MkOrigin 0 (mem_origin true))) as Hstands.
  { apply (unopened_stands "p" Hp two_keys two_values); [split|by intros l; cbn; rewrite lookup_singleton_ne|done].
    - by vm_compute.
    - intros l n x Hx. cbn in Hx. apply lookup_singleton_Some in Hx as [Hx _]. by destruct l. }
  pose proof (browser_pages "p" Hp two_keys two_values two_pages 0 0 ∅ _ eq_refl Hstands) as Hs.
  destruct (run_pages "p" two_pages (MkOrigin 0 (mem_origin true))) as [rs o'].
  assert (lsm_calls (BTreeSpec.accepts []) (all_calls two_pages) ∅ =
    ([Ok RUnit; Ok RUnit; Ok (RBytes None); Ok (RBytes (Some (as_bytes "1"))); Ok (RBool true); Ok RUnit;
      Ok (RBool false)],
     (lsm_calls (BTreeSpec.accepts []) (all_calls two_pages) ∅).1.2,
     (lsm_calls (BTreeSpec.accepts []) (all_calls two_pages) ∅).2)) as Hspec by (vm_compute; reflexivity).
  rewrite Hspec in Hs. apply Hs; [reflexivity|reflexivity|].
  repeat apply Forall_cons_2; [..|apply Forall_nil_2];
    (split; [reflexivity|]; split; [|reflexivity]); use_calls two_row.
Defined.
End witness.
