(* ===== verification/OpfsRace.v ===== *)
(** Tabs of one origin: their conditional writes interleave between the check
    and the write of [put_guarded].  Under the Web Lock of the object every
    interleaving is a serial one; without it an update is lost. *)

From stdpp Require Import options.
From S2P Require Import Prelude OrdMap Core Codec Hooks Storage Json Blob LsmStore LsmPaths Opfs OpfsSpec OpfsMem.

(** ** Tasks and their steps *)

(** One [put_opts] call of a tab. *)
Record Task := MkTask {
  tk_path : ObjectPath;
  tk_payload : bytes;
  tk_mode : PutMode;
}.

(** A task waits for the lock, has passed its check, or has its reply. *)
Inductive Phase :=
| Waiting
| Checked
| Done (reply : Result PutOutcome).

Section race.
Context {W : Type} `{OpfsApi W} `{Digests} (self : OpfsStorage).

Record Race := MkRace {
  rc_tasks : gmap nat (Task * Phase);
  rc_origin : Origin W;
}.

(** The lock is held from the check to the write of its holder. *)
Definition lock_free (name : string) (s : Race) : Prop :=
  ∀ j t, rc_tasks s !! j = Some (t, Checked) → lock_name (tk_path t) ≠ name.

Inductive race_step (locked : bool) : Race → Race → Prop :=
| step_check i t s r o :
    rc_tasks s !! i = Some (t, Waiting) →
    (locked = true → lock_free (lock_name (tk_path t)) s) →
    put_check self (tk_path t) (tk_mode t) (rc_origin s) = (r, o) →
    race_step locked s (MkRace
      (<[i := (t, match r with Ok _ => Checked | Err e => Done (Err e) end)]> (rc_tasks s)) o)
| step_write i t s r o :
    rc_tasks s !! i = Some (t, Checked) →
    put_write self (tk_path t) (tk_payload t) (rc_origin s) = (r, o) →
    race_step locked s (MkRace (<[i := (t, Done r)]> (rc_tasks s)) o).
End race.
Arguments Race W : clear implicits.

(** ** The serial meaning *)

Definition put_allowed_dec (cur : option (bytes * string)) (mode : PutMode) : bool :=
  match mode, cur with
  | Create, None => true
  | Update v, Some (_, t) => bool_decide (ov_e_tag v = Some t ∧ default t (ov_version v) = t)
  | _, _ => false
  end.

Lemma put_allowed_spec cur mode : put_allowed_dec cur mode = true ↔ put_allowed cur mode.
Proof.
  destruct mode as [|v], cur as [[b t]|]; cbn; try (split; naive_solver).
  rewrite bool_decide_eq_true. naive_solver.
Qed.

(** A task on the map of objects: its outcome, or none for a conflict. *)
Definition serial_put `{Digests} (t : Task) (m : gmap string (bytes * string)) :
    option PutOutcome * gmap string (bytes * string) :=
  let tag := content_etag (tk_payload t) in
  if put_allowed_dec (m !! tk_path t) (tk_mode t)
  then (Some (MkPutOutcome (Some tag) (Some tag)), <[tk_path t := (tk_payload t, tag)]> m)
  else (None, m).

Fixpoint serial `{Digests} (ts : list (nat * Task)) (m : gmap string (bytes * string)) :
    list (nat * option PutOutcome) * gmap string (bytes * string) :=
  match ts with
  | [] => ([], m)
  | (i, t) :: ts =>
      let '(r, m1) := serial_put t m in
      let '(rs, m2) := serial ts m1 in ((i, r) :: rs, m2)
  end.

Lemma serial_snoc `{Digests} ts i t m :
  serial (ts ++ [(i, t)]) m =
    (let '(rs, m1) := serial ts m in let '(r, m2) := serial_put t m1 in (rs ++ [(i, r)], m2)).
Proof.
  revert m. induction ts as [|[j u] ts IH]; intros m; cbn.
  - by destruct (serial_put t m).
  - destruct (serial_put u m) as [r m1]. rewrite IH. destruct (serial ts m1) as [rs m2].
    by destruct (serial_put t m2).
Qed.

(** What the caller of a task sees of its reply. *)
Definition reply_is (r : Result PutOutcome) (out : option PutOutcome) : Prop :=
  match r with
  | Ok o => out = Some o
  | Err e => out = None ∧ ∃ msg, e = CasConflict msg
  end.

(** ** Under the lock *)

Section locked.
Context {W : Type} `{OpfsLaws W} `{Digests}.
Context (self : OpfsStorage) (P : ObjectPath → Prop) (HP : prefix_free P).

(** An order of the tasks that are done explains the replies and the objects. *)
Definition explained (m0 : gmap string (bytes * string)) (order : list (nat * Task)) (s : Race W) : Prop :=
  NoDup order.*1 ∧
  (∀ i t, (i, t) ∈ order ↔ ∃ r, rc_tasks s !! i = Some (t, Done r)) ∧
  (serial order m0).2 = opfs_objects self (rc_origin s) ∧
  ∀ i out, (i, out) ∈ (serial order m0).1 → ∃ t r, rc_tasks s !! i = Some (t, Done r) ∧ reply_is r out.

Record race_inv (m0 : gmap string (bytes * string)) (s : Race W) : Prop := {
  ri_disc : disciplined self P (rc_origin s);
  ri_paths i t ph : rc_tasks s !! i = Some (t, ph) → P (tk_path t);
  ri_checked i t : rc_tasks s !! i = Some (t, Checked) →
    put_allowed (opfs_at self (rc_origin s) (tk_path t)) (tk_mode t);
  ri_holder i j t u : rc_tasks s !! i = Some (t, Checked) → rc_tasks s !! j = Some (u, Checked) →
    tk_path t = tk_path u → i = j;
  ri_order : ∃ order, explained m0 order s;
}.

(** A task that ends extends the order. *)
Lemma explained_snoc m0 order s i t ph r o out :
  explained m0 order s → rc_tasks s !! i = Some (t, ph) → (∀ r, ph ≠ Done r) → reply_is r out →
  serial_put t (opfs_objects self (rc_origin s)) = (out, opfs_objects self o) →
  explained m0 (order ++ [(i, t)]) (MkRace (<[i := (t, Done r)]> (rc_tasks s)) o).
Proof using Type.
  intros (Hnd & Hdone & Hobj & Hrep) Hi Hph Hr Hput.
  assert (Hfresh : ∀ u, (i, u) ∉ order).
  { intros u [r' Hu]%Hdone. rewrite Hi in Hu. injection Hu as _ ->. by apply (Hph r'). }
  assert (Hser : serial (order ++ [(i, t)]) m0 = ((serial order m0).1 ++ [(i, out)], opfs_objects self o)).
  { rewrite serial_snoc. destruct (serial order m0) as [rs m1]. cbn in Hobj. subst m1. by rewrite Hput. }
  split; [|split; [|split]].
  - rewrite fmap_app. apply NoDup_app. split; [done|]. split; [|apply NoDup_singleton].
    intros j Hj Heq. cbn in Heq. apply list_elem_of_singleton in Heq as ->.
    apply list_elem_of_fmap in Hj as ([j u] & Hj & Hin). cbn in Hj. subst j. by apply (Hfresh u).
  - intros j u. rewrite elem_of_app, list_elem_of_singleton, Hdone. cbn.
    destruct (decide (j = i)) as [->|Hne].
    + rewrite lookup_insert_eq. split; [|intros [r' [= -> _]]; by right].
      intros [[r' Hu]|[= ->]]; [|by exists r]. rewrite Hi in Hu. injection Hu as _ ->. by destruct (Hph r').
    + rewrite lookup_insert_ne by done. split; [|by left]. intros [?|[= -> _]]; done.
  - by rewrite Hser.
  - intros j out'. rewrite Hser. cbn. rewrite elem_of_app, list_elem_of_singleton.
    intros [Hin|[= -> ->]].
    + destruct (Hrep _ _ Hin) as (u & r' & Hj & Hr'). exists u, r'. split; [|done].
      rewrite lookup_insert_ne; [done|]. intros <-. rewrite Hi in Hj. injection Hj as _ ->. by destruct (Hph r').
    + exists t, r. by rewrite lookup_insert_eq.
Qed.

Lemma serial_put_ok t (o : Origin W) :
  put_allowed (opfs_at self o (tk_path t)) (tk_mode t) →
  serial_put t (opfs_objects self o) =
    (Some (MkPutOutcome (Some (content_etag (tk_payload t))) (Some (content_etag (tk_payload t)))),
     <[tk_path t := (tk_payload t, content_etag (tk_payload t))]> (opfs_objects self o)).
Proof using Type.
  intros Ha. unfold serial_put. rewrite opfs_objects_lookup.
  by rewrite (proj2 (put_allowed_spec _ _) Ha).
Qed.

Lemma serial_put_conflict t (o : Origin W) :
  ¬ put_allowed (opfs_at self o (tk_path t)) (tk_mode t) →
  serial_put t (opfs_objects self o) = (None, opfs_objects self o).
Proof using Type.
  intros Ha. unfold serial_put. rewrite opfs_objects_lookup.
  destruct (put_allowed_dec _ _) eqn:Hd; [by apply put_allowed_spec in Hd|done].
Qed.

Lemma same_objects (o o' : Origin W) : same_files o o' → opfs_objects self o' = opfs_objects self o.
Proof using Type.
  intros Hs. apply map_eq. intros q. by rewrite !opfs_objects_lookup, (same_at _ _ _ q Hs).
Qed.

Lemma check_keeps m0 i t s r o :
  race_inv m0 s → rc_tasks s !! i = Some (t, Waiting) → lock_free (lock_name (tk_path t)) s →
  put_check self (tk_path t) (tk_mode t) (rc_origin s) = (r, o) →
  race_inv m0 (MkRace
    (<[i := (t, match r with Ok _ => Checked | Err e => Done (Err e) end)]> (rc_tasks s)) o).
Proof using Type*.
  intros [Hd Hp Hc Hh [order Hord]] Hi Hfree Hrun.
  destruct (put_check_spec self P HP (rc_origin s) (tk_path t) (tk_mode t) Hd) as (r' & o' & Hrun' & Hs & Hr);
    [by eapply Hp|]. rewrite Hrun in Hrun'. injection Hrun' as <- <-.
  assert (Hothers : ∀ j u ph, <[i := (t, match r with Ok _ => Checked | Err e => Done (Err e) end)]> (rc_tasks s) !! j =
    Some (u, ph) → j = i ∧ u = t ∧ ph = match r with Ok _ => Checked | Err e => Done (Err e) end ∨
    j ≠ i ∧ rc_tasks s !! j = Some (u, ph)).
  { intros j u ph [[-> [= -> ->]]|[? ?]]%lookup_insert_Some; auto. }
  split; cbn.
  - by eapply same_disciplined.
  - intros j u ph [(-> & -> & _)|[_ Hj]]%Hothers; by eapply Hp.
  - intros j u [(-> & -> & Hph)|[_ Hj]]%Hothers; rewrite (same_at _ _ _ _ Hs); [|by eapply Hc].
    by destruct r.
  - intros j k u v [(-> & -> & Hph)|[Hne Hj]]%Hothers [(-> & -> & Hph')|[Hne' Hk]]%Hothers Heq; [done| | |by eapply Hh].
    + destruct (Hfree k v Hk). by rewrite Heq.
    + destruct (Hfree j u Hj). by rewrite Heq.
  - destruct r as [[]|e].
    + exists order. destruct Hord as (Hnd & Hdone & Hobj & Hrep). split; [done|]. cbn.
      assert (∀ j u r, <[i := (t, Checked)]> (rc_tasks s) !! j = Some (u, Done r) ↔
        rc_tasks s !! j = Some (u, Done r)) as Hsame.
      { intros j u r. rewrite lookup_insert_Some. split; [naive_solver|]. intros Hj. right.
        split; [|done]. intros ->. congruence. }
      split; [intros j u; rewrite Hdone; by setoid_rewrite Hsame|].
      split; [by rewrite Hobj, (same_objects _ _ Hs)|]. intros j out Hin.
      destruct (Hrep _ _ Hin) as (u & r & Hj & ?). exists u, r. by rewrite Hsame.
    + exists (order ++ [(i, t)]). eapply explained_snoc; [done|done|done| |].
      * destruct Hr as [He _]. by split.
      * rewrite (same_objects _ _ Hs). apply serial_put_conflict, Hr.
Qed.

Lemma write_keeps m0 i t s r o :
  race_inv m0 s → rc_tasks s !! i = Some (t, Checked) →
  put_write self (tk_path t) (tk_payload t) (rc_origin s) = (r, o) →
  race_inv m0 (MkRace (<[i := (t, Done r)]> (rc_tasks s)) o).
Proof using Type*.
  intros [Hd Hp Hc Hh [order Hord]] Hi Hrun.
  destruct (write_new_spec self P HP (rc_origin s) (tk_path t) (tk_payload t) Hd) as (o' & Hw & Hd' & _ & Hat);
    [by eapply Hp|]. unfold put_write in Hrun. rewrite (op_bind_ok _ _ _ _ _ Hw) in Hrun.
  injection Hrun as <- <-.
  assert (Hothers : ∀ j u, <[i := (t, Done (Ok (MkPutOutcome (Some (content_etag (tk_payload t)))
      (Some (content_etag (tk_payload t))))))]> (rc_tasks s) !! j = Some (u, Checked) →
    j ≠ i ∧ rc_tasks s !! j = Some (u, Checked)).
  { intros j u [[_ ?]|[? ?]]%lookup_insert_Some; [done|auto]. }
  split; cbn.
  - done.
  - intros j u ph [[-> [= -> _]]|[_ Hj]]%lookup_insert_Some; by eapply Hp.
  - intros j u [Hne Hj]%Hothers. rewrite Hat, decide_False; [by eapply Hc|].
    intros Heq. apply Hne. by eapply Hh.
  - intros j k u v [_ Hj]%Hothers [_ Hk]%Hothers. by eapply Hh.
  - exists (order ++ [(i, t)]). eapply explained_snoc; [done|done|done|done|].
    rewrite serial_put_ok by by eapply Hc. f_equal. symmetry. eapply objects_eq; [exact Hat|].
    intros q. rewrite lookup_insert, opfs_objects_lookup. by repeat case_decide; subst.
Qed.

End locked.

(** ** Schedules *)

Section schedules.
Context {W : Type} `{OpfsApi W} `{Digests} (self : OpfsStorage).

(** The next step of a task. *)
Definition race_next (i : nat) (s : Race W) : Race W :=
  match rc_tasks s !! i with
  | Some (t, Waiting) =>
      let '(r, o) := put_check self (tk_path t) (tk_mode t) (rc_origin s) in
      MkRace (<[i := (t, match r with Ok _ => Checked | Err e => Done (Err e) end)]> (rc_tasks s)) o
  | Some (t, Checked) =>
      let '(r, o) := put_write self (tk_path t) (tk_payload t) (rc_origin s) in
      MkRace (<[i := (t, Done r)]> (rc_tasks s)) o
  | _ => s
  end.

Definition blocked (i : nat) (s : Race W) : bool :=
  match rc_tasks s !! i with
  | Some (t, Waiting) =>
      existsb (λ x, match x.2.2 with
                    | Checked => bool_decide (lock_name (tk_path x.2.1) = lock_name (tk_path t))
                    | _ => false
                    end) (map_to_list (rc_tasks s))
  | _ => false
  end.

Lemma blocked_free i t s :
  rc_tasks s !! i = Some (t, Waiting) → blocked i s = false → lock_free (lock_name (tk_path t)) s.
Proof using Type.
  intros Hi. unfold blocked. rewrite Hi. intros Hb j u Hj Heq.
  apply Bool.not_true_iff_false in Hb. apply Hb, existsb_exists. exists (j, (u, Checked)).
  rewrite <-list_elem_of_In, elem_of_map_to_list. split; [done|]. cbn. by apply bool_decide_eq_true.
Qed.

Lemma race_next_step locked i s :
  (locked = true → blocked i s = false) → rtc (race_step self locked) s (race_next i s).
Proof using Type.
  intros Hb. unfold race_next. destruct (rc_tasks s !! i) as [[t [| |r]]|] eqn:Hi; [..|done].
  - destruct (put_check _ _ _ _) as [r o] eqn:Hrun. apply rtc_once. eapply step_check; [done| |done].
    intros Hl. by apply (blocked_free i); [|apply Hb].
  - destruct (put_write _ _ _ _) as [r o] eqn:Hrun. apply rtc_once. by eapply step_write.
  - done.
Qed.

(** The steps a task has left. *)
Definition phase_left (ph : Phase) : nat :=
  match ph with Waiting => 2 | Checked => 1 | Done _ => 0 end.

Definition remaining (m : gmap nat (Task * Phase)) : nat :=
  sum_list ((λ x, phase_left x.2.2) <$> map_to_list m).

Lemma remaining_insert m i t ph ph' :
  m !! i = Some (t, ph) → remaining (<[i := (t, ph')]> m) + phase_left ph = remaining m + phase_left ph'.
Proof using Type.
  intros Hi. unfold remaining.
  rewrite <-(insert_delete_id m i (t, ph)) at 2 by done.
  rewrite <-insert_delete_eq, !map_to_list_insert by apply lookup_delete_eq. cbn. lia.
Qed.

Lemma step_remaining locked s s' :
  race_step self locked s s' → remaining (rc_tasks s') < remaining (rc_tasks s).
Proof using Type.
  intros [i t s1 r o Hi _ _|i t s1 r o Hi _]; cbn.
  - pose proof (remaining_insert _ i t _ (match r with Ok _ => Checked | Err e => Done (Err e) end) Hi) as Hr.
    destruct r; cbn in Hr |- *; lia.
  - pose proof (remaining_insert _ i t _ (Done r) Hi) as Hr. cbn in Hr. lia.
Qed.

Lemma holder_runs i s t :
  rc_tasks s !! i = Some (t, Checked) → ∃ s', race_step self true s s'.
Proof using Type.
  intros Hi. destruct (put_write self (tk_path t) (tk_payload t) (rc_origin s)) as [r o] eqn:Hrun.
  eexists. by eapply step_write.
Qed.

(** No deadlock: while a task is not done, some task takes a step. *)
Lemma tabs_progress s i t ph :
  rc_tasks s !! i = Some (t, ph) → (∀ r, ph ≠ Done r) → ∃ s', race_step self true s s'.
Proof using Type.
  intros Hi Hph. destruct ph as [| |r]; [|by eapply holder_runs|by destruct (Hph r)].
  destruct (existsb (λ x : nat * (Task * Phase), match x.2.2 with Checked => true | _ => false end)
    (map_to_list (rc_tasks s))) eqn:Hex.
  - apply existsb_exists in Hex as ([j [u [| |r]]] & Hin & Hc); try done.
    apply list_elem_of_In, elem_of_map_to_list in Hin. by eapply holder_runs.
  - destruct (put_check self (tk_path t) (tk_mode t) (rc_origin s)) as [r o] eqn:Hrun.
    eexists. eapply step_check; [done| |done]. intros _ j u Hj. exfalso.
    apply Bool.not_true_iff_false in Hex. apply Hex, existsb_exists. exists (j, (u, Checked)).
    by rewrite <-list_elem_of_In, elem_of_map_to_list.
Qed.

(** Every run ends, with a reply for every task. *)
Lemma tabs_finish s :
  ∃ s', rtc (race_step self true) s s' ∧ ∀ i t ph, rc_tasks s' !! i = Some (t, ph) → ∃ r, ph = Done r.
Proof using Type.
  remember (remaining (rc_tasks s)) as n eqn:Hn. revert s Hn.
  induction (lt_wf n) as [n _ IH]. intros s ->.
  destruct (existsb (λ x : nat * (Task * Phase), negb (phase_left x.2.2 =? 0)) (map_to_list (rc_tasks s))) eqn:Hex.
  - apply existsb_exists in Hex as ([i [t ph]] & Hin & Hph). apply list_elem_of_In, elem_of_map_to_list in Hin.
    destruct (tabs_progress s i t ph Hin) as [s1 Hstep]; [by intros r ->|].
    destruct (IH _ (step_remaining _ _ _ Hstep) s1 eq_refl) as (s' & Hsteps & Hdone).
    exists s'. split; [by eapply rtc_l|done].
  - exists s. split; [done|]. intros i t ph Hi. destruct ph as [| |r]; [exfalso..|by exists r].
    all: apply Bool.not_true_iff_false in Hex; apply Hex, existsb_exists; eexists;
      (split; [by apply list_elem_of_In, elem_of_map_to_list|done]).
Qed.
End schedules.

(** ** Two tabs *)

Section tabs.
#[local] Existing Instance length_digests.

Definition tab_origin (locks : bool) : Origin MemOrigin := (opfs_open (MkOrigin 0 (mem_origin locks))).2.
Definition tab_store : OpfsStorage (W := MemOrigin) := MkOpfs ["oxkv"].

(** Both create the same object. *)
Definition two_creates : gmap nat (Task * Phase) :=
  {[0 := (MkTask "x" (as_bytes "1") Create, Waiting); 1 := (MkTask "x" (as_bytes "22") Create, Waiting)]}.

Definition tab_run (schedule : list nat) (s : Race MemOrigin) : Race MemOrigin :=
  foldl (λ s i, race_next tab_store i s) s schedule.

Lemma tab_run_steps locked schedule s :
  (locked = true → forallb (λ n, negb (blocked (default 0 (schedule !! n)) (tab_run (take n schedule) s)))
    (List.seq 0 (length schedule)) = true) →
  rtc (race_step tab_store locked) s (tab_run schedule s).
Proof.
  unfold tab_run. induction schedule as [|i schedule IH] using rev_ind; intros Hb; [done|].
  rewrite foldl_snoc. etrans; [apply IH|apply race_next_step].
  - intros Hl. specialize (Hb Hl). rewrite length_app, seq_app, forallb_app in Hb.
    apply andb_true_iff in Hb as [Hb _]. rewrite forallb_forall in Hb |- *. intros n Hn.
    rewrite <-(Hb n Hn). apply in_seq in Hn. rewrite lookup_app_l by lia. by rewrite take_app_le by lia.
  - intros Hl. specialize (Hb Hl). rewrite length_app, seq_app, forallb_app in Hb.
    apply andb_true_iff in Hb as [_ Hb]. cbn in Hb. rewrite andb_true_r in Hb.
    rewrite lookup_app_r, Nat.sub_diag, take_app_length in Hb by lia. cbn in Hb.
    by apply negb_true_iff in Hb.
Qed.

Definition only_x (p : ObjectPath) : Prop := p = "x".

Lemma only_x_free : prefix_free only_x.
Proof. split; [intros p ->; by apply Forall_singleton|by intros p q -> ->]. Qed.

Lemma tab_origin_opened locks :
  opfs_open (MkOrigin 0 (mem_origin locks)) = (Ok tab_store, tab_origin locks).
Proof. by destruct locks. Qed.

Lemma tab_origin_disciplined locks : disciplined tab_store only_x (tab_origin locks).
Proof.
  destruct (opfs_open_spec (MkOrigin 0 (mem_origin locks))) as (self & o & Hopen & Hroot & Hwf & Hf).
  - split; [by vm_compute|]. intros l n x Hx. cbn in Hx. apply lookup_singleton_Some in Hx as [Hx _].
    by destruct l.
  - done.
  - done.
  - rewrite tab_origin_opened in Hopen. injection Hopen as <- <-.
    apply (opened_empty _ _ _ _ Hwf Hroot Hf). intros l. cbn. by rewrite lookup_singleton_ne.
Qed.


(** Without it both tabs create the object: what the first one was told it had
    stored is gone. *)
Lemma unlocked_tabs_lose :
  let s := tab_run [0; 1; 0; 1] (MkRace two_creates (tab_origin false)) in
  rtc (race_step tab_store false) (MkRace two_creates (tab_origin false)) s ∧
  (∀ i, i ∈ [0; 1] → ∃ t out, rc_tasks s !! i = Some (t, Done (Ok out))) ∧
  opfs_at tab_store (rc_origin s) "x" = Some (as_bytes "22", content_etag (as_bytes "22")) ∧
  ∀ order, ¬ explained tab_store (opfs_objects tab_store (tab_origin false)) order s.
Proof.
  cbv zeta. split; [by apply tab_run_steps|]. split; [|split].
  - intros i Hi. repeat (apply elem_of_cons in Hi as [->|Hi]); [..|by apply elem_of_nil in Hi];
      (eexists _, _; vm_compute; reflexivity).
  - vm_compute. reflexivity.
  - intros order (Hnd & Hdone & _ & Hrep).
    set (t0 := MkTask "x" (as_bytes "1") Create) in *. set (t1 := MkTask "x" (as_bytes "22") Create) in *.
    set (m := rc_tasks (tab_run [0; 1; 0; 1] (MkRace two_creates (tab_origin false)))) in *.
    assert (m = {[0 := (t0, Done (Ok (MkPutOutcome (Some (content_etag (as_bytes "1"))) (Some (content_etag (as_bytes "1"))))));
      1 := (t1, Done (Ok (MkPutOutcome (Some (content_etag (as_bytes "22"))) (Some (content_etag (as_bytes "22"))))))]})
      as Hm by (vm_compute; reflexivity).
    assert (∀ i, (i, None) ∉ (serial order (opfs_objects tab_store (tab_origin false))).1) as Hno.
    { intros i Hin. destruct (Hrep _ _ Hin) as (t & r & Hi & Hr). rewrite Hm in Hi.
      apply lookup_insert_Some in Hi as [[_ [= <- <-]]|[_ Hi]]; [done|].
      by apply lookup_singleton_Some in Hi as [_ [= <- <-]]. }
    assert (order ≡ₚ [(0, t0); (1, t1)]) as Hperm.
    { apply NoDup_Permutation; [by eapply NoDup_fmap_1|apply (NoDup_fmap_1 fst), (bool_decide_unpack _); by vm_compute|].
      clear Hno Hrep. intros [i t]. rewrite Hdone, Hm, elem_of_cons, list_elem_of_singleton. split.
      - intros [r Hi]. apply lookup_insert_Some in Hi as [[<- [= <- _]]|[_ Hi]]; [by left|].
        apply lookup_singleton_Some in Hi as [<- [= <- _]]. by right.
      - intros [[= -> ->]|[= -> ->]]; eexists; reflexivity. }
    apply Permutation_sym, Permutation_length_2_inv in Hperm as [->| ->]; [apply (Hno 1)|apply (Hno 0)];
      vm_compute; apply list_elem_of_further, list_elem_of_here.
Qed.
End tabs.
