(* ===== verification/Wasm.v ===== *)
(** The JavaScript bindings: [src/src/wasm].

    A page holds one store behind a lock and the transaction handles it has
    given out; every method takes the lock, runs one operation to its end and
    converts the reply, so a method is one step of the page.  The three store
    classes ([JsBTreeStore], [JsOxKvStore], [JsCachedOxKvStore]) have the same
    methods over different stores and the macro [js_tx!] generates the same
    handle for each, so the methods are written once, over any [Store], and
    instantiated below.  The store of a transaction is the page's: [S] is the
    store, [T] what a transaction adds to it.

    serde_wasm_bindgen, which converts between JavaScript values and
    [serde_json::Value], is a class.  Setting a property of a fresh object
    cannot fail, and a handle that [commit] or [rollback] consumed stands for
    the [Option] they left empty. *)

From stdpp Require Import options.
From S2P Require Import Prelude OrdMap Core Codec Hooks BTree BTreeSpec Snapshot Storage.
From S2P Require Import Json Float Query QuerySpec QueryDate QueryEval QueryEvalSpec Gets.

(** ** Values *)

(** What the bindings return and take.  [JsData] is a plain value of the
    serializer: a JSON document as objects, arrays, strings and numbers. *)
Inductive JsValue (D : Type) :=
| JsUndefined
| JsNull
| JsBoolean (b : bool)
| JsNumber (n : N)
| JsUint8Array (b : bytes)
| JsData (d : D)
| JsTx (handle : nat)
| JsError (message : string).
Arguments JsUndefined {D}.
Arguments JsNull {D}.
Arguments JsBoolean {D} _.
Arguments JsNumber {D} _.
Arguments JsUint8Array {D} _.
Arguments JsData {D} _.
Arguments JsTx {D} _.
Arguments JsError {D} _.

(** The object [{key, value}]. *)
Record JsObject (D : Type) := JsObj { js_key : string; js_value : JsValue D }.
Arguments JsObj {D} _ _.

(** [serde_wasm_bindgen::from_value] and [Serializer::json_compatible], whose
    errors are rendered messages, and the [Debug] text of a value. *)
Class SerdeWasm `{JsonNumbers} (D : Type) := {
  from_value : JsValue D → string + Value;
  to_value : Value → string + JsValue D;
  js_debug : JsValue D → string;
}.

(** [impl From<Direction> for store::Direction] is the identity: the two
    enumerations have the same cases. *)
Definition js_direction (d : Direction) : Direction :=
  match d with Next => Next | Prev => Prev end.

Definition U32_END : N := 4294967296.

Section values.
Context `{JsonNumbers} {D : Type} `{!SerdeWasm D} `{!Json Value}.

(** [impl From<StoreError> for JsValue]. *)
Definition from_store_error (e : StoreError) : JsValue D := JsError (Core.to_string e).

Definition js_result {A} (r : Result A) : JsValue D + A :=
  match r with Ok a => inr a | Err e => inl (from_store_error e) end.

(** [serde_json::to_vec] and [from_slice] at [serde_json::Value]. *)
#[export] Instance value_serde : Serde Value := {|
  serialize v := inr (to_vec v);
  deserialize := from_slice;
|}.

Definition json_compatible (v : Value) : Result (JsValue D) :=
  match to_value v with inl e => Err (Serialization e) | inr j => Ok j end.

Definition from_js (v : JsValue D) : Result Value :=
  match from_value v with inl e => Err (Serialization e) | inr v => Ok v end.

Definition bytes_or_null (b : option bytes) : JsValue D :=
  match b with Some b => JsUint8Array b | None => JsNull end.

Definition json_or_null (v : option Value) : Result (JsValue D) :=
  match v with Some v => json_compatible v | None => Ok JsNull end.

Definition kv_object (kv : KeyValue) : JsObject D := JsObj (key kv) (JsUint8Array (value kv)).

(** The object of a [gets] reply: bytes that are not JSON are returned raw. *)
Definition doc_object (kv : KeyValue) : Result (JsObject D) :=
  match from_slice (value kv) with
  | inr v => res_map (JsObj (key kv)) (json_compatible v)
  | inl _ => Ok (JsObj (key kv) (JsUint8Array (value kv)))
  end.

Fixpoint collect {A} (l : list (Result A)) : Result (list A) :=
  match l with
  | [] => Ok []
  | r :: l => let? a := r in let? l := collect l in Ok (a :: l)
  end.

(** [u32::try_from]. *)
Definition count_u32 (n : N) : Result (JsValue D) :=
  if (n <? U32_END)%N then Ok (JsNumber n)
  else Err (Serialization "out of range integral type conversion attempted").

(** An item of a [ReadableStream], as [load_stream] maps it. *)
Definition stream_chunk (item : JsValue D + JsValue D) : Result bytes :=
  match item with
  | inl e => Err (Other ("stream read failed: " +:+ js_debug e))
  | inr (JsUint8Array b) => Ok b
  | inr v => Err (Other ("expected Uint8Array chunk: " +:+ js_debug v))
  end.
End values.

(** ** Pages *)

Record Page (S T : Type) := MkPage { pg_store : S; pg_txs : list (option T) }.
Arguments MkPage {S T} _ _.
Arguments pg_store {S T} _.
Arguments pg_txs {S T} _.

(** The reply of a method: a value, or an array of objects. *)
Inductive JsReply (D : Type) :=
| RValue (v : JsValue D)
| RObjects (l : list (JsObject D)).
Arguments RValue {D} _.
Arguments RObjects {D} _.

Definition CLOSED : string := "transaction already committed or rolled back".

Section page.
Context `{JsonNumbers} {D : Type} `{!SerdeWasm D} `{!Json Value}.
Context {S T : Type} `{Store S (S * T)}.
Abbreviation page := (Page S T).
Abbreviation JsOp A := (Page S T → (JsValue D + A) * Page S T).

(** The boundary: an error becomes a rejection. *)
Definition js_return {A} (m : Op page A) : JsOp A := λ p, let '(r, p) := m p in (js_result r, p).

(** [self.inner.lock().await], held over one operation. *)
Definition locked {A} (m : Op S A) : Op page A :=
  op_zoom pg_store (λ s p, MkPage s (pg_txs p)) m.

(** *** The store class *)

Definition js_get_bytes (k : string) : JsOp (JsValue D) :=
  js_return (let! r := locked (get_bytes k) in op_ret (bytes_or_null r)).

Definition js_has (k : string) : JsOp (JsValue D) :=
  js_return (let! r := locked (has k) in op_ret (JsBoolean r)).

Definition js_set_bytes (k : string) (v : bytes) : JsOp (JsValue D) :=
  js_return (let! r := locked (set_bytes k v) in op_ret (bytes_or_null r)).

Definition js_set (k : string) (v : JsValue D) : JsOp (JsValue D) :=
  js_return (
    let! json := op_lift (from_js v) in
    let! prev := locked (set k json) in
    op_lift (json_or_null prev)).

Definition js_get (k : string) : JsOp (JsValue D) :=
  js_return (let! v := locked (get k) in op_lift (json_or_null v)).

Definition js_delete (k : string) : JsOp (JsValue D) :=
  js_return (let! r := locked (delete k) in op_ret (JsBoolean r)).

Definition js_gets_bytes (limit : option N) (dir : Direction) (c : cursor) : JsOp (list (JsObject D)) :=
  js_return (let! l := locked (gets_bytes limit (js_direction dir) c) in op_ret (kv_object <$> l)).

Definition js_begin_tx : JsOp (JsValue D) :=
  js_return (λ p,
    match begin_tx (pg_store p) with
    | Ok (s, t) => (Ok (JsTx (length (pg_txs p))), MkPage s (pg_txs p ++ [Some t]))
    | Err e => (Err e, p)
    end).

(** *** The transaction class, [js_tx!] *)

(** The guard of every method of a handle. *)
Definition with_tx {A} (h : nat) (m : Op (S * T) A) : Op page A := λ p,
  match pg_txs p !! h with
  | Some (Some t) =>
      let '(r, (s, t)) := m (pg_store p, t) in (r, MkPage s (<[h := Some t]> (pg_txs p)))
  | _ => (Err (Other CLOSED), p)
  end.

(** [take_tx], and what is done with the transaction taken. *)
Definition take_tx {A} (h : nat) (m : Op (S * T) A) : Op page A := λ p,
  match pg_txs p !! h with
  | Some (Some t) =>
      let '(r, w) := m (pg_store p, t) in (r, MkPage (tx_store w) (<[h := None]> (pg_txs p)))
  | _ => (Err (Other CLOSED), p)
  end.

Definition js_tx_get_bytes (h : nat) (k : string) : JsOp (JsValue D) :=
  js_return (let! r := with_tx h (get_bytes k) in op_ret (bytes_or_null r)).

Definition js_tx_has (h : nat) (k : string) : JsOp (JsValue D) :=
  js_return (let! r := with_tx h (has k) in op_ret (JsBoolean r)).

Definition js_tx_set_bytes (h : nat) (k : string) (v : bytes) : JsOp (JsValue D) :=
  js_return (let! r := with_tx h (set_bytes k v) in op_ret (bytes_or_null r)).

Definition js_tx_delete (h : nat) (k : string) : JsOp (JsValue D) :=
  js_return (let! r := with_tx h (delete k) in op_ret (JsBoolean r)).

Definition js_tx_set (h : nat) (k : string) (v : JsValue D) : JsOp (JsValue D) :=
  js_return (
    let! json := op_lift (from_js v) in
    let! prev := with_tx h (set k json) in
    op_lift (json_or_null prev)).

Definition js_tx_get (h : nat) (k : string) : JsOp (JsValue D) :=
  js_return (let! v := with_tx h (get k) in op_lift (json_or_null v)).

Definition js_tx_gets_bytes (h : nat) (limit : option N) (dir : Direction) (c : cursor) :
    JsOp (list (JsObject D)) :=
  js_return (let! l := with_tx h (gets_bytes limit (js_direction dir) c) in op_ret (kv_object <$> l)).

Definition js_commit (h : nat) : JsOp (JsValue D) :=
  js_return (take_tx h commit ;; op_ret JsUndefined).

Definition js_rollback (h : nat) : JsOp (JsValue D) :=
  js_return (take_tx h rollback ;; op_ret JsUndefined).

(** *** Queries and snapshots *)

Section gets.
Context `{Lucene} `{RegexLib} `{Unicode} `{EditDistance}.

Definition js_gets (fuel : nat) (limit : option N) (dir : Direction) (c : cursor)
    (query : option string) : JsOp (list (JsObject D)) :=
  js_return (
    let! l := locked (gets fuel limit (js_direction dir) c query) in
    op_lift (collect (doc_object <$> l))).
End gets.

(** [None] when the fuel of the save runs out. *)
Definition js_save (fuel : nat) (p : page) : option ((JsValue D + JsValue D) * page) :=
  (λ '(r, s), (js_result (res_map JsUint8Array r), MkPage s (pg_txs p))) <$> save fuel (pg_store p).

Definition js_load (data : bytes) : JsOp (JsValue D) :=
  js_return (let! n := locked (load data) in op_lift (count_u32 n)).

Definition js_load_stream (items : list (JsValue D + JsValue D)) : JsOp (JsValue D) :=
  js_return (let! n := locked (load_stream (stream_chunk <$> items)) in op_lift (count_u32 n)).
End page.
