(* ===== verification/WasmStream.v ===== *)
(** Snapshots through a page: [save] and [load] as byte arrays, and the streams
    of [save_stream] and [load_stream].

    A save stream is a task on the page's store and a bounded channel to the
    consumer.  The task polls the next chunk when the channel has room for it,
    and ends when the source is exhausted or the consumer has gone; the
    consumer takes chunks in order.  Who moves next is the scheduler's choice,
    so a run is any sequence of the two's steps, with other calls on the store
    between them. *)

From stdpp Require Import options.
From S2P Require Import Prelude OrdMap Core Codec Hooks BTree BTreeSpec Snapshot SnapshotSpec Storage.
From S2P Require Import Json Float Query QuerySpec QueryDate QueryEval QueryEvalSpec Gets Wasm.

(** [mpsc::channel(16)]: a sender that has filled the buffer waits; the one that
    fills it has a slot of its own. *)
Definition CHANNEL_BUFFER : nat := 16.

Record JsStream := MkStream {
  st_task : option SaveStream;
  st_queue : list (Result bytes);
  st_cancelled : bool;
}.

Definition stream_new : JsStream := MkStream (Some save_stream_new) [] false.

(** What [read] of the [ReadableStream] gives at a moment: a [Uint8Array], the
    end, an error, or nothing yet. *)
Inductive JsRead (D : Type) :=
| Chunk (b : bytes)
| Done
| Failed (e : JsValue D)
| Pending.
Arguments Chunk {D} _.
Arguments Done {D}.
Arguments Failed {D} _.
Arguments Pending {D}.

Section stream.
Context {D S : Type} `{GetSet S}.

(** A round of the task: [chunks.next()] and [sender.send(chunk)]; [None] when
    the fuel of the poll runs out. *)
Definition stream_fill (fuel : nat) (w : S * JsStream) : option (S * JsStream) :=
  let '(s, x) := w in
  match st_task x with
  | Some src =>
      if bool_decide (length (st_queue x) ≤ CHANNEL_BUFFER) then
        match poll_next fuel (s, src) with
        | (None, _) => None
        | (Some None, (s, _)) => Some (s, MkStream None (st_queue x) (st_cancelled x))
        | (Some (Some chunk), (s, src)) =>
            if st_cancelled x then Some (s, MkStream None (st_queue x) true)
            else Some (s, MkStream (Some src) (st_queue x ++ [chunk]) false)
        end
      else Some w
  | None => Some w
  end.

(** [chunks.map_ok(..).map_err(..)], pulled by the consumer: after an error the
    stream is errored and the receiver dropped. *)
Definition stream_pull (x : JsStream) : JsRead D * JsStream :=
  match st_queue x with
  | Ok b :: q => (Chunk b, MkStream (st_task x) q (st_cancelled x))
  | Err e :: _ => (Failed (from_store_error e), MkStream (st_task x) [] true)
  | [] => (match st_task x with Some _ => Pending | None => Done end, x)
  end.

(** [cancel] drops the receiver. *)
Definition stream_cancel (x : JsStream) : JsStream := MkStream (st_task x) [] true.

(** A scheduler's choices: the task, the consumer, or a read of the store by
    another method. *)
Inductive StreamStep := Fill | Pull | Lookup (k : string).

Fixpoint stream_run (fuel : nat) (steps : list StreamStep) (w : S * JsStream) :
    option (list (JsRead D) * (S * JsStream)) :=
  match steps with
  | [] => Some ([], w)
  | Fill :: steps => w ← stream_fill fuel w; stream_run fuel steps w
  | Pull :: steps =>
      let '(r, x) := stream_pull w.2 in
      '(rs, w) ← stream_run fuel steps (w.1, x); Some (r :: rs, w)
  | Lookup k :: steps => stream_run fuel steps ((get_bytes k w.1).2, w.2)
  end.
End stream.

(** The bytes that a consumer has by then. *)
Definition read_bytes {D} (r : JsRead D) : bytes :=
  match r with Chunk b => b | _ => [] end.
Definition received {D} (rs : list (JsRead D)) : bytes := mjoin (read_bytes <$> rs).

Section spec.
Context {D S : Type} `{GetSetReads S} (m : gmap string bytes) (Hok : Forall record_ok (bt_iter m)).
Abbreviation entries := (bt_iter m).

(** The bytes of the first [i] records. *)
Definition whole (b : bytes) : Prop := b = [] ∨ ∃ i, b = snapshot (take i entries).

(** Between two steps: [out] has been received. *)
Record streaming (out : bytes) (w : S * JsStream) : Prop := {
  sg_open : st_cancelled w.2 = false;
  sg_chunks : ∃ cs : list bytes, st_queue w.2 = Ok <$> cs ∧
    match st_task w.2 with
    | Some src => ∃ i, saving m i (out ++ mjoin cs) (w.1, src)
    | None => out ++ mjoin cs = snapshot entries
    end ∧ whole out ∧ (∀ n, whole (out ++ mjoin (take n cs))) ∧ Forall (λ c, c ≠ []) cs;
  sg_holds : gs_holds m w.1;
  sg_room : length (st_queue w.2) ≤ CHANNEL_BUFFER + 1;
}.

Lemma streaming_new s : gs_holds m s → streaming [] (s, stream_new).
Proof using Type.
  intros Hs. split; [done| |done|cbn; lia]. exists []. split; [done|]. split; [|split; [by left|]].
  - exists 0. unfold saving. split_and!; [done|lia|done|]. by split; [|left].
  - split; [|constructor]. intros n. rewrite take_nil. by left.
Qed.

(** The bytes a poll bound allows. *)
Lemma fill_step fuel out w :
  2 * length entries + 2 < fuel → streaming out w →
  ∃ w', stream_fill fuel w = Some w' ∧ streaming out w'.
Proof using Hok.
  intros Hf Hw. pose proof Hw as [Hc (cs & Hq & Htask & Hout & Hall & Hne) Hs Hroom]. destruct w as [s x].
  unfold stream_fill. cbn [fst snd] in *. destruct (st_task x) as [src|] eqn:Ht; [|by eexists].
  case_bool_decide as Hfull; [|by eexists]. destruct Htask as (i & Hsv).
  destruct (poll_next_spec m fuel i (out ++ mjoin cs) (s, src) Hok Hsv) as (item & [s' src'] & -> & Hr).
  { unfold rounds. destruct (ss_pending _); lia. }
  destruct item as [[chunk|e]|]; cbn [round_ok] in Hr; [|done|].
  - destruct Hr as ([j Hj] & Hnew & Hbuf). rewrite Hc. eexists. split; [done|]. pose proof Hj as (Hh & _ & Hbytes & _).
    cbn [fst snd] in *. split; cbn [fst snd st_cancelled st_queue st_task]; [done| |done|].
    + exists (cs ++ [chunk]). rewrite fmap_app, Hq. split; [done|]. rewrite join_app. cbn. rewrite app_nil_r.
      split; [exists j; by rewrite app_assoc|]. split; [done|]. split; [|by apply Forall_app; repeat constructor].
      intros n.
      destruct (decide (n ≤ length cs)) as [Hn|Hn]; [rewrite take_app_le by done; apply Hall|].
      rewrite take_ge by (rewrite length_app; cbn; lia). rewrite join_app. cbn. rewrite app_nil_r, app_assoc.
      right. exists j. by rewrite Hbuf, app_nil_r in Hbytes.
    + rewrite length_app. cbn. unfold CHANNEL_BUFFER in *. lia.
  - destruct Hr as [Hsnap Hh]. eexists. split; [done|]. split; [done| |done|done]. exists cs. by rewrite Hq.
Qed.

(** What the consumer takes. *)
Lemma pull_step out w :
  streaming out w →
  let '(r, x) := stream_pull (D := D) w.2 in
  streaming (out ++ read_bytes r) (w.1, x) ∧ whole (out ++ read_bytes r) ∧
  match r with
  | Chunk _ | Pending => True
  | Done => out = snapshot entries
  | Failed _ => False
  end.
Proof using Type.
  intros Hw. pose proof Hw as [Hc (cs & Hq & Htask & Hout & Hall & Hne) Hs Hroom]. destruct w as [s x].
  unfold stream_pull. cbn [fst snd] in *. rewrite Hq in *. destruct cs as [|c cs]; cbn [fmap list_fmap].
  - cbn in Htask. rewrite app_nil_r in Htask.
    destruct (st_task x); cbn [read_bytes]; rewrite app_nil_r; by split_and!.
  - pose proof (Hall 1) as H1. cbn in H1. rewrite app_nil_r in H1. split_and!; [|done..].
    split; cbn [fst snd st_cancelled st_queue st_task]; [done| |done|cbn in *; lia].
    exists cs. split; [done|]. rewrite <-!app_assoc. split; [exact Htask|]. split; [done|].
    split; [|by apply Forall_cons in Hne as [_ ?]]. intros n. specialize (Hall (Datatypes.S n)). by rewrite <-app_assoc.
Qed.

Lemma run_steps fuel steps out w :
  2 * length entries + 2 < fuel → streaming out w →
  ∃ rs w', stream_run (D := D) fuel steps w = Some (rs, w') ∧ streaming (out ++ received rs) w' ∧
    (∀ n, whole (out ++ received (take n rs))) ∧
    ∀ n r, rs !! n = Some r →
      match r with
      | Done => out ++ received (take n rs) = snapshot entries
      | Failed _ => False
      | _ => True
      end.
Proof using Hok.
  intros Hf. revert out w. induction steps as [|[| |k] steps IH]; intros out w Hw; cbn [stream_run].
  - exists [], w. rewrite app_nil_r. split_and!; [done..| |by intros n r]. intros n. rewrite take_nil, app_nil_r.
    by destruct Hw as [_ (? & _ & _ & ? & _) _ _].
  - destruct (fill_step _ _ _ Hf Hw) as (w1 & -> & Hw1). by apply IH.
  - pose proof (pull_step _ _ Hw) as Hp. destruct (stream_pull w.2) as [r x]. destruct Hp as (Hw1 & Hwh & Hr).
    destruct (IH _ _ Hw1) as (rs & w' & -> & Hw' & Hpre & Hrs). exists (r :: rs), w'. split; [done|].
    assert (∀ l, out ++ received (r :: l) = (out ++ read_bytes r) ++ received l) as Hcons.
    { intros l. by rewrite <-app_assoc. }
    rewrite Hcons. split_and!; [done| |].
    + intros [|n]; [|cbn [take]; rewrite Hcons; apply Hpre]. rewrite take_0, app_nil_r.
      by destruct Hw as [_ (? & _ & _ & ? & _) _ _].
    + intros [|n] r' Hn; cbn in Hn.
      * injection Hn as <-. cbn. rewrite app_nil_r. destruct r; done.
      * cbn [take]. rewrite Hcons. by apply Hrs.
  - destruct Hw as [Hc Hx Hs Hroom]. destruct (gs_get m k w.1 Hs) as (s' & Hg & Hs'). rewrite Hg. apply IH.
    split; [done| |done|done]. destruct Hx as (cs & Hq & Ht & Hrest). exists cs. split; [done|]. split; [|done].
    destruct w as [s x]. cbn [fst snd] in *. destruct (st_task x); [|done].
    destruct Ht as (i & _ & Hi & Hb & Hst). by exists i.
Qed.

(** *** Progress *)

Lemma whole_length b : whole b → length b ≤ length (snapshot entries).
Proof using Type.
  intros [->|[i ->]]; [cbn; lia|]. rewrite <-(take_drop i entries) at 2. rewrite snapshot_app, length_app. lia.
Qed.

(** A round of the task and a pull: a chunk, or the end. *)
Lemma pair_step fuel out w :
  2 * length entries + 2 < fuel → streaming out w →
  ∃ w1, stream_fill fuel w = Some w1 ∧ let '(r, x) := stream_pull (D := D) w1.2 in
    streaming (out ++ read_bytes r) (w1.1, x) ∧ (r = Done ∨ 0 < length (read_bytes r)).
Proof using Hok.
  intros Hf Hw. destruct (fill_step _ _ _ Hf Hw) as (w1 & Hfill & Hw1). exists w1. split; [done|].
  pose proof (pull_step _ _ Hw1) as Hp. destruct (stream_pull w1.2) as [r x] eqn:Hpull.
  destruct Hp as (Hw2 & _ & _). split; [done|].
  destruct Hw1 as [_ (cs & Hq & _ & _ & _ & Hne) _ _]. destruct w1 as [s1 x1]. unfold stream_pull in Hpull.
  cbn [snd] in *. rewrite Hq in Hpull. destruct cs as [|c cs]; cbn in Hpull.
  - left. destruct (st_task x1) eqn:Ht; [|by injection Hpull as <- <-]. exfalso.
    destruct w as [s0 x0]. unfold stream_fill in Hfill. cbn in Hq.
    destruct (st_task x0) eqn:Ht0; [|injection Hfill as <- <-; congruence].
    case_bool_decide as Hroom.
    + destruct (poll_next fuel _) as [[[chunk|]|] []]; [destruct (st_cancelled x0)|..]; simplify_eq; cbn in *;
        try done. by destruct (st_queue x0).
    + injection Hfill as <- <-. rewrite Hq in Hroom. cbn in Hroom. lia.
  - right. injection Hpull as <- <-. apply Forall_cons in Hne as [Hc _]. cbn. destruct c; [done|]. cbn. lia.
Qed.

Definition turns (n : nat) : list StreamStep := mjoin (replicate n [Fill; Pull]).

Lemma turns_end fuel n out w :
  2 * length entries + 2 < fuel → streaming out w → length (snapshot entries) - length out < n →
  ∃ rs w', stream_run (D := D) fuel (turns n) w = Some (rs, w') ∧ Done ∈ rs.
Proof using Hok.
  intros Hf. revert out w. induction n as [|n IH]; intros out w Hw Hn; [lia|].
  change (turns (Datatypes.S n)) with (Fill :: Pull :: turns n). cbn [stream_run].
  destruct (pair_step _ _ _ Hf Hw) as (w1 & -> & Hp). cbn [mbind option_bind].
  destruct (stream_pull w1.2) as [r x]. destruct Hp as [Hw1 [->|Hr]].
  - destruct (run_steps fuel (turns n) _ _ Hf Hw1) as (rs & w' & -> & _). exists (Done :: rs), w'.
    split; [done|]. by left.
  - destruct (IH _ _ Hw1) as (rs & w' & -> & Hin).
    { rewrite length_app. assert (length (out ++ read_bytes r) ≤ length (snapshot entries)) as Hle.
      { destruct Hw1 as [_ (? & _ & _ & Hwh & _) _ _]. by apply whole_length. }
      rewrite length_app in Hle. lia. }
    exists (r :: rs), w'. split; [done|]. by right.
Qed.

Lemma stream_run_app fuel a b (w : S * JsStream) :
  stream_run (D := D) fuel (a ++ b) w =
    '(rs, w) ← stream_run fuel a w; '(rs', w) ← stream_run fuel b w; Some (rs ++ rs', w).
Proof using Type.
  revert w. induction a as [|[| |k] a IH]; intros w; cbn [stream_run app].
  - cbn. by destruct (stream_run fuel b w) as [[]|].
  - destruct (stream_fill fuel w); cbn; [apply IH|done].
  - destruct (stream_pull w.2) as [r x]. rewrite IH. destruct (stream_run fuel a _) as [[rs w1]|]; cbn; [|done].
    by destruct (stream_run fuel b w1) as [[]|].
  - apply IH.
Qed.

(** C20: A save stream delivers the snapshot, however task and consumer are scheduled
    and whatever is read from the store meanwhile: it never fails, the chunks
    received at any moment are the header with some whole records, the channel
    never holds more than one chunk over its buffer, the stream ends only when
    the whole snapshot has been received, and it does end once task and
    consumer have taken as many turns as the snapshot has bytes. *)
Theorem save_stream_delivers (fuel : nat) (steps : list StreamStep) (s : S) :
  gs_holds m s → 2 * length entries + 2 < fuel →
  ∃ rs w, stream_run (D := D) fuel steps (s, stream_new) = Some (rs, w) ∧ gs_holds m w.1 ∧
    length (st_queue w.2) ≤ 17 ∧
    (∀ n, received (take n rs) = [] ∨ ∃ i, received (take n rs) = snapshot (take i entries)) ∧
    (∀ e, Failed e ∉ rs) ∧
    (∀ n, rs !! n = Some Done → received (take n rs) = snapshot entries) ∧
    ∀ n, length (snapshot entries) < n →
      ∃ rs' w', stream_run (D := D) fuel (steps ++ turns n) (s, stream_new) = Some (rs ++ rs', w') ∧ Done ∈ rs'.
Proof using Hok.
  intros Hs Hf. destruct (run_steps fuel steps [] _ Hf (streaming_new s Hs)) as (rs & w & Hrun & Hw & Hpre & Hrs).
  exists rs, w. pose proof Hw as [_ _ Hh Hroom]. split_and!; try done.
  - intros e (n & Hn)%list_elem_of_lookup. exact (Hrs n _ Hn).
  - intros n Hn. exact (Hrs n _ Hn).
  - intros n Hn. destruct (turns_end fuel n _ _ Hf Hw) as (rs' & w' & Ht & Hin); [lia|].
    exists rs', w'. split; [|done]. rewrite stream_run_app, Hrun. cbn [mbind option_bind]. by rewrite Ht.
Qed.
End spec.

(** ** From one page to another *)

(** The items that a stream hands to the reader it is piped into. *)
Definition chunk_items {D} (rs : list (JsRead D)) : list (JsValue D + JsValue D) :=
  omap (λ r, match r with
             | Chunk b => Some (inr (JsUint8Array b))
             | Failed e => Some (inl e)
             | Done | Pending => None
             end) rs.

Definition chunk_bytes {D} (rs : list (JsRead D)) : list bytes :=
  omap (λ r, match r with Chunk b => Some b | _ => None end) rs.

Lemma chunk_bytes_join {D} (rs : list (JsRead D)) : mjoin (chunk_bytes rs) = received rs.
Proof. induction rs as [|[b| |e|] rs IH]; cbn; [done|f_equal; exact IH|exact IH..]. Qed.

Section pages.
Context `{JsonNumbers} {D : Type} `{!SerdeWasm D} `{!Json Value}.
Context {S2 T2 : Type} `{StoreWrites S2 (S2 * T2)}.

Lemma stream_chunk_items (rs : list (JsRead D)) :
  (∀ e, Failed e ∉ rs) → stream_chunk <$> chunk_items rs = Ok <$> chunk_bytes rs.
Proof using Type.
  induction rs as [|[b| |e|] rs IH]; intros Hno; cbn; [done|f_equal; apply IH|apply IH| |apply IH];
    try (intros e' Hin; apply (Hno e'); by right).
  destruct (Hno e). by left.
Qed.

Lemma js_load_whole (recs : list (string * bytes)) (items : list (JsValue D + JsValue D)) cs m2 (q : Page S2 T2) :
  sw_ready m2 (pg_store q) → Forall (loadable (S := S2) (Tx := S2 * T2)) recs →
  stream_chunk <$> items = Ok <$> cs → mjoin cs = snapshot recs → (blen recs < U32_END)%N →
  ∃ q', js_load_stream items q = (inr (JsNumber (blen recs)), q') ∧
    gs_holds (insert_all recs m2) (pg_store q') ∧ pg_txs q' = pg_txs q.
Proof using Type.
  intros Hq Hl Hitems Hcs Hn. unfold js_load_stream. rewrite Hitems.
  destruct (load_whole recs cs m2 (pg_store q) Hq Hl Hcs) as (s' & Hload & Hh).
  exists (MkPage s' (pg_txs q)). split; [|done]. unfold js_return, op_bind, locked, op_zoom. rewrite Hload.
  unfold op_lift, count_u32. by rewrite (proj2 (N.ltb_lt _ _) Hn).
Qed.

(** C21: A store's save stream piped into another store's [load_stream] copies it:
    whatever schedule brought the stream to its end, the target holds the
    source's entries over its own afterwards, reports their number, and its open
    transaction handles are still open. *)
Theorem piped_stream_restores {S : Type} `{GetSetReads S} (fuel : nat) (steps : list StreamStep)
    (m m2 : gmap string bytes) (s : S) (q : Page S2 T2) rs w n :
  gs_holds m s → 2 * length (bt_iter m) + 2 < fuel →
  Forall (loadable (S := S2) (Tx := S2 * T2)) (bt_iter m) → (N.of_nat (size m) < U32_END)%N →
  sw_ready m2 (pg_store q) →
  stream_run (D := D) fuel steps (s, stream_new) = Some (rs, w) → rs !! n = Some Done →
  ∃ q', js_load_stream (chunk_items (take n rs)) q = (inr (JsNumber (N.of_nat (size m))), q') ∧
    gs_holds (m ∪ m2) (pg_store q') ∧ pg_txs q' = pg_txs q.
Proof using Type.
  intros Hs Hf Hl Hsize Hq Hrun Hn.
  assert (blen (bt_iter m) = N.of_nat (size m)) as Hlen.
  { unfold blen. by rewrite (Permutation_length (bt_iter_perm _)), length_map_to_list. }
  destruct (run_steps (D := D) m (loadable_ok _ Hl) fuel steps [] _ Hf (streaming_new m s Hs)) as (rs' & w' & Hrun' & _ & _ & Hrs).
  rewrite Hrun in Hrun'. injection Hrun' as <- <-.
  destruct (js_load_whole (bt_iter m) (chunk_items (take n rs)) (chunk_bytes (take n rs)) m2 q)
    as (q' & Hload & Hh & Htx); try done.
  - apply stream_chunk_items. intros e (j & Hj)%list_elem_of_lookup.
    apply lookup_take_Some in Hj as [Hj _]. exact (Hrs j _ Hj).
  - rewrite chunk_bytes_join. exact (Hrs n _ Hn).
  - by rewrite Hlen.
  - exists q'. by rewrite insert_all_iter, Hlen in *.
Qed.

(** A load that rejects has loaded nothing, short of four billion records. *)
Lemma js_load_rejects `{!StoreIsolated S2 (S2 * T2)} (items : list (JsValue D + JsValue D)) base e
    (q q' : Page S2 T2) :
  sw_ready base (pg_store q) → js_load_stream items q = (inl e, q') →
  q' = q ∨ ∃ n s', load_stream (stream_chunk <$> items) (pg_store q) = (Ok n, s') ∧ (U32_END ≤ n)%N.
Proof using Type.
  intros Hq. unfold js_load_stream, js_return, op_bind, locked, op_zoom.
  destruct (load_stream (stream_chunk <$> items) (pg_store q)) as [[n|err] s'] eqn:Hload; cbn.
  - unfold count_u32. destruct (N.ltb_spec n U32_END); cbn; [done|]. intros _. right. by exists n, s'.
  - intros [= <- <-]. left. rewrite (keeps_failure base _ _ _ _ Hq Hload). by destruct q.
Qed.
End pages.

(** ** A stream *)

Section witness.
#[local] Existing Instance bounded_channel.
#[local] Existing Instance Z_numbers.

(** A page without documents. *)
#[local] Instance bytes_only : SerdeWasm unit := {|
  from_value _ := inl "unsupported";
  to_value _ := inl "unsupported";
  js_debug _ := "JsValue";
|}.

(** The consumer pulls before the task has run, then after each of its rounds. *)
Definition a_schedule : list StreamStep := [Pull; Fill; Lookup "a"; Pull; Pull; Fill; Pull].

Lemma save_stream_delivers_witness :
  ∃ rs w, stream_run (D := unit) 100 a_schedule (sample_store, stream_new) = Some (rs, w) ∧
    rs = [Pending; Chunk (snapshot (bt_iter (map sample_store))); Pending; Done] ∧
    ∀ n, length (snapshot (bt_iter (map sample_store))) < n →
      ∃ rs' w', stream_run (D := unit) 100 (a_schedule ++ turns n) (sample_store, stream_new) = Some (rs ++ rs', w') ∧
        Done ∈ rs'.
Proof.
  destruct (save_stream_delivers (D := unit) (S := @BTreeStore bounded_channel) (map sample_store)
    ltac:(apply (bool_decide_unpack _); vm_compute; exact I) 100 a_schedule sample_store)
    as (rs & w & Hrun & _ & _ & _ & _ & _ & Hend); [done|apply (bool_decide_unpack _); vm_compute; exact I|].
  exists rs, w. split; [exact Hrun|]. split; [|exact Hend].
  assert (fst <$> stream_run (D := unit) 100 a_schedule (sample_store, stream_new) =
    Some [Pending; Chunk (snapshot (bt_iter (map sample_store))); Pending; Done]) as Hc by (vm_compute; reflexivity).
  rewrite Hrun in Hc. by injection Hc.
Defined.

(** What it received, piped into a store that has a transaction open. *)
Lemma piped_stream_restores_witness :
  match stream_run (D := unit) 100 a_schedule (sample_store, stream_new) with
  | Some (rs, _) =>
      ∃ q', js_load_stream (chunk_items (take 3 rs)) (MkPage empty_store [Some (btree_begin_tx empty_store).2]) =
          (inr (JsNumber 2), q') ∧
        map (pg_store q') = map sample_store ∪ map empty_store ∧ length (pg_txs q') = 1
  | None => False
  end.
Proof.
  destruct (stream_run (D := unit) 100 a_schedule (sample_store, stream_new)) as [[rs w]|] eqn:Hrun;
    [|by vm_compute in Hrun].
  assert (fst <$> stream_run (D := unit) 100 a_schedule (sample_store, stream_new) =
    Some [Pending; Chunk (snapshot (bt_iter (map sample_store))); Pending; Done]) as Hc by (vm_compute; reflexivity).
  rewrite Hrun in Hc. injection Hc as Hrs.
  destruct (piped_stream_restores (S := @BTreeStore bounded_channel) 100 a_schedule (map sample_store) (map empty_store)
    sample_store (MkPage empty_store [Some (btree_begin_tx empty_store).2]) rs w 3) as (q' & Hq & Hm & Ht).
  - reflexivity.
  - apply (bool_decide_unpack _). vm_compute. exact I.
  - assert (Forall record_ok (bt_iter (map sample_store))) as Hok
      by (apply (bool_decide_unpack _); vm_compute; exact I).
    eapply Forall_impl; [exact Hok|]. intros kv Hkv. by split.
  - reflexivity.
  - by split.
  - exact Hrun.
  - rewrite Hrs. reflexivity.
  - exists q'. split; [exact Hq|]. split; [exact Hm|]. by rewrite Ht.
Defined.
End witness.
