(* ===== verification/WasmStores.v ===== *)
(** The three store classes of [src/src/wasm]: [JsBTreeStore] over the in-memory
    store, [JsOxKvStore] over the writer and [JsCachedOxKvStore] over its RAM
    mirror, with their constructors.  The methods are those of [Wasm] at the
    store; the mirror adds the ones that look after it. *)

From stdpp Require Import options.
From S2P Require Import Prelude OrdMap Core Codec Hooks BTree Snapshot Storage.
From S2P Require Import Json Float Query QueryDate QueryEval Gets.
From S2P Require Import Ownership Manifest Blob Probe Wal Merge Sst Cache Read LsmStore LsmTx Cached Opfs OpfsSpec Wasm WasmStream.

(** ** [JsBTreeStore] *)

Section btree.
Context `{Ch : Channel}.

Definition JsBTreeStore : Type := Page BTreeStore BTreeTx.

(** [JsBTreeStore::new]. *)
Definition js_btree_new : JsBTreeStore := MkPage btree_default [].
End btree.

(** ** [JsOxKvStore] *)

Definition JsOxKvStore `{Channel} (W C : Type) : Type := Page (OxKvStore W C) OxKvTx.
Definition JsCachedOxKvStore `{Channel} (W C : Type) : Type := Page (CachedOxKvStore W C) CachedTx.

(** The defaults of the constructors. *)
Definition JS_PREFIX : ObjectPath := "js-lsm".
Definition JS_STALE_TTL : N := 1000.

Section create.
Context `{JsonNumbers} {D : Type} `{!SerdeWasm D}.
Context {C : Type} `{Json Manifest} `{Json SstFooter} `{Json OwnershipRecord} `{Digests}
  `{Json BlobPointer} `{Cache C string SstFile} `{Ch : Channel}.

(** What a constructor resolves to: the epoch the store took and its page. *)
Definition js_opened {S T W : Type} (r : Result (N * S)) (w : W) : (JsValue D + N * Page S T) * W :=
  (js_result (res_map (λ es : N * S, (es.1, MkPage es.2 [])) r), w).

(** The store in memory, the probe skipped; [session] is the name the builder
    generates. *)
Definition ox_js_create `{Clock MemInner} (prefix : option string) (session : string) (cache : C) :
    (JsValue D + N * JsOxKvStore MemInner C) * MemInner :=
  let '(r, w) := build_with_cache (default JS_PREFIX prefix) session true false cache mem_new in
  js_opened r w.

(** The store on the origin's private files, probed. *)
Definition ox_js_create_persistent {W : Type} `{OpfsLaws W} `{Clock (Origin W)} (prefix : option string)
    (session : string) (cache : C) (o : Origin W) :
    (JsValue D + N * JsOxKvStore (Origin W) C) * Origin W :=
  match opfs_open o with
  | (Err e, o) => (inl (from_store_error e), o)
  | (Ok self, o) =>
      let _ := opfs_backend self in
      let '(r, o) := build_with_cache (default JS_PREFIX prefix) session false false cache o in
      js_opened r o
  end.

(** [parse_warm_mode]. *)
Definition parse_warm_mode (name : option string) : Result WarmMode :=
  match name with
  | None => Ok Eager
  | Some name =>
      if decide (name = "eager" ∨ name = "Eager" ∨ name = "EAGER") then Ok Eager
      else if decide (name = "background") then Ok Background
      else if decide (name = "lazy") then Ok Lazy
      else Err (Other ("unknown warm mode `" +:+ name +:+ "`: expected eager, background, or lazy"))
  end.

(** The mirror over a store that was just built. *)
Definition open_cached {W : Type} `{StorageBackend W} `{Clock W} (prefix : ObjectPath) (epoch : N)
    (mode : WarmMode) (ttl : N) (s : OxKvStore W C) : Result (CachedOxKvStore W C) * W :=
  let '(r, s) := open_with_mode prefix epoch mode s in (res_map (with_stale_ttl ttl) r, (ox_io s).1.1).

Definition ca_js_create `{Clock MemInner} (prefix : option string) (stale_ttl_ms : option N)
    (warm_mode : option string) (session : string) (cache : C) :
    (JsValue D + N * JsCachedOxKvStore MemInner C) * MemInner :=
  let prefix := default JS_PREFIX prefix in
  match parse_warm_mode warm_mode with
  | Err e => (inl (from_store_error e), mem_new)
  | Ok mode =>
      match build_with_cache prefix session true false cache mem_new with
      | (Err e, w) => (inl (from_store_error e), w)
      | (Ok (epoch, s), _) =>
          let '(r, w) := open_cached prefix epoch mode (default JS_STALE_TTL stale_ttl_ms) s in
          js_opened (res_map (pair epoch) r) w
      end
  end.

Definition ca_js_create_persistent {W : Type} `{OpfsLaws W} `{Clock (Origin W)} (prefix : option string)
    (stale_ttl_ms : option N) (warm_mode : option string) (session : string) (cache : C) (o : Origin W) :
    (JsValue D + N * JsCachedOxKvStore (Origin W) C) * Origin W :=
  let prefix := default JS_PREFIX prefix in
  match opfs_open o with
  | (Err e, o) => (inl (from_store_error e), o)
  | (Ok self, o) =>
      match parse_warm_mode warm_mode with
      | Err e => (inl (from_store_error e), o)
      | Ok mode =>
          let _ := opfs_backend self in
          match build_with_cache prefix session false false cache o with
          | (Err e, o) => (inl (from_store_error e), o)
          | (Ok (epoch, s), _) =>
              let '(r, o) := open_cached prefix epoch mode (default JS_STALE_TTL stale_ttl_ms) s in
              js_opened (res_map (pair epoch) r) o
          end
      end
  end.
End create.

Section oxkv.
Context `{JsonNumbers} {D : Type} `{!SerdeWasm D} `{!Json Value}.
Context `{Lucene} `{RegexLib} `{Unicode} `{EditDistance}.
Context {W C : Type} `{StorageBackend W} `{Clock W} `{Json Manifest} `{Json SstFooter}
  `{Json OwnershipRecord} `{Digests} `{Json BlobPointer} `{Cache C string SstFile} `{Ch : Channel}.
Context (prefix : ObjectPath) (epoch : N) (session : string).
Abbreviation page := (Page (OxKvStore W C) OxKvTx).
Abbreviation JsOp A := (Page (OxKvStore W C) OxKvTx → (JsValue D + A) * Page (OxKvStore W C) OxKvTx).
#[local] Instance ox_store_ops : GetSet (OxKvStore W C) := ox_GetSet prefix epoch session.
#[local] Instance ox_tx_ops : GetSet (OxKvStore W C * OxKvTx) := OxKvTx_GetSet prefix epoch.
#[local] Instance ox_store : Store (OxKvStore W C) (OxKvStore W C * OxKvTx) := OxKvStore_Store prefix epoch session.

Definition ox_js_get_bytes (k : string) : JsOp (JsValue D) := js_get_bytes k.
Definition ox_js_has (k : string) : JsOp (JsValue D) := js_has k.
Definition ox_js_set_bytes (k : string) (v : bytes) : JsOp (JsValue D) := js_set_bytes k v.
Definition ox_js_set (k : string) (v : JsValue D) : JsOp (JsValue D) := js_set k v.
Definition ox_js_get (k : string) : JsOp (JsValue D) := js_get k.
Definition ox_js_delete (k : string) : JsOp (JsValue D) := js_delete k.
Definition ox_js_gets_bytes (limit : option N) (dir : Direction) (c : cursor) : JsOp (list (JsObject D)) := js_gets_bytes limit dir c.
Definition ox_js_gets (fuel : nat) (limit : option N) (dir : Direction) (c : cursor)
    (query : option string) : JsOp (list (JsObject D)) := js_gets fuel limit dir c query.
Definition ox_js_begin_tx : JsOp (JsValue D) := js_begin_tx.
Definition ox_js_save (fuel : nat) (p : page) : option ((JsValue D + JsValue D) * page) := js_save fuel p.
Definition ox_js_load (data : bytes) : JsOp (JsValue D) := js_load data.
Definition ox_js_load_stream (items : list (JsValue D + JsValue D)) : JsOp (JsValue D) := js_load_stream items.
(** A round of the task of [save_stream]. *)
Definition ox_js_save_stream (fuel : nat) (w : OxKvStore W C * JsStream) : option (OxKvStore W C * JsStream) := stream_fill fuel w.
End oxkv.

(** ** [JsCachedOxKvStore] *)

Section cached.
Context `{JsonNumbers} {D : Type} `{!SerdeWasm D} `{!Json Value}.
Context `{Lucene} `{RegexLib} `{Unicode} `{EditDistance}.
Context {W C : Type} `{StorageBackend W} `{Clock W} `{Json Manifest} `{Json SstFooter}
  `{Json OwnershipRecord} `{Digests} `{Json BlobPointer} `{Cache C string SstFile} `{Ch : Channel}.
Context (prefix : ObjectPath) (epoch : N) (session : string).
Abbreviation page := (Page (CachedOxKvStore W C) CachedTx).
Abbreviation JsOp A := (Page (CachedOxKvStore W C) CachedTx → (JsValue D + A) * Page (CachedOxKvStore W C) CachedTx).
#[local] Instance ca_store_ops : GetSet (CachedOxKvStore W C) := CachedOxKvStore_GetSet prefix epoch session.
#[local] Instance ca_tx_ops : GetSet (CachedOxKvStore W C * CachedTx) := CachedTx_GetSet prefix epoch.
#[local] Instance ca_store : Store (CachedOxKvStore W C) (CachedOxKvStore W C * CachedTx) := CachedOxKvStore_Store prefix epoch session.

Definition ca_js_get_bytes (k : string) : JsOp (JsValue D) := js_get_bytes k.
Definition ca_js_has (k : string) : JsOp (JsValue D) := js_has k.
Definition ca_js_set_bytes (k : string) (v : bytes) : JsOp (JsValue D) := js_set_bytes k v.
Definition ca_js_set (k : string) (v : JsValue D) : JsOp (JsValue D) := js_set k v.
Definition ca_js_get (k : string) : JsOp (JsValue D) := js_get k.
Definition ca_js_delete (k : string) : JsOp (JsValue D) := js_delete k.
Definition ca_js_gets_bytes (limit : option N) (dir : Direction) (c : cursor) : JsOp (list (JsObject D)) := js_gets_bytes limit dir c.
Definition ca_js_gets (fuel : nat) (limit : option N) (dir : Direction) (c : cursor)
    (query : option string) : JsOp (list (JsObject D)) := js_gets fuel limit dir c query.
Definition ca_js_begin_tx : JsOp (JsValue D) := js_begin_tx.
Definition ca_js_save (fuel : nat) (p : page) : option ((JsValue D + JsValue D) * page) := js_save fuel p.
Definition ca_js_load (data : bytes) : JsOp (JsValue D) := js_load data.
Definition ca_js_load_stream (items : list (JsValue D + JsValue D)) : JsOp (JsValue D) := js_load_stream items.
(** A round of the task of [save_stream]. *)
Definition ca_js_save_stream (fuel : nat) (w : CachedOxKvStore W C * JsStream) : option (CachedOxKvStore W C * JsStream) := stream_fill fuel w.

(** *** What the mirror adds *)

Definition ca_js_get_bytes_checked (k : string) : JsOp (JsValue D) :=
  js_return (let! r := locked (get_bytes_checked prefix epoch k) in op_ret (bytes_or_null r)).

Definition ca_js_refresh : JsOp (JsValue D) :=
  js_return (let! n := locked (refresh prefix epoch) in op_lift (count_u32 n)).

Definition ca_js_check_stale : JsOp (JsValue D) :=
  js_return (let! r := locked (check_stale prefix epoch) in op_ret (JsBoolean r)).

Definition ca_js_is_warmed (p : page) : bool := is_warmed (pg_store p).

Definition ca_js_warm : JsOp (JsValue D) :=
  js_return (let! n := locked (warm prefix epoch) in op_lift (count_u32 n)).

Definition ca_js_warm_step (pages : N) : JsOp (JsValue D) :=
  js_return (let! r := locked (warm_step prefix epoch pages) in op_ret (JsBoolean r)).
End cached.
