(* ===== verification/WasmSpec.v ===== *)
(** The methods of a page against one map and the overlays of its open
    transactions, for every store that lets transactions share it. *)

From stdpp Require Import options.
From S2P Require Import Prelude OrdMap Core Codec Hooks BTree BTreeSpec Snapshot Storage.
From S2P Require Import Json Float Query QuerySpec QueryDate QueryEval QueryEvalSpec Gets Wasm.

(** ** Calls *)

(** The methods that store and transaction handles share, and those of one. *)
Inductive JsMethod (D : Type) :=
| GetBytes (k : string)
| Has (k : string)
| SetBytes (k : string) (v : bytes)
| Delete (k : string)
| SetJson (k : string) (v : JsValue D)
| GetJson (k : string)
| GetsBytes (limit : option N) (dir : Direction) (c : cursor).
Arguments GetBytes {D} _.
Arguments Has {D} _.
Arguments SetBytes {D} _ _.
Arguments Delete {D} _.
Arguments SetJson {D} _ _.
Arguments GetJson {D} _.
Arguments GetsBytes {D} _ _ _.

Inductive JsCall (D : Type) :=
| OnStore (c : JsMethod D)
| Gets (limit : option N) (dir : Direction) (c : cursor) (query : option string)
| BeginTx
| OnTx (h : nat) (c : JsMethod D)
| Commit (h : nat)
| Rollback (h : nat).
Arguments OnStore {D} _.
Arguments Gets {D} _ _ _ _.
Arguments BeginTx {D}.
Arguments OnTx {D} _ _.
Arguments Commit {D} _.
Arguments Rollback {D} _.

Section run.
Context `{JsonNumbers} {D : Type} `{!SerdeWasm D} `{!Json Value}.
Context `{Lucene} `{RegexLib} `{Unicode} `{EditDistance}.
Context {S T : Type} `{Store S (S * T)}.
Abbreviation page := (Page S T).
Abbreviation JsOp A := (Page S T → (JsValue D + A) * Page S T).

Definition replied {A} (f : A → JsReply D) (m : JsOp A) : JsOp (JsReply D) := λ p,
  let '(r, p) := m p in (match r with inl e => inl e | inr a => inr (f a) end, p).

Definition js_method (c : JsMethod D) : JsOp (JsReply D) :=
  match c with
  | GetBytes k => replied RValue (js_get_bytes k)
  | Has k => replied RValue (js_has k)
  | SetBytes k v => replied RValue (js_set_bytes k v)
  | Delete k => replied RValue (js_delete k)
  | SetJson k v => replied RValue (js_set k v)
  | GetJson k => replied RValue (js_get k)
  | GetsBytes limit dir c => replied RObjects (js_gets_bytes limit dir c)
  end.

Definition js_tx_method (h : nat) (c : JsMethod D) : JsOp (JsReply D) :=
  match c with
  | GetBytes k => replied RValue (js_tx_get_bytes h k)
  | Has k => replied RValue (js_tx_has h k)
  | SetBytes k v => replied RValue (js_tx_set_bytes h k v)
  | Delete k => replied RValue (js_tx_delete h k)
  | SetJson k v => replied RValue (js_tx_set h k v)
  | GetJson k => replied RValue (js_tx_get h k)
  | GetsBytes limit dir c => replied RObjects (js_tx_gets_bytes h limit dir c)
  end.

Definition js_call (fuel : nat) (c : JsCall D) : JsOp (JsReply D) :=
  match c with
  | OnStore c => js_method c
  | Gets limit dir c query => replied RObjects (js_gets fuel limit dir c query)
  | BeginTx => replied RValue js_begin_tx
  | OnTx h c => js_tx_method h c
  | Commit h => replied RValue (js_commit h)
  | Rollback h => replied RValue (js_rollback h)
  end.

(** A script: any methods on any handles, one after the other. *)
Fixpoint js_calls (fuel : nat) (cs : list (JsCall D)) (p : page) :
    list (JsValue D + JsReply D) * page :=
  match cs with
  | [] => ([], p)
  | c :: cs =>
      let '(r, p) := js_call fuel c p in
      let '(rs, p) := js_calls fuel cs p in (r :: rs, p)
  end.
End run.

(** ** The abstract page *)

(** A map, and what each transaction has staged; [None] once it has ended. *)
Record JsState := MkJs {
  js_map : gmap string bytes;
  js_open : list (option (gmap string (option bytes)));
}.

Definition apply_change (ch : option (string * option bytes)) (m : gmap string bytes) : gmap string bytes :=
  match ch with
  | None => m
  | Some (k, Some v) => <[k := v]> m
  | Some (k, None) => base.delete k m
  end.

Definition stage_change (ch : option (string * option bytes)) (o : gmap string (option bytes)) :
    gmap string (option bytes) :=
  match ch with None => o | Some (k, st) => <[k := st]> o end.

Section spec.
Context `{JsonNumbers} {D : Type} `{!SerdeWasm D} `{!Json Value}.
Context `{Lucene} `{RegexLib} `{Unicode} `{EditDistance}.

Definition js_closed : JsValue D + JsReply D := inl (JsError CLOSED).

(** The stored document, or [null]. *)
Definition document (m : gmap string bytes) (k : string) : JsValue D + JsReply D :=
  js_result (res_map RValue (let? v := decoded (m !! k) in json_or_null v)).

(** The reply of a method that sees the map, and the row it writes: a [set]
    writes even when the value it replaces is not a document and the reply is
    therefore an error. *)
Definition method_spec (c : JsMethod D) (m : gmap string bytes) :
    (JsValue D + JsReply D) * option (string * option bytes) :=
  match c with
  | GetBytes k => (inr (RValue (bytes_or_null (m !! k))), None)
  | Has k => (inr (RValue (JsBoolean (bool_decide (is_Some (m !! k))))), None)
  | SetBytes k v => (inr (RValue (bytes_or_null (m !! k))), Some (k, Some v))
  | Delete k =>
      (inr (RValue (JsBoolean (bool_decide (is_Some (m !! k))))),
       if decide (is_Some (m !! k)) then Some (k, None) else None)
  | SetJson k v =>
      match from_value v with
      | inl e => (inl (from_store_error (Serialization e)), None)
      | inr v => (document m k, Some (k, Some (to_vec v)))
      end
  | GetJson k => (document m k, None)
  | GetsBytes limit dir c => (inr (RObjects (kv_object <$> scan_spec limit dir c m)), None)
  end.

Definition js_spec (c : JsCall D) (x : JsState) : (JsValue D + JsReply D) * JsState :=
  match c with
  | OnStore c =>
      let '(r, ch) := method_spec c (js_map x) in (r, MkJs (apply_change ch (js_map x)) (js_open x))
  | Gets limit dir c query =>
      (js_result (res_map RObjects
         (let? l := gets_spec (js_map x) limit dir c query in collect (doc_object <$> l))), x)
  | BeginTx => (inr (RValue (JsTx (length (js_open x)))), MkJs (js_map x) (js_open x ++ [Some ∅]))
  | OnTx h c =>
      match js_open x !! h with
      | Some (Some o) =>
          let '(r, ch) := method_spec c (apply_overlay o (js_map x)) in
          (r, MkJs (js_map x) (<[h := Some (stage_change ch o)]> (js_open x)))
      | _ =>
          (match c with
           | SetJson _ v => match from_value v with
                            | inl e => inl (from_store_error (Serialization e))
                            | inr _ => js_closed
                            end
           | _ => js_closed
           end, x)
      end
  | Commit h =>
      match js_open x !! h with
      | Some (Some o) => (inr (RValue JsUndefined), MkJs (apply_overlay o (js_map x)) (<[h := None]> (js_open x)))
      | _ => (js_closed, x)
      end
  | Rollback h =>
      match js_open x !! h with
      | Some (Some _) => (inr (RValue JsUndefined), MkJs (js_map x) (<[h := None]> (js_open x)))
      | _ => (js_closed, x)
      end
  end.

Fixpoint js_specs (cs : list (JsCall D)) (x : JsState) : list (JsValue D + JsReply D) * JsState :=
  match cs with
  | [] => ([], x)
  | c :: cs =>
      let '(r, x) := js_spec c x in
      let '(rs, x) := js_specs cs x in (r :: rs, x)
  end.
End spec.

Definition js_empty : JsState := MkJs ∅ [].

(** ** What a store promises to a page *)

(** An operation that is a function of the map and keeps what [I] says. *)
Record answers {S} `{GetSet S} (I : S → Prop) (m : gmap string bytes) : Prop := {
  an_get k s : I s → ∃ s', get_bytes k s = (Ok (m !! k), s') ∧ I s';
  an_has k s : I s → ∃ s', has k s = (Ok (bool_decide (is_Some (m !! k))), s') ∧ I s';
  an_gets limit dir c s : I s →
    ∃ s', gets_bytes limit dir c s = (Ok (scan_spec limit dir c m), s') ∧ I s';
}.

(** A store that stands for a map, with room for some more writes, beside
    transactions that stand for their overlays: whatever the store goes through
    meanwhile, a transaction reads the map of that moment under its overlay, and
    its commit applies the overlay to the map of that moment. *)
Class JsBackend (S T : Type) `{Store S (S * T)} := {
  jb_store : N → gmap string bytes → S → Prop;
  jb_tx : gmap string (option bytes) → T → Prop;
  jb_key : string → Prop;
  jb_row : string → bytes → Prop;
  jb_less room room' m s : (room' ≤ room)%N → jb_store room m s → jb_store room' m s;
  jb_reads room m : answers (jb_store room m) m;
  jb_set room m k v s : jb_row k v → jb_store (room + 16) m s →
    ∃ s', set_bytes k v s = (Ok (m !! k), s') ∧ jb_store room (<[k := v]> m) s';
  jb_delete room m k s : jb_key k → jb_store (room + 16) m s →
    ∃ s', delete k s = (Ok (bool_decide (is_Some (m !! k))), s') ∧ jb_store room (base.delete k m) s';
  jb_begin room m s : jb_store room m s → ∃ t, begin_tx s = Ok (s, t) ∧ jb_tx ∅ t;
  jb_tx_reads room m o : answers (λ w : S * T, jb_store room m w.1 ∧ jb_tx o w.2) (apply_overlay o m);
  jb_tx_set room m o k v s t : jb_row k v → jb_store room m s → jb_tx o t →
    ∃ s' t', set_bytes k v (s, t) = (Ok (apply_overlay o m !! k), (s', t')) ∧
      jb_store room m s' ∧ jb_tx (<[k := Some v]> o) t';
  jb_tx_delete room m o k s t : jb_key k → jb_store room m s → jb_tx o t →
    ∃ s' t', delete k (s, t) = (Ok (bool_decide (is_Some (apply_overlay o m !! k))), (s', t')) ∧
      jb_store room m s' ∧
      jb_tx (if decide (is_Some (apply_overlay o m !! k)) then <[k := None]> o else o) t';
  jb_commit room m o s t : jb_store (room + 16) m s → jb_tx o t →
    ∃ w, commit (s, t) = (Ok (), w) ∧ jb_store room (apply_overlay o m) (tx_store w);
  jb_rollback room m o s t : jb_store room m s → jb_tx o t →
    ∃ w, rollback (s, t) = (Ok (), w) ∧ jb_store room m (tx_store w);
}.

(** ** One method *)

Section method.
Context `{JsonNumbers} {D : Type} `{!SerdeWasm D} `{!Json Value}.
Context {X : Type} `{GetSet X}.

(** A method below the lock. *)
Definition method_op (c : JsMethod D) : Op X (JsReply D) :=
  match c with
  | GetBytes k => let! r := get_bytes k in op_ret (RValue (bytes_or_null r))
  | Has k => let! r := has k in op_ret (RValue (JsBoolean r))
  | SetBytes k v => let! r := set_bytes k v in op_ret (RValue (bytes_or_null r))
  | Delete k => let! r := delete k in op_ret (RValue (JsBoolean r))
  | SetJson k v =>
      let! json := op_lift (from_js v) in
      let! prev := set k json in
      let! j := op_lift (json_or_null prev) in op_ret (RValue j)
  | GetJson k => let! v := get k in let! j := op_lift (json_or_null v) in op_ret (RValue j)
  | GetsBytes limit dir c =>
      let! l := gets_bytes limit (js_direction dir) c in op_ret (RObjects (kv_object <$> l))
  end.

Context (K : string → Prop) (R : string → bytes → Prop).

(** The rows a method may write. *)
Definition method_rows (c : JsMethod D) : Prop :=
  match c with
  | SetBytes k v => R k v
  | SetJson k v => ∀ doc, from_value v = inr doc → R k (to_vec doc)
  | Delete k => K k
  | _ => True
  end.

Context (m : gmap string bytes) (I : X → Prop) (J : option (string * option bytes) → X → Prop).
Hypothesis Hreads : answers I m.
Hypothesis Hquiet : ∀ s, I s → J None s.
Hypothesis Hset : ∀ k v s, R k v → I s →
  ∃ s', set_bytes k v s = (Ok (m !! k), s') ∧ J (Some (k, Some v)) s'.
Hypothesis Hdelete : ∀ k s, K k → I s →
  ∃ s', delete k s = (Ok (bool_decide (is_Some (m !! k))), s') ∧
    J (if decide (is_Some (m !! k)) then Some (k, None) else None) s'.

Lemma document_eq k (s : X) :
  (let! v := op_lift (decoded (m !! k)) in
   let! j := op_lift (json_or_null v) in op_ret (RValue j)) s =
  (res_map RValue (let? v := decoded (m !! k) in json_or_null v), s).
Proof using Type.
  unfold op_bind, op_lift, res_map. destruct (decoded (m !! k)) as [v|e]; [|done]. cbn [res_bind].
  by destruct (json_or_null v).
Qed.

Lemma method_op_spec c s :
  I s → method_rows c →
  let '(r, ch) := method_spec c m in
  ∃ r' s', method_op c s = (r', s') ∧ js_result r' = r ∧ J ch s'.
Proof using Hreads Hquiet Hset Hdelete.
  intros Hs Hr. destruct Hreads as [Hget Hhas Hgets].
  destruct c as [k|k|k v|k|k v|k|limit dir c]; cbn [method_spec method_op method_rows] in *.
  - destruct (Hget k s Hs) as (s' & Hg & Hs'). erewrite op_bind_ok by exact Hg.
    eexists _, s'. split_and!; [done..|by apply Hquiet].
  - destruct (Hhas k s Hs) as (s' & Hg & Hs'). erewrite op_bind_ok by exact Hg.
    eexists _, s'. split_and!; [done..|by apply Hquiet].
  - destruct (Hset k v s Hr Hs) as (s' & Hg & Hs'). erewrite op_bind_ok by exact Hg.
    by eexists _, s'.
  - destruct (Hdelete k s Hr Hs) as (s' & Hg & Hs'). erewrite op_bind_ok by exact Hg.
    by eexists _, s'.
  - unfold from_js. destruct (from_value v) as [e|doc]; [by eexists _, s; split_and!; [..|apply Hquiet]|].
    erewrite op_bind_ok by done.
    destruct (Hset k (to_vec doc) s (Hr _ eq_refl) Hs) as (s' & Hg & Hs').
    exists (res_map RValue (let? v := decoded (m !! k) in json_or_null v)), s'. split; [|done].
    rewrite <-document_eq. unfold set, op_bind at 1. erewrite op_bind_ok by done.
    erewrite op_bind_ok by exact Hg. by rewrite decode_eq.
  - destruct (Hget k s Hs) as (s' & Hg & Hs').
    exists (res_map RValue (let? v := decoded (m !! k) in json_or_null v)), s'. split; [|by split; [|apply Hquiet]].
    rewrite <-document_eq. unfold get, op_bind at 1. erewrite op_bind_ok by exact Hg. by rewrite decode_eq.
  - assert (js_direction dir = dir) as -> by by destruct dir.
    destruct (Hgets limit dir c s Hs) as (s' & Hg & Hs'). erewrite op_bind_ok by exact Hg.
    eexists _, s'. split_and!; [done..|by apply Hquiet].
Qed.
End method.

(** ** A page *)

(** The entries there are, committed and staged. *)
Definition staged_size (o : option (gmap string (option bytes))) : nat := default 0 (size <$> o).
Definition weight (x : JsState) : nat := size (js_map x) + sum_list_with staged_size (js_open x).

Lemma size_insert_le {A} k (v : A) (m : gmap string A) : size (<[k := v]> m) ≤ S (size m).
Proof. rewrite map_size_insert. destruct (m !! k); simpl; lia. Qed.

Lemma size_delete_le {A} k (m : gmap string A) : size (base.delete k m) ≤ size m.
Proof. rewrite map_size_delete. destruct (m !! k); simpl; lia. Qed.

Lemma size_overlay (o : gmap string (option bytes)) (m : gmap string bytes) :
  size (apply_overlay o m) ≤ size m + size o.
Proof.
  induction o as [|k st o Hk IH] using map_ind; [rewrite apply_overlay_empty; lia|].
  rewrite apply_overlay_insert, map_size_insert_None by done. destruct st as [v|].
  - pose proof (size_insert_le k v (apply_overlay o m)). lia.
  - pose proof (size_delete_le k (apply_overlay o m)). lia.
Qed.

Lemma size_change ch m : size (apply_change ch m) ≤ S (size m).
Proof.
  destruct ch as [[k [v|]]|]; simpl; [apply size_insert_le| |lia].
  pose proof (size_delete_le k m). lia.
Qed.

Lemma sum_insert {A} (f : A → nat) (l : list A) h n x :
  l !! h = Some n → sum_list_with f (<[h := x]> l) + f n = sum_list_with f l + f x.
Proof.
  revert h. induction l as [|a l IH]; intros [|h] Hh; simpl in *; simplify_eq; [lia|].
  specialize (IH h Hh). lia.
Qed.

Section weight.
Context `{JsonNumbers} {D : Type} `{!SerdeWasm D} `{!Json Value}.
Context `{Lucene} `{RegexLib} `{Unicode} `{EditDistance}.

Lemma weight_set (x : JsState) m h o o' :
  js_open x !! h = Some (Some o) →
  weight (MkJs m (<[h := o']> (js_open x))) + size o = size m + sum_list_with staged_size (js_open x) + staged_size o'.
Proof using Type.
  intros Ho. unfold weight. cbn [js_map js_open].
  pose proof (sum_insert staged_size (js_open x) h (Some o) o' Ho) as Hs. cbn in Hs. lia.
Qed.

Lemma spec_weight (c : JsCall D) x : weight (js_spec c x).2 ≤ S (weight x).
Proof using Type.
  destruct c as [c|? ? ? ?| |h c|h|h]; cbn [js_spec].
  - destruct (method_spec c (js_map x)) as [r ch]. unfold weight. cbn. pose proof (size_change ch (js_map x)). lia.
  - cbn. lia.
  - unfold weight. cbn [snd js_map js_open]. rewrite sum_list_with_app.
    change (sum_list_with staged_size [Some ∅]) with 0. lia.
  - destruct (js_open x !! h) as [[o|]|] eqn:Ho; [|cbn; lia..].
    destruct (method_spec c _) as [r ch]. cbn [snd].
    pose proof (weight_set x (js_map x) h o (Some (stage_change ch o)) Ho) as Hw. cbn in Hw.
    assert (size (stage_change ch o) ≤ S (size o)) by (destruct ch as [[k st]|]; cbn; [apply size_insert_le|lia]).
    unfold weight at 2. lia.
  - destruct (js_open x !! h) as [[o|]|] eqn:Ho; cbn [snd]; [|lia..].
    pose proof (weight_set x (apply_overlay o (js_map x)) h o None Ho) as Hw. cbn in Hw.
    pose proof (size_overlay o (js_map x)). unfold weight at 2. lia.
  - destruct (js_open x !! h) as [[o|]|] eqn:Ho; cbn [snd]; [|lia..].
    pose proof (weight_set x (js_map x) h o None Ho) as Hw. cbn in Hw. unfold weight at 2. lia.
Qed.
End weight.

Section page.
Context `{JsonNumbers} {D : Type} `{!SerdeWasm D} `{!Json Value}.
Context `{Lucene} `{RegexLib} `{Unicode} `{EditDistance}.
Context {S T : Type} `{JsBackend S T}.
Abbreviation page := (Page S T).

(** The page stands for the state. *)
Record jb_page (room : N) (x : JsState) (p : page) : Prop := {
  jp_store : jb_store room (js_map x) (pg_store p);
  jp_txs : Forall2 (option_Forall2 jb_tx) (js_open x) (pg_txs p);
}.

Definition call_rows (c : JsCall D) : Prop :=
  match c with OnStore c | OnTx _ c => method_rows jb_key jb_row c | _ => True end.

(** A method is its body under the lock. *)
Lemma js_method_eq c (p : page) : js_method c p = js_return (locked (method_op c)) p.
Proof using Type.
  destruct c as [k|k|k v|k|k v|k|limit dir c]; cbn [js_method method_op]; unfold replied, js_get_bytes, js_has,
    js_set_bytes, js_delete, js_set, js_get, js_gets_bytes, js_return, locked, op_zoom, op_bind, op_lift, op_ret.
  - by destruct (get_bytes k (pg_store p)) as [[]].
  - by destruct (has k (pg_store p)) as [[]].
  - by destruct (set_bytes k v (pg_store p)) as [[]].
  - by destruct (delete k (pg_store p)) as [[]].
  - destruct (from_js v); [|by destruct p]. destruct (set k a (pg_store p)) as [[r|] ?]; [|done].
    by destruct (json_or_null r).
  - destruct (get k (pg_store p)) as [[r|] ?]; [|done]. by destruct (json_or_null r).
  - by destruct (gets_bytes limit (js_direction dir) c (pg_store p)) as [[]].
Qed.

Lemma js_tx_method_eq h c t (p : page) :
  pg_txs p !! h = Some (Some t) → js_tx_method h c p = js_return (with_tx h (method_op c)) p.
Proof using Type.
  intros Ht. destruct c as [k|k|k v|k|k v|k|limit dir c]; cbn [js_tx_method method_op]; unfold replied,
    js_tx_get_bytes, js_tx_has, js_tx_set_bytes, js_tx_delete, js_tx_set, js_tx_get, js_tx_gets_bytes, js_return,
    with_tx, op_bind, op_lift, op_ret; rewrite ?Ht.
  - by destruct (get_bytes k (pg_store p, t)) as [[] []].
  - by destruct (has k (pg_store p, t)) as [[] []].
  - by destruct (set_bytes k v (pg_store p, t)) as [[] []].
  - by destruct (delete k (pg_store p, t)) as [[] []].
  - destruct (from_js v) as [doc|e].
    + destruct (set k doc (pg_store p, t)) as [[r|] []]; [|done]. by destruct (json_or_null r).
    + rewrite list_insert_id by done. by destruct p.
  - destruct (get k (pg_store p, t)) as [[r|] []]; [|done]. by destruct (json_or_null r).
  - by destruct (gets_bytes limit (js_direction dir) c (pg_store p, t)) as [[] []].
Qed.

(** A handle that is no longer open. *)
Lemma js_tx_closed h c (p : page) :
  (∀ t, pg_txs p !! h ≠ Some (Some t)) →
  js_tx_method h c p =
    (match c with
     | SetJson _ v => match from_value v with
                      | inl e => inl (from_store_error (Serialization e))
                      | inr _ => js_closed
                      end
     | _ => js_closed
     end, p).
Proof using Type.
  intros Hc. assert (∀ A (m : Op (S * T) A), with_tx h m p = (Err (Other CLOSED), p)) as Hw.
  { intros A m. unfold with_tx. destruct (pg_txs p !! h) as [[t|]|]; [by destruct (Hc t)|done..]. }
  destruct c; cbn [js_tx_method]; unfold replied, js_tx_get_bytes, js_tx_has, js_tx_set_bytes, js_tx_delete,
    js_tx_set, js_tx_get, js_tx_gets_bytes, js_return, op_bind; rewrite ?Hw; try done.
  unfold op_lift, from_js. destruct (from_value v); [done|]. by rewrite Hw.
Qed.

Lemma take_closed {A} h (m : Op (S * T) A) (p : page) :
  (∀ t, pg_txs p !! h ≠ Some (Some t)) → take_tx h m p = (Err (Other CLOSED), p).
Proof using Type. intros Hc. unfold take_tx. destruct (pg_txs p !! h) as [[t|]|]; [by destruct (Hc t)|done..]. Qed.

(** What is open on the one side is open on the other. *)
Lemma page_handle room x p h :
  jb_page room x p →
  match js_open x !! h with
  | Some (Some o) => ∃ t, pg_txs p !! h = Some (Some t) ∧ jb_tx o t
  | _ => ∀ t, pg_txs p !! h ≠ Some (Some t)
  end.
Proof using Type.
  intros [_ Ht]. rewrite Forall2_lookup in Ht. specialize (Ht h).
  destruct Ht as [? ? [o t Ho|]|]; [by exists t|done..].
Qed.

(** The page after a step of one handle. *)
Lemma page_set room x p m h o t s :
  jb_page room x p → jb_store room m s → option_Forall2 jb_tx o t →
  jb_page room (MkJs m (<[h := o]> (js_open x))) (MkPage s (<[h := t]> (pg_txs p))).
Proof using Type. intros [_ Ht] Hs Ho. split; [done|]. by apply Forall2_insert. Qed.

Lemma js_call_ok fuel room c x p :
  jb_page (room + 16) x p → call_rows c → weight x < fuel →
  ∃ p', js_call fuel c p = ((js_spec c x).1, p') ∧ jb_page room (js_spec c x).2 p'.
Proof using Type.
  intros Hp Hc Hf. pose proof Hp as [Hs Ht].
  assert (jb_store room (js_map x) (pg_store p)) as Hlow by (eapply jb_less; [|done]; lia).
  assert (jb_page room x p) as Hpl by by split.
  destruct c as [c|limit dir c query| |h c|h|h]; cbn [js_call js_spec call_rows] in *.
  - rewrite js_method_eq. unfold js_return, locked, op_zoom.
    pose proof (method_op_spec jb_key jb_row (js_map x) (λ s, jb_store (room + 16) (js_map x) s)
      (λ ch s, jb_store room (apply_change ch (js_map x)) s) (jb_reads _ _)) as Hm.
    ospecialize (Hm _ _ _ c _ Hs Hc).
    { intros s Hs'. eapply jb_less; [|done]. lia. }
    { intros k v s Hr Hs'. by apply jb_set. }
    { intros k s Hk Hs'. destruct (jb_delete _ _ _ _ Hk Hs') as (s' & Hd & Hs''). exists s'. split; [done|].
      case_decide as Hin; [done|]. apply eq_None_not_Some in Hin. by rewrite delete_id in Hs''. }
    destruct (method_spec c (js_map x)) as [r ch]. destruct Hm as (r' & s' & -> & <- & Hs').
    eexists. split; [done|]. by split.
  - unfold js_gets, replied, js_return, locked, op_zoom, op_bind.
    destruct (query_scan_spec gets_bytes (js_map x) (jb_store room (js_map x)) (an_gets _ _ (jb_reads _ _))
      fuel limit (js_direction dir) c query (pg_store p) Hlow) as (s' & Hs' & Hg).
    { unfold weight in Hf. lia. }
    unfold gets. rewrite Hg. assert (js_direction dir = dir) as -> by by destruct dir.
    exists (MkPage s' (pg_txs p)). split; [|by split].
    destruct (gets_spec (js_map x) limit dir c query) as [l|e]; [|done]. cbn.
    by destruct (collect (doc_object <$> l)).
  - unfold js_begin_tx, replied, js_return. destruct (jb_begin _ _ _ Hlow) as (t & -> & Hb).
    eexists. cbn. split; [by rewrite (Forall2_length _ _ _ Ht)|]. split; [done|].
    apply Forall2_app; [done|]. by repeat constructor.
  - pose proof (page_handle _ _ _ h Hpl) as Hh. destruct (js_open x !! h) as [[o|]|].
    2,3: rewrite (js_tx_closed h c p Hh); eexists; by split.
    destruct Hh as (t & Hlt & Hto). rewrite (js_tx_method_eq h c t p Hlt). unfold js_return, with_tx. rewrite Hlt.
    pose proof (method_op_spec jb_key jb_row (apply_overlay o (js_map x))
      (λ w : S * T, jb_store room (js_map x) w.1 ∧ jb_tx o w.2)
      (λ ch w, jb_store room (js_map x) w.1 ∧ jb_tx (stage_change ch o) w.2) (jb_tx_reads _ _ _)) as Hm.
    ospecialize (Hm _ _ _ c (pg_store p, t) (conj Hlow Hto) Hc).
    { done. }
    { intros k v [s t'] Hr [Hs' Ht']. destruct (jb_tx_set room (js_map x) o k v s t' Hr Hs' Ht') as (s1 & t1 & ? & ? & ?).
      by exists (s1, t1). }
    { intros k [s t'] Hk [Hs' Ht']. destruct (jb_tx_delete room (js_map x) o k s t' Hk Hs' Ht') as (s1 & t1 & ? & ? & Ht1).
      exists (s1, t1). split; [done|]. split; [done|]. revert Ht1. by case_decide. }
    destruct (method_spec c _) as [r ch]. destruct Hm as (r' & [s' t'] & -> & <- & Hs' & Ht').
    eexists. split; [done|]. eapply page_set; [exact Hpl|exact Hs'|by constructor].
  - pose proof (page_handle _ _ _ h Hpl) as Hh. unfold js_commit, replied, js_return, op_bind.
    destruct (js_open x !! h) as [[o|]|]; [|rewrite take_closed by done; by exists p..].
    destruct Hh as (t & Hlt & Hto). unfold take_tx. rewrite Hlt.
    destruct (jb_commit _ _ _ _ _ Hs Hto) as (w & -> & Hw). eexists. split; [done|].
    eapply page_set; [exact Hpl|exact Hw|constructor].
  - pose proof (page_handle _ _ _ h Hpl) as Hh. unfold js_rollback, replied, js_return, op_bind.
    destruct (js_open x !! h) as [[o|]|]; [|rewrite take_closed by done; by exists p..].
    destruct Hh as (t & Hlt & Hto). unfold take_tx. rewrite Hlt.
    destruct (jb_rollback _ _ _ _ _ Hlow Hto) as (w & -> & Hw). eexists. split; [done|].
    eapply page_set; [exact Hpl|exact Hw|constructor].
Qed.

Lemma js_calls_ok fuel cs room x p :
  jb_page (room + 16 * N.of_nat (length cs)) x p → Forall call_rows cs → weight x + length cs < fuel →
  ∃ p', js_calls fuel cs p = ((js_specs cs x).1, p') ∧ jb_page room (js_specs cs x).2 p'.
Proof using Type.
  revert x p. induction cs as [|c cs IH]; intros x p Hp Hc Hf.
  { exists p. cbn in *. by rewrite N.add_0_r in Hp. }
  apply Forall_cons in Hc as [Hc Hcs]. cbn [length js_calls js_specs] in *.
  destruct (js_call_ok fuel (room + 16 * N.of_nat (length cs)) c x p) as (p1 & Hr & Hp1); [|done|lia|].
  { by replace (room + 16 * N.of_nat (length cs) + 16)%N with (room + 16 * N.of_nat (Datatypes.S (length cs)))%N by lia. }
  pose proof (spec_weight c x) as Hw. rewrite Hr. destruct (js_spec c x) as [r x1]. cbn [fst snd] in *.
  destruct (IH x1 p1 Hp1 Hcs) as (p2 & Hrs & Hp2); [lia|]. rewrite Hrs.
  destruct (js_specs cs x1) as [rs x2]. by exists p2.
Qed.
End page.

(** ** The in-memory store *)

Section btree.
Context `{Ch : Channel}.
Abbreviation world := (BTreeStore * BTreeTx)%type.

(** A transaction without validators that has staged [o], over any store. *)
Record staged_tx (o : gmap string (option bytes)) (t : BTreeTx) : Prop := {
  sx_overlay : overlay t = o;
  sx_validators : tx_validators t = [];
  sx_wf : staged_wf t;
}.

Lemma staged_tx_begin (s : BTreeStore) : validators (hooks s) = [] → staged_tx ∅ (btree_begin_tx s).2.
Proof. intros Hv. split; [done..|]. apply (so_wf _ _ (staged_ok_begin s)). Qed.

Lemma staged_tx_set o k v (w : world) old :
  staged_tx o w.2 →
  staged_tx (<[k := Some v]> o) (tx_stage (Event k Kind_Set old (Some v) 0) (tx_insert k (Some v) w)).2.
Proof. intros [<- Hv Hwf]. split; [done..|]. exact (stage_insert_wf w k (Some v) old Hwf). Qed.

Lemma staged_tx_delete o k (w : world) b w' :
  staged_tx o w.2 → tx_delete k w = (Ok b, w') →
  b = bool_decide (is_Some (tx_map w !! k)) ∧ w'.1 = w.1 ∧
  staged_tx (if decide (is_Some (tx_map w !! k)) then <[k := None]> o else o) w'.2.
Proof.
  intros [<- Hv Hwf]. rewrite tx_delete_eq. destruct (tx_map w !! k) as [old|] eqn:Hk; intros [= <- <-].
  - split_and!; [done..|]. rewrite decide_True by done. split; [done..|]. exact (stage_insert_wf w k None _ Hwf).
  - split_and!; [done..|]. rewrite decide_False by (by intros [? ?]). by split.
Qed.

Lemma staged_tx_verdict o (w : world) k v : staged_tx o w.2 → tx_verdict w k v = Ok ().
Proof. intros [_ Hv _]. unfold tx_verdict. by rewrite Hv. Qed.

Lemma staged_tx_commit o (w : world) r w' :
  staged_tx o w.2 → tx_commit w = (r, w') →
  r = Ok () ∧ map w'.1 = apply_overlay o (map w.1) ∧ validators (hooks w'.1) = validators (hooks w.1).
Proof.
  intros [<- Hv Hwf] Hc. pose proof (tx_commit_eq w Hwf) as He. rewrite Hc in He.
  destruct r as [[]|e]; [by destruct He as (_ & ? & _ & ?)|].
  destruct He as [[] _]. apply Forall_forall. intros ev _. by apply recheck_no_validators.
Qed.

Lemma staged_tx_map o (w : world) : staged_tx o w.2 → tx_map w = apply_overlay o (map w.1).
Proof. by intros [<- _ _]. Qed.

#[export] Program Instance btree_backend : JsBackend BTreeStore BTreeTx := {|
  jb_store _ m s := map s = m ∧ validators (hooks s) = [];
  jb_tx := staged_tx;
  jb_key _ := True;
  jb_row _ _ := True;
|}.
Next Obligation. done. Qed.
Next Obligation.
  intros room m. split.
  - intros k s [<- Hv]. by exists s.
  - intros k s [<- Hv]. by exists s.
  - intros limit dir c s [<- Hv]. exists s. split; [|done]. apply btree_gets_bytes_spec.
Qed.
Next Obligation.
  intros room m k v s _ [<- Hv]. cbn [set_bytes BTreeStore_GetSet]. rewrite btree_set_bytes_eq.
  unfold verdict. rewrite Hv. by eexists.
Qed.
Next Obligation.
  intros room m k s _ [<- Hv]. cbn [delete BTreeStore_GetSet]. rewrite btree_delete_eq.
  destruct (map s !! k); by eexists.
Qed.
Next Obligation. intros room m s [_ Hv]. eexists. split; [done|]. by apply staged_tx_begin. Qed.
Next Obligation.
  intros room m o. split.
  - intros k w [[<- Hv] Ho]. exists w. cbn [get_bytes BTreeTx_GetSet].
    by rewrite tx_get_bytes_spec, (staged_tx_map _ _ Ho).
  - intros k w [[<- Hv] Ho]. exists w. cbn [has BTreeTx_GetSet].
    by rewrite tx_has_spec, (staged_tx_map _ _ Ho).
  - intros limit dir c w [[<- Hv] Ho]. exists w. cbn [gets_bytes BTreeTx_GetSet].
    by rewrite tx_gets_bytes_spec, (staged_tx_map _ _ Ho).
Qed.
Next Obligation.
  intros room m o k v s t _ [<- Hv] Ho. cbn [set_bytes BTreeTx_GetSet]. rewrite tx_set_bytes_eq.
  rewrite (staged_tx_verdict o (s, t)), (staged_tx_map o (s, t)) by done. eexists _, _.
  split; [reflexivity|]. split; [done|]. by apply (staged_tx_set o k v (s, t)).
Qed.
Next Obligation.
  intros room m o k s t _ [<- Hv] Ho. cbn [delete BTreeTx_GetSet].
  destruct (tx_delete k (s, t)) as [[b|e] [s' t']] eqn:Hd; [|rewrite tx_delete_eq in Hd; by destruct (tx_map _ !! k)].
  destruct (staged_tx_delete o k (s, t) b _ Ho Hd) as (-> & Hs & Ht). cbn [fst snd] in *. subst s'.
  rewrite (staged_tx_map o (s, t)) in * by done. by eexists _, _.
Qed.
Next Obligation.
  intros room m o s t [<- Hv] Ho. cbn [commit BTreeStore_Store]. destruct (tx_commit (s, t)) as [r w'] eqn:Hc.
  destruct (staged_tx_commit o (s, t) r w' Ho Hc) as (-> & Hm & Hv'). exists w'. split; [done|].
  cbn in *. by rewrite Hv', Hm.
Qed.
Next Obligation. intros room m o s t Hs _. by eexists. Qed.
End btree.
