(* ===== verification/WasmLsm.v ===== *)
(** The writer and its mirror behind a page: both let transactions share them
    as the in-memory store does, so a script gets the same replies from each of
    the three classes. *)

From stdpp Require Import options.
From S2P Require Import Prelude OrdMap Core Codec Hooks Snapshot Storage Json Ownership Manifest.
From S2P Require Import Blob Probe Wal Merge Sst SstSpec Cache Read ReadSpec LsmStore LsmPaths.
From S2P Require Import BTree BTreeSpec LsmSpec LsmInv LsmDurable LsmCompact LsmLife LsmRecover.
From S2P Require Import LsmTx LsmSessions LsmTxSpec Cached CachedSpec CachedTxSpec.
From S2P Require Import Float Query QuerySpec QueryDate QueryEval QueryEvalSpec Gets.
From S2P Require Import Wasm WasmStores WasmSpec.

Section lsm.
Context {W C : Type} `{ClockLaws W} `{JsonLaws Manifest} `{JsonLaws SstFooter}
  `{JsonLaws OwnershipRecord} `{Digests} `{JsonLaws BlobPointer}
  `{!Cache C string SstFile, !CacheLaws C string SstFile} `{Ch : Channel}.
Context (prefix : ObjectPath) (epoch : N) (session : string) (Hep : (epoch < U64)%N).
Context (K : string → Prop) (U : bytes → Prop) `{!Workload prefix K U}.
Context `{!StorePaths W prefix, !Unguarded W}.
Abbreviation writer := (OxKvStore W C).
Abbreviation cached := (CachedOxKvStore W C).
Abbreviation sound := (sound prefix epoch session K U).
Abbreviation mirrors := (mirrors prefix epoch session K U).
Abbreviation tx_sim := (tx_sim prefix epoch session K U).
Abbreviation ctx_sim := (ctx_sim prefix epoch session K U).

(** ** The writer *)

(** The transaction's own state, beside any store. *)
Definition ox_tx_stands (o : gmap string (option bytes)) (x : OxKvTx) : Prop :=
  ∃ t : BTreeTx, staged_tx o t ∧ ot_overlay x = o ∧ ot_validators x = [] ∧ ot_staged x = staged t ∧
    use_table K U o.

Definition ox_stands (room : N) (m : gmap string bytes) (s : writer) : Prop :=
  sound room m s ∧ validators (ox_hooks s) = [] ∧ ox_wal_buffer s = [].

Lemma ox_stands_sim room m o s x :
  ox_stands room m s → ox_tx_stands o x →
  ∃ t, tx_sim room [] (s, x) (twin m s, t) ∧ staged_tx o t.
Proof using Type.
  intros (Hs & Hv & Hb) (t & Ht & Ho & Hxv & Hst & Hu). pose proof Ht as [Hto Htv _]. exists t. split; [|done].
  split; try done; cbn; rewrite ?Hto; congruence || done.
Qed.

Lemma sim_ox_stands room m o w (t : BTreeStore * BTreeTx) :
  tx_sim room [] w t → map t.1 = m → validators (hooks t.1) = [] → staged_tx o t.2 →
  ox_stands room m w.1 ∧ ox_tx_stands o w.2.
Proof using Type.
  intros [Hs Hb Hh Ho Hv Hst Hu] <- Hth Ht. pose proof Ht as [Hto Htv _].
  split; [by split_and!; try congruence|]. exists t.2. rewrite <-Hto. rewrite Hto at 1. by split_and!; try congruence.
Qed.

(** Reading through the transaction. *)
Lemma ox_tx_read {A} room m o (op : Op (writer * OxKvTx) A) (a : A) w :
  (∀ t, tx_sim room [] w t → tx_map t = apply_overlay o m →
     ∃ w', op w = (Ok a, w') ∧ tx_sim room [] w' t) →
  ox_stands room m w.1 ∧ ox_tx_stands o w.2 →
  ∃ w', op w = (Ok a, w') ∧ ox_stands room m w'.1 ∧ ox_tx_stands o w'.2.
Proof using Type.
  intros Hop [Hs Hx]. destruct w as [s x]. destruct (ox_stands_sim _ _ _ _ _ Hs Hx) as (t & Hsim & Ht).
  destruct (Hop _ Hsim (staged_tx_map o (twin m s, t) Ht)) as (w' & Hr & Hw'). exists w'. split; [done|].
  eapply sim_ox_stands; [exact Hw'|done|apply Hs|done].
Qed.

#[local] Instance ox_store_ops : GetSet writer := ox_GetSet prefix epoch session.
#[local] Instance ox_tx_ops : GetSet (writer * OxKvTx) := OxKvTx_GetSet prefix epoch.
#[local] Instance ox_store : Store writer (writer * OxKvTx) := OxKvStore_Store prefix epoch session.

#[export] Program Instance writer_backend : JsBackend writer OxKvTx := {|
  jb_store := ox_stands;
  jb_tx := ox_tx_stands;
  jb_key := K;
  jb_row k v := use_row K U (k, Some v);
|}.
Next Obligation. intros room room' m s Hle (Hs & Hv & Hb). split; [|done]. eapply sound_less; [done..|exact Hs|lia]. Qed.
Next Obligation.
  intros room m. split.
  - intros k s (Hs & Hv & Hb). destruct (get_holds prefix epoch session Hep K U _ m k s (so_holds _ _ _ _ _ _ _ _ Hs)) as (io & Hg & Hh).
    exists (set_io io s). split; [exact Hg|]. split; [by apply sound_io|done].
  - intros k s (Hs & Hv & Hb). destruct (has_holds prefix epoch session Hep K U _ m k s (so_holds _ _ _ _ _ _ _ _ Hs)) as (io & Hg & Hh).
    exists (set_io io s). split; [exact Hg|]. split; [by apply sound_io|done].
  - intros limit dir c s (Hs & Hv & Hb).
    destruct (gets_holds prefix epoch session Hep K U _ m limit dir c s (so_holds _ _ _ _ _ _ _ _ Hs)) as (io & Hg & Hh).
    exists (set_io io s). split; [exact Hg|]. split; [by apply sound_io|done].
Qed.
Next Obligation.
  intros room m k v s Hr (Hs & Hv & Hb).
  destruct (set_sound prefix epoch session Hep K U room m k v s Hs Hr) as (s' & Hset & Hs'). rewrite Hv in Hset, Hs'.
  destruct Hs' as (Hs' & Hb' & Hh). exists s'. split; [exact Hset|]. split; [done|]. by rewrite Hh.
Qed.
Next Obligation.
  intros room m k s Hk (Hs & Hv & Hb).
  destruct (delete_sound prefix epoch session Hep K U room m k s Hs Hk) as (s' & Hd & Hs' & Hb' & Hh).
  exists s'. split; [exact Hd|]. split; [done|]. rewrite Hh. by destruct (m !! k).
Qed.
Next Obligation.
  intros room m s (Hs & Hv & Hb). eexists. split; [reflexivity|].
  exists (btree_begin_tx (twin m s)).2. split_and!; [by apply staged_tx_begin|done..].
Qed.
Next Obligation.
  intros room m o. split.
  - intros k w. apply ox_tx_read. intros t Hsim <-. by apply ot_get_sim.
  - intros k w. apply ox_tx_read. intros t Hsim <-. by apply ot_has_sim.
  - intros limit dir c w. apply ox_tx_read. intros t Hsim <-. by apply ot_gets_sim.
Qed.
Next Obligation.
  intros room m o k v s x Hr Hs Hx. destruct (ox_stands_sim _ _ _ _ _ Hs Hx) as (t & Hsim & Ht).
  destruct (ot_write_sim prefix epoch session Hep K U room _ k v _ _ Hsim Hr) as ([s' x'] & Hw & Hset & _).
  rewrite (staged_tx_verdict o (twin m s, t)), (staged_tx_map o (twin m s, t)) in * by done.
  exists s', x'. split; [exact Hset|]. eapply (sim_ox_stands _ _ _ (s', x')); [exact Hw|done|apply Hs|].
  by apply (staged_tx_set o k v (twin m s, t)).
Qed.
Next Obligation.
  intros room m o k s x Hk Hs Hx. destruct (ox_stands_sim _ _ _ _ _ Hs Hx) as (t & Hsim & Ht).
  destruct (ot_delete_sim prefix epoch session Hep K U room _ k _ _ Hsim Hk) as (b & [s' x'] & t' & Hd & Htd & Hw & _).
  destruct (staged_tx_delete o k (twin m s, t) b t' Ht Htd) as (-> & Hfst & Ht').
  rewrite (staged_tx_map o (twin m s, t)) in * by done. exists s', x'. split; [exact Hd|].
  eapply (sim_ox_stands _ _ _ (s', x')); [exact Hw|by rewrite Hfst|by rewrite Hfst; apply Hs|exact Ht'].
Qed.
Next Obligation.
  intros room m o s x Hs Hx. destruct (ox_stands_sim _ _ _ _ _ Hs Hx) as (t & Hsim & Ht).
  destruct (commit_sim prefix epoch session Hep K U room _ _ _ Hsim (sx_wf _ _ Ht)) as (r & w' & t' & buf & Hc & Htc & Hw & Hbuf).
  destruct (staged_tx_commit o (twin m s, t) r t' Ht Htc) as (-> & Hm & Hv). exists w'. split; [exact Hc|].
  destruct Hw as [Hs' Hb Hh _ _ _ _]. rewrite Hm in Hs'. split; [exact Hs'|]. cbn in *. rewrite Hh, Hv, Hb.
  split; [apply Hs|]. by destruct Hbuf.
Qed.
Next Obligation. intros room m o s x Hs Hx. by eexists. Qed.

(** ** The mirror *)

(** A transaction writes nothing to the mirror before its commit. *)
Definition keeps_state {A} (op : Op (cached * CachedTx) A) : Prop :=
  ∀ w, ca_state (op w).2.1 = ca_state w.1.

Lemma keeps_state_bind {A B} (m : Op (cached * CachedTx) A) (f : A → Op (cached * CachedTx) B) :
  keeps_state m → (∀ a, keeps_state (f a)) → keeps_state (op_bind m f).
Proof using Type.
  intros Hm Hf w. specialize (Hm w). unfold op_bind. destruct (m w) as [[a|e] w']; [|done].
  cbn in Hm. by rewrite Hf.
Qed.

Lemma keeps_on_tx {A} (op : Op (writer * OxKvTx) A) : keeps_state (on_tx op).
Proof using Type. intros [c x]. unfold on_tx, op_zoom. by destruct (op _) as [? []]. Qed.

Lemma keeps_on_mirror {A} (op : Op BTreeStore A) : keeps_state (on_cache (on_mirror op)).
Proof using Type. intros [c x]. unfold on_cache, on_mirror, op_zoom. cbn. by destruct (op _). Qed.

Lemma keeps_pure {A} (op : Op (cached * CachedTx) A) : (∀ w, (op w).2.1 = w.1) → keeps_state op.
Proof using Type. intros Hop w. by rewrite Hop. Qed.

Ltac keeps :=
  repeat first [apply keeps_state_bind; [|intros ?] | apply keeps_on_tx | apply keeps_on_mirror | case_match |
    by apply keeps_pure; intros [] ].

Lemma ct_calls_keep k v limit dir c :
  keeps_state (ct_get_bytes prefix epoch k) ∧ keeps_state (ct_has prefix epoch k) ∧
  keeps_state (ct_delete prefix epoch k) ∧ keeps_state (ct_set_bytes prefix epoch k v) ∧
  keeps_state (ct_gets_bytes prefix epoch limit dir c).
Proof using Type.
  split_and!; unfold ct_get_bytes, ct_has, ct_delete, ct_set_bytes, ct_get_bytes, ct_gets_bytes, ct_stage; keeps.
Qed.

Definition ca_tx_stands (o : gmap string (option bytes)) (x : CachedTx) : Prop :=
  ox_tx_stands o (ct_tx x) ∧ ct_staged x = o.

(** A mirror that holds the whole map. *)
Definition ca_stands (room : N) (m : gmap string bytes) (c : cached) : Prop :=
  mirrors room m c ∧ cs_warmed (ca_state c) = true ∧ validators (ox_hooks (ca_inner c)) = [].

Lemma ca_stands_sim room m o c x :
  ca_stands room m c → ca_tx_stands o x →
  ∃ t, ctx_sim room (c, x) (twin m (ca_inner c), t) ∧ staged_tx o t.
Proof using Type.
  intros (Hm & Hw & Hv) [Hx Hst]. pose proof Hm as [Hs Hb _ _ _ _].
  destruct (ox_stands_sim room m o (ca_inner c) (ct_tx x)) as (t & Hsim & Ht); [by split|done|].
  exists t. split; [|done]. pose proof Ht as [Hto _ _]. split; [done|cbn; congruence|done].
Qed.

Lemma sim_ca_stands room m o (c0 : cached) w (t : BTreeStore * BTreeTx) :
  ctx_sim room w t → map t.1 = m → validators (hooks t.1) = [] → staged_tx o t.2 →
  cs_warmed (ca_state c0) = true → ca_state w.1 = ca_state c0 →
  ca_stands room m w.1 ∧ ca_tx_stands o w.2.
Proof using Type.
  intros [Hx Hst Hm] <- Hv Ht Hw Hc.
  destruct (sim_ox_stands _ _ _ _ _ Hx eq_refl Hv Ht) as [(_ & Hv' & _) Hx']. destruct Ht as [<- _ _].
  split; [|done]. split; [done|]. by rewrite Hc.
Qed.

Lemma ca_tx_read {A} room m o (op : Op (cached * CachedTx) A) (a : A) w :
  keeps_state op →
  (∀ t, ctx_sim room w t → tx_map t = apply_overlay o m → ∃ w', op w = (Ok a, w') ∧ ctx_sim room w' t) →
  ca_stands room m w.1 ∧ ca_tx_stands o w.2 →
  ∃ w', op w = (Ok a, w') ∧ ca_stands room m w'.1 ∧ ca_tx_stands o w'.2.
Proof using Type.
  intros Hkeep Hop [Hs Hx]. destruct w as [c x]. destruct (ca_stands_sim _ _ _ _ _ Hs Hx) as (t & Hsim & Ht).
  destruct (Hop _ Hsim (staged_tx_map o (twin m (ca_inner c), t) Ht)) as (w' & Hr & Hw'). exists w'. split; [done|].
  specialize (Hkeep (c, x)). rewrite Hr in Hkeep. destruct Hs as (_ & Hw & Hv).
  by eapply (sim_ca_stands room m o c w').
Qed.

#[local] Instance ca_store_ops : GetSet cached := CachedOxKvStore_GetSet prefix epoch session.
#[local] Instance ca_tx_ops : GetSet (cached * CachedTx) := CachedTx_GetSet prefix epoch.
#[local] Instance ca_store : Store cached (cached * CachedTx) := CachedOxKvStore_Store prefix epoch session.

(** A call of the mirror leaves it whole. *)
Lemma cached_stands room m evs c c' :
  cached_ok prefix epoch session K U room m evs c c' → cs_warmed (ca_state c) = true →
  validators (ox_hooks (ca_inner c)) = [] → ca_stands room m c'.
Proof using Type. intros [Hm Hv _ Hw] Hc Hcv. split; [done|]. by rewrite Hw, Hv. Qed.

#[export] Program Instance mirror_backend : JsBackend cached CachedTx := {|
  jb_store := ca_stands;
  jb_tx := ca_tx_stands;
  jb_key := K;
  jb_row k v := use_row K U (k, Some v);
|}.
Next Obligation.
  intros room room' m c Hle (Hm & Hw & Hv). split; [|done]. eapply mirrors_less; [done..|exact Hm|lia].
Qed.
Next Obligation.
  intros room m. split.
  - intros k c (Hm & Hw & Hv). destruct (get_step prefix epoch session Hep K U room m k c Hm) as (c' & Hr & Hc').
    exists c'. split; [exact Hr|]. by eapply cached_stands.
  - intros k c (Hm & Hw & Hv). destruct (has_step prefix epoch session Hep K U room m k c Hm) as (c' & Hr & Hc').
    exists c'. split; [exact Hr|]. by eapply cached_stands.
  - intros limit dir cur c (Hm & Hw & Hv).
    destruct (gets_step prefix epoch session Hep K U room m limit dir cur c Hm) as (c' & Hr & Hc').
    exists c'. split; [exact Hr|]. by eapply cached_stands.
Qed.
Next Obligation.
  intros room m k v c Hr (Hm & Hw & Hv).
  pose proof (set_step prefix epoch session Hep K U room m k v c Hm Hr) as Hset. rewrite Hv in Hset.
  unfold spec_set in Hset. cbn in Hset.
  destruct Hset as (r' & c' & Hs & Hc' & Hrep); [by intros ? ? ? ?|].
  exists c'. split; [|by eapply cached_stands]. etrans; [exact Hs|]. f_equal.
  destruct Hrep as [Hrep|[? _]]; [|congruence]. destruct r' as [b|e]; by simplify_eq/=.
Qed.
Next Obligation.
  intros room m k c Hk (Hm & Hw & Hv).
  destruct (delete_step prefix epoch session Hep K U room m k c Hm Hk) as (c' & Hr & Hc').
  exists c'. split; [exact Hr|]. by eapply cached_stands.
Qed.
Next Obligation.
  intros room m c (Hm & Hw & Hv). eexists. split; [reflexivity|]. split; [|done].
  exists (btree_begin_tx (twin m (ca_inner c))).2. split_and!; [by apply staged_tx_begin|done..].
Qed.
Next Obligation.
  intros room m o. split.
  - intros k w. apply ca_tx_read; [apply (ct_calls_keep k [] None Next (None, None))|].
    intros t Hsim <-. by apply ct_get_sim.
  - intros k w. apply ca_tx_read; [apply (ct_calls_keep k [] None Next (None, None))|].
    intros t Hsim <-. by apply ct_has_sim.
  - intros limit dir c w. apply ca_tx_read; [apply (ct_calls_keep "" [] limit dir c)|].
    intros t Hsim <-. by apply ct_gets_sim.
Qed.
Next Obligation.
  intros room m o k v c x Hr Hs Hx. destruct (ca_stands_sim _ _ _ _ _ Hs Hx) as (t & Hsim & Ht).
  destruct (ct_calls_keep k v None Next (None, None)) as (_ & _ & _ & Hkeep & _). specialize (Hkeep (c, x)).
  destruct (ct_get_sim prefix epoch session Hep K U _ k _ _ Hsim) as (w1 & Hg & Hsim1).
  destruct (ct_write_sim prefix epoch session Hep K U _ k v _ _ Hsim1 Hr) as ([c' x'] & Hw & Hsim').
  rewrite (staged_tx_verdict o (twin m (ca_inner c), t)), (staged_tx_map o (twin m (ca_inner c), t)) in * by done.
  assert (ct_set_bytes prefix epoch k v (c, x) = (Ok (apply_overlay o m !! k), (c', x'))) as Hset.
  { unfold ct_set_bytes. erewrite op_bind_ok by exact Hg. unfold op_bind in *.
    destruct (on_tx _ w1) as [[?|?] ?]; [by rewrite Hw|done]. }
  rewrite Hset in Hkeep. exists c', x'. split; [exact Hset|]. destruct Hs as (_ & Hwarm & Hv).
  eapply (sim_ca_stands room m _ c (c', x')); [exact Hsim'|done..|by apply (staged_tx_set o k v (twin m (ca_inner c), t))|done|exact Hkeep].
Qed.
Next Obligation.
  intros room m o k c x Hk Hs Hx. destruct (ca_stands_sim _ _ _ _ _ Hs Hx) as (t & Hsim & Ht).
  destruct (ct_calls_keep k [] None Next (None, None)) as (_ & _ & Hkeep & _). specialize (Hkeep (c, x)).
  destruct (ct_delete_sim prefix epoch session Hep K U _ k _ _ Hsim Hk) as (b & [c' x'] & t' & Hd & Htd & Hw).
  destruct (staged_tx_delete o k (twin m (ca_inner c), t) b t' Ht Htd) as (-> & Hfst & Ht').
  rewrite (staged_tx_map o (twin m (ca_inner c), t)) in * by done. rewrite Hd in Hkeep.
  exists c', x'. split; [exact Hd|]. destruct Hs as (_ & Hwarm & Hv).
  eapply (sim_ca_stands room m _ c (c', x')); [exact Hw|by rewrite Hfst|by rewrite Hfst|exact Ht'|done|exact Hkeep].
Qed.
Next Obligation.
  intros room m o c x Hs Hx. destruct (ca_stands_sim _ _ _ _ _ Hs Hx) as (t & Hsim & Ht).
  destruct (ct_commit_sim prefix epoch session Hep K U room _ _ Hsim (sx_wf _ _ Ht))
    as (r & w' & t' & Hc & Htc & [_ Hh _ _] & Hwarm & Hm').
  destruct (staged_tx_commit o (twin m (ca_inner c), t) r t' Ht Htc) as (-> & Hm & Hv). exists w'. split; [exact Hc|].
  specialize (Hm' eq_refl). rewrite Hm in Hm'. destruct Hs as (_ & Hw & Hcv). split; [exact Hm'|].
  cbn in Hwarm, Hh, Hv |- *. rewrite Hwarm, Hh, Hv. done.
Qed.
Next Obligation.
  intros room m o c x Hs Hx. cbn [rollback ca_store CachedOxKvStore_Store]. unfold ct_rollback, on_tx, op_zoom.
  eexists. split; [reflexivity|]. cbn. by destruct c.
Qed.

(** ** Scripts *)

Section scripts.
Context `{JsonNumbers} {D : Type} `{!SerdeWasm D} `{!Json Value}.
Context `{Lucene} `{RegexLib} `{Unicode} `{EditDistance}.

(** A script on a page of each class. *)
Definition ox_js_calls (fuel : nat) (cs : list (JsCall D)) (p : Page writer OxKvTx) :
    list (JsValue D + JsReply D) * Page writer OxKvTx := js_calls fuel cs p.
Definition ca_js_calls (fuel : nat) (cs : list (JsCall D)) (p : Page cached CachedTx) :
    list (JsValue D + JsReply D) * Page cached CachedTx := js_calls fuel cs p.

(** The script writes rows of the workload only. *)
Definition script_rows (c : JsCall D) : Prop :=
  match c with
  | OnStore c | OnTx _ c => method_rows K (λ k v, use_row K U (k, Some v)) c
  | _ => True
  end.

Lemma ox_calls_ok fuel cs room x (p : Page writer OxKvTx) :
  jb_page (room + 16 * N.of_nat (length cs)) x p → Forall script_rows cs → weight x + length cs < fuel →
  ∃ p', ox_js_calls fuel cs p = ((js_specs cs x).1, p') ∧ jb_page room (js_specs cs x).2 p'.
Proof using Type*. intros Hp Hc Hf. exact (js_calls_ok fuel cs room x p Hp Hc Hf). Qed.

Lemma ca_calls_ok fuel cs room x (p : Page cached CachedTx) :
  jb_page (room + 16 * N.of_nat (length cs)) x p → Forall script_rows cs → weight x + length cs < fuel →
  ∃ p', ca_js_calls fuel cs p = ((js_specs cs x).1, p') ∧ jb_page room (js_specs cs x).2 p'.
Proof using Type*. intros Hp Hc Hf. exact (js_calls_ok fuel cs room x p Hp Hc Hf). Qed.
End scripts.

Lemma ox_page_recoverable room x (p : Page writer OxKvTx) :
  jb_page room x p → recoverable prefix K U room epoch (js_map x) (disk (pg_store p)).
Proof using Type*. intros [(Hs & _ & Hb) _]. by eapply sound_recoverable. Qed.

Lemma ca_page_recoverable room x (p : Page cached CachedTx) :
  jb_page room x p → recoverable prefix K U room epoch (js_map x) (disk (ca_inner (pg_store p))).
Proof using Type*. intros [(Hm & _ & _) _]. destruct Hm as [Hs Hb _ _ _ _]. by eapply sound_recoverable. Qed.
End lsm.

(** ** The constructors *)

Section created.
Context {C : Type} `{Clock MemInner} `{!ClockLaws MemInner} `{JsonLaws Manifest} `{JsonLaws SstFooter}
  `{JsonLaws OwnershipRecord} `{Digests} `{JsonLaws BlobPointer}
  `{!Cache C string SstFile, !CacheLaws C string SstFile} `{Ch : Channel}.
Context `{JsonNumbers} {D : Type} `{!SerdeWasm D} `{!Json Value}.
Context `{Lucene} `{RegexLib} `{Unicode} `{EditDistance}.
Context (prefix : option string) (session : string) (cache : C) (Hcache : cache_view cache = ∅).
Abbreviation path := (default JS_PREFIX prefix).
Context (K : string → Prop) (U : bytes → Prop) `{!Workload path K U}.

Lemma ox_created room :
  (room < U64)%N →
  ∃ p w, ox_js_create (D := D) prefix session cache = (inr (1%N, p), w) ∧
    jb_page (H7 := writer_backend path 1 session eq_refl K U) room js_empty p.
Proof using Type*.
  intros Hroom. destruct (open_sound path K U room 0 ∅ session false cache mem_new) as (s & w & Hb & Hs & Hbuf & Hh & _);
    [|done..|].
  { apply empty_recoverable; [exact _|exact _|exact I|reflexivity|exact Hroom]. }
  exists (MkPage s []), w. split.
  - unfold ox_js_create. rewrite Hb. done.
  - split; [|constructor]. split; [exact Hs|]. by split; [cbn; rewrite Hh|].
Qed.

Lemma ca_created room ttl :
  (room < U64)%N →
  ∃ p w, ca_js_create (D := D) prefix ttl None session cache = (inr (1%N, p), w) ∧
    jb_page (H7 := mirror_backend path 1 session eq_refl K U) room js_empty p.
Proof using Type*.
  intros Hroom. destruct (open_sound path K U room 0 ∅ session false cache mem_new) as (s & w & Hb & Hs & Hbuf & Hh & _);
    [|done..|].
  { apply empty_recoverable; [exact _|exact _|exact I|reflexivity|exact Hroom]. }
  destruct (open_mirrors path 1 session eq_refl K U room ∅ s Eager Hs Hbuf) as (c & Hopen & Hm & Hw & Hhk);
    [reflexivity|].
  exists (MkPage (with_stale_ttl (default JS_STALE_TTL ttl) c) []), (disk (ca_inner c)). split.
  - unfold ca_js_create. cbn [parse_warm_mode]. rewrite Hb. unfold open_cached.
    change (0 + 1)%N with 1%N. rewrite Hopen. done.
  - split; [|constructor]. destruct Hm. split; [by split|]. cbn. by rewrite Hw, Hhk, Hh.
Qed.

(** C19: The three stores answer a script alike.  Whatever methods a page calls, on the
    store and on any number of transaction handles at once, finished ones
    included, with documents that convert and documents that do not, the stores
    that the constructors make reply as one map with the overlays of the open
    transactions on it: a handle sees what the store holds by now under its own
    writes, its commit applies them to what the store holds by then, and a
    handle that was committed or rolled back is closed.  The storage of the two
    durable ones then stands for that map. *)
Theorem js_scripts (fuel : nat) (cs : list (JsCall D)) (ttl : option N) (room : N) :
  (room + 16 * N.of_nat (length cs) < U64)%N → Forall (script_rows K U) cs → length cs < fuel →
  let '(rs, x) := js_specs cs js_empty in
  (js_calls fuel cs js_btree_new).1 = rs ∧
  (∃ p w, ox_js_create (D := D) prefix session cache = (inr (1%N, p), w) ∧
     let '(rs', p') := ox_js_calls path 1 session fuel cs p in
     rs' = rs ∧ recoverable path K U room 1 (js_map x) (disk (pg_store p'))) ∧
  (∃ p w, ca_js_create (D := D) prefix ttl None session cache = (inr (1%N, p), w) ∧
     let '(rs', p') := ca_js_calls path 1 session fuel cs p in
     rs' = rs ∧ recoverable path K U room 1 (js_map x) (disk (ca_inner (pg_store p')))).
Proof using Type*.
  intros Hroom Hrows Hfuel. destruct (js_specs cs js_empty) as [rs x] eqn:Hspec. split; [|split].
  - destruct (js_calls_ok (T := BTreeTx) fuel cs 0 js_empty js_btree_new) as (p' & Hr & _).
    + split; [done|constructor].
    + apply Forall_forall. intros c _. destruct c as [[]| | |? []| |]; done.
    + done.
    + by rewrite Hr, Hspec.
  - destruct (ox_created _ Hroom) as (p & w & Hc & Hp). exists p, w. split; [done|].
    destruct (ox_calls_ok path 1 session eq_refl K U fuel cs room js_empty p Hp Hrows Hfuel) as (p' & Hr & Hp').
    rewrite Hspec in *. rewrite Hr. split; [done|]. by eapply ox_page_recoverable.
  - destruct (ca_created _ ttl Hroom) as (p & w & Hc & Hp). exists p, w. split; [done|].
    destruct (ca_calls_ok path 1 session eq_refl K U fuel cs room js_empty p Hp Hrows Hfuel) as (p' & Hr & Hp').
    rewrite Hspec in *. rewrite Hr. split; [done|]. by eapply ca_page_recoverable.
Qed.
End created.

(** ** A script with two handles *)

Section witness.
Import Concrete.
#[local] Existing Instance Z_numbers.
#[local] Existing Instance literal_regex.
#[local] Existing Instance ascii_unicode.
#[local] Existing Instance row_distance.

#[local] Instance no_query : Lucene := {| lucene_parse _ := inl "expected single_query" |}.

(** Documents that are bare strings, and JavaScript values that are strings. *)
#[local] Instance bare_strings : Json Value := {|
  to_vec v := match v with JString s => as_bytes s | _ => [] end;
  from_slice b := inr (JString (of_bytes b));
|}.
#[local] Instance js_strings : SerdeWasm string := {|
  from_value v := match v with JsData s => inr (JString s) | _ => inl "expected a string" end;
  to_value v := match v with JString s => inr (JsData s) | _ => inl "not a string" end;
  js_debug _ := "JsValue";
|}.

Definition two_handles : list (JsCall string) := [
  OnStore (SetBytes "a" (as_bytes "1")); BeginTx; BeginTx; OnTx 0 (SetJson "b" (JsData "22"));
  OnStore (Delete "a"); OnTx 0 (Has "a"); OnTx 1 (Has "b"); Commit 0; OnTx 1 (GetJson "b");
  OnTx 0 (Has "b"); OnTx 1 (SetJson "a" JsNull); Rollback 1; Commit 1;
  Gets None Next (None, None) (Some "b")].

Definition two_handles_replies : list (JsValue string + JsReply string) := [
  inr (RValue JsNull); inr (RValue (JsTx 0)); inr (RValue (JsTx 1)); inr (RValue JsNull);
  inr (RValue (JsBoolean true)); inr (RValue (JsBoolean false)); inr (RValue (JsBoolean false));
  inr (RValue JsUndefined); inr (RValue (JsData "22")); inl (JsError CLOSED);
  inl (JsError "serialization error: expected a string"); inr (RValue JsUndefined); inl (JsError CLOSED);
  inl (JsError "expected single_query")].

Lemma js_scripts_witness :
  (js_calls 20 two_handles js_btree_new).1 = two_handles_replies ∧
  ∃ p w, ox_js_create (C := LruCache string SstFile) (D := string) (Some "p") "w" empty_lru = (inr (1%N, p), w) ∧
    (ox_js_calls "p" 1 "w" 20 two_handles p).1 = two_handles_replies.
Proof.
  pose proof (js_scripts (Some "p") "w" empty_lru eq_refl two_keys two_values 20 two_handles None 0 eq_refl) as Hs.
  destruct (js_specs two_handles js_empty) as [rs x] eqn:Hspec. destruct Hs as (Hb & (p & w & Hc & Hp) & _).
  - repeat apply Forall_cons_2; try exact I; try apply Forall_nil_2.
    all: cbn [script_rows method_rows]; try exact I.
    + apply two_row; by left.
    + intros doc [= <-]. apply two_row; by right.
    + by left.
    + intros doc [=].
  - apply (bool_decide_unpack _). vm_compute. exact I.
  - assert (rs = two_handles_replies) as ->.
    { change rs with (rs, x).1. rewrite <-Hspec. vm_compute. reflexivity. }
    split; [exact Hb|]. exists p, w. split; [exact Hc|].
    destruct (ox_js_calls _ _ _ _ _ p) as [rs' p']. exact (proj1 Hp).
Defined.
End witness.
